(* ===== verification/_CoqProject ===== *)
-Q . S2P
Prelude.v
Json.v
Task.v
Convert.v
ThreadPool.v
TaskExecutor.v
ExecutorPool.v
ExecutorFleet.v
ExecutorSettle.v
SystemSettle.v
HazardPointer.v
MpmcQueue.v
QueueProgress.v
QueueDomain.v
GrpcClient.v
ApiServer.v
ClientServer.v
