(* ===== verification/Prelude.v ===== *)
(** * TinyReactor: a verification library

    TinyReactor is a distributed task system in C++: clients submit tasks over
    gRPC, an asynchronous API server answers them, workers run registered
    functions on a thread pool with timers and retries.  The scheduler, storage
    and resource-reporter directories of [src/src] hold empty placeholder files;
    everything that has code is modelled here.

    ** How the parts interact

    A client turns a [Task] into a protobuf message ([TaskToProto]), sends it and
    turns the answer back.  The server keeps call contexts registered on
    completion queues, each driven by a thread.  A worker gives tasks to
    [TaskExecutor], which enqueues a closure on [ThreadPool]; the closure looks up
    the function, starts a timer on an asio [io_context] and records the verdict
    in the shared task record.  The common library also has a lock-free MPMC queue
    whose nodes are reclaimed through hazard pointers.

    ** The files

    - Prelude.v (this file): machine integers (a [w]-bit integer is a [Z] with its
      wrap-around written out, [uint64_t] arithmetic in [cpp_scope]), the [outcome]
      monad (a value, an exception, or undefined behaviour with its reason),
      association lists, and transition systems: [exec a s] is the state after
      action [a] or [None]; [run] folds it over a trace, [reachable] is the
      inductive reachability relation, [reachable_invariant] is rule induction.
      [total] and [gather] sum and collect over the threads of a system.
    - Json.v: the interfaces [JsonLib]/[JsonLaws] (nlohmann::json) and
      [StructLib]/[StructLaws] (google::protobuf::Struct), with one instance each
      (Module [JsonModel]).
    - Task.v: common/include/task.hpp, the record and its JSON form.
    - Convert.v: common/src/utils.cpp, utils.hpp and the messages of task.proto.
    - ThreadPool.v: common/include/thread_pool.hpp, common/src/thread_pool.cpp.
      [boost::lockfree::queue] is the class [LockFreeQueue] with its laws
      (instance: Module [BoundedQueue]).
    - TaskExecutor.v: worker/task-executor: registration, execute_task, run_task
      with its timers, retries and quota, the built-in fib.
    - ExecutorPool.v: the executor on the pool, both machines in step: execute_task
      starts an enqueue, a pop begins an activation of run_task, the worker leaves
      the closure when the activation is over.
    - ExecutorFleet.v: any number of executors with the static retry counter.
    - ExecutorSettle.v: the work a set of tasks can cause, as a measure, and what
      is left of every task when it is used up.
    - SystemSettle.v: the same on the pool of ThreadPool.v: how a closure gets through
      enqueue, the queue, the semaphore and a worker into its activation.
    - HazardPointer.v: common/include/hazard_pointer.hpp: every operation as a
      function, then acquire, protect, release, RetirePointer and Scan as an
      interleaving machine.
    - MpmcQueue.v: common/include/mpmc_queue.hpp, interleaved, over the contract of
      the domain, taken as given there (a node in a checked slot is not freed).
    - QueueProgress.v: the measure behind lock-freedom of the queue.
    - QueueDomain.v: the queue on the domain, both machines in step: dequeue acquires
      two slots, protects, checks, releases and retires through the domain, and a
      deleter frees a node of the queue.
    - GrpcClient.v: common/include/grpc_client.hpp, common/src/grpc_client.cpp: the
      tag state machines and the thread that completes them.
    - ApiServer.v: api-server (contexts, Run, Shutdown, drivers, main.cpp with
      [std::stoi]) and common/include/logger.hpp.
    - ClientServer.v: any number of callers inside submit_task_sync, gRPC's bindings of
      calls to contexts with the messages on the wire, and the server of ApiServer.v as
      one machine; the service the callers see is specified field by field.

    Each file ends with a Module of concrete traces: the witnesses of its theorems
    and the executions that exhibit a defect ([PoolTraces], [ExecutorTraces],
    [SystemTraces], [FleetTraces], [SettleTraces], [ServiceTraces], [HazardTraces], [QueueTraces],
    [ProgressTraces], [DomainTraces], [ClientTraces], [ServerTraces],
    [SystemCallTraces]).  Everything is executable, so these are evaluated by the
    kernel.

    ** Concurrency

    The pool, the executor, the hazard pointers, the queue, the client and the
    server are transition systems.  A state is a record with the members of the
    class, the program counter of every thread inside it, and history fields
    (what was pushed, run, retired, ...), which no step reads.  One access to an
    atomic, a mutex, a semaphore, a queue or a shared task is one step; actions
    name the thread that moves, so the reachable states are those of all
    interleavings.  Memory is sequentially consistent, except that HazardPointer.v
    and QueueDomain.v also delay the stores to hazard slots ([fence = false]), as
    their release order permits.  A second parameter of these two, [link_first],
    is the order of the stores that put a new slot on the list; the code is
    [fence = false], [link_first = false].  Objects under manual memory management (slots, nodes, tags,
    call contexts) live at indices of a list that only grows, so use after
    deletion is observable.

    ** What the theorems show

    - Data: JSON and protobuf round trips of tasks ([task_json_roundtrip],
      [task_proto_roundtrip], [struct_roundtrip_leaves]), with what the protobuf form
      loses written into the statements (integers beyond 2^53, arrays, nulls, the place
      of a scalar document); errors of [from_json] ([from_json_missing_member]).
    - Thread pool: first in, first out, nothing lost or run twice
      ([pool_fifo_conservation]); a queued task is run within five steps of the
      threads at work while the semaphore stays within its maximum
      ([no_lost_wakeup]), and a lost wake-up when it saturates; exact
      counters ([thread_count_exact], [tasks_left_no_underflow]); termination after
      [stop_] ([workers_stop]); order with one worker; the order in which the
      destructor destroys members that workers still use.
    - Executor: calls and retries bounded ([retry_bound]), the quota over all
      executors of the process ([fleet_quota]), widths and inputs of the tasks kept
      ([tasks_typed]), every activation ends ([run_task_terminates]), one undisturbed
      activation on every branch ([run_task_completes], [run_task_rejects]), deadline
      arithmetic ([remaining_timeout_exact]), fib against the recursive definition,
      with its overflow; a stale timer that overwrites a success.  A registered function
      may write its task while it runs ([FnReport]): state, result, message and times;
      it is taken to leave the members the task was submitted with and the retry
      counter alone.  Tasks may be submitted again and share flags; the bounds on
      calls and work are for tasks submitted once.
    - Executor, over all schedules: the work of the submitted tasks is bounded
      ([executor_work_bounded]), it never gets stuck, and when it is done every task
      has a final state ([every_task_settles]).
    - Executor and pool together: refinement of both machines
      ([executor_pool_refines]), one activation per closure and one worker per
      activation ([one_activation_per_closure]); from every reachable state in which
      the semaphore has not been overrun the two can finish all submitted tasks by
      themselves, within its maximum ([system_settles]).
    - Hazard pointers: protection ([hazard_safety]), conservation
      ([retire_ledger], [Scan_conserves]), the machine refines the functions
      [acquire] and [Scan] ([acquire_alone], [scan_refines]), the steps and the end of
      an interleaved search of the slot list ([release_assertion_holds]), the cases of [RetirePointer] up to
      the second lock of its own mutex; the two executions that break protection,
      one with the release store too weak, one with a scan between the two stores
      of [acquire], and a simulation showing that such a scan is the only
      difference the order of these stores makes ([complete_step]).
    - MPMC queue, given the contract of the domain: refinement of a FIFO queue
      ([mpmc_fifo]), memory safety of [dequeue], lock-freedom with a bound that counts
      the spurious failures of weak compare-exchanges ([queue_lock_free]), termination
      and result of an [enqueue] and of a [dequeue] that run alone, the destructor; the
      use after free in [enqueue].
    - Queue and domain together, with the store of [protect] visible in time and no
      scan reading an unlinked slot: refinement of both machines
      ([queue_domain_refines]), conservation of the nodes across both
      ([nodes_conserved]).  The code ensures neither condition; with the code as it is,
      there is a use after free in [dequeue] for want of each
      ([dequeue_use_after_free]).
    - Client and server: one pending operation per live tag or context, [Finish] at
      most once ([listen_protocol], [contexts_conserved]), what a subscriber sees
      ([listen_delivers]), completion of a shutdown ([shutdown_completes]); futures
      that never become ready, contexts lost on a failed reply, operations on a
      queue already shut down, a client destroyed during a stream
      ([destroy_during_stream]), and a driver thread that joins itself ([join_self]).
    - Clients and server together: refinement of the service that answers every call
      with its own request ([server_refines_echo]), progress of all waiting callers
      ([server_answers]), what submit_task_sync returns among other calls
      ([submit_sync_concurrent]).

    ** Fuel and bounds

    Walks over the slot list take the number of cells as fuel, enough under
    [slots_ok], which holds whenever no slot is being linked; in the interleaving
    machine a walk needs none, and ends ([release_assertion_holds]); the queue's destructor and its content take the
    number of nodes of the heap, enough under the queue's invariant.  Both are
    proved to suffice.  [JsonToStruct] and [StructToJson] take the number of stack
    frames; one per nesting level suffices, and fewer is undefined behaviour, not
    an error value.

    ** Outside src/

    Parameters with documented behaviour as hypotheses: nlohmann::json and
    protobuf's Struct (classes above), [boost::lockfree::queue], the semaphore (its maximum, at
    least 1, and its value after a release past it: [semaphore]), asio timers and
    the clock (actions [Tick], [Expire], [Handle]), registered functions
    ([TaskFunction], which may depend on the moment they see the cancellation flag
    set), the results gRPC reports (arguments of completion events), a moved-from
    task ([moved_from]), and [release_hazard_pointer], which mpmc_queue.hpp calls
    and no file defines.

    ** Not modelled

    The generated protobuf and gRPC code, logging output, addresses and cache
    alignment, exceptions thrown by a task inside the pool (they end the process),
    allocation failure, data races on non-atomic members as such (the steps that
    would race are in the machine, the race is not a state of it), and the weak
    memory orders other than the one above.  [update_task_state] is a single step.
    The directories of the scheduler, the storage and the resource reporter, and
    the other files listed as placeholders, hold no code.

    ** Possible extensions

    Delayed stores to the nodes of the queue; fairness of the pool's workers, which
    poll, as a bound on every schedule. *)

From Stdlib Require Export ZArith Lia.
From stdpp Require Export prelude gmap strings.

#[global] Open Scope Z_scope.

(** ** Machine integers

    A [w]-bit unsigned integer is a [Z] in [0, 2^w); the conversions below are
    the ones the C++ standard gives to [static_cast]. *)

Definition wrap (w z : Z) : Z := z mod 2 ^ w.
Definition swrap (w z : Z) : Z := (z + 2 ^ (w - 1)) mod 2 ^ w - 2 ^ (w - 1).

Abbreviation u8 := (wrap 8).
Abbreviation u16 := (wrap 16).
Abbreviation u32 := (wrap 32).
Abbreviation u64 := (wrap 64).
Abbreviation i32 := (swrap 32).
Abbreviation i64 := (swrap 64).

(** Addition and subtraction of [size_t] and [uint64_t]. *)
Declare Scope cpp_scope.
Delimit Scope cpp_scope with cpp.
Notation "x '+u64' y" := (wrap 64 (x + y)) (at level 50, left associativity) : cpp_scope.
Notation "x '-u64' y" := (wrap 64 (x - y)) (at level 50, left associativity) : cpp_scope.

Definition fits (w z : Z) : Prop := 0 <= z < 2 ^ w.
Definition sfits (w z : Z) : Prop := - 2 ^ (w - 1) <= z < 2 ^ (w - 1).

Lemma wrap_small (w z : Z) : fits w z -> wrap w z = z.
Proof. unfold wrap, fits. intros. by apply Z.mod_small. Qed.

Lemma wrap_fits (w z : Z) : 0 <= w -> fits w (wrap w z).
Proof. intros. apply Z.mod_pos_bound. by apply Z.pow_pos_nonneg. Qed.

Lemma wrap_add_l (w x y : Z) : wrap w (wrap w x + y) = wrap w (x + y).
Proof. unfold wrap. apply Zplus_mod_idemp_l. Qed.

Lemma wrap_sub_l (w x y : Z) : wrap w (wrap w x - y) = wrap w (x - y).
Proof. unfold wrap. apply Zminus_mod_idemp_l. Qed.

Lemma wrap_sub_r (w x y : Z) : wrap w (x - wrap w y) = wrap w (x - y).
Proof. unfold wrap. apply Zminus_mod_idemp_r. Qed.

Lemma wrap_wrap (w z : Z) : wrap w (wrap w z) = wrap w z.
Proof. unfold wrap. apply Zmod_mod. Qed.

Lemma swrap_small (w z : Z) : 0 < w -> sfits w z -> swrap w z = z.
Proof.
  unfold swrap, sfits. intros Hw Hz.
  assert (2 ^ w = 2 * 2 ^ (w - 1)) as Hp.
  { rewrite <- Z.pow_succ_r by lia. f_equal. lia. }
  rewrite Z.mod_small by lia. lia.
Qed.

Lemma swrap_sfits (w z : Z) : 0 < w -> sfits w (swrap w z).
Proof.
  unfold swrap, sfits. intros Hw.
  assert (2 ^ w = 2 * 2 ^ (w - 1)) as Hp.
  { rewrite <- Z.pow_succ_r by lia. f_equal. lia. }
  assert (0 < 2 ^ w) by (apply Z.pow_pos_nonneg; lia).
  pose proof (Z.mod_pos_bound (z + 2 ^ (w - 1)) (2 ^ w)). lia.
Qed.

(** Within one turn of the range, wrapping adds or subtracts [2 ^ 64] at most once. *)
Lemma swrap_near (z : Z) :
  - 2 ^ 64 - 2 ^ 63 <= z < 2 ^ 64 + 2 ^ 63 ->
  swrap 64 z = if z <? - 2 ^ 63 then z + 2 ^ 64 else if z <? 2 ^ 63 then z else z - 2 ^ 64.
Proof.
  intros Hz. unfold swrap. change (64 - 1) with 63.
  destruct (Z.ltb_spec z (- 2 ^ 63)); [|destruct (Z.ltb_spec z (2 ^ 63))];
    [replace (z + 2 ^ 63) with (z + 2 ^ 64 + 2 ^ 63 + (-1) * 2 ^ 64) by lia; rewrite Z_mod_plus_full
    | | replace (z + 2 ^ 63) with (z - 2 ^ 64 + 2 ^ 63 + 1 * 2 ^ 64) by lia; rewrite Z_mod_plus_full];
    rewrite Z.mod_small; lia.
Qed.

Lemma swrap_wrap (w z : Z) : swrap w (wrap w z) = swrap w z.
Proof. unfold swrap, wrap. by rewrite Zplus_mod_idemp_l. Qed.

Create HintDb machine_int.
Create Rewrite HintDb machine_int.
#[export] Hint Resolve wrap_small wrap_fits swrap_small swrap_sfits : machine_int.
#[export] Hint Rewrite wrap_add_l wrap_sub_l wrap_sub_r wrap_wrap swrap_wrap : machine_int.

(** [fits]/[sfits] side conditions at a literal width. *)
Ltac width := unfold fits, sfits in *; lia.

(** ** Outcomes of a C++ call

    A call returns a value, throws an exception, or has undefined behaviour;
    the last one carries the reason. *)

Inductive outcome (E A : Type) : Type :=
| Ret (a : A)
| Throw (e : E)
| Undef (why : string).
Arguments Ret {E A} a.
Arguments Throw {E A} e.
Arguments Undef {E A} why.

#[export] Instance outcome_ret {E} : MRet (outcome E) := fun A a => Ret a.
#[export] Instance outcome_bind {E} : MBind (outcome E) := fun A B f m =>
  match m with
  | Ret a => f a
  | Throw e => Throw e
  | Undef w => Undef w
  end.
#[export] Instance outcome_fmap {E} : FMap (outcome E) := fun A B f m =>
  match m with
  | Ret a => Ret (f a)
  | Throw e => Throw e
  | Undef w => Undef w
  end.

Definition returns {E A} (m : outcome E A) : Prop := exists a, m = Ret a.

Lemma bind_ret {E A B} (a : A) (f : A -> outcome E B) : mbind f (Ret a) = f a.
Proof. reflexivity. Qed.

Lemma bind_ret_inv {E A B} (m : outcome E A) (f : A -> outcome E B) (b : B) :
  mbind f m = Ret b -> exists a, m = Ret a /\ f a = Ret b.
Proof. destruct m; cbn; [eauto | discriminate | discriminate]. Qed.

(** Left fold in the outcome monad: the body of a range-based [for]. *)
Fixpoint mfold {E A B} (f : B -> A -> outcome E B) (b : B) (l : list A) : outcome E B :=
  match l with
  | [] => Ret b
  | x :: l => b' ← f b x; mfold f b' l
  end.

Lemma mfold_mono {E A B} (f g : B -> A -> outcome E B) (l : list A) b r :
  (forall b x b', f b x = Ret b' -> g b x = Ret b') -> mfold f b l = Ret r -> mfold g b l = Ret r.
Proof.
  intros Hfg. revert b. induction l as [|x l IH]; intros b; cbn; [done|].
  intros (b' & Hb & Hr)%bind_ret_inv. rewrite (Hfg _ _ _ Hb). cbn. auto.
Qed.

(** ** Association lists *)

Fixpoint find_key {V} (k : string) (l : list (string * V)) : option V :=
  match l with
  | [] => None
  | (k', v) :: l => if String.eqb k k' then Some v else find_key k l
  end.

Section find_key.
Context {V : Type}.
Implicit Types (l : list (string * V)).

Lemma find_key_In (k : string) (v : V) l : find_key k l = Some v -> (k, v) ∈ l.
Proof.
  induction l as [|[k' v'] l IH]; cbn; [done|].
  destruct (String.eqb_spec k k') as [->|]; intros H; [|set_solver].
  injection H as ->. set_solver.
Qed.

Lemma find_key_None (k : string) l : find_key k l = None <-> k ∉ l.*1.
Proof.
  induction l as [|[k' v'] l IH]; cbn; [set_solver|].
  destruct (String.eqb_spec k k') as [->|]; [|set_solver].
  split; [done|]. set_solver.
Qed.

Lemma In_find_key (k : string) (v : V) l : NoDup l.*1 -> (k, v) ∈ l -> find_key k l = Some v.
Proof.
  induction l as [|[k' v'] l IH]; cbn; [set_solver|].
  intros [Hk Hl]%NoDup_cons [E | Hin]%elem_of_cons.
  - simplify_eq. by rewrite String.eqb_refl.
  - destruct (String.eqb_spec k k') as [->|]; [|auto].
    exfalso. apply Hk. apply list_elem_of_fmap. by exists (k', v).
Qed.

(** Lookups do not depend on the order of the entries. *)
Lemma find_key_Permutation (k : string) l l' :
  NoDup l.*1 -> l ≡ₚ l' -> find_key k l = find_key k l'.
Proof.
  intros Hl Hp. assert (NoDup l'.*1) as Hl' by (by rewrite <- Hp).
  destruct (find_key k l') as [v|] eqn:E.
  - apply In_find_key; [done|]. apply (elem_of_Permutation_proper _ _ _ Hp). by apply find_key_In.
  - apply find_key_None in E. apply find_key_None. by rewrite Hp.
Qed.
End find_key.

(** ** Transition systems with an executable step

    [exec a s] is the state after action [a], or [None] when [a] is not enabled
    in [s].  A trace is a list of actions, so a reachability witness is a
    computation. *)

Section machine.
Context {St Act : Type} (exec : Act -> St -> option St).

Fixpoint run (tr : list Act) (s : St) : option St :=
  match tr with
  | [] => Some s
  | a :: tr => s' ← exec a s; run tr s'
  end.

Inductive reachable (init : St -> Prop) : St -> Prop :=
| reach_init s : init s -> reachable init s
| reach_step s a s' : reachable init s -> exec a s = Some s' -> reachable init s'.

Lemma run_app (tr1 tr2 : list Act) (s : St) :
  run (tr1 ++ tr2) s = s' ← run tr1 s; run tr2 s'.
Proof.
  revert s. induction tr1 as [|a tr1 IH]; intros s; [done|].
  cbn. destruct (exec a s); cbn; [apply IH | done].
Qed.

Lemma run_reachable (init : St -> Prop) (tr : list Act) (s s' : St) :
  reachable init s -> run tr s = Some s' -> reachable init s'.
Proof.
  revert s. induction tr as [|a tr IH]; intros s Hs Hrun; cbn in Hrun.
  - by simplify_eq.
  - destruct (exec a s) as [s1|] eqn:E; cbn in Hrun; [|done].
    eapply IH; [|done]. by eapply reach_step.
Qed.

(** A concrete trace that does not get stuck, decided by evaluation. *)
Definition runs_through (tr : list Act) (s : St) : bool :=
  match run tr s with Some _ => true | None => false end.

Lemma run_default (tr : list Act) (s d : St) :
  runs_through tr s = true -> run tr s = Some (default d (run tr s)).
Proof. unfold runs_through. by destruct (run tr s). Qed.

Lemma default_reachable (init : St -> Prop) (tr : list Act) (s d : St) :
  init s -> runs_through tr s = true -> reachable init (default d (run tr s)).
Proof. intros Hs Hr. eapply run_reachable; [by apply reach_init|]. by apply run_default. Qed.

(** One action repeated: a thread that runs alone. *)
Definition repeats (a : Act) (s s' : St) : Prop := exists k, run (replicate k a) s = Some s'.

Lemma repeats_refl a s : repeats a s s.
Proof. by exists O. Qed.

Lemma repeats_trans a s1 s2 s3 : repeats a s1 s2 -> repeats a s2 s3 -> repeats a s1 s3.
Proof.
  intros [k1 E1] [k2 E2]. exists (k1 + k2)%nat. rewrite replicate_add, run_app, E1. done.
Qed.

Lemma repeats_cons a s1 s2 s3 : exec a s1 = Some s2 -> repeats a s2 s3 -> repeats a s1 s3.
Proof. intros E [k Ek]. exists (S k). cbn. by rewrite E. Qed.

(** Rule induction: an invariant that every action preserves holds in every
    reachable state. *)
Lemma reachable_invariant (init I : St -> Prop) :
  (forall s, init s -> I s) ->
  (forall s a s', I s -> exec a s = Some s' -> I s') ->
  forall s, reachable init s -> I s.
Proof. intros Hi Hs s Hr. induction Hr; eauto. Qed.

(** The same along a given trace. *)
Lemma reachable_mono (init init' : St -> Prop) s :
  (forall s0, init s0 -> init' s0) -> reachable init s -> reachable init' s.
Proof. intros Hi Hr. induction Hr; [by apply reach_init, Hi | by eapply reach_step]. Qed.

Lemma run_invariant (I : St -> Prop) :
  (forall s a s', I s -> exec a s = Some s' -> I s') ->
  forall tr s s', I s -> run tr s = Some s' -> I s'.
Proof.
  intros Hs tr. induction tr as [|a tr IH]; intros s s' HI Hrun; cbn in Hrun.
  - by simplify_eq.
  - destruct (exec a s) as [s1|] eqn:E; cbn in Hrun; [|done]. eauto.
Qed.
End machine.

(** A run of a restriction is a run. *)
Lemma run_lift {St Act} (exec exec' : Act -> St -> option St) (tr : list Act) (s s' : St) :
  (forall a s s', exec a s = Some s' -> exec' a s = Some s') ->
  run exec tr s = Some s' -> run exec' tr s = Some s'.
Proof.
  intros Hle. revert s. induction tr as [|a tr IH]; intros s E; cbn in *; [done|].
  apply bind_Some in E as (s1 & E1 & E). rewrite (Hle _ _ _ E1). cbn. by apply IH.
Qed.

(** [open_step E] opens a hypothesis [E : exec a s = Some s'], whose left side has
    been unfolded, into the branches of the step function; [s'] is replaced. *)
Ltac open_step E :=
  repeat
    (match type of E with
     | _ ≫= _ = Some _ =>
         let x := fresh "x" in let Hx := fresh "Hx" in apply bind_Some in E as (x & Hx & E)
     | None = Some _ => discriminate E
     | context [match ?x with _ => _ end] =>
         lazymatch type of x with
         | sumbool _ _ => destruct x
         | _ => let Hb := fresh "Hb" in destruct x eqn:Hb
         end
     end; cbn beta iota in E; try discriminate E);
  try (injection E as E; subst).

(** Boolean comparisons of [Z] in the hypotheses, as propositions. *)
Ltac bools :=
  repeat match goal with
  | H : (_ =? _) = true |- _ => apply Z.eqb_eq in H
  | H : (_ =? _) = false |- _ => apply Z.eqb_neq in H
  | H : (_ <? _) = true |- _ => apply Z.ltb_lt in H
  | H : (_ <? _) = false |- _ => apply Z.ltb_ge in H
  | H : (_ <=? _) = true |- _ => apply Z.leb_le in H
  | H : (_ <=? _) = false |- _ => apply Z.leb_gt in H
  | H : (_ && _) = true |- _ => apply andb_true_iff in H as [? ?]
  | H : negb _ = true |- _ => apply negb_true_iff in H
  | H : negb _ = false |- _ => apply negb_false_iff in H
  | H : bool_decide _ = true |- _ => apply bool_decide_eq_true in H
  | H : bool_decide _ = false |- _ => apply bool_decide_eq_false in H
  end.

(** ** Updates of a list by index *)

Lemma alter_insert_at {A} (f : A -> A) (l : list A) i x :
  l !! i = Some x -> alter f i l = <[i := f x]> l.
Proof.
  revert i. induction l as [|y l IH]; intros [|i] Hi; simplify_eq/=; [done|]. by f_equal; apply IH.
Qed.

Lemma lookup_alter_at {A} (f : A -> A) (l : list A) i x :
  l !! i = Some x -> alter f i l !! i = Some (f x).
Proof. intros Hi. rewrite list_lookup_alter. case_decide; [|done]. by rewrite Hi. Qed.

(** The last element of a list, at the index of an allocation. *)
Lemma lookup_last {A} (l : list A) x : (l ++ [x]) !! length l = Some x.
Proof. by rewrite lookup_app_r, Nat.sub_diag by lia. Qed.

Lemma alter_last {A} (f : A -> A) (l : list A) x : alter f (length l) (l ++ [x]) = l ++ [f x].
Proof. induction l as [|y l IH]; [done|]. cbn. by f_equal. Qed.

Lemma insert_last {A} (l : list A) x y : <[length l := y]> (l ++ [x]) = l ++ [y].
Proof. induction l as [|z l IH]; [done|]. cbn. by f_equal. Qed.

(** ** Sums over the threads of a pool *)

Section total.
Context {A : Type}.
Implicit Types (f g : A -> Z) (l : list A).

Fixpoint total f l : Z :=
  match l with
  | [] => 0
  | x :: l => f x + total f l
  end.

Lemma total_app f l k : total f (l ++ k) = total f l + total f k.
Proof. induction l; cbn; lia. Qed.

Lemma total_insert f l i x y :
  l !! i = Some x -> total f (<[i := y]> l) = total f l - f x + f y.
Proof.
  revert i. induction l as [|z l IH]; intros [|i] H; simplify_eq/=; [lia|].
  rewrite (IH _ H). lia.
Qed.

Lemma total_alter f (g : A -> A) l i x :
  l !! i = Some x -> total f (alter g i l) = total f l - f x + f (g x).
Proof.
  revert i. induction l as [|z l IH]; intros [|i] H; simplify_eq/=; [lia|].
  change (f z + total f (alter g i l) = f z + total f l - f x + f (g x)). rewrite (IH _ H). lia.
Qed.

Lemma total_delete f l i x : l !! i = Some x -> total f (delete i l) = total f l - f x.
Proof.
  revert i. induction l as [|z l IH]; intros [|i] H; simplify_eq/=; [lia|].
  change (f z + total f (delete i l) = f z + total f l - f x). rewrite (IH _ H). lia.
Qed.

Lemma total_nonneg f l : (forall x, 0 <= f x) -> 0 <= total f l.
Proof. intros H. induction l as [|x l IH]; cbn; [lia|]. specialize (H x). lia. Qed.

Lemma total_lookup_le f l i x :
  (forall y, 0 <= f y) -> l !! i = Some x -> f x <= total f l.
Proof.
  intros Hf. revert i. induction l as [|z l IH]; intros [|i] H; simplify_eq/=.
  - pose proof (total_nonneg f l Hf). lia.
  - specialize (IH _ H). specialize (Hf z). lia.
Qed.

Lemma total_lookup_le_mem f l i x :
  (forall y, y ∈ l -> 0 <= f y) -> l !! i = Some x -> f x <= total f l.
Proof.
  revert i. induction l as [|z l IH]; intros [|i] Hf H; simplify_eq/=.
  - enough (0 <= total f l) by lia. clear IH. induction l as [|y l IH]; cbn; [lia|].
    pose proof (Hf y ltac:(set_solver)). enough (0 <= total f l) by lia. apply IH. set_solver.
  - pose proof (Hf z ltac:(set_solver)). enough (f x <= total f l) by lia. eapply IH; [set_solver|done].
Qed.

Lemma total_le f g l : (forall x, f x <= g x) -> total f l <= total g l.
Proof. intros H. induction l as [|x l IH]; cbn; [lia|]. specialize (H x). lia. Qed.

Lemma total_ext f g l : (forall x, f x = g x) -> total f l = total g l.
Proof. intros H. induction l as [|x l IH]; cbn; [done|]. by rewrite H, IH. Qed.

Lemma total_ext_mem f g l : (forall x, x ∈ l -> f x = g x) -> total f l = total g l.
Proof.
  induction l as [|x l IH]; intros H; cbn; [done|]. rewrite H, IH by (intros; try apply H; set_solver). done.
Qed.

Lemma total_shift f g c l : (forall x, f x <= g x + c) -> total f l <= total g l + c * Z.of_nat (length l).
Proof. intros H. induction l as [|x l IH]; cbn [total length]; [lia|]. specialize (H x). lia. Qed.

Lemma total_const_le f l c : (forall x, f x <= c) -> 0 <= c -> total f l <= c * Z.of_nat (length l).
Proof. intros H Hc. induction l as [|x l IH]; cbn [total length]; [lia|]. specialize (H x). nia. Qed.

Lemma total_pos f l : 0 < total f l -> exists i x, l !! i = Some x /\ 0 < f x.
Proof.
  induction l as [|x l IH]; cbn; [lia|]. intros H. destruct (Z.lt_ge_cases 0 (f x)).
  - by exists O, x.
  - destruct IH as (i & y & Hi & Hy); [lia|]. by exists (S i), y.
Qed.

Lemma total_zero f l : (forall x, x ∈ l -> f x = 0) -> total f l = 0.
Proof.
  induction l as [|x l IH]; intros H; cbn; [done|].
  rewrite H, IH by (intros; try apply H; set_solver). lia.
Qed.
End total.

(** The tasks, handlers, ... held by the threads of a pool, as a list. *)
Section gather.
Context {A B : Type} (f : A -> list B).

Definition gather (l : list A) : list B := concat (f <$> l).

Lemma gather_app l k : gather (l ++ k) = gather l ++ gather k.
Proof. unfold gather. by rewrite fmap_app, concat_app. Qed.

Lemma gather_insert l i x y :
  l !! i = Some x -> f x ++ gather (<[i := y]> l) ≡ₚ f y ++ gather l.
Proof.
  unfold gather. revert i. induction l as [|z l IH]; intros [|i] H; simplify_eq/=.
  - solve_Permutation.
  - specialize (IH _ H). rewrite !app_assoc, (Permutation_app_comm _ (f z)).
    rewrite <- app_assoc, IH. rewrite !app_assoc. by rewrite (Permutation_app_comm (f z)).
Qed.

Lemma gather_insert_same l i x y :
  l !! i = Some x -> f x = f y -> gather (<[i := y]> l) = gather l.
Proof.
  unfold gather. intros Hi Hf. f_equal. rewrite list_fmap_insert, <- Hf.
  apply list_insert_id. by rewrite list_lookup_fmap, Hi.
Qed.

Lemma gather_insert_take l i x y b :
  l !! i = Some x -> f x = [] -> f y = [b] -> gather (<[i := y]> l) ≡ₚ b :: gather l.
Proof. intros Hi Hx Hy. pose proof (gather_insert l i x y Hi) as HP. by rewrite Hx, Hy in HP. Qed.

Lemma gather_insert_drop l i x y b :
  l !! i = Some x -> f x = [b] -> f y = [] -> b :: gather (<[i := y]> l) ≡ₚ gather l.
Proof. intros Hi Hx Hy. pose proof (gather_insert l i x y Hi) as HP. by rewrite Hx, Hy in HP. Qed.

Lemma elem_of_gather l i x b : l !! i = Some x -> b ∈ f x -> b ∈ gather l.
Proof.
  intros Hi Hb. unfold gather. apply list_elem_of_In, in_concat. exists (f x).
  split; apply list_elem_of_In; [|done]. apply list_elem_of_fmap. exists x. split; [done|].
  by eapply list_elem_of_lookup_2.
Qed.

Lemma gather_elem l b : b ∈ gather l -> exists i x, l !! i = Some x /\ b ∈ f x.
Proof.
  unfold gather. intros Hb%list_elem_of_In. apply in_concat in Hb as (bs & Hbs%list_elem_of_In & Hb%list_elem_of_In).
  apply list_elem_of_fmap in Hbs as (x & -> & [i Hi]%list_elem_of_lookup). eauto.
Qed.

(** A holder gains a last element, or loses its first one. *)
Lemma gather_insert_add l i x y b :
  l !! i = Some x -> f y = f x ++ [b] -> gather (<[i := y]> l) ≡ₚ b :: gather l.
Proof.
  intros Hi Hy. pose proof (gather_insert l i x y Hi) as HP. rewrite Hy, <- app_assoc in HP.
  by apply Permutation_app_inv_l in HP.
Qed.

Lemma gather_insert_pop l i x y b :
  l !! i = Some x -> f x = b :: f y -> b :: gather (<[i := y]> l) ≡ₚ gather l.
Proof.
  intros Hi Hx. pose proof (gather_insert l i x y Hi) as HP. rewrite Hx in HP. cbn in HP.
  rewrite Permutation_middle in HP. by apply Permutation_app_inv_l in HP.
Qed.

Lemma gather_alter_same (g : A -> A) l i :
  (forall x, f (g x) = f x) -> gather (alter g i l) = gather l.
Proof.
  intros Hg. destruct (l !! i) as [x|] eqn:Hi.
  - rewrite (alter_insert_at _ _ _ _ Hi). by apply (gather_insert_same l i x).
  - f_equal. apply list_eq. intros j. rewrite list_lookup_alter. case_decide; [|done]. subst. by rewrite Hi.
Qed.
End gather.
Arguments gather : simpl never.
