(* ===== verification/Json.v ===== *)
(** * JSON values and protobuf structs: the two data interfaces of the program

    The code under [src/] handles two dynamic data types that it does not
    define: [nlohmann::json] (task parameters and results) and
    [google::protobuf::Struct] (their form on the wire).  Both are parameters of
    the development.  [JsonLib] and [StructLib] list the operations the code
    calls; [JsonLaws] and [StructLaws] state the documented behaviour of those
    operations that the proofs rely on.  Every theorem of the client files is
    proved against the classes.  The last section gives one instance of each
    class, an ordinary tree, so that the laws are known to be satisfiable and
    the definitions of the client files can be evaluated. *)

From Stdlib Require Export SpecFloat.
From S2P Require Import Prelude.

(** A C++ [double]: binary64 without NaN payloads.  [double_of_Z] is the conversion
    of an integer, to the nearest double, ties to even. *)
Abbreviation double := spec_float.
Definition double_of_Z (z : Z) : double := binary_normalize 53 1024 z 0 false.

#[export] Instance double_eq_dec : EqDecision double.
Proof. solve_decision. Defined.

(** ** nlohmann::json *)

(** The [value_t] enumeration. *)
Inductive value_t :=
| t_null | t_object | t_array | t_string | t_boolean
| t_number_integer | t_number_unsigned | t_number_float | t_binary | t_discarded.

#[export] Instance value_t_eq_dec : EqDecision value_t.
Proof. solve_decision. Defined.

(** [json::type_error] and [json::out_of_range] with their documented ids. *)
Inductive json_exn :=
| type_error (id : Z)
| out_of_range (id : Z).

Class JsonLib (J : Type) := {
  json_null : J;                                         (* json() *)
  json_of_bool : bool -> J;
  json_of_int : Z -> J;                                  (* a signed integer *)
  json_of_uint : Z -> J;                                 (* an unsigned integer *)
  json_of_double : double -> J;
  json_of_string : string -> J;
  json_of_members : list (string * J) -> J;              (* {{"k", v}, ...} *)
  json_type : J -> value_t;                              (* type() *)
  json_items : J -> list (string * J);                   (* items() *)
  json_assign : J -> string -> J -> outcome json_exn J;  (* j[k] = v *)
  json_at : J -> string -> outcome json_exn J;           (* at(k) *)
  json_get_bool : J -> outcome json_exn bool;
  json_get_uint : Z -> J -> outcome json_exn Z;          (* get<uintW_t>() *)
  json_get_sint : Z -> J -> outcome json_exn Z;          (* get<intW_t>() *)
  json_get_double : J -> outcome json_exn double;
  json_get_string : J -> outcome json_exn string;
  json_value_int : J -> string -> Z -> outcome json_exn Z; (* value(k, int default) *)
}.

Section json_predicates.
Context {J : Type} `{JsonLib J}.
Implicit Types j : J.

Definition is_null j : bool := bool_decide (json_type j = t_null).
Definition is_boolean j : bool := bool_decide (json_type j = t_boolean).
Definition is_string j : bool := bool_decide (json_type j = t_string).
Definition is_array j : bool := bool_decide (json_type j = t_array).
Definition is_object j : bool := bool_decide (json_type j = t_object).
Definition is_number j : bool :=
  match json_type j with
  | t_number_integer | t_number_unsigned | t_number_float => true
  | _ => false
  end.
Definition is_structured j : bool := is_array j || is_object j.
End json_predicates.

(** The documented behaviour the code relies on. *)
Class JsonLaws (J : Type) `{JsonLib J} := {
  json_depth : J -> nat;
  (* a container is a finite tree *)
  json_depth_items (j : J) k v :
    is_structured j = true -> find_key k (json_items j) = Some v -> (json_depth v < json_depth j)%nat;
  (* keys are unique; null has no items; any other scalar has itself as its one item *)
  json_items_NoDup (j : J) : NoDup (json_items j).*1;
  json_items_null (j : J) : json_type j = t_null -> json_items j = [];
  json_items_scalar (j : J) :
    is_structured j = false -> is_null j = false -> json_items j = [(EmptyString, j)];
  (* types of the constructors *)
  json_type_null : json_type json_null = t_null;
  json_type_bool b : json_type (json_of_bool b) = t_boolean;
  json_type_double d : json_type (json_of_double d) = t_number_float;
  json_type_string s : json_type (json_of_string s) = t_string;
  json_type_members l : json_type (json_of_members l) = t_object;
  (* reading back what was stored *)
  json_get_of_bool b : json_get_bool (json_of_bool b) = Ret b;
  json_get_of_double d : json_get_double (json_of_double d) = Ret d;
  json_get_of_string s : json_get_string (json_of_string s) = Ret s;
  json_get_of_uint w z : 0 <= w -> fits w z -> json_get_uint w (json_of_uint z) = Ret z;
  json_get_of_sint w z : 0 < w -> sfits w z -> json_get_sint w (json_of_int z) = Ret z;
  (* a value of the right type converts *)
  json_get_bool_ok (j : J) : json_type j = t_boolean -> returns (json_get_bool j);
  json_get_double_ok (j : J) : is_number j = true -> returns (json_get_double j);
  json_get_string_ok (j : J) : json_type j = t_string -> returns (json_get_string j);
  (* an integer is stored as a 64-bit integer, and read as a double by conversion *)
  json_get_integer (j : J) :
    json_type j = t_number_integer ->
    exists z, sfits 64 z /\ json_get_sint 64 j = Ret z /\ json_get_double j = Ret (double_of_Z z);
  json_get_unsigned (j : J) :
    json_type j = t_number_unsigned ->
    exists z, fits 64 z /\ json_get_uint 64 j = Ret z /\ json_get_double j = Ret (double_of_Z z);
  (* member access *)
  json_at_object (j : J) k :
    json_type j = t_object ->
    json_at j k = match find_key k (json_items j) with Some v => Ret v | None => Throw (out_of_range 403) end;
  json_at_other (j : J) k : json_type j <> t_object -> json_at j k = Throw (type_error 304);
  json_value_int_object (j : J) k z :
    json_type j = t_object ->
    json_value_int j k z =
    match find_key k (json_items j) with Some v => json_get_sint 32 v | None => Ret z end;
  json_value_int_other (j : J) k z :
    json_type j <> t_object -> json_value_int j k z = Throw (type_error 306);
  json_items_members l k :
    NoDup l.*1 -> find_key k (json_items (json_of_members l)) = find_key k l;
  (* j[k] = v turns null into an object and updates one member of an object *)
  json_assign_ok (j : J) k v :
    json_type j = t_null \/ json_type j = t_object ->
    exists j', json_assign j k v = Ret j' /\ json_type j' = t_object /\
      forall k', find_key k' (json_items j') = if String.eqb k' k then Some v else find_key k' (json_items j);
}.

(** ** google::protobuf::Struct *)

(** [Value::kind_case()] with its payload; list values are never built or read. *)
Inductive kind_case (S : Type) :=
| KIND_NOT_SET
| kNullValue
| kNumberValue (d : double)
| kStringValue (s : string)
| kBoolValue (b : bool)
| kStructValue (s : S)
| kListValue.
Arguments KIND_NOT_SET {S}.
Arguments kNullValue {S}.
Arguments kNumberValue {S} d.
Arguments kStringValue {S} s.
Arguments kBoolValue {S} b.
Arguments kStructValue {S} s.
Arguments kListValue {S}.

Class StructLib (S V : Type) := {
  struct_empty : S;                               (* Clear() *)
  struct_put : string -> V -> S -> S;             (* mutable_fields()[k] = v *)
  struct_fields : S -> list (string * V);         (* fields(), in the map's own order *)
  value_unset : V;                                (* Value() *)
  value_of_null : V;
  value_of_number : double -> V;
  value_of_string : string -> V;
  value_of_bool : bool -> V;
  value_of_struct : S -> V;
  value_kind : V -> kind_case S;
}.

Class StructLaws (S V : Type) `{StructLib S V} := {
  struct_depth : S -> nat;
  struct_depth_fields (s s' : S) k (v : V) :
    find_key k (struct_fields s) = Some v -> value_kind v = kStructValue s' ->
    (struct_depth s' < struct_depth s)%nat;
  struct_fields_NoDup (s : S) : NoDup (struct_fields s).*1;
  struct_fields_empty : struct_fields struct_empty = [];
  struct_fields_put (s : S) k (v : V) k' :
    find_key k' (struct_fields (struct_put k v s)) =
    if String.eqb k' k then Some v else find_key k' (struct_fields s);
  value_kind_unset : value_kind value_unset = KIND_NOT_SET;
  value_kind_null : value_kind value_of_null = kNullValue;
  value_kind_number d : value_kind (value_of_number d) = kNumberValue d;
  value_kind_string s : value_kind (value_of_string s) = kStringValue s;
  value_kind_bool b : value_kind (value_of_bool b) = kBoolValue b;
  value_kind_struct s : value_kind (value_of_struct s) = kStructValue s;
}.

Create HintDb json.
Create Rewrite HintDb json.
#[export] Hint Rewrite @json_type_null @json_type_bool @json_type_double @json_type_string
  @json_type_members @json_get_of_bool @json_get_of_double @json_get_of_string
  @struct_fields_empty @struct_fields_put @value_kind_unset @value_kind_null @value_kind_number
  @value_kind_string @value_kind_bool @value_kind_struct using (typeclasses eauto) : json.

(** ** A model of the two interfaces *)

From stdpp Require Import pretty.

(** First occurrence of every key. *)
Fixpoint dedup {V} (l : list (string * V)) : list (string * V) :=
  match l with
  | [] => []
  | (k, v) :: l => (k, v) :: filter (fun kv => kv.1 <> k) (dedup l)
  end.

Section dedup.
Context {V : Type}.

Lemma find_key_filter_ne (k k' : string) (l : list (string * V)) :
  find_key k' (filter (fun kv => kv.1 <> k) l) = if String.eqb k' k then None else find_key k' l.
Proof.
  induction l as [|[k1 v1] l IH]; [by destruct (String.eqb k' k)|].
  rewrite filter_cons. case_decide as Hd; cbn in *.
  - destruct (String.eqb_spec k' k1) as [->|]; [|done].
    by destruct (String.eqb_spec k1 k).
  - subst k1. rewrite IH. by destruct (String.eqb k' k).
Qed.

Lemma find_key_dedup (k : string) (l : list (string * V)) : find_key k (dedup l) = find_key k l.
Proof.
  induction l as [|[k' v] l IH]; [done|]. cbn.
  destruct (String.eqb k k') eqn:E; [done|]. by rewrite find_key_filter_ne, E.
Qed.

Lemma dedup_NoDup (l : list (string * V)) : NoDup (dedup l).*1.
Proof.
  induction l as [|[k v] l IH]; cbn; [constructor|]. constructor.
  - apply find_key_None. by rewrite find_key_filter_ne, String.eqb_refl.
  - eapply sublist_NoDup; [done | apply fmap_sublist, sublist_filter].
Qed.
End dedup.

Module JsonModel.

Inductive jtree :=
| JNull
| JBool (b : bool)
| JInt (z : Z)
| JUint (z : Z)
| JFloat (d : double)
| JStr (s : string)
| JArr (l : list jtree)
| JObj (l : list (string * jtree)).

Definition jt_items (j : jtree) : list (string * jtree) :=
  match j with
  | JNull => []
  | JArr l => imap (fun i v => (pretty i, v)) l
  | JObj l => dedup l
  | _ => [(EmptyString, j)]
  end.

Definition jt_type (j : jtree) : value_t :=
  match j with
  | JNull => t_null
  | JBool _ => t_boolean
  | JInt _ => t_number_integer
  | JUint _ => t_number_unsigned
  | JFloat _ => t_number_float
  | JStr _ => t_string
  | JArr _ => t_array
  | JObj _ => t_object
  end.

Fixpoint jt_depth (j : jtree) : nat :=
  match j with
  | JArr l => S (fold_right (fun v n => Nat.max (jt_depth v) n) 0%nat l)
  | JObj l => S (fold_right (fun kv n => Nat.max (jt_depth kv.2) n) 0%nat l)
  | _ => 0%nat
  end.

#[export] Instance jtree_lib : JsonLib jtree := {|
  json_null := JNull;
  json_of_bool := JBool;
  json_of_int := JInt;
  json_of_uint := JUint;
  json_of_double := JFloat;
  json_of_string := JStr;
  json_of_members := JObj;
  json_type := jt_type;
  json_items := jt_items;
  json_assign j k v :=
    match j with
    | JNull => Ret (JObj [(k, v)])
    | JObj l => Ret (JObj ((k, v) :: l))
    | _ => Throw (type_error 305)
    end;
  json_at j k :=
    match j with
    | JObj l => match find_key k (dedup l) with Some v => Ret v | None => Throw (out_of_range 403) end
    | _ => Throw (type_error 304)
    end;
  json_get_bool j := match j with JBool b => Ret b | _ => Throw (type_error 302) end;
  json_get_uint w j :=
    match j with JInt z | JUint z => Ret (wrap w z) | _ => Throw (type_error 302) end;
  json_get_sint w j :=
    match j with JInt z | JUint z => Ret (swrap w z) | _ => Throw (type_error 302) end;
  json_get_double j :=
    match j with
    | JInt z => Ret (double_of_Z (swrap 64 z))
    | JUint z => Ret (double_of_Z (wrap 64 z))
    | JFloat d => Ret d
    | _ => Throw (type_error 302)
    end;
  json_get_string j := match j with JStr s => Ret s | _ => Throw (type_error 302) end;
  json_value_int j k z :=
    match j with
    | JObj l =>
        match find_key k (dedup l) with
        | Some (JInt n) | Some (JUint n) => Ret (swrap 32 n)
        | Some _ => Throw (type_error 302)
        | None => Ret z
        end
    | _ => Throw (type_error 306)
    end;
|}.

Lemma jt_keys_NoDup (l : list jtree) : NoDup (imap (fun i (v : jtree) => (pretty i, v)) l).*1.
Proof.
  assert ((imap (fun i (v : jtree) => (pretty i, v)) l).*1 = pretty <$> seq 0 (length l)) as ->.
  { apply list_eq. intros i. rewrite list_lookup_fmap, list_lookup_imap, list_lookup_fmap.
    destruct (l !! i) eqn:E; cbn.
    - rewrite lookup_seq_lt; [done|]. by apply lookup_lt_Some in E.
    - rewrite lookup_seq_ge; [done|]. by apply lookup_ge_None in E. }
  apply NoDup_fmap_2; [apply _|]. apply NoDup_seq.
Qed.

Lemma jt_depth_in {A} (f : A -> nat) (l : list A) (x : A) :
  x ∈ l -> (f x < S (fold_right (fun v n => Nat.max (f v) n) 0%nat l))%nat.
Proof. induction 1; cbn in *; lia. Qed.

Lemma jt_depth_items (j v : jtree) (k : string) :
  is_structured j = true -> find_key k (jt_items j) = Some v -> (jt_depth v < jt_depth j)%nat.
Proof.
  destruct j as [| | | | | |l|l]; cbn [jt_items]; intros Hs Hv; try done.
  - apply find_key_In, elem_of_lookup_imap in Hv as (i & w & E & Hi). simplify_eq.
    apply (jt_depth_in jt_depth). by eapply list_elem_of_lookup_2.
  - rewrite find_key_dedup in Hv. apply find_key_In in Hv.
    by apply (jt_depth_in (fun kv => jt_depth kv.2)) in Hv.
Qed.

#[export] Instance jtree_laws : JsonLaws jtree.
Proof.
  refine {| json_depth := jt_depth |}.
  - intros j k v. apply jt_depth_items.
  - intros []; cbn; try (repeat constructor; set_solver); [apply jt_keys_NoDup | apply dedup_NoDup].
  - by intros [].
  - by intros [].
  - done.
  - done.
  - done.
  - done.
  - done.
  - done.
  - done.
  - done.
  - intros w z Hw Hz. cbn. by rewrite wrap_small.
  - intros w z Hw Hz. cbn. by rewrite swrap_small.
  - intros [] Hj; try done. by eexists.
  - intros [] Hj; try done; by eexists.
  - intros [] Hj; try done. by eexists.
  - intros [] Hj; try done. eexists. split; [|done]. by apply swrap_sfits.
  - intros [] Hj; try done. eexists. split; [|done]. by apply wrap_fits.
  - by intros [].
  - by intros [].
  - intros j k z Hj. by destruct j.
  - by intros [].
  - intros l k _. apply find_key_dedup.
  - intros [] k v [Hj|Hj]; try done; (eexists; split_and!; [done|done|]); intros k'.
    + cbn. by destruct (String.eqb k' k).
    + change (find_key k' (dedup ((k, v) :: l)) = if String.eqb k' k then Some v else find_key k' (dedup l)).
      rewrite !find_key_dedup. reflexivity.
Defined.

Inductive pvalue :=
| PUnset
| PNull
| PNumber (d : double)
| PString (s : string)
| PBool (b : bool)
| PStruct (l : list (string * pvalue)).

Fixpoint pv_depth (v : pvalue) : nat :=
  match v with
  | PStruct l => S (fold_right (fun kv n => Nat.max (pv_depth kv.2) n) 0%nat l)
  | _ => 0%nat
  end.

#[export] Instance pstruct_lib : StructLib (list (string * pvalue)) pvalue := {|
  struct_empty := [];
  struct_put k v s := (k, v) :: s;
  struct_fields := dedup;
  value_unset := PUnset;
  value_of_null := PNull;
  value_of_number := PNumber;
  value_of_string := PString;
  value_of_bool := PBool;
  value_of_struct := PStruct;
  value_kind v :=
    match v with
    | PUnset => KIND_NOT_SET
    | PNull => kNullValue
    | PNumber d => kNumberValue d
    | PString s => kStringValue s
    | PBool b => kBoolValue b
    | PStruct l => kStructValue l
    end;
|}.

#[export] Instance pstruct_laws : StructLaws (list (string * pvalue)) pvalue.
Proof.
  refine {| struct_depth := fun l => pv_depth (PStruct l) |}; try done.
  - intros s s' k v Hv Hk. destruct v; try done. cbn in Hk. simplify_eq.
    change (find_key k (dedup s) = Some (PStruct s')) in Hv.
    rewrite find_key_dedup in Hv. apply find_key_In in Hv.
    by apply (jt_depth_in (fun kv => pv_depth kv.2)) in Hv.
  - intros s. apply dedup_NoDup.
  - intros s k v k'. change (find_key k' (dedup ((k, v) :: s)) =
      if String.eqb k' k then Some v else find_key k' (dedup s)).
    rewrite !find_key_dedup. reflexivity.
Defined.

End JsonModel.
