(* ===== verification/Task.v ===== *)
(** * The task record and its JSON form (src/src/common/include/task.hpp)

    The data type every component of the system exchanges, with the
    hand-written [to_json] and [from_json]. *)

From S2P Require Import Prelude Json.
#[local] Open Scope string_scope.
#[local] Open Scope Z_scope.

(** ** Data *)

(** [enum class TaskState : std::uint8_t].  The underlying type is fixed, so an
    object of this type can hold any byte; [RAW v] is a byte without a name. *)
Inductive TaskState :=
| PENDING | RUNNING | SUCCESS | FAILED | TIMEOUT | CANCELLED
| RAW (v : Z).

#[export] Instance TaskState_eq_dec : EqDecision TaskState.
Proof. solve_decision. Defined.

Definition TaskState_code (s : TaskState) : Z :=
  match s with
  | PENDING => 0 | RUNNING => 1 | SUCCESS => 2 | FAILED => 3 | TIMEOUT => 4 | CANCELLED => 5
  | RAW v => v
  end.

(** [static_cast<TaskState>(z)]: the low byte. *)
Definition TaskState_cast (z : Z) : TaskState :=
  match u8 z with
  | 0 => PENDING | 1 => RUNNING | 2 => SUCCESS | 3 => FAILED | 4 => TIMEOUT | 5 => CANCELLED
  | v => RAW v
  end.

Definition TaskState_wf (s : TaskState) : Prop :=
  match s with RAW v => 6 <= v < 256 | _ => True end.

Record Resource := mkResource { cpu_core : double; mem_mb : Z }.
Record Shard := mkShard { shard_id : Z; total_shards : Z }.

#[export] Instance Resource_eq_dec : EqDecision Resource.
Proof. solve_decision. Defined.

(** Addresses of the shared [std::atomic<bool>] cancellation flags. *)
Abbreviation loc := positive.

(** [cancelled] is a [std::shared_ptr]: copies of a task share one flag, and a
    moved-from task holds the null pointer. *)
Record Task (J : Type) := mkTask {
  task_id : string;
  client_id : string;
  priority : Z;
  state : TaskState;
  cancelled : option loc;
  func_name : string;
  func_params : J;
  required : Resource;
  shard : Shard;
  timeout_ms : Z;
  max_retry : Z;
  retry_count : Z;
  submit_ts : Z;
  start_ts : Z;
  finish_ts : Z;
  result : J;
  error_msg : string;
}.
Arguments mkTask {J}.
Arguments task_id {J} t : rename.
Arguments client_id {J} t : rename.
Arguments priority {J} t : rename.
Arguments state {J} t : rename.
Arguments cancelled {J} t : rename.
Arguments func_name {J} t : rename.
Arguments func_params {J} t : rename.
Arguments required {J} t : rename.
Arguments shard {J} t : rename.
Arguments timeout_ms {J} t : rename.
Arguments max_retry {J} t : rename.
Arguments retry_count {J} t : rename.
Arguments submit_ts {J} t : rename.
Arguments start_ts {J} t : rename.
Arguments finish_ts {J} t : rename.
Arguments result {J} t : rename.
Arguments error_msg {J} t : rename.

(** The widths of the members. *)
Record task_wf {J} (t : Task J) : Prop := {
  wf_priority : fits 32 (priority t);
  wf_state : TaskState_wf (state t);
  wf_mem : fits 64 (mem_mb (required t));
  wf_shard_id : fits 32 (shard_id (shard t));
  wf_total_shards : fits 32 (total_shards (shard t));
  wf_timeout : fits 32 (timeout_ms t);
  wf_max_retry : fits 32 (max_retry t);
  wf_retry_count : fits 32 (retry_count t);
  wf_submit : sfits 64 (submit_ts t);
  wf_start : sfits 64 (start_ts t);
  wf_finish : sfits 64 (finish_ts t);
}.

Lemma TaskState_code_range (s : TaskState) : TaskState_wf s -> 0 <= TaskState_code s < 256.
Proof. destruct s; cbn; lia. Qed.

Lemma TaskState_cast_code (s : TaskState) : TaskState_wf s -> TaskState_cast (TaskState_code s) = s.
Proof.
  intros Hs. unfold TaskState_cast. destruct s as [| | | | | |v]; try reflexivity.
  cbn in *. rewrite wrap_small by (unfold fits; lia).
  do 6 (destruct v as [|v|v]; try lia; try (destruct v as [v|v|]; try lia; try reflexivity)).
Qed.

Lemma TaskState_cast_wf z : TaskState_wf (TaskState_cast z).
Proof.
  unfold TaskState_cast. pose proof (wrap_fits 8 z ltac:(lia)) as Hv. unfold fits in Hv.
  generalize dependent (wrap 8 z). intros v Hv.
  destruct v as [|v|v]; [done| |lia]. do 3 (destruct v as [v|v|]; cbn; try done; try lia).
Qed.

Section task.
Context {J : Type} `{JsonLib J}.
Implicit Types (j : J) (t : Task J).

(** A default-constructed task: [Task{}].  [l] is the address of the flag that
    [make_shared] allocates. *)
Definition Task_default (l : loc) : Task J :=
  mkTask "" "" 0 PENDING (Some l) "" json_null
    (mkResource (S754_zero false) 0) (mkShard 0 1) 30000 3 0 0 0 0 json_null "".

(** ** JSON conversion *)

(** [NLOHMANN_DEFINE_TYPE_INTRUSIVE(Resource, cpu_core, mem_mb)] *)
Definition Resource_to_json (r : Resource) : outcome json_exn J :=
  j ← json_assign json_null "cpu_core" (json_of_double (cpu_core r));
  json_assign j "mem_mb" (json_of_uint (mem_mb r)).

Definition Resource_from_json j : outcome json_exn Resource :=
  c ← (v ← json_at j "cpu_core"; json_get_double v);
  m ← (v ← json_at j "mem_mb"; json_get_uint 64 v);
  Ret (mkResource c m).

(** [NLOHMANN_DEFINE_TYPE_INTRUSIVE(Shard, shard_id, total_shards)] *)
Definition Shard_to_json (s : Shard) : outcome json_exn J :=
  j ← json_assign json_null "shard_id" (json_of_uint (shard_id s));
  json_assign j "total_shards" (json_of_uint (total_shards s)).

Definition Shard_from_json j : outcome json_exn Shard :=
  i ← (v ← json_at j "shard_id"; json_get_uint 32 v);
  n ← (v ← json_at j "total_shards"; json_get_uint 32 v);
  Ret (mkShard i n).

Definition Task_members t (jr js : J) : list (string * J) :=
  [ ("task_id", json_of_string (task_id t));
    ("client_id", json_of_string (client_id t));
    ("priority", json_of_uint (priority t));
    ("state", json_of_uint (TaskState_code (state t)));
    ("func_name", json_of_string (func_name t));
    ("func_params", func_params t);
    ("required", jr);
    ("shard", js);
    ("timeout_ms", json_of_uint (timeout_ms t));
    ("max_retry", json_of_uint (max_retry t));
    ("retry_count", json_of_uint (retry_count t));
    ("submit_ts", json_of_int (submit_ts t));
    ("start_ts", json_of_int (start_ts t));
    ("finish_ts", json_of_int (finish_ts t));
    ("result", result t);
    ("error_msg", json_of_string (error_msg t)) ].

Definition to_json t : outcome json_exn J :=
  jr ← Resource_to_json (required t);
  js ← Shard_to_json (shard t);
  Ret (json_of_members (Task_members t jr js)).

(** [from_json] assigns the members of [t] one by one and leaves [cancelled]
    alone.  It is called through [json::get<Task>()], which reads into a task of
    its own: an exception leaves the caller without one. *)
Definition from_json j t : outcome json_exn (Task J) :=
  task_id ← (v ← json_at j "task_id"; json_get_string v);
  client_id ← (v ← json_at j "client_id"; json_get_string v);
  priority ← (v ← json_at j "priority"; json_get_uint 32 v);
  state ← (v ← json_at j "state"; c ← json_get_uint 8 v; Ret (TaskState_cast c));
  func_name ← (v ← json_at j "func_name"; json_get_string v);
  func_params ← json_at j "func_params";
  required ← (v ← json_at j "required"; Resource_from_json v);
  shard ← (v ← json_at j "shard"; Shard_from_json v);
  timeout_ms ← (v ← json_at j "timeout_ms"; json_get_uint 32 v);
  max_retry ← (v ← json_at j "max_retry"; json_get_uint 32 v);
  retry_count ← (v ← json_at j "retry_count"; json_get_uint 32 v);
  submit_ts ← (v ← json_at j "submit_ts"; json_get_sint 64 v);
  start_ts ← (v ← json_at j "start_ts"; json_get_sint 64 v);
  finish_ts ← (v ← json_at j "finish_ts"; json_get_sint 64 v);
  result ← json_at j "result";
  error_msg ← (v ← json_at j "error_msg"; json_get_string v);
  Ret (mkTask task_id client_id priority state (cancelled t) func_name func_params required shard
         timeout_ms max_retry retry_count submit_ts start_ts finish_ts result error_msg).

Definition with_cancelled (c : option loc) t : Task J :=
  mkTask (task_id t) (client_id t) (priority t) (state t) c (func_name t) (func_params t)
    (required t) (shard t) (timeout_ms t) (max_retry t) (retry_count t) (submit_ts t)
    (start_ts t) (finish_ts t) (result t) (error_msg t).
End task.

(** ** The round trip *)

Definition task_keys : list string :=
  [ "task_id"; "client_id"; "priority"; "state"; "func_name"; "func_params"; "required"; "shard";
    "timeout_ms"; "max_retry"; "retry_count"; "submit_ts"; "start_ts"; "finish_ts"; "result";
    "error_msg" ].

Section roundtrip.
Context {J : Type} `{JsonLaws J}.
Implicit Types (j : J) (t : Task J).

(** Two assignments on a null value give an object with these two members. *)
Lemma assign_two (k1 k2 : string) (v1 v2 : J) :
  k1 <> k2 ->
  exists j, (j1 ← json_assign json_null k1 v1; json_assign j1 k2 v2) = Ret j /\
    json_at j k1 = Ret v1 /\ json_at j k2 = Ret v2.
Proof.
  intros Hne.
  destruct (json_assign_ok json_null k1 v1) as (j1 & E1 & T1 & L1); [left; apply json_type_null|].
  destruct (json_assign_ok j1 k2 v2) as (j2 & E2 & T2 & L2); [by right|].
  exists j2. rewrite E1. cbn. split_and!; [done| |].
  - rewrite json_at_object, L2 by done. rewrite L1, String.eqb_refl.
    destruct (String.eqb_spec k1 k2); [congruence | done].
  - rewrite json_at_object, L2 by done. by rewrite String.eqb_refl.
Qed.

Lemma Resource_json_roundtrip (r : Resource) :
  fits 64 (mem_mb r) -> exists j, Resource_to_json r = Ret j /\ Resource_from_json j = Ret r.
Proof.
  intros Hm.
  destruct (assign_two "cpu_core" "mem_mb" (json_of_double (cpu_core r)) (json_of_uint (mem_mb r)))
    as (j & E & A1 & A2); [done|].
  exists j. split; [exact E|]. unfold Resource_from_json.
  rewrite A1, A2. cbn. rewrite json_get_of_double. cbn.
  rewrite json_get_of_uint by (done || lia). cbn. by destruct r.
Qed.

Lemma Shard_json_roundtrip (s : Shard) :
  fits 32 (shard_id s) -> fits 32 (total_shards s) ->
  exists j, Shard_to_json s = Ret j /\ Shard_from_json j = Ret s.
Proof.
  intros Hi Hn.
  destruct (assign_two "shard_id" "total_shards" (json_of_uint (shard_id s))
              (json_of_uint (total_shards s))) as (j & E & A1 & A2); [done|].
  exists j. split; [exact E|]. unfold Shard_from_json.
  rewrite A1, A2. cbn. rewrite json_get_of_uint by (done || lia). cbn.
  rewrite json_get_of_uint by (done || lia). cbn. by destruct s.
Qed.

Lemma Task_members_NoDup t (jr js : J) : NoDup (Task_members t jr js).*1.
Proof. apply (bool_decide_unpack _). by vm_compute. Qed.

(** The members of the object [to_json] builds. *)
Lemma to_json_members t :
  task_wf t ->
  exists jr js, to_json t = Ret (json_of_members (Task_members t jr js)) /\
    Resource_from_json jr = Ret (required t) /\ Shard_from_json js = Ret (shard t).
Proof.
  intros Hwf.
  destruct (Resource_json_roundtrip (required t)) as (jr & Er & Rr); [apply Hwf|].
  destruct (Shard_json_roundtrip (shard t)) as (js & Es & Rs); [apply Hwf..|].
  exists jr, js. split_and!; [|done|done]. unfold to_json. by rewrite Er, Es.
Qed.

Lemma state_code_fits (s : TaskState) : TaskState_wf s -> fits 8 (TaskState_code s).
Proof. apply TaskState_code_range. Qed.

(** Member access on an object that agrees with a member list. *)
Lemma at_members j (l : list (string * J)) (k : string) :
  json_type j = t_object -> find_key k (json_items j) = find_key k l ->
  json_at j k = match find_key k l with Some v => Ret v | None => Throw (out_of_range 403) end.
Proof. intros Ht Hk. by rewrite json_at_object, Hk. Qed.

(** One member of [from_json]: access, then conversion. *)
Ltac jcbn := cbn -[TaskState_cast Resource_from_json Shard_from_json].

Ltac read_member Hat Hwf :=
  rewrite Hat; jcbn;
  try rewrite json_get_of_string;
  try (rewrite json_get_of_uint by (apply Hwf || (apply state_code_fits, Hwf) || lia));
  try (rewrite json_get_of_sint by (apply Hwf || lia)); jcbn.

Ltac read_members Hat Hwf Rr Rs :=
  repeat first [read_member Hat Hwf | rewrite Rr; jcbn | rewrite Rs; jcbn].

(** [C12] Writing a task to JSON and reading it back into any task object gives
    the task that was written, with the cancellation flag of the object that
    was read into: every member but [cancelled] survives, whatever its value. *)
Theorem task_json_roundtrip t t0 :
  task_wf t ->
  exists j, to_json t = Ret j /\ from_json j t0 = Ret (with_cancelled (cancelled t0) t).
Proof.
  intros Hwf. destruct (to_json_members t Hwf) as (jr & js & E & Rr & Rs).
  eexists; split; [exact E|].
  pose proof (fun k => at_members _ _ k (json_type_members _)
                (json_items_members _ k (Task_members_NoDup t jr js))) as Hat.
  unfold from_json. read_members Hat Hwf Rr Rs.
  by rewrite TaskState_cast_code by apply Hwf.
Qed.

(** [C40] A JSON object that lacks one of the sixteen members of a task, and
    otherwise agrees with what [to_json] writes, is refused with
    [out_of_range]; no task is produced. *)
Theorem from_json_missing_member t t0 j j' k :
  task_wf t -> to_json t = Ret j -> k ∈ task_keys ->
  json_type j' = t_object ->
  (forall k', find_key k' (json_items j') = if String.eqb k' k then None else find_key k' (json_items j)) ->
  from_json j' t0 = Throw (out_of_range 403).
Proof.
  intros Hwf Ej Hk Ht Hl. destruct (to_json_members t Hwf) as (jr & js & E & Rr & Rs).
  rewrite Ej in E. injection E as ->.
  assert (forall k', json_at j' k' =
    if String.eqb k' k then Throw (out_of_range 403)
    else match find_key k' (Task_members t jr js) with
         | Some v => Ret v | None => Throw (out_of_range 403) end) as Hat.
  { intros k'. rewrite json_at_object, Hl by done.
    rewrite json_items_members by apply Task_members_NoDup. by destruct (String.eqb k' k). }
  clear Hl Ej Ht. unfold from_json, task_keys in *.
  repeat (apply elem_of_cons in Hk as [-> | Hk]);
  read_members Hat Hwf Rr Rs; try reflexivity.
  by apply elem_of_nil in Hk.
Qed.
End roundtrip.

(** ** Witnesses *)

Module TaskWitness.
Import JsonModel.

Definition sample : Task jtree :=
  mkTask "uuid-1234" "client-001" 5 RUNNING (Some 1%positive) "fib"
    (JObj [("n", JUint 10); ("extra", JStr "test")])
    (mkResource (double_of_Z 2) 1024) (mkShard 0 1) 30000 3 0 1700000000000 0 0
    (JObj [("output", JUint 55)]) "".

Lemma sample_wf : task_wf sample.
Proof. split; cbn; (exact I || width). Defined.

Lemma task_json_roundtrip_witness :
  task_wf sample /\
  exists j, to_json sample = Ret j /\
    from_json j (Task_default 7) = Ret (with_cancelled (Some 7%positive) sample).
Proof. split; [exact sample_wf | exact (task_json_roundtrip sample (Task_default 7) sample_wf)]. Defined.

Definition sample_members : list (string * jtree) :=
  Task_members sample
    (JObj [("mem_mb", JUint 1024); ("cpu_core", JFloat (double_of_Z 2))])
    (JObj [("total_shards", JUint 1); ("shard_id", JUint 0)]).

(** [json::erase] *)
Definition erase (k : string) (l : list (string * jtree)) : jtree :=
  JObj (filter (fun kv => kv.1 <> k) l).

Lemma erase_items (k k' : string) (l : list (string * jtree)) :
  find_key k' (json_items (erase k l)) =
  if String.eqb k' k then None else find_key k' (json_items (JObj l)).
Proof. cbn. rewrite !find_key_dedup. apply find_key_filter_ne. Qed.

Lemma from_json_missing_member_witness :
  from_json (erase "task_id" sample_members) (Task_default 7) = Throw (out_of_range 403).
Proof.
  apply (from_json_missing_member sample (Task_default 7) (JObj sample_members) _ "task_id").
  - exact sample_wf.
  - reflexivity.
  - apply elem_of_cons. by left.
  - reflexivity.
  - intros k'. exact (erase_items "task_id" k' sample_members).
Defined.

End TaskWitness.
