(* ===== verification/Convert.v ===== *)
(** * Conversions between tasks and protobuf messages
      (src/src/common/src/utils.cpp, utils.hpp, proto/task.proto)

    [JsonToStruct] and [StructToJson] recurse over dynamic data; their first
    argument is the number of stack frames available, and running out of frames
    is undefined behaviour.  The specification of the pair is given by the
    leaves of a value: [leaf ks j] is the scalar found by following the keys
    [ks], numbers observed as they are stored (signed, unsigned or floating).
    A [Struct] has doubles only, so what comes back is [through_double] of it. *)

From S2P Require Import Prelude Json Task.
#[local] Open Scope string_scope.
#[local] Open Scope Z_scope.

(** ** Messages of task.proto *)

Record PbTask (PS : Type) := mkPbTask {
  pb_task_id : string;
  pb_client_id : string;
  pb_priority : Z;
  pb_state : Z;                (* an open enum: any int32 *)
  pb_func_name : string;
  pb_func_params : PS;
  pb_required : Resource;
  pb_shard : Shard;
  pb_timeout_ms : Z;
  pb_max_retry : Z;
  pb_retry_count : Z;
  pb_submit_ts : Z;
  pb_start_ts : Z;
  pb_finish_ts : Z;
  pb_result : PS;
  pb_error_msg : string;
}.
Arguments mkPbTask {PS}.
Arguments pb_task_id {PS} p : rename.
Arguments pb_client_id {PS} p : rename.
Arguments pb_priority {PS} p : rename.
Arguments pb_state {PS} p : rename.
Arguments pb_func_name {PS} p : rename.
Arguments pb_func_params {PS} p : rename.
Arguments pb_required {PS} p : rename.
Arguments pb_shard {PS} p : rename.
Arguments pb_timeout_ms {PS} p : rename.
Arguments pb_max_retry {PS} p : rename.
Arguments pb_retry_count {PS} p : rename.
Arguments pb_submit_ts {PS} p : rename.
Arguments pb_start_ts {PS} p : rename.
Arguments pb_finish_ts {PS} p : rename.
Arguments pb_result {PS} p : rename.
Arguments pb_error_msg {PS} p : rename.

(** [get_current_timestamp_ms]: the steady clock counts nanoseconds. *)
Definition get_current_timestamp_ms (steady_ns : Z) : Z := u64 (Z.quot steady_ns 1000000).

Section convert.
Context {J PS PV : Type} `{JsonLib J} `{StructLib PS PV}.
Implicit Types (j v : J) (s : PS) (pv : PV).

(** ** JSON to Struct *)

Definition json_to_value (rec : J -> outcome json_exn PS) v : outcome json_exn PV :=
  if is_boolean v then b ← json_get_bool v; Ret (value_of_bool b)
  else if is_number v then d ← json_get_double v; Ret (value_of_number d)
  else if is_string v then x ← json_get_string v; Ret (value_of_string x)
  else if is_null v then Ret value_of_null
  else if is_array v || is_object v then s ← rec v; Ret (value_of_struct s)
  else Ret value_unset.

Fixpoint JsonToStruct (stack : nat) j : outcome json_exn PS :=
  match stack with
  | O => Undef "stack overflow"
  | S stack =>
      mfold (fun proto kv =>
               pv ← json_to_value (JsonToStruct stack) kv.2;
               Ret (struct_put kv.1 pv proto))
        struct_empty (json_items j)
  end.

(** ** Struct to JSON *)

Definition value_to_json (rec : PS -> outcome json_exn J) j (k : string) pv : outcome json_exn J :=
  match value_kind pv with
  | kBoolValue b => json_assign j k (json_of_bool b)
  | kNumberValue d => json_assign j k (json_of_double d)
  | kStringValue x => json_assign j k (json_of_string x)
  | kStructValue s => v ← rec s; json_assign j k v
  | _ => Ret j
  end.

Fixpoint StructToJson (stack : nat) s : outcome json_exn J :=
  match stack with
  | O => Undef "stack overflow"
  | S stack =>
      mfold (fun j kv => value_to_json (StructToJson stack) j kv.1 kv.2)
        json_null (struct_fields s)
  end.

(** ** Tasks *)

Definition TaskToProto (stack : nat) (task : Task J) : outcome json_exn (PbTask PS) :=
  fp ← JsonToStruct stack (func_params task);
  rs ← JsonToStruct stack (result task);
  Ret (mkPbTask (task_id task) (client_id task) (priority task) (TaskState_code (state task))
         (func_name task) fp
         (mkResource (cpu_core (required task)) (mem_mb (required task)))
         (mkShard (shard_id (shard task)) (total_shards (shard task)))
         (timeout_ms task) (max_retry task) (retry_count task)
         (submit_ts task) (start_ts task) (finish_ts task) rs (error_msg task)).

(** [l]: the flag allocated for the new task. *)
Definition TaskFromProto (stack : nat) (l : loc) (proto : PbTask PS) : outcome json_exn (Task J) :=
  fp ← StructToJson stack (pb_func_params proto);
  rs ← StructToJson stack (pb_result proto);
  Ret (mkTask (pb_task_id proto) (pb_client_id proto) (pb_priority proto)
         (TaskState_cast (pb_state proto)) (Some l) (pb_func_name proto) fp
         (mkResource (cpu_core (pb_required proto)) (mem_mb (pb_required proto)))
         (mkShard (shard_id (pb_shard proto)) (total_shards (pb_shard proto)))
         (pb_timeout_ms proto) (pb_max_retry proto) (pb_retry_count proto)
         (pb_submit_ts proto) (pb_start_ts proto) (pb_finish_ts proto) rs (pb_error_msg proto)).

(** ** Leaves: the specification *)

Inductive scalar :=
| ScBool (b : bool)
| ScInteger (z : Z)                  (* number_integer: an int64_t *)
| ScUnsigned (z : Z)                 (* number_unsigned: a uint64_t *)
| ScFloat (d : double)               (* number_float *)
| ScString (x : string).

Definition read {A} (f : A -> scalar) (o : outcome json_exn A) : option scalar :=
  match o with Ret x => Some (f x) | _ => None end.

Definition json_scalar j : option scalar :=
  match json_type j with
  | t_boolean => read ScBool (json_get_bool j)
  | t_number_integer => read ScInteger (json_get_sint 64 j)
  | t_number_unsigned => read ScUnsigned (json_get_uint 64 j)
  | t_number_float => read ScFloat (json_get_double j)
  | t_string => read ScString (json_get_string j)
  | _ => None
  end.

(** What [set_number_value] keeps of a scalar: an integer becomes the nearest double. *)
Definition through_double (c : scalar) : scalar :=
  match c with
  | ScInteger z | ScUnsigned z => ScFloat (double_of_Z z)
  | _ => c
  end.

Fixpoint leaf (ks : list string) j : option scalar :=
  match ks with
  | [] => json_scalar j
  | k :: ks =>
      if is_structured j
      then match find_key k (json_items j) with Some v => leaf ks v | None => None end
      else None
  end.

(** Where the leaves of a document are once it has been put in a [Struct]: those of an
    object or array stay, a scalar document moves below the empty key ([items()] of a
    scalar is the scalar itself under that key), and numbers are doubles. *)
Definition wire_leaf (ks : list string) j : option scalar :=
  through_double <$>
  (if is_structured j || is_null j then leaf ks j
   else match ks with k :: ks => if String.eqb k "" then leaf ks j else None | [] => None end).

Definition kind_scalar (c : kind_case PS) (ks : list string) : option scalar :=
  match ks, c with
  | [], kBoolValue b => Some (ScBool b)
  | [], kNumberValue d => Some (ScFloat d)
  | [], kStringValue x => Some (ScString x)
  | _, _ => None
  end.

Fixpoint struct_leaf (ks : list string) s : option scalar :=
  match ks with
  | [] => None
  | k :: ks =>
      match find_key k (struct_fields s) with
      | None => None
      | Some pv =>
          match value_kind pv with
          | kStructValue s' => struct_leaf ks s'
          | c => kind_scalar c ks
          end
      end
  end.

Definition value_leaf (ks : list string) pv : option scalar :=
  match value_kind pv with
  | kStructValue s' => struct_leaf ks s'
  | c => kind_scalar c ks
  end.

Lemma struct_leaf_cons k ks s :
  struct_leaf (k :: ks) s =
  match find_key k (struct_fields s) with Some pv => value_leaf ks pv | None => None end.
Proof. reflexivity. Qed.
End convert.

Section convert_spec.
Context {J PS PV : Type} `{JsonLaws J} `{StructLaws PS PV}.
Implicit Types (j v : J) (s : PS) (pv : PV).

(** Case analysis on the type tests of a JSON value. *)
Ltac json_cases v :=
  unfold is_structured, is_boolean, is_number, is_string, is_null, is_array, is_object in *;
  let Ht := fresh "Ht" in destruct (json_type v) eqn:Ht; rewrite ?Ht in *; cbn in *; try done.

Lemma leaf_scalar j k ks : is_structured j = false -> leaf (k :: ks) j = None.
Proof. intros Hj. cbn. by rewrite Hj. Qed.

Lemma json_scalar_structured j : is_structured j = true \/ is_null j = true -> json_scalar j = None.
Proof. unfold json_scalar. intros [Hj|Hj]; json_cases j. Qed.

(** Converting one member: the converted value has the same leaves, as doubles. *)
Lemma json_to_value_leaf (rec : J -> outcome json_exn PS) v :
  (is_structured v = true ->
     exists s, rec v = Ret s /\ forall ks, struct_leaf ks s = through_double <$> leaf ks v) ->
  exists pv, json_to_value rec v = Ret pv /\ forall ks, value_leaf ks pv = through_double <$> leaf ks v.
Proof.
  intros Hrec. unfold json_to_value, value_leaf.
  destruct (is_structured v) eqn:Hs.
  - destruct (Hrec eq_refl) as (s & E & Hl). exists (value_of_struct s).
    split; [json_cases v; by rewrite E|]. intros ks. by rewrite value_kind_struct.
  - pose proof (json_get_bool_ok v) as Hb. pose proof (json_get_double_ok v) as Hd.
    pose proof (json_get_string_ok v) as Hx. pose proof (json_get_integer v) as Hz.
    pose proof (json_get_unsigned v) as Hu.
    json_cases v; unfold returns in *;
      try (destruct Hb as [b Hb]; [done|]; rewrite Hb);
      try (destruct Hz as (z & _ & Hz & Hd'); [done|]; rewrite Hd');
      try (destruct Hu as (z & _ & Hu & Hd'); [done|]; rewrite Hd');
      try (destruct Hd as [d Hd]; [done|]; rewrite Hd);
      try (destruct Hx as [x Hx]; [done|]; rewrite Hx);
      eexists; (split; [reflexivity|]); intros [|k ks];
      rewrite ?value_kind_bool, ?value_kind_number, ?value_kind_string, ?value_kind_null,
        ?value_kind_unset; cbn; unfold json_scalar, is_structured, is_array, is_object;
      rewrite ?Ht; cbn; by rewrite ?Hb, ?Hz, ?Hu, ?Hd, ?Hx.
Qed.

(** The loop of [JsonToStruct]. *)
Lemma JsonToStruct_loop (rec : J -> outcome json_exn PS) (l : list (string * J)) s0 :
  NoDup l.*1 ->
  (forall k v, (k, v) ∈ l -> is_structured v = true ->
     exists s, rec v = Ret s /\ forall ks, struct_leaf ks s = through_double <$> leaf ks v) ->
  exists s,
    mfold (fun proto kv => pv ← json_to_value rec kv.2; Ret (struct_put kv.1 pv proto)) s0 l = Ret s /\
    forall k ks, struct_leaf (k :: ks) s =
      match find_key k l with
      | Some v => through_double <$> leaf ks v
      | None => struct_leaf (k :: ks) s0
      end.
Proof.
  revert s0. induction l as [|[k v] l IH]; intros s0 Hnd Hrec; [by exists s0|].
  apply NoDup_cons in Hnd as [Hk Hnd]. cbn in Hk.
  destruct (json_to_value_leaf rec v) as (pv & E & Hpv); [apply (Hrec k); set_solver|].
  destruct (IH (struct_put k pv s0) Hnd) as (s & Es & Hs); [intros k' v' ?; apply (Hrec k'); set_solver|].
  exists s. cbn [mfold fst snd]. rewrite E. split; [exact Es|].
  intros k' ks. rewrite Hs. cbn [find_key]. destruct (String.eqb_spec k' k) as [->|Hne].
  - apply find_key_None in Hk as ->. rewrite struct_leaf_cons, struct_fields_put, String.eqb_refl.
    apply Hpv.
  - destruct (find_key k' l); [done|]. rewrite !struct_leaf_cons, struct_fields_put.
    apply String.eqb_neq in Hne. by rewrite Hne.
Qed.

Lemma wire_leaf_structured ks j :
  is_structured j = true \/ is_null j = true -> wire_leaf ks j = through_double <$> leaf ks j.
Proof. unfold wire_leaf. by intros [->| ->]; rewrite ?orb_true_r. Qed.

Lemma JsonToStruct_leaf (stack : nat) j :
  (json_depth j < stack)%nat ->
  exists s, JsonToStruct stack j = Ret s /\ forall ks, struct_leaf ks s = wire_leaf ks j.
Proof.
  revert j. induction stack as [|n IH]; intros j Hn; [lia|].
  destruct (JsonToStruct_loop (JsonToStruct n) (json_items j) struct_empty (json_items_NoDup j))
    as (s & E & Hs).
  { intros k v Hin Hv. destruct (IH v) as (s & E & L).
    - destruct (is_structured j) eqn:Hj.
      + eapply Nat.lt_le_trans; [eapply (json_depth_items j k v)|lia]; [done|].
        by apply In_find_key; [apply json_items_NoDup|].
      + destruct (is_null j) eqn:Hz.
        * rewrite json_items_null in Hin by (by apply bool_decide_eq_true in Hz). set_solver.
        * rewrite json_items_scalar in Hin by done. apply list_elem_of_singleton in Hin. simplify_eq. congruence.
    - exists s. split; [exact E|]. intros ks. rewrite L. apply wire_leaf_structured. by left. }
  exists s. split; [exact E|]. unfold wire_leaf. intros [|k ks].
  - cbn. destruct (is_structured j || is_null j) eqn:Hj; [|done].
    apply orb_true_iff in Hj. by rewrite json_scalar_structured.
  - rewrite Hs, struct_leaf_cons, struct_fields_empty. cbn [leaf find_key].
    destruct (is_structured j) eqn:Hj; cbn [orb]; [by destruct (find_key k _)|].
    destruct (is_null j) eqn:Hz.
    + by rewrite json_items_null by (by apply bool_decide_eq_true in Hz).
    + rewrite json_items_scalar by done. cbn [find_key]. by destruct (String.eqb k "").
Qed.

(** [j[k] = v] on null or an object changes the leaves below [k] only. *)
Lemma assign_leaf j k v :
  json_type j = t_null \/ json_type j = t_object ->
  exists j', json_assign j k v = Ret j' /\ json_type j' = t_object /\
    forall k' ks, leaf (k' :: ks) j' = if String.eqb k' k then leaf ks v else leaf (k' :: ks) j.
Proof.
  intros Hj. destruct (json_assign_ok j k v Hj) as (j' & E & T & L).
  exists j'. split_and!; [done..|]. intros k' ks. cbn [leaf]. rewrite L.
  assert (is_structured j' = true) as -> by json_cases j'.
  destruct (String.eqb k' k); [done|]. destruct Hj as [Hj|Hj].
  - rewrite json_items_null by done. cbn. by destruct (is_structured j).
  - assert (is_structured j = true) as -> by json_cases j. done.
Qed.

Lemma value_to_json_keys (rec : PS -> outcome json_exn J) j j' k pv :
  json_type j = t_null \/ json_type j = t_object ->
  value_to_json rec j k pv = Ret j' ->
  forall k', k' <> k -> find_key k' (json_items j') = find_key k' (json_items j).
Proof.
  intros Hj E k' Hne. apply String.eqb_neq in Hne.
  assert (forall v, json_assign j k v = Ret j' ->
    find_key k' (json_items j') = find_key k' (json_items j)) as Hput.
  { intros v Ev. destruct (json_assign_ok j k v Hj) as (j1 & E1 & _ & L1).
    rewrite Ev in E1. injection E1 as ->. by rewrite L1, Hne. }
  unfold value_to_json in E. destruct (value_kind pv); try by (injection E as ->).
  1-3: by apply (Hput _ E).
  apply bind_ret_inv in E as (v & _ & E). by apply (Hput _ E).
Qed.

(** One step of the loop of [StructToJson]. *)
Lemma value_to_json_leaf (rec : PS -> outcome json_exn J) j k pv :
  json_type j = t_null \/ json_type j = t_object ->
  find_key k (json_items j) = None ->
  (forall s, value_kind pv = kStructValue s ->
     exists v, rec s = Ret v /\ forall ks, leaf ks v = struct_leaf ks s) ->
  exists j', value_to_json rec j k pv = Ret j' /\ (json_type j' = t_null \/ json_type j' = t_object) /\
    forall k' ks, leaf (k' :: ks) j' = if String.eqb k' k then value_leaf ks pv else leaf (k' :: ks) j.
Proof.
  intros Hj Hk Hrec. unfold value_to_json, value_leaf.
  assert (forall v, (forall ks, leaf ks v = value_leaf ks pv) -> exists j', json_assign j k v = Ret j' /\
    (json_type j' = t_null \/ json_type j' = t_object) /\ forall k' ks, leaf (k' :: ks) j' =
      if String.eqb k' k then value_leaf ks pv else leaf (k' :: ks) j) as Hput.
  { intros v Hv. destruct (assign_leaf j k v Hj) as (j' & E & T & L). exists j'.
    split_and!; [done | by right |]. intros k' ks. rewrite L, Hv. done. }
  assert (exists j', Ret (E:=json_exn) j = Ret j' /\ (json_type j' = t_null \/ json_type j' = t_object) /\
    forall k' ks, leaf (k' :: ks) j' = if String.eqb k' k then None else leaf (k' :: ks) j) as Hskip.
  { exists j. split_and!; [done..|]. intros k' ks. destruct (String.eqb_spec k' k) as [->|]; [|done].
    cbn. rewrite Hk. by destruct (is_structured j). }
  unfold value_leaf in Hput.
  destruct (value_kind pv) as [| |d|x|b|s|] eqn:Ek; cbn [kind_scalar] in *.
  1-2,7: destruct Hskip as (j' & E & T & L); exists j'; (split_and!; [done..|]);
    intros k' ks; rewrite L; by destruct ks.
  - apply Hput. intros [|? ks]; cbn; unfold json_scalar, is_boolean, is_number, is_structured,
      is_array, is_object; rewrite json_type_double; [by rewrite json_get_of_double | done].
  - apply Hput. intros [|? ks]; cbn; unfold json_scalar, is_boolean, is_number, is_string,
      is_structured, is_array, is_object; rewrite json_type_string; [by rewrite json_get_of_string | done].
  - apply Hput. intros [|? ks]; cbn; unfold json_scalar, is_boolean, is_structured, is_array,
      is_object; rewrite json_type_bool; [by rewrite json_get_of_bool | done].
  - destruct (Hrec s eq_refl) as (v & Ev & Hv). rewrite Ev. cbn. apply Hput, Hv.
Qed.

(** The loop of [StructToJson]. *)
Lemma StructToJson_loop (rec : PS -> outcome json_exn J) (l : list (string * PV)) j0 :
  NoDup l.*1 -> json_type j0 = t_null \/ json_type j0 = t_object ->
  (forall k, k ∈ l.*1 -> find_key k (json_items j0) = None) ->
  (forall k pv s, (k, pv) ∈ l -> value_kind pv = kStructValue s ->
     exists v, rec s = Ret v /\ forall ks, leaf ks v = struct_leaf ks s) ->
  exists j, mfold (fun j kv => value_to_json rec j kv.1 kv.2) j0 l = Ret j /\
    (json_type j = t_null \/ json_type j = t_object) /\
    forall k ks, leaf (k :: ks) j =
      match find_key k l with Some pv => value_leaf ks pv | None => leaf (k :: ks) j0 end.
Proof.
  revert j0. induction l as [|[k pv] l IH]; intros j0 Hnd Hj0 Hfresh Hrec; [by exists j0|].
  apply NoDup_cons in Hnd as [Hk Hnd]. cbn in Hk.
  destruct (value_to_json_leaf rec j0 k pv) as (j1 & E1 & T1 & L1);
    [done | apply Hfresh; set_solver | intros s Hs; apply (Hrec k pv); [set_solver|done] |].
  pose proof (value_to_json_keys rec j0 j1 k pv Hj0 E1) as F1.
  destruct (IH j1 Hnd T1) as (j & E & T & L).
  - intros k' Hk'. rewrite F1 by (intros ->; done). apply Hfresh. set_solver.
  - intros k' pv' s Hin. apply (Hrec k'). set_solver.
  - exists j. cbn [mfold fst snd]. rewrite E1. split_and!; [exact E | exact T |].
    intros k' ks. rewrite L. cbn [find_key]. rewrite L1.
    destruct (String.eqb_spec k' k) as [->|]; [|done]. by apply find_key_None in Hk as ->.
Qed.

Lemma StructToJson_leaf (stack : nat) s :
  (struct_depth s < stack)%nat ->
  exists j, StructToJson stack s = Ret j /\ (json_type j = t_null \/ json_type j = t_object) /\
    forall ks, leaf ks j = struct_leaf ks s.
Proof.
  revert s. induction stack as [|n IH]; intros s Hn; [lia|].
  destruct (StructToJson_loop (StructToJson n) (struct_fields s) json_null (struct_fields_NoDup s))
    as (j & E & T & L).
  - left. apply json_type_null.
  - intros k _. by rewrite json_items_null by apply json_type_null.
  - intros k pv s' Hin Hk. destruct (IH s') as (v & Ev & _ & Lv); [|by exists v].
    eapply Nat.lt_le_trans; [eapply (struct_depth_fields s s' k pv)|lia]; [|done].
    by apply In_find_key; [apply struct_fields_NoDup|].
  - exists j. split_and!; [exact E | exact T |]. intros [|k ks].
    + cbn. apply json_scalar_structured.
      unfold is_structured, is_null, is_array, is_object. destruct T as [->| ->]; [by right|by left].
    + rewrite L, struct_leaf_cons, leaf_scalar; [done|].
      unfold is_structured, is_array, is_object. by rewrite json_type_null.
Qed.

(** [C27] Sending any JSON document through a protobuf [Struct] and back keeps
    its leaves: the same key paths lead to the same booleans and strings, to the
    same floating-point numbers and, where an integer was stored, to the double
    nearest to it, and to nothing else; the leaf of a scalar document moves below the
    empty key.  The value that comes back is an object or null, so an array returns as
    an object keyed by its indices, and an empty container or one with only null
    members returns as null.  One stack frame per nesting level is enough. *)
Theorem struct_roundtrip_leaves j :
  exists s, JsonToStruct (S (json_depth j)) j = Ret s /\
  exists j', StructToJson (S (struct_depth s)) s = Ret j' /\
    (json_type j' = t_null \/ json_type j' = t_object) /\
    forall ks, leaf ks j' = wire_leaf ks j.
Proof.
  destruct (JsonToStruct_leaf (S (json_depth j)) j) as (s & E & L); [lia|].
  exists s. split; [done|].
  destruct (StructToJson_leaf (S (struct_depth s)) s) as (j' & E' & T & L'); [lia|].
  exists j'. split_and!; [done..|]. intros ks. by rewrite L', L.
Qed.

(** More stack does not change a result. *)
Lemma JsonToStruct_mono (n m : nat) j s :
  (n <= m)%nat -> JsonToStruct (PV:=PV) n j = Ret s -> JsonToStruct m j = Ret s.
Proof.
  revert m j s. induction n as [|n IH]; intros [|m] j s Hle; cbn [JsonToStruct]; try done; [lia|].
  apply mfold_mono. intros b kv b' (pv & Hpv & Hb)%bind_ret_inv.
  enough (json_to_value (JsonToStruct m) kv.2 = Ret pv) as -> by done.
  unfold json_to_value in *. repeat (case_match; [done|]).
  case_match; [|done]. apply bind_ret_inv in Hpv as (x & Hx & Hpv). by rewrite (IH m _ x) by (lia || done).
Qed.

(** What [TaskFromProto] after [TaskToProto] returns for the task [t]. *)
Definition same_task (t t' : Task J) : Prop :=
  task_id t' = task_id t /\ client_id t' = client_id t /\ priority t' = priority t /\
  state t' = state t /\ func_name t' = func_name t /\ required t' = required t /\
  shard t' = shard t /\ timeout_ms t' = timeout_ms t /\ max_retry t' = max_retry t /\
  retry_count t' = retry_count t /\ submit_ts t' = submit_ts t /\ start_ts t' = start_ts t /\
  finish_ts t' = finish_ts t /\ error_msg t' = error_msg t /\
  (forall ks, leaf ks (func_params t') = wire_leaf ks (func_params t)) /\
  (forall ks, leaf ks (result t') = wire_leaf ks (result t)).

Lemma TaskToProto_mono (n m : nat) (t : Task J) p :
  (n <= m)%nat -> TaskToProto (PV:=PV) n t = Ret p -> TaskToProto m t = Ret p.
Proof.
  unfold TaskToProto. intros Hle (sp & Ep & E)%bind_ret_inv. apply bind_ret_inv in E as (sr & Er & E).
  by rewrite (JsonToStruct_mono _ m _ _ Hle Ep), (JsonToStruct_mono _ m _ _ Hle Er).
Qed.

(** The message does not depend on the stack, and enough stack reads it back. *)
Lemma task_trip (t : Task J) (l : loc) :
  task_wf t ->
  exists p depth,
    (forall stack, (json_depth (func_params t) < stack)%nat -> (json_depth (result t) < stack)%nat ->
       TaskToProto stack t = Ret p) /\
    (forall stack, (depth < stack)%nat ->
       exists t', TaskFromProto stack l p = Ret t' /\ cancelled t' = Some l /\ same_task t t').
Proof.
  intros Hwf.
  destruct (JsonToStruct_leaf _ (func_params t) (Nat.lt_succ_diag_r _)) as (sp & Ep & Lp).
  destruct (JsonToStruct_leaf _ (result t) (Nat.lt_succ_diag_r _)) as (sr & Er & Lr).
  eexists _, (struct_depth sp + struct_depth sr)%nat. split.
  - intros stack Dp Dr. unfold TaskToProto.
    rewrite (JsonToStruct_mono _ stack _ _ Dp Ep), (JsonToStruct_mono _ stack _ _ Dr Er). reflexivity.
  - intros n Hn.
    destruct (StructToJson_leaf n sp) as (jp & Ejp & _ & Ljp); [lia|].
    destruct (StructToJson_leaf n sr) as (jr & Ejr & _ & Ljr); [lia|].
    unfold TaskFromProto. cbn [pb_func_params pb_result]. rewrite Ejp, Ejr.
    eexists; split; [reflexivity|]. split; [done|].
    unfold same_task; cbn -[TaskState_cast]. rewrite TaskState_cast_code by apply Hwf.
    split_and!; try done; try (intros ks; congruence); by destruct (required t), (shard t).
Qed.

(** [C13] A task survives the trip over the wire: every member that is not JSON is
    unchanged (the state byte included), the parameters and the result keep
    all their leaves (integers as the nearest doubles, a scalar document below the
    empty key), and the received task has a cancellation flag of its own.  The only
    conditions are that the members are in the range of their C++ types and that the
    stack has a frame for each nesting level. *)
Theorem task_proto_roundtrip (t : Task J) (l : loc) (stack : nat) :
  task_wf t ->
  (json_depth (func_params t) < stack)%nat -> (json_depth (result t) < stack)%nat ->
  exists p, TaskToProto stack t = Ret p /\
  exists depth, forall stack', (depth < stack')%nat ->
  exists t', TaskFromProto stack' l p = Ret t' /\ cancelled t' = Some l /\ same_task t t'.
Proof.
  intros Hwf Dp Dr. destruct (task_trip t l Hwf) as (p & depth & Hto & Hfrom).
  exists p. split; [by apply Hto|]. by exists depth.
Qed.
End convert_spec.

(** ** Witnesses *)

Module ConvertWitness.
Import JsonModel TaskWitness.

Definition nested : jtree :=
  JObj [("xs", JArr [JUint 1; JStr "two"; JNull]); ("cfg", JObj [("on", JBool true)]); ("e", JArr [])].

(** The array comes back as an object, null members and the empty array are gone. *)
Example nested_trip :
  (s ← JsonToStruct (PV:=pvalue) 4 nested; StructToJson (J:=jtree) 4 s) =
  Ret (JObj [("xs", JObj [("0", JFloat (double_of_Z 1)); ("1", JStr "two")]);
             ("cfg", JObj [("on", JBool true)]); ("e", JNull)]).
Proof. vm_compute. reflexivity. Qed.

(** 2^53 and 2^53 + 1 come back as the same number, and 7 below the empty key. *)
Example integers_collapse :
  let trip (j : jtree) := s ← JsonToStruct (PV:=pvalue) 2 j; StructToJson (J:=jtree) 2 s in
  trip (JObj [("id", JUint 9007199254740993)]) = Ret (JObj [("id", JFloat (double_of_Z 9007199254740992))]) /\
  trip (JObj [("id", JUint 9007199254740992)]) = Ret (JObj [("id", JFloat (double_of_Z 9007199254740992))]) /\
  trip (JInt 7) = Ret (JObj [("", JFloat (double_of_Z 7))]).
Proof. split_and!; vm_compute; reflexivity. Qed.

Lemma task_proto_roundtrip_witness :
  exists p, TaskToProto (PS:=list (string * pvalue)) (PV:=pvalue) 3 sample = Ret p /\
  exists depth, forall stack', (depth < stack')%nat ->
  exists t', TaskFromProto stack' 9 p = Ret t' /\ cancelled t' = Some 9%positive /\ same_task sample t'.
Proof.
  apply (task_proto_roundtrip sample 9 3).
  - exact sample_wf.
  - cbn. lia.
  - cbn. lia.
Defined.

End ConvertWitness.
