(* ===== verification/ThreadPool.v ===== *)
(** * The thread pool (src/src/common/include/thread_pool.hpp, src/src/common/src/thread_pool.cpp)

    [ThreadPool] as a transition system: every access to an atomic, to the
    semaphore or to the lock-free queue is one step of the thread that performs
    it, so the reachable states are all sequentially consistent interleavings.
    A program counter names the source line a thread executes next.

    Two parts of the pool come from outside [src/].  [boost::lockfree::queue] is
    the class [LockFreeQueue]; its laws say that it is a FIFO queue whose [pop]
    fails exactly when it is empty, and let [push] fail at any time.  The C++
    standard leaves [std::binary_semaphore::release] undefined when the counter
    would pass its maximum, and says of the maximum only that it is at least 1, so
    both are a parameter ([semaphore]), and [sem_ok] records whether the
    precondition held so far. *)

From S2P Require Import Prelude.

Class LockFreeQueue (Q T : Type) := {
  q_new : Z -> Q;
  q_push : Q -> T -> option Q;
  q_pop : Q -> option (T * Q);
  q_empty : Q -> bool;
}.

Class LockFreeQueueLaws (Q T : Type) `{LockFreeQueue Q T} := {
  contents : Q -> list T;
  contents_new n : contents (q_new n) = [];
  contents_push (q q' : Q) t : q_push q t = Some q' -> contents q' = contents q ++ [t];
  contents_pop (q q' : Q) t : q_pop q = Some (t, q') -> contents q = t :: contents q';
  contents_pop_None (q : Q) : q_pop q = None <-> contents q = [];
  contents_empty (q : Q) : q_empty q = true <-> contents q = [];
}.

(** ** Program counters *)

(** A worker thread, by the line of [ThreadPool::worker] it executes next. *)
Inductive worker_pc (T : Type) :=
| W_start                 (* 43: active_threads_.fetch_add(1) *)
| W_loop                  (* 45: stop_.load() *)
| W_wait                  (* 47: task_sem_.try_acquire_for(200ms) *)
| W_pop                   (* 48: queue_.pop(ptr) *)
| W_run (t : T)           (* 49, 50: the task runs, its closure is deleted *)
| W_sub                   (* 51: leftover_.fetch_sub(1) *)
| W_check                 (* 55: active_threads_.load() *)
| W_check_target (a : Z)  (* 56: ... > target_thread_count_.load() *)
| W_old                   (* 58: old = active_threads_.load() *)
| W_old_target (old : Z)  (* 59: old > target_thread_count_.load() *)
| W_cas (old : Z)         (* 60: compare_exchange_strong(old, old - 1) *)
| W_idle                  (* 64: !stop_.load() *)
| W_idle_empty            (* 64, 65: queue_.empty(), sleep *)
| W_exit                  (* 69: active_threads_.fetch_sub(1) *)
| W_end.                  (* the thread function has returned *)
Arguments W_start {T}.
Arguments W_loop {T}.
Arguments W_wait {T}.
Arguments W_pop {T}.
Arguments W_run {T} t.
Arguments W_sub {T}.
Arguments W_check {T}.
Arguments W_check_target {T} a.
Arguments W_old {T}.
Arguments W_old_target {T} old.
Arguments W_cas {T} old.
Arguments W_idle {T}.
Arguments W_idle_empty {T}.
Arguments W_exit {T}.
Arguments W_end {T}.

(** A call on the pool in progress in some other thread. *)
Inductive caller_pc (T : Type) :=
| C_enqueue (t : T)       (* 28: stop_.load() *)
| C_push (t : T)          (* 31: queue_.push(p) *)
| C_recheck (t : T)       (* 32: stop_.load() after a failed push *)
| C_count                 (* 38: leftover_.fetch_add(1) *)
| C_notify                (* 39: task_sem_.release() *)
| C_add (n : nat)         (* 74: target_thread_count_.fetch_add(n) *)
| C_spawn (n : nat)       (* 77: n threads left to create *)
| C_remove (n : Z)        (* 84: target_thread_count_.load() *)
| C_store (target : Z)    (* 87: target_thread_count_.store(new_target) *)
| C_shutdown              (* 97: stop_.store(true) *)
| C_dtor                  (* 17: stop_.store(true) *)
| C_dtor_wake             (* 18: task_sem_.release(threads_.size()) *)
| C_dtor_drain            (* 21: queue_.pop(ptr) *)
| C_dtor_sub              (* 23: leftover_.fetch_sub(1) *)
| C_dtor_join             (* members destroyed; threads_ joins the workers *)
| C_return                (* the call has returned *)
| C_throw.                (* the call has thrown runtime_error("pool stopped") *)
Arguments C_enqueue {T} t.
Arguments C_push {T} t.
Arguments C_recheck {T} t.
Arguments C_count {T}.
Arguments C_notify {T}.
Arguments C_add {T} n.
Arguments C_spawn {T} n.
Arguments C_remove {T} n.
Arguments C_store {T} target.
Arguments C_shutdown {T}.
Arguments C_dtor {T}.
Arguments C_dtor_wake {T}.
Arguments C_dtor_drain {T}.
Arguments C_dtor_sub {T}.
Arguments C_dtor_join {T}.
Arguments C_return {T}.
Arguments C_throw {T}.

(** ** State *)

Record pool (Q T : Type) := mkPool {
  queue_ : Q;
  threads_ : list (worker_pc T);
  stop_ : bool;
  active_threads_ : Z;
  target_thread_count_ : Z;
  task_sem_ : Z;
  leftover_ : Z;
  callers : list (caller_pc T);
  (* history *)
  pushed : list T;          (* in the order of the successful pushes *)
  popped : list T;          (* in the order of the successful pops *)
  executed : list T;        (* in the order in which the tasks ran *)
  dropped : list T;         (* deleted by the destructor without running *)
  sem_ok : bool;            (* no release went past the semaphore's maximum *)
  destroyed : bool;         (* the atomics and the semaphore are destroyed *)
  use_after_destroy : bool; (* a worker has touched one of them since *)
}.
Arguments mkPool {Q T}.
Arguments queue_ {Q T} p.
Arguments threads_ {Q T} p.
Arguments stop_ {Q T} p.
Arguments active_threads_ {Q T} p.
Arguments target_thread_count_ {Q T} p.
Arguments task_sem_ {Q T} p.
Arguments leftover_ {Q T} p.
Arguments callers {Q T} p.
Arguments pushed {Q T} p.
Arguments popped {Q T} p.
Arguments executed {Q T} p.
Arguments dropped {Q T} p.
Arguments sem_ok {Q T} p.
Arguments destroyed {Q T} p.
Arguments use_after_destroy {Q T} p.

Inductive pool_op (T : Type) :=
| OpEnqueue (t : T)
| OpAddThreads (n : nat)
| OpRemoveThreads (n : Z)
| OpShutdown
| OpDestroy.
Arguments OpEnqueue {T} t.
Arguments OpAddThreads {T} n.
Arguments OpRemoveThreads {T} n.
Arguments OpShutdown {T}.
Arguments OpDestroy {T}.

(** The scheduler picks a thread; [Timeout i]: the timed wait of worker [i]
    gives up; [Call op]: another thread starts an operation. *)
Inductive pool_act (T : Type) :=
| Call (op : pool_op T)
| StepWorker (i : nat)
| Timeout (i : nat)
| StepCaller (i : nat).
Arguments Call {T} op.
Arguments StepWorker {T} i.
Arguments Timeout {T} i.
Arguments StepCaller {T} i.

(** [std::binary_semaphore]: the counter after [release(n)], which the standard fixes
    only within the maximum, and [max()], of which it says that it is at least 1. *)
Record semaphore := mkSem {
  sem_add :> Z -> Z -> Z;
  sem_max : Z;
  sem_max_pos : 1 <= sem_max;
}.

(** One that adds whatever its maximum. *)
Definition adding_sem : semaphore := mkSem Z.add 1 (Z.le_refl 1).

Section pool.
Context {Q T : Type} `{LockFreeQueue Q T}.
Context (sem_release : semaphore).
Implicit Types (s : pool Q T).

(** One setter per group of members a step writes. *)
Definition set_worker (i : nat) (pc : worker_pc T) s : pool Q T :=
  mkPool (queue_ s) (<[i := pc]> (threads_ s)) (stop_ s) (active_threads_ s)
    (target_thread_count_ s) (task_sem_ s) (leftover_ s) (callers s) (pushed s) (popped s)
    (executed s) (dropped s) (sem_ok s) (destroyed s) (use_after_destroy s).
Definition set_caller (i : nat) (pc : caller_pc T) s : pool Q T :=
  mkPool (queue_ s) (threads_ s) (stop_ s) (active_threads_ s) (target_thread_count_ s)
    (task_sem_ s) (leftover_ s) (<[i := pc]> (callers s)) (pushed s) (popped s) (executed s)
    (dropped s) (sem_ok s) (destroyed s) (use_after_destroy s).
Definition set_threads (ws : list (worker_pc T)) s : pool Q T :=
  mkPool (queue_ s) ws (stop_ s) (active_threads_ s) (target_thread_count_ s) (task_sem_ s)
    (leftover_ s) (callers s) (pushed s) (popped s) (executed s) (dropped s) (sem_ok s)
    (destroyed s) (use_after_destroy s).
Definition set_callers (cs : list (caller_pc T)) s : pool Q T :=
  mkPool (queue_ s) (threads_ s) (stop_ s) (active_threads_ s) (target_thread_count_ s)
    (task_sem_ s) (leftover_ s) cs (pushed s) (popped s) (executed s) (dropped s) (sem_ok s)
    (destroyed s) (use_after_destroy s).
Definition set_stop s : pool Q T :=
  mkPool (queue_ s) (threads_ s) true (active_threads_ s) (target_thread_count_ s) (task_sem_ s)
    (leftover_ s) (callers s) (pushed s) (popped s) (executed s) (dropped s) (sem_ok s)
    (destroyed s) (use_after_destroy s).
Definition set_active (z : Z) s : pool Q T :=
  mkPool (queue_ s) (threads_ s) (stop_ s) z (target_thread_count_ s) (task_sem_ s)
    (leftover_ s) (callers s) (pushed s) (popped s) (executed s) (dropped s) (sem_ok s)
    (destroyed s) (use_after_destroy s).
Definition set_target (z : Z) s : pool Q T :=
  mkPool (queue_ s) (threads_ s) (stop_ s) (active_threads_ s) z (task_sem_ s)
    (leftover_ s) (callers s) (pushed s) (popped s) (executed s) (dropped s) (sem_ok s)
    (destroyed s) (use_after_destroy s).
Definition set_leftover (z : Z) s : pool Q T :=
  mkPool (queue_ s) (threads_ s) (stop_ s) (active_threads_ s) (target_thread_count_ s)
    (task_sem_ s) z (callers s) (pushed s) (popped s) (executed s) (dropped s) (sem_ok s)
    (destroyed s) (use_after_destroy s).

(** [task_sem_.release(n)] and a successful [try_acquire_for] *)
Definition release_sem (n : Z) s : pool Q T :=
  mkPool (queue_ s) (threads_ s) (stop_ s) (active_threads_ s) (target_thread_count_ s)
    (sem_release (task_sem_ s) n) (leftover_ s) (callers s) (pushed s) (popped s) (executed s)
    (dropped s) (sem_ok s && (n <=? sem_max sem_release - task_sem_ s)) (destroyed s) (use_after_destroy s).
Definition acquire_sem s : pool Q T :=
  mkPool (queue_ s) (threads_ s) (stop_ s) (active_threads_ s) (target_thread_count_ s)
    (task_sem_ s - 1) (leftover_ s) (callers s) (pushed s) (popped s) (executed s)
    (dropped s) (sem_ok s) (destroyed s) (use_after_destroy s).

(** The queue after a push or a pop, with the history. *)
Definition did_push (t : T) (q : Q) s : pool Q T :=
  mkPool q (threads_ s) (stop_ s) (active_threads_ s) (target_thread_count_ s) (task_sem_ s)
    (leftover_ s) (callers s) (pushed s ++ [t]) (popped s) (executed s) (dropped s) (sem_ok s)
    (destroyed s) (use_after_destroy s).
Definition did_pop (t : T) (q : Q) s : pool Q T :=
  mkPool q (threads_ s) (stop_ s) (active_threads_ s) (target_thread_count_ s) (task_sem_ s)
    (leftover_ s) (callers s) (pushed s) (popped s ++ [t]) (executed s) (dropped s) (sem_ok s)
    (destroyed s) (use_after_destroy s).
Definition did_run (t : T) s : pool Q T :=
  mkPool (queue_ s) (threads_ s) (stop_ s) (active_threads_ s) (target_thread_count_ s)
    (task_sem_ s) (leftover_ s) (callers s) (pushed s) (popped s) (executed s ++ [t]) (dropped s)
    (sem_ok s) (destroyed s) (use_after_destroy s).
Definition did_drop (t : T) s : pool Q T :=
  mkPool (queue_ s) (threads_ s) (stop_ s) (active_threads_ s) (target_thread_count_ s)
    (task_sem_ s) (leftover_ s) (callers s) (pushed s) (popped s) (executed s) (dropped s ++ [t])
    (sem_ok s) (destroyed s) (use_after_destroy s).
Definition set_destroyed s : pool Q T :=
  mkPool (queue_ s) (threads_ s) (stop_ s) (active_threads_ s) (target_thread_count_ s)
    (task_sem_ s) (leftover_ s) (callers s) (pushed s) (popped s) (executed s) (dropped s)
    (sem_ok s) true (use_after_destroy s).
Definition touch s : pool Q T :=
  mkPool (queue_ s) (threads_ s) (stop_ s) (active_threads_ s) (target_thread_count_ s)
    (task_sem_ s) (leftover_ s) (callers s) (pushed s) (popped s) (executed s) (dropped s)
    (sem_ok s) (destroyed s) (use_after_destroy s || destroyed s).

(** The constructor: the threads exist and have not run yet. *)
Definition ThreadPool (num_threads : nat) (queue_capacity : Z) : pool Q T :=
  mkPool (q_new queue_capacity) (replicate num_threads W_start) false 0 (Z.of_nat num_threads)
    0 0 [] [] [] [] [] true false false.

(** ** Steps *)

Definition worker (i : nat) (pc : worker_pc T) s : option (pool Q T) :=
  match pc with
  | W_start => Some (set_worker i W_loop (set_active (active_threads_ s +u64 1)%cpp s))
  | W_loop => Some (set_worker i (if stop_ s then W_exit else W_wait) s)
  | W_wait => if 0 <? task_sem_ s then Some (set_worker i W_pop (acquire_sem s)) else None
  | W_pop =>
      match q_pop (queue_ s) with
      | Some (t, q) => Some (set_worker i (W_run t) (did_pop t q s))
      | None => Some (set_worker i W_check s)
      end
  | W_run t => Some (set_worker i W_sub (did_run t s))
  | W_sub => Some (set_worker i W_check (set_leftover (leftover_ s -u64 1)%cpp s))
  | W_check => Some (set_worker i (W_check_target (active_threads_ s)) s)
  | W_check_target a =>
      Some (set_worker i (if target_thread_count_ s <? a then W_old else W_loop) s)
  | W_old => Some (set_worker i (W_old_target (active_threads_ s)) s)
  | W_old_target old =>
      Some (set_worker i (if target_thread_count_ s <? old then W_cas old else W_idle) s)
  | W_cas old =>
      if active_threads_ s =? old
      then Some (set_worker i W_end (set_active (old -u64 1)%cpp s))
      else Some (set_worker i W_idle s)
  | W_idle => Some (set_worker i (if stop_ s then W_loop else W_idle_empty) s)
  | W_idle_empty => Some (set_worker i W_loop s)
  | W_exit => Some (set_worker i W_end (set_active (active_threads_ s -u64 1)%cpp s))
  | W_end => None
  end.

(** Whether the step of a worker touches an atomic member or the semaphore. *)
Definition touches (pc : worker_pc T) : bool :=
  match pc with W_pop | W_run _ | W_idle_empty | W_end => false | _ => true end.

Definition caller (i : nat) (pc : caller_pc T) s : option (pool Q T) :=
  match pc with
  (* enqueue *)
  | C_enqueue t => Some (set_caller i (if stop_ s then C_throw else C_push t) s)
  | C_push t =>
      match q_push (queue_ s) t with
      | Some q => Some (set_caller i C_count (did_push t q s))
      | None => Some (set_caller i (C_recheck t) s)
      end
  | C_recheck t => Some (set_caller i (if stop_ s then C_throw else C_push t) s)
  | C_count => Some (set_caller i C_notify (set_leftover (leftover_ s +u64 1)%cpp s))
  | C_notify => Some (set_caller i C_return (release_sem 1 s))
  (* add_threads, remove_threads, shutdown *)
  | C_add n =>
      Some (set_caller i (C_spawn n) (set_target (target_thread_count_ s +u64 Z.of_nat n)%cpp s))
  | C_spawn (S n) => Some (set_caller i (C_spawn n) (set_threads (threads_ s ++ [W_start]) s))
  | C_spawn O => Some (set_caller i C_return s)
  | C_remove n =>
      let current_target := target_thread_count_ s in
      Some (set_caller i (C_store (if n <? current_target then current_target - n else 0)) s)
  | C_store new_target => Some (set_caller i C_return (set_target new_target s))
  | C_shutdown => Some (set_caller i C_return (set_stop s))
  (* the destructor *)
  | C_dtor => Some (set_caller i C_dtor_wake (set_stop s))
  | C_dtor_wake =>
      Some (set_caller i C_dtor_drain (release_sem (Z.of_nat (length (threads_ s))) s))
  | C_dtor_drain =>
      match q_pop (queue_ s) with
      | Some (t, q) => Some (set_caller i C_dtor_sub (did_drop t (did_pop t q s)))
      | None => Some (set_caller i C_dtor_join (set_destroyed s))
      end
  | C_dtor_sub => Some (set_caller i C_dtor_drain (set_leftover (leftover_ s -u64 1)%cpp s))
  | C_dtor_join =>
      if forallb (fun w => match w with W_end => true | _ => false end) (threads_ s)
      then Some (set_caller i C_return s) else None
  | C_return | C_throw => None
  end.

Definition start (op : pool_op T) : caller_pc T :=
  match op with
  | OpEnqueue t => C_enqueue t
  | OpAddThreads n => C_add n
  | OpRemoveThreads n => C_remove n
  | OpShutdown => C_shutdown
  | OpDestroy => C_dtor
  end.

Definition exec (a : pool_act T) s : option (pool Q T) :=
  match a with
  | Call op => Some (set_callers (callers s ++ [start op]) s)
  | StepWorker i =>
      pc ← threads_ s !! i; worker i pc (if touches pc then touch s else s)
  | Timeout i =>
      pc ← threads_ s !! i;
      match pc with W_wait => Some (set_worker i W_check (touch s)) | _ => None end
  | StepCaller i => pc ← callers s !! i; caller i pc s
  end.

(** ** Observers *)

Definition get_thread_count s : Z := active_threads_ s.
Definition get_tasks_left s : Z := leftover_ s.
End pool.

(** ** Accounting *)

Section accounting.
Context {T : Type}.

(** Workers that [active_threads_] counts. *)
Definition counted (pc : worker_pc T) : Z :=
  match pc with W_start | W_end => 0 | _ => 1 end.

(** Tasks that left the queue and are still in [leftover_], and tasks that are
    in the queue and not yet in [leftover_]. *)
Definition held (pc : worker_pc T) : Z :=
  match pc with W_run _ | W_sub => 1 | _ => 0 end.
Definition uncounted (pc : caller_pc T) : Z :=
  match pc with C_count => -1 | C_dtor_sub => 1 | _ => 0 end.

(** The task a worker is about to run. *)
Definition running (pc : worker_pc T) : list T :=
  match pc with W_run t => [t] | _ => [] end.

(** Semaphore permits in use: taken by a worker for its next pop, or still owed
    by an [enqueue] that has already pushed. *)
Definition permit (pc : worker_pc T) : Z :=
  match pc with W_pop => 1 | _ => 0 end.
Definition owed (pc : caller_pc T) : Z :=
  match pc with C_count | C_notify => 1 | _ => 0 end.

Lemma counted_range pc : 0 <= counted pc <= 1.
Proof. destruct pc; cbn; lia. Qed.
End accounting.

(** [pool_step] opens one step of the pool: the program counter of the thread
    that moves is [Hpc]. *)
Ltac pool_step E :=
  match type of E with
  | ThreadPool.exec _ ?a ?s = Some ?s' =>
      let i := fresh "i" in let pc := fresh "pc" in let Hpc := fresh "Hpc" in
      destruct a as [?op | i | i | i]; cbn [ThreadPool.exec] in E;
      [ injection E as <-
      | destruct (threads_ s !! i) as [pc|] eqn:Hpc; cbn [mbind option_bind] in E; [|done];
        destruct pc; cbn [worker touches touch] in E
      | destruct (threads_ s !! i) as [pc|] eqn:Hpc; cbn [mbind option_bind] in E; [|done];
        destruct pc; try done
      | destruct (callers s !! i) as [pc|] eqn:Hpc; cbn [mbind option_bind] in E; [|done];
        destruct pc; cbn [caller] in E ];
      repeat (case_match; simplify_eq); simplify_eq; bools
  end.

(** The queue after a pop or a push. *)
Ltac queue_facts :=
  repeat match goal with
  | Hq : q_pop _ = Some _ |- _ => apply contents_pop in Hq
  | Hq : q_pop _ = None |- _ => apply contents_pop_None in Hq
  | Hq : q_push _ _ = Some _ |- _ => apply contents_push in Hq
  end.

Section invariants.
Context {Q T : Type} `{LockFreeQueueLaws Q T}.
Context (sem_release : semaphore).
Implicit Types (s : pool Q T).

Abbreviation exec := (exec sem_release).

(** A pool just constructed. *)
Definition fresh (s : pool Q T) : Prop := exists n cap, s = ThreadPool n cap.

Record pool_inv s : Prop := {
  inv_active : active_threads_ s = u64 (total counted (threads_ s));
  inv_leftover :
    leftover_ s = u64 (Z.of_nat (length (contents (queue_ s))) + total held (threads_ s) +
                       total uncounted (callers s));
  inv_fifo : pushed s = popped s ++ contents (queue_ s);
  inv_tasks : popped s ≡ₚ executed s ++ dropped s ++ gather running (threads_ s);
}.

Lemma total_replicate0 {A} (f : A -> Z) x n : f x = 0 -> total f (replicate n x) = 0.
Proof. intros Hx. induction n; cbn; lia. Qed.

Lemma fresh_inv s : fresh s -> pool_inv s.
Proof.
  intros (n & cap & ->). split; cbn.
  - by rewrite total_replicate0.
  - by rewrite contents_new, !total_replicate0.
  - by rewrite contents_new.
  - unfold gather. induction n; cbn; done.
Qed.

Lemma start_uncounted (op : pool_op T) : uncounted (start op) = 0.
Proof. by destruct op. Qed.

(** Rewrites the sums after a step with the program counter that moved. *)
Ltac totals :=
  repeat match goal with
  | Hpc : threads_ ?s !! ?i = Some _ |- context [total _ (<[?i := _]> (threads_ ?s))] =>
      rewrite (total_insert _ _ _ _ _ Hpc)
  | Hpc : callers ?s !! ?i = Some _ |- context [total _ (<[?i := _]> (callers ?s))] =>
      rewrite (total_insert _ _ _ _ _ Hpc)
  end; rewrite ?total_app; cbn [total counted held uncounted permit owed].

Lemma step_active a s s' :
  active_threads_ s = u64 (total counted (threads_ s)) -> exec a s = Some s' ->
  active_threads_ s' = u64 (total counted (threads_ s')).
Proof.
  intros HA E. pool_step E; subst; cbn; totals; rewrite HA; autorewrite with machine_int; f_equal; lia.
Qed.

Lemma step_leftover a s s' :
  leftover_ s = u64 (Z.of_nat (length (contents (queue_ s))) + total held (threads_ s) +
                     total uncounted (callers s)) ->
  exec a s = Some s' ->
  leftover_ s' = u64 (Z.of_nat (length (contents (queue_ s'))) + total held (threads_ s') +
                      total uncounted (callers s')).
Proof.
  intros HL E. pool_step E; subst; cbn; totals; rewrite HL; autorewrite with machine_int;
    rewrite ?start_uncounted; f_equal; queue_facts;
    repeat match goal with Hq : contents _ = _ |- _ => rewrite Hq; clear Hq end;
    rewrite ?length_app; cbn [length]; lia.
Qed.

Lemma step_fifo a s s' :
  pushed s = popped s ++ contents (queue_ s) -> exec a s = Some s' ->
  pushed s' = popped s' ++ contents (queue_ s').
Proof.
  intros HF E. pool_step E; cbn; try exact HF; queue_facts; rewrite HF;
    match goal with Hq : contents _ = _ |- _ => rewrite Hq end; by rewrite <- ?app_assoc.
Qed.

Lemma step_tasks a s s' :
  popped s ≡ₚ executed s ++ dropped s ++ gather running (threads_ s) -> exec a s = Some s' ->
  popped s' ≡ₚ executed s' ++ dropped s' ++ gather running (threads_ s').
Proof.
  intros HT E. pool_step E; cbn; try exact HT;
    try (erewrite gather_insert_same by (first [exact Hpc | reflexivity]); exact HT).
  - rewrite (gather_insert_take running _ _ _ (W_run t) t Hpc eq_refl eq_refl), HT. solve_Permutation.
  - rewrite HT, <- (gather_insert_drop running _ _ _ W_sub t Hpc eq_refl eq_refl). solve_Permutation.
  - rewrite gather_app, HT. unfold gather at 3. cbn. by rewrite app_nil_r.
  - rewrite HT. solve_Permutation.
Qed.

Lemma exec_inv a s s' : pool_inv s -> exec a s = Some s' -> pool_inv s'.
Proof.
  intros [HA HL HF HT] E.
  split; eauto using step_active, step_leftover, step_fifo, step_tasks.
Qed.

Lemma reachable_inv s : reachable exec fresh s -> pool_inv s.
Proof. apply reachable_invariant; [apply fresh_inv | intros; eapply exec_inv; eauto]. Qed.

(** [C1] The pool is a FIFO queue and loses nothing: tasks leave the queue in
    the order in which they were pushed, and at every moment the pushed tasks
    are exactly those still queued, those a worker is about to run, those that
    have run and those the destructor deleted, each counted once.  No
    interleaving runs a task twice. *)
Theorem pool_fifo_conservation s :
  reachable exec fresh s ->
  pushed s = popped s ++ contents (queue_ s) /\
  pushed s ≡ₚ executed s ++ gather running (threads_ s) ++ dropped s ++ contents (queue_ s).
Proof.
  intros Hr. destruct (reachable_inv s Hr) as [_ _ HF HT]. split; [exact HF|].
  rewrite HF, HT. solve_Permutation.
Qed.

(** [get_thread_count] is the number of workers that have entered their
    loop and not left it, for any number of threads a machine can hold: the
    unsigned counter never wraps below zero, although workers leave through
    two different decrements. *)
Lemma thread_count_exact s :
  reachable exec fresh s -> Z.of_nat (length (threads_ s)) < 2 ^ 64 ->
  get_thread_count s = total counted (threads_ s).
Proof.
  intros Hr Hlen. destruct (reachable_inv s Hr) as [HA _ _ _].
  unfold get_thread_count. rewrite HA. apply wrap_small.
  pose proof (total_nonneg counted (threads_ s) (fun pc => proj1 (counted_range pc))).
  pose proof (total_const_le counted (threads_ s) 1 (fun pc => proj2 (counted_range pc))).
  unfold fits. lia.
Qed.

(** ** The count of outstanding tasks *)

(** The pool in use: every call but the destructor. *)
Definition exec_live (a : pool_act T) s : option (pool Q T) :=
  match a with
  | Call OpDestroy => None
  | _ => exec a s
  end.

Definition notifying (pc : caller_pc T) : Z :=
  match pc with C_notify => 1 | _ => 0 end.
Definition not_dtor (pc : caller_pc T) : Prop :=
  match pc with
  | C_dtor | C_dtor_wake | C_dtor_drain | C_dtor_sub | C_dtor_join => False
  | _ => True
  end.

(** Tasks accepted and not yet finished, as the counter should see them. *)
Definition outstanding s : Z :=
  Z.of_nat (length (contents (queue_ s))) + total held (threads_ s) + total uncounted (callers s).

(** Every permit stands for a task that has been counted. *)
Definition permits_counted s : Prop :=
  0 <= task_sem_ s /\ Forall not_dtor (callers s) /\
  task_sem_ s + total permit (threads_ s) + total notifying (callers s) + total held (threads_ s)
    <= outstanding s.

Lemma exec_live_permits a s s' :
  (forall c n, 0 <= c -> 0 <= n -> 0 <= sem_release c n <= c + n) ->
  permits_counted s -> exec_live a s = Some s' -> permits_counted s'.
Proof.
  intros Hrel (Hs & HC & HP) E. unfold permits_counted, outstanding in *.
  assert (exec a s = Some s') as E1 by (by destruct a as [[]| | |]).
  assert (forall j pc, callers s !! j = Some pc -> not_dtor pc) as HC'.
  { intros j pc Hj. by eapply Forall_lookup_1 in HC. }
  pose proof (Hrel (task_sem_ s) 1 Hs ltac:(lia)).
  pool_step E1; try (by destruct (HC' _ _ Hpc)); cbn in *; totals; queue_facts;
    repeat match goal with Hq : contents _ = _ |- _ => rewrite Hq in *; clear Hq end;
    rewrite ?length_app; cbn [length notifying] in *;
    (split_and!; [try lia | try done; try (by apply Forall_insert) | try lia]).
  - apply Forall_app; split; [done|]. repeat constructor. by destruct op.
  - destruct op; cbn; lia.
Qed.

(** [C39] While the pool is in use its count of outstanding tasks never
    underflows, although [enqueue] publishes a task before counting it: a
    permit of the semaphore exists only for a counted task.  [get_tasks_left]
    is therefore exactly the number of queued tasks plus those being run, less
    those not counted yet, for any semaphore that never adds more permits than
    released, any calls but the destructor, and fewer than 2^64 tasks. *)
Theorem tasks_left_no_underflow s :
  (forall c n, 0 <= c -> 0 <= n -> 0 <= sem_release c n <= c + n) ->
  reachable exec_live fresh s -> outstanding s < 2 ^ 64 ->
  0 <= outstanding s /\ get_tasks_left s = outstanding s.
Proof.
  intros Hrel Hr Hlt. assert (permits_counted s /\ pool_inv s) as [(Hs & _ & HP) [_ HL _ _]].
  { clear Hlt. revert s Hr. apply reachable_invariant.
    - intros s Hf. split; [|by apply fresh_inv]. destruct Hf as (n & cap & ->).
      unfold permits_counted, outstanding. cbn. rewrite contents_new, !total_replicate0 by done.
      split_and!; [lia | constructor | cbn; lia].
    - intros s a s' [HP HI] E. split; [by eapply exec_live_permits|].
      eapply (exec_inv a); [done|]. by destruct a as [[]| | |]. }
  pose proof (total_nonneg permit (threads_ s) ltac:(intros []; cbn; lia)).
  pose proof (total_nonneg notifying (callers s) ltac:(intros []; cbn; lia)).
  pose proof (total_nonneg held (threads_ s) ltac:(intros []; cbn; lia)).
  split; [lia|]. unfold get_tasks_left. rewrite HL. apply wrap_small.
  unfold fits, outstanding in *. lia.
Qed.

(** ** After stop_ is set *)

(** Steps a worker can still take once [stop_] is set. *)
Definition rank (pc : worker_pc T) : nat :=
  match pc with
  | W_end => 0 | W_exit => 1 | W_loop => 2 | W_idle_empty => 3 | W_start => 3 | W_idle => 4
  | W_cas _ => 5 | W_old_target _ => 6 | W_old => 7 | W_check_target _ => 8 | W_check => 9
  | W_sub => 10 | W_run _ => 11 | W_pop => 12 | W_wait => 13
  end%nat.

Definition pushing (pc : caller_pc T) : Z :=
  match pc with C_push _ => 1 | _ => 0 end.

Lemma step_after_stop a s s' :
  stop_ s = true -> exec a s = Some s' ->
  stop_ s' = true /\
  Z.of_nat (length (pushed s')) + total pushing (callers s') <=
  Z.of_nat (length (pushed s)) + total pushing (callers s).
Proof.
  intros Hs E. pool_step E; cbn; totals; rewrite ?length_app; cbn [pushing length];
    split; try done; try lia; try congruence.
  destruct op; cbn; lia.
Qed.

(** The steps a thread takes itself, its time-outs included. *)
Definition own (i : nat) (a : pool_act T) : bool :=
  match a with StepWorker j | Timeout j => Nat.eqb i j | _ => false end.

Fixpoint own_steps (i : nat) (tr : list (pool_act T)) : nat :=
  match tr with [] => 0 | a :: tr => (if own i a then 1 else 0) + own_steps i tr end.

Lemma own_step_rank a s s' i pc :
  stop_ s = true -> threads_ s !! i = Some pc -> exec a s = Some s' ->
  exists pc', threads_ s' !! i = Some pc' /\ ((if own i a then 1 else 0) + rank pc' <= rank pc)%nat.
Proof.
  intros Hs Hpc E. pose proof (lookup_lt_Some _ _ _ Hpc) as Hi.
  destruct (own i a) eqn:Ho.
  - assert (a = StepWorker i \/ a = Timeout i) as [-> | ->]
      by (destruct a; try done; cbn in Ho; apply Nat.eqb_eq in Ho; subst; auto);
      cbn in E; rewrite Hpc in E; cbn in E; destruct pc; cbn in E; try discriminate E;
      repeat (case_match; simplify_eq); simplify_eq; cbn;
      rewrite list_lookup_insert_eq by done; eexists; (split; [reflexivity|]); cbn; try lia;
      by rewrite ?Hs in *.
  - exists pc. split; [|lia]. pool_step E; cbn; try done; cbn in Ho; try apply Nat.eqb_neq in Ho;
      try (by rewrite list_lookup_insert_ne by congruence).
    by apply lookup_app_l_Some.
Qed.

Lemma worker_enabled s i pc :
  threads_ s !! i = Some pc -> pc <> W_end -> exists a s', own i a = true /\ exec a s = Some s'.
Proof.
  intros Hpc Hne. destruct pc; try done;
    try (exists (Timeout i); cbn; rewrite Hpc, Nat.eqb_refl; eexists; split; reflexivity);
    exists (StepWorker i); cbn; rewrite Hpc, Nat.eqb_refl; cbn; repeat case_match;
    (eexists; split; reflexivity).
Qed.

(** [C29] Once [stop_] is set every worker ends: whatever the other threads do
    in between, a worker takes at most 13 more steps of its own, and as long as
    it has not returned it has a step to take. *)
Theorem workers_stop tr s s' i pc :
  stop_ s = true -> threads_ s !! i = Some pc -> run exec tr s = Some s' ->
  exists pc', threads_ s' !! i = Some pc' /\
    (own_steps i tr + rank pc' <= rank pc <= 13)%nat /\
    (pc' <> W_end -> exists a s'', own i a = true /\ exec a s' = Some s'').
Proof.
  revert s pc. induction tr as [|a tr IH]; intros s pc Hs Hpc Hrun; cbn [run own_steps] in *.
  - simplify_eq. exists pc. split_and!; [done|lia|destruct pc; cbn; lia|]. by apply worker_enabled.
  - apply bind_Some in Hrun as (s1 & E & Hrun).
    destruct (own_step_rank a s s1 i pc Hs Hpc E) as (pc1 & Hpc1 & Hle).
    destruct (IH s1 pc1) as (pc' & ? & ? & ?); [by eapply step_after_stop|done|done|].
    exists pc'. split_and!; [done|lia|destruct pc; cbn; lia|done].
Qed.

(** After [stop_] is set, whether by [shutdown] or by the destructor, no
    new task gets in: the only tasks that can still be pushed are those of
    [enqueue] calls that had passed their check of [stop_] before. *)
Lemma no_push_after_stop tr s s' :
  stop_ s = true -> run exec tr s = Some s' ->
  stop_ s' = true /\
  Z.of_nat (length (pushed s')) <= Z.of_nat (length (pushed s)) + total pushing (callers s).
Proof.
  intros Hs Hrun.
  set (I s1 := stop_ s1 = true /\ Z.of_nat (length (pushed s1)) + total pushing (callers s1) <=
    Z.of_nat (length (pushed s)) + total pushing (callers s)).
  assert (I s') as [Hs' Hle].
  { eapply (run_invariant exec I); [|split; [exact Hs | lia] | exact Hrun].
    intros s1 a s2 [H1 H2] E. destruct (step_after_stop a s1 s2 H1 E). split; [done|lia]. }
  split; [done|].
  pose proof (total_nonneg pushing (callers s') ltac:(intros []; cbn; lia)). lia.
Qed.

(** ** Leaving threads *)

(** The pool watched while its target stays at least [m]. *)
Definition exec_above (m : Z) (a : pool_act T) s : option (pool Q T) :=
  s' ← exec a s; if m <=? target_thread_count_ s' then Some s' else None.

Definition cas_above (m : Z) (pc : worker_pc T) : Prop :=
  match pc with W_cas old => m < old | _ => True end.

Lemma exec_above_inv m a s s' :
  m <= target_thread_count_ s /\ Forall (cas_above m) (threads_ s) -> exec_above m a s = Some s' ->
  m <= target_thread_count_ s' /\ Forall (cas_above m) (threads_ s').
Proof.
  intros [Ht HF] E. unfold exec_above in E.
  destruct (exec a s) as [s1|] eqn:E1; cbn in E; [|done]. case_match; simplify_eq. bools.
  split; [done|]. clear H1. pool_step E1; cbn in *; try done;
    try (apply Forall_insert; [done|]; cbn; lia || exact I).
  apply Forall_app. split; [done|]. by repeat constructor.
Qed.

Definition fresh_above (m : Z) s : Prop := fresh s /\ m <= target_thread_count_ s.

Lemma reachable_above m s :
  reachable (exec_above m) (fresh_above m) s -> pool_inv s /\ Forall (cas_above m) (threads_ s).
Proof.
  intros Hr.
  enough (pool_inv s /\ m <= target_thread_count_ s /\ Forall (cas_above m) (threads_ s)) by naive_solver.
  revert s Hr. apply reachable_invariant.
  - intros s [Hf Ht]. split_and!; [by apply fresh_inv | done |]. destruct Hf as (n & cap & ->).
    cbn. by apply Forall_replicate.
  - intros s a s' (Hi & Ht & HF) E. split; [|by eapply exec_above_inv].
    unfold exec_above in E. destruct (exec a s) as [s1|] eqn:E1; cbn in E; [|done].
    case_match; simplify_eq. by eapply exec_inv.
Qed.

(** Surplus workers leave one at a time and never too many: as long as
    every target the pool has had is at least [m], the compare-and-swap by
    which a worker leaves keeps at least [m] active workers, even when several
    workers race and the target is changed under them. *)
Lemma leaving_keeps_target m s s' i old :
  0 <= m -> reachable (exec_above m) (fresh_above m) s ->
  threads_ s !! i = Some (W_cas old) ->
  exec (StepWorker i) s = Some s' -> threads_ s' !! i = Some W_end ->
  m <= active_threads_ s' /\ active_threads_ s' = active_threads_ s - 1.
Proof.
  intros Hm Hr Hi E Hend. destruct (reachable_above m s Hr) as [[HA _ _ _] HF].
  pose proof (Forall_lookup_1 _ _ _ _ HF Hi) as Hold. cbn in Hold.
  pose proof (lookup_lt_Some _ _ _ Hi) as Hlt.
  cbn in E. rewrite Hi in E. cbn in E. case_match; simplify_eq; bools; cbn in *.
  - subst old. pose proof (wrap_fits 64 (total counted (threads_ s)) ltac:(lia)) as Hf.
    rewrite <- HA in Hf. rewrite wrap_small by (unfold fits in *; lia). lia.
  - by rewrite list_lookup_insert_eq in Hend by done.
Qed.

(** ** Wake-ups *)

(** Releases so far have added what they should: either the semaphore always
    adds, or it does so within its maximum and no release went past it. *)
Definition counting s : Prop :=
  (forall c n, sem_release c n = c + n) \/
  (forall c n, 0 <= c -> n <= sem_max sem_release - c -> sem_release c n = c + n) /\ sem_ok s = true.

Lemma counting_back a s s' : exec a s = Some s' -> counting s' -> counting s.
Proof.
  intros E [Hall | [Hin Hok]]; [by left|]. right. split; [done|].
  pool_step E; cbn in Hok; by bools.
Qed.

Lemma release_counted n s :
  0 <= task_sem_ s -> counting (release_sem sem_release n s) ->
  sem_release (task_sem_ s) n = task_sem_ s + n.
Proof. intros Hs [Hall | [Hin Hok]]; [done|]. cbn in Hok. bools. by apply Hin. Qed.

Lemma step_permits a s s' :
  counting s' ->
  0 <= task_sem_ s /\
  Z.of_nat (length (contents (queue_ s))) <=
    task_sem_ s + total permit (threads_ s) + total owed (callers s) ->
  exec a s = Some s' ->
  0 <= task_sem_ s' /\
  Z.of_nat (length (contents (queue_ s'))) <=
    task_sem_ s' + total permit (threads_ s') + total owed (callers s').
Proof.
  intros HC [Hs HP] E. pool_step E;
    try pose proof (release_counted 1 s Hs HC) as Hrel;
    try pose proof (release_counted (Z.of_nat (length (threads_ s))) s Hs HC) as Hrel;
    cbn; totals; try rewrite Hrel; queue_facts;
    repeat match goal with Hq : contents _ = _ |- _ => rewrite Hq in *; clear Hq end;
    rewrite ?length_app; cbn [length] in *; try lia.
  all: pose proof (total_nonneg permit (threads_ s) ltac:(intros []; cbn; lia)).
  all: pose proof (total_nonneg owed (callers s) ltac:(intros []; cbn; lia)).
  all: try (pose proof (total_lookup_le permit _ _ _ ltac:(intros []; cbn; lia) Hpc); cbn in *).
  all: try lia. destruct op; cbn; lia.
Qed.

Lemma reachable_permits s :
  reachable exec fresh s -> counting s ->
  0 <= task_sem_ s /\ Z.of_nat (length (contents (queue_ s))) <=
    task_sem_ s + total permit (threads_ s) + total owed (callers s).
Proof.
  revert s.
  apply (reachable_invariant exec fresh (fun s => counting s -> 0 <= task_sem_ s /\
    Z.of_nat (length (contents (queue_ s))) <=
      task_sem_ s + total permit (threads_ s) + total owed (callers s))).
  - intros s (n & cap & ->) _. cbn. rewrite contents_new, total_replicate0 by done. cbn. lia.
  - intros s a s' IH E HC. eapply step_permits; [done| |done]. by eapply IH, counting_back.
Qed.

(** A worker about to pop takes the front of the queue and runs it. *)
Lemma pop_runs s j t ts :
  contents (queue_ s) = t :: ts -> threads_ s !! j = Some W_pop ->
  exists s', run exec [StepWorker j; StepWorker j] s = Some s' /\
    popped s' = popped s ++ [t] /\ executed s' = executed s ++ [t].
Proof.
  intros Hq Hj. destruct (q_pop (queue_ s)) as [[t' q]|] eqn:Ep.
  - pose proof (contents_pop _ _ _ Ep) as Hc. rewrite Hq in Hc. simplify_eq.
    eexists. split; [|split; [|]].
    + cbn [run exec]. rewrite Hj. cbn [mbind option_bind touches worker]. rewrite Ep. cbn [mbind option_bind].
      cbn [set_worker did_pop threads_]. rewrite list_lookup_insert_eq by (by eapply lookup_lt_Some). cbn. reflexivity.
    + done.
    + done.
  - apply contents_pop_None in Ep. congruence.
Qed.

(** A waiting worker that finds a permit goes on to do so. *)
Lemma permit_runs s i t ts :
  contents (queue_ s) = t :: ts -> threads_ s !! i = Some W_wait -> 0 < task_sem_ s ->
  exists s', run exec [StepWorker i; StepWorker i; StepWorker i] s = Some s' /\
    popped s' = popped s ++ [t] /\ executed s' = executed s ++ [t].
Proof.
  intros Hq Hi Hs. set (s1 := set_worker i W_pop (acquire_sem (touch s))).
  assert (exec (StepWorker i) s = Some s1) as E1.
  { cbn [exec]. rewrite Hi. cbn. by rewrite (proj2 (Z.ltb_lt 0 _) Hs). }
  destruct (pop_runs s1 i t ts) as (s' & E & HP & HX); [done| |].
  - cbn. apply list_lookup_insert_eq. by eapply lookup_lt_Some.
  - exists s'. split; [|done]. cbn [run]. rewrite E1. exact E.
Qed.

(** An [enqueue] that has pushed goes on to its release. *)
Lemma owed_releases s k pc :
  callers s !! k = Some pc -> 0 < owed pc -> counting s -> task_sem_ s = 0 ->
  exists tr s', (length tr <= 2)%nat /\ (forall a, a ∈ tr -> a = StepCaller k) /\ run exec tr s = Some s' /\
    task_sem_ s' = 1 /\ queue_ s' = queue_ s /\ threads_ s' = threads_ s /\ sem_ok s' = sem_ok s /\
    popped s' = popped s /\ executed s' = executed s.
Proof.
  intros Hk Ho HC Hz.
  assert (sem_release 0 1 = 1) as HR.
  { destruct HC as [->|[HC _]]; [done|]. apply HC; [done|]. pose proof (sem_max_pos sem_release). lia. }
  assert (1 <=? sem_max sem_release - 0 = true) as HM.
  { apply Z.leb_le. pose proof (sem_max_pos sem_release). lia. }
  destruct pc; cbn in Ho; try lia.
  - exists [StepCaller k; StepCaller k].
    eexists. split_and!; [done|set_solver| |..].
    + cbn [run exec]. rewrite Hk. cbn [mbind option_bind caller]. cbn [set_caller set_leftover callers].
      rewrite list_lookup_insert_eq by (by eapply lookup_lt_Some). cbn. reflexivity.
    + cbn. by rewrite Hz.
    + done.
    + done.
    + cbn. by rewrite Hz, HM, andb_true_r.
    + done.
    + done.
  - exists [StepCaller k]. eexists. split_and!; [cbn; lia|set_solver| |..].
    + cbn [run exec]. rewrite Hk. cbn. reflexivity.
    + cbn. by rewrite Hz.
    + done.
    + done.
    + cbn. by rewrite Hz, HM, andb_true_r.
    + done.
    + done.
Qed.

(** [C2] No wake-up is lost.  As long as no release went past the maximum of the
    semaphore, and for a semaphore without a maximum always: whenever tasks are
    queued and some worker waits, the task at the front is popped and run after
    at most five steps of threads that are already at work, a worker about to
    pop, a waiting worker that finds a permit, or an [enqueue] between its push
    and its release; no new call and no timeout is needed. *)
Theorem no_lost_wakeup s i t ts :
  counting s -> reachable exec fresh s ->
  contents (queue_ s) = t :: ts -> threads_ s !! i = Some W_wait ->
  exists tr s', (length tr <= 5)%nat /\
    (forall a, a ∈ tr -> match a with StepWorker _ | StepCaller _ => True | _ => False end) /\
    run exec tr s = Some s' /\ popped s' = popped s ++ [t] /\ executed s' = executed s ++ [t].
Proof.
  intros HC Hr Hq Hi. destruct (reachable_permits s Hr HC) as [Hz HP]. rewrite Hq in HP. cbn [length] in HP.
  assert (forall (l : list (pool_act T)) j, (forall a, a ∈ l -> a = StepWorker j) ->
    forall a, a ∈ l -> match a with StepWorker _ | StepCaller _ => True | _ => False end) as Hw.
  { intros l j Hl a Ha. by rewrite (Hl _ Ha). }
  destruct (Z.lt_ge_cases 0 (total permit (threads_ s))) as [(j & pc & Hj & Hpc)%total_pos|Hp].
  - destruct pc; cbn in Hpc; try lia. destruct (pop_runs s j t ts Hq Hj) as (s' & E & HX).
    exists [StepWorker j; StepWorker j], s'. split_and!; try apply HX; [cbn; lia|apply (Hw _ j); set_solver|done].
  - destruct (decide (0 < task_sem_ s)) as [Hs|Hs].
    + destruct (permit_runs s i t ts Hq Hi Hs) as (s' & E & HX).
      exists [StepWorker i; StepWorker i; StepWorker i], s'.
      split_and!; try apply HX; [cbn; lia|apply (Hw _ i); set_solver|done].
    + destruct (total_pos owed (callers s)) as (k & pc & Hk & Hpc); [lia|].
      destruct (owed_releases s k pc Hk Hpc HC) as (tr & s1 & Hl & Htr & E1 & HS & HQ & HT & _ & HPo & HEx); [lia|].
      destruct (permit_runs s1 i t ts) as (s' & E & HX & HY); [by rewrite HQ|by rewrite HT|lia|].
      exists (tr ++ [StepWorker i; StepWorker i; StepWorker i]), s'. split_and!.
      * rewrite length_app. cbn. lia.
      * intros a [Ha%Htr|Ha]%elem_of_app; [by subst|]. apply (Hw [StepWorker i; StepWorker i; StepWorker i] i); set_solver.
      * by rewrite run_app, E1.
      * by rewrite HX, HPo.
      * by rewrite HY, HEx.
Qed.

(** ** A single worker *)

(** Calls that neither add threads nor destroy the pool. *)
Definition exec_single (a : pool_act T) s : option (pool Q T) :=
  match a with
  | Call (OpAddThreads _) | Call OpDestroy => None
  | _ => exec a s
  end.

Definition keeps_threads (pc : caller_pc T) : Prop :=
  match pc with
  | C_add _ | C_spawn _ | C_dtor | C_dtor_wake | C_dtor_drain | C_dtor_sub | C_dtor_join => False
  | _ => True
  end.

Record single_inv s : Prop := {
  single_worker : exists pc, threads_ s = [pc] /\ popped s = executed s ++ running pc;
  single_callers : Forall keeps_threads (callers s);
}.

Lemma exec_single_inv a s s' : single_inv s -> exec_single a s = Some s' -> single_inv s'.
Proof.
  intros [(pc0 & Hth & HP) HC] E.
  assert (exec a s = Some s') as E1 by (destruct a as [[]| | |]; done).
  assert (forall j pc, callers s !! j = Some pc -> keeps_threads pc) as HC'.
  { intros j pc Hj. by eapply Forall_lookup_1 in HC. }
  destruct a as [op|i|i|i]; cbn [exec_single ThreadPool.exec] in E1.
  - injection E1 as <-. split; cbn; [by exists pc0|]. apply Forall_app. split; [done|].
    repeat constructor. by destruct op.
  - rewrite Hth in E1. destruct i as [|i]; [|done]. cbn in E1.
    destruct pc0; cbn in E1; repeat (case_match; simplify_eq); simplify_eq;
      (split; cbn; [rewrite Hth; eexists; split; [reflexivity|]; cbn; rewrite HP; cbn;
                    by rewrite ?app_nil_r | done]).
  - rewrite Hth in E1. destruct i as [|i]; [|done]. cbn in E1. destruct pc0; try done.
    simplify_eq. split; cbn; [rewrite Hth; by eexists | done].
  - destruct (callers s !! i) as [pc|] eqn:Hpc; cbn in E1; [|done].
    pose proof (HC' _ _ Hpc). destruct pc; try done; cbn in E1;
      repeat (case_match; simplify_eq); simplify_eq;
      (split; cbn; [by exists pc0 | by apply Forall_insert]).
Qed.

(** A pool with one worker runs its tasks strictly in the order in which
    they were accepted: what has run is always an initial segment of what was
    pushed. *)
Lemma single_worker_order cap s :
  reachable exec_single (fun s0 => s0 = ThreadPool 1 cap) s ->
  executed s `prefix_of` pushed s.
Proof.
  intros Hr. assert (single_inv s /\ pool_inv s) as [[(pc & _ & HP) _] [_ _ HF _]].
  { revert s Hr. apply reachable_invariant.
    - intros s ->. split; [|apply fresh_inv; by exists 1%nat, cap].
      split; cbn; [by exists W_start | constructor].
    - intros s a s' [HS HI] E. split; [by eapply exec_single_inv|].
      eapply (exec_inv a); [done|]. by destruct a as [[]| | |]. }
  rewrite HF, HP, <- app_assoc. by apply prefix_app_r.
Qed.
End invariants.

(** ** A concrete queue, traces and witnesses *)

(** A bounded queue: [push] fails when the queue is full. *)
Module BoundedQueue.

Record bq (T : Type) := mkBq { cap : Z; elems : list T }.
Arguments mkBq {T}.
Arguments cap {T} b.
Arguments elems {T} b.

#[export] Instance bq_queue {T} : LockFreeQueue (bq T) T := {|
  q_new n := mkBq n [];
  q_push q t :=
    if Z.of_nat (length (elems q)) <? cap q then Some (mkBq (cap q) (elems q ++ [t])) else None;
  q_pop q := match elems q with [] => None | t :: l => Some (t, mkBq (cap q) l) end;
  q_empty q := match elems q with [] => true | _ => false end;
|}.

#[export] Instance bq_laws {T} : LockFreeQueueLaws (bq T) T.
Proof.
  refine {| contents := elems |}.
  - done.
  - intros q q' t. cbn. case_match; intros; by simplify_eq.
  - intros q q' t. cbn. case_match; intros; by simplify_eq.
  - intros q. cbn. by case_match.
  - intros q. cbn. by case_match.
Defined.

End BoundedQueue.

(** ** The semaphore and the destructor *)

Section semaphore.
Context {Q T : Type} `{LockFreeQueue Q T}.
Context (sem_release : semaphore).

(** The destructor of a pool with more threads than the semaphore can hold permits
    always calls [release] outside its precondition: it asks for one permit per
    thread, and a [binary_semaphore] need not hold more than one. *)
Lemma destructor_overruns_semaphore (s s' : pool Q T) i :
  0 <= task_sem_ s -> sem_max sem_release < Z.of_nat (length (threads_ s)) ->
  callers s !! i = Some C_dtor_wake -> exec sem_release (StepCaller i) s = Some s' ->
  sem_ok s' = false.
Proof.
  intros Hs Hn Hi E. cbn in E. rewrite Hi in E. cbn in E. simplify_eq. cbn.
  rewrite (proj2 (Z.leb_gt _ _)) by lia. apply andb_false_r.
Qed.
End semaphore.

Module PoolTraces.
Import BoundedQueue.

(** Releasing never takes the counter past its maximum. *)
Definition saturating : semaphore := mkSem (fun c n => Z.min 1 (c + n)) 1 (Z.le_refl 1).

(** The four steps of an [enqueue] that succeeds, as caller [i]. *)
Definition enqueue_steps (i : nat) (t : nat) : list (pool_act nat) :=
  [Call (OpEnqueue t); StepCaller i; StepCaller i; StepCaller i; StepCaller i].

(** A worker takes a permit, runs one task and goes back to waiting. *)
Definition serve (i : nat) : list (pool_act nat) := replicate 7 (StepWorker i).

Definition two_tasks_one_permit : list (pool_act nat) :=
  enqueue_steps 0 1 ++ enqueue_steps 1 2 ++ replicate 2 (StepWorker 0) ++ serve 0.

Definition stuck_pool : pool (bq nat) nat :=
  mkPool (mkBq 8 [2%nat]) [W_wait] false 1 1 0 1 [C_return; C_return] [1%nat; 2%nat] [1%nat] [1%nat] []
    false false false.

Lemma stuck_pool_run : run (exec saturating) two_tasks_one_permit (ThreadPool 1 8) = Some stuck_pool.
Proof. vm_compute. reflexivity. Qed.

(** The states the stuck pool can move to while nobody calls it. *)
Definition idling (s : pool (bq nat) nat) : Prop :=
  task_sem_ s = 0 /\ stop_ s = false /\ active_threads_ s = 1 /\ target_thread_count_ s = 1 /\
  executed s = [1%nat] /\ callers s = [C_return; C_return] /\
  exists pc, threads_ s = [pc] /\ (pc = W_wait \/ pc = W_check \/ pc = W_check_target 1 \/ pc = W_loop).

Lemma idling_step a s s' :
  idling s -> (forall op, a <> Call op) -> exec saturating a s = Some s' -> idling s'.
Proof.
  intros (Hs & Hst & Ha & Ht & He & Hc & pc & Hw & Hpc) Hop E.
  destruct a as [op|[|i]|[|i]|[|[|i]]]; cbn in E; rewrite ?Hw, ?Hc in E; cbn in E; try done;
    [by destruct (Hop op)|..]; destruct Hpc as [->|[->|[->| ->]]]; cbn in E;
    rewrite ?Hs, ?Hst, ?Ha, ?Ht in E; cbn in E; simplify_eq;
    (unfold idling; cbn; rewrite Hw; split_and!; try done; eexists; split; [reflexivity|]; tauto).
Qed.

(** If the semaphore cannot go past its maximum, a wake-up can be lost for
      good: two tasks are enqueued before the worker takes its permit, one permit
      is left for the two of them, and the second task stays in the queue for
      ever, with the worker idle, until somebody calls the pool again. *)
Lemma saturating_semaphore_strands_task :
  exists s, reachable (exec saturating) fresh s /\ contents (queue_ s) = [2%nat] /\
    forall tr s', (forall op, Call op ∉ tr) -> run (exec saturating) tr s = Some s' ->
      executed s' = executed s.
Proof.
  exists stuck_pool. split_and!.
  - eapply run_reachable; [|exact stuck_pool_run]. apply reach_init. by exists 1%nat, 8.
  - reflexivity.
  - enough (forall tr s s', idling s -> (forall op, Call op ∉ tr) -> run (exec saturating) tr s = Some s' ->
      executed s' = executed s) as Hgo.
    { intros tr s'. apply Hgo. unfold idling. cbn. split_and!; try done. exists W_wait. tauto. }
    intros tr. induction tr as [|a tr IH]; intros s s' Hi Hop Hrun; cbn in Hrun; [by simplify_eq|].
    destruct (exec saturating a s) as [s1|] eqn:E; cbn in Hrun; [|done].
    assert (idling s1) as Hi1.
    { eapply idling_step; [exact Hi| |exact E]. intros op ->. apply (Hop op). apply elem_of_cons. by left. }
    rewrite (IH s1 s' Hi1); [|intros op ?; apply (Hop op), elem_of_cons; by right | done].
    destruct Hi as (_ & _ & _ & _ & -> & _), Hi1 as (_ & _ & _ & _ & -> & _). done.
Qed.

(** An idle pool is destroyed while its worker waits for a task. *)
Definition destroy_idle : list (pool_act nat) :=
  replicate 2 (StepWorker 0) ++ [Call OpDestroy; StepCaller 0; StepCaller 0; StepCaller 0; Timeout 0].

(** Destroying an idle pool makes a worker use destroyed members:
      [task_sem_] and the counters are declared after [threads_], so they are
      destroyed before the threads are joined, while the worker still waits on
      the semaphore. *)
Lemma destructor_use_after_destroy :
  exists s, reachable (exec adding_sem) fresh s /\ threads_ s <> [] /\ use_after_destroy (Q:=bq nat) s = true.
Proof.
  destruct (run (exec adding_sem) destroy_idle (ThreadPool (Q:=bq nat) 1 8)) as [s|] eqn:E;
    [|vm_compute in E; discriminate].
  exists s. split.
  - eapply run_reachable; [|exact E]. apply reach_init. by exists 1%nat, 8.
  - vm_compute in E. injection E as <-. done.
Qed.

(** ** Witnesses *)

(** Two workers, three tasks: one has run, one is running, one is queued. *)
Definition busy_trace : list (pool_act nat) :=
  enqueue_steps 0 10 ++ enqueue_steps 1 11 ++ enqueue_steps 2 12 ++
  replicate 2 (StepWorker 0) ++ serve 0 ++ replicate 4 (StepWorker 1).

Definition busy_pool : pool (bq nat) nat :=
  mkPool (mkBq 8 [12%nat]) [W_wait; W_run 11%nat] false 2 2 1 2
    [C_return; C_return; C_return] [10%nat; 11%nat; 12%nat] [10%nat; 11%nat] [10%nat] [] false false false.

Lemma busy_run : run (exec adding_sem) busy_trace (ThreadPool 2 8) = Some busy_pool.
Proof. vm_compute. reflexivity. Qed.

Lemma fresh_ThreadPool n cap : fresh (ThreadPool (Q:=bq nat) (T:=nat) n cap).
Proof. by exists n, cap. Qed.

Lemma busy_reachable : reachable (exec adding_sem) fresh busy_pool.
Proof. eapply run_reachable; [apply reach_init, (fresh_ThreadPool 2 8) | exact busy_run]. Qed.

Lemma pool_fifo_conservation_witness :
  pushed busy_pool = popped busy_pool ++ contents (queue_ busy_pool) /\
  pushed busy_pool ≡ₚ executed busy_pool ++ gather running (threads_ busy_pool) ++
                      dropped busy_pool ++ contents (queue_ busy_pool).
Proof. exact (pool_fifo_conservation adding_sem busy_pool busy_reachable). Defined.

Lemma thread_count_exact_witness : get_thread_count busy_pool = total counted (threads_ busy_pool).
Proof. apply (thread_count_exact adding_sem busy_pool busy_reachable). cbn. lia. Defined.

Lemma busy_live : reachable (exec_live adding_sem) fresh busy_pool.
Proof.
  eapply (run_reachable _ _ busy_trace (ThreadPool 2 8));
    [apply reach_init, (fresh_ThreadPool 2 8) | vm_compute; reflexivity].
Qed.

Lemma tasks_left_no_underflow_witness :
  0 <= outstanding busy_pool /\ get_tasks_left busy_pool = outstanding busy_pool.
Proof. apply (tasks_left_no_underflow adding_sem busy_pool); [cbn; lia | exact busy_live | vm_compute; done]. Defined.

Definition stopped_pool : pool (bq nat) nat := set_stop busy_pool.

Lemma workers_stop_witness :
  exists s' pc', run (exec adding_sem) (replicate 3 (StepWorker 1) ++ [Timeout 0; StepWorker 1]) stopped_pool = Some s' /\
    threads_ s' !! 1%nat = Some pc' /\ (4 + rank pc' <= 11 <= 13)%nat.
Proof.
  destruct (run (exec adding_sem) (replicate 3 (StepWorker 1) ++ [Timeout 0; StepWorker 1]) stopped_pool)
    as [s'|] eqn:E; [|vm_compute in E; discriminate].
  destruct (workers_stop adding_sem _ stopped_pool s' 1 (W_run 11%nat) eq_refl eq_refl E) as (pc' & H1 & H2 & _).
  exists s', pc'. exact (conj eq_refl (conj H1 H2)).
Defined.

Lemma no_push_after_stop_witness :
  exists s', run (exec adding_sem) (enqueue_steps 3 13 ++ [StepCaller 3]) stopped_pool = None /\
  run (exec adding_sem) [Call (OpEnqueue 13%nat); StepCaller 3] stopped_pool = Some s' /\
  stop_ s' = true /\
  Z.of_nat (length (pushed s')) <= Z.of_nat (length (pushed stopped_pool)) + total pushing (callers stopped_pool).
Proof.
  destruct (run (exec adding_sem) [Call (OpEnqueue 13%nat); StepCaller 3] stopped_pool) as [s'|] eqn:E;
    [|vm_compute in E; discriminate].
  exists s'. split; [reflexivity|]. split; [reflexivity|].
  apply (no_push_after_stop adding_sem [Call (OpEnqueue 13%nat); StepCaller 3]); [reflexivity | exact E].
Defined.

(** Two workers, the target lowered to one: worker 0 is about to leave. *)
Definition shrink_trace : list (pool_act nat) :=
  replicate 2 (StepWorker 0) ++ replicate 2 (StepWorker 1) ++
  [Call (OpRemoveThreads 1); StepCaller 0; StepCaller 0; Timeout 0] ++ replicate 4 (StepWorker 0).

Definition shrink_pool : pool (bq nat) nat :=
  mkPool (mkBq 8 []) [W_cas 2; W_wait] false 2 1 0 0 [C_return] [] [] [] [] true false false.

Lemma leaving_keeps_target_witness :
  exists s', exec adding_sem (StepWorker 0) shrink_pool = Some s' /\
    1 <= active_threads_ s' /\ active_threads_ s' = active_threads_ shrink_pool - 1.
Proof.
  eexists; split; [reflexivity|].
  apply (leaving_keeps_target adding_sem 1 shrink_pool _ 0 2); try done.
  apply (run_reachable _ _ shrink_trace (ThreadPool 2 8)); [|vm_compute; reflexivity].
  apply reach_init. split; [exact (fresh_ThreadPool 2 8) | cbn; lia].
Defined.

(** One task queued, its permit given, the worker waiting: no release has gone
    past the maximum, so every conforming semaphore behaves the same. *)
Definition notified_trace : list (pool_act nat) := replicate 2 (StepWorker 0) ++ enqueue_steps 0 10.
Definition notified_pool : pool (bq nat) nat :=
  mkPool (mkBq 8 [10%nat]) [W_wait] false 1 1 1 1 [C_return] [10%nat] [] [] [] true false false.

Lemma no_lost_wakeup_witness :
  exists tr s', (length tr <= 5)%nat /\
    (forall a, a ∈ tr -> match a with StepWorker _ | StepCaller _ => True | _ => False end) /\
    run (exec saturating) tr notified_pool = Some s' /\ popped s' = [10%nat] /\ executed s' = [10%nat].
Proof.
  apply (no_lost_wakeup saturating notified_pool 0 10%nat []); try done.
  - right. split; [|reflexivity]. cbn. intros. lia.
  - apply (run_reachable _ _ notified_trace (ThreadPool 1 8)); [|vm_compute; reflexivity].
    exact (reach_init _ _ _ (fresh_ThreadPool 1 8)).
Defined.

Definition in_order_trace : list (pool_act nat) :=
  enqueue_steps 0 1 ++ enqueue_steps 1 2 ++ replicate 2 (StepWorker 0) ++ serve 0.

Lemma single_worker_order_witness :
  exists s, run (exec_single adding_sem) in_order_trace (ThreadPool (Q:=bq nat) 1 8) = Some s /\
    executed s = [1%nat] /\ executed s `prefix_of` pushed s.
Proof.
  destruct (run (exec_single adding_sem) in_order_trace (ThreadPool (Q:=bq nat) 1 8)) as [s|] eqn:E;
    [|vm_compute in E; discriminate].
  exists s. split; [reflexivity|]. split; [by vm_compute in E; injection E as <-|].
  apply (single_worker_order adding_sem 8). by eapply run_reachable; [apply reach_init|].
Defined.

Definition dying_pool : pool (bq nat) nat := set_callers [C_dtor_wake] (ThreadPool 4 1024).

Lemma destructor_overruns_semaphore_witness :
  exists s', exec adding_sem (StepCaller 0) dying_pool = Some s' /\ sem_ok s' = false.
Proof.
  eexists; split; [reflexivity|].
  apply (destructor_overruns_semaphore adding_sem dying_pool _ 0); try reflexivity; cbn; lia.
Defined.

(** [remove_threads] loads the target and stores the new one in two steps: two
    threads added in between are forgotten, though they are created. *)
Definition racing_resize : list (pool_act nat) :=
  [Call (OpRemoveThreads 1); StepCaller 0; Call (OpAddThreads 2); StepCaller 1; StepCaller 0] ++
  replicate 3 (StepCaller 1).

Lemma remove_threads_loses_addition :
  exists s, run (exec adding_sem) racing_resize (ThreadPool (Q:=bq nat) 4 8) = Some s /\
    target_thread_count_ s = 3 /\ length (threads_ s) = 6%nat /\ callers s = [C_return; C_return].
Proof. eexists. split; [vm_compute; reflexivity|]. by split_and!. Qed.

End PoolTraces.
