(* ===== verification/TaskExecutor.v ===== *)
(** * The task executor (src/src/worker/task-executor)

    [TaskExecutor] runs registered functions on the thread pool, with a timer
    per execution and delayed retries.  Three kinds of threads touch the same
    tasks: pool threads inside [run_task], the thread that runs the asio
    [io_context] and calls the timer handlers, and the owner of the task, who
    can set its cancellation flag.  The model is a transition system in which
    each access to a shared object is a step: the task record, the flag, the
    atomic [retrying_cnt] and the timers.  A program counter says where an
    activation of [run_task] stands.  [update_task_state] writes four fields of the
    task without synchronisation; it is one step here, so torn records are not
    states of the model.  The destructor is the one of the pool.

    Outside [src/]: the registered functions are parameters ([TaskFunction]), and may
    write their task while they run ([FnReport]);
    the asio timers follow their documentation (a handler runs once, with an
    error code if the wait was cancelled before it expired).  Of the thread pool
    only this is used here: it starts every closure handed to it at most once, on
    one of its threads, in any order (several threads may be inside [enqueue] at
    once); ExecutorPool.v runs the executor on the pool of ThreadPool.v and
    proves it. *)

From S2P Require Import Prelude Json Task Convert.
#[local] Open Scope string_scope.
#[local] Open Scope Z_scope.

(** ** Error codes and exceptions *)

Inductive error_code :=
| no_error
| connection_refused
| host_unreachable
| operation_aborted
| other_code (n : Z).

#[export] Instance error_code_eq_dec : EqDecision error_code.
Proof. solve_decision. Defined.

(** What a task function can throw; the last one does not derive from
    [std::exception]. *)
Inductive task_exn :=
| std_exception (what : string)
| system_error (code : error_code) (what : string)
| not_std_exception.

Definition is_retryable_error (ec : error_code) : bool :=
  bool_decide (ec = connection_refused) || bool_decide (ec = host_unreachable)
  || bool_decide (ec = operation_aborted).

(** ** Arithmetic of [run_task] *)

(** [task->timeout_ms - (now_ms - task->submit_ts)]: the subtraction is done in
    [uint64_t] and the result converted to [std::int64_t]. *)
Definition remaining_timeout (timeout now_ms submit : Z) : Z :=
  i64 (timeout -u64 (now_ms -u64 u64 submit))%cpp.

(** [std::chrono::seconds(1 << std::min(task->retry_count, 4u))], in ms. *)
Definition retry_delay_ms (retry_count : Z) : Z := Z.shiftl 1 (Z.min retry_count 4) * 1000.

Definition MAX_CONCURRENT_RETRY : Z := 10.

(** [check_resources] *)
Definition check_resources (required available : Resource) : bool :=
  SFleb (cpu_core required) (cpu_core available) && (mem_mb required <=? mem_mb available).

(** ** The built-in function "fib" *)

Section fib.
Context {J : Type} `{JsonLib J}.
Context (json_what : json_exn -> string).

(** Loads of the cancellation flag by a running function: the flag is set once
    and never cleared, so it is described by the first load that sees it. *)
Definition cancel_seen (cancel_at : option nat) (k : nat) : bool :=
  match cancel_at with Some m => (m <=? k)%nat | None => false end.

(** The loop; [n] iterations are left, [k] loads have been made.  The sum is an
    [int]: overflow is undefined. *)
Fixpoint fib_loop (cancel_at : option nat) (n k : nat) (a b : Z) : outcome task_exn (option Z) :=
  match n with
  | O => Ret (Some b)
  | S n =>
      if cancel_seen cancel_at k then Ret None
      else
        let c := a + b in
        if bool_decide (- 2 ^ 31 <= c < 2 ^ 31) then fib_loop cancel_at n (S k) b c
        else Undef "signed overflow"
  end.

Definition lift_json {A} (m : outcome json_exn A) : outcome task_exn A :=
  match m with
  | Ret a => Ret a
  | Throw e => Throw (std_exception (json_what e))
  | Undef w => Undef w
  end.

Definition fib (params : J) (cancel_at : option nat) (world : nat) : outcome task_exn J :=
  n ← lift_json (json_value_int params "n" 0);
  if n <? 0 then Throw (std_exception "Negative input for fib")
  else if n <=? 1 then Ret (json_of_members [("result", json_of_int n)])
  else
    r ← fib_loop cancel_at (Z.to_nat (n - 1)) 0 0 1;
    match r with
    | None => Ret (json_of_members [("result", json_of_string "cancelled")])
    | Some b => Ret (json_of_members [("result", json_of_int b)])
    end.
End fib.

(** ** State *)

Section executor.
Context {J : Type} `{JsonLib J}.

(** A registered function, by what it returns: the parameters, the cancellation it
    observes, and whatever else of the outside world its result depends on.  The
    function also gets the task itself; what it writes there while it runs is the step
    [FnReport] below.  It leaves alone the members the task was submitted with (id,
    function, parameters, limits, flag) and its retry counter. *)
Definition TaskFunction : Type := J -> option nat -> nat -> outcome task_exn J.

Inductive timer_status :=
| Waiting            (* async_wait pending *)
| Expired            (* handler queued without an error *)
| Aborted            (* handler queued with operation_aborted *)
| Firing             (* exec handler between its two statements *)
| Handled.           (* handler has run *)

Inductive timer_kind :=
| ExecTimer (task : nat)
| RetryTimer (task : nat).

Record timer := mkTimer { t_kind : timer_kind; t_expiry : Z; t_status : timer_status }.

(** An activation of [run_task] for the task with this index; [tm] is its
    execution timer. *)
Inductive run_pc :=
| R_begin (i : nat)                              (* 44 *)
| R_setup (i : nat) (tm : nat) (now_ms : Z)      (* 71 *)
| R_call (i : nat) (tm : nat) (seen : bool)      (* 81: the function is running *)
| R_success (i : nat) (tm : nat) (result : J)    (* 84 *)
| R_catch (i : nat) (tm : nat) (e : task_exn)    (* 86 *)
| R_quota (i : nat)                              (* 97: fetch_add *)
| R_rollback (i : nat)                           (* 98: fetch_sub *)
| R_full (i : nat)                               (* 99 *)
| R_arm (i : nat)                                (* 104 *)
| R_cancel (tm : nat)                            (* 85, 116 *)
| R_done.

Record executor := mkExecutor {
  tasks : list (Task J);
  flags : gmap loc bool;
  functions_ : gmap string TaskFunction;
  available_resources_ : Resource;
  retrying_cnt : Z;
  pool_threads : Z;            (* thread_pool_: hardware_concurrency() workers *)
  queued : list nat;           (* closures handed to thread_pool_ and not started *)
  runs : list run_pc;
  timers : list timer;
  now : Z;                     (* steady clock, ms *)
  calls : list nat;            (* history: tasks whose function was called *)
  crashed : bool;              (* an exception left a pool thread *)
}.

Definition set_tasks ts (s : executor) : executor :=
  mkExecutor ts (flags s) (functions_ s) (available_resources_ s) (retrying_cnt s)
    (pool_threads s) (queued s) (runs s) (timers s) (now s) (calls s) (crashed s).
Definition set_flags fs (s : executor) : executor :=
  mkExecutor (tasks s) fs (functions_ s) (available_resources_ s) (retrying_cnt s)
    (pool_threads s) (queued s) (runs s) (timers s) (now s) (calls s) (crashed s).
Definition set_functions fs (s : executor) : executor :=
  mkExecutor (tasks s) (flags s) fs (available_resources_ s) (retrying_cnt s)
    (pool_threads s) (queued s) (runs s) (timers s) (now s) (calls s) (crashed s).
Definition set_retrying z (s : executor) : executor :=
  mkExecutor (tasks s) (flags s) (functions_ s) (available_resources_ s) z (pool_threads s)
    (queued s) (runs s) (timers s) (now s) (calls s) (crashed s).
Definition set_queued q (s : executor) : executor :=
  mkExecutor (tasks s) (flags s) (functions_ s) (available_resources_ s) (retrying_cnt s)
    (pool_threads s) q (runs s) (timers s) (now s) (calls s) (crashed s).
Definition set_runs rs (s : executor) : executor :=
  mkExecutor (tasks s) (flags s) (functions_ s) (available_resources_ s) (retrying_cnt s)
    (pool_threads s) (queued s) rs (timers s) (now s) (calls s) (crashed s).
Definition set_timers tms (s : executor) : executor :=
  mkExecutor (tasks s) (flags s) (functions_ s) (available_resources_ s) (retrying_cnt s)
    (pool_threads s) (queued s) (runs s) tms (now s) (calls s) (crashed s).
Definition set_now z (s : executor) : executor :=
  mkExecutor (tasks s) (flags s) (functions_ s) (available_resources_ s) (retrying_cnt s)
    (pool_threads s) (queued s) (runs s) (timers s) z (calls s) (crashed s).
Definition log_call i (s : executor) : executor :=
  mkExecutor (tasks s) (flags s) (functions_ s) (available_resources_ s) (retrying_cnt s)
    (pool_threads s) (queued s) (runs s) (timers s) (now s) (calls s ++ [i]) (crashed s).
Definition set_crashed (s : executor) : executor :=
  mkExecutor (tasks s) (flags s) (functions_ s) (available_resources_ s) (retrying_cnt s)
    (pool_threads s) (queued s) (runs s) (timers s) (now s) (calls s) true.

Definition set_run (k : nat) (pc : run_pc) (s : executor) : executor :=
  set_runs (<[k := pc]> (runs s)) s.
Definition set_timer (m : nat) (st : timer_status) (s : executor) : executor :=
  set_timers (alter (fun t => mkTimer (t_kind t) (t_expiry t) st) m (timers s)) s.

(** ** Operations *)

(** [update_task_state] *)
Definition update_task (state : TaskState) (result : J) (error_msg : string) (now_ms : Z)
    (t : Task J) : Task J :=
  mkTask (task_id t) (client_id t) (priority t) state (cancelled t) (func_name t)
    (func_params t) (required t) (shard t) (timeout_ms t) (max_retry t) (retry_count t)
    (submit_ts t) (start_ts t) (i64 now_ms) result error_msg.

Definition update_task_state (i : nat) (state : TaskState) (result : J) (error_msg : string)
    (s : executor) : executor :=
  set_tasks (alter (update_task state result error_msg (u64 (now s))) i (tasks s)) s.

Definition with_start_ts (z : Z) (t : Task J) : Task J :=
  mkTask (task_id t) (client_id t) (priority t) (state t) (cancelled t) (func_name t)
    (func_params t) (required t) (shard t) (timeout_ms t) (max_retry t) (retry_count t)
    (submit_ts t) z (finish_ts t) (result t) (error_msg t).
Definition with_retry_count (z : Z) (t : Task J) : Task J :=
  mkTask (task_id t) (client_id t) (priority t) (state t) (cancelled t) (func_name t)
    (func_params t) (required t) (shard t) (timeout_ms t) (max_retry t) z
    (submit_ts t) (start_ts t) (finish_ts t) (result t) (error_msg t).

(** What a running function stores in its task, each value converted to the type of its
    member. *)
Record report := mkReport {
  rp_state : Z; rp_result : J; rp_error_msg : string; rp_start_ts : Z; rp_finish_ts : Z;
}.
Definition report_task (o : report) (t : Task J) : Task J :=
  mkTask (task_id t) (client_id t) (priority t) (TaskState_cast (rp_state o)) (cancelled t) (func_name t)
    (func_params t) (required t) (shard t) (timeout_ms t) (max_retry t) (retry_count t)
    (submit_ts t) (i64 (rp_start_ts o)) (i64 (rp_finish_ts o)) (rp_result o) (rp_error_msg o).

Definition register_function (func_name : string) (func : TaskFunction) (s : executor) : executor :=
  set_functions (<[func_name := func]> (functions_ s)) s.

(** [execute_task]: the closure goes to the thread pool. *)
Definition execute_task (i : nat) (s : executor) : executor := set_queued (queued s ++ [i]) s.

Definition flag_of (t : Task J) (s : executor) : bool :=
  match cancelled t with Some l => default false (flags s !! l) | None => false end.

(** An activation occupies a pool thread until it returns. *)
Definition busy (pc : run_pc) : Z := match pc with R_done => 0 | _ => 1 end.

(** [e.what()] *)
Definition what (e : task_exn) : string :=
  match e with std_exception w | system_error _ w => w | not_std_exception => "" end.
Definition code_of (e : task_exn) : error_code :=
  match e with system_error c _ => c | _ => no_error end.

(** Lines 43 to 67: resources, remaining time, execution timer. *)
Definition run_begin (k i : nat) (t : Task J) (s : executor) : executor :=
  if negb (check_resources (required t) (available_resources_ s)) then
    set_run k R_done (update_task_state i FAILED json_null "Insufficient resources" s)
  else
    let now_ms := u64 (now s) in
    let remaining := remaining_timeout (timeout_ms t) now_ms (submit_ts t) in
    if remaining <? 0 then
      set_run k R_done (update_task_state i TIMEOUT json_null "Execution timeout" s)
    else
      set_run k (R_setup i (length (timers s)) now_ms)
        (set_timers (timers s ++ [mkTimer (ExecTimer i) (now s + remaining) Waiting]) s).

(** Lines 71 to 81: the task is marked running and its function looked up. *)
Definition run_setup (k i tm : nat) (now_ms : Z) (t : Task J) (s : executor) : executor :=
  let s := set_tasks (alter (with_start_ts (i64 now_ms)) i (tasks s)) s in
  let s := update_task_state i RUNNING json_null "" s in
  match functions_ s !! func_name t with
  | None => set_run k (R_catch i tm (std_exception ("Unknown function: " ++ func_name t))) s
  | Some _ => set_run k (R_call i tm (flag_of t s)) (log_call i s)
  end.

(** Lines 89 to 95 and 115: retry, or report the failure. *)
Definition run_catch (k i tm : nat) (e : task_exn) (t : Task J) (s : executor) : executor :=
  match e with
  | not_std_exception => set_run k R_done (set_crashed s)
  | _ =>
      if is_retryable_error (code_of e) && (retry_count t <? max_retry t)
      then set_run k (R_quota i) s
      else set_run k (R_cancel tm)
             (update_task_state i FAILED json_null ("Execution failed: " ++ what e) s)
  end.

(** [exec_timer->cancel()]: a handler still waiting is queued as aborted. *)
Definition cancel_timer (m : nat) (s : executor) : executor :=
  match timers s !! m with
  | Some (mkTimer _ _ Waiting) => set_timer m Aborted s
  | _ => s
  end.

Definition run_step (k : nat) (pc : run_pc) (s : executor) : option executor :=
  match pc with
  | R_begin i => t ← tasks s !! i; Some (run_begin k i t s)
  | R_setup i tm now_ms => t ← tasks s !! i; Some (run_setup k i tm now_ms t s)
  | R_success i tm result =>
      Some (set_run k (R_cancel tm) (update_task_state i SUCCESS result "" s))
  | R_catch i tm e => t ← tasks s !! i; Some (run_catch k i tm e t s)
  | R_quota i =>
      let old := retrying_cnt s in
      Some (set_run k (if MAX_CONCURRENT_RETRY <=? old then R_rollback i else R_arm i)
              (set_retrying (i32 (old + 1)) s))
  | R_rollback i => Some (set_run k (R_full i) (set_retrying (i32 (retrying_cnt s - 1)) s))
  | R_full i =>
      Some (set_run k R_done (update_task_state i FAILED json_null "Retry quota full" s))
  | R_arm i =>
      t ← tasks s !! i;
      Some (set_run k R_done
              (set_timers (timers s ++
                 [mkTimer (RetryTimer i) (now s + retry_delay_ms (retry_count t)) Waiting]) s))
  | R_cancel tm => Some (set_run k R_done (cancel_timer tm s))
  | R_call _ _ _ | R_done => None
  end.

(** The function of activation [k] returns or throws.  [cancel_at] is the
    first of its loads of the flag that saw it set: the first one of all if it
    was set when the call began, none if it is still clear. *)
Definition fn_return (k : nat) (cancel_at : option nat) (world : nat) (s : executor) : option executor :=
  pc ← runs s !! k;
  match pc with
  | R_call i tm seen =>
      t ← tasks s !! i;
      f ← functions_ s !! func_name t;
      if (if seen then bool_decide (cancel_at = Some O)
          else if flag_of t s then true else bool_decide (cancel_at = None))
      then match f (func_params t) cancel_at world with
           | Ret result => Some (set_run k (R_success i tm result) s)
           | Throw e => Some (set_run k (R_catch i tm e) s)
           | Undef _ => None
           end
      else None
  | _ => None
  end.

(** The function of activation [k] writes to its task. *)
Definition fn_report (k : nat) (o : report) (s : executor) : option executor :=
  pc ← runs s !! k;
  match pc with
  | R_call i _ _ => Some (set_tasks (alter (report_task o) i (tasks s)) s)
  | _ => None
  end.

(** A timer whose time has come; its handler is queued on the [io_context]. *)
Definition expire (m : nat) (s : executor) : option executor :=
  t ← timers s !! m;
  match t_status t with
  | Waiting => if t_expiry t <=? now s then Some (set_timer m Expired s) else None
  | _ => None
  end.

(** The [io_context] runs a queued handler: lines 62 to 67 and 107 to 113. *)
Definition handle (m : nat) (s : executor) : option executor :=
  tm ← timers s !! m;
  match t_status tm, t_kind tm with
  | Expired, ExecTimer i =>
      t ← tasks s !! i;
      l ← cancelled t;
      Some (set_timer m Firing (set_flags (<[l := true]> (flags s)) s))
  | Firing, ExecTimer i =>
      Some (set_timer m Handled (update_task_state i TIMEOUT json_null "Execution timeout" s))
  | Expired, RetryTimer i =>
      t ← tasks s !! i;
      Some (set_timer m Handled
              (execute_task i
                 (set_tasks (<[i := with_retry_count (u32 (retry_count t + 1)) t]> (tasks s))
                    (set_retrying (i32 (retrying_cnt s - 1)) s))))
  | Aborted, _ => Some (set_timer m Handled s)
  | _, _ => None
  end.

Inductive exec_act :=
| Register (func_name : string) (func : TaskFunction)
| Submit (t : Task J)                         (* a new task is handed to execute_task *)
| StartRun (j : nat)                          (* a pool thread takes a closure *)
| StepRun (k : nat)
| FnReturn (k : nat) (cancel_at : option nat) (world : nat)
| Expire (m : nat)
| Handle (m : nat)
| Cancel (i : nat)                            (* the owner sets the flag *)
| Tick (ms : Z)
| Resubmit (i : nat)                          (* execute_task again, for a task already submitted *)
| FnReport (k : nat) (o : report).            (* a running function writes to its task *)

Definition exec_task (a : exec_act) (s : executor) : option executor :=
  match a with
  | Register func_name func =>
      (* unsynchronised: not while an activation may read the table *)
      if total busy (runs s) =? 0 then Some (register_function func_name func s) else None
  | Submit t =>
      (* its flag may be one that other tasks share *)
      l ← cancelled t;
      Some (execute_task (length (tasks s))
              (set_tasks (tasks s ++ [t]) (set_flags (<[l := default false (flags s !! l)]> (flags s)) s)))
  | StartRun j =>
      i ← queued s !! j;
      if total busy (runs s) <? pool_threads s
      then Some (set_runs (runs s ++ [R_begin i]) (set_queued (delete j (queued s)) s)) else None
  | StepRun k => pc ← runs s !! k; run_step k pc s
  | FnReturn k cancel_at world => fn_return k cancel_at world s
  | Expire m => expire m s
  | Handle m => handle m s
  | Cancel i => t ← tasks s !! i; l ← cancelled t; Some (set_flags (<[l := true]> (flags s)) s)
  | Tick ms => if 0 <=? ms then Some (set_now (now s + ms) s) else None
  | Resubmit i => _ ← tasks s !! i; Some (execute_task i s)
  | FnReport k o => fn_report k o s
  end.

(** The constructor; [json_what] is the text of a JSON exception. *)
Definition TaskExecutor (json_what : json_exn -> string) (hardware_concurrency : Z) : executor :=
  register_function "fib" (fib json_what)
    (mkExecutor [] ∅ ∅ (mkResource (double_of_Z 4) 8192) 0 hardware_concurrency [] [] [] 0 [] false).
End executor.

(** ** Arithmetic *)

(** [C33] What the unsigned arithmetic of [run_task] computes, for any clock value,
    submission time and timeout of their declared widths: the real remaining time
    [timeout - (now - submit)] brought into the range of [std::int64_t].  It is
    exact, and so negative exactly when the deadline has passed, for every task
    submitted at a non-negative time no later than now on a clock below 2^63 ms; in
    general its sign is right exactly when the real value fits in 64 bits or is below
    - 2^64, and outside that a passed deadline is read as time left or the reverse. *)
Theorem remaining_timeout_exact timeout now_ms submit :
  fits 32 timeout -> fits 64 now_ms -> sfits 64 submit ->
  let real := timeout - (now_ms - submit) in
  let remaining := remaining_timeout timeout now_ms submit in
  remaining = (if real <? - 2 ^ 63 then real + 2 ^ 64 else if real <? 2 ^ 63 then real else real - 2 ^ 64) /\
  (0 <= submit <= now_ms -> now_ms < 2 ^ 63 ->
     remaining = real /\ (remaining < 0 <-> submit + timeout < now_ms)) /\
  ((remaining < 0 <-> submit + timeout < now_ms) <-> - 2 ^ 63 <= real < 2 ^ 63 \/ real < - 2 ^ 64).
Proof.
  intros Ht Hn Hs real remaining.
  assert (remaining = i64 real) as E.
  { unfold remaining, remaining_timeout. rewrite (wrap_sub_r 64 now_ms submit).
    by rewrite (wrap_sub_r 64 timeout (now_ms - submit)), swrap_wrap. }
  assert (remaining = (if real <? - 2 ^ 63 then real + 2 ^ 64 else if real <? 2 ^ 63 then real
    else real - 2 ^ 64)) as E'.
  { rewrite E. unfold fits, sfits in *. apply swrap_near; unfold real; lia. }
  split; [exact E'|]. rewrite E'. unfold fits, sfits in *.
  destruct (Z.ltb_spec real (- 2 ^ 63)); [|destruct (Z.ltb_spec real (2 ^ 63))]; unfold real in *; lia.
Qed.

(** A deadline long past, read as time left: the clock and the submission time are 2^64 apart. *)
Lemma remaining_timeout_exact_witness :
  remaining_timeout 30000 1700000005000 1700000000000 = 25000 /\
  remaining_timeout 0 (2 ^ 63) (-1) = 2 ^ 63 - 1.
Proof.
  split.
  - apply (remaining_timeout_exact 30000 1700000005000 1700000000000); width || lia.
  - rewrite (proj1 (remaining_timeout_exact 0 (2 ^ 63) (-1) ltac:(width) ltac:(width) ltac:(width))).
    reflexivity.
Defined.

(** The delay before the n-th retry doubles up to 16 seconds. *)
Lemma retry_delay_range n :
  0 <= n -> retry_delay_ms n = 2 ^ Z.min n 4 * 1000 /\ 1000 <= retry_delay_ms n <= 16000.
Proof.
  intros Hn. unfold retry_delay_ms. rewrite Z.shiftl_mul_pow2, Z.mul_1_l by lia.
  split; [done|]. assert (0 <= Z.min n 4 <= 4) as [H0 H4] by lia.
  assert (2 ^ 0 <= 2 ^ Z.min n 4 <= 2 ^ 4) by (split; apply Z.pow_le_mono_r; lia). lia.
Qed.

(** ** Fibonacci *)

Fixpoint fib_pair (n : nat) : Z * Z :=
  match n with
  | O => (0, 1)
  | S n => let '(a, b) := fib_pair n in (b, a + b)
  end.
Definition fib_number (n : nat) : Z := (fib_pair n).1.

Lemma fib_pair_eq n : fib_pair n = (fib_number n, fib_number (S n)).
Proof. unfold fib_number. cbn. by destruct (fib_pair n). Qed.

Lemma fib_number_SS n : fib_number (S (S n)) = fib_number n + fib_number (S n).
Proof. unfold fib_number at 1. cbn. rewrite fib_pair_eq. reflexivity. Qed.

Lemma fib_number_nonneg n : 0 <= fib_number n /\ 0 <= fib_number (S n).
Proof. induction n as [|n [IH1 IH2]]; [by vm_compute|]. rewrite fib_number_SS. lia. Qed.

Lemma fib_number_mono m n : (1 <= m <= n)%nat -> fib_number m <= fib_number n.
Proof.
  intros [Hm Hn]. induction Hn as [|n Hn IH]; [lia|].
  destruct n as [|n]; [lia|]. rewrite fib_number_SS. pose proof (fib_number_nonneg n). lia.
Qed.

Lemma fib_number_int n : (n <= 46)%nat -> - 2 ^ 31 <= fib_number n < 2 ^ 31.
Proof.
  intros Hn. pose proof (fib_number_nonneg n). destruct n as [|n]; [by vm_compute|].
  pose proof (fib_number_mono (S n) 46 ltac:(lia)).
  assert (fib_number 46 < 2 ^ 31) by by vm_compute. lia.
Qed.

Section fib_spec.
Context {J : Type} `{JsonLib J}.
Context (json_what : json_exn -> string).

(** The loop without overflow: cancelled if some load sees the flag. *)
Lemma fib_loop_small c n k m :
  (S m + n <= 46)%nat ->
  fib_loop c n k (fib_number m) (fib_number (S m)) =
  Ret (if (match c with Some x => (x <? k + n)%nat && (0 <? n)%nat | None => false end)
       then None else Some (fib_number (S m + n))).
Proof.
  revert k m. induction n as [|n IH]; intros k m Hle; cbn [fib_loop].
  - replace (S m + 0)%nat with (S m) by lia. destruct c; [|done]. by rewrite andb_false_r.
  - unfold cancel_seen at 1. destruct c as [x|]; [destruct (Nat.leb_spec x k)|].
    + assert (x <? k + S n = true)%nat as -> by (apply Nat.ltb_lt; lia). done.
    + rewrite <- fib_number_SS, bool_decide_true by (apply fib_number_int; lia).
      rewrite IH by lia. replace (S (S m) + n)%nat with (S m + S n)%nat by lia.
      replace ((x <? S k + n) && (0 <? n))%nat with ((x <? k + S n) && (0 <? S n))%nat; [done|].
      destruct (Nat.ltb_spec x (k + S n)), (Nat.ltb_spec x (S k + n)), (Nat.ltb_spec 0 n),
        (Nat.ltb_spec 0 (S n)); cbn; done || lia.
    + rewrite <- fib_number_SS, bool_decide_true by (apply fib_number_int; lia).
      rewrite IH by lia. by replace (S (S m) + n)%nat with (S m + S n)%nat by lia.
Qed.

Lemma fib_loop_overflow n k m :
  (S m <= 46 < S m + n)%nat ->
  fib_loop None n k (fib_number m) (fib_number (S m)) = Undef "signed overflow".
Proof.
  revert k m. induction n as [|n IH]; intros k m Hle; [lia|]. cbn [fib_loop cancel_seen].
  rewrite <- fib_number_SS. destruct (decide (S m = 46%nat)) as [Hm|Hm].
  - assert (m = 45%nat) as -> by lia. by rewrite bool_decide_false by (vm_compute; intros [_ ?]; done).
  - rewrite bool_decide_true by (apply fib_number_int; lia). apply IH. lia.
Qed.

(** [C34] The built-in function: a negative argument throws; up to 46 the result
    is the Fibonacci number, or "cancelled" when one of its n-1 loads saw the
    flag set; from 47 on an uncancelled call overflows [int]. *)
Theorem fib_correct params n c w :
  json_value_int params "n" 0 = Ret n ->
  (n < 0 -> fib json_what params c w = Throw (std_exception "Negative input for fib")) /\
  (0 <= n <= 46 ->
   fib json_what params c w =
   Ret (json_of_members [("result",
     match c with
     | Some x => if Z.of_nat x <? n - 1 then json_of_string "cancelled"
                 else json_of_int (fib_number (Z.to_nat n))
     | None => json_of_int (fib_number (Z.to_nat n))
     end)])) /\
  (47 <= n -> c = None -> fib json_what params c w = Undef "signed overflow").
Proof.
  intros Hn. unfold fib. rewrite Hn. cbn [lift_json mbind outcome_bind].
  split_and!; intros Hr.
  - by rewrite (proj2 (Z.ltb_lt n 0)) by lia.
  - rewrite (proj2 (Z.ltb_ge n 0)) by lia. destruct (Z.leb_spec n 1) as [H1|H1].
    + assert (fib_number (Z.to_nat n) = n) as ->.
      { assert (n = 0 \/ n = 1) as [->| ->] by lia; reflexivity. }
      destruct c as [x|]; [|done]. by rewrite (proj2 (Z.ltb_ge (Z.of_nat x) (n - 1))) by lia.
    + rewrite (fib_loop_small c _ 0 0) by lia.
      replace (1 + Z.to_nat (n - 1))%nat with (Z.to_nat n) by lia.
      destruct c as [x|]; cbn [mbind outcome_bind]; [|done].
      rewrite (proj2 (Nat.ltb_lt 0 (Z.to_nat (n - 1)))), andb_true_r by lia. cbn [Nat.add].
      destruct (Nat.ltb_spec x (Z.to_nat (n - 1))), (Z.ltb_spec (Z.of_nat x) (n - 1)); done || lia.
  - intros ->. rewrite (proj2 (Z.ltb_ge n 0)), (proj2 (Z.leb_gt n 1)) by lia.
    by rewrite (fib_loop_overflow _ 0 0) by lia.
Qed.
End fib_spec.

(** ** Retries *)

(** Opens one step of the executor. *)
Ltac exec_step E :=
  match type of E with
  | exec_task ?a ?s = Some _ =>
      destruct a as [nm fn | t | qj | k | k c w | m | m | i | ms | i | k o]; cbn [exec_task] in E;
      unfold fn_return, fn_report, expire, handle in E; open_step E;
      try match goal with pc : run_pc |- _ =>
        destruct pc; cbn [run_step] in E; unfold run_begin, run_setup, run_catch, cancel_timer in E;
        open_step E end; bools
  end.

Ltac exec_totals :=
  repeat match goal with
  | Hpc : runs ?s !! ?k = Some _ |- context [total _ (<[?k := _]> (runs ?s))] =>
      rewrite (total_insert _ _ _ _ _ Hpc)
  | Hm : timers ?s !! ?m = Some _ |- context [total _ (alter _ ?m (timers ?s))] =>
      rewrite (total_alter _ _ _ _ _ Hm)
  end; rewrite ?total_app; cbn [total busy t_kind t_status].

Section retry_quota.
Context {J : Type} `{JsonLib J}.
Implicit Types (s : executor (J:=J)).

(** A retry that has been granted and not restarted yet. *)
Definition retry_pending (t : timer) : Z :=
  match t_kind t, t_status t with RetryTimer _, (Waiting | Expired) => 1 | _, _ => 0 end.
Definition arming (pc : run_pc (J:=J)) : Z := match pc with R_arm _ => 1 | _ => 0 end.
Definition rolling_back (pc : run_pc (J:=J)) : Z := match pc with R_rollback _ => 1 | _ => 0 end.

(** The timer an activation cancels at the end is an execution timer. *)
Definition kind_at (l : list timer) (m : nat) : option timer_kind := t_kind <$> l !! m.
Definition timer_of (pc : run_pc (J:=J)) : option nat :=
  match pc with
  | R_setup _ tm _ | R_call _ tm _ | R_success _ tm _ | R_catch _ tm _ | R_cancel tm => Some tm
  | _ => None
  end.
Definition exec_ok (l : list timer) (pc : run_pc (J:=J)) : Prop :=
  forall tm, timer_of pc = Some tm -> exists i, kind_at l tm = Some (ExecTimer i).

(** The retries an executor has been granted, and the activations that have
    raised the counter and are about to take it back. *)
Definition claimed s : Z := total retry_pending (timers s) + total arming (runs s).
Definition returning s : Z := total rolling_back (runs s).

(** The counter is the sum of both.  It is static, so other executors may have
    a part in it: [g] and [b] are theirs. *)
Record quota_inv (g b : Z) s : Prop := {
  quota_others : 0 <= g /\ 0 <= b;
  quota_threads : b + Z.max 0 (pool_threads s) < 2 ^ 31 - 2 * MAX_CONCURRENT_RETRY;
  quota_busy : total busy (runs s) <= Z.max 0 (pool_threads s);
  quota_count : retrying_cnt s = g + b + claimed s + returning s;
  quota_max : g + claimed s <= MAX_CONCURRENT_RETRY;
  quota_exec : Forall (exec_ok (timers s)) (runs s);
}.

Lemma retry_pending_nonneg t : 0 <= retry_pending t.
Proof. destruct t as [[] ? []]; cbn; lia. Qed.

(** Timers are added and change status; their kinds stay. *)
Lemma kind_at_alter st m l m' :
  kind_at (alter (fun t => mkTimer (t_kind t) (t_expiry t) st) m l) m' = kind_at l m'.
Proof.
  unfold kind_at. rewrite list_lookup_alter. case_decide; [|done]. subst. by destruct (l !! m').
Qed.

Lemma exec_ok_alter st m l pc :
  exec_ok l pc -> exec_ok (alter (fun t => mkTimer (t_kind t) (t_expiry t) st) m l) pc.
Proof. intros Hok tm Htm. destruct (Hok tm Htm) as [i Hi]. exists i. by rewrite kind_at_alter. Qed.

Lemma exec_ok_app l t pc : exec_ok l pc -> exec_ok (l ++ [t]) pc.
Proof.
  intros Hok tm Htm. destruct (Hok tm Htm) as [i Hi]. exists i. unfold kind_at in *.
  destruct (l !! tm) eqn:E; [|done]. by rewrite (lookup_app_l_Some _ _ _ _ E).
Qed.

Lemma exec_ok_new l i e : exists j, kind_at (l ++ [mkTimer (ExecTimer i) e Waiting]) (length l) = Some (ExecTimer j).
Proof. exists i. unfold kind_at. by rewrite lookup_app_r, Nat.sub_diag by lia. Qed.

Lemma exec_ok_step a s s' :
  Forall (exec_ok (timers s)) (runs s) -> exec_task a s = Some s' ->
  Forall (exec_ok (timers s')) (runs s').
Proof.
  intros HF E.
  assert (forall k pc, runs s !! k = Some pc -> exec_ok (timers s) pc) as HF'.
  { intros k pc Hk. by eapply Forall_lookup_1 in HF. }
  assert (forall st m, Forall (exec_ok (alter (fun t => mkTimer (t_kind t) (t_expiry t) st) m (timers s)))
                        (runs s)) as Halt.
  { intros. eapply Forall_impl; [exact HF|]. intros. by apply exec_ok_alter. }
  assert (forall t, Forall (exec_ok (timers s ++ [t])) (runs s)) as Happ.
  { intros. eapply Forall_impl; [exact HF|]. intros. by apply exec_ok_app. }
  exec_step E; cbn; try done; try (by apply Halt);
    try (apply Forall_app; split; [done|]; repeat constructor; by intros tm ?);
    try (apply Forall_insert; [by auto|]; intros tm' Htm'; cbn in Htm'; simplify_eq;
         first [apply exec_ok_new | eapply HF'; [eassumption | reflexivity]]).
Qed.

Lemma claims_nonneg s : 0 <= claimed s /\ 0 <= returning s <= total busy (runs s).
Proof.
  unfold claimed, returning.
  pose proof (total_nonneg retry_pending (timers s) retry_pending_nonneg).
  pose proof (total_nonneg arming (runs s) ltac:(intros []; cbn; lia)).
  pose proof (total_nonneg rolling_back (runs s) ltac:(intros []; cbn; lia)).
  pose proof (total_le rolling_back busy (runs s) ltac:(intros []; cbn; lia)). lia.
Qed.

Lemma quota_step g b a s s' : quota_inv g b s -> exec_task a s = Some s' -> quota_inv g b s'.
Proof.
  intros [HO HP HB HC HM HK] E. unfold claimed, returning in *. pose proof (exec_ok_step _ _ _ HK E) as HK'.
  assert (forall k pc, runs s !! k = Some pc -> exec_ok (timers s) pc) as HF.
  { intros k pc Hk. by eapply Forall_lookup_1 in HK. }
  pose proof (total_nonneg retry_pending (timers s) retry_pending_nonneg).
  pose proof (total_nonneg arming (runs s) ltac:(intros []; cbn; lia)).
  pose proof (total_nonneg rolling_back (runs s) ltac:(intros []; cbn; lia)).
  pose proof (total_le rolling_back busy (runs s) ltac:(intros []; cbn; lia)).
  exec_step E; split; try exact HK'; clear HK'; unfold claimed, returning; cbn; exec_totals; try done;
    unfold MAX_CONCURRENT_RETRY in *; set (R := total retry_pending (timers s)) in *; clearbody R;
    try (destruct (HF _ _ Hx tm eq_refl) as [j Hj]; unfold kind_at in Hj; simplify_option_eq);
    unfold retry_pending; cbn; repeat case_match; simplify_eq; try lia;
    rewrite swrap_small by (unfold sfits; lia); lia.
Qed.

Lemma init_quota json_what cores :
  Z.max 0 cores < 2 ^ 31 - 2 * MAX_CONCURRENT_RETRY -> quota_inv 0 0 (TaskExecutor json_what cores).
Proof. intros Hc. split; cbn; try lia; done || constructor. Qed.

(** The retry quota holds under every interleaving: the shared counter
    always equals the number of granted retries plus the activations about to
    give their claim back, it is never negative, and at most ten retries are
    granted and waiting at the same time. *)
Lemma retry_quota json_what cores s :
  0 <= cores < 2 ^ 31 - 2 * MAX_CONCURRENT_RETRY ->
  reachable exec_task (fun s0 => s0 = TaskExecutor json_what cores) s ->
  retrying_cnt s = total retry_pending (timers s) + total arming (runs s) + total rolling_back (runs s) /\
  0 <= retrying_cnt s /\
  total retry_pending (timers s) <= MAX_CONCURRENT_RETRY.
Proof.
  intros Hc Hr. assert (quota_inv 0 0 s) as [_ _ _ HC HM _].
  { revert s Hr. apply reachable_invariant; [|intros; by eapply quota_step].
    intros s ->. by apply init_quota; lia. }
  pose proof (claims_nonneg s). unfold claimed, returning in *.
  pose proof (total_nonneg arming (runs s) ltac:(intros []; cbn; lia)). lia.
Qed.
End retry_quota.

Section retry_bound.
Context {J : Type} `{JsonLib J}.
Context (i0 : nat).
Implicit Types (s : executor (J:=J)).

(** Everything below counts what concerns the task with index [i0]. *)
Definition is_task (j : nat) : Z := if Nat.eqb j i0 then 1 else 0.

(** Activations that will still call the function, that may still ask for a
    retry, that have been found retryable; retry timers. *)
Definition ahead (pc : run_pc (J:=J)) : Z :=
  match pc with R_begin j | R_setup j _ _ => is_task j | _ => 0 end.
Definition in_flight (pc : run_pc (J:=J)) : Z :=
  match pc with
  | R_begin j | R_setup j _ _ | R_call j _ _ | R_catch j _ _ | R_quota j | R_arm j => is_task j
  | _ => 0
  end.
Definition granted (pc : run_pc (J:=J)) : Z :=
  match pc with R_quota j | R_arm j => is_task j | _ => 0 end.
Definition slack (pc : run_pc (J:=J)) : Z := in_flight pc - ahead pc - granted pc.
Definition retry_timer_of (t : timer) : Z :=
  match t_kind t, t_status t with RetryTimer j, (Waiting | Expired) => is_task j | _, _ => 0 end.

(** The retry counter and its limit. *)
Definition limits s : option (Z * Z) :=
  (fun t => (retry_count t, max_retry t)) <$> tasks s !! i0.

Definition retry_inv s : Prop :=
  match limits s with
  | Some (rc, mr) =>
      total is_task (queued s) + total in_flight (runs s) + total retry_timer_of (timers s) <= 1 /\
      rc + total granted (runs s) + total retry_timer_of (timers s) <= mr /\
      total is_task (calls s) + total is_task (queued s) + total ahead (runs s) <= rc + 1 /\
      0 <= rc /\ mr < 2 ^ 32
  | None =>
      total is_task (queued s) = 0 /\ total in_flight (runs s) = 0 /\
      total retry_timer_of (timers s) = 0 /\ total is_task (calls s) = 0
  end.

Lemma is_task_range j : 0 <= is_task j <= 1.
Proof. unfold is_task. case_match; lia. Qed.

(** State updates leave the retry counter and its limit alone. *)
Lemma limits_alter (f : Task J -> Task J) i (l : list (Task J)) :
  (forall t, (retry_count (f t), max_retry (f t)) = (retry_count t, max_retry t)) ->
  (fun t => (retry_count t, max_retry t)) <$> alter f i l !! i0 =
  (fun t => (retry_count t, max_retry t)) <$> l !! i0.
Proof.
  intros Hf. rewrite list_lookup_alter. case_decide; [|done]. subst.
  destruct (l !! i0) as [t|]; [|done]. cbn. by rewrite Hf.
Qed.

Lemma total_sub {A} (f g : A -> Z) (l : list A) :
  total (fun x => f x - g x) l = total f l - total g l.
Proof. induction l; cbn; lia. Qed.

Lemma in_flight_split (l : list (run_pc (J:=J))) :
  total in_flight l = total ahead l + total granted l + total slack l.
Proof. unfold slack. rewrite !total_sub. lia. Qed.

(** Only tasks whose counter starts within its limit are submitted, each once and with a
    flag of its own. *)
Definition own_flag (t : Task J) s : bool :=
  match cancelled t with Some l => bool_decide (flags s !! l = None) | None => false end.
Definition exec_bounded (a : exec_act (J:=J)) s : option executor :=
  match a with
  | Submit t =>
      if (0 <=? retry_count t) && (retry_count t <=? max_retry t) && (max_retry t <? 2 ^ 32) && own_flag t s
      then exec_task a s else None
  | Resubmit _ => None
  | _ => exec_task a s
  end.

(** One activation or one timer counts for at most the total. *)
Lemma run_share s k pc :
  runs s !! k = Some pc ->
  in_flight pc <= total in_flight (runs s) /\ slack pc <= total slack (runs s).
Proof.
  intros Hk. split; (eapply total_lookup_le; [|exact Hk]); intros []; unfold slack; cbn;
    try pose proof (is_task_range i); lia.
Qed.

Lemma timer_share s m t :
  timers s !! m = Some t -> retry_timer_of t <= total retry_timer_of (timers s).
Proof.
  apply total_lookup_le. intros [[] ? []]; cbn; try apply is_task_range; lia.
Qed.

Lemma is_task_self : is_task i0 = 1.
Proof. unfold is_task. by rewrite Nat.eqb_refl. Qed.

Lemma is_task_other j : j <> i0 -> is_task j = 0.
Proof. intros Hj. unfold is_task. by rewrite (proj2 (Nat.eqb_neq j i0)). Qed.

Lemma retry_step a s s' : retry_inv s -> exec_bounded a s = Some s' -> retry_inv s'.
Proof.
  intros HI E0.
  assert (exec_task a s = Some s') as E by (destruct a; try exact E0; unfold exec_bounded in E0; try done; by case_match).
  pose proof (total_nonneg is_task (queued s) ltac:(intros j; apply is_task_range)) as NQ.
  pose proof (total_nonneg is_task (calls s) ltac:(intros j; apply is_task_range)) as NC.
  pose proof (total_nonneg ahead (runs s) ltac:(intros []; cbn; try apply is_task_range; lia)) as NA.
  pose proof (total_nonneg granted (runs s) ltac:(intros []; cbn; try apply is_task_range; lia)) as NG.
  pose proof (total_nonneg slack (runs s)
    ltac:(intros []; unfold slack; cbn; try pose proof (is_task_range i); lia)) as NS.
  pose proof (total_nonneg retry_timer_of (timers s)
    ltac:(intros [[] ? []]; cbn; try apply is_task_range; lia)) as NR.
  pose proof (in_flight_split (runs s)) as HS.
  pose proof (run_share s) as RS. pose proof (timer_share s) as TS.
  exec_step E; unfold retry_inv, limits in *; cbn; rewrite ?limits_alter by done;
    exec_totals; cbn [ahead in_flight granted retry_timer_of t_kind t_status] in *.
  all: try discriminate E0.
  all: try (pose proof (is_task_range i)); try (destruct (RS _ _ Hx)).
  all: try (match goal with Hq : queued _ !! _ = Some ?n |- _ =>
    rewrite (total_delete _ _ _ _ Hq); pose proof (is_task_range n);
    pose proof (total_lookup_le is_task _ _ _ ltac:(intros j; apply is_task_range) Hq) end).
  all: try (match goal with Ht : timers _ !! _ = Some (mkTimer ?kd _ ?st) |- _ =>
    pose proof (TS _ _ Ht); destruct kd as [j|j]; cbn in *; pose proof (is_task_range j) end).
  all: try (match goal with Ht : timers _ !! _ = Some ?x |- _ => is_var x;
    pose proof (TS _ _ Ht); destruct x as [[j|j] ? []]; pose proof (is_task_range j); simplify_eq/= end).
  all: try (destruct (tasks s !! i0) as [t0|] eqn:Ht0; cbn in HI |- *).
  all: unfold slack in *; cbn [in_flight ahead granted] in *; try lia.
  - rewrite lookup_app_l_Some with (x := t0) by done. cbn. apply lookup_lt_Some in Ht0.
    rewrite is_task_other by lia. lia.
  - apply lookup_ge_None in Ht0. destruct (decide (i0 = length (tasks s))) as [->|].
    + rewrite lookup_app_r, Nat.sub_diag by lia. cbn in E0 |- *. case_match; [|done]. bools.
      pose proof (is_task_range (length (tasks s))). lia.
    + rewrite lookup_ge_None_2 by (rewrite length_app; cbn; lia). cbn.
      rewrite is_task_other by done. lia.
  - destruct (decide (i = i0)) as [->|]; [simplify_eq; rewrite is_task_self in *; lia|].
    rewrite is_task_other by done. lia.
  - destruct (decide (i = i0)) as [->|]; [simplify_eq; rewrite is_task_self in *; lia|].
    rewrite is_task_other by done. lia.
  - cbn in H0. destruct (decide (task = i0)) as [->|].
    + simplify_eq. rewrite list_lookup_insert_eq by (by eapply lookup_lt_Some). cbn.
      rewrite is_task_self in *. rewrite wrap_small by (unfold fits; lia). lia.
    + rewrite list_lookup_insert_ne, Ht0 by done. cbn. rewrite is_task_other in * by done. lia.
  - cbn in H0. destruct (decide (task = i0)) as [->|]; [congruence|].
    rewrite list_lookup_insert_ne, Ht0 by done. cbn. rewrite is_task_other in * by done. lia.
Qed.

(** [C5] A task is never run more often than its retry limit allows: as long as
    tasks are submitted once, with a counter within their limit, the function of a
    task is called at most once per retry and once more, its retry counter
    stays within the limit (the 32-bit increment never wraps), and at most one
    closure, activation or timer of it can still lead to another call. *)
Theorem retry_bound json_what cores s t :
  reachable exec_bounded (fun s0 => s0 = TaskExecutor json_what cores) s ->
  tasks s !! i0 = Some t ->
  total is_task (calls s) <= retry_count t + 1 /\
  0 <= retry_count t <= max_retry t /\
  total is_task (queued s) + total in_flight (runs s) + total retry_timer_of (timers s) <= 1.
Proof.
  intros Hr Ht. assert (retry_inv s) as HI.
  { revert Hr. clear Ht. revert s. apply reachable_invariant; [|intros; by eapply retry_step].
    intros s ->. done. }
  unfold retry_inv, limits in HI. rewrite Ht in HI. cbn in HI.
  pose proof (total_nonneg is_task (queued s) ltac:(intros j; apply is_task_range)).
  pose proof (total_nonneg ahead (runs s) ltac:(intros []; cbn; try apply is_task_range; lia)).
  pose proof (total_nonneg granted (runs s) ltac:(intros []; cbn; try apply is_task_range; lia)).
  pose proof (total_nonneg retry_timer_of (timers s)
    ltac:(intros [[] ? []]; cbn; try apply is_task_range; lia)). lia.
Qed.
End retry_bound.

(** ** What one activation does *)

Section run_task.
Context {J : Type} `{JsonLib J}.
Implicit Types (s : executor (J:=J)) (t : Task J).

Lemma runs_set_run k pc pc' s : runs s !! k = Some pc -> runs (set_run k pc' s) !! k = Some pc'.
Proof. intros Hk. cbn. apply list_lookup_insert_eq. by eapply lookup_lt_Some. Qed.

(** The activation up to the call of the function. *)
Lemma run_to_call k i t f s :
  runs s !! k = Some (R_begin i) -> tasks s !! i = Some t ->
  check_resources (required t) (available_resources_ s) = true ->
  0 <= remaining_timeout (timeout_ms t) (u64 (now s)) (submit_ts t) ->
  functions_ s !! func_name t = Some f -> flag_of t s = false ->
  exists s',
    run exec_task [StepRun k; StepRun k] s = Some s' /\
    runs s' !! k = Some (R_call i (length (timers s)) false) /\
    tasks s' !! i = Some (update_task RUNNING json_null "" (u64 (now s)) (with_start_ts (i64 (u64 (now s))) t)) /\
    timers s' = (timers s ++ [mkTimer (ExecTimer i)
      (now s + remaining_timeout (timeout_ms t) (u64 (now s)) (submit_ts t)) Waiting])%list /\
    functions_ s' = functions_ s /\ flags s' = flags s /\ now s' = now s.
Proof.
  intros Hk Hi Hc Hr Hf Hfl. cbn [run exec_task]. rewrite Hk. cbn [mbind option_bind run_step].
  rewrite Hi. cbn [mbind option_bind]. unfold run_begin. rewrite Hc, (proj2 (Z.ltb_ge _ 0) Hr). cbn [negb].
  eexists. split.
  - erewrite runs_set_run by done. cbn. rewrite Hi. cbn. unfold run_setup. cbn. rewrite Hf. reflexivity.
  - split_and!; cbn; try done.
    + rewrite list_insert_insert_eq. unfold flag_of in *. cbn. rewrite Hfl.
      apply list_lookup_insert_eq. by eapply lookup_lt_Some.
    + by rewrite (lookup_alter_at _ _ _ _ (lookup_alter_at _ _ _ _ Hi)).
Qed.

(** The verdict on a call that is not retried. *)
Definition verdict (t : Task J) (o : outcome task_exn J) : option (TaskState * J * string) :=
  match o with
  | Ret r => Some (SUCCESS, r, "")
  | Throw not_std_exception | Undef _ => None
  | Throw e => if is_retryable_error (code_of e) && (retry_count t <? max_retry t) then None
               else Some (FAILED, json_null, "Execution failed: " ++ what e)
  end.

(** The call returns, the verdict is stored, the execution timer is cancelled. *)
Lemma run_from_call k i tm t f w st r msg s :
  runs s !! k = Some (R_call i tm false) -> tasks s !! i = Some t ->
  functions_ s !! func_name t = Some f -> flag_of t s = false ->
  verdict t (f (func_params t) None w) = Some (st, r, msg) ->
  run exec_task [FnReturn k None w; StepRun k; StepRun k] s =
  Some (set_run k R_done (cancel_timer tm (set_run k (R_cancel tm)
    (update_task_state i st r msg
       (set_run k (match f (func_params t) None w with
                   | Ret r => R_success i tm r
                   | Throw e => R_catch i tm e
                   | Undef _ => R_done
                   end) s))))).
Proof.
  intros Hk Hi Hf Hfl Hv. cbn [run exec_task]. unfold fn_return. rewrite Hk. cbn [mbind option_bind].
  rewrite Hi. cbn [mbind option_bind]. rewrite Hf. cbn [mbind option_bind]. rewrite Hfl.
  rewrite bool_decide_true by done. destruct (f (func_params t) None w) as [r'|e|]; [| |done].
  - cbn in Hv. simplify_eq. cbn [mbind option_bind]. erewrite runs_set_run by done.
    cbn [mbind option_bind run_step]. by erewrite runs_set_run by (by apply runs_set_run with (1 := Hk)).
  - cbn [mbind option_bind]. erewrite runs_set_run by done. cbn [mbind option_bind run_step].
    change (tasks (set_run k (R_catch i tm e) s)) with (tasks s). rewrite Hi. cbn [mbind option_bind].
    cbn in Hv. unfold run_catch.
    destruct e; [| |done]; case_match; try done; simplify_eq;
      cbn [mbind option_bind]; by erewrite runs_set_run by (by apply runs_set_run with (1 := Hk)).
Qed.

(** [C24] One activation of [run_task], undisturbed: with enough resources, a
    deadline that has not passed and a registered function, it calls the
    function once and stores SUCCESS with its result, or, if the function
    throws something that is not retried, FAILED with the message of the
    exception; the start time is the time of the activation, the other fields
    of the task are kept, and the execution timer ends cancelled. *)
Theorem run_task_completes k i t f w st r msg s :
  runs s !! k = Some (R_begin i) -> tasks s !! i = Some t ->
  check_resources (required t) (available_resources_ s) = true ->
  0 <= remaining_timeout (timeout_ms t) (u64 (now s)) (submit_ts t) ->
  functions_ s !! func_name t = Some f -> flag_of t s = false ->
  verdict t (f (func_params t) None w) = Some (st, r, msg) ->
  exists s',
    run exec_task [StepRun k; StepRun k; FnReturn k None w; StepRun k; StepRun k] s = Some s' /\
    tasks s' !! i =
      Some (update_task st r msg (u64 (now s)) (with_start_ts (i64 (u64 (now s))) t)) /\
    runs s' !! k = Some R_done /\
    timers s' = (timers s ++ [mkTimer (ExecTimer i)
      (now s + remaining_timeout (timeout_ms t) (u64 (now s)) (submit_ts t)) Aborted])%list.
Proof.
  intros Hk Hi Hc Hr Hf Hfl Hv.
  destruct (run_to_call k i t f s Hk Hi Hc Hr Hf Hfl) as (s1 & E1 & Hk1 & Hi1 & HT & HF & HL & HN).
  eexists. split.
  - etrans; [exact (run_app exec_task [StepRun k; StepRun k] [FnReturn k None w; StepRun k; StepRun k] s)|].
    rewrite E1. cbn [mbind option_bind].
    apply (run_from_call k i (length (timers s)) _ f w st r msg s1 Hk1 Hi1); [by rewrite HF| |done].
    unfold flag_of in *. cbn. by rewrite HL.
  - unfold cancel_timer. cbn [set_run set_runs update_task_state set_tasks timers].
    rewrite HT, lookup_last. cbn. rewrite HT, (alter_last _ (timers s)), HN. rewrite (lookup_alter_at _ _ _ _ Hi1). split_and!; try done.
    rewrite !list_insert_insert_eq. apply list_lookup_insert_eq. by eapply lookup_lt_Some.
Qed.

(** An unknown name throws before any call. *)
Lemma run_to_unknown k i t s :
  runs s !! k = Some (R_begin i) -> tasks s !! i = Some t ->
  check_resources (required t) (available_resources_ s) = true ->
  0 <= remaining_timeout (timeout_ms t) (u64 (now s)) (submit_ts t) ->
  functions_ s !! func_name t = None ->
  exists s',
    run exec_task [StepRun k; StepRun k] s = Some s' /\
    runs s' !! k = Some (R_catch i (length (timers s)) (std_exception ("Unknown function: " ++ func_name t))) /\
    tasks s' !! i = Some (update_task RUNNING json_null "" (u64 (now s)) (with_start_ts (i64 (u64 (now s))) t)) /\
    calls s' = calls s /\ now s' = now s.
Proof.
  intros Hk Hi Hc Hr Hf. cbn [run exec_task]. rewrite Hk. cbn [mbind option_bind run_step].
  rewrite Hi. cbn [mbind option_bind]. unfold run_begin. rewrite Hc, (proj2 (Z.ltb_ge _ 0) Hr). cbn [negb].
  eexists. split.
  - erewrite runs_set_run by done. cbn. rewrite Hi. cbn. unfold run_setup. cbn. rewrite Hf. reflexivity.
  - split_and!; cbn; try done.
    + rewrite list_insert_insert_eq. apply list_lookup_insert_eq. by eapply lookup_lt_Some.
    + by rewrite (lookup_alter_at _ _ _ _ (lookup_alter_at _ _ _ _ Hi)).
Qed.

Lemma calls_cancel_timer m s : calls (cancel_timer m s) = calls s /\ tasks (cancel_timer m s) = tasks s
  /\ runs (cancel_timer m s) = runs s.
Proof. unfold cancel_timer. repeat case_match; done. Qed.

(** A plain exception ends the activation. *)
Lemma run_from_catch k i tm msg t s :
  runs s !! k = Some (R_catch i tm (std_exception msg)) -> tasks s !! i = Some t ->
  exists s',
    run exec_task [StepRun k; StepRun k] s = Some s' /\
    runs s' !! k = Some R_done /\ calls s' = calls s /\
    tasks s' !! i = Some (update_task FAILED json_null ("Execution failed: " ++ msg) (u64 (now s)) t).
Proof.
  intros Hk Hi. cbn [run exec_task]. rewrite Hk. cbn [mbind option_bind run_step].
  rewrite Hi. cbn [mbind option_bind]. unfold run_catch.
  change (is_retryable_error (code_of (std_exception msg))) with false. cbn [andb].
  erewrite runs_set_run by done. cbn [mbind option_bind run_step]. eexists. split; [reflexivity|].
  cbn [set_run set_runs runs calls tasks].
  destruct (calls_cancel_timer tm (set_run k (R_cancel tm)
    (update_task_state i FAILED json_null ("Execution failed: " ++ what (std_exception msg)) s)))
    as (-> & -> & ->). split_and!; try done; cbn.
  - apply list_lookup_insert_eq. rewrite length_insert. by eapply lookup_lt_Some.
  - by rewrite (lookup_alter_at _ _ _ _ Hi).
Qed.

(** [C32] The rejections of [run_task]: without the resources the task fails at
    once, after its deadline it times out at once, and a name that is not in
    the table fails with the name in the message; in no case is a function
    called, and the first two start no timer. *)
Theorem run_task_rejects k i t s :
  runs s !! k = Some (R_begin i) -> tasks s !! i = Some t ->
  (check_resources (required t) (available_resources_ s) = false ->
   exists s', exec_task (StepRun k) s = Some s' /\ calls s' = calls s /\ timers s' = timers s /\
     runs s' !! k = Some R_done /\
     tasks s' !! i = Some (update_task FAILED json_null "Insufficient resources" (u64 (now s)) t)) /\
  (check_resources (required t) (available_resources_ s) = true ->
   remaining_timeout (timeout_ms t) (u64 (now s)) (submit_ts t) < 0 ->
   exists s', exec_task (StepRun k) s = Some s' /\ calls s' = calls s /\ timers s' = timers s /\
     runs s' !! k = Some R_done /\
     tasks s' !! i = Some (update_task TIMEOUT json_null "Execution timeout" (u64 (now s)) t)) /\
  (check_resources (required t) (available_resources_ s) = true ->
   0 <= remaining_timeout (timeout_ms t) (u64 (now s)) (submit_ts t) ->
   functions_ s !! func_name t = None ->
   exists s', run exec_task [StepRun k; StepRun k; StepRun k; StepRun k] s = Some s' /\
     calls s' = calls s /\ runs s' !! k = Some R_done /\
     tasks s' !! i = Some (update_task FAILED json_null
       ("Execution failed: Unknown function: " ++ func_name t) (u64 (now s))
       (with_start_ts (i64 (u64 (now s))) t))).
Proof.
  intros Hk Hi. pose proof (lookup_lt_Some _ _ _ Hk) as Hlt.
  split_and!; intros Hc; [|intros Hr|intros Hr Hf].
  3: { destruct (run_to_unknown k i t s Hk Hi Hc Hr Hf) as (s1 & E1 & Hk1 & Hi1 & HC & HN).
       destruct (run_from_catch _ _ _ _ _ _ Hk1 Hi1) as (s2 & E2 & Hk2 & HC2 & Hi2).
       exists s2. split_and!; [|congruence|done|by rewrite Hi2, HN].
       etrans; [exact (run_app exec_task [StepRun k; StepRun k] [StepRun k; StepRun k] s)|].
       rewrite E1. exact E2. }
  all: cbn [exec_task]; rewrite Hk; cbn [mbind option_bind run_step]; rewrite Hi;
    cbn [mbind option_bind]; unfold run_begin; rewrite Hc; cbn [negb].
  - eexists. split_and!; try done; cbn; [by apply list_lookup_insert_eq | by rewrite (lookup_alter_at _ _ _ _ Hi)].
  - rewrite (proj2 (Z.ltb_lt _ 0) Hr). eexists.
    split_and!; try done; cbn; [by apply list_lookup_insert_eq | by rewrite (lookup_alter_at _ _ _ _ Hi)].
Qed.
End run_task.

(** ** Activations end *)

Section ends.
Context {J : Type} `{JsonLib J}.
Implicit Types (s : executor (J:=J)).

(** Steps of its own an activation has left. *)
Definition run_rank (pc : run_pc (J:=J)) : nat :=
  match pc with
  | R_begin _ => 7 | R_setup _ _ _ => 6 | R_call _ _ _ => 5 | R_catch _ _ _ => 4 | R_quota _ => 3
  | R_success _ _ _ | R_rollback _ => 2
  | R_full _ | R_arm _ | R_cancel _ => 1
  | R_done => 0
  end.
Definition own_run (k : nat) (a : exec_act (J:=J)) : bool :=
  match a with StepRun k' | FnReturn k' _ _ => Nat.eqb k' k | _ => false end.

Lemma run_rank_step a s s' :
  exec_task a s = Some s' -> forall r pc, runs s !! r = Some pc ->
  exists pc', runs s' !! r = Some pc' /\ ((if own_run r a then 1 else 0) + run_rank pc' <= run_rank pc)%nat.
Proof.
  intros E. assert (forall r' pc0 pc', runs s !! r' = Some pc0 -> (S (run_rank pc') <= run_rank pc0)%nat ->
    forall r pc, runs s !! r = Some pc -> exists pc'', <[r' := pc']> (runs s) !! r = Some pc'' /\
      ((if Nat.eqb r' r then 1 else 0) + run_rank pc'' <= run_rank pc)%nat) as Hins.
  { intros r' pc0 pc' Hr' Hrk r pc Hr. rewrite list_lookup_insert. case_decide as Hd.
    - destruct Hd as [-> _]. rewrite Nat.eqb_refl. simplify_eq. eexists. split; [done|lia].
    - destruct (Nat.eqb_spec r' r) as [->|]; [|by eauto].
      destruct Hd. split; [done|by eapply lookup_lt_Some]. }
  exec_step E; cbn [own_run set_run set_runs runs].
  all: try (intros r pc Hr; by exists pc).
  all: try (apply Hins with (1 := Hx); cbn; lia).
  intros r pc Hr. exists pc. split; [by apply lookup_app_l_Some|cbn; lia].
Qed.

Lemma run_rank_trace tr s s' k pc :
  run exec_task tr s = Some s' -> runs s !! k = Some pc ->
  exists pc', runs s' !! k = Some pc' /\ (length (filter (fun a => own_run k a = true) tr) + run_rank pc' <= run_rank pc)%nat.
Proof.
  revert s pc. induction tr as [|a tr IH]; intros s pc E Hk; cbn [run] in E.
  - simplify_eq. by exists pc.
  - apply bind_Some in E as (s1 & E1 & E). destruct (run_rank_step _ _ _ E1 _ _ Hk) as (pc1 & Hk1 & Hr).
    destruct (IH _ _ E Hk1) as (pc' & Hk' & Hr'). exists pc'. split; [done|].
    rewrite filter_cons. destruct (own_run k a); case_decide; cbn [length]; try done; lia.
Qed.

(** What the owner of a task put into it; the executor writes the other members. *)
Definition inputs (t : Task J) :=
  (task_id t, client_id t, priority t, cancelled t, func_name t, func_params t, required t, shard t,
   timeout_ms t, max_retry t, submit_ts t).
Definition updates (t t' : Task J) : Prop := inputs t' = inputs t /\ (task_wf t -> task_wf t').

Lemma updates_refl t : updates t t.
Proof. by split. Qed.

Lemma updates_trans t1 t2 t3 : updates t1 t2 -> updates t2 t3 -> updates t1 t3.
Proof. intros [H1 H2] [H3 H4]. split; [congruence|auto]. Qed.

Lemma update_task_updates st r m n t : TaskState_wf st -> updates t (update_task st r m n t).
Proof. intros Hst. split; [done|]. intros []. split; try done. by apply swrap_sfits. Qed.

Lemma start_updates n t : updates t (with_start_ts (i64 n) t).
Proof. split; [done|]. intros []. split; try done. by apply swrap_sfits. Qed.

Lemma retry_updates n t : updates t (with_retry_count (u32 n) t).
Proof. split; [done|]. intros []. split; try done. by apply wrap_fits. Qed.

Lemma report_updates o t : updates t (report_task o t).
Proof. split; [done|]. intros []. split; try done; [apply TaskState_cast_wf | by apply swrap_sfits..]. Qed.

(** Tasks keep their place and are only updated. *)
Definition tasks_keep (l l' : list (Task J)) : Prop :=
  forall i t, l !! i = Some t -> exists t', l' !! i = Some t' /\ updates t t'.

Lemma keep_refl l : tasks_keep l l.
Proof. intros i t Hi. eauto using updates_refl. Qed.

Lemma keep_trans l1 l2 l3 : tasks_keep l1 l2 -> tasks_keep l2 l3 -> tasks_keep l1 l3.
Proof.
  intros H12 H23 i t Hi. destruct (H12 _ _ Hi) as (t2 & Hi2 & Hu). destruct (H23 _ _ Hi2) as (t3 & Hi3 & Hu3).
  eauto using updates_trans.
Qed.

Lemma keep_alter (f : Task J -> Task J) i l : (forall t, updates t (f t)) -> tasks_keep l (alter f i l).
Proof.
  intros Hf j t Hj. rewrite list_lookup_alter. case_decide; [|by eauto using updates_refl].
  subst. rewrite Hj. cbn. eauto.
Qed.

Lemma keep_insert i t t' l : l !! i = Some t -> updates t t' -> tasks_keep l (<[i := t']> l).
Proof.
  intros Hi Hu j t0 Hj. destruct (decide (i = j)) as [->|].
  - rewrite list_lookup_insert_eq by (by eapply lookup_lt_Some). simplify_eq. eauto.
  - rewrite list_lookup_insert_ne by done. eauto using updates_refl.
Qed.

Definition submitted (a : exec_act (J:=J)) : list (Task J) := match a with Submit t => [t] | _ => [] end.

Lemma tasks_step a s s' :
  exec_task a s = Some s' ->
  exists l, tasks s' = (l ++ submitted a)%list /\ length l = length (tasks s) /\ tasks_keep (tasks s) l.
Proof.
  intros E.
  assert (forall st r m n i, TaskState_wf st -> tasks_keep (tasks s) (alter (update_task st r m n) i (tasks s))) as HU.
  { intros. apply keep_alter. intros. by apply update_task_updates. }
  exec_step E; cbn [submitted]; eexists; rewrite ?app_nil_r; (split; [reflexivity|]);
    (split; [cbn; by rewrite ?length_alter, ?length_insert|]); try (by apply keep_refl); try (by apply HU).
  1, 2: eapply keep_trans; [apply keep_alter; intros; apply start_updates|]; apply keep_alter; intros;
    by apply update_task_updates.
  - eapply keep_insert; [done|apply retry_updates].
  - apply keep_alter. intros. apply report_updates.
Qed.

Lemma tasks_keep_step a s s' : exec_task a s = Some s' -> tasks_keep (tasks s) (tasks s').
Proof.
  intros (l & -> & _ & HK)%tasks_step i t Hi. destruct (HK _ _ Hi) as (t' & Hi' & Hu).
  exists t'. split; [by apply lookup_app_l_Some|done].
Qed.

(** Along a trace: the tasks are the submitted ones, updated. *)
Lemma tasks_trace tr s s' l0 :
  run exec_task tr s = Some s' -> length (tasks s) = length l0 -> tasks_keep l0 (tasks s) ->
  length (tasks s') = length (l0 ++ (tr ≫= submitted))%list /\ tasks_keep (l0 ++ (tr ≫= submitted))%list (tasks s').
Proof.
  revert s l0. induction tr as [|a tr IH]; intros s l0 E Hl HK; cbn [run] in E.
  - simplify_eq. by rewrite app_nil_r.
  - apply bind_Some in E as (s1 & E1 & E). destruct (tasks_step _ _ _ E1) as (l & Hl1 & Hll & HK1).
    destruct (IH s1 (l0 ++ submitted a)%list E) as [H1 H2].
    + rewrite Hl1, !length_app. lia.
    + intros i t Hi. rewrite Hl1. apply lookup_app_Some in Hi as [Hi|[Hge Hi]].
      * destruct (keep_trans _ _ _ HK HK1 _ _ Hi) as (t' & Hi' & Hu). exists t'. split; [by apply lookup_app_l_Some|done].
      * exists t. split; [|apply updates_refl]. rewrite lookup_app_r by lia. by rewrite Hll, Hl.
    + cbn [mbind list_bind]. by rewrite app_assoc.
Qed.

(** [C21] The executor keeps the types of the tasks and their inputs: if every
    task is submitted with members of their declared widths, then so is every
    task at any time, whatever the timers and retries do, however often a task is
    submitted again, whatever flags are shared, and whatever the functions return, throw
    or store in the state, result, error message and times of their task; and the
    i-th task is the i-th one submitted, with its id, client, priority, flag,
    function, parameters, resources, shard, timeout, retry limit and submission
    time unchanged.  (Functions are taken to leave these last members alone.) *)
Theorem tasks_typed json_what cores tr s :
  run exec_task tr (TaskExecutor json_what cores) = Some s ->
  (forall t, t ∈ (tr ≫= submitted) -> task_wf t) ->
  length (tasks s) = length (tr ≫= submitted) /\
  (forall i t, tasks s !! i = Some t ->
     task_wf t /\ exists t0, (tr ≫= submitted) !! i = Some t0 /\ inputs t = inputs t0).
Proof.
  intros E Hwf. destruct (tasks_trace tr _ _ [] E eq_refl (keep_refl [])) as [HL HK]. cbn [app] in *.
  split; [done|]. intros i t Hi. destruct (lookup_lt_is_Some_2 (tr ≫= submitted) i) as [t0 Ht0].
  { rewrite <- HL. by eapply lookup_lt_Some. }
  destruct (HK _ _ Ht0) as (t' & Hi' & Hin & Hw). assert (t' = t) as -> by congruence. split; [|by eauto].
  apply Hw, Hwf. by eapply list_elem_of_lookup_2.
Qed.

(** What an activation needs to go on: its task, and the function it is in. *)
Definition act_ok s (pc : run_pc (J:=J)) : Prop :=
  match pc with
  | R_begin i | R_setup i _ _ | R_catch i _ _ | R_quota i | R_arm i => is_Some (tasks s !! i)
  | R_call i _ _ => exists t, tasks s !! i = Some t /\ is_Some (functions_ s !! func_name t)
  | _ => True
  end.
Definition acts_ok s : Prop :=
  (forall i, i ∈ queued s -> is_Some (tasks s !! i)) /\ (forall r pc, runs s !! r = Some pc -> act_ok s pc).

Lemma keep_some l l' i : tasks_keep l l' -> is_Some (l !! i) -> is_Some (l' !! i).
Proof. intros HK [t Ht]. by destruct (HK _ _ Ht) as (t' & ? & _); eauto. Qed.

Lemma act_keep s s' pc : tasks_keep (tasks s) (tasks s') -> functions_ s' = functions_ s -> act_ok s pc -> act_ok s' pc.
Proof.
  intros HT HF. destruct pc; cbn; try done; try (by apply keep_some).
  intros (t & Ht & Hf). destruct (HT _ _ Ht) as (t' & Ht' & Hin & _). exists t'. split; [done|].
  assert (func_name t' = func_name t) as -> by (unfold inputs in Hin; congruence). by rewrite HF.
Qed.

Lemma idle_done s r pc : total busy (runs s) = 0 -> runs s !! r = Some pc -> pc = R_done.
Proof.
  intros HB Hr. pose proof (total_lookup_le busy (runs s) r pc ltac:(intros []; cbn; lia) Hr) as Hle.
  destruct pc; cbn in Hle; done || lia.
Qed.

Lemma acts_step a s s' : acts_ok s -> exec_task a s = Some s' -> acts_ok s'.
Proof.
  intros [HQ HA] E. pose proof (tasks_keep_step _ _ _ E) as HK.
  assert (functions_ s' = functions_ s -> forall r pc', act_ok s' pc' ->
    forall k pc, <[r := pc']> (runs s) !! k = Some pc -> act_ok s' pc) as Hins.
  { intros HF r pc' Hpc' k0 pc Hk. apply list_lookup_insert_Some in Hk as [(_ & -> & _)|[_ Hk]]; [done|].
    eapply act_keep; eauto. }
  assert (functions_ s' = functions_ s -> forall r pc, runs s !! r = Some pc -> act_ok s' pc) as Hsame
    by (intros; eapply act_keep; eauto).
  assert (forall i, i ∈ queued s -> is_Some (tasks s' !! i)) as HQ' by (intros; eapply keep_some; eauto).
  exec_step E; (split; [try exact HQ'|]).
  all: try (by apply Hsame).
  all: try (by apply Hins).
  all: try (apply Hins; [done|]; cbn [act_ok]; eapply keep_some; [exact HK|];
    first [by eauto | exact (HA _ _ Hx) | by destruct (HA _ _ Hx) as (t0 & ? & _); eauto]).
  - intros r pc Hr. by rewrite (idle_done _ _ _ Hb Hr).
  - cbn [execute_task set_queued queued]. intros i [Hi| ->%list_elem_of_singleton]%elem_of_app; [by apply HQ'|].
    cbn. rewrite lookup_last. eauto.
  - cbn [set_runs set_queued queued]. intros i Hi. apply HQ'. eapply elem_of_submseteq; [exact Hi|apply submseteq_delete].
  - cbn [set_runs runs]. intros r pc Hr. apply lookup_app_Some in Hr as [Hr|[_ Hr]]; [by eapply Hsame|].
    apply list_lookup_singleton_Some in Hr as [_ <-]. apply HQ'. by eapply list_elem_of_lookup_2.
  - apply Hins; [done|]. destruct (HK _ _ Hx0) as (t' & Ht' & Hin & _). exists t'. split; [exact Ht'|].
    assert (func_name t' = func_name x) as -> by (unfold inputs in Hin; congruence). eauto.
  - cbn [set_timer execute_task set_queued queued]. intros i [Hi| ->%list_elem_of_singleton]%elem_of_app; [by apply HQ'|].
    eapply keep_some; [exact HK|eauto].
  - cbn [execute_task set_queued queued]. intros j [Hj| ->%list_elem_of_singleton]%elem_of_app; [by apply HQ'|]. eauto.
Qed.

Lemma reach_acts json_what cores s :
  reachable exec_task (fun s0 => s0 = TaskExecutor json_what cores) s -> acts_ok s.
Proof.
  revert s. apply reachable_invariant; [|intros; by eapply acts_step].
  intros s ->. split; [intros i Hi; by apply elem_of_nil in Hi | done].
Qed.

(** A function that is running can return. *)
Definition ends {E A} (m : outcome E A) : bool := match m with Undef _ => false | _ => true end.

Lemma act_enabled s r pc :
  act_ok s pc -> runs s !! r = Some pc -> pc <> R_done ->
  is_Some (exec_task (StepRun r) s) \/
  exists i tm seen t f c, pc = R_call i tm seen /\ tasks s !! i = Some t /\ functions_ s !! func_name t = Some f /\
    forall w, ends (f (func_params t) c w) = true -> is_Some (exec_task (FnReturn r c w) s).
Proof.
  intros Hok Hr Hne. cbn [exec_task]. rewrite Hr. cbn [mbind option_bind].
  destruct pc as [i|i tm n|i tm seen|i tm res|i tm e|i|i|i|i|tm|]; try done; try (left; cbn; by eauto).
  1, 2, 4, 5: destruct Hok as [t Ht]; left; cbn [run_step]; rewrite Ht; cbn; by eauto.
  destruct Hok as (t & Ht & [f Hf]). right. exists i, tm, seen, t, f, (if seen then Some O else None).
  split_and!; try done. intros w Hw. unfold fn_return. rewrite Hr. cbn [mbind option_bind]. rewrite Ht.
  cbn [mbind option_bind]. unfold TaskFunction in *. rewrite Hf. cbn [mbind option_bind].
  destruct seen; [|destruct (flag_of t s)]; rewrite ?bool_decide_true by done;
    destruct (f _ _ w); try done; cbn; by eauto.
Qed.

(** [C37] Every activation of [run_task] ends: whatever the other activations, the
    timers and the clients do in between, it takes at most seven steps of its
    own, and as long as it has not returned it has a step to take, or is inside
    the registered function and returns with it. *)
Theorem run_task_terminates json_what cores tr s s' r pc :
  reachable exec_task (fun s0 => s0 = TaskExecutor json_what cores) s ->
  runs s !! r = Some pc -> run exec_task tr s = Some s' ->
  exists pc', runs s' !! r = Some pc' /\
    (length (filter (fun a => own_run r a = true) tr) + run_rank pc' <= run_rank pc <= 7)%nat /\
    (pc' = R_done \/ is_Some (exec_task (StepRun r) s') \/
     exists i tm seen t f c, pc' = R_call i tm seen /\ tasks s' !! i = Some t /\
       functions_ s' !! func_name t = Some f /\
       forall w, ends (f (func_params t) c w) = true -> is_Some (exec_task (FnReturn r c w) s')).
Proof.
  intros Hreach Hr E. destruct (run_rank_trace _ _ _ _ _ E Hr) as (pc' & Hr' & Hrk). exists pc'.
  split_and!; [done|done|destruct pc; cbn; lia|].
  assert (acts_ok s') as [_ HA] by (by eapply reach_acts, run_reachable).
  destruct pc'; try (by left); right; by eapply (act_enabled _ _ _ (HA _ _ Hr')).
Qed.
End ends.

(** ** Traces *)

Module ExecutorTraces.
Import JsonModel.

Definition what0 (_ : json_exn) : string := "json exception".
Definition start : executor (J:=jtree) := TaskExecutor what0 8.

(** A function that refuses the connection on its first call only. *)
Definition flaky : TaskFunction (J:=jtree) := fun _ _ world =>
  match world with
  | O => Throw (system_error connection_refused "Connection refused")
  | _ => Ret (JObj [("result", JStr "ok")])
  end.

Definition job (name : string) (max : Z) : Task jtree :=
  mkTask "t1" "c1" 0 PENDING (Some 1%positive) name (JObj [("n", JUint 10)])
    (mkResource (double_of_Z 1) 1024) (mkShard 0 1) 10000 max 0 0 0 0 JNull "".

(** State, result, message and retry counter of task 0 after a trace. *)
Definition view (tr : list (exec_act (J:=jtree))) : option (TaskState * jtree * string * Z) :=
  s ← run exec_task tr start; (fun t => (state t, result t, error_msg t, retry_count t)) <$> tasks s !! 0%nat.

(** The first call fails and is retried; the second one succeeds. *)
Definition retried : list (exec_act (J:=jtree)) :=
  [Register "flaky" flaky; Submit (job "flaky" 5); StartRun 0; StepRun 0; StepRun 0; FnReturn 0 None 0;
   StepRun 0; StepRun 0; StepRun 0; Tick 1000; Expire 1; Handle 1;
   StartRun 0; StepRun 1; StepRun 1; FnReturn 1 None 1; StepRun 1; StepRun 1].

Definition timed_out_late : list (exec_act (J:=jtree)) := [Tick 9000; Expire 0; Handle 0; Handle 0].

(** The retry path leaves the first attempt's execution timer running: a
    task that was retried and finished with SUCCESS is overwritten with TIMEOUT,
    its result lost, when the original deadline comes. *)
Lemma stale_timer_overwrites_success :
  view retried = Some (SUCCESS, JObj [("result", JStr "ok")], "", 1) /\
  view (retried ++ timed_out_late) = Some (TIMEOUT, JNull, "Execution timeout", 1).
Proof. split; vm_compute; reflexivity. Qed.

(** A function that polls the flag as the built-in one does. *)
Definition polite : TaskFunction (J:=jtree) := fun _ cancel_at _ =>
  match cancel_at with
  | Some _ => Ret (JObj [("result", JStr "cancelled")])
  | None => Ret (JObj [("result", JStr "ok")])
  end.

(** The deadline passes during the call; the handler has run. *)
Definition deadline : list (exec_act (J:=jtree)) :=
  [Register "sleep" polite; Submit (job "sleep" 0); StartRun 0; StepRun 0; StepRun 0;
   Tick 10000; Expire 0; Handle 0; Handle 0].
Definition cooperative_return : list (exec_act (J:=jtree)) :=
  [FnReturn 0 (Some 3%nat) 0; StepRun 0; StepRun 0].

(** A timed-out task does not stay timed out: the handler stores TIMEOUT and
    sets the flag, a function that honours the flag then returns normally, and
    [run_task] stores SUCCESS over the verdict. *)
Lemma timeout_overwritten_by_success :
  view deadline = Some (TIMEOUT, JNull, "Execution timeout", 0) /\
  view (deadline ++ cooperative_return) = Some (SUCCESS, JObj [("result", JStr "cancelled")], "", 0).
Proof. split; vm_compute; reflexivity. Qed.

Lemma fib_correct_witness :
  fib what0 (JObj [("n", JUint 10)]) None 0 = Ret (JObj [("result", json_of_int 55)]).
Proof.
  exact (proj1 (proj2 (fib_correct what0 (JObj [("n", JUint 10)]) 10 None 0 eq_refl))
    ltac:(lia)).
Defined.

Definition at_retry : executor (J:=jtree) := default start (run exec_task (take 9 retried) start).

Lemma retry_quota_witness :
  retrying_cnt at_retry =
    total retry_pending (timers at_retry) + total arming (runs at_retry) + total rolling_back (runs at_retry) /\
  0 <= retrying_cnt at_retry /\ total retry_pending (timers at_retry) <= MAX_CONCURRENT_RETRY.
Proof.
  apply (retry_quota what0 8); [unfold MAX_CONCURRENT_RETRY; lia|].
  apply default_reachable; [done | vm_compute; reflexivity].
Defined.

Definition after_retry : executor (J:=jtree) := default start (run (exec_bounded (J:=jtree)) retried start).

Lemma retry_bound_witness :
  match tasks after_retry !! 0%nat with
  | Some t =>
      total (is_task 0) (calls after_retry) <= retry_count t + 1 /\
      0 <= retry_count t <= max_retry t /\
      total (is_task 0) (queued after_retry) + total (in_flight 0) (runs after_retry)
        + total (retry_timer_of 0) (timers after_retry) <= 1
  | None => False
  end.
Proof.
  destruct (tasks after_retry !! 0%nat) as [t|] eqn:E; [|vm_compute in E; discriminate E].
  apply (retry_bound 0 what0 8 after_retry t); [|exact E].
  apply default_reachable; [done | vm_compute; reflexivity].
Defined.

Lemma job_wf : task_wf (job "flaky" 5).
Proof. split; vm_compute; intuition congruence. Qed.

Definition finished : executor (J:=jtree) := default start (run exec_task retried start).

Lemma tasks_typed_witness :
  length (tasks finished) = 1%nat /\
  forall i t, tasks finished !! i = Some t ->
    task_wf t /\ exists t0, [job "flaky" 5] !! i = Some t0 /\ inputs t = inputs t0.
Proof.
  apply (tasks_typed what0 8 retried finished).
  - apply run_default. vm_compute. reflexivity.
  - intros t Ht. apply list_elem_of_singleton in Ht. rewrite Ht. exact job_wf.
Defined.

(** The first activation of the retried task, from its start to its end. *)
Definition started : executor (J:=jtree) := default start (run exec_task (take 3 retried) start).
Definition after_first : executor (J:=jtree) := default start (run exec_task (take 6 (drop 3 retried)) started).

Lemma run_task_terminates_witness :
  exists pc', runs after_first !! 0%nat = Some pc' /\ (6 + run_rank pc' <= 7)%nat.
Proof.
  destruct (run_task_terminates what0 8 (take 6 (drop 3 retried)) started after_first 0 (R_begin 0))
    as (pc' & H1 & [H2 _] & _).
  - apply default_reachable; [done | vm_compute; reflexivity].
  - vm_compute. reflexivity.
  - apply run_default. vm_compute. reflexivity.
  - exists pc'. exact (conj H1 H2).
Defined.

(** A submitted task whose activation has begun. *)
Definition begun (t : Task jtree) : executor (J:=jtree) :=
  default start (run exec_task [Submit t; StartRun 0] start).

Lemma run_task_completes_witness :
  exists s',
    run exec_task [StepRun 0; StepRun 0; FnReturn 0 None 0; StepRun 0; StepRun 0] (begun (job "fib" 0)) = Some s' /\
    tasks s' !! 0%nat = Some (update_task SUCCESS (JObj [("result", json_of_int 55)]) "" 0
                                (with_start_ts 0 (job "fib" 0))) /\
    runs s' !! 0%nat = Some R_done /\
    timers s' = [mkTimer (ExecTimer 0) 10000 Aborted].
Proof.
  apply (run_task_completes 0 0 (job "fib" 0) (fib what0) 0 SUCCESS (JObj [("result", json_of_int 55)]) ""
    (begun (job "fib" 0))); try reflexivity. done.
Defined.

Lemma run_task_rejects_witness :
  exists s', run exec_task [StepRun 0; StepRun 0; StepRun 0; StepRun 0] (begun (job "nope" 0)) = Some s' /\
    calls s' = [] /\ runs s' !! 0%nat = Some R_done /\
    tasks s' !! 0%nat = Some (update_task FAILED JNull "Execution failed: Unknown function: nope" 0
                                (with_start_ts 0 (job "nope" 0))).
Proof.
  destruct (run_task_rejects 0 0 (job "nope" 0) (begun (job "nope" 0)) eq_refl eq_refl) as (_ & _ & H).
  apply H; try reflexivity. done.
Defined.
End ExecutorTraces.
