(* ===== verification/ExecutorPool.v ===== *)
(** * The executor on its thread pool

    [TaskExecutor::execute_task] hands a closure to [ThreadPool::enqueue], and a
    worker that pops the closure is inside [run_task] until it returns.  Here the
    machine of TaskExecutor.v and the machine of ThreadPool.v run side by side:
    a call of [execute_task] starts a call of [enqueue], the pop of a worker starts
    an activation, and the worker leaves its closure when the activation is over.
    The closures of the pool are the indices of the tasks.

    TaskExecutor.v assumes of the pool that a closure handed to it is started at
    most once and that an activation occupies a thread; the refinement below
    proves both of the pool in ThreadPool.v. *)

From S2P Require Import Prelude.
From S2P Require Import Json.
From S2P Require Import Task.
From S2P Require Import Convert.
From S2P Require Import ThreadPool.
From S2P Require Import TaskExecutor.
#[local] Open Scope Z_scope.

Section system.
Context {J : Type} `{JsonLib J}.
Context {Q : Type} `{LockFreeQueue Q nat}.
Context (sem_release : semaphore).

Record system := mkSystem {
  ex : executor (J := J);
  tp : pool Q nat;                 (* thread_pool_ *)
  works : list (option nat);       (* the activation each worker is in *)
}.
Implicit Types (s : system) (w : nat).

(** The closures a step of the executor hands to the pool: lines 37 and 111. *)
Definition enqueues (a : exec_act (J := J)) (e : executor (J := J)) : list nat :=
  match a with
  | Submit _ => [length (tasks e)]
  | Resubmit i => [i]
  | Handle m =>
      match timers e !! m with
      | Some (mkTimer (RetryTimer i) _ Expired) => [i]
      | _ => []
      end
  | _ => []
  end.

(** Where closure [i] stands in [l]. *)
Definition position (i : nat) (l : list nat) : option nat := fst <$> list_find (eq i) l.

(** The closure of task [i] starts: lines 37 to 39.  Nothing is asked of the
    executor; that the closure was handed over and that a thread is free is what
    the pool has to provide. *)
Definition begin_run (i : nat) (e : executor (J := J)) : executor (J := J) :=
  set_runs (runs e ++ [R_begin i])
    (set_queued (match position i (queued e) with Some j => delete j (queued e) | None => queued e end) e).

Inductive sys_act :=
| S_exec (a : exec_act (J := J))   (* a step of the executor other than starting a closure *)
| S_worker w
| S_timeout w
| S_caller (c : nat)
| S_destroy.                       (* the destructor of thread_pool_ *)

Definition sys_worker w s : option system :=
  pc ← threads_ (tp s) !! w;
  p ← exec sem_release (StepWorker w) (tp s);
  match pc with
  | W_pop =>
      match q_pop (queue_ (tp s)) with
      | Some (i, _) => Some (mkSystem (begin_run i (ex s)) p (<[w := Some (length (runs (ex s)))]> (works s)))
      | None => Some (mkSystem (ex s) p (works s))
      end
  | W_run _ =>
      k ← mjoin (works s !! w);
      match runs (ex s) !! k with
      | Some R_done => Some (mkSystem (ex s) p (<[w := None]> (works s)))
      | _ => None
      end
  | _ => Some (mkSystem (ex s) p (works s))
  end.

Definition sys_exec (a : sys_act) s : option system :=
  match a with
  | S_exec (StartRun _) => None
  | S_exec a =>
      e ← exec_task a (ex s);
      p ← run (exec sem_release) ((fun i => Call (OpEnqueue i)) <$> enqueues a (ex s)) (tp s);
      Some (mkSystem e p (works s))
  | S_worker w => sys_worker w s
  | S_timeout w => p ← exec sem_release (Timeout w) (tp s); Some (mkSystem (ex s) p (works s))
  | S_caller c => p ← exec sem_release (StepCaller c) (tp s); Some (mkSystem (ex s) p (works s))
  | S_destroy => p ← exec sem_release (Call OpDestroy) (tp s); Some (mkSystem (ex s) p (works s))
  end.

(** The constructor: [hardware_concurrency()] workers, the default capacity. *)
Definition system_init (json_what : json_exn -> string) (cores : nat) : system :=
  mkSystem (TaskExecutor json_what (Z.of_nat cores)) (ThreadPool cores 1024) (replicate cores None).
End system.
Arguments system : clear implicits.
Arguments sys_act : clear implicits.

(** ** What each machine does in a step *)

Section effects.
Context {J : Type} `{JsonLib J}.
Implicit Types (e : executor (J := J)).

(** The task an activation still works on. *)
Definition pc_task (pc : run_pc (J := J)) : option nat :=
  match pc with
  | R_begin i | R_setup i _ _ | R_call i _ _ | R_success i _ _ | R_catch i _ _ | R_quota i | R_rollback i
  | R_full i | R_arm i => Some i
  | R_cancel _ | R_done => None
  end.

Definition starts (a : exec_act (J := J)) : bool := match a with StartRun _ => true | _ => false end.

(** How an activation moves on: it does not begin again, and keeps its task. *)
Definition goes (pc pc' : run_pc (J := J)) : Prop :=
  (busy pc' = 1 -> busy pc = 1) /\ (forall i, pc_task pc' = Some i -> pc_task pc = Some i).

Lemma goes_refl pc : goes pc pc.
Proof. by split. Qed.

(** A step that starts no closure: no activation begins, and the closures handed
    to the pool wait behind the others. *)
Lemma exec_effect a e e' :
  exec_task a e = Some e' -> starts a = false ->
  queued e' = queued e ++ enqueues a e /\ pool_threads e' = pool_threads e /\
  length (runs e') = length (runs e) /\
  (forall k pc', runs e' !! k = Some pc' -> exists pc, runs e !! k = Some pc /\ goes pc pc').
Proof.
  intros E Hs. assert (forall k pc pc', runs e !! k = Some pc -> goes pc pc' ->
    forall k' pc'', <[k := pc']> (runs e) !! k' = Some pc'' -> exists pc, runs e !! k' = Some pc /\ goes pc pc'') as Hins.
  { intros k pc pc' Hk Hg k' pc'' Hk'. apply list_lookup_insert_Some in Hk' as [(<- & <- & _)|[_ Hk']]; eauto using goes_refl. }
  assert (forall k pc, runs e !! k = Some pc -> exists pc', runs e !! k = Some pc' /\ goes pc' pc) as Hid
    by eauto using goes_refl.
  exec_step E; cbn [enqueues]; cbn; rewrite ?app_nil_r, ?length_insert; try done.
  all: split_and!; try done.
  all: try (eapply Hins; [exact Hx|by split]).
  all: rewrite Hx; destruct x as [[] ? []]; simplify_eq/=; by rewrite ?app_nil_r.
Qed.

Lemma start_effect j e e' :
  exec_task (StartRun j) e = Some e' ->
  exists i, queued e !! j = Some i /\ queued e' = delete j (queued e) /\ runs e' = runs e ++ [R_begin i] /\
    pool_threads e' = pool_threads e.
Proof. intros E. cbn [exec_task] in E. open_step E. eauto. Qed.
End effects.

Section pool_effects.
Context {Q : Type} `{LockFreeQueueLaws Q nat}.
Context (sem_release : semaphore).
Implicit Types (p : pool Q nat).

(** The closures handed to [enqueue] that no worker has popped. *)
Definition waiting (pc : caller_pc nat) : list nat :=
  match pc with C_enqueue i | C_push i | C_recheck i => [i] | _ => [] end.
Definition backlog p : list nat := gather waiting (callers p) ++ contents (queue_ p).

(** What a worker takes from the queue. *)
Definition takes (a : pool_act nat) p : list nat :=
  match a with
  | StepWorker w =>
      match threads_ p !! w, q_pop (queue_ p) with Some W_pop, Some (i, _) => [i] | _, _ => [] end
  | _ => []
  end.
Definition gives (a : pool_act nat) : list nat :=
  match a with Call (OpEnqueue i) => [i] | _ => [] end.

(** Nothing else gets into the backlog; the destructor and a stopped [enqueue]
    drop closures from it. *)
Lemma backlog_step a p p' :
  exec sem_release a p = Some p' -> takes a p ++ backlog p' ⊆+ gives a ++ backlog p.
Proof.
  intros E. unfold backlog. pool_step E; cbn; rewrite ?Hpc; cbn; try done.
  all: try (match goal with Hc : callers _ !! _ = Some ?pc |- context [gather _ (<[_ := ?pc']> _)] =>
    first [rewrite (gather_insert_same waiting _ _ _ pc' Hc eq_refl)
          |pose proof (gather_insert_drop waiting _ _ _ pc' _ Hc eq_refl eq_refl) as HG] end).
  all: try (by rewrite <- HG; apply submseteq_cons). all: try done.
  - rewrite gather_app. unfold gather at 2. cbn. rewrite app_nil_r. destruct op; cbn; rewrite ?app_nil_r; try done.
    rewrite <- app_assoc. cbn. by rewrite <- Permutation_middle.
  - match goal with Hq : q_pop _ = Some _ |- _ => rewrite Hq; apply contents_pop in Hq as -> end.
    by rewrite <- Permutation_middle.
  - match goal with Hq : q_pop _ = None |- _ => by rewrite Hq end.
  - match goal with Hq : q_push _ _ = Some _ |- _ => apply contents_push in Hq as -> end.
    by rewrite <- HG, app_assoc, Permutation_app_comm.
  - match goal with Hq : q_pop _ = Some _ |- _ => apply contents_pop in Hq as -> end.
    apply submseteq_app; [done|]. by apply submseteq_cons.
Qed.

(** A worker's step concerns that worker. *)
Lemma worker_effect a w p p' :
  exec sem_release a p = Some p' -> a = StepWorker w \/ a = Timeout w ->
  exists pc', threads_ p' = <[w := pc']> (threads_ p) /\ running pc' = takes a p /\ callers p' = callers p /\
    popped p' = popped p ++ takes a p /\ dropped p' = dropped p.
Proof.
  intros E Ha. pool_step E; cbn; rewrite ?Hpc; cbn;
    destruct Ha as [Ha|Ha]; simplify_eq;
    try match goal with Hq : q_pop _ = _ |- _ => rewrite Hq end;
    eexists; rewrite ?app_nil_r; done.
Qed.

(** The calls the executor makes do not add threads. *)
Definition keeps_workers (pc : caller_pc nat) : Prop := match pc with C_add _ | C_spawn _ => False | _ => True end.

Lemma caller_effect a p p' :
  exec sem_release a p = Some p' -> Forall keeps_workers (callers p) ->
  match a with StepCaller _ | Call (OpEnqueue _) | Call OpDestroy => True | _ => False end ->
  threads_ p' = threads_ p /\ Forall keeps_workers (callers p') /\ takes a p = [] /\
  (length (popped p') + length (dropped p) = length (popped p) + length (dropped p'))%nat.
Proof.
  intros E HF Ha.
  assert (forall i pc, callers p !! i = Some pc -> keeps_workers pc) as HF' by (intros; by eapply Forall_lookup_1 in HF).
  pool_step E; cbn; try done; try (by apply HF' in Hpc);
    rewrite ?length_app; cbn; (split_and!; [done| |done|lia]);
    first [by apply Forall_insert | apply Forall_app; split; [done|]; repeat constructor; by destruct op].
Qed.
End pool_effects.

(** ** The two machines in step *)

(** Whether a worker is in an activation. *)
Definition assigned (o : option nat) : Z := match o with Some _ => 1 | None => 0 end.

Section inv.
Context {J : Type} `{JsonLib J}.
Context {Q : Type} `{LockFreeQueueLaws Q nat}.
Context (sem_release : semaphore) (json_what : json_exn -> string) (cores : nat).
Implicit Types (s : system J Q) (e : executor (J := J)) (p : pool Q nat).

Record sys_inv s : Prop := {
  s_ex : reachable exec_task (fun e => e = TaskExecutor json_what (Z.of_nat cores)) (ex s);
  s_tp : reachable (exec sem_release) (fun p => p = ThreadPool cores 1024) (tp s);
  s_threads : pool_threads (ex s) = Z.of_nat (length (threads_ (tp s)));
  s_callers : Forall keeps_workers (callers (tp s));
  s_queue : backlog (tp s) ⊆+ queued (ex s);
  s_len : length (works s) = length (threads_ (tp s));
  s_works : forall w pc o, threads_ (tp s) !! w = Some pc -> works s !! w = Some o -> (o = None <-> running pc = []);
  s_busy : forall k pc, runs (ex s) !! k = Some pc -> busy pc = 1 -> Some k ∈ works s;
  s_range : forall k, Some k ∈ works s -> (k < length (runs (ex s)))%nat;
  s_distinct : forall w w' k, works s !! w = Some (Some k) -> works s !! w' = Some (Some k) -> w = w';
  s_task : forall w i k pc i', threads_ (tp s) !! w = Some (W_run i) -> works s !! w = Some (Some k) ->
             runs (ex s) !! k = Some pc -> pc_task pc = Some i' -> i' = i;
  s_count : (length (runs (ex s)) + length (dropped (tp s)) = length (popped (tp s)))%nat;
}.

Lemma total_assigned_perm (l k : list (option nat)) : l ≡ₚ k -> total assigned l = total assigned k.
Proof. induction 1; cbn; lia. Qed.

(** Every activation that is not over has a worker of its own. *)
Lemma busy_count (rs : list (run_pc (J := J))) (ws : list (option nat)) :
  (forall k pc, rs !! k = Some pc -> busy pc = 1 -> Some k ∈ ws) -> total busy rs <= total assigned ws.
Proof.
  revert ws. induction rs as [|pc rs IH] using rev_ind; intros ws Hb; cbn.
  - apply total_nonneg. intros []; cbn; lia.
  - rewrite total_app. cbn. destruct (decide (busy pc = 1)) as [Hpc|Hpc].
    + assert (Some (length rs) ∈ ws) as Hin by (eapply Hb; [apply lookup_last|done]).
      apply elem_of_Permutation in Hin as [ws' HP]. rewrite (total_assigned_perm _ _ HP). cbn.
      specialize (IH ws'). rewrite Hpc. enough (total busy rs <= total assigned ws') by lia. apply IH.
      intros k pc' Hk Hpc'. assert (Some k ∈ ws) as Hin by (eapply Hb; [by apply lookup_app_l_Some|done]).
      rewrite HP in Hin. apply elem_of_cons in Hin as [[= ->]|Hin]; [|done].
      apply lookup_lt_Some in Hk. lia.
    + assert (busy pc = 0) as -> by (destruct pc; done). rewrite !Z.add_0_r. apply IH.
      intros k pc' Hk. apply Hb. by apply lookup_app_l_Some.
Qed.

Lemma position_spec i l : i ∈ l -> exists j, position i l = Some j /\ l !! j = Some i.
Proof.
  intros Hi. unfold position. destruct (list_find_elem_of (eq i) l i Hi eq_refl) as [[j x] Hj].
  rewrite Hj. apply list_find_Some in Hj as (Hl & <- & _). eauto.
Qed.

Lemma position_lookup i j l : position i l = Some j -> l !! j = Some i.
Proof.
  unfold position. intros ([j' x] & Hj & ->)%fmap_Some. by apply list_find_Some in Hj as (Hl & <- & _).
Qed.

(** A worker that is not in an activation leaves a thread for one more. *)
Lemma thread_free s w pc :
  sys_inv s -> threads_ (tp s) !! w = Some pc -> running pc = [] -> total busy (runs (ex s)) < pool_threads (ex s).
Proof.
  intros HI Hw Hpc. destruct (lookup_lt_is_Some_2 (works s) w) as [o Ho].
  { rewrite (s_len _ HI). by eapply lookup_lt_Some. }
  assert (o = None) as -> by (by apply (s_works _ HI _ _ _ Hw Ho)).
  pose proof (busy_count _ _ (s_busy _ HI)) as HB.
  assert (total assigned (works s) <= Z.of_nat (length (works s)) - 1) as HA.
  { pose proof (total_insert assigned _ _ _ (Some 0%nat) Ho) as HT. cbn in HT.
    pose proof (total_const_le assigned (<[w := Some 0%nat]> (works s)) 1) as HC.
    rewrite length_insert in HC. specialize (HC ltac:(intros []; cbn; lia) ltac:(lia)). lia. }
  rewrite (s_threads _ HI), <- (s_len _ HI). lia.
Qed.

(** The closure a worker pops is one the executor has handed over: beginning it
    is the executor machine's [StartRun]. *)
Lemma pop_starts s w i q :
  sys_inv s -> threads_ (tp s) !! w = Some W_pop -> q_pop (queue_ (tp s)) = Some (i, q) ->
  exists j, position i (queued (ex s)) = Some j /\ exec_task (StartRun j) (ex s) = Some (begin_run i (ex s)).
Proof.
  intros HI Hw Hq. assert (i ∈ queued (ex s)) as Hi.
  { eapply elem_of_submseteq; [|apply (s_queue _ HI)]. apply contents_pop in Hq. unfold backlog. rewrite Hq. set_solver. }
  destruct (position_spec _ _ Hi) as (j & Hj & Hl). exists j. split; [done|]. cbn [exec_task]. rewrite Hl.
  cbn [mbind option_bind]. unfold begin_run. rewrite Hj.
  rewrite (proj2 (Z.ltb_lt _ _)); [reflexivity|]. by eapply thread_free.
Qed.

(** A call on the pool in progress moves on, or a new one begins. *)
Lemma inv_caller s a e' p' :
  sys_inv s -> exec sem_release a (tp s) = Some p' ->
  match a with StepCaller _ | Call (OpEnqueue _) | Call OpDestroy => True | _ => False end ->
  reachable exec_task (fun e => e = TaskExecutor json_what (Z.of_nat cores)) e' ->
  pool_threads e' = pool_threads (ex s) -> queued e' = queued (ex s) ++ gives a ->
  length (runs e') = length (runs (ex s)) ->
  (forall k pc', runs e' !! k = Some pc' -> exists pc, runs (ex s) !! k = Some pc /\ goes pc pc') ->
  sys_inv (mkSystem e' p' (works s)).
Proof.
  intros HI E Ha He Hp Hq Hl Hb. destruct (caller_effect _ _ _ _ E (s_callers _ HI) Ha) as (Ht & Hc & Htk & Hn).
  pose proof (backlog_step _ _ _ _ E) as HB. rewrite Htk in HB. cbn in HB.
  split; cbn; rewrite ?Ht; try done; try apply HI.
  - eapply reach_step; [apply HI|exact E].
  - rewrite Hp. apply HI.
  - rewrite Hq, HB, Permutation_app_comm. apply submseteq_app; [apply HI|done].
  - intros k pc' Hk Hpc. destruct (Hb _ _ Hk) as (pc & Hk' & Hg). eapply (s_busy _ HI); [done|by apply Hg].
  - rewrite Hl. apply HI.
  - intros w i k pc i' Hw Hk Hpc Hi. destruct (Hb _ _ Hpc) as (pc0 & Hpc0 & Hg).
    by eapply (s_task _ HI); [..|apply Hg].
  - rewrite Hl. pose proof (s_count _ HI). lia.
Qed.

(** The executor moves on and hands no closure over. *)
Lemma inv_executor s e' :
  sys_inv s -> reachable exec_task (fun e => e = TaskExecutor json_what (Z.of_nat cores)) e' ->
  pool_threads e' = pool_threads (ex s) -> queued e' = queued (ex s) ->
  length (runs e') = length (runs (ex s)) ->
  (forall k pc', runs e' !! k = Some pc' -> exists pc, runs (ex s) !! k = Some pc /\ goes pc pc') ->
  sys_inv (mkSystem e' (tp s) (works s)).
Proof.
  intros HI He Hp Hq Hl Hb. split; cbn; rewrite ?Hp, ?Hq, ?Hl; try done; try apply HI.
  2: { intros w i k pc i' Hw Hk Hpc Hi. destruct (Hb _ _ Hpc) as (pc0 & Hpc0 & Hg).
       by eapply (s_task _ HI); [..|apply Hg]. }
  intros k pc' Hk Hpc. destruct (Hb _ _ Hk) as (pc & Hk' & Hg). eapply (s_busy _ HI); [done|by apply Hg].
Qed.

Lemma enqueues_one a e : enqueues a e = [] \/ exists i, enqueues a e = [i].
Proof. destruct a; cbn; eauto. repeat case_match; eauto. Qed.

Lemma inv_exec s a e' p' :
  sys_inv s -> starts a = false -> exec_task a (ex s) = Some e' ->
  run (exec sem_release) ((fun i => Call (OpEnqueue i)) <$> enqueues a (ex s)) (tp s) = Some p' ->
  sys_inv (mkSystem e' p' (works s)).
Proof.
  intros HI Ha E Hrun. destruct (exec_effect _ _ _ E Ha) as (Hq & Hp & Hl & Hb).
  assert (reachable exec_task (fun e => e = TaskExecutor json_what (Z.of_nat cores)) e') as He
    by (eapply reach_step; [apply HI|exact E]).
  destruct (enqueues_one a (ex s)) as [Hn|[i Hn]]; rewrite Hn in Hq, Hrun; cbn [fmap list_fmap run] in Hrun.
  - rewrite app_nil_r in Hq. simplify_eq. by apply inv_executor.
  - apply bind_Some in Hrun as (p1 & Hp1 & ?). simplify_eq. by eapply (inv_caller s (Call (OpEnqueue i))).
Qed.

(** A worker that neither takes a closure nor finishes one. *)
Lemma inv_worker_plain s w a pc p' :
  sys_inv s -> threads_ (tp s) !! w = Some pc -> running pc = [] -> takes a (tp s) = [] ->
  a = StepWorker w \/ a = Timeout w -> exec sem_release a (tp s) = Some p' ->
  sys_inv (mkSystem (ex s) p' (works s)).
Proof.
  intros HI Hw Hpc Htk Ha E. destruct (worker_effect _ _ _ _ _ E Ha) as (pc' & Ht & Hr & Hc & Hpop & Hd).
  pose proof (backlog_step _ _ _ _ E) as HB. rewrite Htk in *. cbn in HB.
  assert (gives a = []) as Hg by (by destruct Ha; subst). rewrite Hg in HB.
  split; cbn; rewrite ?Ht, ?Hc, ?length_insert, ?Hd; try apply HI.
  - eapply reach_step; [apply HI|exact E].
  - etrans; [exact HB|apply HI].
  - intros u pcu o Hu Ho. apply list_lookup_insert_Some in Hu as [(-> & <- & _)|[_ Hu]]; [|by eapply (s_works _ HI)].
    rewrite Hr, (s_works _ HI _ _ _ Hw Ho), Hpc. done.
  - intros u i k pcu i' Hu. apply list_lookup_insert_Some in Hu as [(_ & Hu & _)|[_ Hu]]; [by subst|by apply (s_task _ HI u)].
  - rewrite Hpop, app_nil_r. apply HI.
Qed.

(** A worker pops a closure and enters [run_task]. *)
Lemma inv_worker_pop s w i q p' :
  sys_inv s -> threads_ (tp s) !! w = Some W_pop -> q_pop (queue_ (tp s)) = Some (i, q) ->
  exec sem_release (StepWorker w) (tp s) = Some p' ->
  sys_inv (mkSystem (begin_run i (ex s)) p' (<[w := Some (length (runs (ex s)))]> (works s))).
Proof.
  intros HI Hw Hq E. destruct (pop_starts _ _ _ _ HI Hw Hq) as (j & Hj%position_lookup & Ee).
  destruct (worker_effect _ _ _ _ _ E ltac:(by left)) as (pc' & Ht & Hr & Hc & Hpop & Hd).
  pose proof (backlog_step _ _ _ _ E) as HB. cbn [takes gives] in *. rewrite Hw, Hq in *.
  destruct (start_effect _ _ _ Ee) as (i' & Hi' & Hqd & Hru & Hpt). simplify_eq.
  pose proof (s_len _ HI) as Hlen. pose proof (s_range _ HI) as Hran.
  assert (w < length (works s))%nat as Hlt by (rewrite Hlen; by eapply lookup_lt_Some).
  assert (works s !! w = Some None) as Hwn.
  { destruct (lookup_lt_is_Some_2 _ _ Hlt) as [o Ho]. by rewrite Ho, (proj2 (s_works _ HI _ _ _ Hw Ho)). }
  set (e' := begin_run i (ex s)) in *. clearbody e'.
  split; cbn; rewrite ?Ht, ?Hc, ?length_insert, ?Hd, ?Hpt, ?Hru, ?Hpop, ?length_app; try apply HI.
  - eapply reach_step; [apply HI|exact Ee].
  - eapply reach_step; [apply HI|exact E].
  - apply (submseteq_app_inv_l _ _ [i]). rewrite HB, Hqd. cbn. rewrite <- delete_Permutation by done. apply HI.
  - intros u pcu o Hu Ho. apply list_lookup_insert_Some in Hu as [(-> & <- & _)|[Hne Hu]].
    + rewrite list_lookup_insert_eq in Ho by done. rewrite Hr. by simplify_eq.
    + rewrite list_lookup_insert_ne in Ho by done. by eapply (s_works _ HI).
  - intros k pc Hk Hb. apply lookup_app_Some in Hk as [Hk|[Hk Hk']].
    + apply (s_busy _ HI) in Hk; [|done]. apply list_elem_of_lookup in Hk as [u Hu].
      apply (list_elem_of_lookup_2 _ u). rewrite list_lookup_insert_ne; [done|]. intros ->. congruence.
    + apply list_lookup_singleton_Some in Hk' as [Hk0 _]. apply (list_elem_of_lookup_2 _ w).
      rewrite list_lookup_insert_eq by done. do 2 f_equal. lia.
  - intros k Hk. apply list_elem_of_lookup in Hk as [u Hu]. cbn.
    apply list_lookup_insert_Some in Hu as [(_ & [= ->] & _)|[_ Hu]]; [lia|].
    apply list_elem_of_lookup_2, Hran in Hu. lia.
  - intros u u' k Hu Hu'. apply list_lookup_insert_Some in Hu as [(<- & Hk & _)|[_ Hu]];
      apply list_lookup_insert_Some in Hu' as [(<- & Hk' & _)|[_ Hu']]; try done; simplify_eq.
    + apply list_elem_of_lookup_2, Hran in Hu'. lia.
    + apply list_elem_of_lookup_2, Hran in Hu. lia.
    + by eapply (s_distinct _ HI).
  - intros u i0 k pcu i' Hu Hk Hpc Hi0. apply list_lookup_insert_Some in Hu as [(<- & Hru0 & _)|[Hne Hu]]; [subst pc'|].
    + rewrite list_lookup_insert_eq in Hk by done. simplify_eq. rewrite lookup_last in Hpc. by simplify_eq/=.
    + rewrite list_lookup_insert_ne in Hk by done. pose proof (list_elem_of_lookup_2 _ _ _ Hk) as Hin%Hran.
      rewrite lookup_app_l in Hpc by done. by eapply (s_task _ HI).
  - pose proof (s_count _ HI). cbn. lia.
Qed.

(** The activation is over and the worker leaves the closure. *)
Lemma inv_worker_done s w i k p' :
  sys_inv s -> threads_ (tp s) !! w = Some (W_run i) -> works s !! w = Some (Some k) ->
  runs (ex s) !! k = Some R_done -> exec sem_release (StepWorker w) (tp s) = Some p' ->
  sys_inv (mkSystem (ex s) p' (<[w := None]> (works s))).
Proof.
  intros HI Hw Hk Hdone E.
  destruct (worker_effect _ _ _ _ _ E ltac:(by left)) as (pc' & Ht & Hr & Hc & Hpop & Hd).
  pose proof (backlog_step _ _ _ _ E) as HB. cbn [takes gives] in *. rewrite Hw in *. rewrite app_nil_r in Hpop.
  assert (w < length (works s))%nat as Hlt by (by eapply lookup_lt_Some).
  split; cbn; rewrite ?Ht, ?Hc, ?length_insert, ?Hd, ?Hpop; try apply HI.
  - eapply reach_step; [apply HI|exact E].
  - etrans; [exact HB|apply HI].
  - intros u pcu o Hu Ho. apply list_lookup_insert_Some in Hu as [(-> & <- & _)|[Hne Hu]].
    + rewrite list_lookup_insert_eq in Ho by done. rewrite Hr. by simplify_eq.
    + rewrite list_lookup_insert_ne in Ho by done. by eapply (s_works _ HI).
  - intros k' pc Hk' Hb. pose proof (s_busy _ HI _ _ Hk' Hb) as Hin. apply list_elem_of_lookup in Hin as [u Hu].
    apply (list_elem_of_lookup_2 _ u). rewrite list_lookup_insert_ne; [done|]. intros ->. by simplify_eq.
  - intros k' Hk'. apply list_elem_of_lookup in Hk' as [u Hu].
    apply list_lookup_insert_Some in Hu as [(_ & ? & _)|[_ Hu]]; [done|].
    by eapply (s_range _ HI), list_elem_of_lookup_2.
  - intros u u' k' Hu Hu'. apply list_lookup_insert_Some in Hu as [(_ & ? & _)|[_ Hu]]; [done|].
    apply list_lookup_insert_Some in Hu' as [(_ & ? & _)|[_ Hu']]; [done|]. by eapply (s_distinct _ HI).
  - intros u i0 k' pcu i' Hu Hk'. apply list_lookup_insert_Some in Hk' as [(_ & ? & _)|[Hne Hk']]; [done|].
    rewrite list_lookup_insert_ne in Hu by done. by apply (s_task _ HI u).
Qed.

Lemma sys_step a s s' : sys_inv s -> sys_exec sem_release a s = Some s' -> sys_inv s'.
Proof.
  intros HI E. destruct a as [a|w|w|c|]; cbn [sys_exec] in E.
  - destruct (starts a) eqn:Ha; [by destruct a|].
    assert (exists e' p', exec_task a (ex s) = Some e' /\
      run (exec sem_release) ((fun i => Call (OpEnqueue i)) <$> enqueues a (ex s)) (tp s) = Some p' /\
      s' = mkSystem e' p' (works s)) as (e' & p' & E1 & E2 & ->).
    { destruct a; try done; apply bind_Some in E as (e' & E1 & (p' & E2 & E)%bind_Some); simplify_eq; eauto. }
    by eapply inv_exec.
  - unfold sys_worker in E. apply bind_Some in E as (pc & Hpc & (p' & Ep & E)%bind_Some).
    assert (running pc = [] -> takes (StepWorker w) (tp s) = [] -> sys_inv (mkSystem (ex s) p' (works s))) as Hplain
      by (intros; eapply (inv_worker_plain s w (StepWorker w)); try done; by left).
    cbn [takes] in Hplain. rewrite Hpc in Hplain.
    destruct pc; try (simplify_eq; by apply Hplain).
    + destruct (q_pop (queue_ (tp s))) as [[i q]|] eqn:Hq; [|simplify_eq; by apply Hplain].
      simplify_eq. by eapply inv_worker_pop.
    + apply bind_Some in E as (k & Hk & E). destruct (works s !! w) as [o|] eqn:Ho; [|done]. cbn in Hk. subst.
      repeat case_match; simplify_eq. by eapply inv_worker_done.
  - apply bind_Some in E as (p' & E & ?). simplify_eq. pose proof E as E'. cbn in E'.
    apply bind_Some in E' as (pc & Hpc & E'). destruct pc; try done.
    eapply (inv_worker_plain s w (Timeout w)); try done. by right.
  - apply bind_Some in E as (p' & E & ?). simplify_eq.
    eapply (inv_caller s (StepCaller c)); try done; [apply HI|by rewrite app_nil_r|by eauto using goes_refl].
  - apply bind_Some in E as (p' & E & ?). simplify_eq.
    eapply (inv_caller s (Call OpDestroy)); try done; [apply HI|by rewrite app_nil_r|by eauto using goes_refl].
Qed.

Lemma sys_init_inv : sys_inv (system_init json_what cores).
Proof.
  split; cbn; rewrite ?length_replicate; try done.
  - by apply reach_init.
  - by apply reach_init.
  - unfold backlog. cbn. by rewrite contents_new.
  - by intros w pc o [-> _]%lookup_replicate [-> _]%lookup_replicate.
  - intros k Hk. apply list_elem_of_lookup in Hk as [w Hw]. by apply lookup_replicate in Hw as [? _].
  - by intros w w' k [? _]%lookup_replicate.
Qed.

Lemma reach_sys s :
  reachable (sys_exec sem_release) (fun s0 => s0 = system_init json_what cores) s -> sys_inv s.
Proof. revert s. apply reachable_invariant; [intros s ->; apply sys_init_inv | intros; by eapply sys_step]. Qed.
End inv.

(** ** Theorems *)

Section theorems.
Context {J : Type} `{JsonLib J}.
Context {Q : Type} `{LockFreeQueueLaws Q nat}.
Context (sem_release : semaphore) (json_what : json_exn -> string) (cores : nat).
Implicit Types (s : system J Q).

(** [C9] The executor on the pool is the executor of TaskExecutor.v over the
    pool of ThreadPool.v: every reachable state of the two together projects to
    a reachable state of each.  In particular a worker only ever starts a
    closure that was handed over and not started before, with a thread to
    spare, so everything proved of the executor holds on the real pool,
    whatever the semaphore does and wherever the destructor cuts in. *)
Theorem executor_pool_refines s :
  reachable (sys_exec sem_release) (fun s0 => s0 = system_init json_what cores) s ->
  reachable exec_task (fun e => e = TaskExecutor json_what (Z.of_nat cores)) (ex s) /\
  reachable (exec sem_release) (fun p => p = ThreadPool cores 1024) (tp s).
Proof. intros HI%reach_sys. split; apply HI. Qed.

(** [C22] One activation per closure, one worker per activation: the closures the
    pool has run and is running made exactly one activation of [run_task] each;
    an activation that is not over occupies a worker, which is running the
    closure of the same task; and no two workers share an activation. *)
Theorem one_activation_per_closure s :
  reachable (sys_exec sem_release) (fun s0 => s0 = system_init json_what cores) s ->
  length (runs (ex s)) = (length (executed (tp s)) + length (gather running (threads_ (tp s))))%nat /\
  (forall k pc, runs (ex s) !! k = Some pc -> pc <> R_done ->
     exists w i, works s !! w = Some (Some k) /\ threads_ (tp s) !! w = Some (W_run i) /\
       (forall i', pc_task pc = Some i' -> i' = i)) /\
  (forall w w' k, works s !! w = Some (Some k) -> works s !! w' = Some (Some k) -> w = w').
Proof.
  intros HI%reach_sys. split_and!.
  - assert (pool_inv (tp s)) as HP.
    { eapply reachable_inv, reachable_mono, (s_tp _ _ _ _ HI). intros p ->. by exists cores, 1024. }
    pose proof (s_count _ _ _ _ HI) as HC. pose proof (Permutation_length (inv_tasks _ HP)) as HL.
    rewrite !length_app in HL. lia.
  - intros k pc Hk Hpc. pose proof (s_busy _ _ _ _ HI _ _ Hk ltac:(by destruct pc)) as Hin.
    apply list_elem_of_lookup in Hin as [w Hw].
    destruct (lookup_lt_is_Some_2 (threads_ (tp s)) w) as [pw Hpw].
    { rewrite <- (s_len _ _ _ _ HI). by eapply lookup_lt_Some. }
    assert (exists i, pw = W_run i) as [i ->].
    { pose proof (s_works _ _ _ _ HI _ _ _ Hpw Hw) as Hiff. destruct pw; eauto; by destruct Hiff as [_ Hiff]; discriminate Hiff. }
    exists w, i. split_and!; try done. intros i' Hi'. by eapply (s_task _ _ _ _ HI).
  - apply (s_distinct _ _ _ _ HI).
Qed.

(** A worker is never held up by the executor: whenever the pool lets a
    worker take its next step, the step can be taken, except that a worker in a
    closure waits for its own activation to end. *)
Lemma worker_not_refused s w p :
  reachable (sys_exec sem_release) (fun s0 => s0 = system_init json_what cores) s ->
  exec sem_release (StepWorker w) (tp s) = Some p ->
  (forall k, works s !! w = Some (Some k) -> runs (ex s) !! k = Some R_done) ->
  exists s', sys_exec sem_release (S_worker w) s = Some s' /\ tp s' = p.
Proof.
  intros HI%reach_sys E Hdone. pose proof E as E'. cbn [exec] in E'. apply bind_Some in E' as (pc & Hpc & _).
  cbn [sys_exec]. unfold sys_worker. rewrite Hpc. cbn [mbind option_bind]. rewrite E. cbn [mbind option_bind].
  destruct (lookup_lt_is_Some_2 (works s) w) as [o Ho].
  { rewrite (s_len _ _ _ _ HI). by eapply lookup_lt_Some. }
  destruct pc; try by eauto.
  - destruct (q_pop (queue_ (tp s))) as [[i q]|] eqn:Hq; [|by eauto].
    eexists. split; reflexivity.
  - destruct o as [k|]; [|by pose proof (proj1 (s_works _ _ _ _ HI _ _ _ Hpc Ho) eq_refl)].
    rewrite Ho. cbn [mjoin option_join mbind option_bind]. rewrite (Hdone k Ho). eexists. split; reflexivity.
Qed.
End theorems.

(** ** Traces *)

Module SystemTraces.
Import JsonModel.
Import ExecutorTraces.
Import BoundedQueue.
#[local] Open Scope string_scope.

Definition sys0 : system jtree (bq nat) := system_init what0 2.
Definition step_run (k : nat) : sys_act jtree := S_exec (StepRun k).

(** A task is submitted, worker 1 pops it, its first call fails and is retried;
    the retry runs on worker 0 while worker 1 goes on. *)
Definition first_run : list (sys_act jtree) :=
  [S_exec (Register "flaky" flaky); S_exec (Submit (job "flaky" 5))] ++ replicate 4 (S_caller 0) ++
  replicate 4 (S_worker 1) ++ [step_run 0; step_run 0; S_exec (FnReturn 0 None 0)] ++ replicate 3 (step_run 0) ++
  [S_worker 1; S_exec (Tick 1000); S_exec (Expire 1); S_exec (Handle 1)] ++ replicate 4 (S_caller 1) ++
  replicate 4 (S_worker 0).
Definition sys1 : system jtree (bq nat) := default sys0 (run (sys_exec adding_sem) first_run sys0).

Example first_run_state :
  threads_ (tp sys1) = [W_run 0%nat; W_sub] /\ works sys1 = [Some 1%nat; None] /\
  runs (ex sys1) = [R_done; R_begin 0] /\ executed (tp sys1) = [0%nat].
Proof. split_and!; vm_compute; reflexivity. Qed.

Lemma executor_pool_refines_witness :
  reachable exec_task (fun e => e = TaskExecutor what0 2) (ex sys1) /\
  reachable (exec adding_sem) (fun p => p = ThreadPool 2 1024) (tp sys1).
Proof. apply (executor_pool_refines adding_sem what0 2), default_reachable; [done | vm_compute; reflexivity]. Defined.

Lemma one_activation_per_closure_witness :
  exists w i, works sys1 !! w = Some (Some 1%nat) /\ threads_ (tp sys1) !! w = Some (W_run i) /\
    (forall i', Some 0%nat = Some i' -> i' = i).
Proof.
  apply (one_activation_per_closure adding_sem what0 2 sys1) with (k := 1%nat) (pc := R_begin 0);
    [|vm_compute; reflexivity|discriminate].
  apply default_reachable; [done | vm_compute; reflexivity].
Defined.

Lemma worker_not_refused_witness :
  exists s', sys_exec adding_sem (S_worker 1) sys1 = Some s' /\
    tp s' = default (tp sys1) (exec adding_sem (StepWorker 1) (tp sys1)).
Proof.
  apply (worker_not_refused adding_sem what0 2 sys1 1).
  - apply default_reachable; [done | vm_compute; reflexivity].
  - vm_compute. reflexivity.
  - intros k Hk. vm_compute in Hk. discriminate Hk.
Defined.
End SystemTraces.
