(* ===== verification/ExecutorFleet.v ===== *)
(** * Several executors, one retry counter

    [TaskExecutor::retrying_cnt] is an [inline static] member (task_executor.hpp): all
    executors of a process count their retries in the same atomic.  A fleet is a
    list of executors of TaskExecutor.v with that counter taken out; a step of one
    of them reads and writes the shared value. *)

From S2P Require Import Prelude.
From S2P Require Import Json.
From S2P Require Import Task.
From S2P Require Import Convert.
From S2P Require Import TaskExecutor.
#[local] Open Scope Z_scope.

Section fleet.
Context {J : Type} `{JsonLib J}.

Record fleet := mkFleet {
  execs : list (executor (J := J));
  shared : Z;                         (* retrying_cnt *)
}.
Implicit Types (f : fleet) (e : executor (J := J)).

(** Executor [j] makes a step. *)
Definition fleet_exec (ja : nat * exec_act (J := J)) f : option fleet :=
  e ← execs f !! ja.1;
  e' ← exec_task ja.2 (set_retrying (shared f) e);
  Some (mkFleet (<[ja.1 := e']> (execs f)) (retrying_cnt e')).

Definition fleet_init (json_what : json_exn -> string) (cores : list Z) : fleet :=
  mkFleet (TaskExecutor json_what <$> cores) 0.

(** ** Invariant *)

Definition threads_of e : Z := Z.max 0 (pool_threads e).

Record fleet_inv f : Prop := {
  f_threads : total threads_of (execs f) < 2 ^ 31 - 2 * MAX_CONCURRENT_RETRY;
  f_busy : forall j e, execs f !! j = Some e -> total busy (runs e) <= threads_of e;
  f_exec : forall j e, execs f !! j = Some e -> Forall (exec_ok (timers e)) (runs e);
  f_count : shared f = total claimed (execs f) + total returning (execs f);
  f_max : total claimed (execs f) <= MAX_CONCURRENT_RETRY;
}.

(** One executor with its part of the counter; the rest belongs to the others. *)
Lemma fleet_quota_of f j e :
  fleet_inv f -> execs f !! j = Some e ->
  quota_inv (total claimed (execs f) - claimed e) (total returning (execs f) - returning e)
    (set_retrying (shared f) e).
Proof.
  intros [HT HB HE HC HM] Hj.
  assert (claimed e <= total claimed (execs f)).
  { eapply total_lookup_le; [|exact Hj]. intros y. apply claims_nonneg. }
  assert (returning e <= total returning (execs f)).
  { eapply total_lookup_le; [|exact Hj]. intros y. apply claims_nonneg. }
  assert (threads_of e - returning e <= total (fun e => threads_of e - returning e) (execs f)) as Hs.
  { apply (total_lookup_le_mem (fun e => threads_of e - returning e) _ j); [|done].
    intros y [i Hi]%list_elem_of_lookup. pose proof (claims_nonneg y). specialize (HB _ _ Hi). cbn beta. lia. }
  rewrite total_sub in Hs. unfold threads_of in *.
  split; cbn [set_retrying pool_threads runs timers retrying_cnt]; [lia|lia|by eapply HB| | |by eapply HE];
    change (claimed (set_retrying (shared f) e)) with (claimed e);
    change (returning (set_retrying (shared f) e)) with (returning e); lia.
Qed.

Lemma pool_threads_step a e e' : exec_task a e = Some e' -> pool_threads e' = pool_threads e.
Proof. intros E. exec_step E; done. Qed.

Lemma fleet_step ja f f' : fleet_inv f -> fleet_exec ja f = Some f' -> fleet_inv f'.
Proof.
  intros HI E. destruct ja as [j a]. unfold fleet_exec in E. cbn [fst snd] in E.
  apply bind_Some in E as (e & Hj & (e' & Ee & ?)%bind_Some). simplify_eq.
  destruct (quota_step _ _ _ _ _ (fleet_quota_of _ _ _ HI Hj) Ee) as [_ _ HB HC HM HE].
  pose proof (pool_threads_step _ _ _ Ee) as HP. cbn in HP.
  assert (threads_of e' = threads_of e) as HT by (unfold threads_of; by rewrite HP).
  split; cbn; rewrite ?(total_insert _ _ _ _ _ Hj).
  - rewrite HT. pose proof (f_threads _ HI). lia.
  - intros i ei Hi. apply list_lookup_insert_Some in Hi as [(_ & <- & _)|[_ Hi]]; [|by eapply (f_busy _ HI)].
    by unfold threads_of.
  - intros i ei Hi. apply list_lookup_insert_Some in Hi as [(_ & <- & _)|[_ Hi]]; [done|by eapply (f_exec _ HI)].
  - lia.
  - lia.
Qed.

Lemma fleet_init_inv json_what cores :
  total (Z.max 0) cores < 2 ^ 31 - 2 * MAX_CONCURRENT_RETRY -> fleet_inv (fleet_init json_what cores).
Proof.
  intros Hc. assert (forall g, (forall n, g (TaskExecutor json_what n) = 0) ->
    total g (TaskExecutor json_what <$> cores) = 0) as Hz.
  { intros g Hg. apply total_zero. intros e (n & -> & _)%list_elem_of_fmap. apply Hg. }
  split; cbn.
  - enough (total threads_of (TaskExecutor json_what <$> cores) = total (Z.max 0) cores) by lia.
    clear Hc Hz. induction cores as [|n l IH]; [done|]. cbn in *. by rewrite IH.
  - intros j e He. apply list_lookup_fmap_Some in He as (n & -> & _). cbn. unfold threads_of. cbn. lia.
  - intros j e He. apply list_lookup_fmap_Some in He as (n & -> & _). constructor.
  - by rewrite !Hz.
  - by rewrite Hz.
Qed.

(** [C20] The retry quota holds for all executors of the process together: the
    static counter always equals the retries granted by any of them plus the
    activations about to give their claim back, it is never negative, and at
    most ten retries are granted and waiting at the same time in the whole
    process, under every interleaving. *)
Theorem fleet_quota json_what cores f :
  total (Z.max 0) cores < 2 ^ 31 - 2 * MAX_CONCURRENT_RETRY ->
  reachable fleet_exec (fun f0 => f0 = fleet_init json_what cores) f ->
  shared f = total claimed (execs f) + total returning (execs f) /\
  0 <= shared f /\ total claimed (execs f) <= MAX_CONCURRENT_RETRY.
Proof.
  intros Hc Hr. assert (fleet_inv f) as [_ _ _ HC HM].
  { revert f Hr. apply reachable_invariant; [|intros; by eapply fleet_step].
    intros f ->. by apply fleet_init_inv. }
  pose proof (total_nonneg claimed (execs f) ltac:(intros e; apply claims_nonneg)).
  pose proof (total_nonneg returning (execs f) ltac:(intros e; apply claims_nonneg)). lia.
Qed.
End fleet.

(** ** Traces *)

Module FleetTraces.
Import JsonModel.
Import ExecutorTraces.

(** Two executors; a retry granted to each of them is counted once. *)
Definition two : fleet (J := jtree) := fleet_init what0 [8; 4].
Definition both : list (nat * exec_act (J := jtree)) :=
  ((fun a => (0%nat, a)) <$> take 9 retried) ++ ((fun a => (1%nat, a)) <$> take 9 retried).
Definition after_both : fleet (J := jtree) := default two (run fleet_exec both two).

Example both_counted : shared after_both = 2 /\ total claimed (execs after_both) = 2.
Proof. split; vm_compute; reflexivity. Qed.

Lemma fleet_quota_witness :
  shared after_both = total claimed (execs after_both) + total returning (execs after_both) /\
  0 <= shared after_both /\ total claimed (execs after_both) <= MAX_CONCURRENT_RETRY.
Proof.
  apply (fleet_quota what0 [8; 4]); [vm_compute; reflexivity|].
  apply default_reachable; [done | vm_compute; reflexivity].
Defined.
End FleetTraces.
