(* ===== verification/ExecutorSettle.v ===== *)
(** * Every task gets a verdict

    [execute_task] hands a closure to the pool, the activation of [run_task] arms
    timers, a retry timer hands over the next closure.  This file bounds the work
    a set of tasks can cause and shows that the executor of TaskExecutor.v does
    not stop before all of it is done: there is always a step to make, at most
    after waiting for a timer, and when nothing is left every task is in a final
    state.  [work] weighs what is queued, running and armed by the steps it can
    still cause; one more attempt of a task costs thirteen steps. *)

From S2P Require Import Prelude.
From S2P Require Import Json.
From S2P Require Import Task.
From S2P Require Import Convert.
From S2P Require Import TaskExecutor.
#[local] Open Scope Z_scope.

Section work.
Context {J : Type} `{JsonLib J}.
Implicit Types (s : executor (J := J)) (ts : list (Task J)).

(** ** The work left *)

(** Retries a task may still be granted. *)
Definition retries_left ts (i : nat) : Z :=
  match ts !! i with Some t => Z.max 0 (max_retry t - retry_count t) | None => 0 end.

(** Start, seven steps, three of the execution timer; per retry two more of the
    retry timer. *)
Definition closure_work ts (i : nat) : Z := 11 + 13 * retries_left ts i.

Definition run_work ts (pc : run_pc (J := J)) : Z :=
  match pc with
  | R_begin i => 10 + 13 * retries_left ts i
  | R_setup i _ _ => 6 + 13 * retries_left ts i
  | R_call i _ _ => 5 + 13 * retries_left ts i
  | R_catch i _ _ => 4 + 13 * retries_left ts i
  | R_quota i => 3 + 13 * retries_left ts i
  | R_arm i => 1 + 13 * retries_left ts i
  | R_success _ _ _ | R_rollback _ => 2
  | R_full _ | R_cancel _ => 1
  | R_done => 0
  end.

Definition timer_work ts (t : timer) : Z :=
  match t_kind t, t_status t with
  | ExecTimer _, Waiting => 3
  | ExecTimer _, Expired => 2
  | ExecTimer _, Firing => 1
  | RetryTimer i, Waiting => 13 * Z.max 1 (retries_left ts i)
  | RetryTimer i, Expired => 13 * Z.max 1 (retries_left ts i) - 1
  | _, Aborted => 1
  | _, _ => 0
  end.

Definition work_of ts (q : list nat) (rs : list run_pc) (tms : list timer) : Z :=
  total (closure_work ts) q + total (run_work ts) rs + total (timer_work ts) tms.
Definition work s : Z := work_of (tasks s) (queued s) (runs s) (timers s).

(** The steps the executor makes by itself; the others belong to the owner of
    the tasks and to the clock. *)
Definition internal (a : exec_act (J := J)) : bool :=
  match a with StartRun _ | StepRun _ | FnReturn _ _ _ | Expire _ | Handle _ => true | _ => false end.
Definition cost_of (a : exec_act (J := J)) : Z :=
  match a with Submit t => 11 + 13 * (max_retry t - retry_count t) | _ => 0 end.

(** ** The measure *)

Lemma retries_left_nonneg ts i : 0 <= retries_left ts i.
Proof. unfold retries_left. case_match; lia. Qed.

Lemma work_parts_nonneg ts :
  (forall i, 0 <= closure_work ts i) /\ (forall pc, 0 <= run_work ts pc) /\ (forall t, 0 <= timer_work ts t).
Proof.
  split_and!.
  - intros i. unfold closure_work. pose proof (retries_left_nonneg ts i). lia.
  - intros []; cbn; try pose proof (retries_left_nonneg ts i); lia.
  - intros [[i|i] e []]; cbn; try pose proof (retries_left_nonneg ts i); lia.
Qed.

Lemma work_nonneg s : 0 <= work s.
Proof.
  unfold work, work_of. destruct (work_parts_nonneg (tasks s)) as (H1 & H2 & H3).
  pose proof (total_nonneg _ (queued s) H1). pose proof (total_nonneg _ (runs s) H2).
  pose proof (total_nonneg _ (timers s) H3). lia.
Qed.

(** Fewer retries left, less work. *)
Lemma work_mono ts ts' q rs tms :
  (forall i, retries_left ts' i <= retries_left ts i) -> work_of ts' q rs tms <= work_of ts q rs tms.
Proof.
  intros HL. unfold work_of.
  pose proof (total_le (closure_work ts') (closure_work ts) q) as H1.
  pose proof (total_le (run_work ts') (run_work ts) rs) as H2.
  pose proof (total_le (timer_work ts') (timer_work ts) tms) as H3.
  enough (total (closure_work ts') q <= total (closure_work ts) q /\
          total (run_work ts') rs <= total (run_work ts) rs /\
          total (timer_work ts') tms <= total (timer_work ts) tms) by lia.
  split_and!; [apply H1|apply H2|apply H3].
  - intros i. unfold closure_work. specialize (HL i). lia.
  - intros []; cbn; try (specialize (HL i)); lia.
  - intros [[i|i] e []]; cbn; try (specialize (HL i)); lia.
Qed.

Lemma retries_left_alter (f : Task J -> Task J) k ts i :
  (forall t, (retry_count (f t), max_retry (f t)) = (retry_count t, max_retry t)) ->
  retries_left (alter f k ts) i = retries_left ts i.
Proof.
  intros Hf. unfold retries_left. rewrite list_lookup_alter. case_decide; [|done]. subst.
  destruct (ts !! i) as [t|]; [|done]. cbn. specialize (Hf t). congruence.
Qed.

Lemma work_alter (f : Task J -> Task J) k ts q rs tms :
  (forall t, (retry_count (f t), max_retry (f t)) = (retry_count t, max_retry t)) ->
  work_of (alter f k ts) q rs tms <= work_of ts q rs tms.
Proof. intros Hf. apply work_mono. intros i. by rewrite retries_left_alter. Qed.

(** ** Invariant *)

(** Timers belong to tasks that exist. *)
Definition timer_ok ts (t : timer) : Prop :=
  match t_kind t with ExecTimer i | RetryTimer i => is_Some (ts !! i) end.

(** What will still decide about task [i]: a queued closure, an activation that
    has not stored its verdict, a granted retry. *)
Definition deciding (i : nat) (pc : run_pc (J := J)) : Z :=
  match pc with
  | R_begin j | R_setup j _ _ | R_call j _ _ | R_success j _ _ | R_catch j _ _
  | R_quota j | R_rollback j | R_full j | R_arm j => is_task i j
  | R_cancel _ | R_done => 0
  end.
Definition undecided s (i : nat) : Z :=
  total (is_task i) (queued s) + total (deciding i) (runs s) + total (retry_timer_of i) (timers s).

Definition final (st : TaskState) : bool :=
  match st with SUCCESS | FAILED | TIMEOUT => true | _ => false end.

Record settle_inv (cores : Z) s : Prop := {
  sv_retry : forall i, retry_inv i s;
  sv_acts : acts_ok s;
  sv_flags : forall i t, tasks s !! i = Some t -> is_Some (cancelled t);
  sv_timers : forall t, t ∈ timers s -> timer_ok (tasks s) t;
  sv_exec : Forall (exec_ok (timers s)) (runs s);
  sv_cores : pool_threads s = cores;
  sv_verdict : forall i t, tasks s !! i = Some t ->
    crashed s = true \/ final (state t) = true \/ 1 <= undecided s i;
}.

Lemma bounded_exec a s s' : exec_bounded a s = Some s' -> exec_task a s = Some s'.
Proof. intros E. destruct a; try exact E; unfold exec_bounded in E; try done. by case_match. Qed.

Lemma flags_step a s s' :
  (forall i t, tasks s !! i = Some t -> is_Some (cancelled t)) -> exec_task a s = Some s' ->
  forall i t, tasks s' !! i = Some t -> is_Some (cancelled t).
Proof.
  intros HF E i t Hi. destruct (tasks_step _ _ _ E) as (l & Hl & Hlen & HK). rewrite Hl in Hi.
  apply lookup_app_Some in Hi as [Hi|[_ Hi]].
  - destruct (lookup_lt_is_Some_2 (tasks s) i) as [t0 Ht0].
    { rewrite <- Hlen. by eapply lookup_lt_Some. }
    destruct (HK _ _ Ht0) as (t' & Ht' & Hin & _). assert (t' = t) as -> by congruence.
    unfold inputs in Hin. assert (cancelled t = cancelled t0) as -> by congruence. by eapply HF.
  - destruct a; cbn [submitted] in Hi; try (by rewrite lookup_nil in Hi).
    cbn [exec_task] in E. apply bind_Some in E as (l0 & Hl0 & _).
    apply list_lookup_singleton_Some in Hi as [_ <-]. eauto.
Qed.

Lemma timer_ok_keep ts ts' t : tasks_keep ts ts' -> timer_ok ts t -> timer_ok ts' t.
Proof. intros HK. unfold timer_ok. destruct (t_kind t); by apply keep_some. Qed.

Lemma timer_ok_alter ts (m : nat) st (tms : list timer) :
  (forall t, t ∈ tms -> timer_ok ts t) ->
  forall t, t ∈ alter (fun t => mkTimer (t_kind t) (t_expiry t) st) m tms -> timer_ok ts t.
Proof.
  intros HT t [k Hk]%list_elem_of_lookup. rewrite list_lookup_alter in Hk. case_decide as Hd.
  - apply fmap_Some in Hk as (t0 & E%list_elem_of_lookup_2 & ->). exact (HT _ E).
  - apply HT. by eapply list_elem_of_lookup_2.
Qed.

Lemma timers_step a s s' :
  acts_ok s -> (forall t, t ∈ timers s -> timer_ok (tasks s) t) -> exec_task a s = Some s' ->
  forall t, t ∈ timers s' -> timer_ok (tasks s') t.
Proof.
  intros [_ HA] HT E. pose proof (tasks_keep_step _ _ _ E) as HK.
  assert (forall t, t ∈ timers s -> timer_ok (tasks s') t) as HT' by (intros; eapply timer_ok_keep; eauto).
  exec_step E; try exact HT'; try (by apply (timer_ok_alter _ _ _ _ HT')).
  all: intros t0 [Hin| ->%list_elem_of_singleton]%elem_of_app; [by apply HT'|].
  all: cbn [timer_ok t_kind]; eapply keep_some; [exact HK|eauto].
Qed.

Lemma undecided_nonneg s i :
  (forall pc, 0 <= deciding i pc) /\ (forall t, 0 <= retry_timer_of i t) /\
  0 <= total (is_task i) (queued s) /\ 0 <= total (deciding i) (runs s) /\ 0 <= total (retry_timer_of i) (timers s).
Proof.
  assert (forall pc, 0 <= deciding i pc) as H1 by (intros []; cbn; try apply is_task_range; lia).
  assert (forall t, 0 <= retry_timer_of i t) as H2 by (intros [[] ? []]; cbn; try apply is_task_range; lia).
  split_and!; try done; apply total_nonneg; try done. intros j. apply is_task_range.
Qed.

(** A step that keeps the record of a task, or stores a final state in it, and
    drops nothing that will decide about it. *)
Lemma verdict_keeps s s' u (t' : Task J) :
  (forall t, tasks s !! u = Some t -> crashed s = true \/ final (state t) = true \/ 1 <= undecided s u) ->
  (crashed s = true -> crashed s' = true) ->
  final (state t') = true \/ 1 <= undecided s' u \/
  undecided s u <= undecided s' u /\ (exists t, tasks s !! u = Some t /\ state t' = state t) ->
  crashed s' = true \/ final (state t') = true \/ 1 <= undecided s' u.
Proof.
  intros HV HC [?|[?|[HU (t & Ht & Hs)]]]; auto. destruct (HV _ Ht) as [?|[?|?]]; auto.
  - rewrite Hs. auto.
  - right; right. lia.
Qed.

Lemma state_alter (f : Task J -> Task J) i ts u t' :
  alter f i ts !! u = Some t' ->
  (u = i /\ exists t, ts !! u = Some t /\ t' = f t) \/ (u <> i /\ ts !! u = Some t').
Proof.
  rewrite list_lookup_alter. case_decide as Hd; [|by right; split; [congruence|]].
  intros (t & Ht & ->)%fmap_Some. left. subst. eauto.
Qed.

Lemma verdict_step a s s' u t' :
  Forall (exec_ok (timers s)) (runs s) ->
  (forall t, tasks s !! u = Some t -> crashed s = true \/ final (state t) = true \/ 1 <= undecided s u) ->
  exec_task a s = Some s' -> tasks s' !! u = Some t' ->
  crashed s' = true \/ final (state t') = true \/ 1 <= undecided s' u.
Proof.
  intros HX HV E Hu. destruct (undecided_nonneg s u) as (ND & NT & NQ & NR & NM).
  pose proof (fun k pc => total_lookup_le (deciding u) (runs s) k pc ND) as RS.
  pose proof (fun k t => total_lookup_le (retry_timer_of u) (timers s) k t NT) as TS.
  pose proof (is_task_self u) as HS. pose proof (is_task_other u) as HO.
  assert (forall k pc, runs s !! k = Some pc -> exec_ok (timers s) pc) as HF.
  { intros k pc Hk. by eapply Forall_lookup_1 in HX. }
  exec_step E; try (by left); (eapply verdict_keeps; [exact HV|by auto|]); cbn in Hu.
  all: try (apply state_alter in Hu as [[-> (t0 & Hu & ->)]|[Hne Hu]]; [try (by left)|]).
  all: unfold undecided; cbn; exec_totals; cbn [deciding] in *.
  all: try (match goal with Ht : timers _ !! _ = Some ?x |- _ => is_var x;
    pose proof (TS _ _ Ht); destruct x as [[j|j] ? []]; simplify_eq/= end).
  all: try (match goal with Hq : queued _ !! _ = Some _ |- _ => rewrite (total_delete _ _ _ _ Hq) end).
  all: try (rewrite (HO i) by congruence).
  all: try (right; right; split; [cbn; lia|by eauto]).
  all: try (right; left; pose proof (RS _ _ Hx) as HR; cbn in HR; lia).
  - apply lookup_app_Some in Hu as [Hu|[Hge Hu]].
    + right; right. pose proof (is_task_range u (length (tasks s))). split; [lia|eauto].
    + apply list_lookup_singleton_Some in Hu as [Hl _]. right; left.
      assert (u = length (tasks s)) as -> by lia. lia.
  - apply state_alter in Hu as [[? _]|[_ Hu]]; [done|]. right; right. split; [lia|eauto].
  - apply state_alter in Hu as [[? _]|[_ Hu]]; [done|]. right; right. split; [lia|eauto].
  - destruct (HF _ _ Hx tm eq_refl) as [j Hj]. unfold kind_at in Hj. rewrite Hb in Hj. simplify_eq/=.
    right; right. split; [cbn; lia|eauto].
  - right; right. split; [cbn; lia|]. destruct (decide (u = task)) as [->|Hne].
    + rewrite list_lookup_insert_eq in Hu by (by eapply lookup_lt_Some). simplify_eq. eauto.
    + rewrite list_lookup_insert_ne in Hu by done. eauto.
  - right; right. pose proof (is_task_range u i). split; [lia|eauto].
Qed.

Lemma settle_step cores a s s' : settle_inv cores s -> exec_bounded a s = Some s' -> settle_inv cores s'.
Proof.
  intros [HR HA HF HT HX HC HV] E0. pose proof (bounded_exec _ _ _ E0) as E. split.
  - intros i. by eapply retry_step.
  - by eapply acts_step.
  - by eapply flags_step.
  - by eapply timers_step.
  - by eapply exec_ok_step.
  - rewrite <- HC. clear - E. exec_step E; done.
  - intros i t Ht. eapply verdict_step; eauto.
Qed.

Lemma reach_settle json_what cores s :
  reachable exec_bounded (fun s0 => s0 = TaskExecutor json_what cores) s -> settle_inv cores s.
Proof.
  revert s. apply reachable_invariant; [|intros; by eapply settle_step].
  intros s ->. split; try done; try (by constructor).
  - split; [intros i Hi; by apply elem_of_nil in Hi|done].
  - intros t Ht. by apply elem_of_nil in Ht.
Qed.

(** ** Every step does some of the work *)

(** A retry still to be armed or restarted is one the task has left. *)
Lemma granted_left s i :
  retry_inv i s -> 1 <= total (granted i) (runs s) \/ 1 <= total (retry_timer_of i) (timers s) ->
  exists t, tasks s !! i = Some t /\ 1 <= max_retry t - retry_count t /\ fits 32 (retry_count t + 1).
Proof.
  intros HI HG. unfold retry_inv, limits in HI.
  pose proof (total_nonneg (granted i) (runs s) ltac:(intros []; cbn; try apply is_task_range; lia)).
  pose proof (total_nonneg (retry_timer_of i) (timers s) ltac:(intros [[] ? []]; cbn; try apply is_task_range; lia)).
  pose proof (total_le (granted i) (in_flight i) (runs s)
    ltac:(intros []; cbn; try pose proof (is_task_range i i0); try pose proof (is_task_range i i1); lia)).
  destruct (tasks s !! i) as [t|] eqn:Ht; cbn in HI; [|lia].
  exists t. split; [done|]. unfold fits. lia.
Qed.

(** A new task changes the work of nothing that exists. *)
Lemma work_submit cores s t :
  settle_inv cores s -> work_of (tasks s ++ [t]) (queued s) (runs s) (timers s) = work s.
Proof.
  intros HI. destruct (sv_acts _ _ HI) as [HQ HA].
  assert (forall i, is_Some (tasks s !! i) -> retries_left (tasks s ++ [t]) i = retries_left (tasks s) i) as HL.
  { intros i [t0 Ht0]. unfold retries_left. by rewrite (lookup_app_l_Some _ _ _ _ Ht0), Ht0. }
  unfold work, work_of. f_equal; [f_equal|]; apply total_ext_mem.
  - intros i Hi. unfold closure_work. by rewrite HL by auto.
  - intros pc [k Hk]%list_elem_of_lookup. specialize (HA _ _ Hk).
    destruct pc; cbn in HA |- *; try done; rewrite HL by (by eauto || by destruct HA as (? & ? & _); eauto); done.
  - intros tm Htm%(sv_timers _ _ HI). destruct tm as [[i|i] e []]; cbn in Htm |- *; try done; by rewrite HL.
Qed.

(** A retry that starts uses up one of those left. *)
Lemma retries_restart ts i t :
  ts !! i = Some t -> 1 <= max_retry t - retry_count t -> fits 32 (retry_count t + 1) ->
  let ts' := <[i := with_retry_count (u32 (retry_count t + 1)) t]> ts in
  (forall j, retries_left ts' j <= retries_left ts j) /\ retries_left ts' i = retries_left ts i - 1.
Proof.
  intros Hi Hl Hf ts'.
  assert (retries_left ts' i = retries_left ts i - 1) as HT.
  { unfold retries_left, ts'. rewrite list_lookup_insert_eq, Hi by (by eapply lookup_lt_Some). cbn.
    rewrite wrap_small by done. lia. }
  split; [|done]. intros j. destruct (decide (j = i)) as [->|Hne]; [lia|].
  unfold retries_left, ts'. by rewrite list_lookup_insert_ne.
Qed.

Lemma work_step cores a s s' :
  settle_inv cores s -> exec_bounded a s = Some s' ->
  (if internal a then 1 else 0) + work s' <= work s + cost_of a.
Proof.
  intros HI E0. pose proof (bounded_exec _ _ _ E0) as E.
  pose proof (fun i => granted_left s i (sv_retry _ _ HI i)) as HG.
  pose proof (retries_left_nonneg (tasks s)) as HN.
  assert (forall k pc i, runs s !! k = Some pc -> granted i pc <= total (granted i) (runs s)) as RS.
  { intros k pc i. apply total_lookup_le. intros []; cbn; try apply is_task_range; lia. }
  assert (forall k t i, timers s !! k = Some t -> retry_timer_of i t <= total (retry_timer_of i) (timers s)) as TS.
  { intros k t i. apply total_lookup_le. intros [[] ? []]; cbn; try apply is_task_range; lia. }
  exec_step E; try discriminate E0; cbn [internal cost_of]; unfold work; cbn.
  all: repeat (eapply Z.le_trans; [apply Z.add_le_mono_l, work_alter; done|]).
  all: try (pose proof (HN i)); try (unfold work_of; exec_totals; cbn; lia).
  all: try (match goal with Hq : queued _ !! _ = Some _ |- _ =>
    unfold work_of; rewrite (total_delete _ _ _ _ Hq); exec_totals; unfold closure_work; cbn; lia end).
  all: try (match goal with Ht : timers _ !! _ = Some ?x |- _ => is_var x;
    destruct x as [[j|j] ? []]; pose proof (HN j); simplify_eq/=; unfold work_of; exec_totals; cbn; lia end).
  - pose proof (work_submit cores s t HI) as HW. unfold work, work_of in *. rewrite total_app. cbn [total].
    unfold closure_work, retries_left in *. rewrite lookup_last. cbn in E0. case_match; [|done]. bools. lia.
  - destruct (HG i) as (t & Ht & Hl & _); [left; specialize (RS _ _ i Hx); cbn in RS; by rewrite is_task_self in RS|].
    unfold work_of. exec_totals. cbn. unfold retries_left. rewrite Ht. lia.
  - unfold work_of. exec_totals. destruct t_kind as [j|j]; pose proof (HN j); cbn; lia.
  - destruct x as [kd e st]. cbn in Hb, Hb0. subst kd st.
    destruct (HG task) as (t & Ht & Hl & Hf).
    { right. specialize (TS _ _ task Hx). cbn in TS. by rewrite is_task_self in TS. }
    assert (x0 = t) as -> by congruence. destruct (retries_restart _ _ _ Ht Hl Hf) as [HM HT].
    unfold work_of at 1. rewrite total_app. cbn [total].
    pose proof (work_mono _ _ (queued s) (runs s)
      (alter (fun t => mkTimer (t_kind t) (t_expiry t) Handled) m (timers s)) HM) as HW.
    unfold work_of in HW |- *. unfold closure_work at 2. rewrite HT.
    rewrite (total_alter (timer_work (tasks s)) _ _ _ _ Hx) in HW. cbn in HW. lia.
Qed.

Lemma work_trace cores tr s s' :
  settle_inv cores s -> run exec_bounded tr s = Some s' ->
  Z.of_nat (length (filter (fun a => internal a = true) tr)) + work s' <= work s + total cost_of tr.
Proof.
  revert s. induction tr as [|a tr IH]; intros s HI E; cbn [run] in E.
  - simplify_eq. cbn. lia.
  - apply bind_Some in E as (s1 & E1 & E). pose proof (work_step _ _ _ _ HI E1) as H1.
    specialize (IH s1 (settle_step _ _ _ _ HI E1) E). rewrite filter_cons. cbn [total].
    destruct (internal a); case_decide; cbn [length]; try done; lia.
Qed.

(** ** There is always a step to make *)

(** The functions of the tasks return or throw. *)
Definition functions_end s : Prop :=
  forall i t f c w, tasks s !! i = Some t -> functions_ s !! func_name t = Some f ->
    ends (f (func_params t) c w) = true.

Lemma tick_zero s : exec_bounded (Tick 0) s = Some s.
Proof. cbn. unfold set_now. rewrite Z.add_0_r. by destruct s. Qed.

Lemma run_enabled cores s r pc :
  settle_inv cores s -> functions_end s -> runs s !! r = Some pc -> pc <> R_done ->
  exists a, internal a = true /\ is_Some (exec_bounded a s).
Proof.
  intros HI HF Hr Hne. destruct (sv_acts _ _ HI) as [_ HA].
  destruct (act_enabled _ _ _ (HA _ _ Hr) Hr Hne) as [Hs|(i & tm & seen & t & f & c & _ & Ht & Hf & He)].
  - by exists (StepRun r).
  - exists (FnReturn r c 0). split; [done|]. apply He. by eapply HF.
Qed.

Lemma timer_enabled cores s m t :
  settle_inv cores s -> timers s !! m = Some t -> 0 < timer_work (tasks s) t ->
  exists d a s', 0 <= d /\ internal a = true /\ run exec_bounded [Tick d; a] s = Some s'.
Proof.
  intros HI Hm Hw. pose proof (sv_timers _ _ HI t ltac:(by eapply list_elem_of_lookup_2)) as Hok.
  assert (is_Some (exec_bounded (Handle m) s) -> exists d a s', 0 <= d /\ internal a = true /\
    run exec_bounded [Tick d; a] s = Some s') as H0.
  { intros [s' E]. exists 0, (Handle m), s'. split_and!; [lia|done|]. cbn [run]. rewrite tick_zero. cbn [mbind option_bind].
    by rewrite E. }
  destruct t as [kd e st], st.
  1: { exists (Z.max 0 (e - now s)), (Expire m), (set_timer m Expired (set_now (now s + Z.max 0 (e - now s)) s)).
       split_and!; [lia|done|]. cbn [run exec_bounded exec_task]. rewrite (proj2 (Z.leb_le 0 _)) by lia.
       cbn [mbind option_bind]. unfold expire. cbn [set_now timers]. rewrite Hm. cbn [mbind option_bind t_status t_expiry now set_now].
       by rewrite (proj2 (Z.leb_le _ _)) by lia. }
  all: destruct kd as [i|i]; cbn in Hw, Hok; try lia; apply H0; cbn [exec_bounded exec_task]; unfold handle;
    rewrite Hm; cbn; destruct Hok as [t Ht]; rewrite ?Ht; cbn; try done.
  destruct (sv_flags _ _ HI _ _ Ht) as [l ->]. done.
Qed.

Lemma work_enabled cores s :
  settle_inv cores s -> 0 < cores -> functions_end s -> 0 < work s ->
  exists d a s', 0 <= d /\ internal a = true /\ run exec_bounded [Tick d; a] s = Some s'.
Proof.
  intros HI Hc HF Hw.
  assert ((exists a, internal a = true /\ is_Some (exec_bounded a s)) ->
    exists d a s', 0 <= d /\ internal a = true /\ run exec_bounded [Tick d; a] s = Some s') as H0.
  { intros (a & Ha & s' & E). exists 0, a, s'. split_and!; [lia|done|]. cbn [run]. rewrite tick_zero.
    cbn [mbind option_bind]. by rewrite E. }
  destruct (Z.lt_ge_cases 0 (total busy (runs s))) as [Hb|Hb].
  { apply H0. apply total_pos in Hb as (r & pc & Hr & Hpc). apply (run_enabled cores s r pc HI HF Hr). by intros ->. }
  destruct (queued s) as [|i q] eqn:Hq.
  - destruct (work_parts_nonneg (tasks s)) as (_ & NR & _).
    assert (total (run_work (tasks s)) (runs s) = 0) as HR.
    { apply total_zero. intros pc [r Hr]%list_elem_of_lookup. rewrite (idle_done s r pc); [done| |done].
      pose proof (total_nonneg busy (runs s) ltac:(intros []; cbn; lia)). lia. }
    unfold work, work_of in Hw. rewrite Hq, HR in Hw. cbn in Hw.
    destruct (total_pos (timer_work (tasks s)) (timers s)) as (m & t & Hm & Ht); [lia|].
    by eapply timer_enabled.
  - apply H0. exists (StartRun 0). split; [done|]. cbn [exec_bounded exec_task]. rewrite Hq. cbn [lookup list_lookup mbind option_bind].
    rewrite (proj2 (Z.ltb_lt _ _)) by (rewrite (sv_cores _ _ HI); lia). eauto.
Qed.

(** Without work everything is over. *)
Lemma no_work cores s :
  settle_inv cores s -> work s = 0 ->
  queued s = [] /\ (forall r pc, runs s !! r = Some pc -> pc = R_done) /\
  (forall i t, tasks s !! i = Some t -> crashed s = true \/ final (state t) = true).
Proof.
  intros HI Hw. destruct (work_parts_nonneg (tasks s)) as (NQ & NR & NT). unfold work, work_of in Hw.
  pose proof (total_nonneg _ (queued s) NQ). pose proof (total_nonneg _ (runs s) NR).
  pose proof (total_nonneg _ (timers s) NT).
  assert (queued s = []) as HQ.
  { destruct (queued s) as [|i q]; [done|]. cbn in *. pose proof (total_nonneg _ q NQ).
    pose proof (retries_left_nonneg (tasks s) i). unfold closure_work in *. lia. }
  assert (forall r pc, runs s !! r = Some pc -> pc = R_done) as HR.
  { intros r pc Hr. pose proof (total_lookup_le _ _ _ _ NR Hr). destruct pc; cbn in *; try done;
      try pose proof (retries_left_nonneg (tasks s) i); lia. }
  split_and!; [done|done|]. intros i t Ht. destruct (sv_verdict _ _ HI _ _ Ht) as [?|[?|HU]]; auto.
  unfold undecided in HU. rewrite HQ in HU. cbn in HU.
  rewrite (total_zero (deciding i)) in HU by (intros pc [r Hr]%list_elem_of_lookup; by rewrite (HR _ _ Hr)).
  destruct (total_pos (retry_timer_of i) (timers s)) as (m & tm & Hm & Hp); [lia|].
  pose proof (total_lookup_le _ _ _ _ NT Hm) as Hle. destruct tm as [[j|j] e []]; cbn in *; try lia;
    pose proof (retries_left_nonneg (tasks s) j); lia.
Qed.

(** [C16] The work of a set of tasks is bounded: whatever the interleaving, the
    clock, the registered functions and the cancellations, the executor makes at
    most eleven steps per submitted task and thirteen more per retry the task
    allows; every such step uses up some of what is left. *)
Theorem executor_work_bounded json_what cores tr s :
  run exec_bounded tr (TaskExecutor json_what cores) = Some s ->
  Z.of_nat (length (filter (fun a => internal a = true) tr)) + work s <= total cost_of tr /\ 0 <= work s.
Proof.
  intros E. split; [|apply work_nonneg].
  assert (settle_inv cores (TaskExecutor json_what cores)) as HI by (by eapply reach_settle, reach_init).
  pose proof (work_trace _ _ _ _ HI E) as HW. change (work (TaskExecutor json_what cores)) with 0 in HW. lia.
Qed.

(** [C6] Every submitted task gets a verdict.  In a reachable state of an executor
    with at least one thread, whose functions return or throw: as long as work
    is left some step is possible, at most after waiting for a timer (with
    [executor_work_bounded], every schedule runs out of work); and once none is
    left no closure is queued, every activation has returned and every task is
    SUCCESS, FAILED or TIMEOUT, unless an exception that is not a
    [std::exception] has ended the process. *)
Theorem every_task_settles json_what cores s :
  0 < cores -> reachable exec_bounded (fun s0 => s0 = TaskExecutor json_what cores) s -> functions_end s ->
  (0 < work s -> exists d a s', 0 <= d /\ internal a = true /\ run exec_bounded [Tick d; a] s = Some s' /\ work s' < work s) /\
  (work s = 0 ->
   queued s = [] /\ (forall r pc, runs s !! r = Some pc -> pc = R_done) /\
   (forall i t, tasks s !! i = Some t -> crashed s = true \/ final (state t) = true)).
Proof.
  intros Hc HI%reach_settle HF. split; [|by eapply no_work].
  intros Hw. destruct (work_enabled _ _ HI Hc HF Hw) as (d & a & s' & Hd & Ha & E). exists d, a, s'. split_and!; try done.
  pose proof (work_trace _ _ _ _ HI E) as HW. rewrite !filter_cons, filter_nil in HW.
  destruct a; try done; cbn [internal length total cost_of] in HW; repeat case_decide; cbn [length] in HW; try done; lia.
Qed.
End work.

(** ** Traces *)

Module SettleTraces.
Import JsonModel ExecutorTraces.

(** The task that is retried once, and what its two attempts leave behind. *)
Definition all_done : list (exec_act (J := jtree)) :=
  retried ++ [Tick 9000; Expire 0; Handle 0; Handle 0; Handle 2].
Definition settled : executor (J := jtree) := default start (run exec_bounded all_done start).

Lemma settled_functions_end : functions_end settled.
Proof.
  assert (forall c w, match functions_ settled !! "flaky" with
    | Some f => ends (f (JObj [("n", JUint 10)]) c w) | None => true end = true) as HE.
  { intros c [|w]; vm_compute; reflexivity. }
  intros i t f c w Ht Hf. destruct i as [|i]; [|vm_compute in Ht; discriminate Ht].
  assert ((fun t => (func_name t, func_params t)) <$> tasks settled !! 0%nat = Some ("flaky", JObj [("n", JUint 10)])) as HN.
  { vm_compute. reflexivity. }
  rewrite Ht in HN. injection HN as HN HP. specialize (HE c w). rewrite HN in Hf. rewrite HP. by rewrite Hf in HE.
Qed.

Lemma executor_work_bounded_witness :
  Z.of_nat (length (filter (fun a => internal a = true) all_done)) + work settled <= 76 /\ 0 <= work settled.
Proof.
  apply (executor_work_bounded what0 8 all_done settled). apply run_default. vm_compute. reflexivity.
Defined.

Lemma every_task_settles_witness :
  queued settled = [] /\ (forall r pc, runs settled !! r = Some pc -> pc = R_done) /\
  (forall i t, tasks settled !! i = Some t -> crashed settled = true \/ final (state t) = true).
Proof.
  apply (every_task_settles what0 8 settled).
  - lia.
  - apply default_reachable; [done | vm_compute; reflexivity].
  - exact settled_functions_end.
  - vm_compute. reflexivity.
Defined.
End SettleTraces.
