(* ===== verification/SystemSettle.v ===== *)
(** * Every task settles on the pool

    ExecutorSettle.v shows that the executor does not stop before every task has
    its verdict, with the pool as a rule that starts queued closures.  Here the
    pool is the one of ThreadPool.v, in step with the executor as in
    ExecutorPool.v: an [enqueue] has to push its closure and release the
    semaphore, and a worker has to come round to its wait, take a permit and pop.
    While the pool is not being destroyed, the closures handed over and not
    started are exactly those on their way into the queue or in it
    ([v_backlog]), no worker ever leaves ([v_workers]), and some thread can always
    move the work on. *)

From S2P Require Import Prelude.
From S2P Require Import Json.
From S2P Require Import Task.
From S2P Require Import Convert.
From S2P Require Import ThreadPool.
From S2P Require Import TaskExecutor.
From S2P Require Import ExecutorPool.
From S2P Require Import ExecutorSettle.
#[local] Open Scope Z_scope.

(** ** The pool in service *)

Section service.
Context {Q : Type} `{LockFreeQueueLaws Q nat}.
Context (sem_release : semaphore) (cores : nat).
Implicit Types (p : pool Q nat).

(** A worker that has not been told to leave, at the places such a worker gets to. *)
Definition in_service (pc : worker_pc nat) : Prop :=
  match pc with
  | W_start | W_loop | W_wait | W_pop | W_run _ | W_sub | W_check => True
  | W_check_target a => a <= Z.of_nat cores
  | _ => False
  end.
Definition enqueuing (pc : caller_pc nat) : Prop :=
  match pc with C_enqueue _ | C_push _ | C_recheck _ | C_count | C_notify | C_return => True | _ => False end.

Record serving p : Prop := {
  g_stop : stop_ p = false;
  g_target : target_thread_count_ p = Z.of_nat cores;
  g_len : length (threads_ p) = cores;
  g_workers : Forall in_service (threads_ p);
  g_callers : Forall enqueuing (callers p);
}.

(** What happens to a pool that is only enqueued to. *)
Definition service_act (a : pool_act nat) : Prop :=
  match a with Call (OpEnqueue _) | StepWorker _ | Timeout _ | StepCaller _ => True | _ => False end.

Lemma active_bound p :
  reachable (exec sem_release) fresh p -> Z.of_nat (length (threads_ p)) < 2 ^ 64 ->
  active_threads_ p <= Z.of_nat (length (threads_ p)).
Proof.
  intros Hr Hl. change (get_thread_count p <= Z.of_nat (length (threads_ p))).
  rewrite (thread_count_exact _ _ Hr Hl).
  pose proof (total_const_le counted (threads_ p) 1 (fun pc => proj2 (counted_range pc))). lia.
Qed.

Lemma service_step a p p' :
  serving p -> active_threads_ p <= Z.of_nat cores -> service_act a -> exec sem_release a p = Some p' ->
  serving p' /\ gives a ++ backlog p ≡ₚ takes a p ++ backlog p'.
Proof.
  intros [Hst Htg Hln HW HC] Hact Ha E. unfold backlog.
  pose proof (fun i pc Hi => Forall_lookup_1 _ _ i pc HW Hi) as HW'.
  pose proof (fun i pc Hi => Forall_lookup_1 _ _ i pc HC Hi) as HC'.
  pool_step E; try done; try (by apply HW' in Hpc); try (by apply HC' in Hpc).
  all: try (pose proof (HW' _ _ Hpc) as Hok; cbn in Hok); cbn [gives takes]; rewrite ?Hpc.
  all: try (exfalso; cbn in *; congruence || lia).
  1: { destruct op; try done. split; [split; try done; cbn; apply Forall_app; by repeat constructor|].
       cbn. rewrite gather_app. cbn. solve_Permutation. }
  all: split; [split; cbn; rewrite ?length_insert; try done; by apply Forall_insert|cbn].
  all: try (match goal with Hc : callers _ !! _ = Some ?pc |- context [gather _ (<[_ := ?pc']> _)] =>
    first [rewrite (gather_insert_same waiting _ _ _ pc' Hc eq_refl)
          |pose proof (gather_insert_drop waiting _ _ _ pc' _ Hc eq_refl eq_refl) as HG] end).
  all: try done.
  - match goal with Hq : q_pop _ = Some _ |- _ => rewrite Hq; apply contents_pop in Hq as -> end. solve_Permutation.
  - match goal with Hq : q_pop _ = None |- _ => by rewrite Hq end.
  - match goal with Hq : q_push _ _ = Some _ |- _ => apply contents_push in Hq as -> end.
    rewrite <- HG. solve_Permutation.
Qed.

(** How far a worker is from its wait. *)
Definition distance (pc : worker_pc nat) : nat :=
  match pc with
  | W_loop => 1 | W_start => 2 | W_check_target _ => 2 | W_check => 3 | W_sub => 4 | W_run _ => 5
  | _ => 0
  end.

Lemma approach_step p w pc :
  serving p -> threads_ p !! w = Some pc -> (0 < distance pc)%nat ->
  exists p' pc', exec sem_release (StepWorker w) p = Some p' /\ threads_ p' = <[w := pc']> (threads_ p) /\
    (distance pc' < distance pc)%nat /\ queue_ p' = queue_ p.
Proof.
  intros [Hst Htg _ HW _] Hw Hd. pose proof (Forall_lookup_1 _ _ _ _ HW Hw) as Hok. cbn [exec]. rewrite Hw.
  destruct pc; cbn in Hd, Hok; try lia; try done; cbn [mbind option_bind touches worker].
  2: { cbn [touch stop_]. rewrite Hst. eexists _, _. split; [reflexivity|]. cbn. split_and!; [done|cbn; lia|done]. }
  5: { cbn [touch target_thread_count_]. rewrite Htg, (proj2 (Z.ltb_ge _ _)) by done.
       eexists _, _. split; [reflexivity|]. cbn. split_and!; [done|cbn; lia|done]. }
  all: eexists _, _; (split; [reflexivity|]); cbn; split_and!; [done|cbn; lia|done].
Qed.
End service.

(** ** The system in service *)

Section system.
Context {J : Type} `{JsonLib J}.
Context {Q : Type} `{LockFreeQueueLaws Q nat}.
Context (sem_release : semaphore) (json_what : json_exn -> string) (cores : nat).
Implicit Types (s : system J Q) (p : pool Q nat).

(** Tasks are submitted within their retry limit and the pool is not destroyed. *)
Definition sys_serving (a : sys_act J) s : option (system J Q) :=
  match a with
  | S_destroy => None
  | S_exec a => _ ← exec_bounded a (ex s); sys_exec sem_release (S_exec a) s
  | a => sys_exec sem_release a s
  end.

Record serve_inv s : Prop := {
  v_sys : sys_inv sem_release json_what cores s;
  v_settle : settle_inv (Z.of_nat cores) (ex s);
  v_pool : serving cores (tp s);
  v_backlog : queued (ex s) ≡ₚ backlog (tp s);
}.

Lemma fresh_reach p :
  reachable (exec sem_release) (fun p0 => p0 = ThreadPool cores 1024) p -> reachable (exec sem_release) fresh p.
Proof. apply reachable_mono. intros p0 ->. by eexists _, _. Qed.

Hypothesis cores_fit : Z.of_nat cores < 2 ^ 64.

Lemma pool_step_served s a p' :
  serve_inv s -> service_act a -> exec sem_release a (tp s) = Some p' ->
  serving cores p' /\ gives a ++ backlog (tp s) ≡ₚ takes a (tp s) ++ backlog p'.
Proof.
  intros HI Ha E. eapply service_step; [apply HI| |done|done].
  pose proof (g_len _ _ (v_pool _ HI)) as Hl. rewrite <- Hl. eapply active_bound; [|lia].
  apply fresh_reach, (s_tp _ _ _ _ (v_sys _ HI)).
Qed.

Lemma serve_exec s a s' :
  serve_inv s -> sys_serving (S_exec a) s = Some s' -> starts a = false -> serve_inv s'.
Proof.
  intros HI E Ha. cbn [sys_serving] in E. apply bind_Some in E as (e & Eb & E).
  pose proof (sys_step _ _ _ _ _ _ (v_sys _ HI) E) as HS. pose proof (bounded_exec _ _ _ Eb) as Ee.
  assert (exists p', run (exec sem_release) ((fun i => Call (OpEnqueue i)) <$> enqueues a (ex s)) (tp s) = Some p' /\
    s' = mkSystem e p' (works s)) as (p' & Er & ->).
  { cbn [sys_exec] in E. destruct a; try done; rewrite Ee in E; cbn [mbind option_bind] in E;
      apply bind_Some in E as (p' & Ep & E); simplify_eq; eauto. }
  destruct (exec_effect _ _ _ Ee Ha) as (Hq & _).
  destruct (enqueues_one a (ex s)) as [Hn|[i Hn]]; rewrite Hn in Hq, Er; cbn [fmap list_fmap run] in Er.
  - rewrite app_nil_r in Hq. injection Er as <-. split; cbn; try done; [by eapply settle_step; [apply HI|]|apply HI|].
    rewrite Hq. apply HI.
  - apply bind_Some in Er as (p1 & Ep & [= <-]).
    destruct (pool_step_served _ (Call (OpEnqueue i)) _ HI I Ep) as [HP HB].
    split; cbn; try done; [by eapply settle_step; [apply HI|]|]. rewrite Hq, (v_backlog _ HI). cbn in HB.
    rewrite <- HB. solve_Permutation.
Qed.

Lemma serve_worker s w s' : serve_inv s -> sys_serving (S_worker w) s = Some s' -> serve_inv s'.
Proof.
  intros HI E. pose proof (sys_step _ _ _ _ _ _ (v_sys _ HI) E) as HS. cbn [sys_serving sys_exec] in E.
  unfold sys_worker in E. apply bind_Some in E as (pc & Hpc & (p' & Ep & E)%bind_Some).
  destruct (pool_step_served _ (StepWorker w) _ HI I Ep) as [HP HB]. cbn [gives takes] in HB. rewrite Hpc in HB.
  assert (forall ws, s' = mkSystem (ex s) p' ws -> backlog (tp s) ≡ₚ backlog p' -> serve_inv s') as Hplain.
  { intros ws -> HB'. split; try done; cbn; [apply HI|]. rewrite <- HB'. apply HI. }
  destruct pc; try (simplify_eq; by eapply Hplain).
  - destruct (q_pop (queue_ (tp s))) as [[i q]|] eqn:Hq; [|simplify_eq; by eapply Hplain].
    destruct (pop_starts _ _ _ _ _ _ _ (v_sys _ HI) Hpc Hq) as (j & Hj%position_lookup & Ee). simplify_eq.
    destruct (start_effect _ _ _ Ee) as (i' & Hi' & Hqd & _). simplify_eq.
    split; cbn [ex tp works]; [done|exact (settle_step _ (StartRun j) _ _ (v_settle _ HI) Ee)|done|].
    rewrite Hqd. apply (Permutation_cons_inv (a := i)). rewrite <- (delete_Permutation _ _ _ Hj), (v_backlog _ HI).
    exact HB.
  - apply bind_Some in E as (k & _ & E). repeat case_match; simplify_eq. by eapply Hplain.
Qed.

Lemma serve_pool s a p' :
  serve_inv s -> service_act a -> gives a = [] -> takes a (tp s) = [] -> exec sem_release a (tp s) = Some p' ->
  sys_inv sem_release json_what cores (mkSystem (ex s) p' (works s)) -> serve_inv (mkSystem (ex s) p' (works s)).
Proof.
  intros HI Ha Hg Ht E HS. destruct (pool_step_served _ _ _ HI Ha E) as [HP HB]. rewrite Hg, Ht in HB.
  split; try done; cbn; [apply HI|]. rewrite <- HB. apply HI.
Qed.

Lemma serve_step a s s' : serve_inv s -> sys_serving a s = Some s' -> serve_inv s'.
Proof.
  intros HI E. destruct a as [a|w|w|c|].
  - destruct (starts a) eqn:Ha; [|by eapply serve_exec]. destruct a; try done. cbn in E. by apply bind_Some in E as (? & _ & ?).
  - by eapply serve_worker.
  - pose proof (sys_step _ _ _ _ _ _ (v_sys _ HI) E) as HS. cbn [sys_serving sys_exec] in E.
    apply bind_Some in E as (p' & E & ?). simplify_eq. by apply (serve_pool _ (Timeout w)).
  - pose proof (sys_step _ _ _ _ _ _ (v_sys _ HI) E) as HS. cbn [sys_serving sys_exec] in E.
    apply bind_Some in E as (p' & E & ?). simplify_eq. by apply (serve_pool _ (StepCaller c)).
  - done.
Qed.

Lemma serve_init : serve_inv (system_init json_what cores).
Proof.
  split; cbn.
  - apply sys_init_inv.
  - by eapply (reach_settle json_what), reach_init.
  - split; cbn; rewrite ?length_replicate; try done. by apply Forall_replicate.
  - unfold backlog. cbn. by rewrite contents_new.
Qed.

Lemma reach_serve s :
  reachable sys_serving (fun s0 => s0 = system_init json_what cores) s -> serve_inv s.
Proof. revert s. apply reachable_invariant; [intros s ->; apply serve_init | intros; by eapply serve_step]. Qed.

(** ** Moving on by itself *)

(** Steps that are nobody's call: the workers, the calls in progress, the clock
    and what the executor does by itself. *)
Definition own_act (a : sys_act J) : Prop :=
  match a with
  | S_worker _ | S_timeout _ | S_caller _ => True
  | S_exec a => internal a = true \/ exists d, a = Tick d
  | S_destroy => False
  end.
(** Some of those, none of which takes the semaphore past its maximum. *)
Definition goes_on s s' : Prop :=
  exists tr, Forall own_act tr /\ run sys_serving tr s = Some s' /\ sem_ok (tp s') = sem_ok (tp s).

Lemma goes_on_refl s : goes_on s s.
Proof. by exists []. Qed.

(** Only a call in progress releases the semaphore. *)
Definition releases (a : sys_act J) : bool := match a with S_caller _ | S_destroy => true | _ => false end.

Lemma keeps_sem a s s' : releases a = false -> sys_serving a s = Some s' -> sem_ok (tp s') = sem_ok (tp s).
Proof.
  assert (forall a w p p', exec sem_release a p = Some p' -> a = StepWorker w \/ a = Timeout w ->
    sem_ok p' = sem_ok p) as HW.
  { clear. intros a w p p' E Ha. by pool_step E; destruct Ha. }
  intros Ha E. destruct a as [a|w|w|c|]; try done; cbn [sys_serving sys_exec] in E.
  - apply bind_Some in E as (e & _ & E).
    assert (exists p' ws e', run (exec sem_release) ((fun i => Call (OpEnqueue i)) <$> enqueues a (ex s)) (tp s) = Some p' /\
      s' = mkSystem e' p' ws) as (p' & ws & e' & Er & ->).
    { destruct a; try done; apply bind_Some in E as (e' & _ & (p' & Ep & E)%bind_Some); simplify_eq; eauto. }
    destruct (enqueues_one a (ex s)) as [Hn|[i Hn]]; rewrite Hn in Er; cbn in Er; by simplify_eq.
  - unfold sys_worker in E. apply bind_Some in E as (pc & _ & (p' & Ep & E)%bind_Some).
    enough (tp s' = p') as -> by (eapply (HW (StepWorker w)); [exact Ep|by left]).
    destruct pc; try (by simplify_eq); try (apply bind_Some in E as (k & _ & E)); repeat case_match; by simplify_eq.
  - apply bind_Some in E as (p' & Ep & E). simplify_eq. eapply (HW (Timeout w)); [exact Ep|by right].
Qed.

Lemma goes_on_trans s1 s2 s3 : goes_on s1 s2 -> goes_on s2 s3 -> goes_on s1 s3.
Proof.
  intros (tr1 & Ho1 & E1 & K1) (tr2 & Ho2 & E2 & K2). exists (tr1 ++ tr2). split; [by apply Forall_app|].
  split; [by rewrite run_app, E1|congruence].
Qed.

Lemma goes_one a s s' : own_act a -> releases a = false -> sys_serving a s = Some s' -> goes_on s s'.
Proof.
  intros Ha Hr E. exists [a]. split; [by repeat constructor|]. split; [cbn; by rewrite E|]. by eapply keeps_sem.
Qed.

Lemma goes_serve s s' : serve_inv s -> goes_on s s' -> serve_inv s'.
Proof. intros HI (tr & _ & E & _). revert E. by apply run_invariant; [intros; by eapply serve_step|]. Qed.

(** Calls in progress move on. *)
Lemma callers_move s tr p' :
  (forall a, a ∈ tr -> exists c, a = StepCaller c) -> run (exec sem_release) tr (tp s) = Some p' ->
  sem_ok p' = sem_ok (tp s) -> goes_on s (mkSystem (ex s) p' (works s)).
Proof.
  intros Ha E Hok. enough (exists tr', Forall own_act tr' /\ run sys_serving tr' s = Some (mkSystem (ex s) p' (works s)))
    as (tr' & Ho & Er) by (by exists tr').
  clear Hok. revert s Ha E. induction tr as [|a tr IH]; intros s Ha E; cbn [run] in E.
  - injection E as <-. exists []. by destruct s.
  - apply bind_Some in E as (p1 & E1 & E). destruct (Ha a ltac:(set_solver)) as [c ->].
    destruct (IH (mkSystem (ex s) p1 (works s))) as (tr' & Ho & Er); [set_solver|done|].
    exists (S_caller c :: tr'). split; [by constructor|]. cbn [run sys_serving sys_exec]. by rewrite E1.
Qed.

(** A worker comes round to its wait, unless it is about to pop. *)
Lemma approach s w :
  serve_inv s -> total busy (runs (ex s)) = 0 -> (w < cores)%nat ->
  exists s', goes_on s s' /\ ex s' = ex s /\ queue_ (tp s') = queue_ (tp s) /\
    (threads_ (tp s') !! w = Some W_wait \/ threads_ (tp s') !! w = Some W_pop).
Proof.
  intros HI Hb Hw. destruct (lookup_lt_is_Some_2 (threads_ (tp s)) w) as [pc Hpc].
  { by rewrite (g_len _ _ (v_pool _ HI)). }
  remember (distance pc) as n eqn:Hn. revert s pc HI Hb Hpc Hn. induction n as [n IH] using lt_wf_ind; intros s pc HI Hb Hpc ->.
  pose proof (Forall_lookup_1 _ _ _ _ (g_workers _ _ (v_pool _ HI)) Hpc) as Hok.
  destruct (decide (distance pc = 0%nat)) as [Hz|Hz].
  { exists s. split; [apply goes_on_refl|]. split_and!; [done..|]. destruct pc; cbn in Hz, Hok; try lia; try done; auto. }
  destruct (approach_step sem_release cores (tp s) w pc (v_pool _ HI) Hpc) as (p' & pc' & Ep & Ht & Hd & Hq); [lia|].
  assert (exists ws, sys_serving (S_worker w) s = Some (mkSystem (ex s) p' ws)) as [ws E].
  { cbn [sys_serving sys_exec]. unfold sys_worker. rewrite Hpc, Ep. cbn [mbind option_bind].
    destruct pc; cbn in Hz; try lia; try by eauto.
    pose proof (v_sys _ HI) as HS. destruct (lookup_lt_is_Some_2 (works s) w) as [o Ho].
    { rewrite (s_len _ _ _ _ HS). by eapply lookup_lt_Some. }
    destruct o as [k|]; [|by pose proof (proj1 (s_works _ _ _ _ HS _ _ _ Hpc Ho) eq_refl)].
    rewrite Ho. cbn [mjoin option_join mbind option_bind].
    destruct (lookup_lt_is_Some_2 (runs (ex s)) k) as [pk Hk]; [by eapply (s_range _ _ _ _ HS), list_elem_of_lookup_2|].
    rewrite Hk, (idle_done _ _ _ Hb Hk). eauto. }
  assert (goes_on s (mkSystem (ex s) p' ws)) as HG by (by eapply (goes_one (S_worker w))).
  destruct (IH (distance pc') ltac:(lia) (mkSystem (ex s) p' ws) pc') as (s' & HG' & He & Hq' & Hw');
    [by eapply goes_serve|done| |done|].
  { cbn. rewrite Ht. apply list_lookup_insert_eq. by eapply lookup_lt_Some. }
  exists s'. split_and!; [by eapply goes_on_trans|done|by rewrite Hq'|done].
Qed.

(** *** A queued closure is started *)

(** The semaphore counts within its maximum, and a node can be had for a push to an
    empty queue. *)
Hypothesis sem_counts : forall c n, 0 <= c -> n <= sem_max sem_release - c -> sem_release c n = c + n.
Hypothesis push_empty : forall (q : Q) (i : nat), contents q = [] -> is_Some (q_push q i).

Definition less_work s s' : Prop := goes_on s s' /\ work (ex s') < work (ex s).

Lemma less_after s s1 s' : goes_on s s1 -> ex s1 = ex s -> less_work s1 s' -> less_work s s'.
Proof. intros HG He [HG' HW]. split; [by eapply goes_on_trans|]. by rewrite <- He. Qed.

Lemma bounded_less s a s' :
  serve_inv s -> internal a = true -> exec_bounded a (ex s) = Some (ex s') -> goes_on s s' -> less_work s s'.
Proof.
  intros HI Ha E HG. split; [done|]. pose proof (work_step _ _ _ _ (v_settle _ HI) E) as HW.
  rewrite Ha in HW. destruct a; cbn [cost_of] in HW; try done; lia.
Qed.

Lemma pop_now s w :
  serve_inv s -> threads_ (tp s) !! w = Some W_pop -> contents (queue_ (tp s)) <> [] -> exists s', less_work s s'.
Proof.
  intros HI Hw Hc. destruct (q_pop (queue_ (tp s))) as [[i q]|] eqn:Hq; [|by apply contents_pop_None in Hq].
  destruct (pop_starts _ _ _ _ _ _ _ (v_sys _ HI) Hw Hq) as (j & _ & Ee).
  set (p' := set_worker w (W_run i) (did_pop i q (tp s))).
  assert (sys_serving (S_worker w) s =
    Some (mkSystem (begin_run i (ex s)) p' (<[w := Some (length (runs (ex s)))]> (works s)))) as E.
  { cbn [sys_serving sys_exec]. unfold sys_worker. cbn [exec]. rewrite Hw. cbn [mbind option_bind touches worker].
    rewrite Hq. done. }
  eexists. refine (bounded_less s (StartRun j) _ HI eq_refl _ (goes_one (S_worker w) _ _ I eq_refl E)). exact Ee.
Qed.

Lemma permit_now s w :
  serve_inv s -> threads_ (tp s) !! w = Some W_wait -> 0 < task_sem_ (tp s) -> contents (queue_ (tp s)) <> [] ->
  exists s', less_work s s'.
Proof.
  intros HI Hw Hs Hc. set (s1 := mkSystem (ex s) (set_worker w W_pop (acquire_sem (touch (tp s)))) (works s)).
  assert (sys_serving (S_worker w) s = Some s1) as E.
  { cbn [sys_serving sys_exec]. unfold sys_worker. cbn [exec]. rewrite Hw. cbn [mbind option_bind touches worker].
    cbn [touch task_sem_]. by rewrite (proj2 (Z.ltb_lt _ _) Hs). }
  assert (goes_on s s1) as HG by (by eapply (goes_one (S_worker w))).
  destruct (pop_now s1 w) as [s' HL]; [by eapply goes_serve| |done|].
  - cbn. apply list_lookup_insert_eq. by eapply lookup_lt_Some.
  - exists s'. by eapply less_after.
Qed.

(** Tasks in the queue: a worker that waits is enough. *)
Lemma queued_now s w :
  serve_inv s -> sem_ok (tp s) = true -> contents (queue_ (tp s)) <> [] ->
  threads_ (tp s) !! w = Some W_wait \/ threads_ (tp s) !! w = Some W_pop -> exists s', less_work s s'.
Proof.
  intros HI Hok Hc [Hw|Hw]; [|by eapply pop_now].
  assert (counting sem_release (tp s)) as HC by (by right).
  destruct (reachable_permits sem_release (tp s) (fresh_reach _ (s_tp _ _ _ _ (v_sys _ HI))) HC) as [Hz HP].
  destruct (contents (queue_ (tp s))) as [|i q] eqn:Hq; [done|]. cbn [length] in HP.
  destruct (Z.lt_ge_cases 0 (total permit (threads_ (tp s)))) as [(j & pc & Hj & Hpc)%total_pos|Hp].
  { destruct pc; cbn in Hpc; try lia. eapply pop_now; [done|done|congruence]. }
  destruct (decide (0 < task_sem_ (tp s))) as [Hs|Hs]; [by eapply permit_now; [| | |congruence]|].
  destruct (total_pos owed (callers (tp s))) as (k & pc & Hk & Hpc); [lia|].
  destruct (owed_releases sem_release (tp s) k pc Hk Hpc HC) as (tr & p1 & _ & Htr & E & HS & HQ & HT & HK & _); [lia|].
  assert (goes_on s (mkSystem (ex s) p1 (works s))) as HG.
  { eapply callers_move; [|exact E|exact HK]. intros a ->%Htr. eauto. }
  destruct (permit_now (mkSystem (ex s) p1 (works s)) w) as [s' HL];
    [by eapply goes_serve|cbn; by rewrite HT|cbn; lia|cbn; rewrite HQ; congruence|].
  exists s'. by eapply less_after.
Qed.

(** A closure on its way into an empty queue gets there. *)
Lemma push_now s :
  serve_inv s -> contents (queue_ (tp s)) = [] -> queued (ex s) <> [] ->
  exists s', goes_on s s' /\ ex s' = ex s /\ contents (queue_ (tp s')) <> [].
Proof.
  intros HI Hq Hne. pose proof (v_backlog _ HI) as HB. unfold backlog in HB. rewrite Hq, app_nil_r in HB.
  destruct (gather waiting (callers (tp s))) as [|i l] eqn:Hg; [by apply Permutation_nil_r in HB|].
  assert (i ∈ gather waiting (callers (tp s))) as (c & pc & Hc & Hi)%gather_elem by (rewrite Hg; set_solver).
  pose proof (g_stop _ _ (v_pool _ HI)) as Hst.
  assert (forall p, queue_ p = queue_ (tp s) -> callers p !! c = Some (C_push i) ->
    exists p', exec sem_release (StepCaller c) p = Some p' /\ contents (queue_ p') = [i] /\ sem_ok p' = sem_ok p) as Hpush.
  { intros p Hqp Hcp. destruct (push_empty (queue_ p) i) as [q' Hq']; [congruence|].
    exists (set_caller c C_count (did_push i q' p)). cbn [exec]. rewrite Hcp. cbn [mbind option_bind caller]. rewrite Hq'.
    split; [done|]. split; [|done]. cbn. apply contents_push in Hq'. by rewrite Hq', Hqp, Hq. }
  assert (forall tr p', (forall a, a ∈ tr -> exists c, a = StepCaller c) -> run (exec sem_release) tr (tp s) = Some p' ->
    contents (queue_ p') = [i] -> sem_ok p' = sem_ok (tp s) -> exists s', goes_on s s' /\ ex s' = ex s /\ contents (queue_ (tp s')) <> []) as Hdone.
  { intros tr p' Htr Er Hcq Hk. exists (mkSystem (ex s) p' (works s)).
    split_and!; [by eapply callers_move|done|cbn; by rewrite Hcq]. }
  set (p1 := set_caller c (C_push i) (tp s)).
  assert (callers p1 !! c = Some (C_push i)) as Hc1 by (apply list_lookup_insert_eq; by eapply lookup_lt_Some).
  destruct pc; cbn in Hi; try (by apply elem_of_nil in Hi); apply list_elem_of_singleton in Hi as ->.
  - destruct (Hpush p1 eq_refl Hc1) as (p' & Ep & Hcq & Hk). apply (Hdone [StepCaller c; StepCaller c] p'); [set_solver| |done|done].
    assert (exec sem_release (StepCaller c) (tp s) = Some p1) as E1 by (cbn; rewrite Hc; cbn; by rewrite Hst).
    cbn [run]. rewrite E1. cbn [mbind option_bind]. by rewrite Ep.
  - destruct (Hpush (tp s) eq_refl Hc) as (p' & Ep & Hcq & Hk). apply (Hdone [StepCaller c] p'); [set_solver| |done|done].
    cbn [run]. by rewrite Ep.
  - destruct (Hpush p1 eq_refl Hc1) as (p' & Ep & Hcq & Hk). apply (Hdone [StepCaller c; StepCaller c] p'); [set_solver| |done|done].
    assert (exec sem_release (StepCaller c) (tp s) = Some p1) as E1 by (cbn; rewrite Hc; cbn; by rewrite Hst).
    cbn [run]. rewrite E1. cbn [mbind option_bind]. by rewrite Ep.
Qed.

Hypothesis some_core : (0 < cores)%nat.

Lemma goes_ok s s' : goes_on s s' -> sem_ok (tp s) = true -> sem_ok (tp s') = true.
Proof. intros (tr & _ & _ & Hk) ?. congruence. Qed.

Lemma closure_starts s :
  serve_inv s -> sem_ok (tp s) = true -> total busy (runs (ex s)) = 0 -> queued (ex s) <> [] -> exists s', less_work s s'.
Proof.
  intros HI Hok Hb Hq.
  assert (exists s1, goes_on s s1 /\ ex s1 = ex s /\ contents (queue_ (tp s1)) <> []) as (s1 & HG1 & He1 & Hc1).
  { destruct (contents (queue_ (tp s))) eqn:Hc; [by apply push_now|].
    exists s. split; [apply goes_on_refl|]. split; [done|congruence]. }
  pose proof (goes_serve _ _ HI HG1) as HI1.
  destruct (approach s1 0 HI1) as (s2 & HG2 & He2 & Hq2 & Hw); [by rewrite He1|done|].
  destruct (queued_now s2 0) as [s' HL]; [by eapply goes_serve|by eapply goes_ok; [|eapply goes_ok]|by rewrite Hq2|done|].
  exists s'. eapply less_after; [exact HG1|done|]. by eapply less_after.
Qed.

(** A step the executor makes by itself is one of the system, closures apart. *)
Lemma executor_step s a e' :
  serve_inv s -> internal a = true \/ (exists d, a = Tick d) -> starts a = false -> exec_bounded a (ex s) = Some e' ->
  exists s', sys_serving (S_exec a) s = Some s' /\ ex s' = e'.
Proof.
  intros HI Ha Hs Eb. pose proof (bounded_exec _ _ _ Eb) as Ee.
  assert (exists p', run (exec sem_release) ((fun i => Call (OpEnqueue i)) <$> enqueues a (ex s)) (tp s) = Some p') as [p' Er].
  { destruct (enqueues_one a (ex s)) as [->|[i ->]]; cbn; eauto. }
  exists (mkSystem e' p' (works s)). split; [|done]. cbn [sys_serving]. rewrite Eb. cbn [mbind option_bind sys_exec].
  destruct a; try done; by rewrite Ee; cbn [mbind option_bind]; rewrite Er.
Qed.

Lemma system_progress s :
  serve_inv s -> sem_ok (tp s) = true -> functions_end (ex s) -> 0 < work (ex s) -> exists s', less_work s s'.
Proof.
  intros HI Hok HF Hw. pose proof (v_settle _ HI) as HV.
  assert (forall a, internal a = true -> starts a = false -> is_Some (exec_bounded a (ex s)) -> exists s', less_work s s') as Hone.
  { intros a Ha Hs [e' E]. destruct (executor_step s a e' HI (or_introl Ha) Hs E) as (s' & Es & <-).
    exists s'. eapply bounded_less; [done|exact Ha|done|]. apply (goes_one (S_exec a)); [by left|done|done]. }
  destruct (Z.lt_ge_cases 0 (total busy (runs (ex s)))) as [Hb|Hb].
  { apply total_pos in Hb as (r & pc & Hr & Hpc). destruct (sv_acts _ _ HV) as [_ HA].
    destruct (act_enabled _ _ _ (HA _ _ Hr) Hr) as [Hs|(i & tm & seen & t & f & c & _ & Ht & Hf & He)].
    - by intros ->.
    - by apply (Hone (StepRun r)).
    - apply (Hone (FnReturn r c 0)); [done|done|]. apply He. by eapply HF. }
  assert (total busy (runs (ex s)) = 0) as Hz.
  { pose proof (total_nonneg busy (runs (ex s)) ltac:(intros []; cbn; lia)). lia. }
  destruct (decide (queued (ex s) = [])) as [Hq|Hq]; [|by apply closure_starts].
  assert (total (run_work (tasks (ex s))) (runs (ex s)) = 0) as HR.
  { apply total_zero. intros pc [r Hr]%list_elem_of_lookup. by rewrite (idle_done _ _ _ Hz Hr). }
  unfold work, work_of in Hw. rewrite Hq, HR in Hw. cbn in Hw.
  destruct (total_pos (timer_work (tasks (ex s))) (timers (ex s))) as (m & t & Hm & Ht); [lia|].
  destruct (timer_enabled _ _ _ _ HV Hm Ht) as (d & a & e' & Hd & Ha & E).
  cbn [run] in E. apply bind_Some in E as (e1 & E1 & E). apply bind_Some in E as (e2 & E2 & [= ->]).
  destruct (executor_step s (Tick d) e1 HI) as (s1 & Es1 & He1); [by eauto|done|done|].
  assert (goes_on s s1) as HG1 by (apply (goes_one (S_exec (Tick d))); [by right; exists d|done|done]).
  pose proof (goes_serve _ _ HI HG1) as HI1.
  assert (starts a = false) as Hs.
  { destruct a; try done. exfalso.
    assert (queued e1 = []) as Hq1 by (clear - E1 Hq; cbn in E1; case_match; by simplify_eq).
    cbn in E2. by rewrite Hq1 in E2. }
  destruct (executor_step s1 a e' HI1 (or_introl Ha) Hs) as (s' & Es' & He'); [by rewrite He1|].
  exists s'. assert (less_work s1 s') as [HG' HW'].
  { eapply bounded_less; [done|exact Ha|by rewrite He1, He'|]. apply (goes_one (S_exec a)); [by left|done|done]. }
  split; [by eapply goes_on_trans|]. eapply Z.lt_le_trans; [exact HW'|]. rewrite He1.
  pose proof (work_step _ _ _ _ HV E1) as HT. cbn [internal cost_of] in HT. lia.
Qed.

(** The functions stay what they are. *)
Lemma functions_step e a e' :
  functions_end e -> internal a = true \/ (exists d, a = Tick d) -> exec_task a e = Some e' -> functions_end e'.
Proof.
  intros HF Ha E i t f c w Ht Hf. destruct (tasks_step _ _ _ E) as (l & Hl & Hlen & HK).
  assert (submitted a = []) as Hsub by (destruct Ha as [Ha|[d ->]]; [by destruct a|done]).
  rewrite Hsub, app_nil_r in Hl. rewrite Hl in Ht.
  destruct (lookup_lt_is_Some_2 (tasks e) i) as [t0 Ht0]; [rewrite <- Hlen; by eapply lookup_lt_Some|].
  destruct (HK _ _ Ht0) as (t' & Ht' & Hin & _). assert (t' = t) as -> by congruence.
  assert (functions_ e' = functions_ e) as Hfn.
  { clear - Ha E. destruct Ha as [Ha|[d ->]]; [|cbn in E; case_match; by simplify_eq]. exec_step E; done. }
  unfold inputs in Hin. assert (func_name t = func_name t0 /\ func_params t = func_params t0) as [Hn Hp] by (split; congruence).
  rewrite Hfn, Hn in Hf. rewrite Hp. by eapply HF.
Qed.

Lemma goes_functions s s' : functions_end (ex s) -> goes_on s s' -> functions_end (ex s').
Proof.
  intros HF (tr & Ho & E & _). revert s HF E. induction Ho as [|a tr Ha Ho IH]; intros s HF E; cbn [run] in E.
  { by injection E as <-. }
  apply bind_Some in E as (s1 & E1 & E). eapply IH; [|exact E]. clear - HF Ha E1.
  destruct a as [a|w|w|c|]; cbn [sys_serving sys_exec] in E1; try done.
  - apply bind_Some in E1 as (e & Eb & E1). pose proof (bounded_exec _ _ _ Eb) as Ee.
    enough (ex s1 = e) as -> by (by eapply functions_step).
    destruct a; try done; rewrite Ee in E1; cbn [mbind option_bind] in E1; apply bind_Some in E1 as (p' & _ & E1);
      by simplify_eq.
  - unfold sys_worker in E1. apply bind_Some in E1 as (pc & _ & (p' & _ & E1)%bind_Some).
    destruct pc; try (by simplify_eq).
    + by case_match; [case_match|]; simplify_eq.
    + apply bind_Some in E1 as (k & _ & E1). repeat case_match; by simplify_eq.
  - apply bind_Some in E1 as (p' & _ & E1). by simplify_eq.
  - apply bind_Some in E1 as (p' & _ & E1). by simplify_eq.
Qed.

Lemma work_runs_out s :
  serve_inv s -> sem_ok (tp s) = true -> functions_end (ex s) -> exists s', goes_on s s' /\ work (ex s') = 0.
Proof.
  remember (Z.to_nat (work (ex s))) as n eqn:Hn. revert s Hn.
  induction n as [n IH] using lt_wf_ind; intros s -> HI Hok HF. pose proof (work_nonneg (ex s)) as Hw.
  destruct (decide (work (ex s) = 0)) as [Hz|Hz]; [exists s; split; [apply goes_on_refl|done]|].
  destruct (system_progress s HI Hok HF) as (s1 & HG & HL); [lia|]. pose proof (work_nonneg (ex s1)).
  destruct (IH (Z.to_nat (work (ex s1))) ltac:(lia) s1 eq_refl) as (s' & HG' & Hz');
    [by eapply goes_serve|by eapply goes_ok|by eapply goes_functions|]. exists s'. split; [by eapply goes_on_trans|done].
Qed.

(** [C15] Every submitted task settles on the real pool.  From every state the
    executor and its pool can reach without having overrun the semaphore, however the
    calls, timers and workers have interleaved so far, they can finish by themselves:
    there is a sequence of steps of workers, of calls in progress, of timers and of the
    executor, with no new call from outside and no release past the semaphore's
    maximum, after which no closure is queued or under way, every
    activation has returned and every task is SUCCESS, FAILED or TIMEOUT, unless
    an exception that is not a [std::exception] has ended the process.  This is
    for tasks submitted within their retry limit, a pool of at least one thread that is
    not destroyed, functions that return or throw, a semaphore that counts within its
    maximum, and as long as a node can be allocated for an empty queue. *)
Theorem system_settles s :
  reachable sys_serving (fun s0 => s0 = system_init json_what cores) s -> sem_ok (tp s) = true ->
  functions_end (ex s) ->
  exists tr s', Forall own_act tr /\ run sys_serving tr s = Some s' /\ sem_ok (tp s') = true /\
    queued (ex s') = [] /\ backlog (tp s') = [] /\
    (forall r pc, runs (ex s') !! r = Some pc -> pc = R_done) /\
    (forall i t, tasks (ex s') !! i = Some t -> crashed (ex s') = true \/ final (state t) = true).
Proof.
  intros HI%reach_serve Hok HF. destruct (work_runs_out s HI Hok HF) as (s' & HG & Hz).
  pose proof (goes_serve _ _ HI HG) as HI'. destruct (no_work _ _ (v_settle _ HI') Hz) as (Hq & Hr & Ht).
  pose proof (goes_ok _ _ HG Hok) as Hok'. destruct HG as (tr & Ho & E & _). exists tr, s'. split_and!; try done.
  pose proof (v_backlog _ HI') as HB. rewrite Hq in HB. by apply Permutation_nil_l in HB.
Qed.
End system.

(** ** Traces *)

(** A queue that grows on demand, as the one of the pool does. *)
Module GrowingQueue.

#[export] Instance list_queue {T} : LockFreeQueue (list T) T := {|
  q_new _ := [];
  q_push q t := Some (q ++ [t]);
  q_pop q := match q with [] => None | t :: q => Some (t, q) end;
  q_empty q := match q with [] => true | _ => false end;
|}.

#[export] Instance list_queue_laws {T} : LockFreeQueueLaws (list T) T.
Proof.
  refine {| contents := fun q => q |}.
  - done.
  - intros q q' t. cbn. intros; by simplify_eq.
  - intros q q' t. cbn. case_match; intros; by simplify_eq.
  - intros q. cbn. by case_match.
  - intros q. cbn. by case_match.
Defined.
End GrowingQueue.

Module ServiceTraces.
Import JsonModel.
Import ExecutorTraces.
Import GrowingQueue.
Import PoolTraces.
#[local] Open Scope string_scope.

Definition sys0 : system jtree (list nat) := system_init what0 2.

(** One task has failed once and waits for its retry, its first closure run;
    a second one is between its push and the release of the semaphore. *)
Definition half_way : list (sys_act jtree) :=
  [S_exec (Register "flaky" flaky); S_exec (Submit (job "flaky" 5))] ++ replicate 4 (S_caller 0) ++
  replicate 4 (S_worker 1) ++
  [S_exec (StepRun 0); S_exec (StepRun 0); S_exec (FnReturn 0 None 0)] ++ replicate 3 (S_exec (StepRun 0)) ++
  [S_exec (Submit (with_cancelled (Some 2%positive) (job "flaky" 6))); S_caller 1; S_caller 1].
Definition sys1 : system jtree (list nat) := default sys0 (run (sys_serving saturating) half_way sys0).

Example half_way_state :
  queued (ex sys1) = [1%nat] /\ queue_ (tp sys1) = [1%nat] /\ callers (tp sys1) = [C_return; C_count] /\
  threads_ (tp sys1) = [W_start; W_run 0%nat] /\ runs (ex sys1) = [R_done] /\ length (tasks (ex sys1)) = 2%nat.
Proof. split_and!; vm_compute; reflexivity. Qed.

Lemma half_way_functions : functions_end (ex sys1).
Proof.
  assert (forall c w, match functions_ (ex sys1) !! "flaky" with
    | Some f => ends (f (JObj [("n", JUint 10)]) c w) | None => true end = true) as HE.
  { intros c [|w]; vm_compute; reflexivity. }
  assert (Forall (fun t => (func_name t, func_params t) = ("flaky", JObj [("n", JUint 10)])) (tasks (ex sys1))) as HT.
  { vm_compute. repeat constructor. }
  intros i t f c w Ht Hf. eapply Forall_lookup_1 in HT; [|exact Ht]. injection HT as Hn Hp.
  specialize (HE c w). rewrite Hn in Hf. rewrite Hp. by rewrite Hf in HE.
Qed.

Lemma system_settles_witness :
  exists tr s', Forall own_act tr /\ run (sys_serving saturating) tr sys1 = Some s' /\
    sem_ok (tp s') = true /\ queued (ex s') = [] /\ backlog (tp s') = [] /\
    (forall r pc, runs (ex s') !! r = Some pc -> pc = R_done) /\
    (forall i t, tasks (ex s') !! i = Some t -> crashed (ex s') = true \/ final (state t) = true).
Proof.
  apply (system_settles saturating what0 2).
  - lia.
  - cbn. intros. lia.
  - intros q i _. by eexists.
  - lia.
  - apply default_reachable; [done | vm_compute; reflexivity].
  - vm_compute. reflexivity.
  - exact half_way_functions.
Defined.
End ServiceTraces.
