(* ===== verification/HazardPointer.v ===== *)
(** * Hazard pointers (src/src/common/include/hazard_pointer.hpp)

    A domain keeps a linked list of hazard slots, a global list of retired
    objects and, per thread, a local list of retired objects.  A thread publishes
    the object it is about to use in a slot; an object is handed to its deleter
    only when no slot names it.

    The slots live at addresses: the index of a cell in [cells].  [new] appends
    a cell, so the list [head_], [next_], ... is a list in memory and the loops
    over it take fuel; [slots_ok] is the shape the operations maintain, and under
    it the number of cells is always enough.

    The first part gives every operation as it runs alone.  The second part
    interleaves them: the loads of a scan, the two stores of [release], the two
    stores that put a new slot on the list and the acquisitions of the mutexes are
    separate steps, and a store to a slot may be delayed in the store buffer of
    its thread, which the release/acquire orders of the code allow.

    Protection needs two things the code does not give: the store of [protect]
    visible before the check that follows it, and no scan between the two stores
    that put a new slot on the list.  [hazard_safety] is proved under them,
    [release_store_unsafe] and [half_linked_list_unsafe] are the executions
    without. *)

From S2P Require Import Prelude.
#[local] Open Scope Z_scope.

(** Thread ids; the default-constructed id means "no thread". *)
Abbreviation tid := nat (only parsing).
(** Non-null object addresses; a [T*] is an [option]. *)
Abbreviation addr := nat (only parsing).

Record HazardPointer := mkHP {
  hazard_ptr_ : option addr;
  owner_ : option tid;
  next_ : option nat;
}.

Inductive hp_abort := assertion_failed.

Section domain.
Context {D : Type}.                 (* std::function<void(T* )> *)

Record RetiredPtr := mkRetired { ptr_ : addr; deleter_ : D }.

Record ThreadData := mkThreadData {
  retired_list_ : list RetiredPtr;
  scan_threshold_ : nat;
  thread_id_ : option tid;
}.
Definition ThreadData_default : ThreadData := mkThreadData [] 100 None.

Record HazPtrDomain := mkDomain {
  cells : list HazardPointer;         (* the slots in memory *)
  head_ : option nat;
  global_retired_ : list RetiredPtr;
  all_thread_data_ : list tid;        (* &tl of the registered threads *)
  tls : list ThreadData;              (* tl_thread_data, by thread *)
}.
Implicit Types (d : HazPtrDomain) (r : RetiredPtr).

Definition kGlobalThreshold : nat := 5000.

Definition set_cells c d : HazPtrDomain :=
  mkDomain c (head_ d) (global_retired_ d) (all_thread_data_ d) (tls d).
Definition set_head h d : HazPtrDomain :=
  mkDomain (cells d) h (global_retired_ d) (all_thread_data_ d) (tls d).
Definition set_global g d : HazPtrDomain :=
  mkDomain (cells d) (head_ d) g (all_thread_data_ d) (tls d).
Definition set_registered a d : HazPtrDomain :=
  mkDomain (cells d) (head_ d) (global_retired_ d) a (tls d).
Definition set_tls ts d : HazPtrDomain :=
  mkDomain (cells d) (head_ d) (global_retired_ d) (all_thread_data_ d) ts.

Definition with_hazard (p : option addr) (c : HazardPointer) : HazardPointer :=
  mkHP p (owner_ c) (next_ c).
Definition with_owner (o : option tid) (c : HazardPointer) : HazardPointer :=
  mkHP (hazard_ptr_ c) o (next_ c).
Definition with_next (n : option nat) (c : HazardPointer) : HazardPointer :=
  mkHP (hazard_ptr_ c) (owner_ c) n.
Definition with_retired (l : list RetiredPtr) (t : ThreadData) : ThreadData :=
  mkThreadData l (scan_threshold_ t) (thread_id_ t).

Definition store_hazard (i : nat) (p : option addr) d : HazPtrDomain :=
  set_cells (alter (with_hazard p) i (cells d)) d.
Definition store_owner (i : nat) (o : option tid) d : HazPtrDomain :=
  set_cells (alter (with_owner o) i (cells d)) d.
Definition store_next (i : nat) (n : option nat) d : HazPtrDomain :=
  set_cells (alter (with_next n) i (cells d)) d.

(** ** Slots *)

(** The loop of [acquire]: the first cell without an owner.  The outer option
    is the fuel and a dangling [next_]. *)
Fixpoint find_free (fuel : nat) (cs : list HazardPointer) (current : option nat) : option (option nat) :=
  match current with
  | None => Some None
  | Some c =>
      match fuel with
      | O => None
      | S fuel =>
          x ← cs !! c;
          match owner_ x with
          | None => Some (Some c)
          | Some _ => find_free fuel cs (next_ x)
          end
      end
  end.

(** [new_hp] becomes the head of the list; its [next_] is still null. *)
Definition push_slot (this_id : tid) d : HazPtrDomain :=
  let new_hp := length (cells d) in
  set_head (Some new_hp) (set_cells (cells d ++ [mkHP None (Some this_id) None]) d).

(** [acquire], under [list_mutex_]. *)
Definition acquire (this_id : tid) d : option (nat * HazPtrDomain) :=
  found ← find_free (length (cells d)) (cells d) (head_ d);
  match found with
  | Some c => Some (c, store_owner c (Some this_id) d)
  | None =>
      let new_hp := length (cells d) in
      let old_head := head_ d in
      Some (new_hp, store_next new_hp old_head (push_slot this_id d))
  end.

(** [release]: the slot is cleared before the owner is checked. *)
Definition release (hp : option nat) (this_id : tid) d : outcome hp_abort HazPtrDomain :=
  match hp with
  | None => Ret d
  | Some i =>
      match cells d !! i with
      | None => Undef "dangling slot"
      | Some x =>
          let d := store_hazard i None d in
          if bool_decide (owner_ x = Some this_id) then Ret (store_owner i None d)
          else Throw assertion_failed
      end
  end.

(** The loop of [isProtected]. *)
Fixpoint find_ptr (fuel : nat) (cs : list HazardPointer) (current : option nat) (ptr : addr) : option bool :=
  match current with
  | None => Some false
  | Some c =>
      match fuel with
      | O => None
      | S fuel =>
          x ← cs !! c;
          if bool_decide (hazard_ptr_ x = Some ptr) then Some true else find_ptr fuel cs (next_ x) ptr
      end
  end.
Definition isProtected (ptr : addr) d : option bool := find_ptr (length (cells d)) (cells d) (head_ d) ptr.

(** ** Threads *)

Definition RegisterThread (this_id : tid) d : HazPtrDomain :=
  set_registered (all_thread_data_ d ++ [this_id])
    (set_tls (alter (fun t => mkThreadData (retired_list_ t) (scan_threshold_ t) (Some this_id)) this_id (tls d)) d).

Definition UnregisterThread (current_id : tid) d : HazPtrDomain :=
  set_registered
    (filter (fun t => (tls d !! t) ≫= thread_id_ <> Some current_id) (all_thread_data_ d)) d.

(** ** Reclamation *)

(** [global_retired_.splice(end, tl->retired_list_)] *)
Definition splice (t : tid) d : HazPtrDomain :=
  match tls d !! t with
  | Some tl => set_global (global_retired_ d ++ retired_list_ tl)
                 (set_tls (alter (with_retired []) t (tls d)) d)
  | None => d
  end.

(** The iterator loop of [reclaim_all]: [kept] is what lies before [it]. *)
Fixpoint reclaim_loop d (kept rest to_reclaim : list RetiredPtr)
    : option (list RetiredPtr * list RetiredPtr) :=
  match rest with
  | [] => Some (kept, to_reclaim)
  | r :: rest =>
      prot ← isProtected (ptr_ r) d;
      if negb prot then reclaim_loop d kept rest (to_reclaim ++ [r])
      else reclaim_loop d (kept ++ [r]) rest to_reclaim
  end.

(** The deleters are called in the order of the second component. *)
Definition reclaim_all d : option (HazPtrDomain * list RetiredPtr) :=
  res ← reclaim_loop d [] (global_retired_ d) [];
  Some (set_global res.1 d, res.2).

(** [Scan]; [locked] says whether the calling thread already holds
    [global_retired_mutex_], which is not recursive. *)
Definition Scan (locked : bool) d : outcome hp_abort (HazPtrDomain * list RetiredPtr) :=
  if locked then Undef "global_retired_mutex_ locked twice by one thread"
  else
    let d := foldl (fun d t => splice t d) d (all_thread_data_ d) in
    match reclaim_all d with
    | Some res => Ret res
    | None => Undef "corrupt slot list"
    end.

Definition RetirePointer (this_id : tid) (ptr : addr) (deleter : D) d
    : outcome hp_abort (HazPtrDomain * list RetiredPtr) :=
  match tls d !! this_id with
  | None => Undef "no such thread"
  | Some tl =>
      let l := retired_list_ tl ++ [mkRetired ptr deleter] in
      let d := set_tls (<[this_id := with_retired l tl]> (tls d)) d in
      if (scan_threshold_ tl <=? length l)%nat then
        let d := splice this_id d in
        if (kGlobalThreshold <? length (global_retired_ d))%nat then Scan true d
        else Ret (d, [])
      else Ret (d, [])
  end.

(** ** [HazPtrHolder]: the slot it holds *)

Record Holder := mkHolder { hazard_ptr_slot_ : option nat }.

Definition HazPtrHolder (this_id : tid) d : option (Holder * HazPtrDomain) :=
  res ← acquire this_id d; Some (mkHolder (Some res.1), res.2).

(** Move construction: the new holder, the moved-from one. *)
Definition holder_move (other : Holder) : Holder * Holder :=
  (mkHolder (hazard_ptr_slot_ other), mkHolder None).

Definition holder_release (this_id : tid) (h : Holder) d : outcome hp_abort (Holder * HazPtrDomain) :=
  match hazard_ptr_slot_ h with
  | Some i => d ← release (Some i) this_id d; Ret (mkHolder None, d)
  | None => Ret (h, d)
  end.

(** Move assignment of another object: [this], [other]. *)
Definition holder_assign (this_id : tid) (self other : Holder) d
    : outcome hp_abort (Holder * Holder * HazPtrDomain) :=
  res ← holder_release this_id self d;
  Ret (mkHolder (hazard_ptr_slot_ other), mkHolder None, res.2).

Definition protect (h : Holder) (ptr : option addr) d : HazPtrDomain :=
  match hazard_ptr_slot_ h with Some i => store_hazard i ptr d | None => d end.

Definition get (h : Holder) d : option addr :=
  match hazard_ptr_slot_ h with Some i => (cells d !! i) ≫= hazard_ptr_ | None => None end.

(** The domain's destructor: every cell on the list is deleted, in order. *)
Fixpoint destroy_loop (fuel : nat) (cs : list HazardPointer) (current : option nat) : option (list nat) :=
  match current with
  | None => Some []
  | Some c =>
      match fuel with
      | O => None
      | S fuel => x ← cs !! c; l ← destroy_loop fuel cs (next_ x); Some (c :: l)
      end
  end.

Definition HazPtrDomain_default (threads : nat) : HazPtrDomain :=
  mkDomain [] None [] [] (replicate threads ThreadData_default).
End domain.
Arguments RetiredPtr : clear implicits.
Arguments ThreadData : clear implicits.
Arguments HazPtrDomain : clear implicits.

(** ** The slot list *)

(** The address before [n]; the list runs from the newest cell to the oldest. *)
Definition before (n : nat) : option nat := match n with O => None | S n => Some n end.

Section slots.
Context {D : Type}.
Implicit Types (d : HazPtrDomain D) (cs : list HazardPointer).

Definition chained cs (h : option nat) : Prop :=
  h = before (length cs) /\ forall i x, cs !! i = Some x -> next_ x = before i.
Definition slots_ok d : Prop := chained (cells d) (head_ d).

(** Some slot names [p]. *)
Definition names (p : addr) (x : HazardPointer) : bool := bool_decide (hazard_ptr_ x = Some p).
Definition protected (p : addr) d : bool := existsb (names p) (cells d).

Lemma chained_alter f i cs h :
  (forall x, next_ (f x) = next_ x) -> chained cs h -> chained (alter f i cs) h.
Proof.
  intros Hf [Hh Hn]. split; [by rewrite length_alter|]. intros j x.
  rewrite list_lookup_alter. case_decide; subst; [|by eauto].
  intros (y & Hy & ->)%fmap_Some. rewrite Hf. eauto.
Qed.

Lemma chained_app cs o : chained cs (before (length cs)) ->
  chained (cs ++ [mkHP None o (before (length cs))]) (Some (length cs)).
Proof.
  intros [_ Hn]. split; [by rewrite length_app, Nat.add_1_r|]. intros i x Hx.
  apply lookup_app_Some in Hx as [Hx|[Hi Hx]]; [by eauto|].
  apply list_lookup_singleton_Some in Hx as [Hi' <-]. cbn. f_equal. lia.
Qed.

(** A push and the link that completes it. *)
Lemma push_link t (d : HazPtrDomain D) n :
  store_next (length (cells d)) n (push_slot t d) =
  set_head (Some (length (cells d))) (set_cells (cells d ++ [mkHP None (Some t) n]) d).
Proof.
  unfold store_next, push_slot, set_head, set_cells. cbn. f_equal.
  by rewrite alter_app_r_alt, Nat.sub_diag by done.
Qed.

(** The loops see every cell, from the newest to the oldest. *)
Lemma find_free_spec fuel cs n :
  (forall i x, cs !! i = Some x -> next_ x = before i) -> (n <= fuel)%nat -> (n <= length cs)%nat ->
  exists r, find_free fuel cs (before n) = Some r /\
    match r with
    | Some c => (c < n)%nat /\ (owner_ <$> cs !! c = Some None) /\
                forall j, (c < j < n)%nat -> owner_ <$> cs !! j <> Some None
    | None => forall j, (j < n)%nat -> owner_ <$> cs !! j <> Some None
    end.
Proof.
  intros Hn. revert n. induction fuel as [|fuel IH]; intros [|n] Hf Hl; try lia; cbn;
    try by (exists None; split; [done|]; intros j Hj; lia).
  destruct (lookup_lt_is_Some_2 cs n) as [x Hx]; [lia|]. rewrite Hx. cbn.
  destruct (owner_ x) as [o|] eqn:Ho.
  - rewrite (Hn _ _ Hx). destruct (IH n) as (r & Er & Hr); [lia|lia|]. exists r. split; [done|].
    assert (owner_ <$> cs !! n <> Some None) as Hnn by (rewrite Hx; cbn; congruence).
    destruct r as [c|].
    + destruct Hr as (? & ? & Hr). split_and!; [lia|done|]. intros j Hj.
      destruct (decide (j = n)) as [->|]; [done|]. apply Hr. lia.
    + intros j Hj. destruct (decide (j = n)) as [->|]; [done|]. apply Hr. lia.
  - exists (Some n). split; [done|]. rewrite Hx. cbn. split_and!; [lia|congruence|]. intros; lia.
Qed.

Lemma find_ptr_spec fuel cs n p :
  (forall i x, cs !! i = Some x -> next_ x = before i) -> (n <= fuel)%nat -> (n <= length cs)%nat ->
  find_ptr fuel cs (before n) p = Some (existsb (names p) (take n cs)).
Proof.
  intros Hn. revert n. induction fuel as [|fuel IH]; intros [|n] Hf Hl; try lia; try done.
  destruct (lookup_lt_is_Some_2 cs n) as [x Hx]; [lia|].
  cbn [before find_ptr]. rewrite Hx. cbn [mbind option_bind].
  rewrite (take_S_r _ _ _ Hx), existsb_app. cbn [existsb]. fold (names p x).
  rewrite (Hn _ _ Hx), IH by lia. destruct (names p x); cbn; f_equal; by rewrite ?orb_true_r, ?orb_false_r.
Qed.

Lemma isProtected_eq p d : slots_ok d -> isProtected p d = Some (protected p d).
Proof.
  intros [Hh Hn]. unfold isProtected. rewrite Hh, find_ptr_spec by done. by rewrite firstn_all.
Qed.

(** [acquire] always terminates and hands out a slot nobody owns: it
    returns a free cell of the list if there is one, else a new cell; the
    calling thread then owns it, its other fields and every other cell are
    unchanged, and the list keeps its shape. *)
Lemma acquire_spec t d :
  slots_ok d ->
  exists i d', acquire t d = Some (i, d') /\ slots_ok d' /\
    (if existsb (fun x => bool_decide (owner_ x = None)) (cells d)
     then owner_ <$> cells d !! i = Some None /\ cells d' = alter (with_owner (Some t)) i (cells d)
     else i = length (cells d) /\ cells d' = cells d ++ [mkHP None (Some t) (head_ d)]) /\
    global_retired_ d' = global_retired_ d /\ tls d' = tls d /\ all_thread_data_ d' = all_thread_data_ d.
Proof.
  intros Hok. pose proof Hok as [Hh Hn]. unfold acquire. rewrite Hh.
  destruct (find_free_spec (length (cells d)) (cells d) (length (cells d)) Hn) as (r & -> & Hr); [done|done|].
  cbn. destruct r as [c|].
  - destruct Hr as (Hc & Ho & _). eexists c, _. split; [done|]. split_and!; try done.
    + by apply chained_alter.
    + destruct (cells d !! c) as [x|] eqn:Hx; [|done]. cbn in Ho.
      rewrite (proj2 (existsb_exists _ _)); [by cbn|].
      exists x. split; [by eapply list_elem_of_In, list_elem_of_lookup_2|]. apply bool_decide_eq_true. congruence.
  - eexists _, _. split; [done|]. rewrite <- Hh, push_link. split_and!; try done.
    + unfold slots_ok. cbn. rewrite Hh. apply chained_app. by split.
    + rewrite (proj1 (not_true_iff_false _)); [done|]. intros (x & Hx & Ho)%existsb_exists.
      apply list_elem_of_In, list_elem_of_lookup in Hx as [j Hj]. apply bool_decide_eq_true in Ho.
      apply (Hr j); [by eapply lookup_lt_Some|]. rewrite Hj. cbn. by f_equal.
Qed.

Lemma reclaim_loop_eq d kept rest done_ :
  slots_ok d ->
  reclaim_loop d kept rest done_ =
  Some (kept ++ filter (fun r => protected (ptr_ r) d = true) rest,
        done_ ++ filter (fun r => protected (ptr_ r) d = false) rest).
Proof.
  intros Hok. revert kept done_. induction rest as [|r rest IH]; intros kept done_; cbn [reclaim_loop].
  - by rewrite !app_nil_r.
  - rewrite isProtected_eq by done. cbn [mbind option_bind].
    rewrite !filter_cons. destruct (protected (ptr_ r) d) eqn:E; cbn [negb]; rewrite IH;
      repeat case_decide; try done; by rewrite <- app_assoc.
Qed.

(** [reclaim_all], run alone, splits the global list exactly: the objects
    named by some slot stay, in order, and all others are handed to their
    deleters, in order. *)
Lemma reclaim_all_partition d :
  slots_ok d ->
  reclaim_all d =
  Some (set_global (filter (fun r => protected (ptr_ r) d = true) (global_retired_ d)) d,
        filter (fun r => protected (ptr_ r) d = false) (global_retired_ d)).
Proof. intros Hok. unfold reclaim_all. by rewrite reclaim_loop_eq. Qed.
End slots.

(** ** Retiring *)

Section retire.
Context {D : Type}.
Implicit Types (d : HazPtrDomain D).

(** Every object that has been retired and not deleted. *)
Definition retired_all d : list (RetiredPtr D) :=
  global_retired_ d ++ gather retired_list_ (tls d).

Lemma splice_perm t d : retired_all (splice t d) ≡ₚ retired_all d.
Proof.
  unfold retired_all, splice. destruct (tls d !! t) as [tl|] eqn:Ht; [|done].
  cbn [set_global set_tls global_retired_ tls]. rewrite <- app_assoc. f_equiv.
  rewrite (alter_insert_at _ _ _ _ Ht).
  pose proof (gather_insert retired_list_ _ _ _ (with_retired [] tl) Ht) as HP. cbn in HP. done.
Qed.

Lemma splice_cells t d : cells (splice t d) = cells d /\ head_ (splice t d) = head_ d.
Proof. unfold splice. by case_match. Qed.

Lemma splices_inv ts d :
  let d' := foldl (fun d t => splice t d) d ts in
  retired_all d' ≡ₚ retired_all d /\ cells d' = cells d /\ head_ d' = head_ d.
Proof.
  revert d. induction ts as [|t ts IH]; intros d; [done|]. cbn.
  destruct (IH (splice t d)) as (-> & -> & ->). split; [apply splice_perm | apply splice_cells].
Qed.

(** [Scan], run alone on a well-shaped list, always returns; it deletes
    only objects no slot names, and what it deletes together with what is still
    waiting is exactly what was waiting before. *)
Lemma Scan_conserves d :
  slots_ok d ->
  exists d' freed, Scan false d = Ret (d', freed) /\
    freed ++ retired_all d' ≡ₚ retired_all d /\
    (forall r, r ∈ freed -> protected (ptr_ r) d = false) /\
    (forall r, r ∈ global_retired_ d' -> protected (ptr_ r) d = true).
Proof.
  intros Hok. unfold Scan. destruct (splices_inv (all_thread_data_ d) d) as (HP & Hc & Hh).
  set (d1 := foldl _ d _) in *.
  assert (slots_ok d1) as Hok1 by (unfold slots_ok; by rewrite Hc, Hh).
  assert (forall p, protected p d1 = protected p d) as Hpr by (intros; unfold protected; by rewrite Hc).
  rewrite reclaim_all_partition by done. eexists _, _. split; [done|]. split_and!.
  - rewrite <- HP. unfold retired_all. cbn. rewrite app_assoc. f_equiv.
    rewrite Permutation_app_comm. clear. induction (global_retired_ d1) as [|r l IH]; [done|].
    rewrite !filter_cons. destruct (protected (ptr_ r) d1); repeat case_decide; try done; cbn.
    + by rewrite IH.
    + by rewrite <- Permutation_middle, IH.
  - intros r [Hr _]%list_elem_of_filter. by rewrite <- Hpr.
  - intros r [Hr _]%list_elem_of_filter. by rewrite <- Hpr.
Qed.

(** [C36] The three outcomes of [RetirePointer]: below the threshold the object
    only joins the local list; at the threshold the local list moves to the
    global one; and when that makes the global list longer than its threshold,
    the call enters [Scan] with [global_retired_mutex_] already locked and
    locks it again, which is undefined. *)
Theorem RetirePointer_cases t tl p del d :
  tls d !! t = Some tl ->
  let l := retired_list_ tl ++ [mkRetired p del] in
  ((length l < scan_threshold_ tl)%nat ->
   RetirePointer t p del d = Ret (set_tls (<[t := with_retired l tl]> (tls d)) d, [])) /\
  ((scan_threshold_ tl <= length l)%nat ->
   (length (global_retired_ d) + length l <= kGlobalThreshold)%nat ->
   RetirePointer t p del d =
   Ret (set_global (global_retired_ d ++ l) (set_tls (<[t := with_retired [] tl]> (tls d)) d), [])) /\
  ((scan_threshold_ tl <= length l)%nat ->
   (kGlobalThreshold < length (global_retired_ d) + length l)%nat ->
   RetirePointer t p del d = Undef "global_retired_mutex_ locked twice by one thread").
Proof.
  intros Ht l. unfold RetirePointer. rewrite Ht. fold l.
  assert (t < length (tls d))%nat as Hlt by (by eapply lookup_lt_Some).
  set (d1 := set_tls (<[t := with_retired l tl]> (tls d)) d).
  assert (splice t d1 =
    set_global (global_retired_ d ++ l) (set_tls (<[t := with_retired [] tl]> (tls d)) d)) as Hsp.
  { unfold splice. cbn [d1 set_tls tls]. rewrite list_lookup_insert_eq by done.
    rewrite (alter_insert_at _ _ _ (with_retired l tl)) by (by apply list_lookup_insert_eq).
    by rewrite list_insert_insert_eq. }
  rewrite Hsp. cbn [set_global global_retired_]. rewrite length_app.
  split_and!; [intros H1 | intros H1 H2 ..].
  - by rewrite (proj2 (Nat.leb_gt _ _)) by done.
  - by rewrite (proj2 (Nat.leb_le _ _)), (proj2 (Nat.ltb_ge _ _)) by done.
  - by rewrite (proj2 (Nat.leb_le _ _)), (proj2 (Nat.ltb_lt _ _)) by done.
Qed.

(** Objects retired by a thread that is not registered wait in its own list:
    no scan looks there. *)
Lemma splices_other ts t d :
  t ∉ ts -> tls (foldl (fun d t => splice t d) d ts) !! t = tls d !! t.
Proof.
  revert d. induction ts as [|u ts IH]; intros d Hu; [done|]. cbn. rewrite IH by set_solver.
  unfold splice. case_match; [|done]. cbn [set_global set_tls tls].
  rewrite list_lookup_alter. case_decide; [set_solver|done].
Qed.

(** After [UnregisterThread] nothing scans the objects the thread still has
    in its local list: every later scan leaves that list as it is, whatever the
    slots name. *)
Lemma unregistered_list_stranded t tl d d' freed :
  tls d !! t = Some tl -> thread_id_ tl = Some t ->
  Scan false (UnregisterThread t d) = Ret (d', freed) -> tls d' !! t = Some tl.
Proof.
  intros Ht Hid. unfold Scan. set (d1 := UnregisterThread t d).
  assert (t ∉ all_thread_data_ d1) as Hno.
  { cbn. intros [Hx _]%list_elem_of_filter. rewrite Ht in Hx. done. }
  pose proof (splices_other (all_thread_data_ d1) t d1 Hno) as Hsp.
  destruct (reclaim_all _) as [[d2 f2]|] eqn:E; [|done]. intros [= <- <-].
  unfold reclaim_all in E. apply bind_Some in E as (res & _ & E). simplify_eq.
  etrans; [exact Hsp | exact Ht].
Qed.

(** Ownership follows the holder: a holder made by a thread and used to
    protect [p] still protects [p] after being moved, the moved-from holder
    protects nothing and can be released freely, and releasing the new one
    clears the slot and makes it free; released by another thread instead, the
    ownership assertion fails. *)
Lemma holder_move_spec t u p d h d1 :
  slots_ok d -> HazPtrHolder t d = Some (h, d1) -> u <> t ->
  let d2 := protect h (Some p) d1 in
  let '(new, old) := holder_move h in
  get new d2 = Some p /\ get old d2 = None /\ protected p d2 = true /\
  holder_release t old d2 = Ret (old, d2) /\
  (exists d3 i, holder_release t new d2 = Ret (mkHolder None, d3) /\ hazard_ptr_slot_ h = Some i /\
     (exists x, cells d3 !! i = Some x /\ hazard_ptr_ x = None /\ owner_ x = None) /\ slots_ok d3) /\
  holder_release u new d2 = Throw assertion_failed.
Proof.
  intros Hok HH Hu. unfold HazPtrHolder in HH.
  destruct (acquire_spec t d Hok) as (i & d1' & Ea & Hok1 & Hcase & _). rewrite Ea in HH. cbn in HH.
  simplify_eq. cbn.
  assert (exists x, cells d1 !! i = Some x /\ owner_ x = Some t) as (x & Hx & Ho).
  { case_match; destruct Hcase as [Hi ->].
    - destruct (cells d !! i) as [y|] eqn:Hy; [|done]. by rewrite (lookup_alter_at _ _ _ _ Hy); eauto.
    - subst i. rewrite lookup_app_r, Nat.sub_diag by done. eauto. }
  pose proof (lookup_alter_at (with_hazard (Some p)) _ _ _ Hx) as Hx2.
  unfold get, holder_release. cbn. rewrite Hx2. cbn. rewrite Ho.
  pose proof (lookup_alter_at (with_hazard None) _ _ _ Hx2) as Hx3.
  split_and!; try done.
  - unfold protected. apply existsb_exists. eexists.
    split; [by eapply list_elem_of_In, list_elem_of_lookup_2|]. by apply bool_decide_eq_true.
  - rewrite bool_decide_true by done. eexists _, i. split_and!; [done..| |].
    + eexists. split; [exact (lookup_alter_at (with_owner None) _ _ _ Hx3)|]. done.
    + by do 3 (apply chained_alter; [done|]).
  - by rewrite bool_decide_false by congruence.
Qed.
End retire.

(** ** Interleavings

    [hp_pc] is where a thread stands inside an operation; the line numbers are
    those of hazard_pointer.hpp.

    Two parameters say how the code could be: [fence], whether the stores of
    [protect] and [release] to a slot are visible before the thread's next load
    ([false] is what [memory_order_release] gives: they become visible later, in
    their order; [true] is what sequentially consistent stores would give); [link_first], whether [acquire] sets the [next_] of a new slot
    before it makes the slot the head of the list ([false] is the order of the
    code; with [true] nobody can see the new slot before it is complete, so the
    two stores are one step).  The code is [hp_exec false false]. *)

Section machine.
Context {D : Type}.

Inductive hp_pc :=
| H_idle
| H_link (new_hp : nat) (old_head : option nat)              (* 133, list_mutex_ held *)
| H_released (i : nat)                                       (* 142: slot cleared *)
| H_check                                                    (* 272 *)
| H_lock_retire                                              (* 276 *)
| H_commit                                                   (* 279, mutex held *)
| H_self_lock                                                (* 286, 162: locked twice *)
| H_lock_scan                                                (* 162 *)
| H_collect (rest : list tid)                                (* 163, mutex held *)
| H_lock_reclaim                                             (* 177 *)
| H_sweep (it : nat) (to_reclaim : list (RetiredPtr D))      (* 179, mutex held *)
| H_walk (it : nat) (current : option nat) (to_reclaim : list (RetiredPtr D))  (* 150, mutex held *)
| H_delete (to_reclaim : list (RetiredPtr D))                (* 189 *)
| H_aborted.                                                 (* 142: assertion failed *)

(** A store to a slot: to [hazard_ptr_], or of no owner to [owner_]. *)
Inductive slot_store :=
| St_hazard (i : nat) (p : option addr)
| St_free (i : nat).

Definition commit_store (e : slot_store) (d : HazPtrDomain D) : HazPtrDomain D :=
  match e with St_hazard i p => store_hazard i p d | St_free i => store_owner i None d end.

Record hp_state := mkHpState {
  dom : HazPtrDomain D;
  pcs : list hp_pc;
  mutex : option tid;                       (* global_retired_mutex_ *)
  list_mutex : option tid;                  (* list_mutex_ *)
  buffers : list (list slot_store);         (* delayed stores to slots, by thread *)
  deleted : list (RetiredPtr D);            (* history: calls of deleters *)
  retired : list (RetiredPtr D);            (* history: calls of RetirePointer *)
  validated : gset nat;                     (* slots whose object was seen reachable after the store *)
}.
Implicit Types (s : hp_state) (t : tid).

Definition set_dom d s :=
  mkHpState d (pcs s) (mutex s) (list_mutex s) (buffers s) (deleted s) (retired s) (validated s).
Definition set_pc t pc s :=
  mkHpState (dom s) (<[t := pc]> (pcs s)) (mutex s) (list_mutex s) (buffers s) (deleted s) (retired s) (validated s).
Definition set_mutex m s :=
  mkHpState (dom s) (pcs s) m (list_mutex s) (buffers s) (deleted s) (retired s) (validated s).
Definition set_list_mutex m s :=
  mkHpState (dom s) (pcs s) (mutex s) m (buffers s) (deleted s) (retired s) (validated s).
Definition set_buffer t b s :=
  mkHpState (dom s) (pcs s) (mutex s) (list_mutex s) (<[t := b]> (buffers s)) (deleted s) (retired s) (validated s).
Definition log_deleted r s :=
  mkHpState (dom s) (pcs s) (mutex s) (list_mutex s) (buffers s) (deleted s ++ [r]) (retired s) (validated s).
Definition log_retired r s :=
  mkHpState (dom s) (pcs s) (mutex s) (list_mutex s) (buffers s) (deleted s) (retired s ++ [r]) (validated s).
Definition set_validated v s :=
  mkHpState (dom s) (pcs s) (mutex s) (list_mutex s) (buffers s) (deleted s) (retired s) v.

(** Waiting for the mutex: enabled when it is free. *)
Definition lock t (pc : hp_pc) s : option hp_state :=
  match mutex s with None => Some (set_pc t pc (set_mutex (Some t) s)) | Some _ => None end.
Definition unlock t (pc : hp_pc) s : hp_state := set_pc t pc (set_mutex None s).

(** A store to a slot by [t]: at once, or behind the thread's other delayed stores. *)
Definition write (fence : bool) t (e : slot_store) s : hp_state :=
  if fence then set_dom (commit_store e (dom s)) s
  else set_buffer t (default [] (buffers s !! t) ++ [e]) s.

Definition hp_step (fence : bool) t (pc : hp_pc) s : option hp_state :=
  match pc with
  | H_idle | H_self_lock | H_aborted => None
  | H_link new_hp old_head =>
      Some (set_pc t H_idle (set_list_mutex None (set_dom (store_next new_hp old_head (dom s)) s)))
  | H_released i =>
      x ← cells (dom s) !! i;
      if bool_decide (owner_ x = Some t)
      then Some (set_pc t H_idle (write fence t (St_free i) s))
      else Some (set_pc t H_aborted s)
  | H_check =>
      tl ← tls (dom s) !! t;
      Some (set_pc t (if (scan_threshold_ tl <=? length (retired_list_ tl))%nat
                      then H_lock_retire else H_idle) s)
  | H_lock_retire => lock t H_commit s
  | H_commit =>
      let s := set_dom (splice t (dom s)) s in
      if (kGlobalThreshold <? length (global_retired_ (dom s)))%nat
      then Some (set_pc t H_self_lock s)
      else Some (unlock t H_idle s)
  | H_lock_scan => lock t (H_collect (all_thread_data_ (dom s))) s
  | H_collect [] => Some (unlock t H_lock_reclaim s)
  | H_collect (u :: rest) => Some (set_pc t (H_collect rest) (set_dom (splice u (dom s)) s))
  | H_lock_reclaim => lock t (H_sweep 0 []) s
  | H_sweep it acc =>
      match global_retired_ (dom s) !! it with
      | None => Some (unlock t (H_delete acc) s)
      | Some r => Some (set_pc t (H_walk it (head_ (dom s)) acc) s)
      end
  | H_walk it None acc =>
      r ← global_retired_ (dom s) !! it;
      Some (set_pc t (H_sweep it (acc ++ [r]))
              (set_dom (set_global (delete it (global_retired_ (dom s))) (dom s)) s))
  | H_walk it (Some c) acc =>
      r ← global_retired_ (dom s) !! it;
      x ← cells (dom s) !! c;
      Some (set_pc t (if names (ptr_ r) x then H_sweep (S it) acc else H_walk it (next_ x) acc) s)
  | H_delete [] => Some (set_pc t H_idle s)
  | H_delete (r :: acc) => Some (set_pc t (H_delete acc) (log_deleted r s))
  end.

(** The slot as its owner sees it: its own delayed stores last. *)
Definition hazard_after (i : nat) (p : option addr) (e : slot_store) : option addr :=
  match e with St_hazard j q => if (j =? i)%nat then q else p | St_free _ => p end.
Definition seen t i s : option addr :=
  foldl (hazard_after i) (cells (dom s) !! i ≫= hazard_ptr_) (default [] (buffers s !! t)).

(** The slots a thread is about to give up. *)
Definition freeing (b : list slot_store) : list nat :=
  omap (fun e => match e with St_free i => Some i | _ => None end) b.

Definition owns t i s : bool :=
  bool_decide (cells (dom s) !! i ≫= owner_ = Some t) &&
  bool_decide (i ∉ freeing (default [] (buffers s !! t))).
Definition idle t s : option unit := match pcs s !! t with Some H_idle => Some () | _ => None end.

Inductive hp_act :=
| Register t
| Acquire t (found : option nat)         (* the slot the loop returns, if any *)
| Protect t (i : nat) (p : option addr)
| Commit t                               (* the oldest delayed store of [t] *)
| Validate t (i : nat)                   (* the object in the slot is seen to be reachable *)
| Release t (i : nat)
| Retire t (p : addr) (del : D)
| StartScan t
| Step t.

(** [acquire], with [list_mutex_] free.  Other threads may release slots while
    the loop runs, so it returns some free slot, or goes on to allocate although
    a slot behind it has become free.  Its stores to [owner_] are made under the
    mutex, so the next [acquire] sees them. *)
Definition take_slot (link_first : bool) t (found : option nat) s : option hp_state :=
  match list_mutex s, found with
  | Some _, _ => None
  | None, Some c =>
      x ← cells (dom s) !! c;
      if bool_decide (owner_ x = None) then Some (set_dom (store_owner c (Some t) (dom s)) s) else None
  | None, None =>
      let new_hp := length (cells (dom s)) in
      let old_head := head_ (dom s) in
      let d := push_slot t (dom s) in
      Some (if link_first then set_dom (store_next new_hp old_head d) s
            else set_pc t (H_link new_hp old_head) (set_list_mutex (Some t) (set_dom d s)))
  end.

(** The callers' part: slots are used by the thread that acquired them and not after
    it released them, as holders do, and an object is retired once (a second
    [RetirePointer] of the same object would be deleted twice). *)
Definition hp_exec (fence link_first : bool) (a : hp_act) s : option hp_state :=
  match a with
  | Register t => _ ← idle t s; Some (set_dom (RegisterThread t (dom s)) s)
  | Acquire t found => _ ← idle t s; take_slot link_first t found s
  | Protect t i p =>
      _ ← idle t s;
      if owns t i s then Some (write fence t (St_hazard i p) (set_validated (validated s ∖ {[i]}) s)) else None
  | Commit t =>
      b ← buffers s !! t;
      match b with
      | e :: b => Some (set_dom (commit_store e (dom s)) (set_buffer t b s))
      | [] => None
      end
  | Validate t i =>
      _ ← idle t s;
      p ← seen t i s;
      if owns t i s && bool_decide (p ∉ ptr_ <$> retired s)
      then Some (set_validated ({[i]} ∪ validated s) s) else None
  | Release t i =>
      _ ← idle t s;
      if owns t i s
      then Some (set_pc t (H_released i)
                   (write fence t (St_hazard i None) (set_validated (validated s ∖ {[i]}) s)))
      else None
  | Retire t p del =>
      _ ← idle t s;
      tl ← tls (dom s) !! t;
      if bool_decide (p ∉ ptr_ <$> retired s) then
        let r := mkRetired p del in
        Some (set_pc t H_check (log_retired r
          (set_dom (set_tls (<[t := with_retired (retired_list_ tl ++ [r]) tl]> (tls (dom s))) (dom s)) s)))
      else None
  | StartScan t => _ ← idle t s; Some (set_pc t H_lock_scan s)
  | Step t => pc ← pcs s !! t; hp_step fence t pc s
  end.

Definition hp_init (threads : nat) : hp_state :=
  mkHpState (HazPtrDomain_default threads) (replicate threads H_idle) None None
    (replicate threads []) [] [] ∅.
End machine.
Arguments hp_state : clear implicits.
Arguments hp_act : clear implicits.
Arguments hp_pc : clear implicits.

Lemma idle_inv {D} t (s : hp_state D) u : idle t s = Some u -> pcs s !! t = Some H_idle.
Proof. unfold idle. by repeat case_match; simplify_eq. Qed.

(** Opens one step of the machine. *)
Ltac hp_open E :=
  match type of E with
  | hp_exec _ _ ?a _ = Some _ =>
      destruct a as [t|t found|t i p|t|t i|t i|t p del|t|t]; cbn [hp_exec] in E;
      unfold lock, take_slot, write, commit_store in E; open_step E;
      repeat match goal with Hi : idle _ _ = Some _ |- _ => apply idle_inv in Hi end;
      try match goal with pc : hp_pc _ |- _ =>
        destruct pc; cbn [hp_step] in E; unfold lock, write, commit_store in E; open_step E end; bools
  end.

Section hp_inv.
Context {D : Type}.
Implicit Types (s : hp_state D) (d : HazPtrDomain D).

(** *** Shape of the slot list *)

(** The shape depends on the [next_] fields and the head only. *)
Definition same_links d d' : Prop := next_ <$> cells d' = next_ <$> cells d /\ head_ d' = head_ d.

Lemma chained_links (cs cs' : list HazardPointer) h : next_ <$> cs' = next_ <$> cs -> chained cs h -> chained cs' h.
Proof.
  intros E [Hh Hn]. split.
  - by rewrite <- (length_fmap next_ cs'), E, length_fmap.
  - intros i x Hx. assert ((next_ <$> cs) !! i = Some (next_ x)) as Hi by (by rewrite <- E, list_lookup_fmap, Hx).
    rewrite list_lookup_fmap in Hi. apply fmap_Some in Hi as (y & Hy & ->). eauto.
Qed.

Lemma links_alter (f : HazardPointer -> HazardPointer) g (i : nat) (cs : list HazardPointer) :
  (forall x, next_ (f x) = g (next_ x)) -> next_ <$> alter f i cs = alter g i (next_ <$> cs).
Proof.
  intros Hf. revert i. induction cs as [|c cs IH]; intros [|i]; cbn; [done..| |]; f_equal; [apply Hf|apply IH].
Qed.

Lemma slots_ok_links d d' : same_links d d' -> slots_ok d -> slots_ok d'.
Proof. intros [Hn Hh]. unfold slots_ok. rewrite Hh. by apply chained_links. Qed.

Lemma same_links_next i n d d' : same_links d d' -> same_links (store_next i n d) (store_next i n d').
Proof.
  intros [Hn Hh]. split; [|done]. cbn.
  rewrite !(links_alter (with_next n) (fun _ => n)) by done. by rewrite Hn.
Qed.

Lemma same_links_hazard i p d : same_links d (store_hazard i p d).
Proof. split; [|done]. cbn. by rewrite (links_alter _ id), list_alter_id. Qed.

Lemma same_links_owner i o d : same_links d (store_owner i o d).
Proof. split; [|done]. cbn. by rewrite (links_alter _ id), list_alter_id. Qed.

Lemma same_links_splice t d : same_links d (splice t d).
Proof. unfold same_links. by destruct (splice_cells t d) as [-> ->]. Qed.

(** The link a thread is about to make, and the domain with it made. *)
Definition link_of s : option (nat * option nat) :=
  t ← list_mutex s; pc ← pcs s !! t; match pc with H_link i o => Some (i, o) | _ => None end.
Definition fin (l : option (nat * option nat)) d : HazPtrDomain D :=
  match l with Some (i, o) => store_next i o d | None => d end.

(** [list_mutex_] is held by the thread that is about to link its slot, and with
    that link the list has its shape. *)
Record link_inv s : Prop := {
  link_holder : forall t i o, pcs s !! t = Some (H_link i o) -> list_mutex s = Some t;
  link_pending : forall t, list_mutex s = Some t -> exists i o, pcs s !! t = Some (H_link i o);
  link_shape : slots_ok (fin (link_of s) (dom s));
  link_null : forall i o, link_of s = Some (i, o) -> head_ (dom s) = Some i /\ next_ <$> cells (dom s) !! i = Some None;
}.

Lemma same_links_null d d' i :
  same_links d d' -> head_ d = Some i /\ next_ <$> cells d !! i = Some None ->
  head_ d' = Some i /\ next_ <$> cells d' !! i = Some None.
Proof. intros [Hn Hh]. by rewrite Hh, <- !list_lookup_fmap, Hn. Qed.

Lemma link_of_at s t i o : link_inv s -> pcs s !! t = Some (H_link i o) -> link_of s = Some (i, o).
Proof. intros HI Ht. unfold link_of. rewrite (link_holder _ HI _ _ _ Ht). cbn. by rewrite Ht. Qed.

Lemma link_of_free s : list_mutex s = None -> link_of s = None.
Proof. unfold link_of. by intros ->. Qed.

Definition linking (pc : hp_pc D) : bool := match pc with H_link _ _ => true | _ => false end.

(** A thread that is not linking goes to a place where it is not either. *)
Lemma link_of_move s s' t pc pc' :
  pcs s !! t = Some pc -> linking pc = false -> pcs s' = <[t := pc']> (pcs s) -> linking pc' = false ->
  list_mutex s' = list_mutex s -> link_of s' = link_of s.
Proof.
  intros Ht Hpc Hp Hpc' Hm. unfold link_of. rewrite Hm, Hp. destruct (list_mutex s) as [u|]; [|done]. cbn.
  destruct (decide (u = t)) as [->|Hne]; [|by rewrite list_lookup_insert_ne].
  rewrite Ht, list_lookup_insert_eq by (by eapply lookup_lt_Some). by destruct pc, pc'.
Qed.

Lemma link_move s s' t pc pc' :
  link_inv s -> pcs s !! t = Some pc -> linking pc = false -> pcs s' = <[t := pc']> (pcs s) ->
  linking pc' = false -> list_mutex s' = list_mutex s -> same_links (dom s) (dom s') -> link_inv s'.
Proof.
  intros HI Ht Hpc Hp Hpc' Hm HL. pose proof (link_of_move s s' t pc pc' Ht Hpc Hp Hpc' Hm) as HE.
  destruct HI as [H1 H2 H3 H4]. split; rewrite ?Hm, ?Hp, ?HE.
  - intros u i o [(_ & -> & _)|[_ Hu]]%list_lookup_insert_Some; [done|eauto].
  - intros u (i & o & Hu)%H2. exists i, o. rewrite list_lookup_insert_ne; [done|].
    intros ->. rewrite Ht in Hu. by simplify_eq.
  - eapply slots_ok_links; [|exact H3]. destruct (link_of s) as [[i o]|]; [by apply same_links_next|done].
  - intros i o Hl. eapply same_links_null; [exact HL|by eapply H4].
Qed.

Lemma link_frame s s' :
  link_inv s -> pcs s' = pcs s -> list_mutex s' = list_mutex s -> same_links (dom s) (dom s') -> link_inv s'.
Proof.
  intros [H1 H2 H3 H4] Hp Hm HL. split; unfold link_of; rewrite ?Hp, ?Hm; try done; fold (link_of s).
  - eapply slots_ok_links; [|exact H3]. destruct (link_of s) as [[i o]|]; [by apply same_links_next|done].
  - intros i o Hl. eapply same_links_null; [exact HL|by eapply H4].
Qed.

Lemma slots_ok_push t d : slots_ok d -> slots_ok (store_next (length (cells d)) (head_ d) (push_slot t d)).
Proof. intros [Hh Hn]. rewrite push_link. unfold slots_ok. cbn. rewrite Hh. apply chained_app. by split. Qed.

Lemma link_step fence link_first a s s' :
  link_inv s -> hp_exec fence link_first a s = Some s' -> link_inv s'.
Proof.
  intros HI E. assert (forall d, same_links d d) as Hrefl by done.
  hp_open E;
    try (by eapply link_frame; [exact HI|done..]);
    try (by eapply link_frame; [exact HI|done|done|first [apply same_links_hazard|apply same_links_owner]]);
    try (by eapply link_move; [exact HI|eassumption|done..]);
    try (by eapply link_move; [exact HI|eassumption|done|reflexivity|done|done|
      first [apply same_links_hazard|apply same_links_owner|apply same_links_splice]]).
  all: destruct HI as [H1 H2 H3 H4].
  - rewrite link_of_free in H3 by done. split; try done; unfold link_of; cbn; rewrite ?Hb; try done.
    by apply slots_ok_push.
  - assert (t < length (pcs s))%nat as Ht by (by eapply lookup_lt_Some).
    rewrite link_of_free in H3 by done. split; unfold link_of; cbn; rewrite ?list_lookup_insert_eq by done; cbn.
    + intros u i o [(-> & _)|[_ Hu]]%list_lookup_insert_Some; [done|]. apply H1 in Hu. congruence.
    + intros u [= <-]. rewrite list_lookup_insert_eq by done. eauto.
    + by apply slots_ok_push.
    + intros i o [= <- <-]. by rewrite lookup_app_r, Nat.sub_diag.
  - pose proof (H1 _ _ _ Hx) as Hm. unfold link_of in H3. rewrite Hm in H3. cbn in H3. rewrite Hx in H3.
    split; try done; cbn.
    intros u i o [(_ & ? & _)|[Hu Hu']]%list_lookup_insert_Some; [done|]. apply H1 in Hu'. congruence.
Qed.

(** With the link made first nobody ever sees a slot without it. *)
Lemma unlinked_step fence a s s' :
  list_mutex s = None -> hp_exec fence true a s = Some s' -> list_mutex s' = None.
Proof. intros Hm E. by hp_open E. Qed.

(** *** The mutex *)

Definition holds (pc : hp_pc D) : bool :=
  match pc with
  | H_commit | H_self_lock | H_collect _ | H_sweep _ _ | H_walk _ _ _ => true
  | _ => false
  end.

Definition excl_inv s : Prop :=
  forall t pc, pcs s !! t = Some pc -> holds pc = true -> mutex s = Some t.

Lemma excl_step fence link_first a s s' : excl_inv s -> hp_exec fence link_first a s = Some s' -> excl_inv s'.
Proof.
  intros HI E.
  hp_open E; try exact HI; intros u pc; cbn; rewrite ?list_lookup_insert; try case_decide;
    destruct_and?; intros; simplify_eq/=; try done; eauto;
    exfalso.
  all: pose proof (HI _ _ H0 H1); try congruence.
  all: pose proof (HI _ _ Hx eq_refl); apply H; split; [congruence | by eapply lookup_lt_Some].
Qed.

(** Two threads inside the critical sections are the same thread. *)
Lemma holds_unique s t u pc pc' :
  excl_inv s -> pcs s !! t = Some pc -> pcs s !! u = Some pc' ->
  holds pc = true -> holds pc' = true -> t = u.
Proof. intros HI Ht Hu H1 H2. pose proof (HI _ _ Ht H1). pose proof (HI _ _ Hu H2). congruence. Qed.

(** *** Conservation *)

(** Objects picked for deletion by a thread. *)
Definition pending (pc : hp_pc D) : list (RetiredPtr D) :=
  match pc with H_sweep _ acc | H_walk _ _ acc | H_delete acc => acc | _ => [] end.

Definition accounted s : list (RetiredPtr D) :=
  deleted s ++ gather pending (pcs s) ++ retired_all (dom s).

Definition ledger_inv s : Prop :=
  accounted s ≡ₚ retired s /\ NoDup (ptr_ <$> retired s).

Lemma accounted_same s s' t pc pc' :
  pcs s !! t = Some pc -> pcs s' = <[t := pc']> (pcs s) -> pending pc' = pending pc ->
  deleted s' = deleted s -> retired_all (dom s') ≡ₚ retired_all (dom s) ->
  accounted s' ≡ₚ accounted s.
Proof.
  intros Ht Hp Hpc Hd HR. unfold accounted. rewrite Hp, Hd, HR.
  by rewrite (gather_insert_same pending _ _ _ _ Ht).
Qed.

Lemma retired_all_tls l d ts :
  gather retired_list_ ts ≡ₚ l ++ gather retired_list_ (tls d) ->
  retired_all (set_tls ts d) ≡ₚ l ++ retired_all d.
Proof.
  intros HP. unfold retired_all. cbn. rewrite HP, !app_assoc. f_equiv. apply Permutation_app_comm.
Qed.

Lemma ledger_step fence link_first a s s' : ledger_inv s -> hp_exec fence link_first a s = Some s' -> ledger_inv s'.
Proof.
  intros [HP HN] E.
  hp_open E; split; try exact HN; try exact HP; try (etrans; [|exact HP]).
  all: try (eapply accounted_same; [exact Hx | done | done | done | try done; apply splice_perm]).
  all: try (eapply accounted_same; [eassumption | done | done | done | done]).
  - unfold accounted. cbn [set_dom dom deleted pcs]. do 2 f_equiv. apply (retired_all_tls []).
    cbn [app]. by rewrite gather_alter_same.
  - cbn [retired set_pc log_retired set_dom]. rewrite <- HP. unfold accounted.
    cbn [set_pc log_retired set_dom dom deleted pcs].
    rewrite (gather_insert_same pending _ _ _ _ Hx) by done.
    rewrite (retired_all_tls [mkRetired p del])
      by (by apply gather_insert_add with (1 := Hx0)).
    solve_Permutation.
  - cbn. rewrite fmap_app. apply NoDup_app. split_and!; [done| |apply NoDup_singleton].
    intros q Hq. set_solver.
  - unfold accounted, retired_all. cbn [set_pc set_dom set_global dom deleted pcs global_retired_ tls].
    rewrite (gather_insert_add pending _ _ _ _ x Hx) by done.
    rewrite (delete_Permutation (global_retired_ (dom s)) it x) at 2 by done. solve_Permutation.
  - unfold accounted. cbn [set_pc log_deleted dom deleted pcs].
    rewrite <- (gather_insert_pop pending _ _ _ (H_delete l) r Hx) by done. solve_Permutation.
Qed.

(** *** Safety of validated slots *)

(** The object in slot [i] is neither deleted nor picked, and whoever is
    looking for it among the slots has not passed [i] yet. *)
Definition safe_slot s (i : nat) : Prop :=
  exists p, hazard_ptr_ <$> cells (dom s) !! i = Some (Some p) /\
    (forall r, r ∈ deleted s ++ gather pending (pcs s) -> ptr_ r <> p) /\
    (forall t it cur acc r, pcs s !! t = Some (H_walk it cur acc) ->
       global_retired_ (dom s) !! it = Some r -> ptr_ r = p ->
       exists c, cur = Some c /\ (i <= c)%nat).

Record safe_inv s : Prop := {
  safe_link : link_inv s;
  safe_linked : list_mutex s = None;
  safe_excl : excl_inv s;
  safe_ledger : ledger_inv s;
  safe_buffers : Forall (eq []) (buffers s);
  safe_slots : forall i, i ∈ validated s -> safe_slot s i;
}.

Lemma linked_shape s : link_inv s -> list_mutex s = None -> slots_ok (dom s).
Proof. intros HI Hm. pose proof (link_shape _ HI) as Hok. by rewrite link_of_free in Hok. Qed.

Lemma safe_shape s : safe_inv s -> slots_ok (dom s).
Proof. intros HI. by apply linked_shape; apply HI. Qed.

Lemma safe_frame s s' i :
  safe_slot s i ->
  hazard_ptr_ <$> cells (dom s') !! i = hazard_ptr_ <$> cells (dom s) !! i ->
  deleted s' ++ gather pending (pcs s') ⊆ deleted s ++ gather pending (pcs s) ->
  (forall t it cur acc r, pcs s' !! t = Some (H_walk it cur acc) ->
     global_retired_ (dom s') !! it = Some r ->
     pcs s !! t = Some (H_walk it cur acc) /\ global_retired_ (dom s) !! it = Some r) ->
  safe_slot s' i.
Proof.
  intros (p & Hp & Hno & Hw) Hc Hsub Hw'. exists p. split_and!.
  - by rewrite Hc.
  - intros r Hr. apply Hno. by apply Hsub.
  - intros t it cur acc r H1 H2. destruct (Hw' _ _ _ _ _ H1 H2). eauto.
Qed.

(** A thread moves on without touching a slot, a list, or starting a walk. *)
Lemma safe_move s s' i t pc pc' :
  safe_slot s i -> pcs s !! t = Some pc -> pcs s' = <[t := pc']> (pcs s) ->
  pending pc' = pending pc -> (forall it cur acc, pc' <> H_walk it cur acc) ->
  deleted s' = deleted s -> hazard_ptr_ <$> cells (dom s') !! i = hazard_ptr_ <$> cells (dom s) !! i ->
  global_retired_ (dom s') = global_retired_ (dom s) \/ (holds pc = true /\ excl_inv s) ->
  safe_slot s' i.
Proof.
  intros HS Ht Hp Hpend Hnw Hd Hc Hg. eapply safe_frame; [exact HS|done| |].
  - by rewrite Hd, Hp, (gather_insert_same pending _ _ _ _ Ht).
  - intros u it cur acc r Hu Hr. rewrite Hp in Hu. apply list_lookup_insert_Some in Hu as [(_ & Hu & _)|[Htu Hu]].
    + by apply Hnw in Hu.
    + split; [done|]. destruct Hg as [Hg|[Hh Hx]]; [congruence|].
      by destruct Htu; eapply holds_unique.
Qed.

(** A cell is added; the others stay. *)
Lemma push_lookup t d i : (i < length (cells d))%nat -> cells (push_slot t d) !! i = cells d !! i.
Proof. intros. cbn. by rewrite lookup_app_l. Qed.

Lemma store_next_field {A} (f : HazardPointer -> A) i j n d :
  (forall x, f (with_next n x) = f x) -> f <$> cells (store_next i n d) !! j = f <$> cells d !! j.
Proof.
  intros Hf. cbn [store_next set_cells cells]. rewrite list_lookup_alter. case_decide; [|done]. subst.
  destruct (cells d !! j); [|done]. cbn. by rewrite Hf.
Qed.

Lemma push_link_field {A} (f : HazardPointer -> A) t i n d :
  (forall x, f (with_next n x) = f x) -> (i < length (cells d))%nat ->
  f <$> cells (store_next (length (cells d)) n (push_slot t d)) !! i = f <$> cells d !! i.
Proof. intros. by rewrite store_next_field, push_lookup. Qed.

Lemma buffers_step a s s' :
  Forall (eq []) (buffers s) -> hp_exec true true a s = Some s' -> Forall (eq []) (buffers s').
Proof.
  intros HB E. hp_open E; try exact HB; exfalso; subst;
    (eapply Forall_lookup_1 in HB; [|exact Hx]); done.
Qed.

Lemma seen_fenced t i s :
  Forall (eq []) (buffers s) -> seen t i s = cells (dom s) !! i ≫= hazard_ptr_.
Proof.
  intros HB. unfold seen. destruct (buffers s !! t) as [b|] eqn:Hb; [|done].
  eapply Forall_lookup_1 in HB; [|exact Hb]. by subst.
Qed.

(** An object that has not been retired is nowhere in the books. *)
Lemma fresh_unaccounted s p r :
  ledger_inv s -> p ∉ ptr_ <$> retired s -> r ∈ accounted s -> ptr_ r <> p.
Proof.
  intros [HP _] Hp Hr <-. apply Hp. apply list_elem_of_fmap. exists r. split; [done|]. by rewrite <- HP.
Qed.

Lemma store_hazard_ne i j p d :
  j <> i -> hazard_ptr_ <$> cells (store_hazard i p d) !! j = hazard_ptr_ <$> cells d !! j.
Proof. intros. cbn [store_hazard set_cells cells]. rewrite list_lookup_alter. by case_decide. Qed.

Lemma store_owner_hazard i j o d :
  hazard_ptr_ <$> cells (store_owner i o d) !! j = hazard_ptr_ <$> cells d !! j.
Proof.
  cbn [store_owner set_cells cells]. rewrite list_lookup_alter. case_decide; [|done]. subst.
  by destruct (cells d !! j).
Qed.

(** The walk over the slots: it starts before every slot, *)
Lemma safe_walk_start s t it acc i :
  slots_ok (dom s) -> excl_inv s -> pcs s !! t = Some (H_sweep it acc) ->
  safe_slot s i -> safe_slot (set_pc t (H_walk it (head_ (dom s)) acc) s) i.
Proof.
  intros [Hh _] HX Ht (p & Hp & Hno & Hw). exists p. split_and!; [done| |].
  - cbn. by rewrite (gather_insert_same pending _ _ _ _ Ht).
  - intros u it' cur acc' r Hu Hr Hrp. cbn in Hu, Hr.
    apply list_lookup_insert_Some in Hu as [(_ & Hu & _)|[_ Hu]]; [|by eauto].
    simplify_eq. rewrite Hh. assert (i < length (cells (dom s)))%nat as Hi.
    { apply fmap_Some in Hp as (x & Hx & _). by eapply lookup_lt_Some. }
    destruct (length (cells (dom s))) as [|n]; [lia|]. exists n. cbn. split; [done|lia].
Qed.

(** it does not miss the slot, *)
Lemma safe_walk_next s t it c x r acc i :
  slots_ok (dom s) -> pcs s !! t = Some (H_walk it (Some c) acc) ->
  global_retired_ (dom s) !! it = Some r -> cells (dom s) !! c = Some x -> names (ptr_ r) x = false ->
  safe_slot s i -> safe_slot (set_pc t (H_walk it (next_ x) acc) s) i.
Proof.
  intros [_ Hn] Ht Hr Hx Hnames (p & Hp & Hno & Hw). exists p. split_and!; [done| |].
  - cbn. by rewrite (gather_insert_same pending _ _ _ _ Ht).
  - intros u it' cur acc' r' Hu Hr' Hrp. cbn in Hu, Hr'.
    apply list_lookup_insert_Some in Hu as [(_ & Hu & _)|[_ Hu]]; [|by eauto].
    simplify_eq. destruct (Hw _ _ _ _ _ Ht Hr eq_refl) as (c' & [= <-] & Hic).
    rewrite (Hn _ _ Hx). destruct (decide (i = c)) as [->|Hne].
    + rewrite Hx in Hp. cbn in Hp. unfold names in Hnames. apply bool_decide_eq_false in Hnames.
      congruence.
    + destruct c as [|c]; [lia|]. exists c. cbn. split; [done|lia].
Qed.

(** and so it does not pick the object. *)
Lemma safe_walk_end s t it r acc i :
  excl_inv s -> pcs s !! t = Some (H_walk it None acc) -> global_retired_ (dom s) !! it = Some r ->
  safe_slot s i ->
  safe_slot (set_pc t (H_sweep it (acc ++ [r]))
    (set_dom (set_global (delete it (global_retired_ (dom s))) (dom s)) s)) i.
Proof.
  intros HX Ht Hr (p & Hp & Hno & Hw). exists p. split_and!; [done| |].
  - cbn. intros r' Hr'. rewrite (gather_insert_add pending _ _ _ _ r Ht) in Hr' by done.
    apply elem_of_app in Hr' as [Hr'|[->|Hr']%elem_of_cons]; [apply Hno; set_solver| |apply Hno; set_solver].
    intros Hrp. by destruct (Hw _ _ _ _ _ Ht Hr Hrp) as (c & [=] & _).
  - intros u it' cur acc' r' Hu. cbn in Hu.
    apply list_lookup_insert_Some in Hu as [(_ & Hu & _)|[Htu Hu]]; [done|].
    by destruct Htu; eapply holds_unique.
Qed.

Lemma safe_delete s t r acc i :
  pcs s !! t = Some (H_delete (r :: acc)) -> safe_slot s i ->
  safe_slot (set_pc t (H_delete acc) (log_deleted r s)) i.
Proof.
  intros Ht Hs. eapply safe_frame; [exact Hs|done| |].
  - intros r' Hr'. rewrite <- (gather_insert_pop pending _ _ _ (H_delete acc) r Ht) by done.
    cbn in Hr'. set_solver.
  - intros u it cur acc' r' Hu Hr'. cbn in Hu.
    by apply list_lookup_insert_Some in Hu as [(_ & Hu & _)|[_ Hu]].
Qed.

(** A slot validated before the object is retired is safe. *)
Lemma safe_validate s t i p :
  ledger_inv s -> Forall (eq []) (buffers s) -> seen t i s = Some p -> p ∉ ptr_ <$> retired s ->
  safe_slot s i.
Proof.
  intros HL HB Hp Hno. rewrite seen_fenced in Hp by done. exists p. split_and!.
  - destruct (cells (dom s) !! i); [|done]. cbn in *. by f_equal.
  - intros r Hr. eapply fresh_unaccounted; [done..|]. unfold accounted. set_solver.
  - intros u it cur acc r _ Hr Hrp. exfalso. eapply fresh_unaccounted; [done..| |exact Hrp].
    unfold accounted, retired_all. apply list_elem_of_lookup_2 in Hr. set_solver.
Qed.

Lemma safe_slots_step a s s' :
  safe_inv s -> hp_exec true true a s = Some s' -> forall i, i ∈ validated s' -> safe_slot s' i.
Proof.
  intros HI E j Hj. pose proof (safe_shape _ HI) as Hok. destruct HI as [HK HM HX HL HB HS].
  pose proof (buffers_step _ _ _ HB E) as HB'. hp_open E; cbn in Hj; try (pose proof (HS j ltac:(set_solver)) as Hs).
  all: try (eapply safe_move; [exact Hs | eassumption | reflexivity | done | done | done | | by left];
            first [done | apply store_owner_hazard | apply store_hazard_ne; set_solver]).
  all: try (eapply safe_move;
    [exact Hs | eassumption | reflexivity | done | done | done | cbn; by rewrite (proj1 (splice_cells _ _)) | by right]).
  - by eapply safe_frame.
  - eapply safe_frame; [done | apply store_owner_hazard | done | done].
  - assert (j < length (cells (dom s)))%nat as Hlt.
    { destruct Hs as (p & (y & Hy & _)%fmap_Some & _). by eapply lookup_lt_Some. }
    eapply safe_frame; [done | by apply push_link_field | done | done].
  - eapply safe_frame; [done | apply store_hazard_ne; set_solver | done | done].
  - subst. eapply Forall_lookup_1 in HB; [|exact Hx]. done.
  - subst. eapply Forall_lookup_1 in HB; [|exact Hx]. done.
  - apply elem_of_union in Hj as [->%elem_of_singleton|Hj]; [|by apply HS].
    eapply safe_frame; [by eapply safe_validate | done | done | done].
  - exfalso. apply (link_holder _ HK) in Hx. congruence.
  - by apply safe_walk_start.
  - by eapply safe_walk_next.
  - by apply safe_walk_end.
  - by apply safe_delete.
Qed.

Lemma safe_step a s s' : safe_inv s -> hp_exec true true a s = Some s' -> safe_inv s'.
Proof.
  intros HI E. split; [eapply link_step|eapply unlinked_step|eapply excl_step|eapply ledger_step|eapply buffers_step
    |by eapply safe_slots_step]; try exact E; apply HI.
Qed.

Lemma init_safe n : safe_inv (hp_init n).
Proof.
  split; cbn.
  - split; try done. by intros t i o [? _]%lookup_replicate.
  - done.
  - intros t pc [-> _]%lookup_replicate. done.
  - split; [|constructor]. unfold accounted, retired_all. cbn.
    assert (gather pending (replicate n (H_idle (D:=D))) = []) as -> by (induction n; done).
    by assert (gather retired_list_ (replicate n (ThreadData_default (D:=D))) = []) as ->
      by (clear; induction n; done).
  - by apply Forall_replicate.
  - set_solver.
Qed.
End hp_inv.

(** ** The order of the two last stores of [acquire]

    A step that reads the [next_] of a slot which its maker has not linked yet
    is the only one that tells the two orders apart. *)

Section gap.
Context {D : Type}.
Implicit Types (s : hp_state D) (d : HazPtrDomain D) (l : option (nat * option nat)).

Definition gap (a : hp_act D) s : bool :=
  match a with
  | Step t =>
      match pcs s !! t with
      | Some (H_walk _ (Some c) _) => bool_decide (fst <$> link_of s = Some c)
      | _ => false
      end
  | _ => false
  end.

(** The machine without such steps. *)
Definition calm_exec (fence link_first : bool) (a : hp_act D) s : option (hp_state D) :=
  if gap a s then None else hp_exec fence link_first a s.

(** The state with the pending link made and [acquire] returned. *)
Definition unlink (pc : hp_pc D) : hp_pc D := if linking pc then H_idle else pc.
Definition complete s : hp_state D :=
  mkHpState (fin (link_of s) (dom s)) (unlink <$> pcs s) (mutex s) None (buffers s)
    (deleted s) (retired s) (validated s).

Lemma fin_cells l d :
  cells (fin l d) = match l with Some (i, o) => alter (with_next o) i (cells d) | None => cells d end.
Proof. by destruct l as [[]|]. Qed.

Lemma fin_field {A} (f : HazardPointer -> A) l d j :
  (forall n x, f (with_next n x) = f x) -> f <$> cells (fin l d) !! j = f <$> cells d !! j.
Proof. intros Hf. destruct l as [[i o]|]; [|done]. by apply store_next_field. Qed.

Lemma fin_lookup l d j x : cells d !! j = Some x -> exists y, cells (fin l d) !! j = Some y /\
  hazard_ptr_ y = hazard_ptr_ x /\ owner_ y = owner_ x /\ (fst <$> l <> Some j -> next_ y = next_ x).
Proof.
  intros Hx. rewrite fin_cells. destruct l as [[i o]|]; [|eauto 6]. rewrite list_lookup_alter.
  case_decide; [|eauto 6]. subst. rewrite Hx. exists (with_next o x). by split_and!.
Qed.

Lemma fin_rest l d :
  tls (fin l d) = tls d /\ global_retired_ (fin l d) = global_retired_ d /\
  all_thread_data_ (fin l d) = all_thread_data_ d /\ head_ (fin l d) = head_ d.
Proof. by destruct l as [[]|]. Qed.

Lemma fin_alter l d f i :
  (forall n x, f (with_next n x) = with_next n (f x)) ->
  fin l (set_cells (alter f i (cells d)) d) = set_cells (alter f i (cells (fin l d))) (fin l d).
Proof.
  intros Hf. destruct l as [[j o]|]; [|done]. unfold fin, store_next, set_cells. cbn. f_equal.
  apply list_eq. intros k. rewrite !list_lookup_alter.
  do 2 case_decide; subst; rewrite ?list_lookup_alter; repeat case_decide; try done.
  destruct (cells d !! k); [|done]. cbn. by rewrite Hf.
Qed.

Lemma names_same p x y : hazard_ptr_ y = hazard_ptr_ x -> names p y = names p x.
Proof. unfold names. by intros ->. Qed.

Lemma fin_store_hazard l i p d : fin l (store_hazard i p d) = store_hazard i p (fin l d).
Proof. by apply fin_alter. Qed.

Lemma fin_store_owner l i o d : fin l (store_owner i o d) = store_owner i o (fin l d).
Proof. by apply fin_alter. Qed.

Lemma fin_lists l d ts g t :
  fin l (set_tls ts d) = set_tls ts (fin l d) /\ fin l (set_global g d) = set_global g (fin l d) /\
  fin l (RegisterThread t d) = RegisterThread t (fin l d).
Proof. by destruct l as [[]|]. Qed.

Lemma fin_splice l t d : fin l (splice t d) = splice t (fin l d).
Proof. destruct l as [[j o]|]; [|done]. unfold splice. cbn. by case_match. Qed.

Lemma complete_pc s t pc : pcs s !! t = Some pc -> linking pc = false -> pcs (complete s) !! t = Some pc.
Proof. intros Ht Hl. cbn. rewrite list_lookup_fmap, Ht. cbn. unfold unlink. by rewrite Hl. Qed.

Lemma complete_idle s t : pcs s !! t = Some H_idle -> idle t (complete s) = Some ().
Proof. intros Ht. unfold idle. by rewrite (complete_pc _ _ _ Ht). Qed.

Lemma fin_bind {A} (f : HazardPointer -> option A) l d j :
  (forall n x, f (with_next n x) = f x) -> cells (fin l d) !! j ≫= f = cells d !! j ≫= f.
Proof.
  intros Hf. pose proof (fin_field f l d j Hf) as HF.
  destruct (cells (fin l d) !! j), (cells d !! j); cbn in *; by simplify_eq.
Qed.

Lemma complete_owns s t i : owns t i (complete s) = owns t i s.
Proof. unfold owns. cbn. by rewrite fin_bind. Qed.

Lemma complete_seen s t i : seen t i (complete s) = seen t i s.
Proof. unfold seen. cbn. by rewrite fin_bind. Qed.

(** The completed state after a step, field by field. *)
Lemma complete_intro s s' X :
  link_of s' = link_of s -> dom X = fin (link_of s) (dom s') -> pcs X = unlink <$> pcs s' ->
  mutex X = mutex s' -> list_mutex X = None -> buffers X = buffers s' -> deleted X = deleted s' ->
  retired X = retired s' -> validated X = validated s' -> Some X = Some (complete s').
Proof. intros Hl. unfold complete. rewrite Hl. destruct X; cbn. by intros; subst. Qed.

Lemma unlink_insert t pc (ps : list (hp_pc D)) :
  linking pc = false -> unlink <$> <[t := pc]> ps = <[t := pc]> (unlink <$> ps).
Proof. intros Hl. rewrite list_fmap_insert. by destruct pc. Qed.

(** Reads the conditions of the step in the completed state. *)
Ltac same_conditions :=
  repeat (
    match goal with
    | |- context [global_retired_ (splice _ (fin _ _))] => rewrite <- fin_splice
    | |- context [global_retired_ (fin ?l ?d)] => rewrite (proj1 (proj2 (fin_rest l d)))
    | |- context [tls (fin ?l ?d)] => rewrite (proj1 (fin_rest l d))
    | |- context [all_thread_data_ (fin ?l ?d)] => rewrite (proj1 (proj2 (proj2 (fin_rest l d))))
    | |- context [head_ (fin ?l ?d)] => rewrite (proj2 (proj2 (proj2 (fin_rest l d))))
    | H : cells ?d !! ?i = Some _ |- context [cells (fin ?l ?d) !! ?i] =>
        let y := fresh "y" in let Hy := fresh "Hy" in let Ho := fresh "Ho" in
        destruct (fin_lookup l d i _ H) as (y & Hy & _ & Ho & _); rewrite Hy; cbn [mbind option_bind]; rewrite ?Ho
    | H : ?x = ?v |- context [?x] =>
        lazymatch v with Some _ => rewrite H | None => rewrite H | true => rewrite H | false => rewrite H end
    | |- context [bool_decide ?P] =>
        first [rewrite (bool_decide_true P) by first [done|congruence] | rewrite (bool_decide_false P) by first [done|congruence]]
    end; cbn [mbind option_bind andb]).

Ltac same_state :=
  eapply complete_intro; [first [by eapply link_of_move | reflexivity] | ..]; 
  cbn [complete dom mutex list_mutex buffers retired pcs deleted validated set_dom set_validated set_pc set_mutex
       set_buffer log_retired log_deleted];
  rewrite ?unlink_insert by done;
  rewrite ?fin_store_hazard, ?fin_store_owner, ?fin_splice, ?(proj1 (fin_lists _ _ _ [] 0)),
    ?(proj1 (proj2 (fin_lists _ _ [] _ 0))), ?(proj2 (proj2 (fin_lists _ _ [] [] _))); try done.

(** One step of a search that does not read the missing link. *)
Lemma complete_walk fence t it c acc r x s :
  pcs s !! t = Some (H_walk it (Some c) acc) -> gap (Step t) s = false ->
  global_retired_ (dom s) !! it = Some r -> cells (dom s) !! c = Some x ->
  hp_exec fence true (Step t) (complete s) =
  Some (complete (set_pc t (if names (ptr_ r) x then H_sweep (S it) acc else H_walk it (next_ x) acc) s)).
Proof.
  intros Ht Hgap Hr Hx. destruct (fin_lookup (link_of s) (dom s) c x Hx) as (y & Hy & Hz & _ & Hn).
  cbn [gap] in Hgap. rewrite Ht in Hgap. bools. cbn [hp_exec]. rewrite (complete_pc _ _ _ Ht eq_refl).
  cbn [mbind option_bind hp_step complete dom].
  rewrite (proj1 (proj2 (fin_rest _ _))), Hr. cbn [mbind option_bind]. rewrite Hy. cbn [mbind option_bind].
  rewrite (names_same _ _ _ Hz), Hn by done. destruct (names (ptr_ r) x); same_state.
Qed.

Lemma complete_step fence a s s' :
  link_inv s -> calm_exec fence false a s = Some s' ->
  ((exists t i o, a = Step t /\ pcs s !! t = Some (H_link i o)) /\ complete s' = complete s) \/
  hp_exec fence true a (complete s) = Some (complete s').
Proof.
  intros HI E. unfold calm_exec in E. destruct (gap a s) eqn:Hgap; [done|].
  hp_open E.
  all: cbn [set_dom set_validated dom buffers] in *.
  all: try (right; cbn [hp_exec];
    first [rewrite (complete_idle _ _ Hx) | rewrite (complete_pc _ _ _ Hx eq_refl) | idtac];
    cbn [mbind option_bind hp_step]; rewrite ?complete_owns, ?complete_seen;
    unfold take_slot, lock, unlock; cbn [complete dom mutex list_mutex buffers retired pcs deleted validated set_dom set_validated];
    same_conditions; same_state; fail).
  - right. cbn [hp_exec]. rewrite (complete_idle _ _ Hx). cbn. unfold complete, link_of. cbn. rewrite Hb. cbn.
    rewrite list_lookup_insert_eq by (by eapply lookup_lt_Some). cbn. unfold set_dom. cbn. do 2 f_equal.
    rewrite list_fmap_insert. cbn. symmetry. apply list_insert_id. by rewrite list_lookup_fmap, Hx.
  - left. split; [by eauto|]. unfold complete. rewrite (link_of_at _ _ _ _ HI Hx). unfold link_of. cbn. f_equal.
    rewrite list_fmap_insert. cbn. apply list_insert_id. by rewrite list_lookup_fmap, Hx.
  - right. etrans; [by eapply complete_walk|]. by rewrite Hb0.
  - right. etrans; [by eapply complete_walk|]. by rewrite Hb0.
Qed.
End gap.

(** ** Theorems on interleavings *)

Section hp_theorems.
Context {D : Type} (threads : nat).
Implicit Types (s : hp_state D).

Abbreviation reach fence link_first := (reachable (hp_exec fence link_first) (fun s0 => s0 = hp_init threads)).

Lemma reach_safe s : reach true true s -> safe_inv s.
Proof.
  revert s. apply reachable_invariant; [intros s ->; apply init_safe | intros; by eapply safe_step].
Qed.

Lemma base_inv fence link_first s : reach fence link_first s -> link_inv s /\ excl_inv s /\ ledger_inv s.
Proof.
  revert s. apply reachable_invariant.
  - intros s ->. by destruct (init_safe (D:=D) threads).
  - intros s a s' (? & ? & ?) E. split_and!; [by eapply link_step | by eapply excl_step | by eapply ledger_step].
Qed.

(** A calm execution of either order is one of the machine that links first,
    with the pending link made. *)
Lemma calm_simulates fence s :
  reachable (calm_exec fence false) (fun s0 => s0 = hp_init threads) s -> link_inv s /\ reach fence true (complete s).
Proof.
  revert s. apply reachable_invariant.
  - intros s ->. split; [apply init_safe|]. apply reach_init. unfold complete, hp_init. cbn.
    by rewrite fmap_replicate.
  - intros s a s' [HI Hr] E. split.
    + unfold calm_exec in E. destruct (gap a s); [done|]. by eapply link_step.
    + destruct (complete_step _ _ _ _ HI E) as [[_ ->]|E']; [done|]. by eapply reach_step.
Qed.

(** Where slots are linked first, every execution is calm. *)
Lemma linked_calm fence s :
  reach fence true s -> reachable (calm_exec fence true) (fun s0 => s0 = hp_init threads) s /\ list_mutex s = None.
Proof.
  revert s. apply reachable_invariant.
  - intros s ->. split; [by apply reach_init|done].
  - intros s a s' [Hr Hm] E. split; [|by eapply unlinked_step]. eapply reach_step; [exact Hr|].
    unfold calm_exec. enough (gap a s = false) as -> by done.
    destruct a; try done. cbn. rewrite (link_of_free _ Hm). by repeat case_match.
Qed.

Lemma calm_reach fence link_first s :
  reachable (calm_exec fence link_first) (fun s0 => s0 = hp_init threads) s -> reach fence link_first s.
Proof.
  revert s. apply reachable_invariant; [intros s ->; by apply reach_init|]. intros s a s' Hr E.
  eapply reach_step; [exact Hr|]. unfold calm_exec in E. by destruct (gap a s).
Qed.

Lemma safe_conclusion s i :
  safe_inv s -> i ∈ validated s ->
  exists p, hazard_ptr_ <$> cells (dom s) !! i = Some (Some p) /\
    (forall r, r ∈ deleted s -> ptr_ r <> p) /\
    (forall t pc r, pcs s !! t = Some pc -> r ∈ pending pc -> ptr_ r <> p).
Proof.
  intros HI Hi. destruct (safe_slots _ HI i Hi) as (p & Hp & Hno & _). exists p. split_and!; [done| |].
  - intros r Hr'. apply Hno. set_solver.
  - intros t pc r Ht Hr'. apply Hno. apply elem_of_app. right. by eapply elem_of_gather.
Qed.

(** [C4] Safety of hazard pointers: if the store of [protect] is visible before
    the check that follows it, an object that was still reachable at that
    check is neither deleted nor picked for deletion as long as the slot keeps
    it, whatever the other threads acquire, retire, scan or release meanwhile.
    With the code's order of the two last stores of [acquire] this needs that no
    search reads the [next_] of a slot before its maker has set it; with the
    other order that cannot happen. *)
Theorem hazard_safety link_first s i :
  reachable (calm_exec true link_first) (fun s0 => s0 = hp_init threads) s -> i ∈ validated s ->
  exists p, hazard_ptr_ <$> cells (dom s) !! i = Some (Some p) /\
    (forall r, r ∈ deleted s -> ptr_ r <> p) /\
    (forall t pc r, pcs s !! t = Some pc -> r ∈ pending pc -> ptr_ r <> p).
Proof.
  intros Hr Hi. destruct link_first; [by apply safe_conclusion; [apply reach_safe, calm_reach|]|].
  destruct (calm_simulates _ _ Hr) as [_ HC].
  destruct (safe_conclusion _ i (reach_safe _ HC) Hi) as (p & Hp & H1 & H2).
  exists p. split_and!; [|done|].
  - rewrite <- Hp. symmetry. by apply fin_field.
  - intros t pc r Ht Hpc. apply (H2 t (unlink pc)); [cbn; by rewrite list_lookup_fmap, Ht|by destruct pc].
Qed.

(** [C23] No object is lost and none is deleted twice, in every interleaving,
    with or without delayed stores and in either order of the stores of
    [acquire]: what has been deleted, what threads have
    picked, and what waits in the global and local lists is together exactly
    what has been retired. *)
Theorem retire_ledger fence link_first s :
  reachable (hp_exec fence link_first) (fun s0 => s0 = hp_init threads) s ->
  deleted s ++ gather pending (pcs s) ++ retired_all (dom s) ≡ₚ retired s /\
  NoDup (ptr_ <$> deleted s).
Proof.
  intros (_ & _ & HP & HN)%base_inv. split; [exact HP|].
  rewrite <- HP in HN. unfold accounted in HN. rewrite fmap_app in HN. by apply NoDup_app in HN as [? _].
Qed.

Lemma store_hazard_owner i j p (d : HazPtrDomain D) :
  cells (store_hazard i p d) !! j ≫= owner_ = cells d !! j ≫= owner_.
Proof.
  cbn [store_hazard set_cells cells]. rewrite list_lookup_alter. case_decide; [|done]. subst.
  by destruct (cells d !! j).
Qed.

Lemma store_next_owner i j n (d : HazPtrDomain D) :
  cells (store_next i n d) !! j ≫= owner_ = cells d !! j ≫= owner_.
Proof.
  cbn [store_next set_cells cells]. rewrite list_lookup_alter. case_decide; [|done]. subst.
  by destruct (cells d !! j).
Qed.

Lemma push_owner t i u n (d : HazPtrDomain D) :
  cells d !! i ≫= owner_ = Some u ->
  cells (push_slot t d) !! i ≫= owner_ = Some u /\
  cells (store_next (length (cells d)) n (push_slot t d)) !! i ≫= owner_ = Some u.
Proof.
  intros Ho. destruct (cells d !! i) as [x|] eqn:Hx; [|done].
  assert (i < length (cells d))%nat as Hi by (by eapply lookup_lt_Some).
  rewrite (push_lookup _ _ _ Hi), push_link. cbn. by rewrite Hx, lookup_app_l, Hx.
Qed.

Lemma store_owner_other i j o t (d : HazPtrDomain D) :
  cells d !! i ≫= owner_ <> cells d !! j ≫= owner_ -> cells d !! j ≫= owner_ = Some t ->
  cells (store_owner i o d) !! j ≫= owner_ = Some t.
Proof.
  intros Hne Ho. cbn [store_owner set_cells cells]. rewrite list_lookup_alter. case_decide; [|done].
  by subst.
Qed.

Definition owner_at s i : option tid := cells (dom s) !! i ≫= owner_.
Definition buffer t s : list slot_store := default [] (buffers s !! t).

(** A thread between the two stores of [release] still owns its slot and has not
    given it up; a slot is given up by its owner, once. *)
Record release_inv s : Prop := {
  rel_pc : forall t pc, pcs s !! t = Some pc -> pc <> H_aborted /\
    forall i, pc = H_released i -> owner_at s i = Some t /\ i ∉ freeing (buffer t s);
  rel_nodup : forall t, NoDup (freeing (buffer t s));
  rel_owner : forall t i, i ∈ freeing (buffer t s) -> owner_at s i = Some t;
}.

(** [t] gives up slot [i] for everybody to see: at once, or when the store is visible. *)
Definition gives_up (a : hp_act D) s t i : Prop :=
  (a = Commit t /\ exists b, buffers s !! t = Some (St_free i :: b)) \/
  (a = Step t /\ pcs s !! t = Some (H_released i)).

(** An owner stays until then. *)
Lemma owner_step fence link_first a s s' j u :
  release_inv s -> hp_exec fence link_first a s = Some s' -> owner_at s j = Some u ->
  owner_at s' j = Some u \/ (gives_up a s u j /\ (a = Step u -> buffers s' = buffers s)).
Proof.
  intros HI E Ho. unfold owner_at in *. hp_open E; cbn; try (by left).
  all: try (left; first [exact (proj1 (push_owner _ _ _ None _ Ho)) | exact (proj2 (push_owner _ _ _ _ _ Ho))]).
  all: try (left; etrans; [apply store_next_owner | exact Ho]).
  all: try (left; etrans; [apply store_hazard_owner | exact Ho]).
  all: try (left; by rewrite (proj1 (splice_cells _ _))).
  - left. eapply store_owner_other; [|exact Ho]. rewrite Ho, Hx0. cbn. by rewrite Hb1.
  - destruct (decide (i = j)) as [->|Hne].
    + right. split; [|done]. left. assert (owner_at s j = Some t) as Ht.
      { apply (rel_owner _ HI). unfold buffer. rewrite Hx. cbn. set_solver. }
      unfold owner_at in Ht. rewrite Ho in Ht. simplify_eq. split; [done|]. eauto.
    + left. by rewrite list_lookup_alter_ne.
  - destruct (decide (i = j)) as [->|Hne].
    + right. rewrite Hx0 in Ho. cbn in Ho. simplify_eq. split; [|done]. by right.
    + left. by rewrite list_lookup_alter_ne.
Qed.

(** How the slots a thread is about to give up change. *)
Lemma freeing_step fence link_first a s s' u :
  hp_exec fence link_first a s = Some s' ->
  freeing (buffer u s') = freeing (buffer u s) \/
  (exists i, a = Step u /\ pcs s !! u = Some (H_released i) /\
     freeing (buffer u s') = freeing (buffer u s) ++ [i]) \/
  (exists i b, a = Commit u /\ buffers s !! u = Some (St_free i :: b) /\
     freeing (buffer u s) = i :: freeing (buffer u s')).
Proof.
  intros E. hp_open E; try (by left); unfold buffer; cbn; rewrite list_lookup_insert;
    (case_decide as Hd; [destruct Hd as [<- _]; cbn; rewrite ?Hx; cbn; unfold freeing; rewrite ?omap_app|by left]);
    cbn; rewrite ?app_nil_r; eauto 10.
Qed.

Lemma released_step fence link_first a s s' :
  release_inv s -> hp_exec fence link_first a s = Some s' -> forall u pc, pcs s' !! u = Some pc ->
  pc <> H_aborted /\ forall i, pc = H_released i ->
    owner_at s i = Some u /\ i ∉ freeing (buffer u s) /\ a <> Step u.
Proof.
  intros HI E. hp_open E; intros u pc; cbn; rewrite ?list_lookup_insert; try case_decide;
    destruct_and?; intros Hu; simplify_eq/=; try (split; [done|]; intros; done).
  all: try match goal with
    | Hu : pcs _ !! _ = Some ?pc |- ?pc <> _ /\ _ => destruct (rel_pc _ HI _ _ Hu) as [Ha Hi]; split; [exact Ha|];
        intros k ->; destruct (Hi k eq_refl) as [? ?]; split_and!; [done|done|];
        let Hst := fresh "Hst" in intros Hst; try discriminate Hst; injection Hst as Hst; exfalso end.
  all: try congruence.
  all: try (match goal with Hn : ~ (_ = _ /\ _) |- _ => apply Hn end; split; [congruence|]; by eapply lookup_lt_Some).
  all: try (split; [done|]; intros k [= <-]; unfold owns in *; bools; done).
  destruct (rel_pc _ HI _ _ Hx) as [_ Hr]. destruct (Hr _ eq_refl) as [Ho _]. unfold owner_at in Ho.
  rewrite Hx0 in Ho. done.
Qed.

Lemma release_step fence link_first a s s' :
  release_inv s -> hp_exec fence link_first a s = Some s' -> release_inv s'.
Proof.
  intros HI E. split.
  - intros u pc Hu. destruct (released_step _ _ _ _ _ HI E _ _ Hu) as [Ha Hr]. split; [exact Ha|].
    intros i Hi. destruct (Hr i Hi) as (Ho & Hf & Hne). split.
    + destruct (owner_step _ _ _ _ _ _ _ HI E Ho) as [?|[[[-> [b Hb]]|[? _]] _]]; [done| |done].
      destruct Hf. unfold buffer. rewrite Hb. cbn. set_solver.
    + destruct (freeing_step _ _ _ _ _ u E) as [->|[(k & ? & _)|(k & b & _ & _ & Hk)]]; [done..|].
      rewrite Hk in Hf. set_solver.
  - intros u. pose proof (rel_nodup _ HI u) as HN.
    destruct (freeing_step _ _ _ _ _ u E) as [->|[(k & _ & Hk & ->)|(k & b & _ & _ & Hk)]]; [done| |].
    + destruct (rel_pc _ HI _ _ Hk) as [_ Hr]. destruct (Hr _ eq_refl) as [_ Hf].
      apply NoDup_app. split_and!; [done|set_solver|apply NoDup_singleton].
    + rewrite Hk in HN. by apply NoDup_cons in HN as [_ ?].
  - intros u i Hi. pose proof (rel_nodup _ HI u) as HN. pose proof (rel_owner _ HI u i) as Ho.
    destruct (freeing_step _ _ _ _ _ u E) as [Hs|[(k & -> & Hk & Hs)|(k & b & -> & Hb & Hk)]].
    + rewrite Hs in Hi. destruct (owner_step _ _ _ _ _ _ _ HI E (Ho Hi)) as [?|[[[-> [b Hb]]|[-> Hp]] _]]; [done|exfalso..].
      * cbn in E. rewrite Hb in E. cbn in E. simplify_eq. unfold buffer in Hs. cbn in Hs.
        rewrite list_lookup_insert_eq, Hb in Hs by (by eapply lookup_lt_Some).
        apply (f_equal length) in Hs. cbn in Hs. lia.
      * destruct (rel_pc _ HI _ _ Hp) as [_ Hr]. by destruct (Hr _ eq_refl).
    + destruct (rel_pc _ HI _ _ Hk) as [_ Hr]. destruct (Hr _ eq_refl) as [Hok Hf].
      assert (owner_at s i = Some u) as Hoi.
      { rewrite Hs in Hi. apply elem_of_app in Hi as [Hi|Hi]; [by apply Ho|]. set_solver. }
      destruct (owner_step _ _ _ _ _ _ _ HI E Hoi) as [?|[[[[=] _]|[_ Hp]] Heq]]; [done|].
      specialize (Heq eq_refl). unfold buffer in Hs. rewrite Heq in Hs. exfalso.
      apply (f_equal length) in Hs. rewrite length_app in Hs. cbn in Hs. lia.
    + rewrite Hk in HN, Ho. apply NoDup_cons in HN as [Hni _].
      destruct (owner_step _ _ _ _ _ _ _ HI E (Ho ltac:(set_solver))) as [?|[[[_ [b' Hb']]|[[=] _]] _]]; [done|].
      rewrite Hb in Hb'. simplify_eq. by destruct Hni.
Qed.

Lemma reach_release fence link_first s : reach fence link_first s -> release_inv s.
Proof.
  revert s. apply reachable_invariant.
  - intros s ->. assert (forall t, buffer t (hp_init (D:=D) threads) = []) as Hb.
    { intros t. unfold buffer. cbn. destruct (replicate threads [] !! t) eqn:Ht; [|done].
      by apply lookup_replicate in Ht as [-> _]. }
    split.
    + intros t pc [-> _]%lookup_replicate. done.
    + intros t. rewrite Hb. constructor.
    + intros t i. rewrite Hb. cbn. set_solver.
  - intros s a s' ? E. by eapply release_step.
Qed.

(** *** The search of [isProtected], as it runs *)

(** The [next_] a search reads at slot [c]: the slot made before it, or nothing while
    its maker has not linked it. *)
Definition next_seen s (c : nat) : option nat :=
  if bool_decide (fst <$> link_of s = Some c) then None else before c.

Lemma next_read s c x : link_inv s -> cells (dom s) !! c = Some x -> next_ x = next_seen s c.
Proof.
  intros HI Hx. unfold next_seen. destruct (fin_lookup (link_of s) (dom s) c x Hx) as (y & Hy & _ & _ & Hn).
  case_bool_decide as Hl.
  - destruct (link_of s) as [[i o]|] eqn:Hi; [|done]. cbn in Hl. simplify_eq.
    destruct (link_null _ HI _ _ Hi) as [_ (x' & Hx' & ->)%fmap_Some]. congruence.
  - rewrite <- Hn by done. by apply (link_shape _ HI).
Qed.

Lemma head_read s : link_inv s -> head_ (dom s) = before (length (cells (dom s))).
Proof.
  intros HI. destruct (link_shape _ HI) as [Hh _]. rewrite (proj2 (proj2 (proj2 (fin_rest _ _)))) in Hh.
  rewrite Hh, fin_cells. destruct (link_of s) as [[]|]; [by rewrite length_alter|done].
Qed.

(** A thread that is searching has an object to search for and stands at a slot. *)
Definition walk_inv s : Prop :=
  forall t it cur acc, pcs s !! t = Some (H_walk it cur acc) ->
    is_Some (global_retired_ (dom s) !! it) /\ forall c, cur = Some c -> (c < length (cells (dom s)))%nat.

Lemma cells_grow fence link_first a s s' :
  hp_exec fence link_first a s = Some s' -> (length (cells (dom s)) <= length (cells (dom s')))%nat.
Proof.
  intros E. hp_open E; cbn; rewrite ?(proj1 (splice_cells _ _)), ?length_alter, ?length_app; cbn; lia.
Qed.

Lemma global_held fence link_first a s s' w it cur acc :
  excl_inv s -> pcs s !! w = Some (H_walk it cur acc) -> hp_exec fence link_first a s = Some s' -> a <> Step w ->
  global_retired_ (dom s') = global_retired_ (dom s) /\ pcs s' !! w = pcs s !! w.
Proof.
  intros HX Hw E Ha. hp_open E; cbn; try done.
  all: assert (t <> w) as Hne by (intros ->; congruence).
  all: rewrite list_lookup_insert_ne by done; split; try done.
  all: by destruct Hne; eapply holds_unique.
Qed.

Lemma walk_enter fence link_first s s' t it cur acc :
  hp_exec fence link_first (Step t) s = Some s' -> pcs s' !! t = Some (H_walk it cur acc) ->
  cells (dom s') = cells (dom s) /\ global_retired_ (dom s') = global_retired_ (dom s) /\
  is_Some (global_retired_ (dom s) !! it) /\
  (cur = head_ (dom s) \/ exists c x, cells (dom s) !! c = Some x /\ cur = next_ x).
Proof.
  intros E. cbn [hp_exec] in E. apply bind_Some in E as (pc & Hx & E).
  assert (t < length (pcs s))%nat as Hlt by (by eapply lookup_lt_Some).
  destruct pc; cbn [hp_step] in E; unfold lock, write in E; open_step E; cbn;
    rewrite list_lookup_insert_eq by done; intros Hp; simplify_eq; split_and!; eauto.
Qed.

Lemma walk_kept fence link_first a s s' w it cur acc :
  hp_exec fence link_first a s = Some s' -> pcs s' !! w = Some (H_walk it cur acc) -> a <> Step w ->
  pcs s !! w = Some (H_walk it cur acc).
Proof.
  intros E Hw Ha. hp_open E; cbn in Hw; try done;
    (apply list_lookup_insert_Some in Hw as [(-> & ? & _)|[_ ?]]; [by simplify_eq|done]).
Qed.

Lemma walk_step fence link_first a s s' :
  link_inv s -> excl_inv s -> walk_inv s -> hp_exec fence link_first a s = Some s' -> walk_inv s'.
Proof.
  intros HK HX HI E t it cur acc Ht.
  assert (a = Step t \/ a <> Step t) as [->|Ha].
  { destruct a as [| | | | | | | |u]; try (by right). destruct (decide (u = t)) as [->|]; [by left|right; congruence]. }
  - destruct (walk_enter _ _ _ _ _ _ _ _ E Ht) as (Hc & Hg & Hs & Hcur). rewrite Hg, Hc. split; [done|].
    intros c ->. destruct Hcur as [Hh|(d & x & Hx & Hn)].
    + rewrite head_read in Hh by done. destruct (length _); cbn in Hh; simplify_eq. lia.
    + apply lookup_lt_Some in Hx as Hlt. rewrite (next_read _ _ _ HK Hx) in Hn. unfold next_seen in Hn.
      case_bool_decide; [done|]. destruct d; cbn in Hn; simplify_eq. lia.
  - assert (pcs s !! t = Some (H_walk it cur acc)) as Ht0.
    { by eapply walk_kept. }
    destruct (global_held _ _ _ _ _ _ _ _ _ HX Ht0 E Ha) as [-> _]. destruct (HI _ _ _ _ Ht0) as [H1 H2].
    split; [done|]. intros c Hc. specialize (H2 c Hc). pose proof (cells_grow _ _ _ _ _ E). lia.
Qed.

Lemma reach_walk fence link_first s : reach fence link_first s -> walk_inv s.
Proof.
  intros Hr. enough (link_inv s /\ excl_inv s /\ walk_inv s) by tauto. revert s Hr. apply reachable_invariant.
  - intros s ->. destruct (init_safe (D:=D) threads). split_and!; [done..|]. by intros t it cur acc [? _]%lookup_replicate.
  - intros s a s' (? & ? & ?) E. split_and!; [by eapply link_step | by eapply excl_step | by eapply walk_step].
Qed.

(** Steps a search still has to make. *)
Definition walk_left (cur : option nat) : nat := match cur with Some c => S (S c) | None => 1 end.

(** One step of a search. *)
Lemma search_step fence link_first s t it cur acc :
  link_inv s -> walk_inv s -> pcs s !! t = Some (H_walk it cur acc) ->
  exists r s', global_retired_ (dom s) !! it = Some r /\ hp_exec fence link_first (Step t) s = Some s' /\
    match cur with
    | None => pcs s' !! t = Some (H_sweep it (acc ++ [r]))
    | Some c => exists x, cells (dom s) !! c = Some x /\
        pcs s' !! t = Some (if names (ptr_ r) x then H_sweep (S it) acc else H_walk it (next_seen s c) acc)
    end.
Proof.
  intros HK HW Ht. destruct (HW _ _ _ _ Ht) as [[r Hr] Hc].
  assert (t < length (pcs s))%nat as Hlt by (by eapply lookup_lt_Some).
  exists r. cbn [hp_exec]. rewrite Ht. cbn [mbind option_bind]. destruct cur as [c|]; cbn [hp_step]; rewrite Hr; cbn [mbind option_bind].
  - destruct (lookup_lt_is_Some_2 _ _ (Hc c eq_refl)) as [x Hx]. rewrite Hx. cbn [mbind option_bind].
    eexists. split_and!; [done..|]. exists x. split; [done|]. rewrite <- (next_read _ _ _ HK Hx).
    cbn. by rewrite list_lookup_insert_eq.
  - eexists. split_and!; [done..|]. cbn. by rewrite list_lookup_insert_eq.
Qed.

Definition is_own (t : tid) (a : hp_act D) : bool := match a with Step u => (u =? t)%nat | _ => false end.
Fixpoint own_steps (t : tid) (tr : list (hp_act D)) : nat :=
  match tr with [] => 0 | a :: tr => (if is_own t a then 1 else 0) + own_steps t tr end.

Lemma own_case t (a : hp_act D) : (a = Step t /\ is_own t a = true) \/ (a <> Step t /\ is_own t a = false).
Proof.
  destruct a as [| | | | | | | |u]; try (right; split; done). cbn.
  destruct (Nat.eqb_spec u t) as [->|]; [by left|right; split; congruence].
Qed.

(** Whatever the others do, a search is over after a bounded number of its own steps. *)
Lemma search_ends fence link_first tr s s' t it cur acc :
  reach fence link_first s -> pcs s !! t = Some (H_walk it cur acc) ->
  run (hp_exec fence link_first) tr s = Some s' -> (walk_left cur <= own_steps t tr)%nat ->
  exists tr1 tr2 s1, tr = tr1 ++ tr2 /\ run (hp_exec fence link_first) tr1 s = Some s1 /\
    (own_steps t tr1 <= walk_left cur)%nat /\
    (pcs s1 !! t = Some (H_sweep (S it) acc) \/ exists r, pcs s1 !! t = Some (H_sweep it (acc ++ [r]))).
Proof.
  revert s cur. induction tr as [|a tr IH]; intros s cur Hr Ht E Hle; [destruct cur; cbn in Hle; lia|].
  cbn [run] in E. apply bind_Some in E as (s0 & E0 & E).
  pose proof (reach_step _ _ _ _ _ Hr E0) as Hr0. destruct (base_inv _ _ _ Hr) as (HK & HX & _).
  destruct (own_case t a) as [[-> Hown]|[Ha Hown]].
  - destruct (search_step fence link_first s t it cur acc HK (reach_walk _ _ _ Hr) Ht) as (r & s0' & Hg & E0' & Hc).
    rewrite E0 in E0'. injection E0' as <-.
    assert (forall pc', pcs s0 !! t = Some pc' ->
      pc' = H_sweep (S it) acc \/ (exists r, pc' = H_sweep it (acc ++ [r])) ->
      exists tr1 tr2 s1, Step t :: tr = tr1 ++ tr2 /\ run (hp_exec fence link_first) tr1 s = Some s1 /\
        (own_steps t tr1 <= walk_left cur)%nat /\
        (pcs s1 !! t = Some (H_sweep (S it) acc) \/ exists r, pcs s1 !! t = Some (H_sweep it (acc ++ [r])))) as Hend.
    { intros pc' Hp Hpc. exists [Step t], tr, s0. split_and!; [done|cbn [run]; by rewrite E0| |].
      - cbn [own_steps]. rewrite Hown. cbn. destruct cur; cbn; lia.
      - destruct Hpc as [->|[r' ->]]; eauto. }
    destruct cur as [c|]; [|eapply Hend; [exact Hc|eauto]].
    destruct Hc as (x & _ & Hp). destruct (names (ptr_ r) x); [eapply Hend; [exact Hp|by left]|].
    cbn [own_steps] in Hle |- *. rewrite Hown in Hle. destruct (IH s0 (next_seen s c) Hr0 Hp E) as (tr1 & tr2 & s1 & -> & Er & Hl & Hfin).
    + unfold next_seen. case_bool_decide; cbn in *; [lia|]. destruct c; cbn in *; lia.
    + exists (Step t :: tr1), tr2, s1. split_and!; [done|cbn [run]; by rewrite E0| |exact Hfin].
      cbn [own_steps]. rewrite Hown. unfold next_seen in Hl. case_bool_decide; cbn in *; [lia|]. destruct c; cbn in *; lia.
  - destruct (global_held _ _ _ _ _ _ _ _ _ HX Ht E0 Ha) as [_ Hp].
    cbn [own_steps] in Hle |- *. rewrite Hown in Hle. destruct (IH s0 cur Hr0) as (tr1 & tr2 & s1 & -> & Er & Hl & Hfin); [congruence|done|done|].
    exists (a :: tr1), tr2, s1. split_and!; [done|cbn [run]; by rewrite E0|cbn [own_steps]; by rewrite Hown|exact Hfin].
Qed.

(** [C35] With the search, the check and the stores interleaved in any way, delayed or
    not: the ownership check of [release] never fails for slots used by the thread that
    acquired them; at most one thread is inside the sections guarded by
    [global_retired_mutex_]; a search of the slot list can always go on, stops at the
    slot in its hand exactly when that slot names the object at that moment, and else
    moves to the slot made before it (to the end of the list, when the slot in its hand
    is not linked yet); and whatever the other threads do meanwhile, a search that
    stands at slot [c] is over after at most [c + 2] steps of its own. *)
Theorem release_assertion_holds fence link_first s :
  reachable (hp_exec fence link_first) (fun s0 => s0 = hp_init threads) s ->
  (forall t, pcs s !! t <> Some H_aborted) /\
  (forall t u pc pc', pcs s !! t = Some pc -> pcs s !! u = Some pc' ->
     holds pc = true -> holds pc' = true -> t = u) /\
  (forall t it cur acc, pcs s !! t = Some (H_walk it cur acc) ->
     exists r s', global_retired_ (dom s) !! it = Some r /\ hp_exec fence link_first (Step t) s = Some s' /\
       match cur with
       | None => pcs s' !! t = Some (H_sweep it (acc ++ [r]))
       | Some c => exists x, cells (dom s) !! c = Some x /\
           pcs s' !! t = Some (if names (ptr_ r) x then H_sweep (S it) acc else H_walk it (next_seen s c) acc)
       end) /\
  (forall t it cur acc tr s', pcs s !! t = Some (H_walk it cur acc) ->
     run (hp_exec fence link_first) tr s = Some s' -> (walk_left cur <= own_steps t tr)%nat ->
     exists tr1 tr2 s1, tr = tr1 ++ tr2 /\ run (hp_exec fence link_first) tr1 s = Some s1 /\
       (own_steps t tr1 <= walk_left cur)%nat /\
       (pcs s1 !! t = Some (H_sweep (S it) acc) \/ exists r, pcs s1 !! t = Some (H_sweep it (acc ++ [r])))).
Proof.
  intros Hr. pose proof (reach_release _ _ _ Hr) as HR.
  destruct (base_inv _ _ _ Hr) as (HK & HX & _). split_and!.
  - intros t Ht. by destruct (rel_pc _ HR _ _ Ht).
  - intros. by eapply holds_unique.
  - intros. apply search_step; [done|by eapply reach_walk|done].
  - intros. by eapply search_ends.
Qed.

(** A thread that locks [global_retired_mutex_] twice blocks everybody: it
    keeps the mutex in every continuation, so no scan or global retirement
    makes a step again. *)
Lemma self_lock_permanent fence link_first w tr s s' :
  pcs s !! w = Some H_self_lock -> mutex s = Some w ->
  run (hp_exec fence link_first) tr s = Some s' -> excl_inv s ->
  pcs s' !! w = Some H_self_lock /\ mutex s' = Some w /\
  (forall u, pcs s' !! u = Some H_lock_retire \/ pcs s' !! u = Some H_lock_scan \/
             pcs s' !! u = Some H_lock_reclaim -> hp_exec fence link_first (Step u) s' = None).
Proof.
  intros Hp Hm Hr HX.
  assert (pcs s' !! w = Some H_self_lock /\ mutex s' = Some w /\ excl_inv s') as (Hp' & Hm' & _).
  { revert Hr. apply (run_invariant _ (fun s => pcs s !! w = Some H_self_lock /\ mutex s = Some w /\ excl_inv s));
      [|done].
    clear. intros s a s' (Hp & Hm & HX) E. pose proof (excl_step _ _ _ _ _ HX E) as HX'.
    assert (pcs s' !! w = Some H_self_lock) as Hp'; [|split_and!; [done| |done]; by eapply HX'].
    clear HX'. hp_open E; cbn; try done; rewrite list_lookup_insert_ne; try done; intros ->; simplify_eq. }
  split_and!; try done. intros u [Hu|[Hu|Hu]]; cbn; rewrite Hu; cbn; unfold lock; by rewrite Hm'.
Qed.
End hp_theorems.

(** ** [acquire] and [Scan] running alone

    The steps of one thread from the call to the return, with no other thread
    moving, do what the functions [acquire] and [Scan] compute. *)

Section alone.
Context {D : Type} (fence link_first : bool).
Implicit Types (s : hp_state D).

(** Some number of steps of thread [t]. *)
Definition steps (t : tid) s s' : Prop := repeats (hp_exec fence link_first) (Step t) s s'.

Lemma steps_refl t s : steps t s s.
Proof. apply repeats_refl. Qed.

Lemma steps_trans t s1 s2 s3 : steps t s1 s2 -> steps t s2 s3 -> steps t s1 s3.
Proof. apply repeats_trans. Qed.

Lemma steps_cons t pc s1 s2 s3 :
  pcs s1 !! t = Some pc -> hp_step fence t pc s1 = Some s2 -> steps t s2 s3 -> steps t s1 s3.
Proof. intros Ht E. apply repeats_cons. cbn. by rewrite Ht. Qed.

Lemma set_pc_lookup t pc s : (t < length (pcs s))%nat -> pcs (set_pc t pc s) !! t = Some pc.
Proof. intros. by apply list_lookup_insert_eq. Qed.

Lemma set_pc_set_pc t pc pc' s : set_pc t pc (set_pc t pc' s) = set_pc t pc s.
Proof. unfold set_pc. cbn. by rewrite list_insert_insert_eq. Qed.

(** [acquire] alone, in either order of its last two stores. *)
Lemma acquire_alone t s i d' :
  pcs s !! t = Some H_idle -> list_mutex s = None -> slots_ok (dom s) -> acquire t (dom s) = Some (i, d') ->
  exists found s1, hp_exec fence link_first (Acquire t found) s = Some s1 /\
    i = default (length (cells (dom s))) found /\ steps t s1 (set_dom d' s).
Proof.
  intros Hp Hm [Hh Hn] E. unfold acquire in E. apply bind_Some in E as (found & Hf & E).
  destruct (find_free_spec (length (cells (dom s))) (cells (dom s)) (length (cells (dom s))) Hn) as (r & Er & Hr);
    [done|done|]. rewrite Hh, Er in Hf. simplify_eq. exists found. cbn. unfold idle, take_slot. rewrite Hp, Hm. cbn.
  destruct found as [c|]; simplify_eq.
  - destruct Hr as (_ & (x & Hx & Ho)%fmap_Some & _). rewrite Hx. cbn. rewrite bool_decide_true by done.
    eexists. split_and!; [done..|]. apply steps_refl.
  - destruct link_first; eexists; (split_and!; [done..|]); [apply steps_refl|].
    assert (t < length (pcs s))%nat as Ht by (by eapply lookup_lt_Some).
    eapply steps_cons; [by apply list_lookup_insert_eq|reflexivity|].
    replace (set_pc t _ _) with (set_dom (store_next (length (cells (dom s))) (head_ (dom s)) (push_slot t (dom s))) s);
      [apply steps_refl|].
    unfold set_pc, set_dom, set_list_mutex. cbn. rewrite Hm, list_insert_insert_eq. by rewrite list_insert_id.
Qed.

(** The walk decides whether a slot among the first [n] names the object. *)
Lemma walk_alone t s it r acc n :
  (t < length (pcs s))%nat -> slots_ok (dom s) -> global_retired_ (dom s) !! it = Some r ->
  (n <= length (cells (dom s)))%nat ->
  steps t (set_pc t (H_walk it (before n) acc) s)
    (if existsb (names (ptr_ r)) (take n (cells (dom s)))
     then set_pc t (H_sweep (S it) acc) s
     else set_pc t (H_sweep it (acc ++ [r]))
            (set_dom (set_global (delete it (global_retired_ (dom s))) (dom s)) s)).
Proof.
  intros Ht [_ Hn] Hr. induction n as [|n IH]; intros Hle.
  - eapply steps_cons; [by apply set_pc_lookup| |apply steps_refl]. cbn. rewrite Hr. cbn.
    unfold set_pc, set_dom. cbn. by rewrite list_insert_insert_eq.
  - destruct (lookup_lt_is_Some_2 (cells (dom s)) n) as [x Hx]; [lia|].
    rewrite (take_S_r _ _ _ Hx), existsb_app. cbn [existsb]. rewrite orb_false_r.
    eapply steps_cons; [by apply set_pc_lookup| |].
    + cbn. rewrite Hr. cbn. rewrite Hx. cbn. rewrite set_pc_set_pc, (Hn _ _ Hx). reflexivity.
    + destruct (names (ptr_ r) x); [rewrite orb_true_r; apply steps_refl|].
      rewrite orb_false_r. apply IH. lia.
Qed.

Lemma sweep_alone t s kept rest acc :
  (t < length (pcs s))%nat -> slots_ok (dom s) -> global_retired_ (dom s) = kept ++ rest ->
  steps t (set_pc t (H_sweep (length kept) acc) s)
    (unlock t (H_delete (acc ++ filter (fun r => protected (ptr_ r) (dom s) = false) rest))
       (set_dom (set_global (kept ++ filter (fun r => protected (ptr_ r) (dom s) = true) rest) (dom s)) s)).
Proof.
  revert s kept acc. induction rest as [|r rest IH]; intros s kept acc Ht Hok Hg.
  - eapply steps_cons; [by apply set_pc_lookup| |apply steps_refl].
    cbn. rewrite lookup_ge_None_2 by (rewrite Hg, app_nil_r; done). unfold unlock, set_mutex, set_pc. cbn.
    rewrite list_insert_insert_eq, !app_nil_r. rewrite app_nil_r in Hg. rewrite <- Hg. by destruct s as [[]].
  - assert (global_retired_ (dom s) !! length kept = Some r) as Hr
      by (rewrite Hg; by apply list_lookup_middle).
    eapply steps_cons; [by apply set_pc_lookup| |].
    { cbn. rewrite Hr. rewrite set_pc_set_pc. reflexivity. }
    pose proof Hok as [Hh _]. rewrite Hh.
    eapply steps_trans; [by apply walk_alone with (r := r)|]. rewrite firstn_all.
    rewrite !filter_cons. fold (protected (ptr_ r) (dom s)).
    destruct (protected (ptr_ r) (dom s)) eqn:Hp; repeat case_decide; try done.
    + replace (S (length kept)) with (length (kept ++ [r])) by (rewrite length_app; cbn; lia).
      replace (kept ++ r :: filter (fun r => protected (ptr_ r) (dom s) = true) rest)
        with ((kept ++ [r]) ++ filter (fun r => protected (ptr_ r) (dom s) = true) rest)
        by (by rewrite <- app_assoc).
      apply IH; [done|done|]. by rewrite Hg, <- app_assoc.
    + replace (acc ++ r :: filter (fun r => protected (ptr_ r) (dom s) = false) rest)
        with ((acc ++ [r]) ++ filter (fun r => protected (ptr_ r) (dom s) = false) rest)
        by (by rewrite <- app_assoc).
      apply (IH (set_dom (set_global (delete (length kept) (global_retired_ (dom s))) (dom s)) s)); [done|done|].
      cbn. rewrite Hg. by rewrite delete_middle.
Qed.

Lemma collect_alone t s rest :
  (t < length (pcs s))%nat ->
  steps t (set_pc t (H_collect rest) s)
    (set_pc t (H_collect []) (set_dom (foldl (fun d u => splice u d) (dom s) rest) s)).
Proof.
  revert s. induction rest as [|u rest IH]; intros s Ht.
  - replace (set_dom (foldl (fun d u => splice u d) (dom s) []) s) with s by (by destruct s).
    apply steps_refl.
  - eapply steps_cons; [by apply set_pc_lookup|reflexivity|].
    specialize (IH (set_dom (splice u (dom s)) s) Ht). cbn in IH |- *.
    unfold set_pc, set_dom in *. cbn in *. by rewrite list_insert_insert_eq.
Qed.

Lemma delete_alone t s acc :
  (t < length (pcs s))%nat ->
  steps t (set_pc t (H_delete acc) s)
    (mkHpState (dom s) (<[t := H_idle]> (pcs s)) (mutex s) (list_mutex s) (buffers s) (deleted s ++ acc)
       (retired s) (validated s)).
Proof.
  revert s. induction acc as [|r acc IH]; intros s Ht.
  - eapply steps_cons; [by apply set_pc_lookup|reflexivity|]. cbn. unfold set_pc. cbn.
    rewrite list_insert_insert_eq, app_nil_r. apply steps_refl.
  - eapply steps_cons; [by apply set_pc_lookup|reflexivity|].
    specialize (IH (log_deleted r s) Ht). unfold set_pc, log_deleted in *. cbn in *.
    rewrite list_insert_insert_eq. by rewrite <- app_assoc in IH.
Qed.

(** [C26] A scan that is not disturbed terminates and does exactly what the
    function [Scan] computes: the same lists afterwards, the same objects
    deleted in the same order, the mutex free again. *)
Theorem scan_refines t s d' freed :
  pcs s !! t = Some H_lock_scan -> mutex s = None -> slots_ok (dom s) ->
  Scan false (dom s) = Ret (d', freed) ->
  exists s', steps t s s' /\ dom s' = d' /\ deleted s' = deleted s ++ freed /\
    pcs s' = <[t := H_idle]> (pcs s) /\ mutex s' = None /\ validated s' = validated s.
Proof.
  intros Hp Hm Hok HS. assert (t < length (pcs s))%nat as Ht by (by eapply lookup_lt_Some).
  unfold Scan in HS. set (d1 := foldl _ _ _) in HS.
  assert (slots_ok d1) as Hok1.
  { unfold slots_ok, d1. by destruct (splices_inv (all_thread_data_ (dom s)) (dom s)) as (_ & -> & ->). }
  rewrite reclaim_all_partition in HS by done. simplify_eq. eexists. split.
  - eapply steps_cons; [exact Hp| |].
    { cbn. unfold lock. rewrite Hm. reflexivity. }
    eapply steps_trans; [by apply collect_alone|].
    eapply steps_cons; [by apply set_pc_lookup|reflexivity|].
    unfold unlock, set_mutex. cbn [dom set_pc set_dom pcs mutex buffers deleted retired validated].
    eapply steps_cons; [apply list_lookup_insert_eq; cbn; by rewrite ?length_insert| |].
    { cbn. unfold lock. cbn. reflexivity. }
    eapply steps_trans; [apply (sweep_alone t _ [] (global_retired_ d1)); cbn; rewrite ?length_insert; done|].
    unfold unlock. apply delete_alone. cbn. by rewrite !length_insert.
  - cbn. rewrite !list_insert_insert_eq. done.
Qed.
End alone.

(** ** Traces *)

Module HazardTraces.

Abbreviation st := (hp_state unit).
Abbreviation act := (hp_act unit).

(** Thread 0 protects object 7 and sees it reachable; thread 1 retires it; a
    scan of thread 2 runs to its end. *)
Definition protect_then_retire : list act :=
  [Register 1; Acquire 0 None; Step 0; Protect 0 0 (Some 7%nat); Validate 0 0; Retire 1 7 (); Step 1].
Definition scan : list act := StartScan 2 :: replicate 9 (Step 2).

Definition after (exec : act -> st -> option st) (tr : list act) : st :=
  default (hp_init 3) (run exec tr (hp_init 3)).
Abbreviation code := (hp_exec false false).
Abbreviation calm := (calm_exec true false).

Lemma hazard_safety_witness :
  exists p, hazard_ptr_ <$> cells (dom (after calm (protect_then_retire ++ take 7 scan))) !! 0%nat = Some (Some p) /\
    (forall r, r ∈ deleted (after calm (protect_then_retire ++ take 7 scan)) -> ptr_ r <> p) /\
    (forall t pc r, pcs (after calm (protect_then_retire ++ take 7 scan)) !! t = Some pc ->
       r ∈ pending pc -> ptr_ r <> p).
Proof.
  apply (hazard_safety 3 false); [apply default_reachable; [done | vm_compute; reflexivity]|].
  vm_compute. reflexivity.
Defined.

(** With the release store the code uses, the store of [protect] may still be
    on its way when the thread checks that the object is reachable: the scan then
    does not see the slot, and an object is deleted although the check after the
    store succeeded. *)
Lemma release_store_unsafe :
  exists s, run code (protect_then_retire ++ scan) (hp_init 3) = Some s /\
    0%nat ∈ validated s /\ seen 0 0 s = Some 7%nat /\ ptr_ <$> deleted s = [7%nat].
Proof. eexists. split; [vm_compute; reflexivity|]. split_and!; vm_compute; reflexivity. Qed.

(** The other reason: between the two last stores of [acquire] the new slot is
    the head of a list of one.  Thread 1 has just stored [head_]; the scan finds
    no other slot, and deletes the object of a checked slot although every store
    is visible at once. *)
Lemma half_linked_list_unsafe :
  exists s, run (hp_exec true false) (protect_then_retire ++ Acquire 1 None :: scan) (hp_init 3) = Some s /\
    0%nat ∈ validated s /\ hazard_ptr_ <$> cells (dom s) !! 0%nat = Some (Some 7%nat) /\
    ptr_ <$> deleted s = [7%nat].
Proof. eexists. split; [vm_compute; reflexivity|]. split_and!; vm_compute; reflexivity. Qed.

Definition two_slots : HazPtrDomain unit :=
  mkDomain [mkHP (Some 7%nat) (Some 0%nat) None; mkHP None None (Some 0%nat)] (Some 1%nat)
    [mkRetired 7%nat (); mkRetired 8%nat ()] [1%nat]
    [ThreadData_default; mkThreadData [mkRetired 9%nat ()] 100 (Some 1%nat)].

Lemma two_slots_ok : slots_ok two_slots.
Proof. split; [done|]. by intros [|[|i]] x Hx; simplify_eq/=. Defined.

Lemma acquire_spec_witness :
  exists i d', acquire 5 two_slots = Some (i, d') /\ slots_ok d' /\
    (owner_ <$> cells two_slots !! i = Some None /\ cells d' = alter (with_owner (Some 5%nat)) i (cells two_slots)) /\
    global_retired_ d' = global_retired_ two_slots /\ tls d' = tls two_slots /\
    all_thread_data_ d' = all_thread_data_ two_slots.
Proof. exact (acquire_spec 5 two_slots two_slots_ok). Defined.

Lemma reclaim_all_partition_witness :
  reclaim_all two_slots = Some (set_global [mkRetired 7%nat ()] two_slots, [mkRetired 8%nat ()]).
Proof. exact (reclaim_all_partition two_slots two_slots_ok). Defined.

Lemma Scan_conserves_witness :
  exists d' freed, Scan false two_slots = Ret (d', freed) /\
    freed ++ retired_all d' ≡ₚ retired_all two_slots /\
    (forall r, r ∈ freed -> protected (ptr_ r) two_slots = false) /\
    (forall r, r ∈ global_retired_ d' -> protected (ptr_ r) two_slots = true).
Proof. exact (Scan_conserves two_slots two_slots_ok). Defined.

(** 99 objects in the local list, 4901 in the global one. *)
Definition crowded : HazPtrDomain unit :=
  mkDomain [] None (replicate 4901 (mkRetired 1%nat ())) []
    [mkThreadData (replicate 99 (mkRetired 2%nat ())) 100 None].

Lemma RetirePointer_cases_witness :
  RetirePointer 0 3 () crowded = Undef "global_retired_mutex_ locked twice by one thread".
Proof.
  apply (RetirePointer_cases 0 (mkThreadData (replicate 99 (mkRetired 2%nat ())) 100 None) 3 () crowded eq_refl);
    apply Nat.leb_le; vm_compute; reflexivity.
Defined.

Lemma unregistered_list_stranded_witness :
  tls (foldl (fun d t => splice t d) (UnregisterThread 1 two_slots) (all_thread_data_ (UnregisterThread 1 two_slots)))
    !! 1%nat = Some (mkThreadData [mkRetired 9%nat ()] 100 (Some 1%nat)).
Proof.
  apply (unregistered_list_stranded 1 (mkThreadData [mkRetired 9%nat ()] 100 (Some 1%nat)) two_slots
    (set_global [mkRetired 7%nat ()] (UnregisterThread 1 two_slots)) [mkRetired 8%nat ()]); reflexivity.
Defined.

Lemma holder_move_spec_witness :
  let h := mkHolder (Some 1%nat) in
  let d1 := set_cells (alter (with_owner (Some 5%nat)) 1%nat (cells two_slots)) two_slots in
  get (fst (holder_move h)) (protect h (Some 3%nat) d1) = Some 3%nat.
Proof.
  exact (proj1 (holder_move_spec 5 6 3 two_slots (mkHolder (Some 1%nat))
    (set_cells (alter (with_owner (Some 5%nat)) 1%nat (cells two_slots)) two_slots)
    two_slots_ok eq_refl ltac:(done))).
Defined.

Lemma retire_ledger_witness :
  deleted (after code (protect_then_retire ++ scan)) ++
    gather pending (pcs (after code (protect_then_retire ++ scan))) ++
    retired_all (dom (after code (protect_then_retire ++ scan)))
    ≡ₚ retired (after code (protect_then_retire ++ scan)) /\
  NoDup (ptr_ <$> deleted (after code (protect_then_retire ++ scan))).
Proof. apply (retire_ledger 3 false false), default_reachable; [done | vm_compute; reflexivity]. Defined.

(** Thread 0 is releasing its slot, its first store still on the way, while the scan
    of thread 2 searches for object 7. *)
Lemma release_assertion_holds_witness :
  let s := after code (protect_then_retire ++ take 6 scan ++ [Commit 0; Release 0 0]) in
  pcs s !! 0%nat = Some (H_released 0) /\ pcs s !! 2%nat = Some (H_walk 0 (Some 0%nat) []) /\
  (forall t, pcs s !! t <> Some H_aborted) /\
  exists s', code (Step 2) s = Some s' /\ pcs s' !! 2%nat = Some (H_sweep 1 []).
Proof.
  intros s. split; [vm_compute; reflexivity|]. split; [vm_compute; reflexivity|].
  assert (reachable code (fun s0 => s0 = hp_init 3) s) as Hr
    by (apply default_reachable; [done | vm_compute; reflexivity]).
  destruct (release_assertion_holds 3 false false s Hr) as (H1 & _ & H3 & _).
  split; [exact H1|]. destruct (H3 2%nat 0%nat (Some 0%nat) []) as (r & s' & Hg & E & x & Hx & Hp); [vm_compute; reflexivity|].
  exists s'. split; [exact E|]. vm_compute in Hg, Hx. injection Hg as <-. injection Hx as <-. exact Hp.
Defined.

Definition self_locked : st :=
  mkHpState crowded [H_self_lock; H_lock_scan] (Some 0%nat) None [[]; []] [] [] ∅.

Lemma self_lock_permanent_witness :
  hp_exec true false (Step 1) (default self_locked (run (hp_exec true false) [] self_locked)) = None.
Proof.
  apply (self_lock_permanent true false 0 [] self_locked self_locked); try done.
  - by intros [|[|t]] pc Hpc; simplify_eq/=.
  - right. by left.
Defined.

Definition scanning : st := mkHpState two_slots [H_idle; H_idle; H_lock_scan] None None [[]; []; []] [] [] ∅.

Lemma scan_refines_witness :
  exists s', steps false false 2 scanning s' /\
    dom s' = set_global [mkRetired 7%nat ()] (set_tls [ThreadData_default; mkThreadData [] 100 (Some 1%nat)] two_slots) /\
    deleted s' = [mkRetired 8%nat (); mkRetired 9%nat ()] /\
    pcs s' = [H_idle; H_idle; H_idle] /\ mutex s' = None /\ validated s' = ∅.
Proof. apply (scan_refines false false 2 scanning); try reflexivity. exact two_slots_ok. Defined.
End HazardTraces.
