(* ===== verification/MpmcQueue.v ===== *)
(** * The MPMC queue (src/src/common/include/mpmc_queue.hpp)

    A linked queue with a dummy node: [enqueue] links a new node behind the last
    one and swings [tail]; [dequeue] moves [head] to the next node and retires
    the old dummy.  Each atomic access is a step, a weak compare-exchange may fail
    for no reason, and threads interleave freely.

    Nodes live at addresses (indices of [heap]); [new] appends.  A node handed to
    the hazard-pointer domain may be freed at any later time, except while some
    [dequeue] keeps it in a slot and has checked since that it was reachable.  This
    exception (the guard of [Reclaim]) is the contract of hazard pointers that the
    queue is written against, an assumption of this file.  QueueDomain.v runs the queue
    on the domain of HazardPointer.v without it: there the contract is proved for
    executions in which the store of [protect] is visible in time and no scan reads an
    unlinked slot, and the code as it stands is shown to break it.  An access to a
    freed node ends the thread in [E_uaf] or [D_uaf].

    The header names two things it does not define: [TestObject], which stands
    where [Node<T>] is meant, and [release_hazard_pointer], whose effect on the
    two slots is therefore an argument of the step that calls it. *)

From S2P Require Import Prelude.

Section queue.
Context {T : Type}.

(** [data] is [None] in the dummy node. *)
Record Node := mkNode { data : option T; next : option nat }.

(** Where a thread stands; the numbers are lines of mpmc_queue.hpp.  [n] is the
    new node, [ct], [ch] and [nx] are the locals [curr_tail], [curr_head] and
    [next].  [e] and [v] are history: whether the queue was empty when [next]
    was loaded, and the value at its front when [head] was moved. *)
Inductive mpmc_pc :=
| Q_idle
| E_tail (n : nat)                                    (* 52 *)
| E_next (n ct : nat)                                 (* 53 *)
| E_check (n ct : nat) (nx : option nat)              (* 56 *)
| E_link (n ct : nat)                                 (* 59 *)
| E_swing (n ct : nat)                                (* 63 *)
| E_help (n ct nx : nat)                              (* 70 *)
| D_head                                              (* 85 *)
| D_protect (ch : nat)                                (* 86 *)
| D_recheck (ch : nat)                                (* 88 *)
| D_tail (ch : nat)                                   (* 92 *)
| D_next (ch ct : nat)                                (* 93 *)
| D_protect_next (ch ct : nat) (nx : option nat) (e : bool)   (* 94 *)
| D_recheck_next (ch ct : nat) (nx : option nat) (e : bool)   (* 97 *)
| D_empty (e : bool)                                  (* 103 *)
| D_return_false (e : bool)                           (* 105 *)
| D_help (ct nx : nat)                                (* 110 *)
| D_pop (ch nx : nat)                                 (* 115 *)
| D_read (ch nx : nat) (v : option T)                 (* 118 *)
| D_release (ch : nat) (r v : option T)               (* 121 *)
| D_release_next (ch : nat) (r v : option T)          (* 122 *)
| D_retire (ch : nat) (r v : option T)                (* 125 *)
| E_uaf (n : nat)                                     (* freed node read by enqueue *)
| D_uaf.                                              (* freed node read by dequeue *)

Record mpmc := mkMpmc {
  heap : list Node;
  head : nat;
  tail : nat;
  slots : list (option nat * option nat);   (* hp_head, hp_next of each thread *)
  qpcs : list mpmc_pc;
  retired_nodes : list nat;                 (* RetirePointer calls *)
  freed : gset nat;
  linked : list nat;                        (* history: nodes in the order they were linked *)
  popped : nat;                             (* history: successful moves of head *)
}.
Implicit Types (s : mpmc) (t : nat).

Definition set_heap x s := mkMpmc x (head s) (tail s) (slots s) (qpcs s) (retired_nodes s) (freed s) (linked s) (popped s).
Definition set_qhead x s := mkMpmc (heap s) x (tail s) (slots s) (qpcs s) (retired_nodes s) (freed s) (linked s) (popped s).
Definition set_qtail x s := mkMpmc (heap s) (head s) x (slots s) (qpcs s) (retired_nodes s) (freed s) (linked s) (popped s).
Definition set_slots t x s := mkMpmc (heap s) (head s) (tail s) (<[t := x]> (slots s)) (qpcs s) (retired_nodes s) (freed s) (linked s) (popped s).
Definition set_qpc t x s := mkMpmc (heap s) (head s) (tail s) (slots s) (<[t := x]> (qpcs s)) (retired_nodes s) (freed s) (linked s) (popped s).
Definition add_retired n s := mkMpmc (heap s) (head s) (tail s) (slots s) (qpcs s) (retired_nodes s ++ [n]) (freed s) (linked s) (popped s).
Definition add_freed n s := mkMpmc (heap s) (head s) (tail s) (slots s) (qpcs s) (retired_nodes s) ({[n]} ∪ freed s) (linked s) (popped s).
Definition add_linked n s := mkMpmc (heap s) (head s) (tail s) (slots s) (qpcs s) (retired_nodes s) (freed s) (linked s ++ [n]) (popped s).
Definition count_pop s := mkMpmc (heap s) (head s) (tail s) (slots s) (qpcs s) (retired_nodes s) (freed s) (linked s) (S (popped s)).

(** ** What is in the queue, read off the memory *)

(** The values of the nodes from [a] on. *)
Fixpoint follow (fuel : nat) (h : list Node) (a : option nat) : list (option T) :=
  match fuel, a with
  | S fuel, Some a =>
      match h !! a with Some x => data x :: follow fuel h (next x) | None => [] end
  | _, _ => []
  end.
Definition contents s : list (option T) :=
  follow (length (heap s)) (heap s) (heap s !! head s ≫= next).

(** A load through a node pointer. *)
Definition deref a s : option Node := if bool_decide (a ∈ freed s) then None else heap s !! a.

(** [load t a uaf s k]: thread [t] reads the node at [a] and goes on with [k]. *)
Definition load t a (uaf : mpmc_pc) s (k : Node -> mpmc) : option mpmc :=
  if bool_decide (a ∈ freed s) then Some (set_qpc t uaf s) else x ← heap s !! a; Some (k x).

Definition link_node (ct n : nat) (h : list Node) : list Node :=
  alter (fun x => mkNode (data x) (Some n)) ct h.

(** One step; [cas] is false when a weak compare-exchange fails spuriously,
    [junk] is what [release_hazard_pointer] leaves in the slots. *)
Definition mpmc_step t (cas : bool) (junk : option nat * option nat) (pc : mpmc_pc) s : option mpmc :=
  match pc with
  | Q_idle | E_uaf _ | D_uaf => None
  | E_tail n => Some (set_qpc t (E_next n (tail s)) s)
  | E_next n ct => load t ct (E_uaf n) s (fun x => set_qpc t (E_check n ct (next x)) s)
  | E_check n ct nx =>
      Some (set_qpc t
        (if bool_decide (ct = tail s)
         then match nx with None => E_link n ct | Some a => E_help n ct a end
         else E_tail n) s)
  | E_link n ct =>
      load t ct (E_uaf n) s (fun x =>
        match cas, next x with
        | true, None => set_qpc t (E_swing n ct) (add_linked n (set_heap (link_node ct n (heap s)) s))
        | _, _ => set_qpc t (E_tail n) s
        end)
  | E_swing n ct =>
      Some (set_qpc t Q_idle (if cas && bool_decide (tail s = ct) then set_qtail n s else s))
  | E_help n ct nx =>
      Some (set_qpc t (E_tail n) (if cas && bool_decide (tail s = ct) then set_qtail nx s else s))
  | D_head => Some (set_qpc t (D_protect (head s)) s)
  | D_protect ch =>
      sl ← slots s !! t; Some (set_qpc t (D_recheck ch) (set_slots t (Some ch, sl.2) s))
  | D_recheck ch =>
      Some (set_qpc t (if bool_decide (ch = head s) then D_tail ch else D_head) s)
  | D_tail ch => Some (set_qpc t (D_next ch (tail s)) s)
  | D_next ch ct =>
      load t ch D_uaf s (fun x =>
        set_qpc t (D_protect_next ch ct (next x) (bool_decide (contents s = []))) s)
  | D_protect_next ch ct nx e =>
      sl ← slots s !! t; Some (set_qpc t (D_recheck_next ch ct nx e) (set_slots t (sl.1, nx) s))
  | D_recheck_next ch ct nx e =>
      Some (set_qpc t
        (if bool_decide (ch = head s)
         then match nx with
              | None => D_empty e
              | Some a => if bool_decide (ch = ct) then D_help ct a else D_pop ch a
              end
         else D_head) s)
  | D_empty e => Some (set_qpc t (D_return_false e) (set_slots t junk s))
  | D_return_false e => Some (set_qpc t Q_idle (set_slots t (None, None) s))
  | D_help ct nx =>
      Some (set_qpc t D_head (if cas && bool_decide (tail s = ct) then set_qtail nx s else s))
  | D_pop ch nx =>
      Some (if cas && bool_decide (head s = ch)
            then set_qpc t (D_read ch nx (default None (list.head (contents s)))) (count_pop (set_qhead nx s))
            else set_qpc t D_head s)
  | D_read ch nx v => load t nx D_uaf s (fun x => set_qpc t (D_release ch (data x) v) s)
  | D_release ch r v =>
      sl ← slots s !! t; Some (set_qpc t (D_release_next ch r v) (set_slots t (None, sl.2) s))
  | D_release_next ch r v =>
      sl ← slots s !! t; Some (set_qpc t (D_retire ch r v) (set_slots t (sl.1, None) s))
  | D_retire ch r v => Some (set_qpc t Q_idle (add_retired ch s))
  end.

Inductive mpmc_act :=
| Enqueue t (v : T)
| Dequeue t
| QStep t (cas : bool) (junk : option nat * option nat)
| Reclaim (n : nat).

(** [dequeue] has seen [curr_head] (line 88), [next] (line 97) reachable since it
    stored it to its slot, and the slot keeps it. *)
Definition head_checked (pc : mpmc_pc) : bool :=
  match pc with
  | D_tail _ | D_next _ _ | D_protect_next _ _ _ _ | D_recheck_next _ _ _ _
  | D_help _ _ | D_pop _ _ | D_read _ _ _ | D_release _ _ _ => true
  | _ => false
  end.
Definition next_checked (pc : mpmc_pc) : bool :=
  match pc with
  | D_help _ _ | D_pop _ _ | D_read _ _ _ | D_release _ _ _ | D_release_next _ _ _ => true
  | _ => false
  end.
Definition hazards (pc : mpmc_pc) (sl : option nat * option nat) : list nat :=
  (if head_checked pc then option_list sl.1 else []) ++ (if next_checked pc then option_list sl.2 else []).

(** Some running [dequeue] protects [n]. *)
Definition hazardous n s : bool :=
  existsb (fun t => match qpcs s !! t, slots s !! t with
                    | Some pc, Some sl => bool_decide (n ∈ hazards pc sl)
                    | _, _ => false
                    end) (seq 0 (length (qpcs s))).

Definition qidle t s : option unit := match qpcs s !! t with Some Q_idle => Some () | _ => None end.

(** [Reclaim]: the domain runs the deleter of a retired node, by its contract not one in
    a checked slot. *)
Definition mpmc_exec (a : mpmc_act) s : option mpmc :=
  match a with
  | Enqueue t v =>
      _ ← qidle t s;
      Some (set_qpc t (E_tail (length (heap s))) (set_heap (heap s ++ [mkNode (Some v) None]) s))
  | Dequeue t => _ ← qidle t s; Some (set_qpc t D_head s)
  | QStep t cas junk => pc ← qpcs s !! t; mpmc_step t cas junk pc s
  | Reclaim n =>
      if bool_decide (n ∈ retired_nodes s) && bool_decide (n ∉ freed s) && negb (hazardous n s)
      then Some (add_freed n s) else None
  end.

(** The constructor. *)
Definition MPMCQueue (threads : nat) : mpmc :=
  mkMpmc [mkNode None None] 0 0 (replicate threads (None, None)) (replicate threads Q_idle) [] ∅ [0%nat] 0.

(** The destructor: the nodes from [head] on, in order. *)
Fixpoint destroy_loop (fuel : nat) (h : list Node) (curr : option nat) : option (list nat) :=
  match curr with
  | None => Some []
  | Some a =>
      match fuel with
      | O => None
      | S fuel => x ← h !! a; l ← destroy_loop fuel h (next x); Some (a :: l)
      end
  end.
Definition destroy s : option (list nat) := destroy_loop (length (heap s)) (heap s) (Some (head s)).

(** ** The abstract queue *)

Inductive event := Ev_enq (v : option T) | Ev_deq (v : option T) | Ev_none.

(** The event an action performs on the queue. *)
Definition lin_event (a : mpmc_act) s : event :=
  match a with
  | QStep t true _ =>
      match qpcs s !! t with
      | Some (E_link n ct) =>
          match deref ct s, heap s !! n with
          | Some x, Some y => match next x with Some _ => Ev_none | None => Ev_enq (data y) end
          | _, _ => Ev_none
          end
      | Some (D_pop ch nx) =>
          if bool_decide (head s = ch) then Ev_deq (heap s !! nx ≫= data) else Ev_none
      | _ => Ev_none
      end
  | _ => Ev_none
  end.

Definition fifo (q : list (option T)) (ev : event) (q' : list (option T)) : Prop :=
  match ev with
  | Ev_enq v => q' = q ++ [v]
  | Ev_deq v => q = v :: q'
  | Ev_none => q' = q
  end.
End queue.
Arguments Node : clear implicits.
Arguments mpmc : clear implicits.
Arguments mpmc_pc : clear implicits.
Arguments mpmc_act : clear implicits.
Arguments event : clear implicits.

(** ** Invariant *)

Section inv.
Context {T : Type}.
Implicit Types (s : mpmc T) (pc : mpmc_pc T).

(** [pos s a k]: [a] was the [k]-th node to be linked. *)
Definition pos s (a k : nat) : Prop := linked s !! k = Some a.

(** A node removed from the queue and not retired yet; a node not linked yet. *)
Definition in_hand pc : list nat :=
  match pc with
  | D_read ch _ _ | D_release ch _ _ | D_release_next ch _ _ | D_retire ch _ _ => [ch]
  | _ => []
  end.
Definition fresh pc : list nat :=
  match pc with
  | E_tail n | E_next n _ | E_check n _ _ | E_link n _ | E_help n _ _ | E_uaf n => [n]
  | _ => []
  end.

Definition holds_head s t (a : nat) : Prop := fst <$> slots s !! t = Some (Some a).
Definition holds_next s t (a : option nat) : Prop := snd <$> slots s !! t = Some a.

(** [curr_head] after its first check: the [k]-th node, protected, not freed. *)
Definition held s t ch k : Prop := pos s ch k /\ (k <= popped s)%nat /\ holds_head s t ch /\ ch ∉ freed s.
Definition tail_from s (k : nat) : Prop := exists j, pos s (tail s) j /\ (k <= j)%nat.

(** What a thread at [pc] may rely on. *)
Definition pc_ok s t pc : Prop :=
  match pc with
  | E_next _ ct | E_link _ ct => exists k, pos s ct k
  | E_check _ ct nx => exists k, pos s ct k /\ forall a, nx = Some a -> pos s a (S k)
  | E_swing n ct | E_help _ ct n | D_help ct n => exists k, pos s ct k /\ pos s n (S k)
  | D_protect ch => exists k, pos s ch k /\ (k <= popped s)%nat
  | D_recheck ch => exists k, pos s ch k /\ (k <= popped s)%nat /\ holds_head s t ch
  | D_tail ch => exists k, held s t ch k
  | D_next ch ct => exists k j, held s t ch k /\ pos s ct j /\ (k <= j)%nat /\ tail_from s j
  | D_protect_next ch ct nx e =>
      exists k j, held s t ch k /\ pos s ct j /\ (k <= j)%nat /\ tail_from s j /\
        (forall a, nx = Some a -> pos s a (S k)) /\ (nx = None -> popped s = k -> e = true)
  | D_recheck_next ch ct nx e =>
      exists k j, held s t ch k /\ pos s ct j /\ (k <= j)%nat /\ tail_from s j /\
        (forall a, nx = Some a -> pos s a (S k)) /\ (nx = None -> popped s = k -> e = true) /\
        holds_next s t nx
  | D_empty e | D_return_false e => e = true
  | D_pop ch nx =>
      exists k, held s t ch k /\ pos s nx (S k) /\ tail_from s (S k) /\ holds_next s t (Some nx) /\ nx ∉ freed s
  | D_read ch nx v =>
      holds_next s t (Some nx) /\ nx ∉ freed s /\ exists x, heap s !! nx = Some x /\ data x = v
  | D_release _ r v | D_release_next _ r v | D_retire _ r v => r = v
  | D_uaf => False
  | _ => True
  end.

Record q_inv s : Prop := {
  q_fresh : NoDup (linked s ++ gather fresh (qpcs s));
  q_new : forall n, n ∈ gather fresh (qpcs s) -> exists x, heap s !! n = Some x /\ next x = None;
  q_chain : forall k a, pos s a k -> exists x, heap s !! a = Some x /\ next x = linked s !! S k;
  q_head : pos s (head s) (popped s);
  q_tail : tail_from s (popped s);
  q_retired : retired_nodes s ++ gather in_hand (qpcs s) ≡ₚ take (popped s) (linked s);
  q_freed : forall n, n ∈ freed s -> n ∈ retired_nodes s;
  q_pc : forall t pc, qpcs s !! t = Some pc -> pc_ok s t pc;
}.

Lemma q_nodup s : q_inv s -> NoDup (linked s).
Proof. intros HI. by apply q_fresh, NoDup_app in HI as [? _]. Qed.

Lemma pos_inj s a k j : q_inv s -> pos s a k -> pos s a j -> k = j.
Proof. intros HI H1 H2. eapply NoDup_lookup; [by apply q_nodup|done|done]. Qed.

(** Nodes from [head] on are not retired, so not freed. *)
Lemma not_retired s a k : q_inv s -> pos s a k -> (popped s <= k)%nat -> a ∉ retired_nodes s.
Proof.
  intros HI Ha Hk Hf.
  assert (a ∈ take (popped s) (linked s)) as Ht by (rewrite <- (q_retired _ HI); set_solver).
  apply list_elem_of_lookup in Ht as [j Hj]. apply lookup_take_Some in Hj as [Hj Hlt].
  pose proof (pos_inj s a k j HI Ha Hj). lia.
Qed.

Lemma live s a k : q_inv s -> pos s a k -> (popped s <= k)%nat -> a ∉ freed s.
Proof. intros HI Ha Hk Hf%(q_freed _ HI). by eapply not_retired. Qed.

Lemma retired_nodup s : q_inv s -> NoDup (retired_nodes s ++ gather in_hand (qpcs s)).
Proof.
  intros HI. rewrite (q_retired _ HI). eapply sublist_NoDup; [exact (q_nodup _ HI) | apply sublist_take].
Qed.

Lemma pos_heap s a k : q_inv s -> pos s a k -> (a < length (heap s))%nat.
Proof. intros HI Ha. destruct (q_chain _ HI _ _ Ha) as (x & Hx & _). by eapply lookup_lt_Some. Qed.

Lemma linked_length s : q_inv s -> (length (linked s) <= length (heap s))%nat.
Proof.
  intros HI. rewrite <- (length_seq (length (heap s)) 0). apply submseteq_length.
  apply NoDup_submseteq; [by apply q_nodup|]. intros a [k Hk]%list_elem_of_lookup.
  apply elem_of_seq. pose proof (pos_heap _ _ _ HI Hk). lia.
Qed.

(** The memory from [head] on is the abstract queue. *)
Definition value s (a : nat) : option T := heap s !! a ≫= data.

Lemma follow_eq s fuel k :
  q_inv s -> (length (linked s) <= fuel + k)%nat ->
  follow fuel (heap s) (linked s !! k) = value s <$> drop k (linked s).
Proof.
  intros HI. revert k. induction fuel as [|fuel IH]; intros k Hle.
  - rewrite drop_ge by lia. done.
  - destruct (linked s !! k) as [a|] eqn:Ha; cbn [follow].
    + destruct (q_chain _ HI _ _ Ha) as (x & Hx & Hn). rewrite Hx, Hn, IH by lia.
      rewrite (drop_S _ _ _ Ha). cbn. unfold value at 2. by rewrite Hx.
    + apply lookup_ge_None in Ha. by rewrite drop_ge.
Qed.

Lemma contents_eq s : q_inv s -> contents s = value s <$> drop (S (popped s)) (linked s).
Proof.
  intros HI. unfold contents. destruct (q_chain _ HI _ _ (q_head _ HI)) as (x & -> & Hn). cbn.
  rewrite Hn. apply follow_eq; [done|]. pose proof (linked_length _ HI). lia.
Qed.

(** ** Steps only move forward *)

Record later t pc s s' : Prop := {
  l_linked : linked s `prefix_of` linked s';
  l_popped : (popped s <= popped s')%nat;
  l_tail : forall j, tail_from s j -> tail_from s' j;
  l_slots : slots s' !! t = slots s !! t;
  l_heap : forall a x, heap s !! a = Some x -> exists x', heap s' !! a = Some x' /\ data x' = data x;
  l_freed : forall a sl, slots s !! t = Some sl -> a ∈ hazards pc sl -> a ∈ freed s' -> a ∈ freed s;
}.

Lemma pos_later t pc s s' a k : later t pc s s' -> pos s a k -> pos s' a k.
Proof. intros HL Ha. eapply prefix_lookup_Some; [exact Ha|by apply HL]. Qed.

Lemma held_later t pc s s' ch k :
  later t pc s s' -> head_checked pc = true -> held s t ch k -> held s' t ch k.
Proof.
  intros HL Hc (Hp & Hk & Hh & Hf). unfold held, holds_head in *. rewrite (l_slots _ _ _ _ HL).
  split_and!; [by eapply pos_later | pose proof (l_popped _ _ _ _ HL); lia | done |].
  intros Hf'. apply Hf. apply fmap_Some in Hh as (sl & Hsl & Hch).
  eapply (l_freed _ _ _ _ HL); [exact Hsl| |done]. unfold hazards. rewrite Hc, <- Hch. set_solver.
Qed.

Lemma holds_next_later t pc s s' a :
  later t pc s s' -> next_checked pc = true -> holds_next s t (Some a) -> a ∉ freed s ->
  holds_next s' t (Some a) /\ a ∉ freed s'.
Proof.
  intros HL Hc Hn Hf. unfold holds_next in *. rewrite (l_slots _ _ _ _ HL). split; [done|].
  intros Hf'. apply Hf. apply fmap_Some in Hn as (sl & Hsl & Hch).
  eapply (l_freed _ _ _ _ HL); [exact Hsl| |done]. unfold hazards. rewrite Hc, <- Hch. set_solver.
Qed.

Lemma pc_later t s s' pc : later t pc s s' -> pc_ok s t pc -> pc_ok s' t pc.
Proof.
  intros HL. pose proof (pos_later t pc s s') as HP. pose proof (held_later t pc s s') as HH.
  pose proof (l_tail _ _ _ _ HL) as HT. pose proof (l_popped _ _ _ _ HL) as Hpop.
  destruct pc; cbn; try done.
  - intros (k & ?). eauto.
  - intros (k & ? & ?). exists k. eauto.
  - intros (k & ?). eauto.
  - intros (k & ? & ?). exists k. eauto.
  - intros (k & ? & ?). exists k. eauto.
  - intros (k & ? & ?). exists k. split; [eauto|lia].
  - intros (k & ? & ? & Hh). exists k. split_and!; [eauto|lia|]. unfold holds_head in *.
    by rewrite (l_slots _ _ _ _ HL).
  - intros (k & ?). exists k. eauto.
  - intros (k & j & ? & ? & ? & ?). exists k, j. split_and!; eauto.
  - intros (k & j & Hk & ? & ? & ? & ? & He). exists k, j. split_and!; eauto.
    intros ? ?. apply He; [done|]. destruct Hk as (_ & ? & _). lia.
  - intros (k & j & Hk & ? & ? & ? & ? & He & Hn). exists k, j. split_and!; eauto.
    + intros ? ?. apply He; [done|]. destruct Hk as (_ & ? & _). lia.
    + unfold holds_next in *. by rewrite (l_slots _ _ _ _ HL).
  - intros (k & ? & ?). exists k. eauto.
  - intros (k & ? & ? & ? & Hn & Hf). exists k. split_and!; eauto; by eapply holds_next_later.
  - intros (Hn & Hf & x & Hx & <-). destruct (l_heap _ _ _ _ HL _ _ Hx) as (x' & Hx' & Hd).
    split_and!; [by eapply holds_next_later..|]. eauto.
Qed.

(** A thread moves on; at most its slots and the tail change. *)
Lemma q_move t pc pc' s s' :
  q_inv s -> qpcs s !! t = Some pc -> qpcs s' = <[t := pc']> (qpcs s) ->
  fresh pc' = fresh pc -> in_hand pc' = in_hand pc ->
  heap s' = heap s -> head s' = head s -> linked s' = linked s -> popped s' = popped s ->
  retired_nodes s' = retired_nodes s -> freed s' = freed s ->
  (forall j, tail_from s j -> tail_from s' j) ->
  (forall u, u <> t -> slots s' !! u = slots s !! u) ->
  pc_ok s' t pc' -> q_inv s'.
Proof.
  intros HI Ht Hq Hf Hi Hh Hhd HL Hp HR HF HT HS Hok.
  pose proof (gather_insert_same fresh _ _ _ pc' Ht (eq_sym Hf)) as Gf.
  pose proof (gather_insert_same in_hand _ _ _ pc' Ht (eq_sym Hi)) as Gi.
  destruct HI. split; unfold pos in *; rewrite ?Hq, ?HL, ?Hh, ?Hhd, ?Hp, ?HR, ?HF, ?Gf, ?Gi; try done; auto.
  intros u pcu Hu. apply list_lookup_insert_Some in Hu as [(-> & -> & _)|[Htu Hu]]; [done|].
  apply (pc_later u s); [|by auto]. split; rewrite ?HL, ?Hp, ?Hh, ?HF; try done; auto. by eauto.
Qed.

(** The case where nothing but the program counter changes. *)
Lemma q_local t pc pc' s :
  q_inv s -> qpcs s !! t = Some pc -> fresh pc' = fresh pc -> in_hand pc' = in_hand pc ->
  pc_ok s t pc' -> q_inv (set_qpc t pc' s).
Proof.
  intros HI Ht Hf Hi Hok. by eapply q_move.
Qed.

(** A thread stores to its slots. *)
Lemma q_slots t pc pc' sl s :
  q_inv s -> qpcs s !! t = Some pc -> fresh pc' = fresh pc -> in_hand pc' = in_hand pc ->
  pc_ok (set_slots t sl s) t pc' -> q_inv (set_qpc t pc' (set_slots t sl s)).
Proof.
  intros HI Ht Hf Hi Hok. eapply q_move; try done.
  intros u Hu. cbn. by rewrite list_lookup_insert_ne.
Qed.

Lemma tail_swing s ct n k :
  q_inv s -> tail s = ct -> pos s ct k -> pos s n (S k) ->
  forall j, tail_from s j -> tail_from (set_qtail n s) j.
Proof.
  intros HI <- Hk Hn j (i & Hi & Hj). pose proof (pos_inj _ _ _ _ HI Hk Hi). subst.
  exists (S i). split; [exact Hn|lia].
Qed.

(** A successful compare-exchange on [tail]. *)
Lemma q_swing t pc pc' s ct n :
  q_inv s -> qpcs s !! t = Some pc -> fresh pc' = fresh pc -> in_hand pc' = in_hand pc ->
  (exists k, pos s ct k /\ pos s n (S k)) -> tail s = ct -> pc_ok (set_qtail n s) t pc' ->
  q_inv (set_qpc t pc' (set_qtail n s)).
Proof.
  intros HI Ht Hf Hi (k & Hk & Hn) Hc Hok. eapply q_move; try done. by eapply (tail_swing s ct n k).
Qed.

(** All other threads, when one thread moves. *)
Lemma pcs_step t pc' s s' :
  q_inv s -> qpcs s' = <[t := pc']> (qpcs s) -> (forall u pc, u <> t -> later u pc s s') -> pc_ok s' t pc' ->
  forall u pc, qpcs s' !! u = Some pc -> pc_ok s' u pc.
Proof.
  intros HI Hq HL Hok u pc Hu. rewrite Hq in Hu.
  apply list_lookup_insert_Some in Hu as [(-> & -> & _)|[Htu Hu]]; [done|].
  apply (pc_later u s); [by apply HL; congruence | by apply (q_pc _ HI)].
Qed.

Lemma link_lookup ct n (h : list (Node T)) a x :
  h !! a = Some x -> exists x', link_node ct n h !! a = Some x' /\ data x' = data x /\
    next x' = if decide (ct = a) then Some n else next x.
Proof.
  intros Hx. unfold link_node. rewrite list_lookup_alter.
  case_decide; [subst; rewrite Hx; by eexists|by exists x].
Qed.

Lemma tail_later s s' : tail s' = tail s -> linked s `prefix_of` linked s' ->
  forall j, tail_from s j -> tail_from s' j.
Proof.
  intros Ht HL j (i & Hi & Hj). exists i. rewrite Ht. split; [by eapply prefix_lookup_Some | done].
Qed.

(** Nodes that are not linked yet. *)
Lemma fresh_unlinked s n : q_inv s -> n ∈ gather fresh (qpcs s) -> n ∉ linked s.
Proof. intros HI Hn Hl. by apply q_fresh, NoDup_app in HI as (_ & HD & _); eapply HD. Qed.

Lemma q_link t n ct x s :
  q_inv s -> qpcs s !! t = Some (E_link n ct) -> heap s !! ct = Some x -> next x = None ->
  q_inv (set_qpc t (E_swing n ct) (add_linked n (set_heap (link_node ct n (heap s)) s))).
Proof.
  intros HI Ht Hx Hnx. destruct (q_pc _ HI _ _ Ht) as [k Hk].
  destruct (q_chain _ HI _ _ Hk) as (x' & Hx' & Hn). simplify_eq. rewrite Hnx in Hn. symmetry in Hn.
  assert (S k = length (linked s)) as HkL.
  { apply lookup_ge_None in Hn. pose proof (lookup_lt_Some _ _ _ Hk). lia. }
  assert (n ∈ gather fresh (qpcs s)) as Hnf by (eapply elem_of_gather; [exact Ht|set_solver]).
  pose proof (fresh_unlinked _ _ HI Hnf) as Hnl.
  pose proof (gather_insert_drop fresh _ _ _ (E_swing n ct) n Ht eq_refl eq_refl) as Gf.
  pose proof (gather_insert_same in_hand _ _ _ (E_swing n ct) Ht eq_refl) as Gi.
  pose proof (lookup_lt_Some _ _ _ (q_head _ HI)) as Hpl.
  assert (linked s `prefix_of` linked s ++ [n]) as Hpre by (by exists [n]).
  assert (forall a j, pos s a j -> j <> k -> linked s !! S j = (linked s ++ [n]) !! S j) as HSj.
  { intros a j Ha Hj. rewrite lookup_app_l; [done|]. pose proof (lookup_lt_Some _ _ _ Ha). lia. }
  split; unfold pos; cbn [set_qpc add_linked set_heap linked heap head tail popped retired_nodes freed qpcs].
  - rewrite <- app_assoc. cbn. rewrite Gf. apply HI.
  - intros m Hm. assert (m ∈ gather fresh (qpcs s)) as Hm' by (rewrite <- Gf; set_solver).
    destruct (q_new _ HI _ Hm') as (y & Hy & Hyn). destruct (link_lookup ct n _ _ _ Hy) as (y' & Hy' & _ & Hn').
    exists y'. split; [done|]. rewrite Hn'. case_decide; [|done]. subst.
    destruct (fresh_unlinked _ _ HI Hm'). by eapply list_elem_of_lookup_2.
  - intros j a Ha. apply lookup_app_Some in Ha as [Ha|[Hj Ha]].
    + destruct (q_chain _ HI _ _ Ha) as (y & Hy & Hyn). destruct (link_lookup ct n _ _ _ Hy) as (y' & Hy' & _ & Hn').
      exists y'. split; [done|]. rewrite Hn'. case_decide as Hd.
      * subst a. rewrite (pos_inj _ _ _ _ HI Ha Hk), HkL. by rewrite lookup_app_r, Nat.sub_diag by lia.
      * rewrite Hyn. eapply HSj; [exact Ha|]. intros ->. by rewrite Hk in Ha; simplify_eq.
    + apply list_lookup_singleton_Some in Ha as [Hj' <-].
      destruct (q_new _ HI _ Hnf) as (y & Hy & Hyn). destruct (link_lookup ct n _ _ _ Hy) as (y' & Hy' & _ & Hn').
      exists y'. split; [done|]. rewrite Hn'. case_decide.
      * subst. destruct Hnl. by eapply list_elem_of_lookup_2.
      * rewrite Hyn. symmetry. apply lookup_ge_None. rewrite length_app. cbn. lia.
  - eapply prefix_lookup_Some; [apply HI|done].
  - eapply tail_later; [|done|apply HI]. done.
  - rewrite Gi, take_app_le by lia. apply HI.
  - apply HI.
  - refine (pcs_step t _ s (set_qpc t (E_swing n ct) (add_linked n (set_heap (link_node ct n (heap s)) s)))
      HI eq_refl _ _).
    + intros u pcu Hu. split; cbn; try done; [by apply tail_later|].
      intros a y Hy. destruct (link_lookup ct n _ _ _ Hy) as (y' & ? & ? & _). eauto.
    + exists k. split; unfold pos; cbn; [by apply lookup_app_l_Some|].
      by rewrite HkL, lookup_app_r, Nat.sub_diag by lia.
Qed.

(** The front of the queue is the node after [head]. *)
Lemma contents_front s nx :
  q_inv s -> pos s nx (S (popped s)) ->
  contents s = value s nx :: (value s <$> drop (S (S (popped s))) (linked s)).
Proof. intros HI Hnx. rewrite contents_eq by done. by rewrite (drop_S _ _ _ Hnx). Qed.

Lemma q_pop t ch nx s :
  q_inv s -> qpcs s !! t = Some (D_pop ch nx) -> head s = ch ->
  q_inv (set_qpc t (D_read ch nx (default None (list.head (contents s)))) (count_pop (set_qhead nx s))).
Proof.
  intros HI Ht Hh. destruct (q_pc _ HI _ _ Ht) as (k & (Hk & _) & Hnx & HT & Hsl & Hf). subst ch.
  pose proof (pos_inj _ _ _ _ HI Hk (q_head _ HI)) as ->.
  set (pc' := D_read _ _ _).
  pose proof (gather_insert_same fresh _ _ _ pc' Ht eq_refl) as Gf.
  pose proof (gather_insert_take in_hand _ _ _ pc' (head s) Ht eq_refl eq_refl) as Gi.
  split; unfold pos; cbn [set_qpc count_pop set_qhead linked heap head tail popped retired_nodes freed qpcs];
    rewrite ?Gf; try apply HI; try done.
  - rewrite Gi, (take_S_r _ _ _ Hk), <- (q_retired _ HI). solve_Permutation.
  - refine (pcs_step t _ s (set_qpc t pc' (count_pop (set_qhead nx s))) HI eq_refl _ _).
    + intros u pcu Hu. split; cbn; try done; [lia|]. eauto.
    + cbn. split_and!; [done|done|]. destruct (q_chain _ HI _ _ Hnx) as (x & Hx & _). exists x.
      split; [done|]. rewrite (contents_front s nx) by done. cbn. unfold value. by rewrite Hx.
Qed.

Lemma q_retire t ch r v s :
  q_inv s -> qpcs s !! t = Some (D_retire ch r v) -> q_inv (set_qpc t Q_idle (add_retired ch s)).
Proof.
  intros HI Ht.
  pose proof (gather_insert_same fresh _ _ _ Q_idle Ht eq_refl) as Gf.
  pose proof (gather_insert_drop in_hand _ _ _ Q_idle ch Ht eq_refl eq_refl) as Gi.
  split; unfold pos; cbn [set_qpc add_retired linked heap head tail popped retired_nodes freed qpcs];
    rewrite ?Gf; try apply HI.
  - rewrite <- (q_retired _ HI), <- Gi. solve_Permutation.
  - intros n Hn. apply elem_of_app. left. by apply (q_freed _ HI).
  - refine (pcs_step t _ s (set_qpc t Q_idle (add_retired ch s)) HI eq_refl _ I).
    intros u pcu Hu. split; cbn; try done. eauto.
Qed.

Lemma hazardous_spec n s :
  hazardous n s = true <->
  exists u pc sl, qpcs s !! u = Some pc /\ slots s !! u = Some sl /\ n ∈ hazards pc sl.
Proof.
  unfold hazardous. rewrite existsb_exists. split.
  - intros (u & _ & H). repeat case_match; try done. bools. eauto 10.
  - intros (u & pc & sl & Hu & Hsl & Hn). exists u. rewrite Hu, Hsl, bool_decide_true by done. split; [|done].
    apply in_seq. apply lookup_lt_Some in Hu. lia.
Qed.

Lemma q_reclaim n s :
  q_inv s -> n ∈ retired_nodes s -> hazardous n s = false -> q_inv (add_freed n s).
Proof.
  intros HI Hn Hz. split; try apply HI.
  - cbn. intros m [->%elem_of_singleton|Hm]%elem_of_union; [done|]. by apply (q_freed _ HI).
  - intros u pc Hu. apply (pc_later u s); [|by apply (q_pc _ HI)].
    split; cbn; try done; [eauto|]. intros a sl Hsl Ha [->%elem_of_singleton|Hf]%elem_of_union; [|done].
    apply not_true_iff_false in Hz. destruct Hz. apply hazardous_spec. eauto 10.
Qed.

Lemma q_enqueue t v s :
  q_inv s -> qpcs s !! t = Some Q_idle ->
  q_inv (set_qpc t (E_tail (length (heap s))) (set_heap (heap s ++ [mkNode (Some v) None]) s)).
Proof.
  intros HI Ht. set (pc' := E_tail _).
  pose proof (gather_insert_take fresh _ _ _ pc' (length (heap s)) Ht eq_refl eq_refl) as Gf.
  pose proof (gather_insert_same in_hand _ _ _ pc' Ht eq_refl) as Gi.
  assert (forall a x, heap s !! a = Some x -> (heap s ++ [mkNode (Some v) None]) !! a = Some x) as Hpre.
  { intros. by apply lookup_app_l_Some. }
  split; unfold pos; cbn [set_qpc set_heap linked heap head tail popped retired_nodes freed qpcs];
    rewrite ?Gi; try apply HI.
  - rewrite Gf, <- Permutation_middle. apply NoDup_cons. split; [|apply HI].
    intros [Hl|Hl]%elem_of_app.
    + apply list_elem_of_lookup in Hl as [k Hk]. pose proof (pos_heap _ _ _ HI Hk). lia.
    + destruct (q_new _ HI _ Hl) as (x & Hx & _). apply lookup_lt_Some in Hx. lia.
  - intros n. rewrite Gf. intros [->|Hn]%elem_of_cons.
    + eexists. split; [by rewrite lookup_app_r, Nat.sub_diag by lia|done].
    + destruct (q_new _ HI _ Hn) as (x & Hx & ?). eauto.
  - intros k a Ha. destruct (q_chain _ HI _ _ Ha) as (x & Hx & ?). eauto.
  - refine (pcs_step t _ s (set_qpc t pc' (set_heap (heap s ++ [mkNode (Some v) None]) s)) HI eq_refl _ I).
    intros u pcu Hu. split; cbn; try done. eauto.
Qed.

Lemma qidle_inv t s x : qidle t s = Some x -> qpcs s !! t = Some Q_idle.
Proof. unfold qidle. by repeat case_match; simplify_eq. Qed.

Lemma slot_set t sl sl' s : slots s !! t = Some sl -> slots (set_slots t sl' s) !! t = Some sl'.
Proof. intros Hs. cbn. apply list_lookup_insert_eq. by eapply lookup_lt_Some. Qed.

(** [dequeue] up to the load of [next]. *)
Lemma ok_next s t ch ct x :
  q_inv s -> pc_ok s t (D_next ch ct) -> heap s !! ch = Some x ->
  pc_ok s t (D_protect_next ch ct (next x) (bool_decide (contents s = []))).
Proof.
  intros HI (k & j & Hh & Hj & Hkj & HT) Hx. exists k, j. destruct Hh as (Hk & Hh).
  destruct (q_chain _ HI _ _ Hk) as (x' & Hx' & Hn). simplify_eq. split_and!; try done.
  - intros a Ha. unfold pos. congruence.
  - intros HN Hp. apply bool_decide_eq_true. rewrite contents_eq by done. rewrite Hp.
    rewrite drop_ge; [done|]. apply lookup_ge_None. congruence.
Qed.

(** After the second check. *)
Lemma ok_recheck_next s t ch ct nx e :
  q_inv s -> pc_ok s t (D_recheck_next ch ct nx e) ->
  pc_ok s t (if bool_decide (ch = head s)
             then match nx with
                  | None => D_empty e
                  | Some a => if bool_decide (ch = ct) then D_help ct a else D_pop ch a
                  end
             else D_head).
Proof.
  intros HI (k & j & Hheld & Hj & Hkj & HT & Ha & He & Hn).
  pose proof Hheld as (Hk & _). case_bool_decide as Hh; [|done]. subst ch. pose proof (pos_inj _ _ _ _ HI Hk (q_head _ HI)) as ->.
  destruct nx as [a|]; [|by apply He]. specialize (Ha _ eq_refl).
  case_bool_decide as Hc; [subst; by exists (popped s)|].
  exists (popped s). split; [done|]. split_and!; try done.
  - destruct HT as (i & Hi & Hji). exists i. split; [done|].
    assert (j <> popped s); [|lia]. intros ->. apply Hc. unfold pos in *. congruence.
  - eapply live; [done|exact Ha|lia].
Qed.

Lemma held_set_slots s t sl ch k b :
  slots s !! t = Some sl -> held s t ch k -> held (set_slots t (sl.1, b) s) t ch k.
Proof.
  intros Hs (Hp & Hk & Hh & Hf). split_and!; [done|done| |done]. unfold holds_head in *.
  rewrite (slot_set _ _ _ _ Hs). rewrite Hs in Hh. done.
Qed.

(** Where a thread of [enqueue] goes, and a thread of [dequeue]. *)
Lemma ok_enqueue s t n ct x :
  q_inv s -> pc_ok s t (E_next n ct) -> heap s !! ct = Some x -> pc_ok s t (E_check n ct (next x)).
Proof.
  intros HI (k & Hk) Hx. exists k. split; [done|]. intros a Ha.
  destruct (q_chain _ HI _ _ Hk) as (x' & Hx' & Hn). unfold pos. congruence.
Qed.

Lemma ok_head s t : q_inv s -> pc_ok s t (D_protect (head s)).
Proof. intros HI. exists (popped s). split; [apply HI|lia]. Qed.

Lemma ok_tail s t ch :
  q_inv s -> pc_ok s t (D_recheck ch) -> ch = head s -> pc_ok s t (D_tail ch).
Proof.
  intros HI (k & Hk & Hp & Hh) ->. exists k. split_and!; try done.
  eapply live; [done|apply HI|lia].
Qed.

Lemma ok_load_tail s t ch : q_inv s -> pc_ok s t (D_tail ch) -> pc_ok s t (D_next ch (tail s)).
Proof.
  intros HI (k & Hk). destruct (q_tail _ HI) as (j & Hj & Hpj). exists k, j.
  pose proof Hk as (_ & Hp & _). split_and!; [done|done|lia|]. by exists j.
Qed.

Lemma q_step_thread t cas junk pc s s' :
  q_inv s -> qpcs s !! t = Some pc -> mpmc_step t cas junk pc s = Some s' -> q_inv s'.
Proof.
  intros HI Ht E. pose proof (q_pc _ HI _ _ Ht) as Hok.
  destruct pc; cbn [mpmc_step] in E; unfold load in E; open_step E; bools; subst.
  all: try (by eapply q_local).
  all: try (eapply q_slots; [done..|by cbn]).
  all: try (eapply q_local; [done..|]).
  - destruct (q_tail _ HI) as (j & Hj & _). by exists j.
  - by eapply ok_enqueue.
  - destruct Hok as (k & Hk & Ha). exists k. auto.
  - destruct Hok as (k & Hk & Ha). by exists k.
  - by eapply q_link.
  - by eapply q_swing.
  - by eapply q_swing.
  - by apply ok_head.
  - destruct Hok as (k & Hk & Hp). eapply q_slots; [done..|]. exists k. split_and!; [done|done|].
    unfold holds_head. by rewrite (slot_set _ _ _ _ Hx).
  - by apply ok_tail.
  - by apply ok_load_tail.
  - by destruct Hok as (k & j & (_ & _ & _ & Hf) & _).
  - by apply ok_next.
  - destruct Hok as (k & j & Hh & ? & ? & ? & ? & ?). eapply q_slots; [done..|]. exists k, j.
    split_and!; try done; [by apply held_set_slots|]. unfold holds_next. by rewrite (slot_set _ _ _ _ Hx).
  - pose proof (ok_recheck_next _ _ _ _ _ _ HI Hok) as H. by rewrite !bool_decide_true in H.
  - pose proof (ok_recheck_next _ _ _ _ _ _ HI Hok) as H.
    by rewrite bool_decide_true, bool_decide_false in H.
  - pose proof (ok_recheck_next _ _ _ _ _ _ HI Hok) as H. by rewrite bool_decide_true in H.
  - by eapply q_swing.
  - by apply q_pop.
  - by destruct Hok as (_ & Hf & _).
  - destruct Hok as (_ & _ & x' & Hx' & <-). by simplify_eq.
  - by eapply q_retire.
Qed.

Lemma q_step a s s' : q_inv s -> mpmc_exec a s = Some s' -> q_inv s'.
Proof.
  intros HI E. destruct a as [t v|t|t cas junk|n]; cbn [mpmc_exec] in E.
  - apply bind_Some in E as (x & Hx%qidle_inv & E). simplify_eq. by apply q_enqueue.
  - apply bind_Some in E as (x & Hx%qidle_inv & E). simplify_eq. by eapply q_local.
  - apply bind_Some in E as (pc & Ht & E). by eapply q_step_thread.
  - open_step E. bools. by apply q_reclaim.
Qed.

Lemma q_init n : q_inv (MPMCQueue n).
Proof.
  assert (forall f : mpmc_pc T -> list nat, f Q_idle = [] -> gather f (replicate n Q_idle) = []) as Hg.
  { intros f Hf. clear -Hf. induction n as [|n IH]; [done|]. unfold gather in *. cbn. by rewrite Hf, IH. }
  split; cbn; rewrite ?Hg by done; try done; unfold pos; cbn.
  - apply NoDup_singleton.
  - set_solver.
  - intros [|k] a Ha; simplify_eq/=. eauto.
  - by exists O.
  - intros t pc [-> _]%lookup_replicate. done.
Qed.
End inv.

(** ** Theorems *)

Section theorems.
Context {T : Type} (threads : nat).
Implicit Types (s : mpmc T).

Abbreviation reach := (reachable mpmc_exec (fun s0 => s0 = MPMCQueue threads)).

(** Every thread has its two slots. *)
Definition sized (s : mpmc T) : Prop := length (slots s) = threads /\ length (qpcs s) = threads.

Lemma sized_step a s s' : sized s -> mpmc_exec a s = Some s' -> sized s'.
Proof.
  unfold sized. intros HS E. destruct a; cbn [mpmc_exec] in E; [..|by open_step E].
  1, 2: open_step E; cbn; by rewrite length_insert.
  apply bind_Some in E as (pc & _ & E).
  destruct pc; cbn [mpmc_step] in E; unfold load in E; open_step E; cbn; by rewrite !length_insert.
Qed.

Lemma reach_sized s : reach s -> sized s.
Proof.
  revert s. apply reachable_invariant; [|intros; by eapply sized_step].
  intros s ->. unfold sized. cbn. by rewrite !length_replicate.
Qed.

Lemma reach_inv s : reach s -> q_inv s.
Proof. revert s. apply reachable_invariant; [intros s ->; apply q_init | intros; by eapply q_step]. Qed.

(** The abstract queue after linking and after moving [head]. *)
Lemma contents_link t n ct x y s :
  q_inv s -> qpcs s !! t = Some (E_link n ct) -> heap s !! ct = Some x -> next x = None ->
  heap s !! n = Some y ->
  contents (set_qpc t (E_swing n ct) (add_linked n (set_heap (link_node ct n (heap s)) s))) =
  contents s ++ [data y].
Proof.
  intros HI Ht Hx Hn Hy. pose proof (q_link _ _ _ _ _ HI Ht Hx Hn) as HI'.
  rewrite (contents_eq _ HI'), (contents_eq _ HI). cbn [set_qpc add_linked set_heap linked popped].
  pose proof (lookup_lt_Some _ _ _ (q_head _ HI)) as Hpl.
  assert (forall a, value (set_qpc t (E_swing n ct) (add_linked n (set_heap (link_node ct n (heap s)) s))) a
    = value s a) as Hv.
  { intros a. unfold value. cbn. unfold link_node. rewrite list_lookup_alter. case_decide; [|done]. subst.
    by destruct (heap s !! a). }
  rewrite drop_app_le, fmap_app by lia. f_equal; [by apply list_fmap_ext|]. cbn. rewrite Hv. unfold value.
  by rewrite Hy.
Qed.

Lemma contents_pop t ch nx v s :
  q_inv s -> pos s nx (S (popped s)) -> q_inv (set_qpc t (D_read ch nx v) (count_pop (set_qhead nx s))) ->
  contents s = value s nx :: contents (set_qpc t (D_read ch nx v) (count_pop (set_qhead nx s))).
Proof. intros HI Hnx HI'. rewrite (contents_front s nx), (contents_eq _ HI') by done. done. Qed.

(** [C3] Over a domain that frees no node in a checked slot (the guard of [Reclaim]),
    the queue is a FIFO queue: in every reachable state, read off the
    memory by following [next] from [head], linking a node appends its value
    at the end, moving [head] removes the value at the front, and no other
    step, of any thread, changes what the queue holds. *)
Theorem mpmc_fifo a s s' :
  reachable mpmc_exec (fun s0 => s0 = MPMCQueue threads) s ->
  mpmc_exec a s = Some s' -> fifo (contents s) (lin_event a s) (contents s').
Proof.
  intros HI%reach_inv E. pose proof (q_step _ _ _ HI E) as HI'.
  destruct a as [t v|t|t cas junk|n]; cbn [mpmc_exec] in E.
  - apply bind_Some in E as (x & Hx%qidle_inv & E). simplify_eq. cbn [lin_event fifo].
    rewrite (contents_eq _ HI'), (contents_eq _ HI). apply list_fmap_ext. intros i a Ha. unfold value. cbn.
    rewrite lookup_app_l; [done|].
    rewrite lookup_drop in Ha. by eapply pos_heap.
  - apply bind_Some in E as (x & Hx & E). by simplify_eq.
  - apply bind_Some in E as (pc & Ht & E). cbn [lin_event]. rewrite Ht.
    destruct pc; cbn [mpmc_step] in E; unfold load in E; open_step E; bools; subst; unfold deref;
      repeat case_bool_decide; try done; try (by destruct cas).
    + rewrite Hx. destruct (heap s !! n); [|done]. by rewrite Hb1.
    + rewrite Hx. destruct (heap s !! n) as [y|] eqn:Hy; rewrite ?Hb1.
      * by eapply contents_link.
      * destruct (q_new _ HI n) as (y & Hy' & _); [|by rewrite Hy in Hy'].
        eapply elem_of_gather; [exact Ht|]. set_solver.
    + destruct (q_pc _ HI _ _ Ht) as (k & (Hk & _) & Hnx & _).
      pose proof (pos_inj _ _ _ _ HI Hk (q_head _ HI)) as ->. by apply contents_pop.
  - open_step E. done.
Qed.

(** What [dequeue] reports is what happened: one that is about to return
    false loaded a null [next] at a moment when the queue was empty, and one
    that is about to return true has read exactly the value that was at the
    front when it moved [head]. *)
Lemma dequeue_result s t pc :
  reachable mpmc_exec (fun s0 => s0 = MPMCQueue threads) s -> qpcs s !! t = Some pc ->
  match pc with
  | D_empty e | D_return_false e => e = true
  | D_release _ r v | D_release_next _ r v | D_retire _ r v => r = v
  | D_read _ nx v => heap s !! nx ≫= data = v
  | _ => True
  end.
Proof.
  intros HI%reach_inv Ht. pose proof (q_pc _ HI _ _ Ht) as Hok. destruct pc; try done.
  destruct Hok as (_ & _ & x & Hx & <-). by rewrite Hx.
Qed.

(** Over a domain that keeps the contract of [Reclaim], [dequeue] is memory safe and frees nothing twice: it never reads a
    freed node, the nodes it compares and exchanges [head] with are not freed
    (so a recycled address cannot make the exchange succeed), every node removed
    from the queue is retired exactly once (or is still in the hands of the
    thread that removed it), only retired nodes are freed, and none of the nodes
    from [head] on is freed. *)
Lemma dequeue_memory_safe s :
  reachable mpmc_exec (fun s0 => s0 = MPMCQueue threads) s ->
  (forall t, qpcs s !! t <> Some D_uaf) /\
  (forall t ch nx, qpcs s !! t = Some (D_pop ch nx) -> ch ∉ freed s /\ nx ∉ freed s) /\
  retired_nodes s ++ gather in_hand (qpcs s) ≡ₚ take (popped s) (linked s) /\
  NoDup (retired_nodes s) /\
  (forall n, n ∈ freed s -> n ∈ retired_nodes s) /\
  (forall k a, linked s !! k = Some a -> (popped s <= k)%nat -> a ∉ freed s).
Proof.
  intros HI%reach_inv. split_and!.
  - intros t Ht. by apply (q_pc _ HI) in Ht.
  - intros t ch nx Ht. by destruct (q_pc _ HI _ _ Ht) as (k & (_ & _ & _ & ?) & _ & _ & _ & ?).
  - apply HI.
  - by apply retired_nodup, NoDup_app in HI as [? _].
  - apply HI.
  - intros k a Ha Hk. by eapply live.
Qed.

Lemma destroy_eq s fuel k :
  q_inv s -> (length (linked s) <= fuel + k)%nat ->
  destroy_loop fuel (heap s) (linked s !! k) = Some (drop k (linked s)).
Proof.
  intros HI. revert k. induction fuel as [|fuel IH]; intros k Hle.
  - rewrite lookup_ge_None_2 by lia. cbn. by rewrite drop_ge by lia.
  - destruct (linked s !! k) as [a|] eqn:Ha; cbn [destroy_loop].
    + destruct (q_chain _ HI _ _ Ha) as (x & Hx & Hn). rewrite Hx. cbn [mbind option_bind].
      rewrite Hn, IH by lia. cbn. by rewrite (drop_S _ _ _ Ha).
    + apply lookup_ge_None in Ha. by rewrite drop_ge.
Qed.

(** [C31] The destructor terminates and deletes the dummy and every node still
    in the queue, each once, and none that was retired: together with the nodes
    removed before these are all nodes ever linked. *)
Theorem destructor_frees_rest s :
  reachable mpmc_exec (fun s0 => s0 = MPMCQueue threads) s ->
  exists l, destroy s = Some l /\ NoDup l /\ length l = S (length (contents s)) /\
    take (popped s) (linked s) ++ l = linked s /\
    (forall a, a ∈ l -> a ∉ retired_nodes s /\ a ∉ freed s).
Proof.
  intros HI%reach_inv. pose proof (linked_length _ HI) as Hlen. pose proof (q_head _ HI) as Hh.
  exists (drop (popped s) (linked s)). split_and!.
  - unfold destroy. rewrite <- Hh. apply destroy_eq; [done|lia].
  - eapply sublist_NoDup; [exact (q_nodup _ HI) | apply sublist_drop].
  - rewrite contents_eq, length_fmap by done. rewrite (drop_S _ _ _ Hh). done.
  - apply take_drop.
  - intros a Ha. apply list_elem_of_lookup in Ha as [j Hj]. rewrite lookup_drop in Hj. split.
    + eapply not_retired; [done|exact Hj|lia].
    + eapply live; [done|exact Hj|lia].
Qed.
End theorems.

(** ** Threads that run alone *)

Section alone.
Context {T : Type}.
Implicit Types (s : mpmc T).
Context (t : nat) (junk : option nat * option nat).

Abbreviation alone := (repeats mpmc_exec (QStep t true junk)).

Lemma alone_cons pc s1 s2 s3 :
  qpcs s1 !! t = Some pc -> mpmc_step t true junk pc s1 = Some s2 -> alone s2 s3 -> alone s1 s3.
Proof. intros Ht E. apply repeats_cons. cbn. by rewrite Ht. Qed.

Lemma set_qpc_lookup pc s : (t < length (qpcs s))%nat -> qpcs (set_qpc t pc s) !! t = Some pc.
Proof. intros. by apply list_lookup_insert_eq. Qed.

Lemma set_qpc_twice pc pc' s : set_qpc t pc (set_qpc t pc' s) = set_qpc t pc s.
Proof. unfold set_qpc. cbn. by rewrite list_insert_insert_eq. Qed.

Lemma set_qpc_id pc s : qpcs s !! t = Some pc -> set_qpc t pc s = s.
Proof. intros. unfold set_qpc. rewrite list_insert_id by done. by destruct s. Qed.

(** Three local steps of the loop of [enqueue]. *)
Lemma enqueue_look s n x :
  (t < length (qpcs s))%nat -> heap s !! tail s = Some x -> tail s ∉ freed s ->
  alone (set_qpc t (E_tail n) s)
    (set_qpc t (match next x with None => E_link n (tail s) | Some a => E_help n (tail s) a end) s).
Proof.
  intros Ht Hx Hf.
  eapply alone_cons; [by apply set_qpc_lookup | reflexivity |]. cbn. rewrite set_qpc_twice.
  eapply alone_cons; [by apply set_qpc_lookup | |].
  { cbn. unfold load. cbn. rewrite bool_decide_false by done. rewrite Hx. cbn. by rewrite set_qpc_twice. }
  eapply alone_cons; [by apply set_qpc_lookup | |apply repeats_refl].
  cbn. rewrite bool_decide_true by done. by rewrite set_qpc_twice.
Qed.

(** [d] nodes lie behind [tail]: one round of help each. *)
Lemma enqueue_loop d s n y j :
  q_inv s -> qpcs s !! t = Some (E_tail n) -> heap s !! n = Some y ->
  pos s (tail s) j -> (popped s <= j)%nat -> (S j + d = length (linked s))%nat ->
  exists s', alone s s' /\ qpcs s' !! t = Some Q_idle /\ contents s' = contents s ++ [data y].
Proof.
  revert s j. induction d as [|d IH]; intros s j HI Ht Hy Hj Hp Hd;
    assert (t < length (qpcs s))%nat as Hlt by (by eapply lookup_lt_Some);
    pose proof (set_qpc_id _ _ Ht) as Hs;
    destruct (q_chain _ HI _ _ Hj) as (x & Hx & Hn); pose proof (live _ _ _ HI Hj Hp) as Hf;
    pose proof (enqueue_look s n x Hlt Hx Hf) as HA; rewrite Hs in HA.
  - rewrite lookup_ge_None_2 in Hn by lia. rewrite Hn in HA.
    assert (q_inv (set_qpc t (E_link n (tail s)) s)) as HI1 by (eapply q_local; [done..|by exists j]).
    eexists. split_and!.
    + eapply repeats_trans; [exact HA|].
      eapply alone_cons; [by apply set_qpc_lookup| |].
      { cbn. unfold load. cbn. rewrite bool_decide_false by done. rewrite Hx. cbn. rewrite Hn. reflexivity. }
      eapply alone_cons; [apply list_lookup_insert_eq; cbn; by rewrite length_insert|reflexivity|apply repeats_refl].
    + apply list_lookup_insert_eq. cbn. case_match; cbn; by rewrite !length_insert.
    + transitivity (contents (set_qpc t (E_swing n (tail s))
        (add_linked n (set_heap (link_node (tail s) n (heap s)) (set_qpc t (E_link n (tail s)) s))))).
      { cbn. by case_match. }
      eapply (contents_link t n (tail s) x y _ HI1); [by apply set_qpc_lookup|done..].
  - destruct (linked s !! S j) as [a|] eqn:Ha; [|apply lookup_ge_None in Ha; lia]. rewrite Hn in HA.
    set (s1 := set_qpc t (E_tail n) (set_qtail a s)).
    assert (q_inv s1) as HI1 by (eapply q_swing; [done..|by exists j|done|done]).
    destruct (IH s1 (S j)) as (s' & HA' & Hidle & HC);
      [done|by apply set_qpc_lookup|done|done|cbn; lia|cbn; lia|].
    exists s'. split_and!; [|done|exact HC].
    eapply repeats_trans; [exact HA|]. eapply alone_cons; [by apply set_qpc_lookup| |exact HA'].
    cbn. rewrite bool_decide_true by done. unfold s1, set_qpc. cbn. by rewrite list_insert_insert_eq.
Qed.

(** One step of a thread at [pc], with the state it leads to. *)
Lemma alone_to pc pc' s s' s3 :
  (t < length (qpcs s))%nat -> mpmc_step t true junk pc (set_qpc t pc s) = Some (set_qpc t pc' s') ->
  alone (set_qpc t pc' s') s3 -> alone (set_qpc t pc s) s3.
Proof. intros Ht E. by eapply alone_cons; [apply set_qpc_lookup|]. Qed.

Lemma set_slots_lookup sl s : (t < length (slots s))%nat -> slots (set_slots t sl s) !! t = Some sl.
Proof. intros. by apply list_lookup_insert_eq. Qed.

(** Seven local steps of the loop of [dequeue]. *)
Lemma dequeue_look s sl x :
  (t < length (qpcs s))%nat -> slots s !! t = Some sl -> heap s !! head s = Some x -> head s ∉ freed s ->
  alone (set_qpc t D_head s)
    (set_qpc t (match next x with
                | None => D_empty (bool_decide (contents s = []))
                | Some a => if bool_decide (head s = tail s) then D_help (tail s) a else D_pop (head s) a
                end)
       (set_slots t (Some (head s), next x) s)).
Proof.
  intros Ht Hsl Hx Hf. pose proof (lookup_lt_Some _ _ _ Hsl) as Hlt.
  set (s1 := set_slots t (Some (head s), sl.2) s). set (s2 := set_slots t (Some (head s), next x) s).
  apply (alone_to _ (D_protect (head s)) _ s); [done|cbn [mpmc_step]; by rewrite set_qpc_twice|].
  apply (alone_to _ (D_recheck (head s)) _ s1); [done| |].
  { cbn [mpmc_step]. change (slots (set_qpc t _ s)) with (slots s). rewrite Hsl. cbn [mbind option_bind].
    f_equal. apply (set_qpc_twice _ _ s1). }
  apply (alone_to _ (D_tail (head s)) _ s1); [done| |].
  { cbn [mpmc_step]. rewrite bool_decide_true by done. f_equal. apply (set_qpc_twice _ _ s1). }
  apply (alone_to _ (D_next (head s) (tail s)) _ s1); [done|cbn [mpmc_step]; by rewrite set_qpc_twice|].
  apply (alone_to _ (D_protect_next (head s) (tail s) (next x) (bool_decide (contents s = []))) _ s1); [done| |].
  { cbn [mpmc_step]. unfold load. rewrite bool_decide_false by done.
    change (heap (set_qpc t _ s1)) with (heap s). rewrite Hx.
    cbn [mbind option_bind]. f_equal. apply (set_qpc_twice _ _ s1). }
  apply (alone_to _ (D_recheck_next (head s) (tail s) (next x) (bool_decide (contents s = []))) _ s2); [done| |].
  { cbn [mpmc_step]. change (slots (set_qpc t _ s1)) with (slots s1).
    rewrite (set_slots_lookup _ s Hlt : slots s1 !! t = _). cbn [mbind option_bind fst]. f_equal.
    unfold s1, s2, set_qpc, set_slots. cbn. by rewrite !list_insert_insert_eq. }
  eapply alone_to; [done| |apply repeats_refl].
  cbn [mpmc_step]. rewrite bool_decide_true by done. f_equal. apply (set_qpc_twice _ _ s2).
Qed.

(** A [dequeue] that finds nothing. *)
Lemma dequeue_none s :
  (t < length (qpcs s))%nat ->
  alone (set_qpc t (D_empty true) s) (set_qpc t (D_return_false true) (set_slots t junk s)).
Proof.
  intros Ht. eapply alone_to; [done| |apply repeats_refl]. cbn [mpmc_step]. f_equal.
  apply (set_qpc_twice _ _ (set_slots t junk s)).
Qed.

(** A [dequeue] that moves [head]. *)
Lemma dequeue_take s sl nx y q :
  (t < length (qpcs s))%nat -> slots s !! t = Some sl -> heap s !! nx = Some y -> nx ∉ freed s ->
  contents s = data y :: q ->
  alone (set_qpc t (D_pop (head s) nx) s)
    (set_qpc t (D_retire (head s) (data y) (data y)) (set_slots t (None, None) (count_pop (set_qhead nx s)))).
Proof.
  intros Ht Hsl Hy Hf HC. pose proof (lookup_lt_Some _ _ _ Hsl) as Hlt.
  set (s1 := count_pop (set_qhead nx s)). set (s2 := set_slots t (None, sl.2) s1).
  apply (alone_to _ (D_read (head s) nx (data y)) _ s1); [done| |].
  { cbn [mpmc_step]. rewrite bool_decide_true by done.
    change (contents (set_qpc t _ s)) with (contents s). rewrite HC. cbn [andb list.head default].
    f_equal. apply (set_qpc_twice _ _ s1). }
  apply (alone_to _ (D_release (head s) (data y) (data y)) _ s1); [done| |].
  { cbn [mpmc_step]. unfold load. rewrite bool_decide_false by done.
    change (heap (set_qpc t _ s1)) with (heap s). rewrite Hy. cbn [mbind option_bind].
    f_equal. apply (set_qpc_twice _ _ s1). }
  apply (alone_to _ (D_release_next (head s) (data y) (data y)) _ s2); [done| |].
  { cbn [mpmc_step]. change (slots (set_qpc t _ s1)) with (slots s). rewrite Hsl. cbn [mbind option_bind].
    f_equal. apply (set_qpc_twice _ _ s2). }
  eapply alone_to; [done| |apply repeats_refl].
  cbn [mpmc_step]. change (slots (set_qpc t _ s2)) with (slots s2).
  rewrite (set_slots_lookup _ s1 Hlt : slots s2 !! t = _). cbn [mbind option_bind fst]. f_equal.
  unfold s1, s2, set_qpc, set_slots. cbn. by rewrite !list_insert_insert_eq.
Qed.

(** What the call comes to, run alone from the top of the loop. *)
Definition dequeued s s2 : Prop :=
  match contents s with
  | [] => qpcs s2 !! t = Some (D_return_false true) /\ contents s2 = []
  | v :: q => qpcs s2 !! t = Some (D_retire (head s) v v) /\ contents s2 = q
  end.

(** From a state whose [tail] is not behind [head]. *)
Lemma dequeue_round s sl :
  q_inv s -> (t < length (qpcs s))%nat -> slots s !! t = Some sl ->
  (tail s = head s -> contents s = []) ->
  exists s2, alone (set_qpc t D_head s) s2 /\ dequeued s s2 /\ retired_nodes s2 = retired_nodes s.
Proof.
  intros HI Ht Hsl Htl. destruct (q_chain _ HI _ _ (q_head _ HI)) as (x & Hx & Hn).
  pose proof (live _ _ _ HI (q_head _ HI) ltac:(lia)) as Hf.
  pose proof (dequeue_look s sl x Ht Hsl Hx Hf) as HA. unfold dequeued.
  assert (slots (set_slots t (Some (head s), next x) s) !! t = Some (Some (head s), next x)) as Hsl1
    by (by eapply slot_set).
  destruct (linked s !! S (popped s)) as [a|] eqn:Ha; rewrite Hn in HA, Hsl1.
  - destruct (q_chain _ HI _ _ Ha) as (y & Hy & _).
    pose proof (live _ _ _ HI Ha ltac:(lia)) as Hfa.
    assert (contents s = data y :: (value s <$> drop (S (S (popped s))) (linked s))) as HC
      by (rewrite (contents_front s a) by done; unfold value at 1; by rewrite Hy).
    rewrite HC in Htl |- *. rewrite bool_decide_false in HA by (intros E; symmetry in E; by apply Htl in E).
    pose proof (dequeue_take (set_slots t (Some (head s), Some a) s) _ a y _ Ht Hsl1 Hy Hfa HC) as HB.
    eexists. split; [eapply repeats_trans; [exact HA|exact HB]|]. split_and!; [by apply set_qpc_lookup| |done].
    change (contents (count_pop (set_qhead a s)) = value s <$> drop (S (S (popped s))) (linked s)).
    unfold contents. cbn. rewrite Hy. cbn.
    destruct (q_chain _ HI _ _ Ha) as (y' & Hy' & Hn'). simplify_eq. rewrite Hn'. apply follow_eq; [done|].
    pose proof (linked_length _ HI). lia.
  - assert (contents s = []) as HC.
    { rewrite contents_eq by done. rewrite drop_ge; [done|]. by apply lookup_ge_None. }
    rewrite bool_decide_true in HA by done. rewrite HC.
    eexists. split; [eapply repeats_trans; [exact HA|by eapply dequeue_none]|].
    split_and!; [by apply set_qpc_lookup|exact HC|done].
Qed.

(** At most one round helps [tail] along first. *)
Lemma dequeue_help s sl :
  q_inv s -> qpcs s !! t = Some D_head -> slots s !! t = Some sl ->
  exists s2, alone (set_qpc t D_head s) s2 /\ dequeued s s2 /\ retired_nodes s2 = retired_nodes s.
Proof.
  intros HI Ht Hsl. pose proof (lookup_lt_Some _ _ _ Ht) as Hlt.
  destruct (decide (tail s = head s /\ contents s <> [])) as [[Hth HC]|Hno].
  2: { apply (dequeue_round s sl); try done. intros. by destruct (contents s); [|destruct Hno]. }
  destruct (q_chain _ HI _ _ (q_head _ HI)) as (x & Hx & Hn).
  pose proof (live _ _ _ HI (q_head _ HI) ltac:(lia)) as Hf.
  pose proof (dequeue_look s sl x Hlt Hsl Hx Hf) as HA.
  destruct (linked s !! S (popped s)) as [a|] eqn:Ha; rewrite Hn in HA.
  2: { destruct HC. rewrite contents_eq by done. rewrite drop_ge; [done|]. by apply lookup_ge_None. }
  rewrite bool_decide_true in HA by done.
  set (s1 := set_slots t (Some (head s), Some a) (set_qtail a s)).
  assert (q_inv s1) as HI1.
  { rewrite <- (set_qpc_id D_head s1) by done. eapply (q_slots _ D_head); try done.
    rewrite <- (set_qpc_id D_head (set_qtail a s)) by done. eapply (q_swing _ D_head _ _ (head s)); try done. exists (popped s). split; [apply HI|done]. }
  destruct (dequeue_round s1 (Some (head s), Some a)) as (s2 & HB & HD & HR); [done|done|by eapply slot_set|..].
  { cbn. intros ->. exfalso. pose proof (pos_inj _ _ _ _ HI Ha (q_head _ HI)). lia. }
  exists s2. split_and!; [|exact HD|exact HR]. eapply repeats_trans; [exact HA|].
  eapply alone_cons; [by apply set_qpc_lookup| |exact HB].
  cbn. rewrite bool_decide_true by done. unfold s1, set_qpc, set_slots, set_qtail. cbn.
  by rewrite list_insert_insert_eq.
Qed.
End alone.

Section progress.
Context {T : Type} (threads : nat).

(** [C38] [enqueue] cannot get stuck on others: from any reachable state, a
    thread whose compare-exchanges do not fail spuriously and that runs alone
    finishes its call after helping [tail] along, and its value is then the
    last one in the queue. *)
Theorem enqueue_alone (s : mpmc T) t v junk :
  reachable mpmc_exec (fun s0 => s0 = MPMCQueue threads) s -> qpcs s !! t = Some Q_idle ->
  exists s1 s', mpmc_exec (Enqueue t v) s = Some s1 /\ repeats mpmc_exec (QStep t true junk) s1 s' /\
    qpcs s' !! t = Some Q_idle /\ contents s' = contents s ++ [Some v].
Proof.
  intros Hr Ht. pose proof (reach_inv _ _ Hr) as HI. cbn [mpmc_exec]. unfold qidle. rewrite Ht. cbn [mbind option_bind].
  pose proof (q_enqueue t v s HI Ht) as HI1. eexists.
  destruct (q_tail _ HI1) as (j & Hj & Hp).
  destruct (enqueue_loop t junk (length (linked s) - S j) _ (length (heap s)) (mkNode (Some v) None) j HI1)
    as (s' & HA & Hidle & HC).
  - apply set_qpc_lookup. by eapply lookup_lt_Some.
  - cbn. by rewrite lookup_app_r, Nat.sub_diag by lia.
  - done.
  - done.
  - pose proof (lookup_lt_Some _ _ _ Hj) as Hlt. cbn in *. lia.
  - exists s'. split_and!; [done..|]. rewrite HC. f_equal. rewrite (contents_eq _ HI1), (contents_eq _ HI).
    apply list_fmap_ext. intros i a Ha. unfold value. cbn. rewrite lookup_app_l; [done|].
    rewrite lookup_drop in Ha. by eapply pos_heap.
Qed.

(** [C30] [dequeue] cannot get stuck on others either: from any reachable state in
    which a thread is at the top of its loop (it has just been called, or a round
    failed), and as long as its compare-exchanges do not fail for no reason, running
    alone it finishes its call.  If the queue was empty it reports that and changes
    nothing; otherwise it removes the front value, reports exactly that value
    and retires the old dummy node.  A compare-exchange that fails for no reason
    brings it back to the top of the loop with the queue as it was. *)
Theorem dequeue_alone (s : mpmc T) t junk :
  reachable mpmc_exec (fun s0 => s0 = MPMCQueue threads) s ->
  (qpcs s !! t = Some D_head ->
   exists s2 s', repeats mpmc_exec (QStep t true junk) s s2 /\
     mpmc_exec (QStep t true junk) s2 = Some s' /\ qpcs s' !! t = Some Q_idle /\
     match contents s with
     | [] => qpcs s2 !! t = Some (D_return_false true) /\ contents s' = [] /\ retired_nodes s' = retired_nodes s
     | v :: q => qpcs s2 !! t = Some (D_retire (head s) v v) /\ contents s' = q /\
                 retired_nodes s' = retired_nodes s ++ [head s]
     end) /\
  (forall ch nx, qpcs s !! t = Some (D_pop ch nx) \/ qpcs s !! t = Some (D_help ch nx) ->
   exists s', mpmc_exec (QStep t false junk) s = Some s' /\ qpcs s' !! t = Some D_head /\
     contents s' = contents s /\ head s' = head s).
Proof.
  intros Hr. pose proof (reach_inv _ _ Hr) as HI. destruct (reach_sized _ _ Hr) as [HS1 HS2]. split.
  - intros Ht. pose proof (lookup_lt_Some _ _ _ Ht) as Hlt.
    destruct (lookup_lt_is_Some_2 (slots s) t) as [sl Hsl]; [lia|].
    destruct (dequeue_help t junk s sl HI Ht Hsl) as (s2 & HA & HD & HR).
    rewrite set_qpc_id in HA by done. cbn [mpmc_exec]. unfold dequeued in HD.
    destruct (contents s) as [|v q]; destruct HD as [Hpc HC]; do 2 eexists;
      (split; [exact HA|]); rewrite Hpc; cbn; (split; [reflexivity|]);
      (split; [apply list_lookup_insert_eq; by eapply lookup_lt_Some|]); cbn; by rewrite ?HR.
  - intros ch nx [Ht|Ht]; pose proof (lookup_lt_Some _ _ _ Ht); cbn [mpmc_exec]; rewrite Ht; cbn;
      eexists; (split_and!; [reflexivity| |done|done]); by apply list_lookup_insert_eq.
Qed.
End progress.

(** ** Traces *)

Module QueueTraces.

Definition go (t : nat) : mpmc_act nat := QStep t true (None, None).
Definition start : mpmc nat := MPMCQueue 3.
Definition after (tr : list (mpmc_act nat)) : mpmc nat := default start (run mpmc_exec tr start).

(** Thread 0 has loaded [tail] and stops; thread 1 enqueues 20. *)
Definition two_enqueues : list (mpmc_act nat) :=
  [Enqueue 0 10%nat; go 0; Enqueue 1 20%nat] ++ replicate 5 (go 1).
(** Thread 2 dequeues it, and the old dummy node is freed. *)
Definition one_dequeue : list (mpmc_act nat) := Dequeue 2 :: replicate 12 (go 2).

(** [enqueue] protects nothing: a thread that has loaded [tail] and is
    delayed reads a node that another thread has meanwhile removed, retired and
    that the domain has freed. *)
Lemma enqueue_use_after_free :
  exists s, run mpmc_exec (two_enqueues ++ one_dequeue ++ [Reclaim 0; go 0]) start = Some s /\
    qpcs s !! 0%nat = Some (E_uaf 1) /\ 0%nat ∈ freed s.
Proof. eexists. split; [vm_compute; reflexivity|]. split; vm_compute; reflexivity. Qed.

Lemma mpmc_fifo_witness :
  fifo (contents (after (two_enqueues ++ take 8 one_dequeue))) (Ev_deq (Some 20%nat))
    (contents (after (two_enqueues ++ take 9 one_dequeue))).
Proof.
  apply (mpmc_fifo 3 (go 2)).
  - apply default_reachable; [done | vm_compute; reflexivity].
  - vm_compute. reflexivity.
Defined.

Lemma dequeue_result_witness :
  heap (after (two_enqueues ++ take 9 one_dequeue)) !! 2%nat ≫= data = Some 20%nat.
Proof.
  apply (dequeue_result 3 (after (two_enqueues ++ take 9 one_dequeue)) 2 (D_read 0 2 (Some 20%nat))).
  - apply default_reachable; [done | vm_compute; reflexivity].
  - vm_compute. reflexivity.
Defined.

Lemma dequeue_memory_safe_witness :
  (forall t, qpcs (after (two_enqueues ++ one_dequeue ++ [Reclaim 0])) !! t <> Some D_uaf) /\
  NoDup (retired_nodes (after (two_enqueues ++ one_dequeue ++ [Reclaim 0]))).
Proof.
  destruct (dequeue_memory_safe 3 (after (two_enqueues ++ one_dequeue ++ [Reclaim 0]))) as (H1 & _ & _ & H2 & _).
  - apply default_reachable; [done | vm_compute; reflexivity].
  - exact (conj H1 H2).
Defined.

Lemma destructor_frees_rest_witness :
  exists l, destroy (after two_enqueues) = Some l /\ NoDup l /\ length l = S (length (contents (after two_enqueues))) /\
    take (popped (after two_enqueues)) (linked (after two_enqueues)) ++ l = linked (after two_enqueues) /\
    (forall a, a ∈ l -> a ∉ retired_nodes (after two_enqueues) /\ a ∉ freed (after two_enqueues)).
Proof. apply (destructor_frees_rest 3), default_reachable; [done | vm_compute; reflexivity]. Defined.

Lemma enqueue_alone_witness :
  exists s1 s', mpmc_exec (Enqueue 2 30%nat) (after two_enqueues) = Some s1 /\ repeats mpmc_exec (go 2) s1 s' /\
    qpcs s' !! 2%nat = Some Q_idle /\ contents s' = contents (after two_enqueues) ++ [Some 30%nat].
Proof.
  apply (enqueue_alone 3 (after two_enqueues) 2 30%nat (None, None)).
  - apply default_reachable; [done | vm_compute; reflexivity].
  - vm_compute. reflexivity.
Defined.

Lemma dequeue_alone_witness :
  exists s2 s', repeats mpmc_exec (go 2) (after (two_enqueues ++ [Dequeue 2])) s2 /\
    mpmc_exec (go 2) s2 = Some s' /\ qpcs s2 !! 2%nat = Some (D_retire 0 (Some 20%nat) (Some 20%nat)).
Proof.
  destruct (dequeue_alone 3 (after (two_enqueues ++ [Dequeue 2])) 2 (None, None)) as [H _].
  - apply default_reachable; [done | vm_compute; reflexivity].
  - destruct H as (s2 & s' & H2 & H3 & _ & H4); [vm_compute; reflexivity|].
    exists s2, s'. exact (conj H2 (conj H3 (proj1 H4))).
Defined.
End QueueTraces.
