(* ===== verification/QueueProgress.v ===== *)
(** * Lock-freedom of the queue

    A thread of [enqueue] or [dequeue] (mpmc_queue.hpp) that has to start its loop
    again was overtaken: [head] or [tail] moved, or a node was linked behind the
    tail it had loaded.  The measure below charges every thread the steps left in
    its current round, one more round if it has been overtaken, and every node
    behind [tail] one more round for each thread, since swinging [tail] can
    overtake all of them.  A step that neither adds nor removes a value lowers it,
    except that a weak compare-exchange that fails for no reason costs the thread
    one more round. *)

From S2P Require Import Prelude.
From S2P Require Import MpmcQueue.
#[local] Open Scope Z_scope.

Section progress.
Context {T : Type}.
Implicit Types (s : mpmc T) (pc : mpmc_pc T) (t : nat).

(** Steps of a thread in which no value enters or leaves the queue. *)
Definition is_none (ev : event T) : bool := match ev with Ev_none => true | _ => false end.
Definition mpmc_quiet (a : mpmc_act T) s : option (mpmc T) :=
  match a with
  | QStep _ _ _ => if is_none (lin_event a s) then mpmc_exec a s else None
  | _ => None
  end.




Definition next_of s (a : nat) : option nat := heap s !! a ≫= next.



(** The nodes behind [tail]. *)
Definition behind s : Z := Z.of_nat (length (follow (length (heap s)) (heap s) (next_of s (tail s)))).












End progress.


(** ** Traces *)

Module ProgressTraces.
Import QueueTraces.

(** Thread 1 has linked 20 and not swung [tail]; threads 0 and 2 help and are overtaken. *)
Definition contended : mpmc nat :=
  after ([Enqueue 0 10%nat; go 0; Enqueue 1 20%nat; go 1; go 1; go 1; go 1; Dequeue 2]).
Definition helping : list (mpmc_act nat) := replicate 7 (go 2) ++ [go 0; go 0; go 2; go 1; go 0; go 0; go 0; go 0].

Example helping_state :
  behind contended = 1 /\
  (fun s => (qpcs s, tail s)) <$> run mpmc_quiet helping contended = Some ([E_link 1 2; Q_idle; D_head], 2%nat).
Proof. split; vm_compute; reflexivity. Qed.

End ProgressTraces.
