(* ===== verification/QueueDomain.v ===== *)
(** * The queue on its hazard-pointer domain

    [dequeue] (mpmc_queue.hpp) makes two holders, protects and releases through
    them and hands the removed node to [RetirePointer] (hazard_pointer.hpp).  Here
    the machine of MpmcQueue.v and the machine of HazardPointer.v run side by
    side: a step of [dequeue] that calls the domain is one step of both, the
    domain's own steps (a scan by some thread) run in between, and a deleter frees
    a node of the queue without asking.

    MpmcQueue.v assumes that a node in a checked slot is not freed; the
    refinement below proves that the domain keeps that promise when the store of
    [protect] is visible before the check that follows it ([fence]) and no scan
    reads a new slot before its maker has linked it ([calm_composed]; with
    [link_first] none can).  The traces at the end show that the code breaks the
    promise for want of either. *)

From S2P Require Import Prelude.
From S2P Require Import HazardPointer.
From S2P Require Import MpmcQueue.

(** The default argument of [RetirePointer]: [delete p]. *)
Inductive deleter := delete_node.

Section composed.
Context {T : Type} (fence link_first : bool).

Record composed := mkComposed {
  queue : mpmc T;
  domain : hp_state deleter;
  holders : list (option nat * option nat);   (* the slots of hp_head and hp_next, by thread *)
}.
Implicit Types (c : composed) (t : nat) (h : option nat * option nat).

Definition set_queue q c := mkComposed q (domain c) (holders c).
Definition set_domain d c := mkComposed (queue c) d (holders c).
Definition set_holder t h c := mkComposed (queue c) (domain c) (<[t := h]> (holders c)).

(** [HazPtrHolder::protect] and [release]; nothing happens in an empty holder. *)
Definition protect_holder t (slot : option nat) (p : option nat) (d : hp_state deleter) : option (hp_state deleter) :=
  match slot with Some i => hp_exec fence link_first (Protect t i p) d | None => Some d end.
Definition release_holder t (slot : option nat) (d : hp_state deleter) : option (hp_state deleter) :=
  match slot with Some i => hp_exec fence link_first (Release t i) d | None => Some d end.
(** History: the check that follows [protect] has succeeded. *)
Definition validate_holder t (slot : option nat) (d : hp_state deleter) : option (hp_state deleter) :=
  match slot with Some i => hp_exec fence link_first (Validate t i) d | None => Some d end.

(** What a step of [dequeue] does to the domain and to the thread's holders. *)
Definition on_domain t (junk : option nat * option nat) (pc : mpmc_pc T) (q : mpmc T) h (d : hp_state deleter)
    : option (hp_state deleter * (option nat * option nat)) :=
  match pc with
  | D_protect ch => d ← protect_holder t h.1 (Some ch) d; Some (d, h)
  | D_recheck ch =>
      if bool_decide (ch = head q) then d ← validate_holder t h.1 d; Some (d, h) else Some (d, h)
  | D_protect_next _ _ nx _ => d ← protect_holder t h.2 nx d; Some (d, h)
  | D_recheck_next ch _ (Some _) _ =>
      if bool_decide (ch = head q) then d ← validate_holder t h.2 d; Some (d, h) else Some (d, h)
  | D_empty _ =>
      d ← protect_holder t h.1 junk.1 d; d ← protect_holder t h.2 junk.2 d; Some (d, h)
  | D_return_false _ => match h with (None, None) => Some (d, h) | _ => None end
  | D_release _ _ _ => d ← release_holder t h.1 d; Some (d, (None, h.2))
  | D_release_next _ _ _ => d ← release_holder t h.2 d; Some (d, (h.1, None))
  | D_retire ch _ _ => d ← hp_exec fence link_first (Retire t ch delete_node) d; Some (d, h)
  | _ => Some (d, h)
  end.

(** The node a step of the domain frees. *)
Definition frees (pc : hp_pc deleter) : list nat :=
  match pc with H_delete (r :: _) => [ptr_ r] | _ => [] end.

Inductive composed_act :=
| C_register t
| C_scan t
| C_commit t                                         (* a delayed store of [t] *)
| C_domain t                                         (* a step inside a call of the domain *)
| C_enqueue t (v : T)
| C_hold_head t (found : option nat)                 (* mpmc_queue.hpp 81: the slot [acquire] finds *)
| C_hold_next t (found : option nat)                 (* 82 *)
| C_dequeue t                                        (* 84 *)
| C_step t (cas : bool) (junk : option nat * option nat)
| C_drop_next t                                      (* 105: the holders' destructors *)
| C_drop_head t.

(** What [acquire] returns: the slot it found or the new one. *)
Definition slot_taken (found : option nat) (d : hp_state deleter) : nat := default (length (cells (dom d))) found.

(** A thread outside [enqueue] and [dequeue]. *)
Definition outside t c : option unit :=
  _ ← qidle t (queue c); _ ← idle t (domain c);
  match holders c !! t with Some (None, None) => Some () | _ => None end.

(** The destructors run at the return of an unsuccessful [dequeue]; before it
    [release_hazard_pointer] may already have released the holders. *)
Definition returning t c : option unit :=
  match qpcs (queue c) !! t with Some (D_empty _) | Some (D_return_false _) => Some () | _ => None end.

Definition composed_exec (a : composed_act) c : option composed :=
  match a with
  | C_register t => _ ← outside t c; d ← hp_exec fence link_first (Register t) (domain c); Some (set_domain d c)
  | C_scan t => _ ← outside t c; d ← hp_exec fence link_first (StartScan t) (domain c); Some (set_domain d c)
  | C_commit t => d ← hp_exec fence link_first (Commit t) (domain c); Some (set_domain d c)
  | C_domain t =>
      pc ← pcs (domain c) !! t; d ← hp_exec fence link_first (Step t) (domain c);
      Some (set_queue (foldr add_freed (queue c) (frees pc)) (set_domain d c))
  | C_enqueue t v => _ ← outside t c; q ← mpmc_exec (Enqueue t v) (queue c); Some (set_queue q c)
  | C_hold_head t found =>
      _ ← outside t c; d ← hp_exec fence link_first (Acquire t found) (domain c);
      Some (set_holder t (Some (slot_taken found (domain c)), None) (set_domain d c))
  | C_hold_next t found =>
      _ ← qidle t (queue c); h ← holders c !! t;
      match h with
      | (Some j, None) =>
          d ← hp_exec fence link_first (Acquire t found) (domain c);
          Some (set_holder t (Some j, Some (slot_taken found (domain c))) (set_domain d c))
      | _ => None
      end
  | C_dequeue t =>
      _ ← idle t (domain c); h ← holders c !! t;
      match h with
      | (Some _, Some _) => q ← mpmc_exec (Dequeue t) (queue c); Some (set_queue q c)
      | _ => None
      end
  | C_step t cas junk =>
      _ ← idle t (domain c); h ← holders c !! t; pc ← qpcs (queue c) !! t;
      q ← mpmc_exec (QStep t cas junk) (queue c);
      res ← on_domain t junk pc (queue c) h (domain c);
      Some (mkComposed q res.1 (<[t := res.2]> (holders c)))
  | C_drop_next t =>
      _ ← returning t c; h ← holders c !! t; d ← release_holder t h.2 (domain c);
      Some (set_holder t (h.1, None) (set_domain d c))
  | C_drop_head t =>
      _ ← returning t c; h ← holders c !! t;
      match h.2 with
      | Some _ => None
      | None => d ← release_holder t h.1 (domain c); Some (set_holder t (None, None) (set_domain d c))
      end
  end.

Definition composed_init (threads : nat) : composed :=
  mkComposed (MPMCQueue threads) (hp_init threads) (replicate threads (None, None)).
End composed.
Arguments composed : clear implicits.
Arguments composed_act : clear implicits.

(** ** The domain, seen by one thread *)

Section frame.
Implicit Types (d : hp_state deleter) (h : option nat * option nat).

Definition held_by h (i : nat) : Prop := h.1 = Some i \/ h.2 = Some i.
Definition owner_of d (i : nat) : option nat := cells (dom d) !! i ≫= owner_.
Definition hazard_of d (i : nat) : option (option nat) := hazard_ptr_ <$> cells (dom d) !! i.

(** The slots a thread holds are its own, and different. *)
Record holder_ok (t : nat) h d : Prop := {
  ho_owner : forall i, held_by h i -> owner_of d i = Some t;
  ho_kept : forall i, held_by h i -> pcs d !! t <> Some (H_released i);
  ho_distinct : forall i, h.1 = Some i -> h.2 <> Some i;
}.

(** The slot an action stores to, and the thread that does. *)
Definition touches (a : hp_act deleter) : option (nat * nat) :=
  match a with Protect t i _ | Release t i => Some (t, i) | _ => None end.

(** What the domain keeps for thread [t] while others use it. *)
Record keeps (t : nat) h d d' : Prop := {
  k_owner : forall i, held_by h i -> owner_of d' i = Some t;
  k_kept : forall i, held_by h i -> pcs d' !! t <> Some (H_released i);
  k_hazard : forall i, held_by h i -> hazard_of d' i = hazard_of d i;
  k_validated : forall i, held_by h i -> i ∈ validated d -> i ∈ validated d';
}.

Lemma keeps_refl t h d : holder_ok t h d -> keeps t h d d.
Proof. intros []. by split. Qed.

Lemma keeps_trans t h d1 d2 d3 : keeps t h d1 d2 -> keeps t h d2 d3 -> keeps t h d1 d3.
Proof. intros [] H. split; try apply H; intros; [etrans; [by apply H|auto] | by apply H; auto]. Qed.

Lemma keeps_ok t h d d' : holder_ok t h d -> keeps t h d d' -> holder_ok t h d'.
Proof. intros [] []. by split. Qed.

Lemma owned_cell d i t : owner_of d i = Some t -> exists x, cells (dom d) !! i = Some x /\ owner_ x = Some t.
Proof. unfold owner_of. destruct (cells (dom d) !! i); [eauto|done]. Qed.

(** One action of the domain, seen by a thread whose slots it does not store to. *)
Lemma cell_step a u j d d' :
  safe_inv d -> hp_exec true true a d = Some d' -> owner_of d j = Some u -> pcs d !! u <> Some (H_released j) ->
  touches a <> Some (u, j) ->
  owner_of d' j = Some u /\ hazard_of d' j = hazard_of d j.
Proof.
  intros HI E Ho Hp Ht. destruct (owned_cell _ _ _ Ho) as (y & Hy & Hoy).
  pose proof (safe_shape _ HI) as Hok. pose proof (safe_buffers _ HI) as HB.
  assert (j < length (cells (dom d)))%nat as Hlt by (by eapply lookup_lt_Some).
  unfold owner_of, hazard_of in *. hp_open E; unfold owns in *; bools; cbn [touches] in Ht;
    cbn [set_dom set_pc set_mutex set_buffer log_deleted log_retired set_validated unlock dom RegisterThread set_registered set_tls set_global cells];
    rewrite ?(proj1 (splice_cells _ _)); try done.
  - split; [|apply store_owner_hazard]. eapply store_owner_other; [|exact Ho]. rewrite Ho, Hx0. cbn. by rewrite Hb1.
  - split; [exact (proj2 (push_owner _ _ _ _ _ Ho)) | by apply push_link_field].
  - split; [by rewrite store_hazard_owner | apply store_hazard_ne; intros ->; congruence].
  - subst. eapply Forall_lookup_1 in HB; [|exact Hx]. done.
  - subst. eapply Forall_lookup_1 in HB; [|exact Hx]. done.
  - split; [by rewrite store_hazard_owner | apply store_hazard_ne; intros ->; congruence].
  - exfalso. apply (link_holder _ (safe_link _ HI)) in Hx. pose proof (safe_linked _ HI). congruence.
  - split; [|apply store_owner_hazard]. assert (i <> j) by (intros ->; congruence).
    cbn [store_owner set_cells cells]. by rewrite list_lookup_alter_ne.
Qed.

(** It also keeps its mark on a checked slot, and is not made to release it. *)
Lemma mark_step a u j d d' :
  safe_inv d -> hp_exec true true a d = Some d' -> owner_of d j = Some u -> pcs d !! u <> Some (H_released j) ->
  touches a <> Some (u, j) ->
  (j ∈ validated d -> j ∈ validated d') /\ pcs d' !! u <> Some (H_released j).
Proof.
  intros HI E Ho Hp Ht. unfold owner_of in *. hp_open E; unfold owns in *; bools; cbn [touches] in Ht; cbn;
    (split; [|rewrite ?list_lookup_insert; try case_decide; destruct_and?; simplify_eq; congruence]);
    try done; set_solver.
Qed.

Lemma hp_keeps a t h d d' :
  safe_inv d -> hp_exec true true a d = Some d' -> holder_ok t h d ->
  (forall i, held_by h i -> touches a <> Some (t, i)) -> keeps t h d d'.
Proof.
  intros HI E [Ho Hk _] Ht. split; intros i Hi.
  1, 3: by eapply cell_step; eauto.
  all: by eapply mark_step; eauto.
Qed.

(** What other threads see of a call by thread [t]. *)
Definition apart (t : nat) d d' : Prop := forall u h, u <> t -> holder_ok u h d -> keeps u h d d'.

Lemma apart_refl t d : apart t d d.
Proof. intros u h _. apply keeps_refl. Qed.

Lemma apart_trans t d1 d2 d3 : apart t d1 d2 -> apart t d2 d3 -> apart t d1 d3.
Proof.
  intros H1 H2 u h Hu Ho. pose proof (H1 u h Hu Ho) as HK.
  eapply keeps_trans; [exact HK|]. apply H2; [done|by eapply keeps_ok].
Qed.

Lemma apart_exec a t d d' :
  safe_inv d -> hp_exec true true a d = Some d' -> (forall u i, touches a = Some (u, i) -> u = t) -> apart t d d'.
Proof. intros HI E Ha u h Hu Ho. eapply hp_keeps; [done..|]. intros i _ Ht. by apply Ha in Ht. Qed.

(** A holder that has been emptied. *)
Lemma holder_sub t h h' d :
  holder_ok t h d -> (forall i, held_by h' i -> held_by h i) -> (h'.1 = None \/ h'.2 = None \/ h' = h) ->
  holder_ok t h' d.
Proof.
  intros [Ho Hk Hd] Hs Hc. split; intros i Hi; auto.
  destruct Hc as [E|[E|E]]; [congruence|congruence|subst; auto].
Qed.

(** The thread's own [protect]. *)
Lemma protect_own t i p d d' :
  hp_exec true true (Protect t i p) d = Some d' ->
  pcs d' = pcs d /\ (forall j, owner_of d' j = owner_of d j) /\ hazard_of d' i = Some p /\
  (forall j, j <> i -> hazard_of d' j = hazard_of d j /\ (j ∈ validated d -> j ∈ validated d')).
Proof.
  intros E. cbn [hp_exec] in E. open_step E. unfold owner_of, hazard_of, owns in *. bools. cbn -[store_hazard].
  split_and!; [done | intros; apply store_hazard_owner | | ].
  - destruct (cells (dom d) !! i) as [y|] eqn:Hy; [|done]. cbn [store_hazard set_cells cells].
    by rewrite (lookup_alter_at _ _ _ _ Hy).
  - intros j Hj. split; [by apply store_hazard_ne | set_solver].
Qed.

Lemma protect_ok t h i p d d' :
  hp_exec true true (Protect t i p) d = Some d' -> holder_ok t h d -> holder_ok t h d'.
Proof.
  intros (Hp & Ho & _)%protect_own [H1 H2 H3]. split; [|rewrite Hp; done|done].
  intros j Hj. rewrite Ho. auto.
Qed.

(** What the calls log. *)
Lemma hp_logs a d d' :
  hp_exec true true a d = Some d' ->
  retired d' = retired d ++ match a with Retire _ p del => [mkRetired p del] | _ => [] end /\
  ptr_ <$> deleted d' = (ptr_ <$> deleted d) ++
    match a with Step t => default [] (frees <$> pcs d !! t) | _ => [] end.
Proof. intros E. hp_open E; rewrite ?Hx; cbn; rewrite ?app_nil_r, ?fmap_app; done. Qed.

Lemma hp_lengths fence link_first a d d' :
  hp_exec fence link_first a d = Some d' ->
  length (pcs d') = length (pcs d) /\ length (tls (dom d')) = length (tls (dom d)) /\
  length (buffers d') = length (buffers d).
Proof.
  assert (forall u e, length (tls (splice u e)) = length (tls (D := deleter) e)) as Hsp.
  { intros. unfold splice. case_match; [|done]. cbn. by rewrite length_alter. }
  intros E. hp_open E; cbn; by rewrite ?length_insert, ?length_alter, ?Hsp.
Qed.
End frame.
(** ** The two machines in step *)

Section inv.
Context {T : Type} (threads : nat).
Implicit Types (c : composed T) (q : mpmc T) (d : hp_state deleter) (h : option nat * option nat) (pc : mpmc_pc T).

Abbreviation queue_reach := (reachable (mpmc_exec (T := T)) (fun q0 => q0 = MPMCQueue threads)).
Abbreviation domain_reach := (reachable (hp_exec true true) (fun d0 => d0 = hp_init threads)).

(** Where [dequeue] relies on having a holder, and on what it stored there. *)
Definition uses_head pc : bool :=
  match pc with D_head | D_protect _ | D_recheck _ => true | _ => head_checked pc end.
Definition uses_next pc : bool :=
  match pc with D_release_next _ _ _ => true | _ => uses_head pc end.
Definition head_stored pc : bool := match pc with D_recheck _ => true | _ => head_checked pc end.
Definition next_stored pc : bool := match pc with D_recheck_next _ _ _ _ => true | _ => next_checked pc end.

Definition in_step pc (sl : option nat * option nat) h d : Prop :=
  (uses_head pc = true -> is_Some h.1) /\ (uses_next pc = true -> is_Some h.2) /\
  (head_stored pc = true -> forall i, h.1 = Some i -> hazard_of d i = Some sl.1) /\
  (next_stored pc = true -> forall i, h.2 = Some i -> hazard_of d i = Some sl.2) /\
  (head_checked pc = true -> forall i, h.1 = Some i -> i ∈ validated d) /\
  (next_checked pc = true -> forall i, h.2 = Some i -> i ∈ validated d).

Record comp_inv c : Prop := {
  c_queue : queue_reach (queue c);
  c_domain : domain_reach (domain c);
  c_len : length (holders c) = threads;
  c_retired : ptr_ <$> retired (domain c) = retired_nodes (queue c);
  c_freed : freed (queue c) = list_to_set (ptr_ <$> deleted (domain c));
  c_holder : forall t h, holders c !! t = Some h -> holder_ok t h (domain c);
  c_step : forall t pc sl h, qpcs (queue c) !! t = Some pc -> slots (queue c) !! t = Some sl ->
             holders c !! t = Some h -> in_step pc sl h (domain c);
}.

Lemma in_step_keeps t pc sl h d d' : keeps t h d d' -> in_step pc sl h d -> in_step pc sl h d'.
Proof.
  intros HK (H1 & H2 & H3 & H4 & H5 & H6).
  split_and!; [done|done|..]; intros Hc i Hi;
    first [rewrite (k_hazard _ _ _ _ HK) by (by (left + right)) | apply (k_validated _ _ _ _ HK); [by (left + right)|]]; auto.
Qed.

(** A thread that goes on relying on less. *)
Lemma in_step_less pc pc' sl h d :
  in_step pc sl h d ->
  implb (uses_head pc') (uses_head pc) && implb (uses_next pc') (uses_next pc) &&
  implb (head_stored pc') (head_stored pc) && implb (next_stored pc') (next_stored pc) &&
  implb (head_checked pc') (head_checked pc) && implb (next_checked pc') (next_checked pc) = true ->
  in_step pc' sl h d.
Proof.
  rewrite !andb_true_iff, !implb_true_iff. intros (H1 & H2 & H3 & H4 & H5 & H6) (((((? & ?) & ?) & ?) & ?) & ?).
  split_and!; auto.
Qed.

(** One thread moves; the others see none of it. *)
Lemma inv_move c t h h' q' d' :
  comp_inv c -> holders c !! t = Some h -> queue_reach q' -> domain_reach d' ->
  ptr_ <$> retired d' = retired_nodes q' -> freed q' = list_to_set (ptr_ <$> deleted d') ->
  (forall u, u <> t -> qpcs q' !! u = qpcs (queue c) !! u /\ slots q' !! u = slots (queue c) !! u) ->
  apart t (domain c) d' -> holder_ok t h' d' ->
  (forall pc sl, qpcs q' !! t = Some pc -> slots q' !! t = Some sl -> in_step pc sl h' d') ->
  comp_inv (mkComposed q' d' (<[t := h']> (holders c))).
Proof.
  intros HI Ht Hq Hd Hr Hf Hoth Hap Hok Hin. split; cbn; try done.
  - rewrite length_insert. apply HI.
  - intros u hu Hu. apply list_lookup_insert_Some in Hu as [(-> & -> & _)|[Htu Hu]]; [done|].
    pose proof (c_holder _ HI _ _ Hu). by eapply keeps_ok; [|apply Hap].
  - intros u pc sl hu Hpc Hsl Hu. apply list_lookup_insert_Some in Hu as [(-> & -> & _)|[Htu Hu]]; [auto|].
    destruct (Hoth u) as [E1 E2]; [done|]. rewrite E1 in Hpc. rewrite E2 in Hsl.
    eapply in_step_keeps; [apply Hap; [done|by eapply c_holder]|by eapply c_step].
Qed.

Lemma holders_same c t h : holders c !! t = Some h -> <[t := h]> (holders c) = holders c.
Proof. apply list_insert_id. Qed.

Lemma domain_safe c : comp_inv c -> safe_inv (domain c).
Proof. intros HI. by eapply reach_safe, c_domain. Qed.

(** A call that leaves the queue and the holders alone. *)
Lemma inv_domain c t h a d' :
  comp_inv c -> holders c !! t = Some h -> hp_exec true true a (domain c) = Some d' -> touches a = None ->
  ptr_ <$> retired d' = ptr_ <$> retired (domain c) -> deleted d' = deleted (domain c) ->
  comp_inv (set_domain d' c).
Proof.
  intros HI Ht E Ha Hr Hd. pose proof (domain_safe _ HI) as HS. pose proof (c_holder _ HI _ _ Ht) as Ho.
  assert (keeps t h (domain c) d') as HK by (eapply hp_keeps; [done..|]; intros; by rewrite Ha).
  unfold set_domain. rewrite <- (holders_same _ _ _ Ht). eapply inv_move; try done.
  - apply HI.
  - eapply reach_step; [apply HI|exact E].
  - rewrite Hr. apply HI.
  - rewrite Hd. apply HI.
  - eapply apart_exec; [done..|]. intros u i. by rewrite Ha.
  - by eapply keeps_ok.
  - intros pc sl Hpc Hsl. eapply in_step_keeps; [exact HK|]. by eapply (c_step _ HI).
Qed.

Lemma hp_sized d :
  domain_reach d -> length (pcs d) = threads /\ length (tls (dom d)) = threads /\ length (buffers d) = threads.
Proof.
  revert d. apply reachable_invariant.
  - intros d ->. cbn. by rewrite !length_replicate.
  - intros d a d' (H1 & H2 & H3) (-> & -> & ->)%hp_lengths. done.
Qed.

Lemma thread_holders c t : comp_inv c -> (t < threads)%nat -> exists h, holders c !! t = Some h.
Proof. intros HI Ht. apply lookup_lt_is_Some_2. by rewrite (c_len _ HI). Qed.

Lemma domain_thread c t (pc : hp_pc deleter) : comp_inv c -> pcs (domain c) !! t = Some pc -> exists h, holders c !! t = Some h.
Proof.
  intros HI Ht. eapply thread_holders; [done|]. destruct (hp_sized _ (c_domain _ HI)) as [<- _].
  by eapply lookup_lt_Some.
Qed.

(** A node the domain has deleted or is about to delete is in no checked slot. *)
Lemma pending_not_hazardous c r :
  comp_inv c -> r ∈ deleted (domain c) ++ gather pending (pcs (domain c)) -> hazardous (ptr_ r) (queue c) = false.
Proof.
  intros HI Hr. apply not_true_iff_false. intros (u & pc & sl & Hu & Hsl & Hn)%hazardous_spec.
  destruct (thread_holders c u HI) as [h Hh].
  { destruct (reach_sized _ _ (c_queue _ HI)) as [_ <-]. by eapply lookup_lt_Some. }
  destruct (c_step _ HI _ _ _ _ Hu Hsl Hh) as (H1 & H2 & H3 & H4 & H5 & H6).
  assert (forall i a, hazard_of (domain c) i = Some (Some a) -> i ∈ validated (domain c) -> a <> ptr_ r) as Hno.
  { intros i a Hi Hv ->. destruct (safe_slots _ (domain_safe _ HI) _ Hv) as (p & Hp & Hno & _).
    unfold hazard_of in Hi. rewrite Hp in Hi. simplify_eq. by eapply Hno. }
  unfold hazards in Hn. apply elem_of_app in Hn as [Hn|Hn]; case_match eqn:Hc;
    try (by apply elem_of_nil in Hn).
  - destruct H1 as [i Hi]; [by destruct pc|]. destruct (sl.1) as [a|] eqn:Hn1; [|by apply elem_of_nil in Hn].
    apply list_elem_of_singleton in Hn. apply (Hno i a); [|by apply H5|done].
    apply H3; [by destruct pc|done].
  - destruct H2 as [i Hi]; [by destruct pc|]. destruct (sl.2) as [a|] eqn:Hn1; [|by apply elem_of_nil in Hn].
    apply list_elem_of_singleton in Hn. apply (Hno i a); [|by apply H6|done].
    apply H4; [by destruct pc|done].
Qed.

(** Deleting is the queue machine's [Reclaim]: its guard holds. *)
Lemma delete_is_reclaim c t r acc :
  comp_inv c -> pcs (domain c) !! t = Some (H_delete (r :: acc)) ->
  mpmc_exec (Reclaim (ptr_ r)) (queue c) = Some (add_freed (ptr_ r) (queue c)).
Proof.
  intros HI Ht. assert (r ∈ gather pending (pcs (domain c))) as Hr by (eapply elem_of_gather; [done|set_solver]).
  destruct (safe_ledger _ (domain_safe _ HI)) as [HP HN]. cbn.
  rewrite (pending_not_hazardous c r) by (done || set_solver). rewrite !bool_decide_true; [done|..].
  - rewrite (c_freed _ HI). intros Hf. apply elem_of_list_to_set in Hf.
    rewrite <- HP in HN. unfold accounted in HN. rewrite !fmap_app in HN.
    apply NoDup_app in HN as (_ & HN & _). eapply HN; [exact Hf|]. apply elem_of_app. left.
    apply list_elem_of_fmap. by exists r.
  - rewrite <- (c_retired _ HI). apply list_elem_of_fmap. exists r. split; [done|]. rewrite <- HP.
    unfold accounted. set_solver.
Qed.

Lemma inv_domain_step c t (pc : hp_pc deleter) d' :
  comp_inv c -> pcs (domain c) !! t = Some pc -> hp_exec true true (Step t) (domain c) = Some d' ->
  comp_inv (set_queue (foldr add_freed (queue c) (frees pc)) (set_domain d' c)).
Proof.
  intros HI Ht E. destruct (domain_thread _ _ _ HI Ht) as [h Hh].
  destruct (hp_logs _ _ _ E) as [Hr Hd]. rewrite Ht, app_nil_r in *. cbn in Hd.
  pose proof (domain_safe _ HI) as HS. pose proof (c_holder _ HI _ _ Hh) as Ho.
  assert (keeps t h (domain c) d') as HK by (eapply hp_keeps; done).
  unfold set_queue, set_domain. cbn [queue domain holders]. rewrite <- (holders_same _ _ _ Hh).
  assert (queue_reach (foldr add_freed (queue c) (frees pc))) as HQ.
  { destruct pc as [| | | | | | | | | | | |[|r acc]|]; try apply HI. eapply reach_step; [apply HI|].
    by eapply delete_is_reclaim. }
  eapply inv_move; try done.
  - eapply reach_step; [apply HI|exact E].
  - rewrite Hr. transitivity (retired_nodes (queue c)); [apply HI|]. clear. by induction (frees pc).
  - rewrite Hd, list_to_set_app_L, <- (c_freed _ HI). clear.
    induction (frees pc) as [|n l IH]; cbn; [set_solver|]. rewrite IH. set_solver.
  - clear. by induction (frees pc).
  - by eapply apart_exec.
  - by eapply keeps_ok.
  - intros pc' sl Hpc Hsl. eapply in_step_keeps; [exact HK|]. eapply (c_step _ HI); try done.
    + rewrite <- Hpc. clear. by induction (frees pc).
    + rewrite <- Hsl. clear. by induction (frees pc).
Qed.

Lemma in_step_none pc sl h d : uses_next pc = false -> in_step pc sl h d.
Proof. intros Hu. by destruct pc. Qed.

(** The slot [acquire] hands out. *)
Lemma acquire_own t found d d' :
  hp_exec true true (Acquire t found) d = Some d' ->
  owner_of d' (slot_taken found d) = Some t /\ owner_of d (slot_taken found d) = None /\
  pcs d' = pcs d /\ pcs d !! t = Some H_idle.
Proof.
  intros E. cbn [hp_exec] in E. unfold take_slot in E. open_step E; apply idle_inv in Hx; bools;
    unfold owner_of, slot_taken; cbn [set_dom dom pcs default from_option id].
  - cbn [store_owner set_cells cells]. by rewrite (lookup_alter_at _ _ _ _ Hx0), Hx0.
  - rewrite push_link. cbn. by rewrite lookup_last, lookup_ge_None_2.
Qed.

Lemma inv_hold c t h found d' h' :
  comp_inv c -> holders c !! t = Some h -> qidle t (queue c) = Some () ->
  hp_exec true true (Acquire t found) (domain c) = Some d' -> let i := slot_taken found (domain c) in
  (h = (None, None) /\ h' = (Some i, None)) \/ (exists j, h = (Some j, None) /\ h' = (Some j, Some i)) ->
  comp_inv (set_holder t h' (set_domain d' c)).
Proof.
  intros HI Hh Hq E i Hcase. pose proof (domain_safe _ HI) as HS. apply qidle_inv in Hq.
  destruct (acquire_own _ _ _ _ E) as (Ho & Hn & Hp & Hidle). fold i in Ho, Hn. clearbody i.
  destruct (hp_logs _ _ _ E) as [Hr Hd].
  rewrite app_nil_r in *. pose proof (c_holder _ HI _ _ Hh) as Hok.
  assert (keeps t h (domain c) d') as HK by (by eapply hp_keeps).
  change (comp_inv (mkComposed (queue c) d' (<[t := h']> (holders c)))).
  eapply (inv_move c t h); try done.
  - apply HI.
  - eapply reach_step; [apply HI|exact E].
  - rewrite Hr. apply HI.
  - rewrite Hd. apply HI.
  - by eapply apart_exec.
  - pose proof (ho_owner _ _ _ Hok) as Hold. pose proof (k_owner _ _ _ _ HK) as Hnew. split.
    + unfold held_by in *. destruct Hcase as [[-> ->]|(j & -> & ->)]; cbn in *;
        intros k [Hk|Hk]; simplify_eq; auto.
    + intros k _. rewrite Hp, Hidle. congruence.
    + unfold held_by in *. destruct Hcase as [[-> ->]|(j & -> & ->)]; cbn in *; intros k [= <-]; [done|].
      intros [= ->]. rewrite Hold in Hn by auto. done.
  - intros pc sl Hpc _. cbn in Hpc. rewrite Hq in Hpc. simplify_eq. by apply in_step_none.
Qed.

(** A call of the domain by thread [t], seen from outside and by [t] itself. *)
Record call t h' d d' : Prop := {
  call_reach : domain_reach d -> domain_reach d';
  call_apart : apart t d d';
  call_keeps : keeps t h' d d';
  call_retired : retired d' = retired d;
  call_deleted : ptr_ <$> deleted d' = ptr_ <$> deleted d;
}.

Lemma call_exec a t h' d d' :
  safe_inv d -> hp_exec true true a d = Some d' -> holder_ok t h' d ->
  (forall u i, touches a = Some (u, i) -> u = t /\ ~ held_by h' i) ->
  match a with Retire _ _ _ | Step _ => False | _ => True end -> call t h' d d'.
Proof.
  intros HI E Ho Ht Ha. destruct (hp_logs _ _ _ E) as [Hr Hd]. split.
  - intros Hre. by eapply reach_step.
  - eapply apart_exec; [done..|]. intros u i Hu. by apply Ht in Hu as [? _].
  - eapply hp_keeps; [done..|]. intros i Hi Hu. by apply Ht in Hu as [_ ?].
  - rewrite Hr. destruct a; rewrite ?app_nil_r; done.
  - rewrite Hd. destruct a; rewrite ?app_nil_r; done.
Qed.

Lemma call_refl t h' d : holder_ok t h' d -> call t h' d d.
Proof. intros. split; try done; [apply apart_refl | by apply keeps_refl]. Qed.

Lemma release_call t h h' slot d d' :
  safe_inv d -> release_holder true true t slot d = Some d' -> holder_ok t h d ->
  (forall i, held_by h' i -> held_by h i /\ slot <> Some i) -> h'.1 = None \/ h'.2 = None ->
  call t h' d d'.
Proof.
  intros HI E Ho Hs Hn.
  assert (holder_ok t h' d) as Ho' by (eapply holder_sub; [done|intros i Hi; by apply Hs|tauto]).
  destruct slot as [i|]; cbn in E; [|simplify_eq; by apply call_refl].
  eapply (call_exec (Release t i)); try done. intros u j [= <- <-]. split; [done|].
  intros Hj. by apply Hs in Hj as [_ ?].
Qed.

Lemma inv_drop c t h h' slot d' :
  comp_inv c -> holders c !! t = Some h -> returning t c = Some () ->
  release_holder true true t slot (domain c) = Some d' ->
  (forall i, held_by h' i -> held_by h i /\ slot <> Some i) -> h'.1 = None \/ h'.2 = None ->
  comp_inv (set_holder t h' (set_domain d' c)).
Proof.
  intros HI Hh Hret E Hs Hn. pose proof (c_holder _ HI _ _ Hh) as Ho.
  destruct (release_call _ _ _ _ _ _ (domain_safe _ HI) E Ho Hs Hn) as [H1 H2 H3 H4 H5].
  change (comp_inv (mkComposed (queue c) d' (<[t := h']> (holders c)))).
  eapply (inv_move c t h); try done.
  - apply HI.
  - apply H1, HI.
  - rewrite H4. apply HI.
  - rewrite H5. apply HI.
  - eapply keeps_ok; [|exact H3]. eapply holder_sub; [done|intros i Hi; by apply Hs|tauto].
  - intros pc sl Hpc _. cbn in Hpc. unfold returning in Hret. rewrite Hpc in Hret.
    apply in_step_none. by destruct pc.
Qed.

(** The node a step of [dequeue] retires. *)
Definition retires pc : list nat := match pc with D_retire ch _ _ => [ch] | _ => [] end.

Lemma qstep_effect t cas junk pc q q' :
  mpmc_step t cas junk pc q = Some q' ->
  (forall u, u <> t -> qpcs q' !! u = qpcs q !! u /\ slots q' !! u = slots q !! u) /\
  freed q' = freed q /\ retired_nodes q' = retired_nodes q ++ retires pc.
Proof.
  intros E. destruct pc; cbn [mpmc_step] in E; unfold load in E; open_step E; cbn; rewrite ?app_nil_r;
    (split; [intros u Hu; by rewrite ?list_lookup_insert_ne|done]).
Qed.

(** What a step of [dequeue] leaves of the domain. *)
Record moved t h' d d' (log : list nat) : Prop := {
  mv_reach : domain_reach d';
  mv_apart : apart t d d';
  mv_holder : holder_ok t h' d';
  mv_retired : ptr_ <$> retired d' = (ptr_ <$> retired d) ++ log;
  mv_deleted : ptr_ <$> deleted d' = ptr_ <$> deleted d;
}.

Lemma call_moved t h' d d' : domain_reach d -> holder_ok t h' d -> call t h' d d' -> moved t h' d d' [].
Proof.
  intros Hr Ho []. split; auto; [by eapply keeps_ok|]. rewrite app_nil_r. by f_equal.
Qed.

Lemma moved_trans t h1 h2 d1 d2 d3 : moved t h1 d1 d2 [] -> moved t h2 d2 d3 [] -> moved t h2 d1 d3 [].
Proof.
  intros [] []. split; try done; [by eapply apart_trans|..]; rewrite ?app_nil_r in *; etrans; eauto.
Qed.

Lemma protect_moved t h slot p d d' :
  domain_reach d -> holder_ok t h d -> protect_holder true true t slot p d = Some d' -> moved t h d d' [].
Proof.
  intros Hr Ho E. destruct slot as [i|]; cbn [protect_holder] in E.
  2: { simplify_eq. by apply call_moved, call_refl. }
  pose proof (reach_safe _ _ Hr) as HS. destruct (hp_logs _ _ _ E) as [H1 H2]. rewrite app_nil_r in *. split.
  - by eapply reach_step.
  - eapply apart_exec; [done..|]. by intros u j [= <- _].
  - by eapply protect_ok.
  - rewrite H1, app_nil_r. done.
  - done.
Qed.

Lemma validate_call t h slot d d' :
  safe_inv d -> holder_ok t h d -> validate_holder true true t slot d = Some d' -> call t h d d'.
Proof.
  intros HI Ho E. destruct slot as [i|]; cbn [validate_holder] in E.
  - eapply call_exec; done.
  - simplify_eq. by apply call_refl.
Qed.

Lemma on_domain_moved t junk pc q h h' d d' :
  domain_reach d -> holder_ok t h d -> on_domain true true t junk pc q h d = Some (d', h') ->
  moved t h' d d' (retires pc).
Proof.
  intros Hr Ho E. pose proof (reach_safe _ _ Hr) as HS. pose proof (call_refl _ _ _ Ho) as HC.
  assert (moved t h d d []) as Hid by (by apply call_moved).
  destruct pc; cbn [on_domain] in E; try (simplify_eq; exact Hid).
  - open_step E. by eapply protect_moved.
  - case_bool_decide; open_step E; [|done]. apply call_moved; [done..|by eapply validate_call].
  - open_step E. by eapply protect_moved.
  - destruct nx; [|by simplify_eq]. case_bool_decide; open_step E; [|done].
    apply call_moved; [done..|by eapply validate_call].
  - open_step E. pose proof (protect_moved _ _ _ _ _ _ Hr Ho Hx) as HM.
    eapply moved_trans; [exact HM|]. eapply protect_moved; [apply HM|apply HM|done].
  - destruct h as [[?|] [?|]]; by simplify_eq.
  - open_step E. assert (forall i, held_by (None, h.2) i -> held_by h i /\ h.1 <> Some i) as Hsub.
    { intros i [Hi|Hi]; [done|]. split; [by right|]. intros H1. by eapply (ho_distinct _ _ _ Ho). }
    apply call_moved; [done| |eapply release_call; try done; by left].
    eapply holder_sub; [done|intros i Hi; by apply Hsub|by left].
  - open_step E. assert (forall i, held_by (h.1, None) i -> held_by h i /\ h.2 <> Some i) as Hsub.
    { intros i [Hi|Hi]; [|done]. split; [by left|]. by eapply (ho_distinct _ _ _ Ho). }
    apply call_moved; [done| |eapply release_call; try done; by right].
    eapply holder_sub; [done|intros i Hi; by apply Hsub|by right; left].
  - apply bind_Some in E as (d2 & E & ?). simplify_eq. destruct (hp_logs _ _ _ E) as [H1 H2]. rewrite app_nil_r in H2.
    split; [by eapply reach_step | by eapply apart_exec | | |done].
    + eapply keeps_ok; [done|]. by eapply hp_keeps.
    + by rewrite H1, fmap_app.
Qed.

(** The four calls after which [dequeue] relies on more. *)
Lemma after_protect t ch i sl h d d' :
  in_step (D_protect ch) sl h d -> h.1 = Some i -> hp_exec true true (Protect t i (Some ch)) d = Some d' ->
  in_step (D_recheck ch) (Some ch, sl.2) h d'.
Proof.
  intros (H1 & H2 & _) Hi (_ & _ & Hp & _)%protect_own. split_and!; try done.
  intros _ k Hk. by simplify_eq.
Qed.

Lemma after_protect_next t ch ct nx e i sl h d d' :
  in_step (D_protect_next ch ct nx e) sl h d -> holder_ok t h d -> h.2 = Some i ->
  hp_exec true true (Protect t i nx) d = Some d' -> in_step (D_recheck_next ch ct nx e) (sl.1, nx) h d'.
Proof.
  intros (H1 & H2 & H3 & _ & H5 & _) Ho Hi (_ & _ & Hp & Hne)%protect_own.
  assert (forall k, h.1 = Some k -> k <> i) as Hki by (intros k Hk ->; by eapply (ho_distinct _ _ _ Ho)).
  split_and!; try done; intros _ k Hk.
  - destruct (Hne k) as [-> _]; [by apply Hki|]. by apply H3.
  - by simplify_eq.
  - apply Hne; [by apply Hki|]. by apply H5.
Qed.

Lemma validate_marks t i d d' : hp_exec true true (Validate t i) d = Some d' -> i ∈ validated d'.
Proof. intros E. cbn [hp_exec] in E. open_step E. cbn. set_solver. Qed.

Lemma after_validate t ch i sl h d d' :
  in_step (D_recheck ch) sl h d -> keeps t h d d' -> h.1 = Some i -> hp_exec true true (Validate t i) d = Some d' ->
  in_step (D_tail ch) sl h d'.
Proof.
  intros Hin HK Hi E. destruct (in_step_keeps _ _ _ _ _ _ HK Hin) as (H1 & H2 & H3 & _).
  split_and!; try done. intros _ k Hk. simplify_eq. by eapply validate_marks.
Qed.

Lemma after_validate_next t ch ct nx e i sl h d d' pc' :
  in_step (D_recheck_next ch ct nx e) sl h d -> keeps t h d d' -> h.2 = Some i ->
  hp_exec true true (Validate t i) d = Some d' -> head_stored pc' = head_checked pc' -> in_step pc' sl h d'.
Proof.
  intros Hin HK Hi E Hpc. destruct (in_step_keeps _ _ _ _ _ _ HK Hin) as (H1 & H2 & H3 & H4 & H5 & _).
  unfold in_step. rewrite Hpc. split_and!; auto.
  intros _ k Hk. simplify_eq. by eapply validate_marks.
Qed.

Lemma after_release t ch r v sl sl' h d d' :
  in_step (D_release ch r v) sl h d -> keeps t (None, h.2) d d' -> sl'.2 = sl.2 ->
  in_step (D_release_next ch r v) sl' (None, h.2) d'.
Proof.
  intros (_ & H2 & _ & H4 & _ & H6) HK Hsl. split_and!; cbn; try done; intros _ i Hi.
  - rewrite (k_hazard _ _ _ _ HK) by (by right). rewrite Hsl. by apply H4.
  - apply (k_validated _ _ _ _ HK); [by right|]. by apply H6.
Qed.

Lemma in_step_recheck_next t ct a e q sl h h' d d' pc' :
  safe_inv d -> holder_ok t h d -> in_step (D_recheck_next (head q) ct (Some a) e) sl h d ->
  (d ← validate_holder true true t h.2 d; Some (d, h)) = Some (d', h') ->
  head_stored pc' = head_checked pc' -> in_step pc' sl h' d'.
Proof.
  intros HS Ho Hin Ed Hpc.
  destruct (proj1 (proj2 Hin) eq_refl) as [i Hi]. apply bind_Some in Ed as (d2 & Ed & ?). simplify_eq.
  pose proof (call_keeps _ _ _ _ (validate_call _ _ _ _ _ HS Ho Ed)) as HK.
  rewrite Hi in Ed. by eapply after_validate_next.
Qed.

Lemma in_step_moved t cas junk pc q q' h h' d d' sl :
  domain_reach d -> holder_ok t h d -> qpcs q !! t = Some pc -> slots q !! t = Some sl -> in_step pc sl h d ->
  mpmc_step t cas junk pc q = Some q' -> on_domain true true t junk pc q h d = Some (d', h') ->
  forall pc' sl', qpcs q' !! t = Some pc' -> slots q' !! t = Some sl' -> in_step pc' sl' h' d'.
Proof.
  intros Hr Ho Ht Hsl Hin E Ed pc' sl' Hpc Hsl'. pose proof (reach_safe _ _ Hr) as HS.
  assert (t < length (qpcs q))%nat as Hlt by (by eapply lookup_lt_Some).
  assert (t < length (slots q))%nat as Hlt' by (by eapply lookup_lt_Some).
  destruct pc; cbn [mpmc_step] in E; unfold load in E; cbn [on_domain] in Ed; open_step E; bools; subst;
    cbn in Hpc, Hsl'; rewrite ?list_lookup_insert_eq in Hpc by done; rewrite ?list_lookup_insert_eq in Hsl' by done;
    simplify_eq; try (by apply in_step_none); try (by eapply in_step_less).
  - destruct (proj1 Hin eq_refl) as [i Hi]. rewrite Hi in Ed. cbn in Ed.
    apply bind_Some in Ed as (d2 & Ed & ?). simplify_eq. by eapply after_protect.
  - destruct (proj1 Hin eq_refl) as [i Hi].
    apply bind_Some in Ed as (d2 & Ed & ?). simplify_eq.
    pose proof (call_keeps _ _ _ _ (validate_call _ _ _ _ _ HS Ho Ed)) as HK.
    rewrite Hi in Ed. by eapply after_validate.
  - destruct (proj1 (proj2 Hin) eq_refl) as [i Hi]. rewrite Hi in Ed. cbn in Ed.
    apply bind_Some in Ed as (d2 & Ed & ?). simplify_eq. by eapply after_protect_next.
  - by eapply (in_step_recheck_next _ _ _ _ _ _ _ _ _ _ _ HS Ho Hin Ed).
  - by eapply (in_step_recheck_next _ _ _ _ _ _ _ _ _ _ _ HS Ho Hin Ed).
  - destruct nx; simplify_eq; by eapply in_step_less.
  - apply bind_Some in Ed as (d2 & Ed & ?). simplify_eq. eapply after_release; [done| |done].
    eapply call_keeps, release_call; try done; [|by left].
    intros i [Hi|Hi]; [done|]. split; [by right|]. intros H1. by eapply (ho_distinct _ _ _ Ho).
Qed.

Lemma inv_queue_step c t cas junk pc h q' res :
  comp_inv c -> holders c !! t = Some h -> qpcs (queue c) !! t = Some pc ->
  mpmc_step t cas junk pc (queue c) = Some q' -> on_domain true true t junk pc (queue c) h (domain c) = Some res ->
  comp_inv (mkComposed q' res.1 (<[t := res.2]> (holders c))).
Proof.
  intros HI Hh Ht E Ed. destruct res as [d' h']. cbn [fst snd].
  pose proof (c_holder _ HI _ _ Hh) as Ho. pose proof (c_domain _ HI) as Hr.
  destruct (on_domain_moved _ _ _ _ _ _ _ _ Hr Ho Ed) as [H1 H2 H3 H4 H5].
  destruct (qstep_effect _ _ _ _ _ _ E) as (Hoth & Hf & Hret).
  assert (exists sl, slots (queue c) !! t = Some sl) as [sl Hsl].
  { apply lookup_lt_is_Some_2. destruct (reach_sized _ _ (c_queue _ HI)) as [-> <-]. by eapply lookup_lt_Some. }
  eapply inv_move; try done.
  - eapply reach_step with (a := QStep t cas junk); [apply HI|]. cbn [mpmc_exec]. rewrite Ht. exact E.
  - rewrite H4, Hret. f_equal. apply HI.
  - rewrite H5, Hf. apply HI.
  - apply (in_step_moved t cas junk pc (queue c) q' h h' (domain c) d' sl); try done. by apply (c_step _ HI t).
Qed.

(** [enqueue] and [dequeue] are called. *)
Lemma inv_call c t h a q' pc' :
  comp_inv c -> holders c !! t = Some h -> mpmc_exec a (queue c) = Some q' ->
  qpcs q' = <[t := pc']> (qpcs (queue c)) -> slots q' = slots (queue c) ->
  freed q' = freed (queue c) -> retired_nodes q' = retired_nodes (queue c) ->
  (forall sl, in_step pc' sl h (domain c)) -> comp_inv (set_queue q' c).
Proof.
  intros HI Hh E Hq Hs Hf Hr Hin. unfold set_queue. rewrite <- (holders_same _ _ _ Hh).
  eapply inv_move; try done.
  - eapply reach_step; [apply HI|exact E].
  - apply HI.
  - rewrite Hr. apply HI.
  - rewrite Hf. apply HI.
  - intros u Hu. rewrite Hq, Hs. by rewrite list_lookup_insert_ne.
  - apply apart_refl.
  - by eapply (c_holder _ HI).
  - intros pc sl Hpc _. rewrite Hq in Hpc. apply list_lookup_insert_Some in Hpc as [(_ & <- & _)|[? _]]; done.
Qed.

Lemma outside_inv t c u :
  outside t c = Some u ->
  qidle t (queue c) = Some () /\ pcs (domain c) !! t = Some H_idle /\ holders c !! t = Some (None, None).
Proof.
  unfold outside. intros ([] & H1 & (x & H2%idle_inv & H3)%bind_Some)%bind_Some.
  split_and!; try done. destruct (holders c !! t) as [[[?|] [?|]]|]; done.
Qed.

Lemma comp_step a c c' : comp_inv c -> composed_exec true true a c = Some c' -> comp_inv c'.
Proof.
  intros HI E. destruct a as [t|t|t|t|t v|t found|t found|t|t cas junk|t|t]; cbn [composed_exec] in E.
  - apply bind_Some in E as (x & Hx%outside_inv & (d' & E & ?)%bind_Some). simplify_eq.
    destruct Hx as (_ & _ & Hh). destruct (hp_logs _ _ _ E) as [Hr _]. rewrite app_nil_r in Hr.
    eapply inv_domain; try done; [by rewrite Hr|]. cbn in E. by open_step E.
  - apply bind_Some in E as (x & Hx%outside_inv & (d' & E & ?)%bind_Some). simplify_eq.
    destruct Hx as (_ & _ & Hh). eapply inv_domain; try done; cbn in E; by open_step E.
  - apply bind_Some in E as (d' & E & ?). simplify_eq. pose proof (safe_buffers _ (domain_safe _ HI)) as HB.
    exfalso. cbn in E. open_step E. by eapply Forall_lookup_1 in HB; [|exact Hx].
  - apply bind_Some in E as (pc & Hpc & (d' & E & ?)%bind_Some). simplify_eq. by eapply inv_domain_step.
  - apply bind_Some in E as (x & (Hq & _ & Hh)%outside_inv & (q' & E & ?)%bind_Some). simplify_eq.
    pose proof E as E'. cbn in E'. rewrite Hq in E'. cbn in E'. simplify_eq.
    by eapply inv_call.
  - apply bind_Some in E as (x & (Hq & _ & Hh)%outside_inv & (d' & E & ?)%bind_Some).
    simplify_eq. eapply inv_hold; try done. by left.
  - apply bind_Some in E as ([] & Hq & (h & Hh & E)%bind_Some). destruct h as [[k|] [?|]]; try done.
    apply bind_Some in E as (d' & E & ?). simplify_eq.
    eapply inv_hold; try done. right. by exists k.
  - apply bind_Some in E as (x & _ & (h & Hh & E)%bind_Some). destruct h as [[i|] [k|]]; try done.
    apply bind_Some in E as (q' & E & ?). simplify_eq. pose proof E as E'. cbn in E'.
    apply bind_Some in E' as (y & Hy & ?). simplify_eq.
    by eapply inv_call.
  - apply bind_Some in E as (x & _ & (h & Hh & (pc & Hpc & (q' & E & (res & Ed & ?)%bind_Some)%bind_Some)%bind_Some)%bind_Some).
    simplify_eq. cbn [mpmc_exec] in E. rewrite Hpc in E. by eapply inv_queue_step.
  - apply bind_Some in E as ([] & Hret & (h & Hh & (d' & E & ?)%bind_Some)%bind_Some). simplify_eq.
    eapply inv_drop; try done; [|by right]. intros i [Hi|Hi]; [|done]. split; [by left|].
    by eapply (ho_distinct _ _ _ (c_holder _ HI _ _ Hh)).
  - apply bind_Some in E as ([] & Hret & (h & Hh & E)%bind_Some). destruct (h.2) eqn:Hh2; [done|].
    apply bind_Some in E as (d' & E & ?). simplify_eq.
    eapply inv_drop; try done; [|by left]. by intros i [Hi|Hi].
Qed.

Lemma comp_init_inv : comp_inv (composed_init threads).
Proof.
  split; cbn; try done.
  - by apply reach_init.
  - by apply reach_init.
  - apply length_replicate.
  - intros t h [-> _]%lookup_replicate. split; try done; by intros i [?|?].
  - intros t pc sl h [-> _]%lookup_replicate _ _. by apply in_step_none.
Qed.

Lemma reach_comp c : reachable (composed_exec true true) (fun c0 => c0 = composed_init threads) c -> comp_inv c.
Proof. revert c. apply reachable_invariant; [intros c ->; apply comp_init_inv | intros; by eapply comp_step]. Qed.

(** *** No call of [dequeue] is refused by the domain *)

Lemma owns_held t h i d : domain_reach d -> holder_ok t h d -> held_by h i -> owns t i d = true.
Proof.
  intros Hr Ho Hi. unfold owns. rewrite bool_decide_true by (by eapply (ho_owner _ _ _ Ho)).
  pose proof (safe_buffers _ (reach_safe _ _ Hr)) as HB. destruct (buffers d !! t) as [b|] eqn:Hb; cbn.
  - eapply Forall_lookup_1 in HB; [|exact Hb]. subst. apply bool_decide_eq_true. cbn. set_solver.
  - apply bool_decide_eq_true. set_solver.
Qed.

Lemma idle_at t d : pcs d !! t = Some H_idle -> idle t d = Some ().
Proof. unfold idle. by intros ->. Qed.

Lemma protect_enabled t h slot p d :
  domain_reach d -> pcs d !! t = Some H_idle -> holder_ok t h d -> (forall i, slot = Some i -> held_by h i) ->
  exists d', protect_holder true true t slot p d = Some d' /\ pcs d' !! t = Some H_idle /\ holder_ok t h d' /\
    domain_reach d'.
Proof.
  intros Hr Hp Ho Hs. destruct slot as [i|]; cbn [protect_holder]; [|eauto].
  assert (exists d', hp_exec true true (Protect t i p) d = Some d') as [d' E].
  { cbn. rewrite (idle_at _ _ Hp). cbn. rewrite (owns_held t h) by auto. eauto. }
  exists d'. split_and!; [done| |by eapply protect_ok|by eapply reach_step]. by destruct (protect_own _ _ _ _ _ E) as [-> _].
Qed.

Lemma release_enabled t h slot d :
  domain_reach d -> pcs d !! t = Some H_idle -> holder_ok t h d -> (forall i, slot = Some i -> held_by h i) ->
  exists d', release_holder true true t slot d = Some d'.
Proof.
  intros Hr Hp Ho Hs. destruct slot as [i|]; cbn [release_holder]; [|eauto]. cbn.
  rewrite (idle_at _ _ Hp). cbn. rewrite (owns_held t h) by auto. eauto.
Qed.

Lemma validate_enabled t h slot p d :
  domain_reach d -> pcs d !! t = Some H_idle -> holder_ok t h d -> (forall i, slot = Some i -> held_by h i) ->
  (forall i, slot = Some i -> hazard_of d i = Some (Some p)) -> p ∉ ptr_ <$> retired d ->
  exists d', validate_holder true true t slot d = Some d'.
Proof.
  intros Hr Hp Ho Hs Hh Hn. destruct slot as [i|]; cbn [validate_holder]; [|eauto]. cbn.
  rewrite (idle_at _ _ Hp). cbn. specialize (Hh i eq_refl). unfold hazard_of in Hh.
  rewrite (seen_fenced t i d) by (by eapply safe_buffers, reach_safe).
  destruct (cells (dom d) !! i) as [x|]; [|done]. cbn in *. simplify_eq. rewrite Hh. cbn.
  rewrite (owns_held t h) by auto. rewrite bool_decide_true by done. cbn. eauto.
Qed.

Lemma on_domain_enabled c t junk pc h :
  comp_inv c -> pcs (domain c) !! t = Some H_idle -> qpcs (queue c) !! t = Some pc -> holders c !! t = Some h ->
  (forall e, pc = D_return_false e -> h = (None, None)) ->
  exists res, on_domain true true t junk pc (queue c) h (domain c) = Some res.
Proof.
  intros HI Hp Hpc Hh Hret. pose proof (c_holder _ HI _ _ Hh) as Ho. pose proof (c_domain _ HI) as Hr.
  pose proof (reach_inv _ _ (c_queue _ HI)) as HQ. pose proof (q_pc _ HQ _ _ Hpc) as Hok.
  assert (forall i, h.1 = Some i -> held_by h i) as Hl by (intros; by left).
  assert (forall i, h.2 = Some i -> held_by h i) as Hr2 by (intros; by right).
  destruct (lookup_lt_is_Some_2 (slots (queue c)) t) as [sl Hsl].
  { destruct (reach_sized _ _ (c_queue _ HI)) as [-> <-]. by eapply lookup_lt_Some. }
  destruct (c_step _ HI _ _ _ _ Hpc Hsl Hh) as (_ & _ & H3 & H4 & _).
  assert (forall a k, pos (queue c) a k -> (popped (queue c) <= k)%nat -> a ∉ ptr_ <$> retired (domain c)) as Hlive.
  { intros a k. rewrite (c_retired _ HI). by apply not_retired. }
  destruct pc; cbn [on_domain]; try by eauto.
  - destruct (protect_enabled t h h.1 (Some ch) _ Hr Hp Ho Hl) as (d' & -> & _). cbn. eauto.
  - case_bool_decide; [|eauto]. destruct Hok as (k & Hk & _ & Hhd). subst ch. unfold holds_head in Hhd.
    rewrite Hsl in Hhd. cbn in Hhd.
    destruct (validate_enabled t h h.1 (head (queue c)) _ Hr Hp Ho Hl) as (d' & ->); [| |cbn; eauto].
    + intros i Hi. rewrite H3 by done. congruence.
    + eapply Hlive; [apply HQ|lia].
  - destruct (protect_enabled t h h.2 nx _ Hr Hp Ho Hr2) as (d' & -> & _). cbn. eauto.
  - destruct nx as [a|]; [|eauto]. case_bool_decide; [|eauto].
    destruct Hok as (k & j & (Hk & _) & _ & _ & _ & Ha & _ & Hn). subst ch. unfold holds_next in Hn.
    rewrite Hsl in Hn. cbn in Hn. pose proof (pos_inj _ _ _ _ HQ Hk (q_head _ HQ)) as ->.
    destruct (validate_enabled t h h.2 a _ Hr Hp Ho Hr2) as (d' & ->); [| |cbn; eauto].
    + intros i Hi. rewrite H4 by done. congruence.
    + eapply Hlive; [by apply Ha|lia].
  - destruct (protect_enabled t h h.1 junk.1 _ Hr Hp Ho Hl) as (d' & -> & Hp' & Ho' & Hr'). cbn [mbind option_bind].
    destruct (protect_enabled t h h.2 junk.2 _ Hr' Hp' Ho' Hr2) as (d2 & -> & _). cbn. eauto.
  - rewrite (Hret _ eq_refl). eauto.
  - destruct (release_enabled t h h.1 _ Hr Hp Ho Hl) as (d' & ->). cbn. eauto.
  - destruct (release_enabled t h h.2 _ Hr Hp Ho Hr2) as (d' & ->). cbn. eauto.
  - cbn. rewrite (idle_at _ _ Hp). cbn.
    destruct (lookup_lt_is_Some_2 (tls (dom (domain c))) t) as [tl ->].
    { destruct (hp_sized _ Hr) as (H1 & -> & _). rewrite <- H1. by eapply lookup_lt_Some. }
    cbn. rewrite bool_decide_true; [cbn; eauto|]. rewrite (c_retired _ HI). intros Hc.
    apply retired_nodup, NoDup_app in HQ as (_ & HD & _). eapply HD; [exact Hc|].
    eapply elem_of_gather; [exact Hpc|]. set_solver.
Qed.

Lemma step_enabled c t cas junk pc h q :
  comp_inv c -> pcs (domain c) !! t = Some H_idle -> qpcs (queue c) !! t = Some pc -> holders c !! t = Some h ->
  (forall e, pc = D_return_false e -> h = (None, None)) -> mpmc_exec (QStep t cas junk) (queue c) = Some q ->
  exists c', composed_exec true true (C_step t cas junk) c = Some c' /\ queue c' = q.
Proof.
  intros HI Hp Hpc Hh Hret E. destruct (on_domain_enabled c t junk pc h HI Hp Hpc Hh Hret) as [res Hres].
  eexists. cbn [composed_exec]. rewrite (idle_at _ _ Hp), Hh, Hpc. cbn [mbind option_bind].
  rewrite E. cbn [mbind option_bind]. rewrite Hres. split; reflexivity.
Qed.

Lemma drop_enabled c t e h :
  comp_inv c -> pcs (domain c) !! t = Some H_idle -> qpcs (queue c) !! t = Some (D_return_false e) ->
  holders c !! t = Some h ->
  exists a c', (a = C_drop_next t \/ a = C_drop_head t) /\ composed_exec true true a c = Some c' /\ queue c' = queue c.
Proof.
  intros HI Hp Hpc Hh. pose proof (c_holder _ HI _ _ Hh) as Ho.
  destruct (h.2) as [k|] eqn:Hk.
  - destruct (release_enabled t h h.2 _ (c_domain _ HI) Hp Ho) as [d' Hd]; [intros; by right|].
    exists (C_drop_next t). eexists. split; [by left|]. cbn [composed_exec]. unfold returning.
    rewrite Hpc. cbn [mbind option_bind]. rewrite Hh. cbn [mbind option_bind]. rewrite Hd. split; reflexivity.
  - destruct (release_enabled t h h.1 _ (c_domain _ HI) Hp Ho) as [d' Hd]; [intros; by left|].
    exists (C_drop_head t). eexists. split; [by right|]. cbn [composed_exec]. unfold returning.
    rewrite Hpc. cbn [mbind option_bind]. rewrite Hh. cbn [mbind option_bind]. rewrite Hk, Hd. split; reflexivity.
Qed.
End inv.

(** ** Either order of the last two stores of [acquire] *)

Section calm.
Context {T : Type}.
Implicit Types (c : composed T) (d : hp_state deleter) (h : option nat * option nat).

(** Without the steps of a scan that read the [next_] of a slot its maker has
    not linked yet. *)
Definition composed_gap (a : composed_act T) c : bool :=
  match a with C_domain t => gap (Step t) (domain c) | _ => false end.
Definition calm_composed (fence link_first : bool) (a : composed_act T) c : option (composed T) :=
  if composed_gap a c then None else composed_exec fence link_first a c.

Definition complete_composed c : composed T := mkComposed (queue c) (complete (domain c)) (holders c).

(** *** The domain makes calm steps only *)

(** A call of the domain. *)
Definition calls (fence link_first : bool) d d' : Prop := exists tr, run (calm_exec fence link_first) tr d = Some d'.

Lemma calls_refl fence lf d : calls fence lf d d.
Proof. by exists []. Qed.

Lemma calls_trans fence lf d1 d2 d3 : calls fence lf d1 d2 -> calls fence lf d2 d3 -> calls fence lf d1 d3.
Proof. intros [tr1 H1] [tr2 H2]. exists (tr1 ++ tr2). by rewrite run_app, H1. Qed.

Lemma calls_exec fence lf a d d' : hp_exec fence lf a d = Some d' -> gap a d = false -> calls fence lf d d'.
Proof. intros E Hg. exists [a]. cbn. unfold calm_exec. by rewrite Hg, E. Qed.

Lemma holder_calls fence lf t slot p d d' :
  protect_holder fence lf t slot p d = Some d' \/ release_holder fence lf t slot d = Some d' \/
  validate_holder fence lf t slot d = Some d' -> calls fence lf d d'.
Proof.
  unfold protect_holder, release_holder, validate_holder. destruct slot as [i|].
  - intros [E|[E|E]]; by eapply calls_exec.
  - intros [E|[E|E]]; simplify_eq; apply calls_refl.
Qed.

Lemma on_domain_calls fence lf t junk pc (q : mpmc T) h d res :
  on_domain fence lf t junk pc q h d = Some res -> calls fence lf d res.1.
Proof.
  intros E. destruct pc; cbn [on_domain] in E; open_step E; try apply calls_refl; cbn [fst];
    try (by eapply calls_exec); try (eapply holder_calls; by eauto).
  eapply calls_trans; eapply holder_calls; by eauto.
  Unshelve. all: exact None.
Qed.

Lemma composed_calls fence lf a c c' :
  calm_composed fence lf a c = Some c' -> calls fence lf (domain c) (domain c').
Proof.
  unfold calm_composed. destruct (composed_gap a c) eqn:Hg; [done|]. intros E.
  destruct a; cbn [composed_exec] in E; open_step E; try apply calls_refl; cbn [domain set_domain set_holder set_queue];
    try (by eapply calls_exec); try (eapply holder_calls; by eauto).
  by eapply on_domain_calls.
  Unshelve. all: exact None.
Qed.

(** *** Completing the pending link *)

Definition is_step (a : hp_act deleter) : bool := match a with Step _ => true | _ => false end.

Lemma exec_complete fence a d d' :
  link_inv d -> hp_exec fence false a d = Some d' -> is_step a = false ->
  hp_exec fence true a (complete d) = Some (complete d').
Proof.
  intros HI E Ha. destruct (complete_step fence a d d' HI) as [[(t & i & o & -> & _) _]|E']; try done.
  unfold calm_exec. by destruct a.
Qed.

Lemma protect_complete fence t slot p d d' :
  link_inv d -> protect_holder fence false t slot p d = Some d' ->
  protect_holder fence true t slot p (complete d) = Some (complete d') /\ link_inv d'.
Proof.
  intros HI. destruct slot as [i|]; [|by intros [= <-]]. intros E.
  split; [by apply (exec_complete fence (Protect t i p)) | exact (link_step fence false (Protect t i p) d d' HI E)].
Qed.

Lemma release_complete fence t slot d d' :
  link_inv d -> release_holder fence false t slot d = Some d' ->
  release_holder fence true t slot (complete d) = Some (complete d').
Proof. intros HI. destruct slot as [i|]; intros E; [by apply (exec_complete fence (Release t i))|by injection E as <-]. Qed.

Lemma validate_complete fence t slot d d' :
  link_inv d -> validate_holder fence false t slot d = Some d' ->
  validate_holder fence true t slot (complete d) = Some (complete d').
Proof. intros HI. destruct slot as [i|]; intros E; [by apply (exec_complete fence (Validate t i))|by injection E as <-]. Qed.

Lemma on_domain_complete fence t junk pc (q : mpmc T) h d res :
  link_inv d -> on_domain fence false t junk pc q h d = Some res ->
  on_domain fence true t junk pc q h (complete d) = Some (complete res.1, res.2).
Proof.
  intros HI E.
  destruct pc; cbn [on_domain] in E |- *; open_step E; try done; cbn [fst snd];
    repeat match goal with
    | H : protect_holder _ false _ _ _ d = Some _ |- _ =>
        apply protect_complete in H as [-> ?]; [|done]; cbn [mbind option_bind]
    | H : protect_holder _ false _ _ _ _ = Some _ |- _ =>
        apply protect_complete in H as [-> ?]; [|done]; cbn [mbind option_bind]
    | H : release_holder _ false _ _ d = Some _ |- _ => rewrite (release_complete _ _ _ _ _ HI H); cbn [mbind option_bind]
    | H : validate_holder _ false _ _ d = Some _ |- _ => rewrite (validate_complete _ _ _ _ _ HI H); cbn [mbind option_bind]
    end; try done.
  by rewrite (exec_complete _ _ _ _ HI Hx eq_refl).
Qed.

Lemma idle_complete t d u : idle t d = Some u -> idle t (complete d) = Some ().
Proof. intros Hi%idle_inv. by apply complete_idle. Qed.

Lemma outside_complete t c u : outside t c = Some u -> outside t (complete_composed c) = Some ().
Proof.
  unfold outside. cbn. intros ([] & -> & ([] & Hi & Hh)%bind_Some)%bind_Some. cbn.
  rewrite (idle_complete _ _ _ Hi). cbn. by destruct (holders c !! t) as [[[?|] [?|]]|].
Qed.

Lemma taken_complete found d : slot_taken found (complete d) = slot_taken found d.
Proof.
  destruct found; [done|]. unfold slot_taken. cbn. rewrite fin_cells.
  destruct (link_of d) as [[i o]|]; [by rewrite length_alter|done].
Qed.

Lemma frees_unlink (pc : hp_pc deleter) : frees (unlink pc) = frees pc.
Proof. by destruct pc. Qed.

Lemma composed_complete fence a c c' :
  link_inv (domain c) -> calm_composed fence false a c = Some c' ->
  complete_composed c' = complete_composed c \/
  composed_exec fence true a (complete_composed c) = Some (complete_composed c').
Proof.
  intros HI. unfold calm_composed. destruct (composed_gap a c) eqn:Hg; [done|]. intros E.
  destruct a; cbn [composed_exec] in E |- *; open_step E; cbn [complete_composed queue domain holders].
  all: repeat match goal with
    | H : outside _ _ = Some _ |- _ => apply outside_complete in H; rewrite H; clear H
    | H : idle _ _ = Some _ |- _ => apply idle_complete in H; rewrite H; clear H
    | H : returning ?u ?e = Some ?v |- _ => change (returning u (complete_composed e) = Some v) in H; rewrite H; clear H
    | H : release_holder _ false _ _ _ = Some _ |- _ => rewrite (release_complete _ _ _ _ _ HI H); clear H
    | H : on_domain _ false _ _ _ _ _ _ = Some _ |- _ => rewrite (on_domain_complete _ _ _ _ _ _ _ _ HI H); clear H
    | H : hp_exec _ false ?a _ = Some _ |- _ =>
        lazymatch a with Step _ => fail | _ => idtac end; rewrite (exec_complete _ _ _ _ HI H eq_refl); clear H
    | H : ?x = Some _ |- context [?x] => rewrite H; clear H
    | H : ?x = None |- context [?x] => rewrite H; clear H
    | _ => progress cbn [mbind option_bind]
    end; rewrite ?taken_complete; try (by right).
  destruct (complete_step fence (Step t) (domain c) x0 HI) as [[(u & i & o & [= <-] & Ht) Hs]|E'].
  - unfold calm_exec. cbn [composed_gap] in Hg. by rewrite Hg.
  - left. rewrite Hx in Ht. injection Ht as ->. cbn. unfold complete_composed. cbn. by rewrite Hs.
  - right. cbn [complete pcs]. rewrite list_lookup_fmap, Hx. cbn [fmap option_fmap option_map mbind option_bind].
    rewrite E', frees_unlink. done.
Qed.
End calm.

(** ** Theorems *)

Section theorems.
Context {T : Type} (threads : nat).
Implicit Types (c : composed T).

Abbreviation calm_reachable link_first :=
  (reachable (calm_composed true link_first) (fun c0 => c0 = composed_init threads)).

Lemma calm_domain link_first c :
  calm_reachable link_first c -> reachable (calm_exec true link_first) (fun d => d = hp_init threads) (domain c).
Proof.
  revert c. apply reachable_invariant; [intros c ->; by apply reach_init|]. intros c a c' Hr E.
  destruct (composed_calls _ _ _ _ _ E) as [tr Htr]. by eapply run_reachable.
Qed.

(** The state that links first: the invariant holds of it, whatever the order. *)
Definition linked_first (link_first : bool) c : composed T := if link_first then c else complete_composed c.

Lemma calm_comp link_first c : calm_reachable link_first c -> comp_inv threads (linked_first link_first c).
Proof.
  intros Hr. apply reach_comp. induction Hr as [c ->|c a c' Hr IH E].
  - apply reach_init. destruct link_first; [done|]. unfold linked_first, complete_composed, composed_init. cbn.
    unfold complete, hp_init. cbn. by rewrite fmap_replicate.
  - destruct link_first; cbn [linked_first] in *.
    + eapply reach_step; [exact IH|]. unfold calm_composed in E. by destruct (composed_gap a c).
    + destruct (base_inv _ _ _ _ (calm_reach _ _ _ _ (calm_domain _ _ Hr))) as [HK _].
      destruct (composed_complete _ _ _ _ HK E) as [->|E']; [exact IH|]. by eapply reach_step.
Qed.

Lemma linked_first_same link_first c :
  queue (linked_first link_first c) = queue c /\
  retired (domain (linked_first link_first c)) = retired (domain c) /\
  deleted (domain (linked_first link_first c)) = deleted (domain c).
Proof. by destruct link_first. Qed.

(** [C8] The queue on the domain is the queue of MpmcQueue.v over the domain of
    HazardPointer.v, under two conditions that the code does not ensure: when the store of [protect] is visible before the check
    that follows it, every reachable state of the two together projects to a
    reachable state of each.  In particular a deleter only ever frees a node
    that the queue machine allows to be freed, so everything proved of the queue
    holds on the domain under these conditions.  With the code's order of the two last stores of
    [acquire] this is for executions in which no scan reads the [next_] of a slot
    that is not linked yet; with the other order there are no such reads.  Without
    either condition the conclusion is false ([dequeue_use_after_free]). *)
Theorem queue_domain_refines link_first c :
  reachable (calm_composed true link_first) (fun c0 => c0 = composed_init threads) c ->
  reachable mpmc_exec (fun q => q = MPMCQueue threads) (queue c) /\
  reachable (calm_exec true link_first) (fun d => d = hp_init threads) (domain c).
Proof.
  intros Hr. split; [|by apply calm_domain].
  destruct (linked_first_same link_first c) as [<- _]. apply (c_queue _ _ (calm_comp _ _ Hr)).
Qed.

(** [C18] Every node the queue has given up is in exactly one place: deleted,
    picked by a scan, waiting in the global or a local list, or still in the
    hands of the [dequeue] that removed it; no [dequeue] reads a deleted node
    and no node of the queue, its dummy included, is deleted.  As for the refinement,
    this is for executions in which the store of [protect] is visible before the check
    that follows it and no scan reads the [next_] of a slot that is not linked yet; the
    code ensures neither. *)
Theorem nodes_conserved link_first c :
  reachable (calm_composed true link_first) (fun c0 => c0 = composed_init threads) c ->
  (ptr_ <$> deleted (domain c) ++ gather pending (pcs (domain c)) ++ retired_all (dom (domain c))) ++
    gather in_hand (qpcs (queue c)) ≡ₚ take (popped (queue c)) (linked (queue c)) /\
  (forall t, qpcs (queue c) !! t <> Some D_uaf) /\
  (forall r, r ∈ deleted (domain c) -> ptr_ r ∉ drop (popped (queue c)) (linked (queue c))).
Proof.
  intros Hr. pose proof (calm_comp _ _ Hr) as HI. destruct (linked_first_same link_first c) as (Hq & Hret & Hd).
  pose proof (c_queue _ _ HI) as HQ. rewrite Hq in HQ. apply reach_inv in HQ.
  pose proof (c_retired _ _ HI) as HR. pose proof (c_freed _ _ HI) as HF. rewrite Hq in HR, HF. rewrite Hret in HR.
  rewrite Hd in HF. split_and!.
  - rewrite <- (q_retired _ HQ), <- HR. f_equiv.
    destruct (base_inv _ _ _ _ (calm_reach _ _ _ _ (calm_domain _ _ Hr))) as (_ & _ & [HP _]). by rewrite <- HP.
  - intros t Ht. by apply (q_pc _ HQ) in Ht.
  - intros r Hr' Ha. apply list_elem_of_lookup in Ha as [k Hk]. rewrite lookup_drop in Hk.
    eapply (live _ _ _ HQ Hk); [lia|]. rewrite HF. apply elem_of_list_to_set, list_elem_of_fmap. eauto.
Qed.

(** The domain never refuses a call of the queue: whatever the others
    have done, the step a thread of [enqueue] or [dequeue] is about to make can
    be made together with the domain's part of it (the slot is the thread's own,
    the checked node is not retired, the node to retire was not retired before;
    slots are linked first and stores visible in time), or, at the return of an unsuccessful [dequeue], a holder can be released. *)
Lemma calls_not_refused c t cas junk q :
  reachable (composed_exec true true) (fun c0 => c0 = composed_init threads) c ->
  pcs (domain c) !! t = Some H_idle -> mpmc_exec (QStep t cas junk) (queue c) = Some q ->
  exists a c', composed_exec true true a c = Some c' /\
    ((a = C_step t cas junk /\ queue c' = q) \/
     ((a = C_drop_next t \/ a = C_drop_head t) /\ queue c' = queue c /\
      exists e, qpcs (queue c) !! t = Some (D_return_false e))).
Proof.
  intros HI%reach_comp Hp E. destruct (domain_thread _ _ _ _ HI Hp) as [h Hh].
  pose proof E as E'. cbn [mpmc_exec] in E'. apply bind_Some in E' as (pc & Hpc & _).
  assert ((forall e, pc = D_return_false e -> h = (None, None)) \/
          (exists e, pc = D_return_false e) /\ h <> (None, None)) as [Hret|[[e ->] Hne]].
  { destruct pc; try (left; by intros). destruct h as [[?|] [?|]]; eauto; by right; eauto. }
  - destruct (step_enabled _ _ _ _ _ _ _ _ HI Hp Hpc Hh Hret E) as (c' & Hc & Hq). eauto 10.
  - destruct (drop_enabled _ _ _ _ _ HI Hp Hpc Hh) as (a & c' & Ha & Hc & Hq). exists a, c'. eauto 10.
Qed.
End theorems.

(** ** Traces *)

Module DomainTraces.

Definition go (t : nat) : composed_act nat := C_step t true (None, None).
Definition start : composed nat := composed_init 3.

(** The holders of [dequeue], in new slots; in the code's order [acquire] makes
    its last store in a step of its own. *)
Definition hold (link_first : bool) (t : nat) : list (composed_act nat) :=
  let link := if link_first then [] else [C_domain t] in
  C_hold_head t None :: link ++ C_hold_next t None :: link ++ [C_dequeue t].

(** Thread 1 enqueues a value; thread 0 stops in [dequeue] after its first check. *)
Definition victim (link_first : bool) : list (composed_act nat) :=
  [C_register 1; C_enqueue 1 10%nat] ++ replicate 5 (go 1) ++ hold link_first 0 ++ replicate 4 (go 0).
(** Thread 1 dequeues up to the release of its holders, *)
Definition remove (link_first : bool) : list (composed_act nat) := hold link_first 1 ++ replicate 9 (go 1).
(** releases them, retires the old dummy node and scans. *)
Definition retire_and_scan (steps : nat) : list (composed_act nat) :=
  [go 1; C_domain 1; go 1; C_domain 1; go 1; C_domain 1; C_scan 1] ++ replicate steps (C_domain 1).

(** With the code as it is the promise is broken, for two reasons: the
    store of [protect] may become visible after the check that follows it; and
    even if it does not, a scan may run while a third thread, between the two
    last stores of [acquire], has made its new slot the head of the list but not
    linked the others behind it.  Either way a [dequeue] reads a node that
    another thread has removed, retired, found in no slot and deleted. *)
Lemma dequeue_use_after_free :
  (exists c, run (composed_exec false false)
      (victim false ++ remove false ++ retire_and_scan 12 ++ [go 0]) start = Some c /\
    qpcs (queue c) !! 0%nat = Some D_uaf /\ ptr_ <$> deleted (domain c) = [0%nat]) /\
  (exists c, run (composed_exec true false)
      (victim false ++ remove false ++ [C_hold_head 2 None] ++ retire_and_scan 9 ++ [go 0]) start = Some c /\
    qpcs (queue c) !! 0%nat = Some D_uaf /\ ptr_ <$> deleted (domain c) = [0%nat]).
Proof. split; (eexists; split; [vm_compute; reflexivity|]; split; vm_compute; reflexivity). Qed.

(** The same calls with the store visible in time and nobody in [acquire]: the
    scan keeps the node. *)
Definition fenced (link_first : bool) : list (composed_act nat) :=
  victim link_first ++ remove link_first ++ retire_and_scan 10.
Definition calm_after : composed nat := default start (run (calm_composed true false) (fenced false) start).
Definition after : composed nat := default start (run (composed_exec true true) (fenced true) start).

Lemma queue_domain_refines_witness :
  reachable mpmc_exec (fun q => q = MPMCQueue 3) (queue calm_after) /\
  reachable (calm_exec true false) (fun d => d = hp_init 3) (domain calm_after).
Proof. apply (queue_domain_refines 3 false), default_reachable; [done | vm_compute; reflexivity]. Defined.

Lemma nodes_conserved_witness :
  global_retired_ (dom (domain calm_after)) = [mkRetired 0%nat delete_node] /\
  forall t, qpcs (queue calm_after) !! t <> Some D_uaf.
Proof.
  split; [vm_compute; reflexivity|].
  apply (nodes_conserved 3 false), default_reachable; [done | vm_compute; reflexivity].
Defined.

Lemma calls_not_refused_witness :
  exists a c', composed_exec true true a after = Some c' /\
    ((a = go 0 /\ qpcs (queue c') !! 0%nat = Some (D_protect_next 0 1 (Some 1%nat) true)) \/
     ((a = C_drop_next 0 \/ a = C_drop_head 0) /\ queue c' = queue after)).
Proof.
  destruct (calls_not_refused 3 after 0 true (None, None)
    (default (MPMCQueue 3) (mpmc_exec (QStep 0 true (None, None)) (queue after))))
    as (a & c' & H1 & [[-> H2]|(H2 & H3 & _)]).
  - apply default_reachable; [done | vm_compute; reflexivity].
  - vm_compute. reflexivity.
  - vm_compute. reflexivity.
  - exists (go 0), c'. split; [exact H1|]. left. rewrite H2. split; vm_compute; reflexivity.
  - exists a, c'. exact (conj H1 (or_intror (conj H2 H3))).
Defined.
End DomainTraces.
