(* ===== verification/GrpcClient.v ===== *)
(** * The gRPC client (src/src/common/include/grpc_client.hpp, src/grpc_client.cpp)

    Every asynchronous call is a heap-allocated tag.  An operation started on the
    completion queue with a tag comes back once, with a flag [ok], and the thread
    in [CompleteRpc] then calls [Proceed(ok)] on the tag, which starts the next
    operation or fulfils a promise and deletes the tag.  The loop of that thread
    and the statements of the destructor are steps that interleave.

    Tags live at addresses (indices of [tags]; [None] after [delete]).  gRPC
    itself is outside: what it does to a tag's fields when an operation completes
    is the argument [completion] of the event, and what the model takes from its
    documentation is that an operation started with a tag is delivered once, that
    one started without a tag is never delivered, and that [Finish] may be called
    once per call.  What the caller's callback sees of a task whose members were
    moved away is the parameter [moved_from]. *)

From S2P Require Import Prelude Json Task Convert.
#[local] Open Scope string_scope.
#[local] Open Scope Z_scope.

Inductive StatusCode := sc_OK | sc_CANCELLED | sc_INTERNAL | sc_UNAVAILABLE | sc_other (n : Z).

#[export] Instance StatusCode_eq_dec : EqDecision StatusCode.
Proof. solve_decision. Defined.

Record Status := mkStatus { error_code : StatusCode; error_message : string }.
Definition Status_OK : Status := mkStatus sc_OK "".
Definition status_ok (st : Status) : bool := bool_decide (error_code st = sc_OK).

(** Exceptions that leave a client call. *)
Inductive client_exn :=
| json_error (e : json_exn)
| GrpcError (st : Status)
| future_error.

Inductive unary_step := kLaunch | kFinish.
Inductive listen_step := lStart | lRead | lFinish | lDone.
Inductive rpc_op := OpStart | OpRead | OpFinish.
(** Where the thread in [CompleteRpc] stands. *)
Inductive loop_pc :=
| L_check                 (* 25: shutdown_.load() *)
| L_next                  (* 26: cq_.AsyncNext *)
| L_exit.                 (* returned *)

#[export] Instance rpc_op_eq_dec : EqDecision rpc_op.
Proof. solve_decision. Defined.

Section client.
Context {J PS PV : Type} `{JsonLib J} `{StructLib PS PV}.
Context (stack : nat) (moved_from : Task J -> Task J).

Inductive async_tag :=
| AsyncSubmitTag (step_ : unary_step) (status : Status) (response : option (PbTask PS))
    (promise : nat) (callback : bool)
| AsyncCancelTag (step_ : unary_step) (status : Status) (success : bool) (promise : nat)
| AsyncQueryTag (step_ : unary_step) (status : Status) (response : option (PbTask PS)) (promise : nat)
| AsyncListenTag (step_ : listen_step) (status : Status) (response : option (PbTask PS)) (callback : bool).

Inductive future :=
| Pending
| ReadyTask (t : Task J)
| ReadyBool (b : bool)
| Failed (st : Status).

Record client := mkClient {
  stub_ : bool;                                   (* not null *)
  tags : list (option async_tag);
  outstanding : list (nat * rpc_op);              (* operations on cq_ with their tags *)
  finished : list nat;                            (* calls on which Finish was called *)
  promises : list future;
  callbacks : list (nat * Task J * Status);       (* history: calls of the callback of a tag *)
  shutdown_ : bool;
  cq_down : bool;                                 (* cq_.Shutdown() was called *)
  cq_thread : loop_pc;
}.
Implicit Types (s : client).

Definition set_tags x s := mkClient (stub_ s) x (outstanding s) (finished s) (promises s) (callbacks s) (shutdown_ s) (cq_down s) (cq_thread s).
Definition set_outstanding x s := mkClient (stub_ s) (tags s) x (finished s) (promises s) (callbacks s) (shutdown_ s) (cq_down s) (cq_thread s).
Definition set_finished x s := mkClient (stub_ s) (tags s) (outstanding s) x (promises s) (callbacks s) (shutdown_ s) (cq_down s) (cq_thread s).
Definition set_promises x s := mkClient (stub_ s) (tags s) (outstanding s) (finished s) x (callbacks s) (shutdown_ s) (cq_down s) (cq_thread s).
Definition set_callbacks x s := mkClient (stub_ s) (tags s) (outstanding s) (finished s) (promises s) x (shutdown_ s) (cq_down s) (cq_thread s).
Definition set_shutdown x s := mkClient (stub_ s) (tags s) (outstanding s) (finished s) (promises s) (callbacks s) x (cq_down s) (cq_thread s).
Definition set_down x s := mkClient (stub_ s) (tags s) (outstanding s) (finished s) (promises s) (callbacks s) (shutdown_ s) x (cq_thread s).
Definition set_thread x s := mkClient (stub_ s) (tags s) (outstanding s) (finished s) (promises s) (callbacks s) (shutdown_ s) (cq_down s) x.

Definition set_tag (a : nat) (t : async_tag) s := set_tags (<[a := Some t]> (tags s)) s.
Definition delete_tag (a : nat) s := set_tags (<[a := None]> (tags s)) s.

(** [if (callback) callback(task, status)] *)
Definition call_back (cb : bool) (a : nat) (t : Task J) (st : Status) s : client :=
  if cb then set_callbacks (callbacks s ++ [(a, t, st)])%list s else s.

(** An operation started with a tag on a completion queue: not allowed after
    [cq_.Shutdown()]. *)
Definition start_op (a : nat) (op : rpc_op) s : outcome client_exn client :=
  if cq_down s then Undef "operation on a queue that is shut down"
  else Ret (set_outstanding (outstanding s ++ [(a, op)])%list s).

(** [reader->Read(..., this)] and [reader->Finish(..., this)] *)
Definition reader_read (a : nat) s : outcome client_exn client := start_op a OpRead s.
Definition reader_finish (a : nat) s : outcome client_exn client :=
  if bool_decide (a ∈ finished s) then Undef "Finish called twice"
  else start_op a OpFinish (set_finished (finished s ++ [a])%list s).

(** [promise.set_value], [promise.set_exception] *)
Definition set_promise (p : nat) (f : future) s : outcome client_exn client :=
  match promises s !! p with
  | Some Pending => Ret (set_promises (<[p := f]> (promises s)) s)
  | Some _ => Throw future_error
  | None => Undef "no such promise"
  end.

(** The default instance behind an unset message field. *)
Definition PbTask_default : PbTask PS :=
  mkPbTask "" "" 0 0 "" struct_empty (mkResource (S754_zero false) 0) (mkShard 0 0) 0 0 0 0 0 0 struct_empty "".
Definition task_of (response : option (PbTask PS)) : PbTask PS := default PbTask_default response.

Definition from_proto (l : loc) (p : PbTask PS) : outcome client_exn (Task J) :=
  match TaskFromProto stack l p with
  | Ret t => Ret t
  | Throw e => Throw (json_error e)
  | Undef w => Undef w
  end.
Definition to_proto (t : Task J) : outcome client_exn (PbTask PS) :=
  match TaskToProto stack t with
  | Ret p => Ret p
  | Throw e => Throw (json_error e)
  | Undef w => Undef w
  end.

(** ** [ProceedImpl] of each tag; [l] is the flag of a task that is built *)

(** [AsyncSubmitTag::SetResult]: the callback gets the moved-from task. *)
Definition submit_SetResult (l : loc) (a : nat) (status : Status) (response : option (PbTask PS))
    (promise : nat) (callback : bool) s : outcome client_exn client :=
  if status_ok status then
    task ← from_proto l (task_of response);
    s ← set_promise promise (ReadyTask task) s;
    Ret (call_back callback a (moved_from task) status s)
  else
    s ← set_promise promise (Failed status) s;
    Ret (call_back callback a (Task_default l) status s).

Definition submit_ProceedImpl (l : loc) (a : nat) (ok : bool) (step_ : unary_step) (status : Status)
    (response : option (PbTask PS)) (promise : nat) (callback : bool) s : outcome client_exn client :=
  match step_ with
  | kLaunch =>
      let status := if negb ok then mkStatus sc_INTERNAL "StartCall failed" else status in
      reader_finish a (set_tag a (AsyncSubmitTag kFinish status response promise callback) s)
  | kFinish =>
      let status := if negb ok then mkStatus sc_INTERNAL "Finish cq !ok" else status in
      s ← submit_SetResult l a status response promise callback s;
      Ret (delete_tag a s)
  end.

Definition cancel_ProceedImpl (a : nat) (ok : bool) (step_ : unary_step) (status : Status)
    (success : bool) (promise : nat) s : outcome client_exn client :=
  match step_, ok with
  | kLaunch, true => reader_finish a (set_tag a (AsyncCancelTag kFinish status success promise) s)
  | _, _ =>
      let status := match step_, ok with kLaunch, false => mkStatus sc_INTERNAL "cq !ok" | _, _ => status end in
      s ← set_promise promise (ReadyBool (status_ok status && success)) s;
      Ret (delete_tag a s)
  end.

(** [AsyncQueryTag::SetResult] *)
Definition query_SetResult (l : loc) (status : Status) (response : option (PbTask PS)) (promise : nat) s
    : outcome client_exn client :=
  if status_ok status then
    task ← from_proto l (task_of response);
    set_promise promise (ReadyTask task) s
  else set_promise promise (Failed status) s.

Definition query_ProceedImpl (l : loc) (a : nat) (ok : bool) (step_ : unary_step) (status : Status)
    (response : option (PbTask PS)) (promise : nat) s : outcome client_exn client :=
  match step_, ok with
  | kLaunch, true => reader_finish a (set_tag a (AsyncQueryTag kFinish status response promise) s)
  | _, _ =>
      let status := match step_, ok with kLaunch, false => mkStatus sc_INTERNAL "cq !ok" | _, _ => status end in
      s ← query_SetResult l status response promise s;
      Ret (delete_tag a s)
  end.

Definition TransitionToFinish (a : nat) (code : StatusCode) (status : Status)
    (response : option (PbTask PS)) (callback : bool) s : outcome client_exn client :=
  let status := if bool_decide (code <> sc_OK) then mkStatus code "stream aborted" else status in
  reader_finish a (set_tag a (AsyncListenTag lFinish status response callback) s).

Definition listen_ProceedImpl (l : loc) (a : nat) (ok : bool) (step_ : listen_step) (status : Status)
    (response : option (PbTask PS)) (callback : bool) s : outcome client_exn client :=
  match step_ with
  | lStart =>
      if negb ok then TransitionToFinish a sc_CANCELLED status response callback s
      else reader_read a (set_tag a (AsyncListenTag lRead status response callback) s)
  | lRead =>
      if negb ok then TransitionToFinish a sc_CANCELLED status response callback s
      else match response with
           | Some p =>
               task ← from_proto l p;
               let s := call_back callback a task Status_OK s in
               reader_read a (set_tag a (AsyncListenTag lRead status None callback) s)
           | None => TransitionToFinish a sc_OK status response callback s
           end
  | lFinish =>
      let s := if negb (status_ok status) then call_back callback a (Task_default l) status s else s in
      Ret (delete_tag a s)
  | lDone => Undef "GPR_ASSERT(false)"
  end.

(** [IAsyncTag::Proceed] *)
Definition Proceed (l : loc) (a : nat) (ok : bool) s : outcome client_exn client :=
  match tags s !! a with
  | Some (Some (AsyncSubmitTag st status resp p cb)) => submit_ProceedImpl l a ok st status resp p cb s
  | Some (Some (AsyncCancelTag st status succ p)) => cancel_ProceedImpl a ok st status succ p s
  | Some (Some (AsyncQueryTag st status resp p)) => query_ProceedImpl l a ok st status resp p s
  | Some (Some (AsyncListenTag st status resp cb)) => listen_ProceedImpl l a ok st status resp cb s
  | _ => Undef "tag used after delete"
  end.

(** ** Completions *)

Record completion := mkCompletion {
  c_ok : bool;
  c_status : Status;                     (* written by Finish *)
  c_response : option (PbTask PS);       (* written by Read and Finish *)
  c_success : bool;
}.

(** gRPC writes the fields it was given pointers to. *)
Definition fill (op : rpc_op) (c : completion) (t : async_tag) : async_tag :=
  if negb (c_ok c) then t else
  match op, t with
  | OpFinish, AsyncSubmitTag st _ _ p cb => AsyncSubmitTag st (c_status c) (c_response c) p cb
  | OpFinish, AsyncCancelTag st _ _ p => AsyncCancelTag st (c_status c) (c_success c) p
  | OpFinish, AsyncQueryTag st _ _ p => AsyncQueryTag st (c_status c) (c_response c) p
  | OpFinish, AsyncListenTag st _ resp cb => AsyncListenTag st (c_status c) resp cb
  | OpRead, AsyncListenTag st status _ cb => AsyncListenTag st status (c_response c) cb
  | _, _ => t
  end.

(** What [AsyncNext] reports. *)
Inductive NextStatus :=
| GOT_EVENT (k : nat) (c : completion)          (* the [k]-th outstanding operation *)
| SHUTDOWN                                      (* shut down and drained *)
| TIMEOUT.

(** The loop of [CompleteRpc], lines 25 and 26 to 38. *)
Definition CompleteRpc_check s : option client :=
  match cq_thread s with
  | L_check => Some (set_thread (if shutdown_ s then L_exit else L_next) s)
  | _ => None
  end.

Definition CompleteRpc (next : NextStatus) (l : loc) s : option (outcome client_exn client) :=
  match cq_thread s, next with
  | L_next, GOT_EVENT k c =>
      ev ← outstanding s !! k;
      let s := set_outstanding (delete k (outstanding s)) (set_thread L_check s) in
      let s := set_tags (alter (option_map (fill ev.2 c)) ev.1 (tags s)) s in
      Some (Proceed l ev.1 (c_ok c) s)
  | L_next, SHUTDOWN =>
      if cq_down s && bool_decide (outstanding s = []) then Some (Ret (set_thread L_exit s)) else None
  | L_next, TIMEOUT => Some (Ret (set_thread L_check s))
  | _, _ => None
  end.

(** ** The public operations *)

Definition submit_task_async (l : loc) (task : Task J) (cb : bool) s : outcome client_exn (client * nat) :=
  let p := length (promises s) in
  if negb (stub_ s) then
    let s := set_promises (promises s ++ [Failed (mkStatus sc_UNAVAILABLE
      "stub_ is null (channel create failed or moved)")])%list s in
    Ret (call_back cb (length (tags s)) (Task_default l) (mkStatus sc_UNAVAILABLE "stub_ null") s, p)
  else
    let s := set_promises (promises s ++ [Pending])%list s in
    let s := set_tags (tags s ++ [Some (AsyncSubmitTag kLaunch Status_OK None p cb)])%list s in
    _ ← to_proto task;
    (* StartCall() has no tag: nothing is outstanding for it *)
    Ret (s, p).

(** [rpc] is the blocking call of the stub. *)
Definition submit_task_sync (rpc : PbTask PS -> Status * option (PbTask PS)) (l : loc) (task : Task J) s
    : outcome client_exn (Task J) :=
  if negb (stub_ s) then
    Throw (GrpcError (mkStatus sc_UNAVAILABLE "channel not created / connection refused"))
  else
    p ← to_proto task;
    let '(st, resp) := rpc p in
    if negb (status_ok st) then Throw (GrpcError st)
    else from_proto l (task_of resp).

(** A [unique_ptr] to a tag: [release] empties it. *)
Definition unique_ptr : Type := option nat.
Definition release (p : unique_ptr) : unique_ptr * unique_ptr := (p, None).
Definition deref (p : unique_ptr) : outcome client_exn nat :=
  match p with Some a => Ret a | None => Undef "null unique_ptr dereferenced" end.

(** The common part of [cancel_task_async] and [query_status_async]: start the
    call, start Finish with the released tag, read the promise through [tag]. *)
Definition start_unary (mk : nat -> async_tag) s : outcome client_exn (client * nat) :=
  let p := length (promises s) in
  let a := length (tags s) in
  let s := set_promises (promises s ++ [Pending])%list s in
  let s := set_tags (tags s ++ [Some (mk p)])%list s in
  let tag : unique_ptr := Some a in
  if negb (stub_ s) then Undef "null stub_"
  else
    let '(raw, tag) := release tag in
    b ← deref raw;
    s ← reader_finish b s;
    _ ← deref tag;
    Ret (s, p).

Definition cancel_task_async (task_id : string) s : outcome client_exn (client * nat) :=
  start_unary (AsyncCancelTag kLaunch Status_OK false) s.
Definition query_status_async (task_id : string) s : outcome client_exn (client * nat) :=
  start_unary (AsyncQueryTag kLaunch Status_OK None) s.

(** [.get()] on a future: it blocks ([None]) until the promise is set, then
    gives the value or rethrows.  A [future<bool>] holds a bool, a
    [future<Task>] a task. *)
Definition get_bool (p : nat) s : outcome client_exn (option bool) :=
  match promises s !! p with
  | Some Pending => Ret None
  | Some (ReadyBool b) => Ret (Some b)
  | Some (Failed st) => Throw (GrpcError st)
  | _ => Undef "no such future"
  end.
Definition get_task (p : nat) s : outcome client_exn (option (Task J)) :=
  match promises s !! p with
  | Some Pending => Ret None
  | Some (ReadyTask t) => Ret (Some t)
  | Some (Failed st) => Throw (GrpcError st)
  | _ => Undef "no such future"
  end.

Definition cancel_task (task_id : string) s : outcome client_exn (option bool) :=
  r ← cancel_task_async task_id s; get_bool r.2 r.1.
Definition query_status (task_id : string) s : outcome client_exn (option (Task J)) :=
  r ← query_status_async task_id s; get_task r.2 r.1.

Definition listen_results (client_id : string) (cb : bool) s : outcome client_exn client :=
  let a := length (tags s) in
  let s := set_tags (tags s ++ [Some (AsyncListenTag lStart Status_OK None cb)])%list s in
  if negb (stub_ s) then Undef "null stub_"
  else start_op a OpStart s.

(** The constructor starts the thread. *)
Definition GrpcClient_new (stub_ok : bool) : client := mkClient stub_ok [] [] [] [] [] false false L_check.

(** The destructor, statement by statement. *)
Definition destroy_flag s : client := set_shutdown true s.
Definition destroy_queue s : option client := if shutdown_ s then Some (set_down true s) else None.
Definition destroy_joined s : bool := match cq_thread s with L_exit => cq_down s | _ => false end.

Inductive client_act :=
| Submit (l : loc) (task : Task J) (cb : bool)
| Listen (client_id : string) (cb : bool)
| Poll
| Complete (next : NextStatus) (l : loc)
| Destroy
| DestroyQueue.

(** The owner makes no call once it has begun to destroy the client. *)
Definition client_exec (a : client_act) s : option client :=
  match a with
  | Submit l task cb =>
      if shutdown_ s then None else
      match submit_task_async l task cb s with Ret (s', _) => Some s' | _ => None end
  | Listen cid cb =>
      if shutdown_ s then None else
      match listen_results cid cb s with Ret s' => Some s' | _ => None end
  | Poll => CompleteRpc_check s
  | Complete next l => r ← CompleteRpc next l s; match r with Ret s' => Some s' | _ => None end
  | Destroy => Some (destroy_flag s)
  | DestroyQueue => destroy_queue s
  end.
End client.

(** ** Invariant of the event loop *)

Section client_inv.
Context {J PS PV : Type} `{JsonLib J} `{StructLib PS PV}.
Context (stub : bool) (stack : nat) (moved_from : Task J -> Task J).
Implicit Types (s : client (J:=J) (PS:=PS)) (t : async_tag (PS:=PS)).

(** The operation a tag waits for. *)
Definition tag_op t : option rpc_op :=
  match t with
  | AsyncListenTag lStart _ _ _ => Some OpStart
  | AsyncListenTag lRead _ _ _ => Some OpRead
  | AsyncListenTag lFinish _ _ _ => Some OpFinish
  | _ => None
  end.
Definition next_ops (a : nat) (X : option async_tag) : list (nat * rpc_op) :=
  match X ≫= tag_op with Some op => [(a, op)] | None => [] end.

Definition finish_state (X : option (option (async_tag (PS:=PS)))) : bool :=
  match X with Some None | Some (Some (AsyncListenTag lFinish _ _ _)) => true | _ => false end.

Record client_inv s : Prop := {
  ci_out : forall a op, (a, op) ∈ outstanding s -> exists t, tags s !! a = Some (Some t) /\ tag_op t = Some op;
  ci_nodup : NoDup (outstanding s).*1;
  ci_live : forall a t op, tags s !! a = Some (Some t) -> tag_op t = Some op -> (a, op) ∈ outstanding s;
  ci_kind : forall a t, tags s !! a = Some (Some t) ->
    match t with
    | AsyncSubmitTag kLaunch _ _ _ _ | AsyncListenTag (lStart | lRead | lFinish) _ _ _ => True
    | _ => False
    end;
  ci_fin : forall a, a ∈ finished s <-> finish_state (tags s !! a) = true;
  ci_once : NoDup (finished s);
  ci_stub : stub_ s = stub;
  ci_down : cq_down s = true -> shutdown_ s = true;
  ci_pending : stub = true -> forall p f, promises s !! p = Some f -> f = Pending;
}.

Lemma out_unique s k a op a' op' :
  client_inv s -> outstanding s !! k = Some (a, op) -> (a', op') ∈ delete k (outstanding s) -> a' <> a.
Proof.
  intros HI Hk Hin ->. pose proof (ci_nodup _ HI) as HN.
  rewrite (delete_Permutation _ _ _ Hk) in HN. cbn in HN. apply NoDup_cons in HN as [Hno _]. apply Hno.
  apply list_elem_of_fmap. by exists (a, op').
Qed.

(** What the handlers of a listening tag leave alone. *)
Definition frame s := (promises s, stub_ s, shutdown_ s, cq_down s).

(** A tag whose operation came back is replaced or deleted. *)
Lemma inv_replace s s' k a op X :
  client_inv s -> outstanding s !! k = Some (a, op) ->
  tags s' = <[a := X]> (tags s) -> outstanding s' = (delete k (outstanding s) ++ next_ops a X)%list ->
  frame s' = frame s ->
  match X with
  | Some (AsyncListenTag lRead _ _ _) => op <> OpFinish /\ finished s' = finished s
  | Some (AsyncListenTag lFinish _ _ _) => op <> OpFinish /\ finished s' = (finished s ++ [a])%list
  | None => op = OpFinish /\ finished s' = finished s
  | _ => False
  end -> client_inv s'.
Proof.
  intros HI Hk HT HO HF HX. injection HF as HP HS HD HQ.
  assert (exists t, tags s !! a = Some (Some t) /\ tag_op t = Some op) as (t0 & Ht0 & Hop0).
  { apply (ci_out _ HI). by eapply list_elem_of_lookup_2. }
  assert (a < length (tags s))%nat as Hlt by (by eapply lookup_lt_Some).
  assert (op <> OpFinish -> a ∉ finished s) as Hnf.
  { intros Hop Ha. apply (ci_fin _ HI) in Ha. rewrite Ht0 in Ha. cbn in Ha.
    destruct t0 as [| | |[]]; simplify_eq/=. }
  split; rewrite ?HT, ?HO, ?HP, ?HS, ?HD, ?HQ.
  - intros b op' [Hin|Hin]%elem_of_app.
    + pose proof (out_unique _ _ _ _ _ _ HI Hk Hin). rewrite list_lookup_insert_ne by congruence.
      apply (ci_out _ HI). rewrite (delete_Permutation _ _ _ Hk). set_solver.
    + unfold next_ops in Hin. destruct X as [t|]; cbn in Hin; [|set_solver].
      destruct (tag_op t) eqn:Et; [|set_solver]. apply list_elem_of_singleton in Hin. simplify_eq.
      exists t. by rewrite list_lookup_insert_eq.
  - rewrite fmap_app. apply NoDup_app. split_and!.
    + pose proof (ci_nodup _ HI) as HN. rewrite (delete_Permutation _ _ _ Hk) in HN.
      by apply NoDup_cons in HN as [_ ?].
    + intros b ([b' op'] & -> & Hin)%list_elem_of_fmap Hb. cbn in Hb.
      pose proof (out_unique _ _ _ _ _ _ HI Hk Hin). unfold next_ops in Hb.
      destruct (X ≫= tag_op); set_solver.
    + unfold next_ops. destruct (X ≫= tag_op); [apply NoDup_singleton|constructor].
  - intros b t op' Hb Hop. apply elem_of_app. apply list_lookup_insert_Some in Hb as [(<- & -> & _)|[Hab Hb]].
    + right. unfold next_ops. cbn. rewrite Hop. set_solver.
    + left. pose proof (ci_live _ HI _ _ _ Hb Hop) as Hin. rewrite (delete_Permutation _ _ _ Hk) in Hin. set_solver.
  - intros b t Hb. apply list_lookup_insert_Some in Hb as [(<- & -> & _)|[Hab Hb]].
    + by destruct t as [| | |[]].
    + by apply (ci_kind _ HI b).
  - intros b. rewrite list_lookup_insert. case_decide as Hb.
    + destruct Hb as [<- _]. destruct X as [[| | |[]]|]; try done; destruct HX as [Hop ->]; cbn.
      * split; [intros Hin; by destruct (Hnf Hop) | done].
      * set_solver.
      * split; [done|]. intros _. apply (ci_fin _ HI). rewrite Ht0. by destruct t0 as [| | |[]]; simplify_eq/=.
    + assert (b <> a) by (intros ->; by apply Hb). rewrite <- (ci_fin _ HI b).
      destruct X as [[| | |[]]|]; try done; destruct HX as [Hop ->]; set_solver.
  - destruct X as [[| | |[]]|]; try done; destruct HX as [Hop ->]; try apply HI.
    apply NoDup_app. split_and!; [apply HI | set_solver | apply NoDup_singleton].
  - apply HI.
  - apply HI.
  - apply HI.
Qed.

(** gRPC's writes leave the step of a listening tag alone. *)
Lemma fill_listen op (c : completion (PS:=PS)) st status resp cb :
  exists status' resp', fill op c (AsyncListenTag st status resp cb) = AsyncListenTag st status' resp' cb.
Proof. unfold fill. destruct (c_ok c), op; cbn; eauto. Qed.

Lemma call_back_frame cb a (tk : Task J) st s :
  tags (call_back cb a tk st s) = tags s /\ outstanding (call_back cb a tk st s) = outstanding s /\
  finished (call_back cb a tk st s) = finished s /\ frame (call_back cb a tk st s) = frame s.
Proof. by destruct cb. Qed.

(** The state [Proceed] starts from. *)
Definition delivered k a op c s : client :=
  set_tags (alter (option_map (fill op c)) a (tags s)) (set_outstanding (delete k (outstanding s)) (set_thread L_check s)).

Lemma delivered_tags k a op c t s X :
  tags s !! a = Some (Some t) -> <[a := X]> (tags (delivered k a op c s)) = <[a := X]> (tags s).
Proof. intros Ht. cbn. by rewrite (alter_insert_at _ _ _ _ Ht), list_insert_insert_eq. Qed.

(** What a completion leads to. *)
Definition proceeds l s (r : outcome client_exn client) : Prop :=
  match r with
  | Ret s' => client_inv s'
  | Throw e => exists p, from_proto (J:=J) (PS:=PS) stack l p = Throw e
  | Undef w => (exists p, from_proto (J:=J) (PS:=PS) stack l p = Undef w) \/
      (w = "operation on a queue that is shut down" /\ cq_down s = true)
  end.

(** Starting the next operation of a tag, with the queue open or shut down. *)
Lemma start_proceeds l a op s s1 :
  frame s1 = frame s ->
  (cq_down s = false -> client_inv (set_outstanding (outstanding s1 ++ [(a, op)])%list s1)) ->
  proceeds l s (start_op a op s1).
Proof.
  intros HF HI. injection HF as _ _ _ HQ. unfold start_op. rewrite HQ.
  destruct (cq_down s) eqn:E; cbn; [by right|]. by apply HI.
Qed.

Lemma finish_proceeds l k a op c t s code status resp cb :
  client_inv s -> outstanding s !! k = Some (a, op) -> tags s !! a = Some (Some t) -> tag_op t = Some op ->
  op <> OpFinish -> proceeds l s (TransitionToFinish a code status resp cb (delivered k a op c s)).
Proof.
  intros HI Hk Ht Hop Hne. unfold TransitionToFinish, reader_finish.
  set (st' := if bool_decide (code <> sc_OK) then _ else _). cbn [finished set_tag set_tags delivered].
  rewrite bool_decide_false.
  - apply start_proceeds; [done|]. intros _.
    eapply (inv_replace s _ k a op (Some (AsyncListenTag lFinish st' resp cb))); [exact HI|exact Hk| |reflexivity|done|done].
    by eapply delivered_tags.
  - intros Ha. apply (ci_fin _ HI) in Ha. rewrite Ht in Ha. by destruct t as [| | |[]]; simplify_eq/=.
Qed.

Lemma complete_proceeds l k a op c s :
  client_inv s -> outstanding s !! k = Some (a, op) ->
  proceeds l s (Proceed stack moved_from l a (c_ok c) (delivered k a op c s)).
Proof.
  intros HI Hk.
  destruct (ci_out _ HI a op) as (t & Ht & Hop); [by eapply list_elem_of_lookup_2|].
  destruct t as [| | |step status resp cb]; simplify_eq/=.
  destruct (fill_listen op c step status resp cb) as (status' & resp' & Hfill).
  unfold Proceed. cbn [tags delivered set_tags]. rewrite (lookup_alter_at _ _ _ _ Ht). cbn [option_map]. rewrite Hfill.
  destruct step; simplify_eq/=; unfold listen_ProceedImpl.
  - destruct (c_ok c); cbn [negb]; [|by eapply finish_proceeds].
    apply start_proceeds; [done|]. intros _.
    eapply (inv_replace s _ k a OpStart (Some (AsyncListenTag lRead status' resp' cb)));
      [exact HI|exact Hk| |reflexivity|done|done].
    by eapply delivered_tags.
  - destruct (c_ok c); cbn [negb]; [|by eapply finish_proceeds].
    destruct resp' as [p|]; [|by eapply finish_proceeds].
    destruct (from_proto stack l p) as [task|e|w] eqn:Ep; cbn [mbind outcome_bind];
      [|by exists p|by left; exists p].
    destruct (call_back_frame cb a task Status_OK (delivered k a OpRead c s)) as (E1 & E2 & E3 & E4).
    apply start_proceeds; [exact E4|]. intros _.
    eapply (inv_replace s _ k a OpRead (Some (AsyncListenTag lRead status' None cb))); [done..| | | |].
    + cbn. rewrite E1. by eapply delivered_tags.
    + cbn. by rewrite E2.
    + exact E4.
    + cbn. by rewrite E3.
  - cbn. set (s1 := if negb _ then _ else _).
    assert (tags s1 = tags (delivered k a OpFinish c s) /\ outstanding s1 = delete k (outstanding s) /\
      finished s1 = finished s /\ frame s1 = frame s) as (E1 & E2 & E3 & E4).
    { unfold s1. case_match; [|done].
      by destruct (call_back_frame cb a (Task_default l) status' (delivered k a OpFinish c s)) as (-> & -> & -> & ->). }
    eapply (inv_replace s _ k a OpFinish None); [done..| | | |]; cbn; rewrite ?E1, ?E2, ?E3; try done.
    + by eapply delivered_tags.
    + by rewrite app_nil_r.
Qed.

(** New tags. *)
Lemma inv_new s s' t :
  client_inv s -> tags s' = (tags s ++ [Some t])%list ->
  outstanding s' = (outstanding s ++ next_ops (length (tags s)) (Some t))%list ->
  finished s' = finished s ->
  match t with AsyncSubmitTag kLaunch _ _ _ _ | AsyncListenTag (lStart | lRead) _ _ _ => True | _ => False end ->
  stub_ s' = stub_ s -> cq_down s' = false ->
  (stub = true -> forall p f, promises s' !! p = Some f -> f = Pending) -> client_inv s'.
Proof.
  intros HI HT HO HF Hk HS HD HP.
  assert (forall a op, (a, op) ∈ outstanding s -> (a < length (tags s))%nat) as Hlt.
  { intros a op Hin. destruct (ci_out _ HI _ _ Hin) as (t' & Ht' & _). by eapply lookup_lt_Some. }
  split; rewrite ?HT, ?HO, ?HF; try done.
  - intros a op [Hin|Hin]%elem_of_app.
    + destruct (ci_out _ HI _ _ Hin) as (t' & Ht' & ?). exists t'. split; [by apply lookup_app_l_Some|done].
    + unfold next_ops in Hin. cbn in Hin. destruct (tag_op t) eqn:Et; [|set_solver].
      apply list_elem_of_singleton in Hin. simplify_eq. exists t.
      by rewrite lookup_app_r, Nat.sub_diag by lia.
  - rewrite fmap_app. apply NoDup_app. split_and!; [apply HI| |].
    + intros b ([b' op'] & -> & Hin)%list_elem_of_fmap Hb. cbn in Hb. pose proof (Hlt _ _ Hin).
      unfold next_ops in Hb. cbn in Hb. destruct (tag_op t); [|set_solver].
      cbn in Hb. apply list_elem_of_singleton in Hb. lia.
    + unfold next_ops. destruct (Some t ≫= tag_op); [apply NoDup_singleton|constructor].
  - intros a t' op Ha Hop. apply elem_of_app. apply lookup_app_Some in Ha as [Ha|[Hle Ha]].
    + left. by eapply (ci_live _ HI).
    + right. apply list_lookup_singleton_Some in Ha as [Ha [= <-]]. unfold next_ops. cbn. rewrite Hop.
      assert (a = length (tags s)) as -> by lia. set_solver.
  - intros a t' Ha. apply lookup_app_Some in Ha as [Ha|[Hle Ha]]; [by apply (ci_kind _ HI a)|].
    apply list_lookup_singleton_Some in Ha as [Ha [= <-]]. by destruct t as [[]| | |[]].
  - intros a. rewrite (ci_fin _ HI). destruct (decide (a < length (tags s))%nat).
    + by rewrite lookup_app_l by done.
    + rewrite lookup_ge_None_2 by lia. split; [done|]. rewrite lookup_app_r by lia.
      destruct (a - length (tags s))%nat; cbn; [|done]. by destruct t as [[]| | |[]].
  - apply HI.
  - rewrite HS. apply HI.
  - by rewrite HD.
Qed.
End client_inv.

Section client_theorems.
Context {J PS PV : Type} `{JsonLib J} `{StructLib PS PV}.
Context (stub : bool) (stack : nat) (moved_from : Task J -> Task J).
Implicit Types (s : client (J:=J) (PS:=PS)).

Abbreviation exec := (client_exec (J:=J) (PS:=PS) stack moved_from).
Abbreviation reach := (reachable exec (fun s0 => s0 = GrpcClient_new stub)).

Lemma pending_app (l : list (future (J:=J))) :
  (forall p f, l !! p = Some f -> f = Pending) -> forall p f, (l ++ [Pending])%list !! p = Some f -> f = Pending.
Proof.
  intros Hl p f Hp. apply lookup_app_Some in Hp as [Hp|[_ Hp]]; [by eauto|].
  by apply list_lookup_singleton_Some in Hp as [_ <-].
Qed.

Lemma inv_thread x s : client_inv stub s -> client_inv stub (set_thread x s).
Proof. intros []. by split. Qed.

Lemma still_open s : client_inv stub s -> shutdown_ s = false -> cq_down s = false.
Proof.
  intros HI Hd. destruct (cq_down s) eqn:E; [|done]. apply (ci_down _ _ HI) in E. congruence.
Qed.

Lemma inv_submit l task cb s s' p :
  client_inv stub s -> shutdown_ s = false -> submit_task_async stack l task cb s = Ret (s', p) -> client_inv stub s'.
Proof.
  intros HI Hd E. unfold submit_task_async in E. destruct (stub_ s) eqn:Hs; cbn [negb] in E.
  - destruct (to_proto stack task); cbn in E; [|done..]. simplify_eq.
    eapply (inv_new stub s _ (AsyncSubmitTag kLaunch Status_OK None (length (promises s)) cb));
      [done|done|cbn; by rewrite app_nil_r|done|done|done|by apply (still_open s)|].
    intros _. apply pending_app. apply (ci_pending _ _ HI). rewrite <- (ci_stub _ _ HI). done.
  - simplify_eq. pose proof (ci_stub _ _ HI) as Hst. rewrite Hs in Hst. subst. destruct HI.
    split; destruct cb; cbn; done.
Qed.

Lemma inv_listen cid cb s s' :
  client_inv stub s -> listen_results cid cb s = Ret s' -> client_inv stub s'.
Proof.
  intros HI E. unfold listen_results, start_op in E. cbn in E.
  destruct (stub_ s) eqn:Hs, (cq_down s) eqn:Hd; cbn in E; simplify_eq.
  eapply (inv_new stub s _ (AsyncListenTag lStart Status_OK None cb)); [done|done|done|done|done|by cbn|done|]. apply HI.
Qed.

Lemma client_step a s s' : client_inv stub s -> exec a s = Some s' -> client_inv stub s'.
Proof.
  intros HI E. destruct a as [l task cb|cid cb| |next l| |]; cbn [client_exec] in E.
  - destruct (shutdown_ s) eqn:Hd; [done|].
    destruct (submit_task_async _ _ _ _ _) as [[s1 p]| |] eqn:Es; simplify_eq. by eapply inv_submit.
  - destruct (shutdown_ s); [done|]. destruct (listen_results _ _ _) eqn:Es; simplify_eq. by eapply inv_listen.
  - unfold CompleteRpc_check in E. destruct (cq_thread s); simplify_eq. by apply inv_thread.
  - apply bind_Some in E as (r & Er & E). unfold CompleteRpc in Er. destruct (cq_thread s), next; try done.
    + apply bind_Some in Er as ([a op] & Hk & Er). injection Er as <-.
      pose proof (complete_proceeds stub stack moved_from l k a op c s HI Hk) as HP.
      unfold delivered in HP. cbn in HP, E |- *. destruct (Proceed _ _ _ _ _ _); simplify_eq. done.
    + destruct (cq_down s && _); simplify_eq. by apply inv_thread.
    + simplify_eq. by apply inv_thread.
  - simplify_eq. destruct HI. by split.
  - unfold destroy_queue in E. destruct (shutdown_ s) eqn:Hd; simplify_eq. destruct HI. by split.
Qed.

Lemma reach_client s : reach s -> client_inv stub s.
Proof.
  revert s. apply reachable_invariant; [|intros; by eapply client_step].
  intros s ->. split; cbn; try set_solver; by constructor.
Qed.


(** A task submitted asynchronously never gets an answer: the call is
    started without a tag, so no completion ever reaches it, and in every
    reachable state of a client with a channel each such future is still
    pending. *)
Lemma submit_async_never_ready s p f :
  stub = true -> reachable (client_exec stack moved_from) (fun s0 => s0 = GrpcClient_new stub) s ->
  promises s !! p = Some f -> f = Pending.
Proof. intros Hs HI%reach_client. by apply (ci_pending _ _ HI). Qed.

(** The completions of a stream, each with the check of [shutdown_] before it. *)
Definition read_ok (resp : option (PbTask PS)) : completion := mkCompletion true Status_OK resp false.
Definition round (c : completion) (l : loc) : list (client_act (J:=J) (PS:=PS)) :=
  [Poll; Complete (GOT_EVENT 0 c) l].











(** The join of the destructor returns: once [shutdown_] is set and the queue
    shut down, the thread leaves its loop after at most two rounds, whatever is
    still outstanding. *)
Lemma destructor_joins s :
  shutdown_ s = true -> cq_down s = true ->
  exists tr s', (length tr <= 2)%nat /\ run exec tr s = Some s' /\ destroy_joined s' = true /\
    outstanding s' = outstanding s /\ tags s' = tags s.
Proof.
  intros Hd Hq. destruct (cq_thread s) eqn:Ht.
  - exists [Poll], (set_thread L_exit s). split_and!; [cbn; lia| |done..].
    cbn. unfold CompleteRpc_check. by rewrite Ht, Hd.
  - exists [Complete TIMEOUT 1%positive; Poll], (set_thread L_exit s). split_and!; [cbn; lia| |done..].
    cbn [run client_exec]. unfold CompleteRpc. rewrite Ht. cbn. unfold CompleteRpc_check. cbn. by rewrite Hd.
  - exists [], s. unfold destroy_joined. rewrite Ht. split_and!; done || cbn; lia.
Qed.

(** [cancel_task_async] and [query_status_async] cannot return: both read
    the promise through the [unique_ptr] they have just released; and were the
    future taken earlier, the completion of the [Finish] they started would call
    [Finish] a second time, because the tag still stands at its first step. *)
Lemma unary_calls_undefined task_id s :
  stub_ s = true -> cq_down s = false -> (forall a, a ∈ finished s -> (a < length (tags s))%nat) ->
  cancel_task_async task_id s = Undef "null unique_ptr dereferenced" /\
  query_status_async task_id s = Undef "null unique_ptr dereferenced" /\
  cancel_task task_id s = Undef "null unique_ptr dereferenced" /\
  query_status task_id s = Undef "null unique_ptr dereferenced" /\
  (forall l a status success p s1,
     tags s1 !! a = Some (Some (AsyncCancelTag kLaunch status success p)) -> a ∈ finished s1 ->
     Proceed (J:=J) (PS:=PS) stack moved_from l a true s1 = Undef "Finish called twice") /\
  (forall l a status resp p s1,
     tags s1 !! a = Some (Some (AsyncQueryTag kLaunch status resp p)) -> a ∈ finished s1 ->
     Proceed (J:=J) (PS:=PS) stack moved_from l a true s1 = Undef "Finish called twice").
Proof.
  intros Hs Hq Hf. assert (length (tags s) ∉ finished s) as Hn.
  { intros Hin. apply Hf in Hin. lia. }
  assert (forall mk, start_unary mk s = Undef "null unique_ptr dereferenced") as HU.
  { intros mk. unfold start_unary, reader_finish, start_op. cbn. rewrite Hs. cbn.
    rewrite bool_decide_false by done. by rewrite Hq. }
  unfold cancel_task, query_status, cancel_task_async, query_status_async. rewrite !HU.
  split_and!; try done.
  - intros l a status success p s1 Ht Ha. unfold Proceed. rewrite Ht. cbn. unfold reader_finish. cbn.
    by rewrite bool_decide_true.
  - intros l a status resp p s1 Ht Ha. unfold Proceed. rewrite Ht. cbn. unfold reader_finish. cbn.
    by rewrite bool_decide_true.
Qed.
End client_theorems.

(** ** Traces *)

Module ClientTraces.
Import JsonModel TaskWitness ConvertWitness.

Abbreviation pstruct := (list (string * pvalue)).
Abbreviation st := (client (J:=jtree) (PS:=pstruct)).

Definition exec := client_exec (J:=jtree) (PS:=pstruct) 3 id.
Definition message : PbTask pstruct :=
  match TaskToProto 3 sample with Ret p => p | _ => PbTask_default end.

(** A submission, a subscription that receives one message. *)
Definition one_of_each : list (client_act (J:=jtree) (PS:=pstruct)) :=
  [Submit 1 sample true; Listen "c1" true] ++ round (read_ok None) 2 ++ round (read_ok (Some message)) 9.
Definition after : st := default (GrpcClient_new true) (run exec one_of_each (GrpcClient_new true)).


Lemma submit_async_never_ready_witness : promises after !! 0%nat = Some Pending.
Proof.
  destruct (promises after !! 0%nat) as [f|] eqn:E; [|vm_compute in E; discriminate E].
  f_equal. apply (submit_async_never_ready true 3 id after 0 f); [done| |exact E].
  apply default_reachable; [done | vm_compute; reflexivity].
Defined.

Definition idle : st := GrpcClient_new true.


(** A client destroyed during a stream: the thread was waiting for an event when
    [shutdown_] was set.  The event makes its tag start a read on the queue that
    is shut down; and if the thread leaves first, the tag and its operation stay
    behind. *)
Definition destroyed_while_listening : list (client_act (J:=jtree) (PS:=pstruct)) :=
  [Listen "c1" true; Poll; Destroy; DestroyQueue].

Lemma destroy_during_stream :
  (exists s, run exec destroyed_while_listening idle = Some s /\
     CompleteRpc 3 id (GOT_EVENT 0 (read_ok None)) 1 s = Some (Undef "operation on a queue that is shut down")) /\
  (exists s, run exec (destroyed_while_listening ++ [Complete TIMEOUT 1; Poll]) idle = Some s /\
     destroy_joined s = true /\ outstanding s = [(0%nat, OpStart)]).
Proof.
  split; eexists; (split; [vm_compute; reflexivity|]); [vm_compute; reflexivity | by split].
Qed.

Lemma unary_calls_undefined_witness :
  cancel_task_async "t1" idle = Undef "null unique_ptr dereferenced".
Proof.
  apply (unary_calls_undefined 3 id "t1" idle); [reflexivity|reflexivity|].
  intros a Hin. by apply elem_of_nil in Hin.
Defined.
End ClientTraces.
