(* ===== verification/ApiServer.v ===== *)
(** * The API server (src/src/api-server, src/src/common/include/logger.hpp)

    [AsyncServer] keeps a number of call contexts registered with gRPC, spread
    over completion queues with one thread each.  A context waits for a call
    ([CREATE]), answers it and waits for the answer to be sent ([FINISH]), then
    deletes itself and registers a successor on the same queue.  A completion
    that is not ok deletes the context.

    Contexts live at addresses (indices of [ctxs]; [None] after [delete]).  gRPC
    is outside: a completion carries what gRPC decided (ok or not) and the request
    it wrote; from its documentation the model takes that an operation started
    with a tag is delivered once on its queue, that calls waiting when the server
    shuts down are delivered as not ok, and that no operation may be started on a
    queue that has been shut down. *)

From Stdlib Require Import Ascii.
From stdpp Require Import pretty.
From S2P Require Import Prelude Json Task Convert GrpcClient.
#[local] Open Scope Z_scope.

(** ** Logging *)

Record glog_flags := mkFlags {
  FLAGS_logtostderr : bool;
  FLAGS_minloglevel : Z;
  FLAGS_log_dir : string;
  FLAGS_max_log_size : Z;
  FLAGS_stop_logging_if_full_disk : bool;
  FLAGS_colorlogtostderr : bool;
  failure_handler : bool;
}.

Inductive severity := sev_INFO | sev_WARNING | sev_ERROR | sev_FATAL.
Definition severity_num (s : severity) : Z :=
  match s with sev_INFO => 0 | sev_WARNING => 1 | sev_ERROR => 2 | sev_FATAL => 3 end.

Definition InitGlog (unit_test : bool) (f : glog_flags) : glog_flags :=
  if unit_test
  then mkFlags true 1 (FLAGS_log_dir f) (FLAGS_max_log_size f)
         (FLAGS_stop_logging_if_full_disk f) (FLAGS_colorlogtostderr f) (failure_handler f)
  else mkFlags (FLAGS_logtostderr f) (FLAGS_minloglevel f) "/var/log/dts" 100 true true true.

(** glog drops messages below the minimum level. *)
Definition logged (f : glog_flags) (s : severity) : bool := FLAGS_minloglevel f <=? severity_num s.

(** ** Reading numbers from the environment *)

Inductive std_exn := invalid_argument | out_of_range_error | resource_deadlock_would_occur.

Definition digit (c : ascii) : option Z :=
  let n := Z.of_N (N_of_ascii c) in if (48 <=? n) && (n <=? 57) then Some (n - 48) else None.

(** [isspace] in the C locale. *)
Definition is_space (c : ascii) : bool :=
  let n := N_of_ascii c in ((9 <=? n) && (n <=? 13) || (n =? 32))%N.

Fixpoint skip_spaces (s : string) : string :=
  match s with
  | String c s' => if is_space c then skip_spaces s' else s
  | EmptyString => s
  end.

(** The leading digits of a string; [None] if there is none. *)
Fixpoint read_digits (acc : option Z) (s : string) : option Z :=
  match s with
  | String c s' =>
      match digit c with
      | Some d => read_digits (Some (default 0 acc * 10 + d)) s'
      | None => acc
      end
  | EmptyString => acc
  end.

Definition read_sign (s : string) : bool * string :=
  match s with
  | String "-" s' => (true, s')
  | String "+" s' => (false, s')
  | _ => (false, s)
  end.

(** [std::stoi] *)
Definition stoi (s : string) : outcome std_exn Z :=
  let '(neg, s) := read_sign (skip_spaces s) in
  match read_digits None s with
  | None => Throw invalid_argument
  | Some n =>
      let z := if neg : bool then - n else n in
      if (- 2 ^ 31 <=? z) && (z <? 2 ^ 31) then Ret z else Throw out_of_range_error
  end.

(** ** The server *)

Section server.
Context {PS : Type}.
Context {Handler : Type}.                     (* std::function<void(Task*, TaskResponse* )> *)

Inductive CallStatus := CREATE | FINISH | REARM.
Inductive ctx_op := OpRequest | OpReply.

Record AsyncCallContext := mkCtx {
  status_ : CallStatus;
  cq_ : nat;
  request_ : option (PbTask PS);
  response_ : option (PbTask PS);
}.

Inductive driver := D_next | D_drain | D_exit.

Record AsyncServer := mkServer {
  ctxs : list (option AsyncCallContext);
  pending : list (nat * ctx_op);               (* operations with their tags *)
  cq_open : list bool;                         (* cqs_: not shut down *)
  drivers : list (nat * driver);               (* cq_threads_: queue, position *)
  server_ : bool;                              (* not null *)
  accepting : bool;                            (* the gRPC server is running *)
  shutdown_ : bool;
  listen_port_ : Z;
  submit_task_ : option Handler;
  replies : list (PbTask PS * PbTask PS);      (* history: requests with their answers *)
  lost : nat;                                  (* history: contexts deleted without successor *)
}.
Implicit Types (s : AsyncServer).

Definition set_ctxs x s := mkServer x (pending s) (cq_open s) (drivers s) (server_ s) (accepting s) (shutdown_ s) (listen_port_ s) (submit_task_ s) (replies s) (lost s).
Definition set_pending x s := mkServer (ctxs s) x (cq_open s) (drivers s) (server_ s) (accepting s) (shutdown_ s) (listen_port_ s) (submit_task_ s) (replies s) (lost s).
Definition set_cqs x s := mkServer (ctxs s) (pending s) x (drivers s) (server_ s) (accepting s) (shutdown_ s) (listen_port_ s) (submit_task_ s) (replies s) (lost s).
Definition set_drivers x s := mkServer (ctxs s) (pending s) (cq_open s) x (server_ s) (accepting s) (shutdown_ s) (listen_port_ s) (submit_task_ s) (replies s) (lost s).
Definition set_running port s := mkServer (ctxs s) (pending s) (cq_open s) (drivers s) true true (shutdown_ s) port (submit_task_ s) (replies s) (lost s).
Definition set_stopped s := mkServer (ctxs s) (pending s) (cq_open s) (drivers s) (server_ s) false true (listen_port_ s) (submit_task_ s) (replies s) (lost s).
Definition log_reply r s := mkServer (ctxs s) (pending s) (cq_open s) (drivers s) (server_ s) (accepting s) (shutdown_ s) (listen_port_ s) (submit_task_ s) (replies s ++ [r]) (lost s).
Definition count_lost s := mkServer (ctxs s) (pending s) (cq_open s) (drivers s) (server_ s) (accepting s) (shutdown_ s) (listen_port_ s) (submit_task_ s) (replies s) (S (lost s)).

Definition SetSubmitTaskHandler (f : Handler) s := mkServer (ctxs s) (pending s) (cq_open s) (drivers s) (server_ s) (accepting s) (shutdown_ s) (listen_port_ s) (Some f) (replies s) (lost s).

Definition AsyncServer_new : AsyncServer := mkServer [] [] [] [] false false false 0 None [] 0.

Definition ListenPort s : Z := u16 (listen_port_ s).

(** [OnSubmitTask]: the response is the request with another state. *)
Definition OnSubmitTask (request : PbTask PS) : PbTask PS :=
  mkPbTask (pb_task_id request) (pb_client_id request) (pb_priority request) (TaskState_code SUCCESS)
    (pb_func_name request) (pb_func_params request) (pb_required request) (pb_shard request)
    (pb_timeout_ms request) (pb_max_retry request) (pb_retry_count request)
    (pb_submit_ts request) (pb_start_ts request) (pb_finish_ts request) (pb_result request)
    (pb_error_msg request).

(** Starting an operation on queue [q] with the tag [a]. *)
Definition start_op (q a : nat) (op : ctx_op) s : outcome std_exn AsyncServer :=
  match cq_open s !! q with
  | Some true => Ret (set_pending (pending s ++ [(a, op)]) s)
  | Some false => Undef "operation on a queue that is shut down"
  | None => Undef "no such queue"
  end.

(** The constructor of a context, with [RequestNext]. *)
Definition new_context (q : nat) s : outcome std_exn AsyncServer :=
  start_op q (length (ctxs s)) OpRequest (set_ctxs (ctxs s ++ [Some (mkCtx CREATE q None None)]) s).

Definition delete_ctx (a : nat) s : AsyncServer := set_ctxs (<[a := None]> (ctxs s)) s.

(** [AsyncCallContext::Proceed] *)
Definition Proceed (a : nat) (ok : bool) s : outcome std_exn AsyncServer :=
  match ctxs s !! a with
  | Some (Some c) =>
      if negb ok then Ret (count_lost (delete_ctx a s))
      else
        match status_ c, request_ c with
        | CREATE, Some rq =>
            let rp := OnSubmitTask rq in
            start_op (cq_ c) a OpReply
              (log_reply (rq, rp) (set_ctxs (<[a := Some (mkCtx FINISH (cq_ c) (Some rq) (Some rp))]> (ctxs s)) s))
        | CREATE, None => Undef "completion without a request"
        | FINISH, _ => new_context (cq_ c) (delete_ctx a s)
        | REARM, _ => Ret s
        end
  | _ => Undef "context used after delete"
  end.

(** The loop of [Run] that creates the contexts. *)
Fixpoint create_contexts (n i cq_count : nat) s : outcome std_exn AsyncServer :=
  match n with
  | O => Ret s
  | S n =>
      if Nat.eqb cq_count 0 then Undef "i % 0"
      else
        s' ← new_context (i mod cq_count) s;
        create_contexts n (S i) cq_count s'
  end.

(** Twice the number of threads, or DTS_INITIAL_CONTEXT. *)
Definition initial_contexts (hc : nat) (env : option string) : outcome std_exn Z :=
  match env with Some str => stoi str | None => Ret (i32 (Z.of_nat hc * 2)) end.

(** [Run]; [hc] is [hardware_concurrency()], [env] the value of
    DTS_INITIAL_CONTEXT, [bound] the port gRPC bound, or nothing if the server
    could not be started and [server_] is null. *)
Definition Run (hc : nat) (env : option string) (bound : option Z) s : outcome std_exn AsyncServer :=
  let s := set_cqs (cq_open s ++ replicate hc true) s in
  let s := match bound with Some port => set_running port s | None => s end in
  c ← initial_contexts hc env;
  s ← match bound with
      | Some _ => create_contexts (Z.to_nat c) 0 hc s
      | None => if c <=? 0 then Ret s else Undef "request on a service without a server"
      end;
  Ret (set_drivers (drivers s ++ ((fun q => (q, D_next)) <$> seq 0 (length (cq_open s)))) s).

(** [Shutdown], up to the joins: the flag and [server_->Shutdown()], then the
    queues one by one. *)
Definition stop_server s : outcome std_exn AsyncServer :=
  if negb (server_ s) then Undef "null server_" else Ret (set_stopped s).
Definition stop_queue (q : nat) s : AsyncServer := set_cqs (<[q := false]> (cq_open s)) s.
Definition Shutdown s : outcome std_exn AsyncServer :=
  s ← stop_server s; Ret (foldl (fun s q => stop_queue q s) s (seq 0 (length (cq_open s)))).
(** The joins return when every driver has left its loops. *)
Definition joined s : bool :=
  forallb (fun d => match d.2 with D_exit => true | _ => false end) (drivers s).
(** The loop of the joins on thread [self] (a driver, or a thread that is none):
    each thread is given with its [joinable()] and its position.  A join waits
    ([None]) until its thread is over, and throws when a thread joins itself. *)
Fixpoint join_threads (self : option nat) (i : nat) (ts : list (bool * driver)) : outcome std_exn (option (list bool)) :=
  match ts with
  | [] => Ret (Some [])
  | (joinable, d) :: ts =>
      if negb joinable then
        r ← join_threads self (S i) ts; Ret (option_map (cons false) r)
      else if bool_decide (self = Some i) then Throw resource_deadlock_would_occur
      else match d with
           | D_exit => r ← join_threads self (S i) ts; Ret (option_map (cons false) r)
           | _ => Ret None
           end
  end.
(** [~AsyncServer] *)
Definition AsyncServer_destroy s : outcome std_exn AsyncServer := Shutdown s.

(** gRPC writes the request into a context whose call arrived. *)
Definition deliver (a : nat) (op : ctx_op) (ok : bool) (rq : PbTask PS) s : AsyncServer :=
  match op with
  | OpRequest =>
      if ok then set_ctxs (alter (option_map (fun c => mkCtx (status_ c) (cq_ c) (Some rq) (response_ c))) a (ctxs s)) s
      else s
  | OpReply => s
  end.

Definition queue_of (a : nat) s : option nat := c ← ctxs s !! a; c ← c; Some (cq_ c).

(** [DriveCompletionQueue]: driver [d] gets the [k]-th pending event of its
    queue, or finds its queue shut down and empty.  A context gets its call (ok) while
    the server runs, or after that if the call arrived in time and its event was still in
    the queue; it gets no call (not ok) only once the server is shutting down. *)
Definition drive_event (d k : nat) (ok : bool) (rq : PbTask PS) s : option (outcome std_exn AsyncServer) :=
  dr ← drivers s !! d;
  ev ← pending s !! k;
  if bool_decide (queue_of ev.1 s = Some dr.1)
     && match dr.2 with D_exit => false | _ => true end
     && match ev.2 with OpRequest => ok || negb (accepting s) | OpReply => true end
  then Some (Proceed ev.1 ok (deliver ev.1 ev.2 ok rq (set_pending (delete k (pending s)) s)))
  else None.

Definition drive_end (d : nat) s : option AsyncServer :=
  dr ← drivers s !! d;
  if bool_decide (cq_open s !! dr.1 = Some false)
     && forallb (fun ev => negb (bool_decide (queue_of ev.1 s = Some dr.1))) (pending s)
  then match dr.2 with
       | D_next => Some (set_drivers (<[d := (dr.1, D_drain)]> (drivers s)) s)
       | D_drain => Some (set_drivers (<[d := (dr.1, D_exit)]> (drivers s)) s)
       | D_exit => None
       end
  else None.

Inductive server_act :=
| Event (d k : nat) (ok : bool) (rq : PbTask PS)
| QueueDone (d : nat)
| StopServer
| StopQueue (q : nat).

Definition server_exec (a : server_act) s : option AsyncServer :=
  match a with
  | Event d k ok rq => r ← drive_event d k ok rq s; match r with Ret s' => Some s' | _ => None end
  | QueueDone d => drive_end d s
  | StopServer => match stop_server s with Ret s' => Some s' | _ => None end
  | StopQueue q => if shutdown_ s && negb (accepting s) then Some (stop_queue q s) else None
  end.

(** The steps of [Shutdown]. *)
Definition stop_steps s : list server_act := StopServer :: (StopQueue <$> seq 0 (length (cq_open s))).
End server.
Arguments AsyncServer : clear implicits.
Arguments AsyncCallContext : clear implicits.

(** ** The program *)

Section program.
Context {PS Handler : Type}.
Implicit Types (s : AsyncServer PS Handler).

(** The port of [main]: DTS_PORT, converted to [uint16_t]. *)
Definition main_port (DTS_PORT : option string) : outcome std_exn Z :=
  match DTS_PORT with Some str => z ← stoi str; Ret (u16 z) | None => Ret 0 end.

(** The address [Run] listens on. *)
Definition listen_address (port : Z) : string :=
  if port =? 0 then "0.0.0.0:0" else ("0.0.0.0:" ++ pretty port)%string.

(** [signal_handler]: the flag of [main] and the global server afterwards. *)
Definition signal_handler (g_server : option (AsyncServer PS Handler))
    : outcome std_exn (bool * option (AsyncServer PS Handler)) :=
  match g_server with
  | Some s => s' ← Shutdown s; Ret (true, Some s')
  | None => Ret (true, None)
  end.

(** [main] up to its waiting loop: the log flags, the address, the server.
    [bind] is what gRPC binds for an address. *)
Definition main_start (f : glog_flags) (DTS_PORT : option string) (hc : nat) (env : option string)
    (bind : string -> option Z) : outcome std_exn (glog_flags * AsyncServer PS Handler) :=
  port ← main_port DTS_PORT;
  s ← Run hc env (bind (listen_address port)) AsyncServer_new;
  Ret (InitGlog false f, s).
(** ... and from the loop on: it waits until the signal handler has set the
    flag, then shuts the server down again. *)
Definition main_end (g_shutdown : bool) s : option (outcome std_exn (AsyncServer PS Handler)) :=
  if g_shutdown then Some (Shutdown s) else None.
End program.

(** [std::stoi] reads back what [std::to_string] writes. *)

Lemma digit_char d : (d < 10)%N ->
  digit (pretty_N_char d) = Some (Z.of_N d) /\ is_space (pretty_N_char d) = false /\
  pretty_N_char d <> "-"%char /\ pretty_N_char d <> "+"%char.
Proof.
  intros Hd.
  assert (d = 0 \/ d = 1 \/ d = 2 \/ d = 3 \/ d = 4 \/ d = 5 \/ d = 6 \/ d = 7 \/ d = 8 \/ d = 9)%N as Hc by lia.
  repeat destruct Hc as [->|Hc]; try subst d; by split_and!.
Qed.

Lemma pretty_go_digits x s : (0 < x)%N ->
  read_digits None (pretty_N_go x s) = read_digits (Some (Z.of_N x)) s /\
  exists d s', (d < 10)%N /\ pretty_N_go x s = String (pretty_N_char d) s'.
Proof.
  revert s. induction (N.lt_wf_0 x) as [x _ IH]; intros s Hx. rewrite pretty_N_go_step by done.
  assert (x mod 10 < 10)%N as Hm by (by apply N.mod_lt). destruct (digit_char _ Hm) as (Hd & _).
  pose proof (N.div_mod x 10 ltac:(done)) as Hdm.
  destruct (decide (x < 10)%N) as [Hs|Hl].
  - assert (x / 10 = 0)%N as H0 by (by apply N.div_small). rewrite H0, pretty_N_go_0. split.
    + cbn [read_digits]. rewrite Hd. cbn. do 2 f_equal. lia.
    + by exists (x mod 10)%N, s.
  - destruct (IH (x / 10)%N) with (s := String (pretty_N_char (x mod 10)) s) as [IH1 IH2].
    + by apply N.div_lt.
    + apply N.div_str_pos. lia.
    + split; [|done]. rewrite IH1. cbn [read_digits]. rewrite Hd. cbn. do 2 f_equal. lia.
Qed.

Lemma pretty_digits x :
  read_digits None (pretty x) = Some (Z.of_N x) /\
  exists d s', (d < 10)%N /\ pretty x = String (pretty_N_char d) s'.
Proof.
  unfold pretty, pretty_N. case_decide as Hx; [subst; split; [done|by exists 0%N, ""%string]|].
  apply (pretty_go_digits x ""). lia.
Qed.

Lemma read_sign_none c s : c <> "-"%char -> c <> "+"%char -> read_sign (String c s) = (false, String c s).
Proof. intros Hm Hp. by destruct c as [[] [] [] [] [] [] [] []]. Qed.

Lemma stoi_pretty z : sfits 32 z -> stoi (pretty z) = Ret z.
Proof.
  intros Hz. assert (((- 2 ^ 31 <=? z) && (z <? 2 ^ 31)) = true) as Hr.
  { apply andb_true_iff. rewrite Z.leb_le, Z.ltb_lt. exact Hz. }
  unfold stoi. destruct z as [|p|p].
  - done.
  - change (pretty (Z.pos p)) with (pretty (N.pos p)).
    destruct (pretty_digits (N.pos p)) as (HR & d & s' & Hd & E). rewrite E in *.
    destruct (digit_char d Hd) as (_ & Hsp & Hm & Hp). cbn [skip_spaces]. rewrite Hsp, read_sign_none by done.
    rewrite HR. cbn [Z.of_N]. by rewrite Hr.
  - change (pretty (Z.neg p)) with (String "-" (pretty (N.pos p))). cbn [skip_spaces is_space].
    destruct (pretty_digits (N.pos p)) as (HR & _). change (read_sign _) with (true, pretty (N.pos p)).
    cbn iota beta. rewrite HR. cbn zeta. change (- Z.of_N (N.pos p)) with (Z.neg p). by rewrite Hr.
Qed.

(** A port number in DTS_PORT is the port the server listens on. *)
Lemma main_port_reads p : fits 16 p -> main_port (Some (pretty p)) = Ret p.
Proof.
  intros Hp. unfold main_port. rewrite stoi_pretty by (unfold fits, sfits in *; lia).
  cbn. by rewrite wrap_small.
Qed.

Section shutdown.
Context {PS Handler : Type}.
Implicit Types (s : AsyncServer PS Handler).

Lemma stop_queues s k :
  (k <= length (cq_open s))%nat ->
  foldl (fun s q => stop_queue q s) s (seq 0 k) = set_cqs (replicate k false ++ drop k (cq_open s)) s.
Proof.
  induction k as [|k IH]; intros Hk; [by destruct s|].
  rewrite seq_S, foldl_app, IH, replicate_S_end, <- app_assoc by lia. cbn. unfold stop_queue. cbn.
  destruct (lookup_lt_is_Some_2 (cq_open s) k) as [b Hb]; [lia|].
  rewrite (drop_S _ _ _ Hb), (insert_app_r_alt _ _ k) by (by rewrite length_replicate).
  by rewrite length_replicate, Nat.sub_diag.
Qed.

Lemma Shutdown_eq s :
  Shutdown s = if server_ s then Ret (set_cqs (replicate (length (cq_open s)) false) (set_stopped s))
               else Undef "null server_".
Proof.
  unfold Shutdown, stop_server. destruct (server_ s); [|done]. cbn [negb mbind outcome_bind].
  rewrite (stop_queues (set_stopped s)) by done. cbn. by rewrite drop_all, app_nil_r.
Qed.

(** The steps of [Shutdown], undisturbed, are the function. *)
Lemma Shutdown_steps s s1 : Shutdown s = Ret s1 -> run server_exec (stop_steps s) s = Some s1.
Proof.
  unfold Shutdown, stop_steps. cbn [run server_exec].
  destruct (stop_server s) as [s0| |] eqn:E0; cbn; intros E; simplify_eq.
  assert (shutdown_ s0 = true /\ accepting s0 = false /\ cq_open s0 = cq_open s) as (H1 & H2 & H3).
  { unfold stop_server in E0. by destruct (server_ s); simplify_eq/=. }
  rewrite H3. clear E0 H3. generalize (seq 0 (length (cq_open s))) as qs. intros qs.
  revert s0 H1 H2. induction qs as [|q qs IH]; intros s0 H1 H2; [done|]. cbn. rewrite H1, H2. cbn. by apply IH.
Qed.

(** The server is shut down by the signal handler, again by [main], and by the
    destructor: the later calls change nothing. *)
Lemma Shutdown_idempotent s s1 :
  Shutdown s = Ret s1 -> main_end true s1 = Some (Ret s1) /\ AsyncServer_destroy s1 = Ret s1.
Proof.
  unfold main_end, AsyncServer_destroy. rewrite !Shutdown_eq.
  destruct (server_ s) eqn:Hs; intros E; simplify_eq. cbn. rewrite Hs. by rewrite length_replicate.
Qed.

(** The joins of [main] return as soon as all drivers have left, and those of
    the next [Shutdown] find nothing to join. *)
Lemma join_main i (ds : list driver) :
  forallb (fun d => match d with D_exit => true | _ => false end) ds = true ->
  join_threads None i (pair true <$> ds) = Ret (Some (replicate (length ds) false)) /\
  join_threads None i (pair false <$> ds) = Ret (Some (replicate (length ds) false)).
Proof.
  revert i. induction ds as [|d ds IH]; intros i Hd; [done|]. cbn in Hd. destruct d; try done.
  destruct (IH (S i) Hd) as [E1 E2]. split; cbn.
  - by rewrite bool_decide_false, E1.
  - by rewrite E2.
Qed.

(** A signal handled on a driver thread: the joins never return there.  They
    wait for an earlier driver, or throw when the thread meets itself. *)
Lemma join_self i k (ts : list (bool * driver)) d :
  ts !! k = Some (true, d) ->
  join_threads (Some (i + k)%nat) i ts = Ret None \/
  join_threads (Some (i + k)%nat) i ts = Throw resource_deadlock_would_occur.
Proof.
  revert i k. induction ts as [|[j e] ts IH]; intros i [|k] Hk; simplify_eq/=.
  - rewrite Nat.add_0_r, bool_decide_true by done. by right.
  - replace (i + S k)%nat with (S i + k)%nat by lia.
    destruct (IH (S i) k Hk) as [E|E]; rewrite E; destruct j; cbn;
      rewrite ?(bool_decide_false (Some (S (i + k)) = Some i)) by (intros [=]; lia);
      destruct e; cbn; auto.
Qed.
End shutdown.

(** ** Starting *)

Section run.
Context {PS Handler : Type}.
Implicit Types (s : AsyncServer PS Handler).

(** The contexts [i], ..., [i+n-1], round robin over the queues. *)
Definition fresh_ctxs (n i hc : nat) : list (option (AsyncCallContext PS)) :=
  (fun j => Some (mkCtx CREATE (j mod hc)%nat None None)) <$> seq i n.
Definition fresh_ops (n k : nat) : list (nat * ctx_op) := (fun j => (j, OpRequest)) <$> seq k n.

Lemma create_contexts_eq n i hc s :
  (0 < hc)%nat -> (forall q, (q < hc)%nat -> cq_open s !! q = Some true) ->
  create_contexts n i hc s =
  Ret (set_pending (pending s ++ fresh_ops n (length (ctxs s))) (set_ctxs (ctxs s ++ fresh_ctxs n i hc) s)).
Proof.
  intros Hc Hq. revert i s Hq. induction n as [|n IH]; intros i s Hq; cbn [create_contexts].
  - unfold fresh_ctxs, fresh_ops. cbn. rewrite !app_nil_r. by destruct s.
  - destruct (Nat.eqb_spec hc 0) as [|_]; [lia|].
    unfold new_context, start_op. cbn [cq_open set_ctxs].
    rewrite Hq by (apply Nat.mod_upper_bound; lia). cbn [mbind outcome_bind].
    rewrite IH by done. unfold fresh_ctxs, fresh_ops, set_pending, set_ctxs. cbn.
    rewrite <- !app_assoc, length_app, Nat.add_1_r. done.
Qed.

(** [Run] on a new server: with at least one queue it registers exactly the
    configured number of contexts, the [i]-th on queue [i mod n], all waiting
    for a call, and starts one driver per queue; with no queue and contexts to
    create it divides by zero. *)
Lemma Run_starts hc env port c :
  initial_contexts hc env = Ret c ->
  let n := Z.to_nat c in
  ((0 < hc)%nat ->
   exists s, Run (PS:=PS) (Handler:=Handler) hc env (Some port) AsyncServer_new = Ret s /\
     ctxs s = fresh_ctxs n 0 hc /\ pending s = fresh_ops n 0 /\
     cq_open s = replicate hc true /\ drivers s = (fun q => (q, D_next)) <$> seq 0 hc /\
     server_ s = true /\ accepting s = true /\ shutdown_ s = false /\ replies s = [] /\ lost s = O /\
     listen_port_ s = port) /\
  (hc = O -> (0 < n)%nat ->
   Run (PS:=PS) (Handler:=Handler) hc env (Some port) AsyncServer_new = Undef "i % 0").
Proof.
  intros HE n. split.
  - intros Hc. unfold Run. rewrite HE. cbn [cq_open AsyncServer_new set_cqs app mbind outcome_bind].
    rewrite create_contexts_eq; [|done|].
    + cbn. eexists. split; [done|]. cbn. by rewrite length_replicate.
    + intros q Hq. cbn. by apply lookup_replicate_2.
  - intros -> Hn. unfold Run. rewrite HE. cbn. fold n. by destruct n; [lia|].
Qed.
End run.

(** ** Invariant of the contexts *)

Section server_inv.
Context {PS Handler : Type}.
Implicit Types (s : AsyncServer PS Handler).

Definition waits (c : AsyncCallContext PS) : option ctx_op :=
  match status_ c with CREATE => Some OpRequest | FINISH => Some OpReply | REARM => None end.

Record server_inv (n : nat) s : Prop := {
  si_out : forall a op, (a, op) ∈ pending s -> exists c, ctxs s !! a = Some (Some c) /\ waits c = Some op;
  si_nodup : NoDup (pending s).*1;
  si_live : forall a c, ctxs s !! a = Some (Some c) ->
    (exists op, (a, op) ∈ pending s) /\ exists b, cq_open s !! cq_ c = Some b;
  si_count : (length (pending s) + lost s)%nat = n;
  si_reply : forall rq rp, (rq, rp) ∈ replies s -> rp = OnSubmitTask rq;
  si_open : forall q, cq_open s !! q = Some false -> shutdown_ s = true;
}.

Lemma pending_unique n s k a op a' op' :
  server_inv n s -> pending s !! k = Some (a, op) -> (a', op') ∈ delete k (pending s) -> a' <> a.
Proof.
  intros HI Hk Hin ->. pose proof (si_nodup _ _ HI) as HN.
  rewrite (delete_Permutation _ _ _ Hk) in HN. apply NoDup_cons in HN as [Hno _]. apply Hno.
  apply list_elem_of_fmap. by exists (a, op').
Qed.

(** Common part of the three outcomes of [Proceed]: the context [a] of a
    delivered event is replaced by [X]; [new] is appended with [ops]. *)
Lemma inv_event n s s' k a op X new ops c :
  server_inv n s -> pending s !! k = Some (a, op) -> ctxs s !! a = Some (Some c) ->
  ctxs s' = <[a := X]> (ctxs s) ++ new -> pending s' = delete k (pending s) ++ ops ->
  cq_open s' = cq_open s -> shutdown_ s' = shutdown_ s ->
  (length ops + lost s' = 1 + lost s)%nat ->
  (forall rq rp, (rq, rp) ∈ replies s' -> rp = OnSubmitTask rq) ->
  match X, new with
  | Some c', [] => exists op', ops = [(a, op')] /\ waits c' = Some op' /\ cq_ c' = cq_ c
  | None, [] => ops = []
  | None, [Some c'] => exists op', ops = [(length (ctxs s), op')] /\ waits c' = Some op' /\ cq_ c' = cq_ c
  | _, _ => False
  end -> server_inv n s'.
Proof.
  intros HI Hk Ha HC HP HQ HSh HL HR HX.
  assert (a < length (ctxs s))%nat as Hlt by (by eapply lookup_lt_Some).
  destruct (si_live _ _ HI _ _ Ha) as [_ Hcq].
  assert (forall b op', (b, op') ∈ delete k (pending s) ->
    b <> a /\ (b, op') ∈ pending s /\ (b < length (ctxs s))%nat) as Hold.
  { intros b op' Hin. assert ((b, op') ∈ pending s) as Hin' by (rewrite (delete_Permutation _ _ _ Hk); set_solver).
    split_and!; [by eapply pending_unique|done|].
    destruct (si_out _ _ HI _ _ Hin') as (c' & Hc' & _). by eapply lookup_lt_Some. }
  split; rewrite ?HC, ?HP, ?HQ, ?HSh; try done; try apply HI.
  - intros b op' [Hin|Hin]%elem_of_app.
    + destruct (Hold _ _ Hin) as (Hne & Hin' & Hb). rewrite lookup_app_l by (by rewrite length_insert).
      rewrite list_lookup_insert_ne by congruence. by apply (si_out _ _ HI).
    + destruct X as [c'|], new as [|[c''|] [|]]; try done.
      * destruct HX as (op1 & -> & Hw & _). apply list_elem_of_singleton in Hin. simplify_eq. exists c'.
        rewrite app_nil_r. by rewrite list_lookup_insert_eq.
      * by subst ops; apply elem_of_nil in Hin.
      * destruct HX as (op1 & -> & Hw & _). apply list_elem_of_singleton in Hin. simplify_eq. exists c''.
        rewrite lookup_app_r by (by rewrite length_insert). by rewrite length_insert, Nat.sub_diag.
  - rewrite fmap_app. apply NoDup_app. split_and!.
    + pose proof (si_nodup _ _ HI) as HN. rewrite (delete_Permutation _ _ _ Hk) in HN.
      by apply NoDup_cons in HN as [_ ?].
    + intros b ([b' op'] & -> & Hin)%list_elem_of_fmap Hb. destruct (Hold _ _ Hin) as (Hne & _ & Hb').
      destruct X as [c'|], new as [|[c''|] [|]]; try done.
      * destruct HX as (op1 & -> & _). set_solver.
      * subst ops. set_solver.
      * destruct HX as (op1 & -> & _). cbn in Hb. apply list_elem_of_singleton in Hb. lia.
    + destruct X as [c'|], new as [|[c''|] [|]]; try done; [|subst ops; constructor|];
        destruct HX as (op1 & -> & _); apply NoDup_singleton.
  - intros b c1 Hb. apply lookup_app_Some in Hb as [Hb|[Hle Hb]].
    + apply list_lookup_insert_Some in Hb as [(<- & -> & _)|[Hab Hb]].
      * destruct new; [|by destruct o]. destruct HX as (op1 & -> & _ & Hq). rewrite Hq.
        split; [|done]. exists op1. set_solver.
      * destruct (si_live _ _ HI _ _ Hb) as [[op1 Hin] Hq]. split; [|done]. exists op1.
        apply elem_of_app. left. rewrite (delete_Permutation _ _ _ Hk) in Hin. set_solver.
    + destruct X as [c'|], new as [|[c''|] [|]]; try done.
      rewrite length_insert in *. apply list_lookup_singleton_Some in Hb as [Hb [= <-]].
      destruct HX as (op1 & -> & _ & Hq). rewrite Hq. split; [|done]. exists op1.
      apply elem_of_app. right. assert (b = length (ctxs s)) as -> by lia. set_solver.
  - rewrite length_app. pose proof (si_count _ _ HI). apply delete_Permutation, Permutation_length in Hk.
    cbn in Hk. lia.
Qed.

(** Handling one event. *)
Lemma event_inv n s k a op ok rq :
  server_inv n s -> pending s !! k = Some (a, op) ->
  match Proceed a ok (deliver a op ok rq (set_pending (delete k (pending s)) s)) with
  | Ret s' => server_inv n s'
  | Throw _ => False
  | Undef w => w = "operation on a queue that is shut down"%string /\ shutdown_ s = true
  end.
Proof.
  intros HI Hk. destruct (si_out _ _ HI a op) as (c & Hc & Hw); [by eapply list_elem_of_lookup_2|].
  destruct (si_live _ _ HI _ _ Hc) as [_ [b Hq]].
  destruct ok.
  - destruct c as [[| |] q rq0 rp0]; unfold waits in Hw; cbn in Hw, Hq; simplify_eq; unfold Proceed.
    + cbn [ctxs set_ctxs deliver set_pending]. rewrite (lookup_alter_at _ _ _ _ Hc). cbn [option_map negb status_ request_ cq_].
      unfold start_op. cbn [cq_open log_reply set_ctxs set_pending]. rewrite Hq. destruct b; [|split; [done|by eapply (si_open _ _ HI)]].
      eapply (inv_event n s _ k a OpRequest (Some (mkCtx FINISH q (Some rq) (Some (OnSubmitTask rq)))) []
                [(a, OpReply)] _ HI Hk Hc); cbn; try done.
      * rewrite app_nil_r. change (list_alter ?f ?i ?l) with (alter f i l).
        by rewrite (alter_insert_at _ _ _ _ Hc), list_insert_insert_eq.
      * intros rq1 rp1 [Hin|Hin]%elem_of_app; [by apply (si_reply _ _ HI)|].
        apply list_elem_of_singleton in Hin. by simplify_eq.
      * by exists OpReply.
    + cbn [ctxs deliver set_pending]. rewrite Hc. cbn [negb status_ cq_].
      unfold new_context, start_op. cbn [cq_open delete_ctx set_ctxs set_pending]. rewrite Hq.
      destruct b; [|split; [done|by eapply (si_open _ _ HI)]].
      eapply (inv_event n s _ k a OpReply None [Some (mkCtx CREATE q None None)]
                [(length (ctxs s), OpRequest)] _ HI Hk Hc); cbn; try done.
      * by rewrite length_insert.
      * apply HI.
      * by exists OpRequest.
  - assert (ctxs (deliver a op false rq (set_pending (delete k (pending s)) s)) = ctxs s) as E by (by destruct op).
    unfold Proceed. rewrite E, Hc. cbn [negb].
    eapply (inv_event n s _ k a op None [] [] _ HI Hk Hc); destruct op; cbn; try done;
      rewrite ?app_nil_r; try done; apply HI.
Qed.

Lemma server_step n a s s' : server_inv n s -> server_exec a s = Some s' -> server_inv n s'.
Proof.
  intros HI E. destruct a as [d k ok rq|d| |q]; cbn [server_exec] in E.
  - unfold drive_event in E. apply bind_Some in E as (r & Er & E).
    apply bind_Some in Er as (dr & _ & Er). apply bind_Some in Er as ([a op] & Hk & Er).
    destruct (_ && _ && _) in Er; [|done]. injection Er as <-. pose proof (event_inv n s k a op ok rq HI Hk) as HE. cbn [fst snd] in E.
    by destruct (Proceed _ _ _); simplify_eq.
  - unfold drive_end in E. apply bind_Some in E as (dr & _ & E). destruct HI.
    destruct (_ && _); [|done]. destruct (dr.2); simplify_eq; by split.
  - unfold stop_server in E. destruct (server_ s); cbn in E; simplify_eq. destruct HI. by split.
  - destruct (shutdown_ s) eqn:Hsh; [|done]. destruct (accepting s); cbn in E; simplify_eq. destruct HI. split; try done; cbn.
    intros a c Hc. destruct (si_live0 _ _ Hc) as [? [b Hb]]. split; [done|].
    rewrite list_lookup_insert. case_decide; eauto.
Qed.

Lemma server_fresh n hc s :
  (0 < hc)%nat -> ctxs s = fresh_ctxs n 0 hc -> pending s = fresh_ops n 0 -> cq_open s = replicate hc true ->
  replies s = [] -> lost s = O -> server_inv n s.
Proof.
  intros Hc EC EP EQ ER EL. split; rewrite ?EC, ?EP, ?EQ, ?ER, ?EL.
  - intros a op (j & [= -> ->] & Hj)%list_elem_of_fmap. apply elem_of_seq in Hj. eexists.
    unfold fresh_ctxs. rewrite list_lookup_fmap, lookup_seq_lt by lia. cbn. split; [done|]. done.
  - unfold fresh_ops. rewrite <- list_fmap_compose. rewrite (list_fmap_ext _ id), list_fmap_id; [apply NoDup_seq|done].
  - intros a c Ha. unfold fresh_ctxs in Ha. rewrite list_lookup_fmap in Ha.
    apply fmap_Some in Ha as (j & Hj & [= ->]). apply lookup_seq in Hj as [-> Hj]. split.
    + exists OpRequest. apply list_elem_of_fmap. exists a. split; [done|]. apply elem_of_seq. lia.
    + exists true. apply lookup_replicate_2. cbn. apply Nat.mod_upper_bound. lia.
  - unfold fresh_ops. rewrite length_fmap, length_seq. lia.
  - set_solver.
  - intros q [Hq _]%lookup_replicate. done.
Qed.
End server_inv.

(** ** Theorems *)

Section server_theorems.
Context {PS Handler : Type}.
Implicit Types (s : AsyncServer PS Handler).


(** The registered handler has no effect: whatever [SetSubmitTaskHandler]
    stored, an event is handled in the same way and leads to the same contexts,
    operations and answers. *)
Lemma handler_never_called f a ok s :
  Proceed a ok (SetSubmitTaskHandler f s) = SetSubmitTaskHandler f <$> Proceed a ok s.
Proof.
  unfold Proceed. cbn [ctxs SetSubmitTaskHandler]. destruct (ctxs s !! a) as [[c|]|]; [|done..].
  destruct ok; [|done]. cbn [negb]. destruct (status_ c), (request_ c); try done;
    unfold new_context, start_op; cbn; by destruct (cq_open s !! cq_ c) as [[]|].
Qed.

(** Until the shutdown, one driver per queue waits for events. *)
Definition ready s : Prop :=
  drivers s = (fun q => (q, D_next)) <$> seq 0 (length (cq_open s)).

Lemma ready_lookup s q b : ready s -> cq_open s !! q = Some b -> drivers s !! q = Some (q, D_next).
Proof.
  intros HR Hq. rewrite HR, list_lookup_fmap, lookup_seq_lt by (by eapply lookup_lt_Some). done.
Qed.

Lemma Proceed_frame a ok s s' :
  Proceed a ok s = Ret s' ->
  drivers s' = drivers s /\ cq_open s' = cq_open s /\ shutdown_ s' = shutdown_ s /\
  accepting s' = accepting s /\ server_ s' = server_ s.
Proof.
  unfold Proceed, new_context, start_op. intros E.
  repeat case_match; simplify_eq; by cbn.
Qed.

Lemma ready_step n a s s' :
  server_inv n s -> (shutdown_ s = false -> ready s /\ server_ s = true) -> server_exec a s = Some s' ->
  shutdown_ s' = false -> ready s' /\ server_ s' = true.
Proof.
  intros HI HR E Hs'. destruct a as [d k ok rq|d| |q]; cbn [server_exec] in E.
  - unfold drive_event in E. apply bind_Some in E as (r & Er & E).
    apply bind_Some in Er as (dr & _ & Er). apply bind_Some in Er as ([a op] & Hk & Er).
    destruct (_ && _ && _) in Er; [|done]. injection Er as <-.
    destruct (Proceed _ _ _) as [s1| |] eqn:EP in E; simplify_eq.
    destruct (Proceed_frame _ _ _ _ EP) as (H1 & H2 & H3 & _ & H5). cbn [fst snd] in *. unfold ready.
    rewrite H1, H2, H5. rewrite H3 in Hs'. destruct op, ok; by apply HR.
  - unfold drive_end in E. apply bind_Some in E as (dr & _ & E).
    destruct (bool_decide (cq_open s !! dr.1 = Some false)) eqn:Hb; [|done]. apply bool_decide_eq_true in Hb.
    apply (si_open _ _ HI) in Hb.
    assert (shutdown_ s' = shutdown_ s) as Hsh.
    { destruct (forallb _ _); [|done]. cbn in E. by destruct (dr.2); simplify_eq. }
    congruence.
  - unfold stop_server in E. by destruct (server_ s); simplify_eq/=.
  - destruct (shutdown_ s) eqn:Hsh; [|done]. destruct (accepting s); cbn in E; simplify_eq. cbn in Hs'. congruence.
Qed.

(** A stopped server handles its pending events, all not ok, one by one. *)
Lemma drain_all n s (rq : PbTask PS) :
  server_inv n s -> ready s -> accepting s = false ->
  exists tr s', run server_exec tr s = Some s' /\ pending s' = [] /\ ready s' /\
    cq_open s' = cq_open s /\ lost s' = n.
Proof.
  remember (length (pending s)) as m eqn:Hm. revert s Hm.
  induction m as [|m IH]; intros s Hm HI HR Hacc.
  - exists [], s. pose proof (si_count _ _ HI). split_and!; try done; [by destruct (pending s)|lia].
  - destruct (pending s) as [|[a op] rest] eqn:Hp; [done|].
    destruct (si_out _ _ HI a op) as (c & Hc & _); [rewrite Hp; set_solver|].
    destruct (si_live _ _ HI _ _ Hc) as [_ [b Hq]]. pose proof (ready_lookup _ _ _ HR Hq) as Hd.
    set (s1 := count_lost (delete_ctx a (set_pending rest s))).
    assert (server_exec (Event (cq_ c) 0 false rq) s = Some s1) as E1.
    { cbn [server_exec]. unfold drive_event. rewrite Hd, Hp. cbn [mbind option_bind lookup list_lookup fst snd].
      rewrite bool_decide_true by (unfold queue_of; by rewrite Hc). cbn [andb]. rewrite Hacc.
      destruct op; cbn; unfold Proceed; cbn; by rewrite Hc. }
    destruct (IH s1) as (tr & s' & E' & Hp' & HR' & Ho' & Hl');
      [cbn in *; lia | by eapply server_step | done | done |].
    exists (Event (cq_ c) 0 false rq :: tr), s'. split_and!; try done. cbn [run]. by rewrite E1.
Qed.

(** Then each driver leaves its two loops. *)
Lemma drivers_exit s m :
  pending s = [] -> cq_open s = replicate (length (cq_open s)) false -> (m <= length (cq_open s))%nat ->
  drivers s = ((fun q => (q, D_next)) <$> seq 0 (length (cq_open s))) ->
  exists tr s', run server_exec tr s = Some s' /\ pending s' = [] /\ lost s' = lost s /\
    cq_open s' = cq_open s /\
    drivers s' = ((fun q => (q, D_exit)) <$> seq 0 m) ++ ((fun q => (q, D_next)) <$> seq m (length (cq_open s) - m)).
Proof.
  intros Hp Hc Hm HD. induction m as [|m IH].
  - exists [], s. split_and!; try done. by rewrite HD, Nat.sub_0_r.
  - destruct IH as (tr & s1 & E1 & Hp1 & Hl1 & Hc1 & HD1); [lia|].
    assert (drivers s1 !! m = Some (m, D_next)) as Hd.
    { rewrite HD1, lookup_app_r by (rewrite length_fmap, length_seq; lia).
      rewrite length_fmap, length_seq, Nat.sub_diag, list_lookup_fmap, lookup_seq_lt by lia. cbn. by rewrite Nat.add_0_r. }
    assert (cq_open s1 !! m = Some false) as Hq by (rewrite Hc1, Hc; apply lookup_replicate_2; lia).
    assert (m < length (drivers s1))%nat as Hlt by (by eapply lookup_lt_Some).
    set (s2 := set_drivers (<[m := (m, D_drain)]> (drivers s1)) s1).
    set (s3 := set_drivers (<[m := (m, D_exit)]> (drivers s2)) s2).
    assert (server_exec (QueueDone m) s1 = Some s2) as Ea.
    { cbn. unfold drive_end. rewrite Hd, Hp1. cbn. by rewrite bool_decide_true. }
    assert (server_exec (QueueDone m) s2 = Some s3) as Eb.
    { cbn. unfold drive_end. cbn. rewrite list_lookup_insert_eq by done. cbn. by rewrite Hp1, bool_decide_true. }
    exists (tr ++ [QueueDone m; QueueDone m]), s3. split_and!; try done.
    + rewrite run_app, E1. cbn [mbind option_bind run]. rewrite Ea. cbn [mbind option_bind]. by rewrite Eb.
    + cbn [s3 s2 set_drivers drivers]. rewrite list_insert_insert_eq, HD1, (seq_S m 0), fmap_app, <- app_assoc.
      replace (length (cq_open s) - m)%nat with (S (length (cq_open s) - S m)) by lia.
      rewrite (insert_app_r_alt _ _ m) by (by rewrite length_fmap, length_seq).
      rewrite length_fmap, length_seq, Nat.sub_diag. done.
Qed.

Lemma reachable_ready hc env c port s0 s :
  (0 < hc)%nat -> initial_contexts hc env = Ret c -> Run hc env (Some port) AsyncServer_new = Ret s0 ->
  reachable server_exec (fun x => x = s0) s ->
  server_inv (Z.to_nat c) s /\ (shutdown_ s = false -> ready s /\ server_ s = true).
Proof.
  intros Hc HE HR Hr. destruct (Run_starts (PS:=PS) (Handler:=Handler) hc env port c HE) as [HS _].
  destruct (HS Hc) as (s00 & E0 & ? & ? & HO & HD & Hsv & _ & _ & ? & ? & _). rewrite HR in E0. simplify_eq.
  revert s Hr. apply reachable_invariant.
  - intros s ->. split; [by apply (server_fresh _ hc)|]. intros _. split; [|done]. unfold ready.
    by rewrite HD, HO, length_replicate.
  - intros s a s' [HI HRd] E. split; [by eapply server_step|]. by eapply ready_step.
Qed.

(** [C25] A shutdown completes: from every reachable state of a running server,
    the steps of [Shutdown] can be followed by a schedule in which all events
    still pending are delivered as not ok, every context is deleted, every
    driver leaves both loops of [DriveCompletionQueue], and the joins return. *)
Theorem shutdown_completes hc env c port s0 s (rq : PbTask PS) :
  (0 < hc)%nat -> initial_contexts hc env = Ret c -> Run hc env (Some port) AsyncServer_new = Ret s0 ->
  reachable server_exec (fun x => x = s0) s -> shutdown_ s = false ->
  exists s1 tr s', Shutdown s = Ret s1 /\ run server_exec (stop_steps s) s = Some s1 /\
    run server_exec tr s1 = Some s' /\ joined s' = true /\ pending s' = [] /\ lost s' = Z.to_nat c.
Proof.
  intros Hc HE HR Hr Hs. destruct (reachable_ready hc env c port s0 s Hc HE HR Hr) as [HI HRd].
  destruct (HRd Hs) as [Hready Hserver].
  set (s1 := set_cqs (replicate (length (cq_open s)) false) (set_stopped s)).
  assert (Shutdown s = Ret s1) as E1 by (by rewrite Shutdown_eq, Hserver).
  pose proof (Shutdown_steps _ _ E1) as ES.
  assert (server_inv (Z.to_nat c) s1) as HI1.
  { refine (run_invariant server_exec (server_inv (Z.to_nat c)) _ _ _ _ HI ES). intros; by eapply server_step. }
  assert (ready s1) as HR1 by (unfold ready; cbn; by rewrite length_replicate).
  destruct (drain_all _ s1 rq HI1 HR1) as (tr & s2 & E2 & Hp2 & HR2 & Ho2 & Hl2); [done|].
  destruct (drivers_exit s2 (length (cq_open s2))) as (tr' & s3 & E3 & Hp3 & Hl3 & Hc3 & HD3);
    [done|rewrite Ho2; cbn; by rewrite length_replicate|done|exact HR2|].
  exists s1, (tr ++ tr'), s3. split_and!; [done|done|by rewrite run_app, E2| |done|congruence].
  unfold joined. rewrite HD3, Nat.sub_diag, app_nil_r. apply forallb_forall. intros x (q & <- & _)%in_map_iff. done.
Qed.
End server_theorems.

(** ** A blocking submission, end to end *)

Section end_to_end.
Context {J PS PV : Type} `{JsonLaws J} `{StructLaws PS PV}.

(** The blocking call of the stub when the server answers it. *)
Definition served (p : PbTask PS) : Status * option (PbTask PS) := (Status_OK, Some (OnSubmitTask p)).

Definition with_state (st : TaskState) (t : Task J) : Task J :=
  mkTask (task_id t) (client_id t) (priority t) st (cancelled t) (func_name t) (func_params t)
    (required t) (shard t) (timeout_ms t) (max_retry t) (retry_count t) (submit_ts t) (start_ts t)
    (finish_ts t) (result t) (error_msg t).

Lemma TaskFromProto_OnSubmitTask stack l p :
  TaskFromProto (J:=J) stack l (OnSubmitTask p) = with_state SUCCESS <$> TaskFromProto stack l p.
Proof.
  unfold TaskFromProto. cbn [OnSubmitTask pb_func_params pb_result].
  destruct (StructToJson stack (pb_func_params p)); [|done..].
  destruct (StructToJson stack (pb_result p)); done.
Qed.

(** Client, conversions and server together: a well-formed task submitted with
    [submit_task_sync] to this server comes back with state SUCCESS, a
    cancellation flag of its own, and everything else as it was sent (parameters
    and result by their leaves, integers as doubles). *)
Lemma submit_sync_echo (t : Task J) (l : loc) (s : client (J:=J) (PS:=PS)) :
  task_wf t -> stub_ s = true ->
  exists depth, forall stack, (depth < stack)%nat ->
  exists t', submit_task_sync stack served l t s = Ret (with_state SUCCESS t') /\
    cancelled t' = Some l /\ same_task t t'.
Proof.
  intros Hwf Hs. destruct (task_trip t l Hwf) as (p & depth & Hto & Hfrom).
  exists (depth + json_depth (func_params t) + json_depth (result t))%nat. intros stack Hst.
  destruct (Hfrom stack) as (t' & Ht' & Hc & Hsame); [lia|].
  exists t'. split; [|done]. unfold submit_task_sync. rewrite Hs. cbn [negb]. unfold to_proto.
  rewrite (Hto stack) by lia. cbn [mbind outcome_bind served]. unfold status_ok.
  cbn [Status_OK GrpcClient.error_code]. rewrite bool_decide_true by done. cbn [negb].
  change (task_of (Some (OnSubmitTask p))) with (OnSubmitTask p). unfold from_proto. by rewrite TaskFromProto_OnSubmitTask, Ht'.
Qed.
End end_to_end.

(** ** Logging *)

(** In test mode warnings are logged too, not only errors, and in production
    mode the minimum level is not touched. *)
Lemma InitGlog_levels f :
  logged (InitGlog true f) sev_WARNING = true /\ logged (InitGlog true f) sev_ERROR = true /\
  logged (InitGlog true f) sev_INFO = false /\
  (forall s, logged (InitGlog false f) s = logged f s).
Proof. done. Qed.

(** ** Traces *)

Module ServerTraces.
Import JsonModel TaskWitness ConvertWitness ClientTraces.

Abbreviation srv := (AsyncServer pstruct unit).
Abbreviation act := (server_act (PS:=pstruct)).

(** One queue, one context. *)
Definition started : srv :=
  match Run 1 (Some "1") (Some 50051) AsyncServer_new with Ret s => s | _ => AsyncServer_new end.
Definition after (tr : list act) : srv := default started (run server_exec tr started).
Definition call : act := Event 0 0 true message.

(** An answer that cannot be sent costs the server a context for good: with
    one context, a call whose reply fails leaves a running server on which no
    event can occur, so nothing is answered any more. *)
Lemma failed_reply_starves_server :
  exists s, run server_exec [call; Event 0 0 false message] started = Some s /\
    shutdown_ s = false /\ accepting s = true /\ lost s = 1%nat /\
    forall d k ok rq, drive_event d k ok rq s = None.
Proof.
  eexists. split; [vm_compute; reflexivity|]. split_and!; try reflexivity.
  intros d k ok rq. unfold drive_event. cbn [drivers]. destruct ([(0%nat, D_next)] !! d); [|done]. done.
Qed.

(** A reply sent before the shutdown and delivered after it makes the context
    register its successor on a queue already shut down. *)
Lemma shutdown_rearm_undefined :
  exists s, run server_exec [call; StopServer; StopQueue 0] started = Some s /\
    drive_event 0 0 true message s = Some (Undef "operation on a queue that is shut down").
Proof. eexists. split; [vm_compute; reflexivity|]. vm_compute. reflexivity. Qed.

Lemma Run_starts_witness :
  exists s, Run (PS:=pstruct) (Handler:=unit) 4 None (Some 50051) AsyncServer_new = Ret s /\
    ctxs s = fresh_ctxs 8 0 4 /\ pending s = fresh_ops 8 0.
Proof.
  destruct (proj1 (Run_starts (PS:=pstruct) (Handler:=unit) 4 None 50051 8 eq_refl) ltac:(lia)) as (s & E & H1 & H2 & _).
  exists s. exact (conj E (conj H1 H2)).
Defined.


Lemma shutdown_completes_witness :
  exists s1 tr s', Shutdown (after [call]) = Ret s1 /\ run server_exec (stop_steps (after [call])) (after [call]) = Some s1 /\
    run server_exec tr s1 = Some s' /\ joined s' = true /\ pending s' = [] /\ lost s' = 1%nat.
Proof.
  apply (shutdown_completes 1 (Some "1") 1 50051 started (after [call]) message).
  - lia.
  - reflexivity.
  - reflexivity.
  - apply default_reachable; [done | vm_compute; reflexivity].
  - vm_compute. reflexivity.
Defined.

Lemma submit_sync_echo_witness :
  exists depth, forall stack, (depth < stack)%nat ->
  exists t', submit_task_sync stack served 9 sample (GrpcClient_new true) = Ret (with_state SUCCESS t') /\
    cancelled t' = Some 9%positive /\ same_task sample t'.
Proof.
  apply (submit_sync_echo (PS:=pstruct) sample 9 (GrpcClient_new true)).
  - exact sample_wf.
  - reflexivity.
Defined.
End ServerTraces.
