(* ===== verification/ClientServer.v ===== *)
(** * Clients and server together

    Any number of callers inside [submit_task_sync] and one [AsyncServer] (the
    machine of ApiServer.v, with all its contexts, queues and drivers).  A call is
    the record of one blocking [stub_->SubmitTask]: its request, how far the server
    is with it, and what the stub returned.  gRPC between them is outside, and has a
    state of its own: [bound], which call each context was matched with, and [wire],
    the messages given to [Finish], each addressed to the call its responder was bound
    to.  From gRPC's documentation the steps take that a call is matched with one
    context registered for the method, while the server runs, and that its completion is
    delivered on that context's queue at any later time; that [Finish] sends its message
    to the call the context was matched with; that a caller gets a message addressed to
    its call; that a call may fail for its caller at any time (deadline, lost
    connection); and that a reply is reported as not sent only when its call is over
    for the caller.  Which message is in a context when [Finish] is called, and that
    the right caller gets it, is the business of the contexts. *)

From S2P Require Import Prelude Json Task Convert GrpcClient ApiServer.
#[local] Open Scope Z_scope.

Section system.
Context {PS Handler : Type}.

Inductive call_stage :=
| Waiting                  (* not matched with a context yet *)
| Matched                  (* matched; the completion is in a queue *)
| Answered                 (* its context has called Finish *)
| Closed                   (* the context is done with the call *)
| Dropped.                 (* given up before it was matched *)

Record call := mkCall {
  c_request : PbTask PS;
  c_stage : call_stage;
  c_result : option (Status * option (PbTask PS));  (* what the stub returned *)
}.

Record system := mkSystem {
  server : AsyncServer PS Handler;
  calls : list call;
  bound : gmap nat nat;                (* the call a context was matched with *)
  wire : list (nat * PbTask PS);       (* messages sent, with the call they are for *)
}.
Implicit Types (s : system) (c : call) (v : AsyncServer PS Handler).

Definition set_stage (x : call_stage) c : call := mkCall (c_request c) x (c_result c).
Definition set_result (x : Status * option (PbTask PS)) c : call := mkCall (c_request c) (c_stage c) (Some x).

(** The call has ended with an error for its caller. *)
Definition failed c : bool := match c_result c with Some (st, _) => negb (status_ok st) | None => false end.

(** ** Steps *)

(** gRPC matches call [i] with the context [a], which has asked for a call. *)
Definition match_call (i a : nat) s : option system :=
  c ← calls s !! i;
  match c_stage c, bound s !! a with
  | Waiting, None =>
      if accepting (server s) && existsb (fun ev => bool_decide (ev.1 = a) &&
           match ev.2 with OpRequest => true | OpReply => false end) (pending (server s))
      then Some (mkSystem (server s) (<[i := set_stage Matched c]> (calls s)) (<[a := i]> (bound s)) (wire s))
      else None
  | _, _ => None
  end.

(** Driver [d] gets the [k]-th pending event, the arrival of the call its context was
    matched with; the context answers, and [Finish] sends what is in [response_]. *)
Definition arrive (d k : nat) s : option system :=
  ev ← pending (server s) !! k;
  i ← bound s !! ev.1;
  c ← calls s !! i;
  match ev.2 with
  | OpRequest =>
      v ← server_exec (Event d k true (c_request c)) (server s);
      x ← ctxs v !! ev.1;
      x ← x;
      r ← response_ x;
      Some (mkSystem v (<[i := set_stage Answered c]> (calls s)) (bound s) (wire s ++ [(i, r)]))
  | OpReply => None
  end.

(** ... the end of a reply. *)
Definition replied (d k : nat) (ok : bool) s : option system :=
  ev ← pending (server s) !! k;
  i ← bound s !! ev.1;
  c ← calls s !! i;
  match ev.2 with
  | OpReply =>
      if ok || failed c then
        v ← server_exec (Event d k ok (c_request c)) (server s);
        Some (mkSystem v (<[i := set_stage Closed c]> (calls s)) (delete ev.1 (bound s)) (wire s))
      else None
  | OpRequest => None
  end.

(** The stub of call [i] returns a message that is for it. *)
Definition receive (i m : nat) s : option system :=
  c ← calls s !! i;
  msg ← wire s !! m;
  match c_result c with
  | None =>
      if bool_decide (msg.1 = i)
      then Some (mkSystem (server s) (<[i := set_result (Status_OK, Some msg.2) c]> (calls s)) (bound s) (wire s))
      else None
  | Some _ => None
  end.

(** The stub returns an error. *)
Definition fail (i : nat) (st : Status) s : option system :=
  c ← calls s !! i;
  match c_result c with
  | None => if status_ok st then None
            else Some (mkSystem (server s) (<[i := set_result (st, None) c]> (calls s)) (bound s) (wire s))
  | Some _ => None
  end.

(** A request whose caller has gone need not reach the server. *)
Definition drop_call (i : nat) s : option system :=
  c ← calls s !! i;
  match c_stage c with
  | Waiting =>
      if failed c
      then Some (mkSystem (server s) (<[i := set_stage Dropped c]> (calls s)) (bound s) (wire s)) else None
  | _ => None
  end.

Inductive system_act :=
| Call (p : PbTask PS)
| Match (i a : nat)
| Arrive (d k : nat)
| ReplySent (d k : nat) (ok : bool)
| Receive (i m : nat)
| Fail (i : nat) (st : Status)
| DropCall (i : nat)
| Reject (d k : nat) (rq : PbTask PS)          (* a context without a call, woken by the shutdown *)
| ServerStep (a : server_act (PS := PS)).      (* shutdown and drivers leaving *)

Definition system_exec (a : system_act) s : option system :=
  match a with
  | Call p => Some (mkSystem (server s) (calls s ++ [mkCall p Waiting None]) (bound s) (wire s))
  | Match i a => match_call i a s
  | Arrive d k => arrive d k s
  | ReplySent d k ok => replied d k ok s
  | Receive i m => receive i m s
  | Fail i st => fail i st s
  | DropCall i => drop_call i s
  | Reject d k rq =>
      ev ← pending (server s) !! k;
      match ev.2, bound s !! ev.1 with
      | OpRequest, None =>
          v ← server_exec (Event d k false rq) (server s); Some (mkSystem v (calls s) (bound s) (wire s))
      | _, _ => None
      end
  | ServerStep a =>
      match a with
      | Event _ _ _ _ => None
      | _ => v ← server_exec a (server s); Some (mkSystem v (calls s) (bound s) (wire s))
      end
  end.

(** ** What one event does to the server *)

Lemma event_effect n v v' d k a op ok rq :
  server_inv n v -> pending v !! k = Some (a, op) -> server_exec (Event d k ok rq) v = Some v' ->
  accepting v' = accepting v /\
  match op, ok with
  | OpRequest, true => pending v' = delete k (pending v) ++ [(a, OpReply)] /\ lost v' = lost v /\
      (exists q, ctxs v' !! a = Some (Some (mkCtx FINISH q (Some rq) (Some (OnSubmitTask rq)))))
  | OpReply, true => pending v' = delete k (pending v) ++ [(length (ctxs v), OpRequest)] /\ lost v' = lost v
  | _, false => pending v' = delete k (pending v) /\ lost v' = S (lost v) /\
      (op = OpRequest -> accepting v = false)
  end.
Proof.
  intros HI Hk E. destruct (si_out _ _ HI a op) as (x & Hx & Hw); [by eapply list_elem_of_lookup_2|].
  cbn [server_exec] in E. unfold drive_event in E. rewrite Hk in E.
  apply bind_Some in E as (r & Er & E). apply bind_Some in Er as (dr & _ & Er). cbn [mbind option_bind fst snd] in Er.
  destruct (_ && _ && _) eqn:Hg in Er; [|done]. injection Er as <-. apply andb_true_iff in Hg as [_ Hg].
  destruct x as [[| |] q rq0 rp0]; unfold waits in Hw; cbn in Hw; simplify_eq;
    destruct ok; unfold Proceed, new_context, start_op in E; cbn in E.
  - change (list_alter ?f ?i ?l) with (alter f i l) in E. rewrite (lookup_alter_at _ _ _ _ Hx) in E. cbn in E.
    destruct (cq_open v !! q) as [[]|]; simplify_eq/=. split_and!; try done. exists q.
    apply list_lookup_insert_eq. rewrite length_alter. by eapply lookup_lt_Some.
  - rewrite Hx in E. simplify_eq/=. split_and!; try done. intros _. by destruct (accepting v).
  - rewrite Hx in E. cbn in E. destruct (cq_open v !! q) as [[]|]; simplify_eq/=. by rewrite length_insert.
  - rewrite Hx in E. by simplify_eq/=.
Qed.

(** The steps of [Shutdown] and of a driver that leaves touch no context. *)
Lemma other_effect a v v' :
  match a with Event _ _ _ _ => False | _ => True end -> server_exec a v = Some v' ->
  pending v' = pending v /\ lost v' = lost v /\ (accepting v' = true -> accepting v = true).
Proof.
  destruct a as [d k ok rq|d| |q]; [done|intros _ E..]; cbn [server_exec] in E.
  - unfold drive_end in E. apply bind_Some in E as (dr & _ & E). destruct (_ && _) in E; [|done].
    by destruct (dr.2); simplify_eq/=.
  - unfold stop_server in E. by destruct (server_ v); simplify_eq/=.
  - by destruct (shutdown_ v && negb (accepting v)); simplify_eq/=.
Qed.

(** ** The service the clients see *)

(** What an answer has to be: the request, with the state SUCCESS of task.proto (2). *)
Record echoes (rq rp : PbTask PS) : Prop := {
  ec_state : pb_state rp = 2;
  ec_task_id : pb_task_id rp = pb_task_id rq;
  ec_client_id : pb_client_id rp = pb_client_id rq;
  ec_priority : pb_priority rp = pb_priority rq;
  ec_func_name : pb_func_name rp = pb_func_name rq;
  ec_func_params : pb_func_params rp = pb_func_params rq;
  ec_required : pb_required rp = pb_required rq;
  ec_shard : pb_shard rp = pb_shard rq;
  ec_timeout_ms : pb_timeout_ms rp = pb_timeout_ms rq;
  ec_max_retry : pb_max_retry rp = pb_max_retry rq;
  ec_retry_count : pb_retry_count rp = pb_retry_count rq;
  ec_submit_ts : pb_submit_ts rp = pb_submit_ts rq;
  ec_start_ts : pb_start_ts rp = pb_start_ts rq;
  ec_finish_ts : pb_finish_ts rp = pb_finish_ts rq;
  ec_result : pb_result rp = pb_result rq;
  ec_error_msg : pb_error_msg rp = pb_error_msg rq;
}.

Lemma OnSubmitTask_echoes rq : echoes rq (OnSubmitTask rq).
Proof. by split. Qed.

Lemma echoes_eq rq rp : echoes rq rp -> rp = OnSubmitTask rq.
Proof. intros []. destruct rp. unfold OnSubmitTask. cbn in *. by subst. Qed.

(** A service that answers a call at once, or lets it fail: the calls made so far, each
    with what its caller got. *)
#[local] Notation echo_state := (list (PbTask PS * option (Status * option (PbTask PS)))).

Inductive echo_step : echo_state -> echo_state -> Prop :=
| echo_call e p : echo_step e (e ++ [(p, None)])
| echo_answer e i p r :
    e !! i = Some (p, None) -> echoes p r -> echo_step e (<[i := (p, Some (Status_OK, Some r))]> e)
| echo_fail e i p st :
    e !! i = Some (p, None) -> status_ok st = false -> echo_step e (<[i := (p, Some (st, None))]> e).

(** ** Invariant *)

Definition sent (x : call_stage) : Prop := x = Answered \/ x = Closed.
Definition taken (x : call_stage) : Prop := x = Matched \/ x = Answered.

Definition lost_call c : Z := match c_stage c with Closed => if failed c then 1 else 0 | _ => 0 end.
Definition failed_call c : Z := if failed c then 1 else 0.

(** What holds of one call: an answer that was returned is one to its own request. *)
Record call_ok c : Prop := {
  co_dropped : c_stage c = Dropped -> failed c = true;
  co_result : forall st resp, c_result c = Some (st, resp) -> status_ok st = true ->
    st = Status_OK /\ (exists r, resp = Some r /\ echoes (c_request c) r) /\ sent (c_stage c);
}.

(** The operation a context is in for its call. *)
Definition serves (x : call_stage) (a : nat) v : Prop :=
  (x = Matched /\ (a, OpRequest) ∈ pending v) \/ (x = Answered /\ (a, OpReply) ∈ pending v).

Record system_inv (n : nat) s : Prop := {
  y_server : server_inv n (server s);
  y_ready : shutdown_ (server s) = false -> ready (server s) /\ server_ (server s) = true;
  y_calls : forall i c, calls s !! i = Some c -> call_ok c;
  y_bound : forall a i, bound s !! a = Some i -> exists c, calls s !! i = Some c /\ serves (c_stage c) a (server s);
  y_inj : forall a b i, bound s !! a = Some i -> bound s !! b = Some i -> a = b;
  y_reply : forall a, (a, OpReply) ∈ pending (server s) -> is_Some (bound s !! a);
  y_taken : forall i c, calls s !! i = Some c -> taken (c_stage c) -> exists a, bound s !! a = Some i;
  y_wire : forall i r, (i, r) ∈ wire s -> exists c, calls s !! i = Some c /\ echoes (c_request c) r /\ sent (c_stage c);
  y_sent : forall i c, calls s !! i = Some c -> sent (c_stage c) -> exists r, (i, r) ∈ wire s;
  y_lost : accepting (server s) = true -> Z.of_nat (lost (server s)) <= total lost_call (calls s);
}.

(** One call changes, and the server and gRPC with it. *)
Lemma one_call_inv n s v b w i c c' :
  system_inv n s -> calls s !! i = Some c -> c_request c' = c_request c -> call_ok c' ->
  server_inv n v -> (shutdown_ v = false -> ready v /\ server_ v = true) ->
  (forall a, b !! a = Some i -> serves (c_stage c') a v) ->
  (forall a j, j <> i -> b !! a = Some j <-> bound s !! a = Some j) ->
  (forall a j op, bound s !! a = Some j -> j <> i -> (a, op) ∈ pending (server s) -> (a, op) ∈ pending v) ->
  (forall a a', b !! a = Some i -> b !! a' = Some i -> a = a') ->
  (forall a, (a, OpReply) ∈ pending v -> is_Some (b !! a)) ->
  (taken (c_stage c') -> exists a, b !! a = Some i) ->
  (forall j r, (j, r) ∈ w -> (j, r) ∈ wire s \/ j = i /\ echoes (c_request c) r /\ sent (c_stage c')) ->
  wire s ⊆ w -> (sent (c_stage c) -> sent (c_stage c')) ->
  (sent (c_stage c') -> exists r, (i, r) ∈ w) ->
  (accepting v = true -> Z.of_nat (lost v) <= total lost_call (calls s) - lost_call c + lost_call c') ->
  system_inv n (mkSystem v (<[i := c']> (calls s)) b w).
Proof.
  intros HI Hi Hrq HC HV HR HB Hrest Hpend Hinj Hrep Htk Hw Hww Hmon Hsent HL.
  assert (forall j cj, <[i := c']> (calls s) !! j = Some cj ->
    j = i /\ cj = c' \/ j <> i /\ calls s !! j = Some cj) as Hcase.
  { intros j cj Hj. apply list_lookup_insert_Some in Hj as [(-> & -> & _)|[? Hj]]; auto. }
  assert (<[i := c']> (calls s) !! i = Some c') as Hself.
  { apply list_lookup_insert_eq. by eapply lookup_lt_Some. }
  assert (forall j cj, j <> i -> calls s !! j = Some cj -> <[i := c']> (calls s) !! j = Some cj) as Hother.
  { intros j cj Hne Hj. by rewrite list_lookup_insert_ne. }
  split; cbn [server calls bound wire]; try done.
  - intros j cj [[-> ->]|[_ Hj]]%Hcase; [done|by eapply (y_calls _ _ HI)].
  - intros a j Hj. destruct (decide (j = i)) as [->|Hne]; [by eauto|]. apply Hrest in Hj; [|done].
    destruct (y_bound _ _ HI _ _ Hj) as (cj & Hcj & Hs). exists cj. split; [by apply Hother|].
    destruct Hs as [[? ?]|[? ?]]; [left|right]; split; try done; by eapply Hpend.
  - intros a a' j Ha Ha'. destruct (decide (j = i)) as [->|Hne]; [by eapply Hinj|].
    apply Hrest in Ha, Ha'; try done. by eapply (y_inj _ _ HI).
  - intros j cj [[-> ->]|[Hne Hj]]%Hcase Ht; [by apply Htk|].
    destruct (y_taken _ _ HI _ _ Hj Ht) as [a Ha]. exists a. by apply Hrest.
  - intros j r [Hin|(-> & He & Hs)]%Hw; [|exists c'; by rewrite Hrq].
    destruct (y_wire _ _ HI _ _ Hin) as (cj & Hj & He & Hs). destruct (decide (j = i)) as [->|Hne]; [|eauto].
    assert (cj = c) as -> by congruence. exists c'. rewrite Hrq. auto.
  - intros j cj [[-> ->]|[Hne Hj]]%Hcase Hs; [by apply Hsent|].
    destruct (y_sent _ _ HI _ _ Hj Hs) as [r Hr]. exists r. by apply Hww.
  - rewrite (total_insert _ _ _ _ _ Hi). exact HL.
Qed.

(** The caller's side of a call changes, or it is given up. *)
Lemma inv_result n s i c c' :
  system_inv n s -> calls s !! i = Some c -> c_request c' = c_request c -> call_ok c' ->
  c_stage c' = c_stage c \/ (c_stage c = Waiting /\ c_stage c' = Dropped) -> lost_call c <= lost_call c' ->
  system_inv n (mkSystem (server s) (<[i := c']> (calls s)) (bound s) (wire s)).
Proof.
  intros HI Hi Hrq HC Hst HL. unfold sent, taken in *. eapply one_call_inv; try done; try (by apply HI).
  - intros a Ha. destruct (y_bound _ _ HI _ _ Ha) as (c1 & Hc1 & Hs). assert (c1 = c) as -> by congruence.
    destruct Hst as [->|[Hw _]]; [done|]. destruct Hs as [[? _]|[? _]]; congruence.
  - intros a a' Ha Ha'. by eapply (y_inj _ _ HI).
  - intros Ht. eapply (y_taken _ _ HI); [exact Hi|]. destruct Hst as [<-|[_ E]]; [done|].
    rewrite E in Ht. by destruct Ht.
  - intros j r Hin. by left.
  - unfold sent. destruct Hst as [->|[-> _]]; [done|]. by intros [?|?].
  - intros Hs. eapply (y_sent _ _ HI); [exact Hi|]. destruct Hst as [<-|[_ E]]; [done|]. rewrite E in Hs. by destruct Hs.
  - intros Hacc. pose proof (y_lost _ _ HI Hacc). lia.
Qed.

Lemma pending_delete n v k a b op op' :
  server_inv n v -> pending v !! k = Some (a, op) -> (b, op') ∈ delete k (pending v) <-> b <> a /\ (b, op') ∈ pending v.
Proof.
  intros HI Hk. split.
  - intros Hin. split; [by eapply pending_unique|]. rewrite (delete_Permutation _ _ _ Hk). set_solver.
  - intros [Hne Hin]. rewrite (delete_Permutation _ _ _ Hk) in Hin. set_solver.
Qed.

(** A context waits for one thing at a time. *)
Lemma one_op n v a op op' : server_inv n v -> (a, op) ∈ pending v -> (a, op') ∈ pending v -> op' = op.
Proof.
  intros HI H1 H2. destruct (si_out _ _ HI _ _ H1) as (x1 & E1 & W1).
  destruct (si_out _ _ HI _ _ H2) as (x2 & E2 & W2). congruence.
Qed.

Lemma match_inv n s s' i a : system_inv n s -> match_call i a s = Some s' -> system_inv n s'.
Proof.
  intros HI E. unfold match_call in E. apply bind_Some in E as (c & Hi & E).
  destruct (c_stage c) eqn:Hst; try done. destruct (bound s !! a) eqn:Ha; [done|].
  destruct (_ && _) eqn:Hg in E; [|done]. simplify_eq. apply andb_true_iff in Hg as [Hacc Hg].
  apply existsb_exists in Hg as ([a' op] & Hin%list_elem_of_In & Hg). cbn in Hg.
  destruct (bool_decide (a' = a)) eqn:Hd; [|done]. apply bool_decide_eq_true in Hd as ->. destruct op; [|done].
  assert (forall b, bound s !! b <> Some i) as Hno.
  { intros b Hb. destruct (y_bound _ _ HI _ _ Hb) as (c1 & Hc1 & Hs). assert (c1 = c) as -> by congruence.
    destruct Hs as [[? _]|[? _]]; congruence. }
  assert (forall b, <[a := i]> (bound s) !! b = Some i -> b = a) as Honly.
  { intros b Hb. apply lookup_insert_Some in Hb as [[? _]|[_ Hb]]; [done|by destruct (Hno b)]. }
  eapply one_call_inv; try done; try (by apply HI).
  - split; [done|]. cbn. intros st resp Hr Hok.
    destruct (co_result _ (y_calls _ _ HI _ _ Hi) st resp Hr Hok) as (_ & _ & Hs). rewrite Hst in Hs. by destruct Hs.
  - intros b ->%Honly. by left.
  - intros b j Hne. rewrite lookup_insert_Some. split; [intros [[_ ?]|[_ ?]]; [congruence|done]|].
    intros Hb. right. split; [|done]. intros <-. congruence.
  - intros b b' ->%Honly ->%Honly. done.
  - intros b Hb. destruct (decide (b = a)) as [->|Hne]; [rewrite lookup_insert_eq; eauto|].
    rewrite lookup_insert_ne by done. by apply (y_reply _ _ HI).
  - intros _. exists a. by rewrite lookup_insert_eq.
  - intros j r Hjr. by left.
  - rewrite Hst. by intros [?|?].
  - by intros [?|?].
  - intros _. pose proof (y_lost _ _ HI Hacc).
    assert (lost_call c = 0) as -> by (unfold lost_call; by rewrite Hst).
    change (lost_call (set_stage _ c)) with 0. lia.
Qed.

Lemma arrive_inv n s s' d k : system_inv n s -> arrive d k s = Some s' -> system_inv n s'.
Proof.
  intros HI E. unfold arrive in E. apply bind_Some in E as ([a op] & Hk & E). cbn [fst snd] in E.
  apply bind_Some in E as (i & Hb & E). apply bind_Some in E as (c & Hi & E). destruct op; [|done].
  apply bind_Some in E as (v & Ev & E). pose proof (y_server _ _ HI) as HS.
  destruct (event_effect _ _ _ _ _ _ _ _ _ HS Hk Ev) as (Hacc & HP & Hlost & q & Hx). rewrite Hx in E. cbn in E. simplify_eq.
  pose proof (list_elem_of_lookup_2 _ _ _ Hk) as Hka.
  destruct (y_bound _ _ HI _ _ Hb) as (c1 & Hc1 & Hs). assert (c1 = c) as -> by congruence.
  assert (c_stage c = Matched) as Hst.
  { destruct Hs as [[? _]|[_ Hr]]; [done|]. by pose proof (one_op _ _ _ _ _ HS Hka Hr). }
  assert (forall b op, (b, op) ∈ pending v <-> b <> a /\ (b, op) ∈ pending (server s) \/ (b, op) = (a, OpReply)) as HB.
  { intros b op. by rewrite HP, elem_of_app, (pending_delete _ _ _ _ _ _ _ HS Hk), list_elem_of_singleton. }
  eapply one_call_inv; try done.
  - split; [done|]. cbn. intros st resp Hr Hok.
    destruct (co_result _ (y_calls _ _ HI _ _ Hi) st resp Hr Hok) as (_ & _ & Hf). rewrite Hst in Hf. by destruct Hf.
  - by eapply server_step.
  - intros Hsh. eapply (ready_step _ _ _ _ HS (y_ready _ _ HI) Ev Hsh).
  - intros b Hbi. rewrite (y_inj _ _ HI _ _ _ Hbi Hb). right. split; [done|]. apply HB. by right.
  - intros b j op Hbj Hne Hin. apply HB. left. split; [|done]. intros ->. congruence.
  - intros b b' H1 H2. by eapply (y_inj _ _ HI).
  - intros b [[Hne Hbr]|[= ->]]%HB; [by apply (y_reply _ _ HI)|eauto].
  - intros _. eauto.
  - intros j r [?|Hjr]%elem_of_app; [by left|]. apply list_elem_of_singleton in Hjr. simplify_eq.
    right. split_and!; [done|apply OnSubmitTask_echoes|by left].
  - set_solver.
  - intros _. by left.
  - intros _. eexists. apply elem_of_app. right. by apply list_elem_of_singleton.
  - intros Ha. rewrite Hlost. rewrite Hacc in Ha. pose proof (y_lost _ _ HI Ha).
    assert (lost_call c = 0) as -> by (unfold lost_call; by rewrite Hst).
    change (lost_call (set_stage _ c)) with 0. lia.
Qed.

Lemma replied_inv n s s' d k ok : system_inv n s -> replied d k ok s = Some s' -> system_inv n s'.
Proof.
  intros HI E. unfold replied in E. apply bind_Some in E as ([a op] & Hk & E). cbn [fst snd] in E.
  apply bind_Some in E as (i & Hb & E). apply bind_Some in E as (c & Hi & E). destruct op; [done|].
  destruct (ok || failed c) eqn:Hok; [|done].
  apply bind_Some in E as (v & Ev & E). simplify_eq. pose proof (y_server _ _ HI) as HS.
  pose proof (list_elem_of_lookup_2 _ _ _ Hk) as Hka.
  destruct (event_effect _ _ _ _ _ _ _ _ _ HS Hk Ev) as (Hacc & HE).
  destruct (y_bound _ _ HI _ _ Hb) as (c1 & Hc1 & Hs). assert (c1 = c) as -> by congruence.
  assert (c_stage c = Answered) as Hst.
  { destruct Hs as [[_ Hr]|[? _]]; [|done]. by pose proof (one_op _ _ _ _ _ HS Hka Hr). }
  assert (forall b op, b <> a -> (b, op) ∈ pending (server s) -> (b, op) ∈ pending v) as HB.
  { intros b op Hne Hin. assert ((b, op) ∈ delete k (pending (server s))) as Hd
      by (by apply (pending_delete _ _ _ _ _ _ _ HS Hk)).
    destruct ok; destruct HE as (-> & _); [apply elem_of_app; by left|done]. }
  assert (forall b, (b, OpReply) ∈ pending v -> b <> a /\ (b, OpReply) ∈ pending (server s)) as HB'.
  { intros b. rewrite <- (pending_delete _ _ _ _ _ _ _ HS Hk). destruct ok; destruct HE as (-> & _); [|done].
    rewrite elem_of_app, list_elem_of_singleton. intros [?|?]; [done|congruence]. }
  assert (forall b, delete a (bound s) !! b <> Some i) as Hno.
  { intros b [Hne Hbi]%lookup_delete_Some. by apply Hne, (y_inj _ _ HI _ _ _ Hb). }
  eapply one_call_inv; try done.
  - split; [done|]. cbn. intros st resp Hr Hst'.
    destruct (co_result _ (y_calls _ _ HI _ _ Hi) st resp Hr Hst') as (? & ? & _). split_and!; [done..|]. by right.
  - by eapply server_step.
  - intros Hsh. eapply (ready_step _ _ _ _ HS (y_ready _ _ HI) Ev Hsh).
  - intros b Hbi. by destruct (Hno b).
  - intros b j Hne. rewrite lookup_delete_Some. split; [by intros [_ ?]|]. intros Hbj. split; [|done]. intros <-. congruence.
  - intros b j op Hbj Hne Hin. apply HB; [|done]. intros ->. congruence.
  - intros b b' Hbi. by destruct (Hno b).
  - intros b [Hne Hbr]%HB'. rewrite lookup_delete_ne by done. by apply (y_reply _ _ HI).
  - by intros [?|?].
  - intros j r Hjr. by left.
  - intros _. by right.
  - intros _. eapply (y_sent _ _ HI); [exact Hi|]. rewrite Hst. by left.
  - intros Ha. rewrite Hacc in Ha. pose proof (y_lost _ _ HI Ha).
    assert (lost_call c = 0) as -> by (unfold lost_call; by rewrite Hst).
    change (lost_call (set_stage _ c)) with (if failed c then 1 else 0).
    destruct ok; cbn [orb] in Hok.
    + destruct HE as [_ ->]. destruct (failed c); lia.
    + destruct HE as (_ & -> & _). rewrite Hok. lia.
Qed.

(** The server moves and the calls it has taken stay pending. *)
Lemma inv_server n s v :
  system_inv n s -> server_inv n v -> (shutdown_ v = false -> ready v /\ server_ v = true) ->
  (forall a, (a, OpReply) ∈ pending v -> (a, OpReply) ∈ pending (server s)) ->
  (forall a op, is_Some (bound s !! a) -> (a, op) ∈ pending (server s) -> (a, op) ∈ pending v) ->
  (accepting v = true -> accepting (server s) = true /\ lost v = lost (server s)) ->
  system_inv n (mkSystem v (calls s) (bound s) (wire s)).
Proof.
  intros HI HV HR HP HQ HL. split; cbn [server calls bound wire]; try done; try apply HI.
  - intros a i Ha. destruct (y_bound _ _ HI _ _ Ha) as (c & Hc & Hs). exists c. split; [done|].
    destruct Hs as [[? ?]|[? ?]]; [left|right]; split; try done; by apply HQ; eauto.
  - intros a Ha%HP. by apply (y_reply _ _ HI).
  - intros [Ha ->]%HL. by apply (y_lost _ _ HI).
Qed.

Lemma call_inv n s p :
  system_inv n s -> system_inv n (mkSystem (server s) (calls s ++ [mkCall p Waiting None]) (bound s) (wire s)).
Proof.
  intros HI. assert (forall i c, (calls s ++ [mkCall p Waiting None]) !! i = Some c ->
    calls s !! i = Some c \/ c = mkCall p Waiting None) as Hcase.
  { intros i c [Hi|[_ Hi]]%lookup_app_Some; [by left|]. apply list_lookup_singleton_Some in Hi as [_ <-]. by right. }
  split; cbn [server calls bound wire]; try apply HI.
  - intros i c [Hi| ->]%Hcase; [by eapply (y_calls _ _ HI)|by split].
  - intros a i (c & Hc & Hs)%(y_bound _ _ HI). exists c. split; [by apply lookup_app_l_Some|done].
  - intros i c [Hi| ->]%Hcase Ht; [by eapply (y_taken _ _ HI)|by destruct Ht].
  - intros i r (c & Hc & Hs)%(y_wire _ _ HI). exists c. split; [by apply lookup_app_l_Some|done].
  - intros i c [Hi| ->]%Hcase Ht; [by eapply (y_sent _ _ HI)|by destruct Ht].
  - intros Ha. rewrite total_app. cbn. pose proof (y_lost _ _ HI Ha). lia.
Qed.

Lemma client_inv n a s s' :
  system_inv n s -> system_exec a s = Some s' ->
  match a with Receive _ _ | Fail _ _ | DropCall _ => True | _ => False end -> system_inv n s'.
Proof.
  intros HI E Ha. destruct a as [| | | |i m|i st|i| |]; try done; cbn [system_exec] in E.
  - unfold receive in E. apply bind_Some in E as (c & Hi & E). apply bind_Some in E as ([j r] & Hm & E).
    destruct (c_result c) eqn:Hr; [done|]. cbn in E. case_bool_decide; simplify_eq.
    apply list_elem_of_lookup_2 in Hm. destruct (y_wire _ _ HI _ _ Hm) as (c1 & Hc1 & He & Hs).
    assert (c1 = c) as -> by congruence. destruct (y_calls _ _ HI _ _ Hi) as [H1 _].
    eapply inv_result; [done|done|done| |by left|].
    + split; [|cbn; intros; simplify_eq; by eauto]. cbn. intros Hd. rewrite Hd in Hs. by destruct Hs.
    + unfold lost_call, failed. cbn. rewrite Hr. destruct (c_stage c); done.
  - unfold fail in E. apply bind_Some in E as (c & Hi & E). destruct (y_calls _ _ HI _ _ Hi) as [H1 _].
    destruct (c_result c) eqn:Hr; [done|]. destruct (status_ok st) eqn:Hst; simplify_eq.
    eapply inv_result; [done|done|done| |by left|].
    + split; cbn.
      * intros Hd%H1. unfold failed in Hd. by rewrite Hr in Hd.
      * intros; simplify_eq. congruence.
    + unfold lost_call, failed. cbn. rewrite Hst, Hr. by destruct (c_stage c).
  - unfold drop_call in E. apply bind_Some in E as (c & Hi & E). destruct (y_calls _ _ HI _ _ Hi) as [_ H2].
    destruct (c_stage c) eqn:Hst; try done. destruct (failed c) eqn:Hf in E; simplify_eq.
    eapply inv_result; [done|done|done| |by right|].
    + split; [done|]. cbn. intros st resp Hr Hs. destruct (H2 _ _ Hr Hs) as (_ & _ & [?|?]); congruence.
    + unfold lost_call. cbn. by rewrite Hst.
Qed.

Lemma system_step n a s s' : system_inv n s -> system_exec a s = Some s' -> system_inv n s'.
Proof.
  intros HI E. pose proof (y_server _ _ HI) as HS. pose proof (client_inv n a s s' HI E) as HC.
  destruct a as [p|i a|d k|d k ok|i m|i st|i|d k rq|a]; try (by apply HC); clear HC; cbn [system_exec] in E.
  - simplify_eq. by apply call_inv.
  - by eapply match_inv.
  - by eapply arrive_inv.
  - by eapply replied_inv.
  - apply bind_Some in E as ([a op] & Hk & E). cbn [fst snd] in E. destruct op; [|done].
    destruct (bound s !! a) eqn:Hb; [done|]. apply bind_Some in E as (v & Ev & E). simplify_eq.
    destruct (event_effect _ _ _ _ _ _ _ _ _ HS Hk Ev) as (Hacc & HP & Hl & Hno). eapply inv_server; [done| | | | |].
    + by eapply server_step.
    + intros Hs. eapply (ready_step _ _ _ _ HS (y_ready _ _ HI) Ev Hs).
    + intros b. rewrite HP, (pending_delete _ _ _ _ _ _ _ HS Hk). by intros [_ ?].
    + intros b op [j Hj] Hin. rewrite HP. apply (pending_delete _ _ _ _ _ _ _ HS Hk). split; [|done]. intros ->. congruence.
    + intros Ha. rewrite Hacc, (Hno eq_refl) in Ha. done.
  - assert (match a with Event _ _ _ _ => False | _ => True end) as Hne by (by destruct a).
    assert (exists v, server_exec a (server s) = Some v /\ s' = mkSystem v (calls s) (bound s) (wire s)) as (v & Ev & ->).
    { destruct a; try done; apply bind_Some in E as (v & Ev & E); simplify_eq; eauto. }
    destruct (other_effect _ _ _ Hne Ev) as (HP & Hl & Ha). eapply inv_server; [done| | | | |].
    + by eapply server_step.
    + intros Hs. eapply (ready_step _ _ _ _ HS (y_ready _ _ HI) Ev Hs).
    + intros b. by rewrite HP.
    + intros b op _. by rewrite HP.
    + by auto.
Qed.

(** A server that [Run] has just started, and no calls yet. *)
Definition started_with (hc : nat) (env : option string) (port : Z) s : Prop :=
  Run hc env (Some port) AsyncServer_new = Ret (server s) /\ calls s = [] /\ bound s = ∅ /\ wire s = [].

Lemma reach_system hc env nc port s :
  (0 < hc)%nat -> initial_contexts hc env = Ret nc ->
  reachable system_exec (started_with hc env port) s -> system_inv (Z.to_nat nc) s.
Proof.
  intros Hc HE Hr. revert s Hr. apply reachable_invariant; [|intros; by eapply system_step].
  intros s (HR & HC & HB & HW). destruct (reachable_ready hc env nc port (server s) (server s) Hc HE HR) as [HI HRd]; [by apply reach_init|].
  split; rewrite ?HC, ?HB, ?HW; try done.
  - intros a Ha. exfalso. destruct (Run_starts (PS:=PS) (Handler:=Handler) hc env port nc HE) as [HS _].
    destruct (HS Hc) as (s0 & E0 & _ & HP & _). rewrite HR in E0. simplify_eq. rewrite HP in Ha.
    apply list_elem_of_fmap in Ha as (j & ? & _). done.
  - intros i r Hin. by apply elem_of_nil in Hin.
  - intros _. destruct (Run_starts (PS:=PS) (Handler:=Handler) hc env port nc HE) as [HS _].
    destruct (HS Hc) as (s0 & E0 & _ & _ & _ & _ & _ & _ & _ & _ & HL & _). rewrite HR in E0. simplify_eq. rewrite HL. done.
Qed.

(** ** Refinement *)

Definition seen_by_client c : PbTask PS * option (Status * option (PbTask PS)) := (c_request c, c_result c).
Definition abstraction s : echo_state := seen_by_client <$> calls s.

(** The server's side of a call is not visible. *)
Lemma abstraction_stage (l : list call) i c x :
  l !! i = Some c -> seen_by_client <$> <[i := set_stage x c]> l = seen_by_client <$> l.
Proof.
  intros Hi. rewrite list_fmap_insert. change (seen_by_client (set_stage x c)) with (seen_by_client c).
  apply list_insert_id. by rewrite list_lookup_fmap, Hi.
Qed.

Lemma system_echo n a s s' :
  system_inv n s -> system_exec a s = Some s' ->
  abstraction s' = abstraction s \/ echo_step (abstraction s) (abstraction s').
Proof.
  intros HI E. unfold abstraction. destruct a as [p|i a|d k|d k ok|i m|i st|i|d k rq|a]; cbn [system_exec] in E.
  - simplify_eq. right. cbn. rewrite fmap_app. apply echo_call.
  - left. unfold match_call in E. apply bind_Some in E as (c & Hi & E).
    destruct (c_stage c), (bound s !! a); try done. destruct (_ && _) in E; simplify_eq. by apply abstraction_stage.
  - left. unfold arrive in E. apply bind_Some in E as (ev & _ & E). apply bind_Some in E as (i & _ & E).
    apply bind_Some in E as (c & Hi & E). destruct (ev.2); [|done]. apply bind_Some in E as (v & _ & E).
    apply bind_Some in E as (x & _ & E). apply bind_Some in E as (y & _ & E). apply bind_Some in E as (r & _ & E).
    simplify_eq. by apply abstraction_stage.
  - left. unfold replied in E. apply bind_Some in E as (ev & _ & E). apply bind_Some in E as (i & _ & E).
    apply bind_Some in E as (c & Hi & E). destruct (ev.2); [done|]. destruct (_ || _) in E; [|done].
    apply bind_Some in E as (v & _ & E). simplify_eq. by apply abstraction_stage.
  - right. unfold receive in E. apply bind_Some in E as (c & Hi & E). apply bind_Some in E as ([j r] & Hm & E).
    destruct (c_result c) eqn:Hr; [done|]. cbn in E. case_bool_decide; simplify_eq.
    apply list_elem_of_lookup_2 in Hm. destruct (y_wire _ _ HI _ _ Hm) as (c1 & Hc1 & He & _).
    assert (c1 = c) as -> by congruence. cbn [calls]. rewrite list_fmap_insert.
    apply echo_answer; [|done]. rewrite list_lookup_fmap, Hi. cbn. unfold seen_by_client. by rewrite Hr.
  - right. unfold fail in E. apply bind_Some in E as (c & Hi & E). destruct (c_result c) eqn:Hr; [done|].
    destruct (status_ok st) eqn:Hst; simplify_eq. cbn [calls]. rewrite list_fmap_insert.
    apply echo_fail; [|done]. rewrite list_lookup_fmap, Hi. cbn. unfold seen_by_client. by rewrite Hr.
  - left. unfold drop_call in E. apply bind_Some in E as (c & Hi & E). destruct (c_stage c); try done.
    destruct (failed c); simplify_eq. by apply abstraction_stage.
  - left. apply bind_Some in E as (ev & _ & E). destruct (ev.2), (bound s !! ev.1); try done.
    apply bind_Some in E as (v & _ & E). by simplify_eq.
  - left. destruct a; try done; apply bind_Some in E as (v & _ & E); by simplify_eq.
Qed.

(** [C7] Clients, gRPC's bindings, completion queues, contexts and drivers together
    behave like a service that answers a call at once with its own request in state
    SUCCESS, or lets it fail: whatever the interleaving of any number of calls,
    of completions in the queues, of failures and of a shutdown, what the callers see is
    what some sequence of steps of that service shows.  In particular every answer has
    all sixteen fields right for the call that gets it, no answer goes to another call
    and none is made up. *)
Theorem server_refines_echo hc env nc port s :
  (0 < hc)%nat -> initial_contexts hc env = Ret nc ->
  reachable system_exec (started_with hc env port) s -> rtc echo_step [] (abstraction s).
Proof.
  intros Hc HE Hr. induction Hr as [s (_ & HC & _)|s a s' Hr IH E].
  - unfold abstraction. rewrite HC. apply rtc_refl.
  - pose proof (reach_system _ _ _ _ _ Hc HE Hr) as HI.
    destruct (system_echo _ _ _ _ HI E) as [->|Eb]; [done|]. by eapply rtc_r.
Qed.

(** ** Every call is answered *)

(** Steps a call still needs: match, arrival, end of the reply, return of the stub. *)
Definition call_work c : Z :=
  match c_stage c with Waiting => 3 | Matched => 2 | Answered => 1 | Closed | Dropped => 0 end +
  match c_result c with None => 1 | Some _ => 0 end.
Definition serving (a : system_act) : bool :=
  match a with Match _ _ | Arrive _ _ | ReplySent _ _ _ | Receive _ _ | DropCall _ => true | _ => false end.

Lemma event_frame d k ok rq v v' :
  server_exec (Event d k ok rq) v = Some v' -> accepting v' = accepting v /\ shutdown_ v' = shutdown_ v.
Proof.
  cbn [server_exec]. unfold drive_event. intros E. apply bind_Some in E as (r & Er & E).
  apply bind_Some in Er as (dr & _ & Er). apply bind_Some in Er as ([a op] & _ & Er).
  destruct (_ && _ && _) in Er; [|done]. injection Er as <-. cbn [fst snd] in E.
  destruct (Proceed _ _ _) as [v1| |] eqn:EP in E; simplify_eq.
  apply Proceed_frame in EP as (_ & _ & -> & -> & _). by destruct op, ok.
Qed.

(** A serving step moves one call forward and leaves the server running. *)
Lemma serving_step n a s s' :
  system_inv n s -> serving a = true -> system_exec a s = Some s' ->
  accepting (server s') = accepting (server s) /\ shutdown_ (server s') = shutdown_ (server s) /\
  exists i c c', calls s !! i = Some c /\ calls s' = <[i := c']> (calls s) /\
    call_work c' < call_work c /\ failed_call c' = failed_call c.
Proof.
  intros HI Ha E. destruct a as [|i a|d k|d k ok|i m| |i| |]; try done; cbn [system_exec] in E.
  - unfold match_call in E. apply bind_Some in E as (c & Hi & E). destruct (c_stage c) eqn:Hs, (bound s !! a); try done.
    destruct (_ && _) in E; simplify_eq. split_and!; [done..|]. eexists i, c, _. split_and!; try done.
    unfold call_work. cbn. rewrite Hs. destruct (c_result c); lia.
  - unfold arrive in E. apply bind_Some in E as ([b op] & Hk & E). apply bind_Some in E as (i & Hb & E).
    apply bind_Some in E as (c & Hi & E). cbn [fst snd] in *. destruct op; [|done].
    destruct (y_bound _ _ HI _ _ Hb) as (c1 & Hc1 & Hs). assert (c1 = c) as -> by congruence.
    destruct Hs as [[Hs _]|[_ Hr]];
      [|by pose proof (one_op _ _ _ _ _ (y_server _ _ HI) (list_elem_of_lookup_2 _ _ _ Hk) Hr)].
    apply bind_Some in E as (v & Ev & E). apply bind_Some in E as (x & _ & E).
    apply bind_Some in E as (y & _ & E). apply bind_Some in E as (r & _ & E). simplify_eq.
    destruct (event_frame _ _ _ _ _ _ Ev) as [H1 H2]. split_and!; [done..|]. eexists i, c, _. split_and!; try done.
    unfold call_work. cbn. rewrite Hs. destruct (c_result c); lia.
  - unfold replied in E. apply bind_Some in E as ([b op] & Hk & E). apply bind_Some in E as (i & Hb & E).
    apply bind_Some in E as (c & Hi & E). cbn [fst snd] in *. destruct op; [done|]. destruct (_ || _) in E; [|done].
    destruct (y_bound _ _ HI _ _ Hb) as (c1 & Hc1 & Hs). assert (c1 = c) as -> by congruence.
    destruct Hs as [[_ Hr]|[Hs _]];
      [by pose proof (one_op _ _ _ _ _ (y_server _ _ HI) (list_elem_of_lookup_2 _ _ _ Hk) Hr)|].
    apply bind_Some in E as (v & Ev & E). simplify_eq. destruct (event_frame _ _ _ _ _ _ Ev) as [H1 H2].
    split_and!; [done..|]. eexists i, c, _. split_and!; try done.
    unfold call_work. cbn. rewrite Hs. destruct (c_result c); lia.
  - unfold receive in E. apply bind_Some in E as (c & Hi & E). apply bind_Some in E as (msg & _ & E).
    destruct (c_result c) eqn:Hr; [done|]. case_bool_decide; simplify_eq. split_and!; [done..|].
    eexists msg.1, c, _. split_and!; try done; unfold call_work, failed_call, failed; cbn; rewrite Hr; [lia|done].
  - unfold drop_call in E. apply bind_Some in E as (c & Hi & E). destruct (c_stage c) eqn:Hs; try done.
    destruct (failed c); simplify_eq. split_and!; [done..|].
    eexists i, c, _. split_and!; try done. unfold call_work. cbn. rewrite Hs. destruct (c_result c); lia.
Qed.

(** Any pending event of a running server can be handled. *)
Lemma event_enabled n s k a op :
  system_inv n s -> shutdown_ (server s) = false -> pending (server s) !! k = Some (a, op) ->
  exists d, forall rq, exists v, server_exec (Event d k true rq) (server s) = Some v.
Proof.
  intros HI Hs Hk. pose proof (y_server _ _ HI) as HS. destruct (y_ready _ _ HI Hs) as [HR _].
  destruct (si_out _ _ HS a op) as (x & Hx & Hw); [by eapply list_elem_of_lookup_2|].
  destruct (si_live _ _ HS _ _ Hx) as [_ [b Hq]].
  assert (b = true) as ->.
  { destruct b; [done|]. apply (si_open _ _ HS) in Hq. congruence. }
  pose proof (ready_lookup _ _ _ HR Hq) as Hd. exists (cq_ x). intros rq.
  cbn [server_exec]. unfold drive_event. rewrite Hd, Hk. cbn [mbind option_bind fst snd].
  rewrite bool_decide_true by (unfold queue_of; by rewrite Hx). cbn [andb].
  destruct x as [[| |] q rq0 rp0]; unfold waits in Hw; cbn in Hw, Hq; simplify_eq; cbn; unfold Proceed, new_context, start_op; cbn.
  - change (list_alter ?f ?i ?l) with (alter f i l). rewrite (lookup_alter_at _ _ _ _ Hx). cbn. rewrite Hq. eauto.
  - rewrite Hx. cbn. rewrite Hq. eauto.
Qed.

(** The operation of a context that has a call can be handled. *)
Lemma bound_event n s k a op i :
  system_inv n s -> shutdown_ (server s) = false -> pending (server s) !! k = Some (a, op) -> bound s !! a = Some i ->
  exists b s', serving b = true /\ system_exec b s = Some s'.
Proof.
  intros HI Hs Hk Hb. pose proof (y_server _ _ HI) as HS.
  destruct (event_enabled _ _ _ _ _ HI Hs Hk) as [d Hev]. destruct (y_bound _ _ HI _ _ Hb) as (c & Hc & _).
  destruct (Hev (c_request c)) as [v Ev]. destruct op.
  - destruct (event_effect _ _ _ _ _ _ _ _ _ HS Hk Ev) as (_ & _ & _ & q & Hv).
    eexists (Arrive d k), _. split; [done|]. cbn [system_exec]. unfold arrive. rewrite Hk. cbn [mbind option_bind fst snd].
    rewrite Hb. cbn [mbind option_bind]. rewrite Hc. cbn [mbind option_bind]. rewrite Ev. cbn [mbind option_bind].
    rewrite Hv. cbn. reflexivity.
  - eexists (ReplySent d k true), _. split; [done|]. cbn [system_exec]. unfold replied. rewrite Hk. cbn [mbind option_bind fst snd].
    rewrite Hb. cbn [mbind option_bind]. rewrite Hc. cbn [mbind option_bind orb]. by rewrite Ev.
Qed.

Lemma waiting_moves n s i c :
  system_inv n s -> shutdown_ (server s) = false -> accepting (server s) = true ->
  calls s !! i = Some c -> c_stage c = Waiting -> pending (server s) <> [] ->
  exists b s', serving b = true /\ system_exec b s = Some s'.
Proof.
  intros HI Hs Hacc Hi Hst Hp. destruct (pending (server s)) as [|[a op] rest] eqn:Hpe; [done|].
  assert (pending (server s) !! 0%nat = Some (a, op)) as Hk by (by rewrite Hpe).
  destruct (bound s !! a) as [j|] eqn:Hb; [by eapply bound_event|]. destruct op.
  - eexists (Match i a), _. split; [done|]. cbn [system_exec]. unfold match_call. rewrite Hi. cbn [mbind option_bind].
    rewrite Hst, Hb, Hacc, Hpe. cbn. rewrite bool_decide_true by done. reflexivity.
  - destruct (y_reply _ _ HI a) as [j Hj]; [rewrite Hpe; set_solver|]. congruence.
Qed.

Lemma lost_failed (l : list call) : total lost_call l <= total failed_call l.
Proof. apply total_le. intros c. unfold lost_call, failed_call. destruct (c_stage c), (failed c); lia. Qed.

(** [C17] A running server answers: as long as fewer calls have failed than contexts
    were created, there is for every caller still waiting a step of the server,
    of gRPC or of a stub to make, and every such step brings some call nearer to
    its end; so without further failures every schedule reaches the point where
    all callers have their answer. *)
Theorem server_answers hc env nc port s :
  (0 < hc)%nat -> initial_contexts hc env = Ret nc ->
  reachable system_exec (started_with hc env port) s ->
  accepting (server s) = true -> shutdown_ (server s) = false -> total failed_call (calls s) < nc ->
  (forall a s', serving a = true -> system_exec a s = Some s' ->
     0 <= total call_work (calls s') < total call_work (calls s) /\
     accepting (server s') = true /\ shutdown_ (server s') = false /\
     total failed_call (calls s') = total failed_call (calls s)) /\
  (forall i c, calls s !! i = Some c -> c_result c = None ->
     exists a s', serving a = true /\ system_exec a s = Some s').
Proof.
  intros Hc HE HI%(reach_system _ _ _ _ _ Hc HE) Hacc Hs Hf. split.
  - intros a s' Ha E. destruct (serving_step _ _ _ _ HI Ha E) as (-> & -> & i & x & x' & Hi & -> & Hw & Hx).
    rewrite !(total_insert _ _ _ _ _ Hi). split_and!; try done; try lia.
    rewrite <- (total_insert call_work _ _ _ x' Hi). apply total_nonneg. intros y.
    unfold call_work. destruct (c_stage y), (c_result y); lia.
  - intros i c Hi Hr.
    assert (taken (c_stage c) -> exists a s', serving a = true /\ system_exec a s = Some s') as Htaken.
    { intros Ht. destruct (y_taken _ _ HI _ _ Hi Ht) as [a Ha]. destruct (y_bound _ _ HI _ _ Ha) as (c1 & _ & Hsv).
      destruct Hsv as [[_ [k Hk]%list_elem_of_lookup]|[_ [k Hk]%list_elem_of_lookup]]; by eapply bound_event. }
    destruct (c_stage c) eqn:Hst.
    + pose proof (lost_failed (calls s)). pose proof (y_lost _ _ HI Hacc). pose proof (si_count _ _ (y_server _ _ HI)).
      eapply waiting_moves; try done. intros Hp. rewrite Hp in *. cbn in *. lia.
    + apply Htaken. by left.
    + apply Htaken. by right.
    + destruct (y_sent _ _ HI _ _ Hi) as (r & [m Hm]%list_elem_of_lookup); [rewrite Hst; by right|].
      eexists (Receive i m), _. split; [done|]. cbn. unfold receive. rewrite Hi. cbn. rewrite Hm. cbn.
      by rewrite Hr, bool_decide_true.
    + pose proof (co_dropped _ (y_calls _ _ HI _ _ Hi) Hst) as Hd. unfold failed in Hd. by rewrite Hr in Hd.
Qed.
End system.

(** ** What [submit_task_sync] returns *)

Section submit.
Context {J PS PV Handler : Type} `{JsonLaws J} `{StructLaws PS PV}.

(** [C14] The blocking submission, with any number of others in progress: a
    task whose members are in the range of their C++ types,
    sent through a connected stub to this server as one of its calls, on a stack deep
    enough for the nesting of its data, either comes back with state
    SUCCESS, a cancellation flag of its own, every other member that is not JSON as it
    was sent, and the parameters and the result with the same leaves (arrays as objects
    keyed by index, without nulls, integers as the nearest doubles, a scalar document
    below the empty key); or the call throws [GrpcError]
    with the status gRPC reported; nothing else can happen, whatever the other
    calls, the drivers and a shutdown do. *)
Theorem submit_sync_concurrent hc env nc port (t : Task J) (l : loc) (cl : client (J:=J) (PS:=PS)) :
  (0 < hc)%nat -> initial_contexts hc env = Ret nc ->
  task_wf t -> stub_ cl = true ->
  exists depth, forall stack, (depth < stack)%nat ->
  forall (s : system (PS:=PS) (Handler:=Handler)) i c res,
  reachable system_exec (started_with hc env port) s -> calls s !! i = Some c ->
  TaskToProto stack t = Ret (c_request c) -> c_result c = Some res ->
  if status_ok res.1
  then exists t', submit_task_sync stack (fun _ => res) l t cl = Ret (with_state SUCCESS t') /\
         cancelled t' = Some l /\ same_task t t'
  else submit_task_sync stack (fun _ => res) l t cl = Throw (GrpcError res.1).
Proof.
  intros Hc HE Hwf Hs. destruct (submit_sync_echo t l cl Hwf Hs) as [depth HD].
  exists depth. intros stack Hst s i c [st resp] Hreach Hi Hto Hres. cbn [fst].
  pose proof (reach_system _ _ _ _ _ Hc HE Hreach) as HI. destruct (y_calls _ _ HI _ _ Hi) as [_ HR].
  destruct (status_ok st) eqn:Hok.
  - destruct (HR _ _ Hres Hok) as (-> & (r & -> & ->%echoes_eq) & _).
    destruct (HD stack Hst) as (t' & E & HT). exists t'. split; [|done].
    rewrite <- E. unfold submit_task_sync, to_proto. rewrite Hs, Hto. done.
  - unfold submit_task_sync, to_proto. rewrite Hs, Hto. cbn. by rewrite Hok.
Qed.
End submit.

(** ** Traces *)

Module SystemCallTraces.
Import JsonModel TaskWitness ConvertWitness ClientTraces ServerTraces.

Abbreviation sys := (system (PS := pstruct) (Handler := unit)).
Abbreviation act := (system_act (PS := pstruct)).

(** One context, three callers: the second is served after the first, the third
    gives up. *)
Definition other : PbTask pstruct := OnSubmitTask message.
Definition start : sys := mkSystem started [] ∅ [].
Definition three_calls : list act :=
  [Call message; Call other; Call message; Match 0 0; Arrive 0 0; Fail 2 (mkStatus sc_UNAVAILABLE "gone");
   Receive 0 0; ReplySent 0 0 true; Match 1 1; Arrive 0 0; Receive 1 1; DropCall 2].
Definition after : sys := default start (run system_exec three_calls start).
(** ... and before the second is delivered. *)
Definition midway : sys := default start (run system_exec (take 5 three_calls) start).

Lemma after_reachable : reachable system_exec (started_with 1 (Some "1"%string) 50051) after.
Proof. apply default_reachable; [split_and!; reflexivity | vm_compute; reflexivity]. Qed.

(** A call matched before the shutdown is delivered after it: the context starts its
    reply on a queue that is shut down, unless the driver is faster. *)
Example late_arrival :
  let tr := [Call message; Match 0 0; ServerStep StopServer] in
  is_Some (run system_exec (tr ++ [Arrive 0 0; Receive 0 0]) start) /\
  run system_exec (tr ++ [ServerStep (StopQueue 0); Arrive 0 0]) start = None.
Proof. split; [eexists|]; vm_compute; reflexivity. Qed.

Lemma server_refines_echo_witness : rtc echo_step [] (abstraction after).
Proof.
  apply (server_refines_echo 1 (Some "1"%string) 1 50051).
  - lia.
  - reflexivity.
  - exact after_reachable.
Defined.

Lemma server_answers_witness :
  exists a s', serving a = true /\ system_exec a midway = Some s'.
Proof.
  destruct (server_answers (PS := pstruct) (Handler := unit) 1 (Some "1"%string) 1 50051 midway) as [_ HA].
  - lia.
  - reflexivity.
  - apply default_reachable; [split_and!; reflexivity | vm_compute; reflexivity].
  - vm_compute. reflexivity.
  - vm_compute. reflexivity.
  - vm_compute. reflexivity.
  - apply (HA 1%nat (mkCall other Waiting None)); vm_compute; reflexivity.
Defined.

Lemma submit_sync_concurrent_witness :
  exists stack t',
    submit_task_sync stack (fun _ => (Status_OK, Some other)) 9 sample (GrpcClient_new true) = Ret (with_state SUCCESS t') /\
    cancelled t' = Some 9%positive /\ same_task sample t'.
Proof.
  destruct (submit_sync_concurrent (J := jtree) (Handler := unit) 1 (Some "1"%string) 1 50051 sample 9 (GrpcClient_new true))
    as [depth HD].
  - lia.
  - reflexivity.
  - exact sample_wf.
  - reflexivity.
  - exists (depth + 3)%nat.
    apply (HD (depth + 3)%nat ltac:(lia) after 0%nat (mkCall message Closed (Some (Status_OK, Some other))) (Status_OK, Some other)).
    + exact after_reachable.
    + vm_compute. reflexivity.
    + apply (TaskToProto_mono 3); [lia|]. vm_compute. reflexivity.
    + reflexivity.
Defined.
End SystemCallTraces.
